(* ===== verification/_CoqProject ===== *)
-Q . S2P
Prelude.v
Domain.v
Utf8.v
Text.v
Paths.v
Json.v
JsonScan.v
SqlGuard.v
Authn.v
Lifecycle.v
Config.v
MetaStore.v
RecordJson.v
Rows.v
Parquet.v
Prog.v
Pipe.v
Tracing.v
Meter.v
Redis.v
Subscription.v
Encoder.v
ResultStore.v
ClickHouse.v
StorePipes.v
Databases.v
Pools.v
SqlDB.v
Harness.v
Certs.v
ManagerState.v
Manager.v
Progress.v
World.v
Submission.v
Execution.v
Connections.v
Telemetry.v
Maintenance.v
Service.v
Workers.v
WebSocket.v
RateLimit.v
Rest.v
RestServer.v
RestWire.v
EndToEnd.v
Messages.v
Grpc.v
Connect.v
Process.v
Transports.v
