(* ===== verification/Prelude.v ===== *)
(** * dbbridge: a verification library

    dbbridge runs SQL statements against configured databases on behalf of remote
    callers, stores their results and serves them. This library models its Go
    sources as Rocq definitions and proves what they promise.

    ** The program and its model

    A caller reaches an instance over REST, gRPC/Connect or a WebSocket; the
    transports authenticate the call and hand it to the query service, which
    checks that the caller may see the query and hands it to the query manager.
    The manager submits queries, runs each in a goroutine, and keeps the
    cluster's shared metadata store up to date, next to background workers that
    renew leases, collect expired results, fail queries of lost instances and
    forward events. The files, in the order they depend on each other:

    - [Prelude]: the scope, tactics and hint database of the library; 64-bit
      integers with wrap-around, durations and instants; lists, maps and strings.
    - [Domain] (internal/core/domain): errors and their wrapping, query states
      and transitions, options and their validation, records.
    - [Utf8], [Text], [Paths], [Json], [JsonScan]: what the code uses of Go's
      standard library - UTF-8, the formatting of numbers and times,
      slash-separated paths, the printer and parser of encoding/json, and the
      byte-by-byte scanner its decoder finds the end of a value with.
    - [SqlGuard] (internal/sqlguard): the scanner that admits single read-only
      statements ([scan], [ReadOnly]).
    - [Authn] (internal/authn): tokens, scopes, credentials, ownership.
    - [Lifecycle] (internal/lifecycle): the state of an instance.
    - [Config] (internal/config): environment expansion, validation, reload,
      differences of configurations.
    - [MetaStore] (internal/state): the store's interface as a class of laws
      that failing operations satisfy too; Module [Memory], the in-memory store,
      is an instance of it, with its control channels.
    - [RecordJson]: the JSON of records and control messages. [Redis]
      (internal/state/redis.go): the Redis store as programs over commands, among
      the commands of other clients. [Subscription]: the goroutine of a control
      subscription over it.
    - [Prog]: programs over actions. An action is one atomic interaction with
      the outside of a goroutine; [executes p tr r] says that [p] performs the
      trace [tr] of actions, with the answers in it, and returns [r]. The answers
      are arbitrary, so that a theorem about all executions covers every
      behaviour of the other goroutines, the other instances, the databases and
      the storage. [wp] computes what all executions satisfy; every program
      returns under every choice of answers ([run_executes]).
    - [Pipe]: io.Pipe between two programs, as a step relation.
    - [Rows], [Parquet], [Encoder] (internal/storage): CSV, JSON lines and the
      rows, schema and conversions of Parquet; the streaming encoder.
    - [ResultStore], [ClickHouse], [StorePipes] (internal/storage/backends): the
      registry, the file and S3 backends, the ClickHouse backend, and the
      goroutines of the last two with their pipes.
    - [Tracing] (internal/db/tracing.go, internal/storage/tracing.go): the
      wrappers that put spans around pools, streams, readers and writers.
      [Telemetry], [Meter] (internal/telemetry): the metrics a query records, and
      the meter provider with its initialization.
    - [Databases], [Pools] (internal/db): the driver registry and the opening of
      pools; the methods of the pools and row streams of the four drivers. The
      class [Lends] is what a pool promises of its connections, [Pgx] what the
      library under the PostgreSQL driver documents. [SqlDB]: database/sql with its
      connections over any driver, an instance of [Lends]; its Module [DbTest] is
      internal/testutil/dbtest, the contract check of the pools. [Harness] (internal/testutil): the fakes of the service tests and the search
      for spans.
    - [Certs] (internal/transport/certs): the reloading of certificates.
    - [ManagerState] (internal/core/manager): the state the goroutines of an
      instance share - pools, registry, drain flag, slots, subscriptions and the
      event queue - and its critical sections as operations ([local_exec]).
    - [Manager] (internal/core/manager): [SubmitQuery], [run], [Watch],
      [StopQuery], [collectGarbage], [reapStaleOwners], [recoverOrphans],
      [handleControl], [syncPools] and [Reload] as programs. [Progress]: the row
      loop beside the goroutine that writes its progress.
    - [World]: an executable environment, in which the examples run.
    - [Submission], [Execution], [Maintenance]: theorems about submission, about
      the execution of a query, and about the background work. [Connections]: the
      execution of a query against the pool that lends it a connection.
    - [Workers] (internal/core/manager): the loops of the background workers, the
      closing of retired pools, startup and shutdown.
    - [Service] (internal/core/service): the operations the transports call and
      the reader of a section of a result.
    - [WebSocket] (internal/transport/ws): messages, subscriptions and goroutines
      of a connection, as a step function on labels.
    - [RateLimit] (internal/ratelimit): the limiter over token buckets.
    - [Rest], [RestServer], [RestWire] (internal/transport/rest): handlers, error
      mapping and gates; routers and middleware; request and response bodies.
      [EndToEnd]: from the bytes of a request to the database.
    - [Messages], [Grpc], [Connect] (internal/transport/grpcconnect, and the
      generated dbbridge.pb.go and dbbridge.connect.go): messages with their
      accessors; handlers and error mapping; procedures, client, interceptors and
      the server they make. [Process] (cmd/dbbridge): start, the servers it builds,
      the goroutines of the listeners beside [main], drain and shutdown.
      [Transports] compares both transports.

    ** What the theorems show

    - Submission: every check precedes every effect; a submission holds one slot,
      one context, one registration and the claim of its key, each for the query it
      launched, or nothing, but for a claim whose release failed; repeating it returns the same query over any lawful store and under
      any interference that respects the claim; claims are exclusive and separate
      subjects.
    - Execution: a query runs its statement once and ends once, with one terminal
      event and one terminal record; it succeeds exactly when its result is
      stored, and what it stored and did not finish it asks the same store to delete;
      its error texts are fixed; it leaves the registry last, and the connection of
      its statement is back in the pool ([Connections]). Its progress
      is written beside it and is over before its verdict ([Progress]), and the
      metrics agree with what it announced ([Telemetry]).
    - Results: what the encoders write is the text of the rows; values keep their
      type and value in Parquet; a JSON-lines result comes back from ClickHouse as
      it was, in every interleaving of the goroutines, which always come to an
      end; the backends stay within their directory and prefix; the tracing
      wrappers change nothing, end their spans and record exactly the errors of
      opening and closing.
    - Redis: conditional writes are fenced, claims exclusive, and records read
      back, whatever other clients do; control messages arrive in order.
    - Process: it stops after a signal with everything closed once, users before
      what they use, unless a listener breaks and exits the process; the servers it
      starts ask the configured limiter and then the configured tokens; handshakes
      get the pair last loaded; the meter provider is built once.
    - Shared state: no interleaving sends on or closes a closed channel; terminal
      events end subscriptions; slots bound concurrency; drain is final; shutdown
      cancels whatever still runs.
    - Maintenance: a record is deleted after its result and its claim, and nothing
      else with it; only lost queries are failed, at the moment they were read, and the conditional writes of reapers, recovery and progress reports
      never touch an ended query; pools follow the configuration and retired ones
      are closed; events are published in order.
    - Callers: a query of somebody else cannot be told from an unknown one in
      either transport; routes and procedures enforce one policy; errors are
      classified alike and show no internal text; ranges and sections are exact;
      rate limits are kept per caller. The servers as they are assembled refuse
      calls without the right credential and without effect; bodies read back as
      they were written. A WebSocket connection has bounded subscriptions, forwards
      events in order and ends with all its goroutines.
    - Compositions: what is launched for a request is the statement in its bytes,
      for the caller its credential names, and that statement reaches the pool of
      its database once and unchanged; every operation does the same over REST and
      over gRPC, with the same answers.
    - Pure parts: the guard's policy, authentication, validation and expansion of
      configurations, differences, transitions.

    Lemmas named in the text of their files as divergences (for instance
    [rewatch_lost], [abandoned_subscription_leaks], [owner_overwrites_verdict], [short_heartbeat_panics], [listener_failure_leaves_open],
    [submit_ttl_overflows], [guard_accepts_second_statement]) show inputs on which
    the code does not do what its comments or documentation say.

    ** Bounds

    Recursion follows the data wherever the code's does. The statement scanner
    takes the length of the text as fuel, and [scan_loop_fuel] shows that more
    changes nothing. Discarding the bytes before a section takes one turn more
    than there are bytes, as each turn discards one at least ([copyN_spec]). The
    streaming of a download ends within the length of the result plus one reads
    ([stream_exact]). Loops that wait for a timer or a channel ([Workers]) take the
    number of turns they are followed for, and the theorems hold for each; for the
    closing of a retired pool the number that is enough is given
    ([retired_pool_closed]).

    The JSON parser takes twice the length of the text plus two as fuel, and the
    round trips show that this is enough for what the printer writes; the scanner of
    [JsonScan] needs none and agrees with it on every text ([decoder_agrees]). The search
    for a free column name and the walk over the pages of a Redis scan take fuel of
    their own. The scanner of a stored stream takes a number of reads; it runs out
    only when there were as many bytes and empty writes ([store_goroutines_end]).
    A drain is followed for 32 rounds ([process_stops]). Bounds of the code that
    appear in statements: 32 subscriptions of a connection, 100 buffered control
    messages, 128 sampled rows of a Parquet schema, and rows of a ClickHouse result numbered in 32 bits.

    ** What is not modelled

    - Log lines, and the spans of the manager and the service.
    - The bytes of a Parquet file, YAML and protocol buffer encodings.
    - The serialized descriptor of dbbridge.pb.go and the methods that hand a
      message to the protocol buffer library, and the tracing interceptor of
      Connect, which is one library call.
    - The connection to Redis, the creation of instruments and the exchange of the
      runtime collector: calls of libraries with configuration.
    - The WebSocket handshake, TLS and what a server does with its timeouts.
    - Of internal/testutil the wiring of a service for a test, the installation of
      a span recorder and the writing of a trace header.

    Databases, storage services, the file system and the clock are answers of the
    environment. Of third-party code only what a class or a hypothesis states is
    used, for instance [Unicode] for character tables, [TokenBucket] for a rate
    bucket, [Chi] for the choice of a route, [Pgx] for the connections of
    PostgreSQL, and what [Redis] states of the server. *)

From stdpp Require Export base gmap strings list option fin_maps sets relations.
From Stdlib Require Export ZArith Lia.

(** ** Scope, tactics and hints of the development *)

Declare Scope dbb_scope.
Delimit Scope dbb_scope with dbb.

Create HintDb dbb.

(** Case analysis on the scrutinee of a [match] or an [if] of the goal. *)
Ltac dmatch :=
  match goal with
  | |- context [match ?x with _ => _ end] =>
      lazymatch x with
      | context [match _ with _ => _ end] => fail
      | _ => destruct x eqn:?
      end
  end.

(** The same in a hypothesis. *)
Ltac dmatch_in H :=
  match type of H with
  | context [match ?x with _ => _ end] =>
      lazymatch x with
      | context [match _ with _ => _ end] => fail
      | _ => destruct x eqn:?
      end
  end.

(** Boolean tests of the code as the propositions they decide. *)
Ltac bprop :=
  repeat match goal with
  | H : (_ && _)%bool = true |- _ => apply andb_true_iff in H as [? ?]
  | H : (_ || _)%bool = false |- _ => apply orb_false_iff in H as [? ?]
  | H : negb _ = true |- _ => apply negb_true_iff in H
  | H : negb _ = false |- _ => apply negb_false_iff in H
  | H : bool_decide _ = true |- _ => apply bool_decide_eq_true in H
  | H : bool_decide _ = false |- _ => apply bool_decide_eq_false in H
  | H : (_ =? _)%Z = true |- _ => apply Z.eqb_eq in H
  | H : (_ =? _)%Z = false |- _ => apply Z.eqb_neq in H
  | H : (_ <? _)%Z = true |- _ => apply Z.ltb_lt in H
  | H : (_ <? _)%Z = false |- _ => apply Z.ltb_ge in H
  | H : (_ <=? _)%Z = true |- _ => apply Z.leb_le in H
  | H : (_ <=? _)%Z = false |- _ => apply Z.leb_gt in H
  end.

(** ** Machine integers and durations

    Go's [int64] is a [Z] kept in range by [wrap64]; [time.Duration] is an
    [int64] count of nanoseconds. Integer division truncates ([Z.quot]). *)

Open Scope Z_scope.

Definition int64_min : Z := - 2 ^ 63.
Definition int64_max : Z := 2 ^ 63 - 1.

Definition wrap64 (z : Z) : Z := (z + 2 ^ 63) mod 2 ^ 64 - 2 ^ 63.

Definition is_int64 (z : Z) : Prop := int64_min <= z <= int64_max.

Definition i64_add (a b : Z) : Z := wrap64 (a + b).
Definition i64_mul (a b : Z) : Z := wrap64 (a * b).
Definition i64_quot (a b : Z) : Z := wrap64 (Z.quot a b).

Definition Nanosecond : Z := 1.
Definition Microsecond : Z := 1000.
Definition Millisecond : Z := 1000000.
Definition Second : Z := 1000000000.
Definition Minute : Z := 60000000000.
Definition Hour : Z := 3600000000000.

Lemma wrap64_range z : is_int64 (wrap64 z).
Proof.
  unfold is_int64, wrap64, int64_min, int64_max.
  pose proof (Z.mod_pos_bound (z + 2 ^ 63) (2 ^ 64)). lia.
Qed.

Lemma wrap64_id z : is_int64 z -> wrap64 z = z.
Proof.
  unfold is_int64, wrap64, int64_min, int64_max. intros H.
  rewrite Z.mod_small; lia.
Qed.

#[export] Hint Resolve wrap64_range : dbb.

(** ** Instants

    A [time.Time] is the number of nanoseconds since Go's zero instant
    (January 1, year 1), so that the zero value is [0] and [IsZero] is a test
    against it. [Time] has a range of billions of years and [Add] does not wrap;
    [Sub] saturates to the bounds of [time.Duration]. *)

Abbreviation time := Z (only parsing).

Definition zero_time : Z := 0.
Definition IsZero (t : Z) : bool := t =? zero_time.
Definition time_add (t d : Z) : Z := t + d.
Definition time_before (t u : Z) : bool := t <? u.
Definition time_after (t u : Z) : bool := u <? t.
Definition time_sub (t u : Z) : Z := Z.max int64_min (Z.min int64_max (t - u)).

(** ** Lists and maps *)

(** [slices.Contains]. *)
Definition slices_contains `{EqDecision A} (l : list A) (x : A) : bool :=
  bool_decide (x ∈ l).

Lemma slices_contains_spec `{EqDecision A} (l : list A) x :
  slices_contains l x = true <-> x ∈ l.
Proof. apply bool_decide_eq_true. Qed.

Lemma slices_contains_false `{EqDecision A} (l : list A) x :
  slices_contains l x = false <-> x ∉ l.
Proof. apply bool_decide_eq_false. Qed.

(** The keys of a map that satisfy a test of the value, in the map's order. *)
Definition keys_where {V} (f : string -> V -> bool) (m : gmap string V) : list string :=
  (filter (λ kv, f kv.1 kv.2 = true) (map_to_list m)).*1.

Lemma elem_of_keys_where {V} f (m : gmap string V) k :
  k ∈ keys_where f m <-> exists v, m !! k = Some v /\ f k v = true.
Proof.
  unfold keys_where. rewrite list_elem_of_fmap. split.
  - intros ([k' v] & -> & H). apply list_elem_of_filter in H as [Hf Hin].
    apply elem_of_map_to_list in Hin. eauto.
  - intros (v & Hl & Hf). exists (k, v). split; [done|].
    apply list_elem_of_filter. split; [done|]. by apply elem_of_map_to_list.
Qed.

Lemma keys_where_NoDup {V} f (m : gmap string V) : NoDup (keys_where f m).
Proof.
  unfold keys_where. eapply sublist_NoDup; [apply (NoDup_fst_map_to_list m)|].
  apply fmap_sublist, sublist_filter.
Qed.

(** ** Strings *)

(** A one-byte string. *)
Definition byte_string (n : nat) : string := String (Ascii.ascii_of_nat n) "".

Definition newline : string := byte_string 10.

(** [strings.Join]. *)
Fixpoint strings_join (sep : string) (l : list string) : string :=
  match l with
  | [] => ""
  | [x] => x
  | x :: rest => x +:+ sep +:+ strings_join sep rest
  end.

Lemma string_append_cons c (s t : string) : String c s +:+ t = String c (s +:+ t).
Proof. done. Qed.

Lemma string_length_append (s t : string) :
  String.length (s +:+ t) = (String.length s + String.length t)%nat.
Proof. induction s; simpl; [done|]. by rewrite IHs. Qed.

(** [s[:n]] for an [n] within bounds. *)
Fixpoint string_take (n : nat) (s : string) : string :=
  match n, s with
  | S n, String c s => String c (string_take n s)
  | _, _ => ""
  end.

(** [s[n:]] for an [n] within bounds. *)
Fixpoint string_drop (n : nat) (s : string) : string :=
  match n, s with
  | S n, String c s => string_drop n s
  | 0%nat, s => s
  | _, "" => ""
  end.

Lemma string_take_length n s :
  (n <= String.length s)%nat -> String.length (string_take n s) = n.
Proof. revert s. induction n; intros [|c s]; simpl; [done..|lia|]. intros. rewrite IHn; lia. Qed.

Lemma string_take_drop n s : string_take n s +:+ string_drop n s = s.
Proof. revert s. induction n; intros [|c s]; simpl; [done..|]. by rewrite string_append_cons, IHn. Qed.

Lemma string_append_assoc (s t u : string) : (s +:+ t) +:+ u = s +:+ (t +:+ u).
Proof. induction s; [done|]. by rewrite !string_append_cons, IHs. Qed.

Lemma string_append_nil_r (s : string) : s +:+ "" = s.
Proof. induction s; [done|]. by rewrite string_append_cons, IHs. Qed.

(** The bytes that occur in a string. *)
Fixpoint string_has (c : Ascii.ascii) (s : string) : bool :=
  match s with
  | "" => false
  | String d s => bool_decide (c = d) || string_has c s
  end%string.

(** A separator that does not occur in the left parts splits uniquely. *)
Lemma append_sep_inj c (s1 s2 t1 t2 : string) :
  string_has c s1 = false -> string_has c s2 = false ->
  s1 +:+ String c t1 = s2 +:+ String c t2 -> s1 = s2 /\ t1 = t2.
Proof.
  revert s2. induction s1 as [|a s1 IH]; intros [|b s2]; simpl; intros H1 H2 E.
  - by simplify_eq.
  - simplify_eq. bprop. done.
  - simplify_eq. bprop. done.
  - injection E as -> E. bprop. apply IH in E as [-> ->]; done.
Qed.
