(* ===== verification/Domain.v ===== *)
(** * Domain model

    [internal/core/domain]: the query state machine, the options and their
    validation, the persistent query record, the error values every layer maps,
    and the wrapping discipline of Go's [errors] package they travel through. *)

From S2P Require Import Prelude.

Set Warnings "-register-all".

(** ** Errors *)

Module Errors.

(** The error values of the program: the typed domain errors of errors.go, the
    sentinels of [state], [authn] and [context], an error made by [errors.New]
    or a driver, and an error wrapped by [fmt.Errorf] with a [: %w] suffix or
    joined by [errors.Join]. *)
Inductive error :=
| DrainingError
| ValidationError (Field Reason : string)
| NotFoundError (Resource ID : string)
| UnavailableError (Resource : string)
| ResourceExhaustedError (Reason : string)
| ErrNotFound
| ErrUnauthenticated
| ErrForbidden
| ContextCanceled
| ContextDeadlineExceeded
| PlainError (msg : string)
| WrapError (msg : string) (inner : error)
| JoinError (errs : list error).

(** The [Error] methods. *)
Fixpoint Error (e : error) : string :=
  match e with
  | DrainingError => "service is draining: new queries are not accepted"
  | ValidationError f r => "invalid " +:+ f +:+ ": " +:+ r
  | NotFoundError r i => r +:+ " " +:+ i +:+ " not found"
  | UnavailableError r => r +:+ " is unreachable"
  | ResourceExhaustedError r => "resource exhausted: " +:+ r
  | ErrNotFound => "query not found"
  | ErrUnauthenticated => "missing or invalid credentials"
  | ErrForbidden => "insufficient scope"
  | ContextCanceled => "context canceled"
  | ContextDeadlineExceeded => "context deadline exceeded"
  | PlainError m => m
  | WrapError m e => m +:+ ": " +:+ Error e
  | JoinError es => strings_join newline (map Error es)
  end%string.

(** [errors.Is] and [errors.AsType] look for a match along the chain of wrapped
    errors, depth first through a join. *)
Fixpoint errors_any (p : error -> bool) (e : error) : bool :=
  p e || match e with
         | WrapError _ e => errors_any p e
         | JoinError es => existsb (errors_any p) es
         | _ => false
         end.

Definition is_validation (e : error) : bool :=
  errors_any (fun e => match e with ValidationError _ _ => true | _ => false end) e.
Definition is_not_found_type (e : error) : bool :=
  errors_any (fun e => match e with NotFoundError _ _ => true | _ => false end) e.
Definition is_draining (e : error) : bool :=
  errors_any (fun e => match e with DrainingError => true | _ => false end) e.
Definition is_unavailable (e : error) : bool :=
  errors_any (fun e => match e with UnavailableError _ => true | _ => false end) e.
Definition is_exhausted (e : error) : bool :=
  errors_any (fun e => match e with ResourceExhaustedError _ => true | _ => false end) e.
Definition is_ErrNotFound (e : error) : bool :=
  errors_any (fun e => match e with ErrNotFound => true | _ => false end) e.
Definition is_canceled (e : error) : bool :=
  errors_any (fun e => match e with ContextCanceled => true | _ => false end) e.
Definition is_deadline (e : error) : bool :=
  errors_any (fun e => match e with ContextDeadlineExceeded => true | _ => false end) e.

End Errors.
Export Errors.

(** ** Fallible results: Go's [(A, error)] *)

Inductive result (A : Type) :=
| Ok (a : A)
| Err (e : error).
Arguments Ok {A} _.
Arguments Err {A} _.

Definition result_bind {A B} (r : result A) (f : A -> result B) : result B :=
  match r with
  | Ok a => f a
  | Err e => Err e
  end.

Notation "'try' x ':=' c 'in' k" := (result_bind c (fun x => k))
  (at level 10, x name, c at level 100, k at level 200) : dbb_scope.

Definition is_ok {A} (r : result A) : bool :=
  match r with Ok _ => true | Err _ => false end.

(** A guard that returns an error early, and one that returns the error of a
    check. *)
Lemma guard_Ok {A} (b : bool) (e : error) (r : result A) (a : A) :
  (if b then Err e else r) = Ok a <-> b = false /\ r = Ok a.
Proof. destruct b; naive_solver. Qed.

Lemma check_Ok {A} (o : option error) (r : result A) (a : A) :
  match o with Some e => Err e | None => r end = Ok a <-> o = None /\ r = Ok a.
Proof. destruct o; naive_solver. Qed.

Lemma result_bind_Ok {A B} (r : result A) (f : A -> result B) b :
  result_bind r f = Ok b <-> exists a, r = Ok a /\ f a = Ok b.
Proof. destruct r; simpl; naive_solver. Qed.

(** ** The query state machine *)

Module State.

(** [type QueryState string]: the six named constants, and any other string a
    decoded record or event may carry. *)
Inductive QueryState :=
| StatePending
| StateRunning
| StateSucceeded
| StateFailed
| StateCanceled
| StateExpired
| StateOther (s : string).

#[export] Instance QueryState_eq_dec : EqDecision QueryState.
Proof. solve_decision. Defined.

Definition QueryState_string (s : QueryState) : string :=
  match s with
  | StatePending => "PENDING"
  | StateRunning => "RUNNING"
  | StateSucceeded => "SUCCEEDED"
  | StateFailed => "FAILED"
  | StateCanceled => "CANCELED"
  | StateExpired => "EXPIRED"
  | StateOther s => s
  end.

(** The conversion [domain.QueryState(s)]. *)
Definition QueryState_of_string (s : string) : QueryState :=
  if bool_decide (s = "PENDING") then StatePending
  else if bool_decide (s = "RUNNING") then StateRunning
  else if bool_decide (s = "SUCCEEDED") then StateSucceeded
  else if bool_decide (s = "FAILED") then StateFailed
  else if bool_decide (s = "CANCELED") then StateCanceled
  else if bool_decide (s = "EXPIRED") then StateExpired
  else StateOther s.

Definition IsTerminal (s : QueryState) : bool :=
  match s with
  | StateSucceeded | StateFailed | StateCanceled | StateExpired => true
  | _ => false
  end.

Definition state_eqb (s t : QueryState) : bool := bool_decide (s = t).

Definition CanTransitionTo (s next : QueryState) : bool :=
  if state_eqb s next then true
  else
    match s with
    | StatePending =>
        state_eqb next StateRunning || state_eqb next StateCanceled || state_eqb next StateFailed
    | StateRunning =>
        state_eqb next StateSucceeded || state_eqb next StateFailed || state_eqb next StateCanceled
    | StateSucceeded | StateFailed | StateCanceled => state_eqb next StateExpired
    | StateExpired => false
    | StateOther _ => false
    end.

(** The edges of the state diagram of docs/spec.md, section 3. *)
Inductive spec_edge : QueryState -> QueryState -> Prop :=
| edge_start : spec_edge StatePending StateRunning
| edge_cancel_pending : spec_edge StatePending StateCanceled
| edge_fail_pending : spec_edge StatePending StateFailed
| edge_succeed : spec_edge StateRunning StateSucceeded
| edge_fail : spec_edge StateRunning StateFailed
| edge_cancel : spec_edge StateRunning StateCanceled
| edge_expire_succeeded : spec_edge StateSucceeded StateExpired
| edge_expire_failed : spec_edge StateFailed StateExpired
| edge_expire_canceled : spec_edge StateCanceled StateExpired.

(** A proper transition the code admits. *)
Definition transition (s t : QueryState) : Prop :=
  CanTransitionTo s t = true /\ s <> t.

(** How far along its life a query is. *)
Definition state_rank (s : QueryState) : nat :=
  match s with
  | StatePending => 0
  | StateRunning => 1
  | StateSucceeded | StateFailed | StateCanceled => 2
  | _ => 3
  end.

Lemma transition_edge s t : transition s t <-> spec_edge s t.
Proof.
  unfold transition, CanTransitionTo, state_eqb. split.
  - intros [H Hne]. rewrite bool_decide_eq_false_2 in H by done.
    destruct s; try done; repeat (apply orb_true_iff in H as [H|H]);
      apply bool_decide_eq_true in H; subst; constructor.
  - destruct 1; by vm_compute.
Qed.

Lemma transition_rank s t : transition s t -> (state_rank s < state_rank t <= 3)%nat.
Proof. rewrite transition_edge. destruct 1; simpl; lia. Qed.

Lemma terminal_transition s t : IsTerminal s = true -> transition s t -> t = StateExpired.
Proof. rewrite transition_edge. by destruct 2. Qed.

Lemma CanTransitionTo_refl s : CanTransitionTo s s = true.
Proof. unfold CanTransitionTo, state_eqb. by rewrite bool_decide_eq_true_2. Qed.

Lemma CanTransitionTo_inv s t :
  CanTransitionTo s t = true -> s = t \/ transition s t.
Proof. intros H. destruct (decide (s = t)); [by left|by right]. Qed.

Lemma terminal_stays s t :
  CanTransitionTo s t = true -> IsTerminal s = true -> IsTerminal t = true.
Proof.
  intros [->|H]%CanTransitionTo_inv Hs; [done|].
  by rewrite (terminal_transition s t).
Qed.

#[export] Hint Resolve CanTransitionTo_refl terminal_stays : dbb.

(** The state machine of the code is the one of the specification: the
    proper transitions [CanTransitionTo] admits are exactly the edges of the
    diagram, every path of proper transitions makes at most three steps, and
    once a state is terminal every state reachable from it is terminal too. *)
Theorem lifecycle_correct :
  (forall s t, transition s t <-> spec_edge s t) /\
  (forall n s t, nsteps transition n s t -> (n <= 3)%nat) /\
  (forall s t, IsTerminal s = true -> rtc (fun a b => CanTransitionTo a b = true) s t ->
     IsTerminal t = true).
Proof.
  split; [apply transition_edge|]. split.
  - assert (forall n s t, nsteps transition n s t ->
      (state_rank s + n <= Nat.max 3 (state_rank s))%nat) as H.
    { induction 1 as [|n x y z Hxy _ IH]; [lia|]. apply transition_rank in Hxy. lia. }
    intros n s t Hn. apply H in Hn. destruct s; simpl in Hn; lia.
  - intros s t Hs Hst. induction Hst; eauto with dbb.
Qed.

Lemma QueryState_string_of s : QueryState_string (QueryState_of_string s) = s.
Proof. unfold QueryState_of_string. repeat case_bool_decide; by subst. Qed.

End State.
Export State.

(** ** Options *)

Module Options.

Record QueryOptions := mkQueryOptions {
  Timeout : Z;
  Mode : string;
  ResultTTL : Z;
  opt_IdempotencyKey : string;
  ResultFormat : string;
  StorageBackend : string
}.

Definition ValidResultFormats : list string := ["jsonl"; "csv"; "parquet"].
Definition ValidModes : list string := ["async"; "sync"].

(** [Validate]: the first rule that rejects decides the error. *)
Definition Validate (o : QueryOptions) : option error :=
  if negb (slices_contains ValidModes (Mode o)) then
    Some (ValidationError "mode" ("must be one of " +:+ strings_join ", " ValidModes))
  else if negb (slices_contains ValidResultFormats (ResultFormat o)) then
    Some (ValidationError "result_format"
            ("must be one of " +:+ strings_join ", " ValidResultFormats))
  else if Timeout o <? 0 then
    Some (ValidationError "timeout_ms" "must not be negative")
  else if ResultTTL o <? 0 then
    Some (ValidationError "result_ttl_seconds" "must not be negative")
  else None.

Definition valid_options (o : QueryOptions) : Prop :=
  Mode o ∈ ValidModes /\ ResultFormat o ∈ ValidResultFormats /\
  0 <= Timeout o /\ 0 <= ResultTTL o.

Lemma Validate_None o : Validate o = None <-> valid_options o.
Proof.
  unfold Validate, valid_options. rewrite <-!slices_contains_spec.
  repeat dmatch; bprop; naive_solver (lia || congruence).
Qed.

Lemma Validate_is_validation o e : Validate o = Some e -> is_validation e = true.
Proof. unfold Validate. repeat dmatch; naive_solver. Qed.

End Options.
Export Options.

(** ** Query errors, statistics, results and records *)

Module Records.

(** [type QueryErrorCode string]: the named constants, and any other string a
    decoded record or event may carry. *)
Inductive QueryErrorCode :=
| ErrCodeDBExecFailed
| ErrCodeQueryTimeout
| ErrCodeStorageInitFailed
| ErrCodeStorageWriterFailed
| ErrCodeStorageFinalizeFailed
| ErrCodeStreamEncodeFailed
| ErrCodeOwnerLost
| ErrCodeOther (s : string).

#[export] Instance QueryErrorCode_eq_dec : EqDecision QueryErrorCode.
Proof. solve_decision. Defined.

Definition QueryErrorCode_string (c : QueryErrorCode) : string :=
  match c with
  | ErrCodeDBExecFailed => "DB_EXEC_FAILED"
  | ErrCodeQueryTimeout => "QUERY_TIMEOUT"
  | ErrCodeStorageInitFailed => "STORAGE_INIT_FAILED"
  | ErrCodeStorageWriterFailed => "STORAGE_WRITER_FAILED"
  | ErrCodeStorageFinalizeFailed => "STORAGE_FINALIZE_FAILED"
  | ErrCodeStreamEncodeFailed => "STREAM_ENCODE_FAILED"
  | ErrCodeOwnerLost => "OWNER_LOST"
  | ErrCodeOther s => s
  end.

Definition QueryErrorCode_of_string (s : string) : QueryErrorCode :=
  if bool_decide (s = "DB_EXEC_FAILED") then ErrCodeDBExecFailed
  else if bool_decide (s = "QUERY_TIMEOUT") then ErrCodeQueryTimeout
  else if bool_decide (s = "STORAGE_INIT_FAILED") then ErrCodeStorageInitFailed
  else if bool_decide (s = "STORAGE_WRITER_FAILED") then ErrCodeStorageWriterFailed
  else if bool_decide (s = "STORAGE_FINALIZE_FAILED") then ErrCodeStorageFinalizeFailed
  else if bool_decide (s = "STREAM_ENCODE_FAILED") then ErrCodeStreamEncodeFailed
  else if bool_decide (s = "OWNER_LOST") then ErrCodeOwnerLost
  else ErrCodeOther s.

Record QueryError := mkQueryError {
  Code : QueryErrorCode;
  Message : string;
  Retryable : bool
}.

Definition maxQueryErrorMessage : nat := 512.

(** The UTF-8 bytes of the ellipsis. *)
Definition ellipsis : string := byte_string 226 +:+ byte_string 128 +:+ byte_string 166.

Definition NewQueryError (code : QueryErrorCode) (message : string) (retryable : bool)
  : QueryError :=
  mkQueryError code
    (if (maxQueryErrorMessage <? String.length message)%nat
     then string_take maxQueryErrorMessage message +:+ ellipsis
     else message)
    retryable.

Record QueryStats := mkQueryStats {
  RowsRead : Z;
  BytesWritten : Z;
  DBExecDuration : Z;
  StorageWriteDuration : Z;
  TotalDuration : Z
}.

Definition zero_stats : QueryStats := mkQueryStats 0 0 0 0 0.

Record ResultRef := mkResultRef {
  Backend : string;
  Locator : string;
  SizeBytes : Z;
  RowCount : Z;
  Format : string;
  Checksum : string
}.

Record QueryRecord := mkQueryRecord {
  ID : string;
  DatabaseID : string;
  SQL : string;
  rec_Options : QueryOptions;
  rec_State : QueryState;
  OwnerInstanceID : string;
  CreatedAt : time;
  StartedAt : time;
  FinishedAt : time;
  rec_Error : option QueryError;
  Stats : QueryStats;
  rec_Result : option ResultRef;
  IdempotencyKey : string;
  LeaseDeadline : time;
  Subject : string
}.

Record DatabaseInfo := mkDatabaseInfo {
  db_ID : string;
  db_Engine : string;
  db_DisplayName : string;
  db_Healthy : bool
}.

Record ReloadReport := mkReloadReport {
  Added : list string;
  Removed : list string;
  Updated : list string;
  Ignored : list string;
  Failures : list string
}.

(** Field assignments [rec.F = v]. *)
Definition set_State (v : QueryState) (r : QueryRecord) : QueryRecord :=
  mkQueryRecord (ID r) (DatabaseID r) (SQL r) (rec_Options r) v (OwnerInstanceID r)
    (CreatedAt r) (StartedAt r) (FinishedAt r) (rec_Error r) (Stats r) (rec_Result r) (IdempotencyKey r) (LeaseDeadline r) (Subject r).
Definition set_StartedAt (v : time) (r : QueryRecord) : QueryRecord :=
  mkQueryRecord (ID r) (DatabaseID r) (SQL r) (rec_Options r) (rec_State r) (OwnerInstanceID r)
    (CreatedAt r) v (FinishedAt r) (rec_Error r) (Stats r) (rec_Result r) (IdempotencyKey r) (LeaseDeadline r) (Subject r).
Definition set_FinishedAt (v : time) (r : QueryRecord) : QueryRecord :=
  mkQueryRecord (ID r) (DatabaseID r) (SQL r) (rec_Options r) (rec_State r) (OwnerInstanceID r)
    (CreatedAt r) (StartedAt r) v (rec_Error r) (Stats r) (rec_Result r) (IdempotencyKey r) (LeaseDeadline r) (Subject r).
Definition set_Error (v : option QueryError) (r : QueryRecord) : QueryRecord :=
  mkQueryRecord (ID r) (DatabaseID r) (SQL r) (rec_Options r) (rec_State r) (OwnerInstanceID r)
    (CreatedAt r) (StartedAt r) (FinishedAt r) v (Stats r) (rec_Result r) (IdempotencyKey r) (LeaseDeadline r) (Subject r).
Definition set_Stats (v : QueryStats) (r : QueryRecord) : QueryRecord :=
  mkQueryRecord (ID r) (DatabaseID r) (SQL r) (rec_Options r) (rec_State r) (OwnerInstanceID r)
    (CreatedAt r) (StartedAt r) (FinishedAt r) (rec_Error r) v (rec_Result r) (IdempotencyKey r) (LeaseDeadline r) (Subject r).
Definition set_Result (v : option ResultRef) (r : QueryRecord) : QueryRecord :=
  mkQueryRecord (ID r) (DatabaseID r) (SQL r) (rec_Options r) (rec_State r) (OwnerInstanceID r)
    (CreatedAt r) (StartedAt r) (FinishedAt r) (rec_Error r) (Stats r) v (IdempotencyKey r) (LeaseDeadline r) (Subject r).
Definition set_LeaseDeadline (v : time) (r : QueryRecord) : QueryRecord :=
  mkQueryRecord (ID r) (DatabaseID r) (SQL r) (rec_Options r) (rec_State r) (OwnerInstanceID r)
    (CreatedAt r) (StartedAt r) (FinishedAt r) (rec_Error r) (Stats r) (rec_Result r) (IdempotencyKey r) v (Subject r).

(** A query error keeps its code and flag, its message is never longer than
    the 512-byte limit plus the three bytes of the ellipsis, and a message within
    the limit is kept as it is. *)
Theorem NewQueryError_bounded code message retryable :
  let e := NewQueryError code message retryable in
  Code e = code /\ Retryable e = retryable /\
  (String.length (Message e) <= maxQueryErrorMessage + 3)%nat /\
  ((String.length message <= maxQueryErrorMessage)%nat -> Message e = message).
Proof.
  unfold NewQueryError. cbn [Code Retryable Message].
  destruct (Nat.ltb_spec maxQueryErrorMessage (String.length message)).
  - rewrite string_length_append, string_take_length by lia.
    change (String.length ellipsis) with 3%nat. repeat split; [lia|]. intros. lia.
  - repeat split. lia.
Qed.

End Records.
Export Records.
