(* ===== verification/Utf8.v ===== *)
(** * Go strings and runes

    A Go string is a byte sequence; [[]rune(s)] decodes it as UTF-8, turning each
    offending byte into U+FFFD, and [string(runes)] encodes it back. Both
    conversions are used by the SQL guard, whose scanner works on runes. *)

From S2P Require Import Prelude.

Abbreviation rune := Z (only parsing).

Definition RuneError : rune := 65533.

(** ** Bytes of a string *)

Definition byte_of (c : Ascii.ascii) : Z := Z.of_N (Ascii.N_of_ascii c).

Fixpoint bytes_of (s : string) : list Z :=
  match s with
  | "" => []
  | String c s => byte_of c :: bytes_of s
  end%string.

Fixpoint string_of_bytes (l : list Z) : string :=
  match l with
  | [] => ""
  | b :: l => String (Ascii.ascii_of_N (Z.to_N b)) (string_of_bytes l)
  end%string.

(** ** Decoding *)

Definition in_range (lo hi b : Z) : bool := (lo <=? b) && (b <=? hi).

(** A continuation byte. *)
Definition is_cont (b : Z) : bool := in_range 128 191 b.

(** The range the second byte of a sequence must fall in, by the first byte:
    it rules out overlong forms, surrogates and code points past U+10FFFF. *)
Definition accept_second (b0 b1 : Z) : bool :=
  if b0 =? 224 then in_range 160 191 b1
  else if b0 =? 237 then in_range 128 159 b1
  else if b0 =? 240 then in_range 144 191 b1
  else if b0 =? 244 then in_range 128 143 b1
  else is_cont b1.

(** [[]rune(s)] on the bytes of [s]. *)
Fixpoint decode (l : list Z) : list rune :=
  match l with
  | [] => []
  | b0 :: r0 =>
      if b0 <? 128 then b0 :: decode r0
      else
        match r0 with
        | b1 :: r1 =>
            if in_range 194 223 b0 && accept_second b0 b1 then
              (b0 - 192) * 64 + (b1 - 128) :: decode r1
            else
              match r1 with
              | b2 :: r2 =>
                  if in_range 224 239 b0 && accept_second b0 b1 && is_cont b2 then
                    (b0 - 224) * 4096 + (b1 - 128) * 64 + (b2 - 128) :: decode r2
                  else
                    match r2 with
                    | b3 :: r3 =>
                        if in_range 240 244 b0 && accept_second b0 b1 && is_cont b2 && is_cont b3
                        then (b0 - 240) * 262144 + (b1 - 128) * 4096 + (b2 - 128) * 64
                               + (b3 - 128) :: decode r3
                        else RuneError :: decode r0
                    | [] => RuneError :: decode r0
                    end
              | [] => RuneError :: decode r0
              end
        | [] => RuneError :: decode r0
        end
  end.

(** ** Encoding *)

(** The code points UTF-8 can carry. *)
Definition is_scalar (r : rune) : bool :=
  in_range 0 55295 r || in_range 57344 1114111 r.

Definition encode_scalar (r : rune) : list Z :=
  if r <? 128 then [r]
  else if r <? 2048 then [192 + r / 64; 128 + r mod 64]
  else if r <? 65536 then [224 + r / 4096; 128 + (r / 64) mod 64; 128 + r mod 64]
  else [240 + r / 262144; 128 + (r / 4096) mod 64; 128 + (r / 64) mod 64; 128 + r mod 64].

Definition encode_rune (r : rune) : list Z :=
  encode_scalar (if is_scalar r then r else RuneError).

Definition encode (l : list rune) : list Z := concat (map encode_rune l).

(** The two conversions on strings. *)
Definition runes (s : string) : list rune := decode (bytes_of s).
Definition string_of_runes (l : list rune) : string := string_of_bytes (encode l).

(** ** White space

    [strings.TrimSpace] drops the leading and trailing runes with the Unicode
    White_Space property and keeps every other byte of the string. *)

Definition is_ascii_space (b : Z) : bool := in_range 9 13 b || (b =? 32).

(** The encoded white space outside ASCII. *)
Definition wide_spaces : list (list Z) :=
  [[194; 133]; [194; 160]; [225; 154; 128]] ++
  map (fun k => [226; 128; k]) [128; 129; 130; 131; 132; 133; 134; 135; 136; 137; 138; 168; 169; 175] ++
  [[226; 129; 159]; [227; 128; 128]].

(** Drop one of the given byte sequences from the front. *)
Fixpoint drop_one (pats : list (list Z)) (l : list Z) : option (list Z) :=
  match pats with
  | [] => None
  | p :: pats =>
      if bool_decide (take (length p) l = p) then Some (drop (length p) l) else drop_one pats l
  end.

Fixpoint trim_front (fuel : nat) (pats : list (list Z)) (l : list Z) : list Z :=
  match fuel with
  | 0%nat => l
  | S fuel =>
      match l with
      | [] => []
      | b :: r =>
          if is_ascii_space b then trim_front fuel pats r
          else match drop_one pats l with
               | Some r => trim_front fuel pats r
               | None => l
               end
      end
  end.

Definition trim_bytes (l : list Z) : list Z :=
  let l := trim_front (length l) wide_spaces l in
  rev (trim_front (length l) (map (@rev Z) wide_spaces) (rev l)).

Definition TrimSpace (s : string) : string := string_of_bytes (trim_bytes (bytes_of s)).

(** ** Case folding of ASCII *)

Definition lower_byte (b : Z) : Z := if in_range 65 90 b then b + 32 else b.

(** [strings.EqualFold(s, t)] for an ASCII [t] none of whose letters folds to a
    rune outside ASCII. *)
Definition EqualFold_ascii (s t : string) : bool :=
  bool_decide (map lower_byte (bytes_of s) = map lower_byte (bytes_of t)).

(** ** Round trip *)

Lemma byte_of_range c : 0 <= byte_of c < 256.
Proof. unfold byte_of. pose proof (Ascii.N_ascii_bounded c). lia. Qed.

Lemma bytes_of_string_of_bytes l :
  Forall (fun b => 0 <= b < 256) l -> bytes_of (string_of_bytes l) = l.
Proof.
  induction 1 as [|b l Hb _ IH]; simpl; [done|]. rewrite IH. f_equal.
  unfold byte_of. rewrite Ascii.N_ascii_embedding by lia. lia.
Qed.

Lemma bytes_of_range s : Forall (fun b => 0 <= b < 256) (bytes_of s).
Proof. induction s as [|c s IH]; simpl; constructor; [apply byte_of_range|done]. Qed.

Lemma string_of_bytes_of s : string_of_bytes (bytes_of s) = s.
Proof.
  induction s as [|c s IH]; simpl; [done|]. rewrite IH. unfold byte_of.
  by rewrite N2Z.id, Ascii.ascii_N_embedding.
Qed.

Lemma is_scalar_range r :
  is_scalar r = true <-> 0 <= r <= 55295 \/ 57344 <= r <= 1114111.
Proof. unfold is_scalar, in_range. rewrite orb_true_iff, !andb_true_iff. lia. Qed.

(** Decide the byte tests of the decoder by arithmetic. *)
Ltac bool_lia :=
  unfold accept_second, is_cont, in_range;
  repeat match goal with
  | |- context [(?a <? ?b)%Z] => destruct (Z.ltb_spec a b); try lia; simpl
  | |- context [(?a <=? ?b)%Z] => destruct (Z.leb_spec a b); try lia; simpl
  | |- context [(?a =? ?b)%Z] => destruct (Z.eqb_spec a b); try lia; simpl
  end.

Lemma decode_encode_rune r l :
  is_scalar r = true -> decode (encode_rune r ++ l) = r :: decode l.
Proof.
  intros Hs. unfold encode_rune. rewrite Hs. apply is_scalar_range in Hs.
  unfold encode_scalar.
  pose proof (Z.div_mod r 64 ltac:(lia)). pose proof (Z.mod_pos_bound r 64 ltac:(lia)).
  pose proof (Z.div_mod (r / 64) 64 ltac:(lia)).
  pose proof (Z.mod_pos_bound (r / 64) 64 ltac:(lia)).
  pose proof (Z.div_mod (r / 4096) 64 ltac:(lia)).
  pose proof (Z.mod_pos_bound (r / 4096) 64 ltac:(lia)).
  assert (r / 64 / 64 = r / 4096) as E1 by (by rewrite Z.div_div by lia).
  assert (r / 4096 / 64 = r / 262144) as E2 by (by rewrite Z.div_div by lia).
  rewrite E1 in *. rewrite E2 in *.
  set (a := r / 64) in *. set (b := r / 4096) in *. set (c := r / 262144) in *.
  set (x := r mod 64) in *. set (y := a mod 64) in *. set (z := b mod 64) in *.
  clearbody a b c x y z.
  destruct (Z.ltb_spec r 128); [cbn -[Z.ltb]; by bool_lia|].
  destruct (Z.ltb_spec r 2048); [cbn -[Z.ltb]; bool_lia; f_equal; lia|].
  destruct (Z.ltb_spec r 65536); cbn -[Z.ltb]; bool_lia; f_equal; lia.
Qed.

(** Encoding a sequence of Unicode scalar values as a Go string and decoding
    it again gives the sequence back. *)
Lemma decode_encode l :
  Forall (fun r => is_scalar r = true) l -> decode (encode l) = l.
Proof.
  unfold encode. induction 1 as [|r l Hr _ IH]; [done|].
  simpl. by rewrite decode_encode_rune, IH.
Qed.
