(* ===== verification/Text.v ===== *)
(** * Numbers and instants as text

    What the sources use of [strconv] and of the RFC 3339 layouts of [time]: the
    decimal form of an integer, and the form an instant has in a JSON document or
    in a CSV cell. Text is a list of bytes here; a Go string is its
    [string_of_bytes]. *)

From S2P Require Import Prelude Utf8.

Abbreviation bytes := (list Z) (only parsing).

(** ** Decimal digits *)

Definition is_digit (b : Z) : bool := in_range 48 57 b.

(** The last [k] decimal digits of a number, zeros included. *)
Fixpoint pad (k : nat) (z : Z) : bytes :=
  match k with
  | 0%nat => []
  | S k => pad k (z / 10) ++ [48 + z mod 10]
  end.

(** All the digits of a number that is not negative; each turn drops one, so the
    binary logarithm bounds their number. *)
Fixpoint digits_fuel (fuel : nat) (z : Z) : bytes :=
  if z <? 10 then [48 + z]
  else match fuel with
       | 0%nat => []
       | S fuel => digits_fuel fuel (z / 10) ++ [48 + z mod 10]
       end.

Definition digits (z : Z) : bytes := digits_fuel (Z.to_nat (Z.log2 z)) z.

(** [strconv.FormatInt(z, 10)]. *)
Definition FormatInt (z : Z) : bytes := if z <? 0 then 45 :: digits (- z) else digits z.

(** The value of a run of digits, [None] for another byte. *)
Fixpoint undigits (acc : Z) (l : bytes) : option Z :=
  match l with
  | [] => Some acc
  | b :: l => if is_digit b then undigits (acc * 10 + (b - 48)) l else None
  end.

(** [strconv.ParseInt(s, 10, 64)] of a text without a plus sign. *)
Definition parse_int64 (l : bytes) : option Z :=
  let '(neg, ds) := match l with
    | b :: r => if b =? 45 then (true, r) else (false, l)
    | [] => (false, l)
    end in
  match ds with
  | [] => None
  | _ =>
      match undigits 0 ds with
      | None => None
      | Some n =>
          if neg then (if n <=? 2 ^ 63 then Some (- n) else None)
          else (if n <? 2 ^ 63 then Some n else None)
      end
  end.

Lemma is_digit_range b : is_digit b = true <-> 48 <= b <= 57.
Proof. unfold is_digit, in_range. rewrite andb_true_iff. lia. Qed.

Lemma undigits_app l1 l2 acc :
  undigits acc (l1 ++ l2) = undigits acc l1 ≫= fun n => undigits n l2.
Proof. revert acc. induction l1 as [|b l1 IH]; intros acc; simpl; [done|]. by destruct (is_digit b). Qed.

Lemma undigits_snoc l acc n d :
  undigits acc l = Some n -> 0 <= d < 10 -> undigits acc (l ++ [48 + d]) = Some (n * 10 + d).
Proof.
  intros Hl Hd. rewrite undigits_app, Hl. simpl.
  assert (is_digit (48 + d) = true) as -> by (apply is_digit_range; lia). f_equal. lia.
Qed.

Lemma undigits_pad k z : 0 <= z < 10 ^ Z.of_nat k -> undigits 0 (pad k z) = Some z.
Proof.
  revert z. induction k as [|k IH]; intros z Hz.
  - simpl in *. f_equal. lia.
  - cbn [pad]. rewrite Nat2Z.inj_succ, Z.pow_succ_r in Hz by lia.
    assert (0 <= z / 10 < 10 ^ Z.of_nat k)
      by (split; [apply Z.div_pos; lia|apply Z.div_lt_upper_bound; lia]).
    erewrite undigits_snoc; [|by apply IH|apply Z.mod_pos_bound; lia]. f_equal.
    pose proof (Z.div_mod z 10). lia.
Qed.

Lemma pad_length k z : length (pad k z) = k.
Proof. revert z. induction k as [|k IH]; intros z; [done|]. cbn [pad]. rewrite length_app, IH. simpl. lia. Qed.

Lemma pad_digits k z : Forall (fun b => is_digit b = true) (pad k z).
Proof.
  revert z. induction k as [|k IH]; intros z; [constructor|]. cbn [pad]. apply Forall_app.
  split; [apply IH|]. repeat constructor. apply is_digit_range.
  pose proof (Z.mod_pos_bound z 10). lia.
Qed.

Lemma digits_fuel_spec fuel z :
  0 <= z < 2 ^ (Z.of_nat fuel + 1) ->
  undigits 0 (digits_fuel fuel z) = Some z /\ digits_fuel fuel z <> [] /\
  Forall (fun b => is_digit b = true) (digits_fuel fuel z).
Proof.
  revert z. induction fuel as [|fuel IH]; intros z Hz; cbn [digits_fuel];
    destruct (Z.ltb_spec z 10) as [Hlt|Hge].
  1,3: (assert (is_digit (48 + z) = true) as Hd by (apply is_digit_range; lia)); cbn [undigits];
    rewrite Hd; split_and!; [f_equal; lia|done|by repeat constructor].
  - simpl in Hz. lia.
  - rewrite Nat2Z.inj_succ in Hz.
    replace (Z.succ (Z.of_nat fuel) + 1) with (Z.succ (Z.of_nat fuel + 1)) in Hz by lia.
    rewrite Z.pow_succ_r in Hz by lia.
    assert (0 <= z / 10 < 2 ^ (Z.of_nat fuel + 1)) as Hq.
    { split; [apply Z.div_pos; lia|apply Z.div_lt_upper_bound; lia]. }
    destruct (IH _ Hq) as (Hu & _ & Hf). pose proof (Z.mod_pos_bound z 10). split_and!.
    + erewrite undigits_snoc; [|exact Hu|lia]. f_equal. pose proof (Z.div_mod z 10). lia.
    + by intros [_ ?]%app_eq_nil.
    + apply Forall_app. split; [done|]. repeat constructor. apply is_digit_range. lia.
Qed.

Lemma digits_spec z :
  0 <= z -> undigits 0 (digits z) = Some z /\ digits z <> [] /\
    Forall (fun b => is_digit b = true) (digits z).
Proof.
  intros Hz. apply digits_fuel_spec. split; [done|].
  rewrite Z2Nat.id by apply Z.log2_nonneg. destruct (Z.eq_dec z 0) as [->|]; [done|].
  apply Z.log2_spec. lia.
Qed.

Lemma parse_FormatInt z : is_int64 z -> parse_int64 (FormatInt z) = Some z.
Proof.
  unfold is_int64, int64_min, int64_max, FormatInt, parse_int64. intros Hz.
  destruct (Z.ltb_spec z 0) as [Hneg|Hpos].
  - destruct (digits_spec (- z)) as (Hu & Hne & _); [lia|]. rewrite Z.eqb_refl, Hu.
    destruct (digits (- z)); [done|]. rewrite (proj2 (Z.leb_le _ _)) by lia. f_equal. lia.
  - destruct (digits_spec z) as (Hu & Hne & Hf); [lia|].
    destruct (digits z) as [|b l]; [done|].
    apply Forall_cons in Hf as [Hb%is_digit_range _].
    rewrite (proj2 (Z.eqb_neq b 45)) by lia.
    rewrite Hu. by rewrite (proj2 (Z.ltb_lt _ _)) by lia.
Qed.

(** ** The calendar

    The proleptic Gregorian calendar, by years that begin in March: four centuries
    have 146097 days, and only the last of them begins with a leap year, so that
    the leap day is the last day of a year, of four years or of four centuries. *)

Definition isLeap (year : Z) : bool :=
  (year mod 4 =? 0) && (negb (year mod 100 =? 0) || (year mod 400 =? 0)).

Definition daysIn (month year : Z) : Z :=
  if month =? 2 then (if isLeap year then 29 else 28)
  else if (month =? 4) || (month =? 6) || (month =? 9) || (month =? 11) then 30 else 31.

(** From the first day of March of the year 0 to the first day of the year 1. *)
Definition march_offset : Z := 306.

(** The year, month and day of a day counted from January 1 of the year 1. *)
Definition civil (day : Z) : Z * Z * Z :=
  let z := day + march_offset in
  let e := z / 146097 in
  let d := z mod 146097 in
  let c := Z.min 3 (d / 36524) in
  let d := d - 36524 * c in
  let q := d / 1461 in
  let d := d - 1461 * q in
  let y := Z.min 3 (d / 365) in
  let d := d - 365 * y in
  let m := (5 * d + 2) / 153 in
  let year := 400 * e + 100 * c + 4 * q + y in
  (if m <? 10 then year else year + 1,
   if m <? 10 then m + 3 else m - 9,
   d - (153 * m + 2) / 5 + 1).

Definition day_of (year month day : Z) : Z :=
  let '(year, m) := if month <? 3 then (year - 1, month + 9) else (year, month - 3) in
  365 * year + year / 4 - year / 100 + year / 400 + (153 * m + 2) / 5 + (day - 1) - march_offset.

(** The parts of a day: the March-based year, its leap rule and the day in it. *)
Record civil_parts (z e c q y d : Z) : Prop := {
  cp_sum : z = 146097 * e + 36524 * c + 1461 * q + 365 * y + d;
  cp_c : 0 <= c <= 3;
  cp_q : 0 <= q <= 24;
  cp_y : 0 <= y <= 3;
  cp_d : 0 <= d <= 365;
  cp_leap : d = 365 -> y = 3 /\ (q = 24 -> c = 3)
}.

Lemma civil_parts_of z :
  let e := z / 146097 in
  let d := z mod 146097 in
  let c := Z.min 3 (d / 36524) in
  let d := d - 36524 * c in
  let q := d / 1461 in
  let d := d - 1461 * q in
  let y := Z.min 3 (d / 365) in
  civil_parts z e c q y (d - 365 * y).
Proof.
  intros e d c d' q d'' y.
  pose proof (Z.div_mod z 146097 ltac:(lia)). pose proof (Z.mod_pos_bound z 146097 ltac:(lia)).
  pose proof (Z.div_mod d 36524 ltac:(lia)). pose proof (Z.mod_pos_bound d 36524 ltac:(lia)).
  pose proof (Z.div_mod d' 1461 ltac:(lia)). pose proof (Z.mod_pos_bound d' 1461 ltac:(lia)).
  pose proof (Z.div_mod d'' 365 ltac:(lia)). pose proof (Z.mod_pos_bound d'' 365 ltac:(lia)).
  subst e d c d' q d'' y. split; lia.
Qed.

Lemma month_of_day d :
  0 <= d <= 365 ->
  let m := (5 * d + 2) / 153 in
  0 <= m <= 11 /\ 0 <= d - (153 * m + 2) / 5 <= 30 /\
  (m = 11 -> d - (153 * m + 2) / 5 <= 28 /\ (d < 365 -> d - (153 * m + 2) / 5 <= 27)) /\
  (m = 1 \/ m = 3 \/ m = 6 \/ m = 8 -> d - (153 * m + 2) / 5 <= 29).
Proof.
  intros Hd. cbv zeta. pose proof (Z.div_mod (5 * d + 2) 153 ltac:(lia)).
  pose proof (Z.mod_pos_bound (5 * d + 2) 153 ltac:(lia)).
  set (m := (5 * d + 2) / 153) in *. clearbody m.
  assert (0 <= m <= 11) as Hm by lia. split; [done|].
  assert (m = 0 \/ m = 1 \/ m = 2 \/ m = 3 \/ m = 4 \/ m = 5 \/ m = 6 \/ m = 7 \/ m = 8 \/ m = 9 \/
    m = 10 \/ m = 11) as Hc by lia.
  destruct Hc as [-> |[-> |[-> |[-> |[-> |[-> |[-> |[-> |[-> |[-> |[-> | -> ]]]]]]]]]]];
    match goal with |- context [?a / 5] => let v := eval cbv in (a / 5) in change (a / 5) with v end;
    lia.
Qed.

Lemma march_year e c q y :
  0 <= c <= 3 -> 0 <= q <= 24 -> 0 <= y <= 3 ->
  let year := 400 * e + 100 * c + 4 * q + y in
  year / 4 = 100 * e + 25 * c + q /\ year / 100 = 4 * e + c /\ year / 400 = e.
Proof.
  intros Hc Hq Hy year. subst year. split_and!.
  - symmetry. apply (Z.div_unique_pos _ _ _ y); lia.
  - symmetry. apply (Z.div_unique_pos _ _ _ (4 * q + y)); lia.
  - symmetry. apply (Z.div_unique_pos _ _ _ (100 * c + 4 * q + y)); lia.
Qed.

Lemma leap_after e c q :
  0 <= c <= 3 -> 0 <= q <= 24 -> (q = 24 -> c = 3) ->
  isLeap (400 * e + 100 * c + 4 * q + 3 + 1) = true.
Proof.
  intros Hc Hq Hl. unfold isLeap.
  assert ((400 * e + 100 * c + 4 * q + 3 + 1) mod 4 = 0) as ->.
  { symmetry. apply (Z.mod_unique_pos _ _ (100 * e + 25 * c + q + 1)); lia. }
  destruct (Z.eq_dec q 24) as [->|Hne].
  - rewrite Hl by done.
    assert ((400 * e + 100 * 3 + 4 * 24 + 3 + 1) mod 400 = 0) as ->.
    { symmetry. apply (Z.mod_unique_pos _ _ (e + 1)); lia. }
    by rewrite Z.eqb_refl, orb_true_r.
  - assert ((400 * e + 100 * c + 4 * q + 3 + 1) mod 100 = 4 * q + 4) as ->.
    { symmetry. apply (Z.mod_unique_pos _ _ (4 * e + c)); lia. }
    by rewrite (proj2 (Z.eqb_neq (4 * q + 4) 0)) by lia.
Qed.

(** The date of a day is a day of the calendar, and the one it came from. *)
Lemma civil_spec day year month d :
  civil day = (year, month, d) ->
  day_of year month d = day /\ 1 <= month <= 12 /\ 1 <= d <= daysIn month year.
Proof.
  unfold civil. set (z := day + march_offset).
  pose proof (civil_parts_of z) as Hp. cbv zeta in *. revert Hp.
  set (e := z / 146097). set (d0 := z mod 146097). set (c := Z.min 3 (d0 / 36524)).
  set (d1 := d0 - 36524 * c). set (q := d1 / 1461). set (d2 := d1 - 1461 * q).
  set (y := Z.min 3 (d2 / 365)). set (dd := d2 - 365 * y).
  intros [Hsum Hc Hq Hy Hd Hleap]. pose proof (month_of_day dd Hd) as Hm. cbv zeta in Hm.
  pose proof (march_year e c q y Hc Hq Hy) as Hyear. cbv zeta in Hyear.
  clearbody e c q y dd. clear d0 d1 d2. subst z. set (m := (5 * dd + 2) / 153) in *. clearbody m.
  set (k := (153 * m + 2) / 5) in *. intros [= <- <- <-]. destruct Hm as (Hm & Hk & Hfeb & Hshort).
  unfold day_of. destruct (Z.ltb_spec m 10) as [Hlt|Hge].
  - rewrite (proj2 (Z.ltb_ge _ 3)) by lia. replace (m + 3 - 3) with m by lia. fold k.
    destruct Hyear as (-> & -> & ->). split; [lia|]. split; [lia|]. unfold daysIn.
    rewrite (proj2 (Z.eqb_neq _ 2)) by lia.
    destruct ((m + 3 =? 4) || (m + 3 =? 6) || (m + 3 =? 9) || (m + 3 =? 11)) eqn:Hb; [|lia].
    apply orb_true_iff in Hb as [Hb|Hb]; [apply orb_true_iff in Hb as [Hb|Hb];
      [apply orb_true_iff in Hb as [Hb|Hb]|]|]; apply Z.eqb_eq in Hb; lia.
  - rewrite (proj2 (Z.ltb_lt _ 3)) by lia. replace (m - 9 + 9) with m by lia. fold k.
    replace (400 * e + 100 * c + 4 * q + y + 1 - 1) with (400 * e + 100 * c + 4 * q + y) by lia.
    destruct Hyear as (-> & -> & ->). split; [lia|]. split; [lia|]. unfold daysIn.
    destruct (Z.eqb_spec (m - 9) 2) as [Hm11|_].
    + destruct (Z.eq_dec dd 365) as [Hdd|]; [|destruct (isLeap _); lia].
      destruct (Hleap Hdd) as [-> Hl]. rewrite leap_after by done. lia.
    + rewrite !(proj2 (Z.eqb_neq (m - 9) _)) by lia. simpl. lia.
Qed.

(** ** RFC 3339

    An instant is written in the location of the process, [zone] minutes east of
    Greenwich at that instant; a day has 86400 seconds. *)

Definition daySeconds : Z := 86400.

(** The fraction of a second: nine digits without the zeros at their end. *)
Fixpoint trim_zeros (l : bytes) : bytes :=
  match l with
  | [] => []
  | b :: l => match trim_zeros l with
              | [] => if b =? 48 then [] else [b]
              | l => b :: l
              end
  end.

Definition fraction (ns : Z) : bytes :=
  if ns =? 0 then [] else 46 :: trim_zeros (pad 9 ns).

Definition zone_text (zone : Z) : bytes :=
  if zone =? 0 then [90]
  else (if zone <? 0 then 45 else 43) :: pad 2 (Z.abs zone / 60) ++ [58] ++ pad 2 (Z.abs zone mod 60).

(** At least four digits, with a sign before the year 0. *)
Definition year_text (year : Z) : bytes :=
  (if year <? 0 then [45] else []) ++
  (if Z.abs year <? 10000 then pad 4 (Z.abs year) else digits (Z.abs year)).

(** [t.Format(time.RFC3339Nano)]. *)
Definition format_rfc3339 (zone t : Z) : bytes :=
  let local := t + zone * Minute in
  let sec := local / Second in
  let '(year, month, day) := civil (sec / daySeconds) in
  let s := sec mod daySeconds in
  year_text year ++ [45] ++ pad 2 month ++ [45] ++ pad 2 day ++ [84] ++
  pad 2 (s / 3600) ++ [58] ++ pad 2 (s mod 3600 / 60) ++ [58] ++ pad 2 (s mod 60) ++
  fraction (local mod Second) ++ zone_text zone.

(** [MarshalJSON] refuses a year that has not four digits. *)
Definition year_of (zone t : Z) : Z := (civil ((t + zone * Minute) / Second / daySeconds)).1.1.

Definition year_in_range (zone t : Z) : bool := in_range 0 9999 (year_of zone t).

(** [parseRFC3339], on the bytes of the text. *)
Definition parse_uint (l : bytes) (lo hi : Z) : option Z :=
  x ← undigits 0 l; if in_range lo hi x then Some x else None.

Definition slice (i j : nat) (l : bytes) : bytes := take (j - i) (drop i l).

(** The digits at the front of a text and what follows them. *)
Fixpoint span_digits (l : bytes) : bytes * bytes :=
  match l with
  | b :: r => if is_digit b then let '(ds, r) := span_digits r in (b :: ds, r) else ([], l)
  | [] => ([], [])
  end.

(** The fraction and the rest; digits past the ninth are ignored. *)
Definition parse_fraction (s : bytes) : Z * bytes :=
  match s with
  | p :: r =>
      let '(ds, rest) := span_digits r in
      if (p =? 46) && negb (bool_decide (ds = []))
      then (default 0 (undigits 0 (take 9 ds)) * 10 ^ (9 - Z.of_nat (length (take 9 ds))), rest)
      else (0, s)
  | [] => (0, s)
  end.

(** The offset of the zone in minutes. *)
Definition parse_zone (s : bytes) : option Z :=
  if bool_decide (s = [90]) then Some 0
  else if negb (bool_decide (length s = 6%nat)) then None
  else
    hr ← parse_uint (slice 1 3 s) 0 23;
    mm ← parse_uint (slice 4 6 s) 0 59;
    if negb (bool_decide (s !! 3%nat = Some 58)) then None
    else if bool_decide (s !! 0%nat = Some 45) then Some (- (hr * 60 + mm))
    else if bool_decide (s !! 0%nat = Some 43) then Some (hr * 60 + mm)
    else None.

Definition parse_rfc3339 (l : bytes) : option Z :=
  if Nat.ltb (length l) 19 then None
  else
    year ← parse_uint (slice 0 4 l) 0 9999;
    month ← parse_uint (slice 5 7 l) 1 12;
    day ← parse_uint (slice 8 10 l) 1 (daysIn month year);
    hour ← parse_uint (slice 11 13 l) 0 23;
    min ← parse_uint (slice 14 16 l) 0 59;
    sec ← parse_uint (slice 17 19 l) 0 59;
    if negb (bool_decide (l !! 4%nat = Some 45 /\ l !! 7%nat = Some 45 /\ l !! 10%nat = Some 84 /\
                          l !! 13%nat = Some 58 /\ l !! 16%nat = Some 58))
    then None
    else
      let '(nsec, s) := parse_fraction (drop 19 l) in
      zone ← parse_zone s;
      Some ((day_of year month day * daySeconds + hour * 3600 + min * 60 + sec) * Second + nsec
            - zone * Minute).

(** *** Round trip *)

Lemma undigits_trim l acc n :
  undigits acc l = Some n ->
  exists m, undigits acc (trim_zeros l) = Some m /\ (length (trim_zeros l) <= length l)%nat /\
    n = m * 10 ^ (Z.of_nat (length l) - Z.of_nat (length (trim_zeros l))).
Proof.
  revert acc. induction l as [|b l IH]; intros acc; simpl.
  - intros [= <-]. exists acc. split_and!; [done|lia|]. lia.
  - destruct (is_digit b) eqn:Hb; [|done]. intros Hl. apply IH in Hl as (m & Hm & Hlen & ->).
    destruct (trim_zeros l) as [|c l'] eqn:Ht.
    + simpl in Hm. injection Hm as <-. destruct (Z.eqb_spec b 48) as [->|Hne].
      * exists acc. split_and!; [done|simpl; lia|]. cbn [length].
        rewrite !Z.sub_0_r, Nat2Z.inj_succ, Z.pow_succ_r by lia. lia.
      * exists (acc * 10 + (b - 48)). cbn [undigits length]. rewrite Hb. split_and!; [done|lia|].
        do 2 f_equal. cbn [length] in *. lia.
    + exists m. cbn [undigits]. rewrite Hb. split_and!; [done|simpl in *; lia|].
      do 2 f_equal. cbn [length] in *. lia.
Qed.

Lemma trim_zeros_digits l :
  Forall (fun b => is_digit b = true) l -> Forall (fun b => is_digit b = true) (trim_zeros l).
Proof.
  induction 1 as [|b l Hb _ IH]; simpl; [constructor|]. destruct (trim_zeros l).
  - destruct (b =? 48); by repeat constructor.
  - by constructor.
Qed.

Lemma span_digits_app ds rest :
  Forall (fun b => is_digit b = true) ds ->
  match rest with b :: _ => is_digit b = false | [] => True end ->
  span_digits (ds ++ rest) = (ds, rest).
Proof.
  intros Hds Hr. induction Hds as [|b ds Hb _ IH]; simpl.
  - destruct rest as [|b rest]; [done|]. simpl. by rewrite Hr.
  - by rewrite Hb, IH.
Qed.

Lemma parse_fraction_text ns rest :
  0 <= ns < Second ->
  match rest with b :: _ => is_digit b = false /\ b <> 46 | [] => True end ->
  parse_fraction (fraction ns ++ rest) = (ns, rest).
Proof.
  intros Hns Hr. unfold fraction. destruct (Z.eqb_spec ns 0) as [->|Hne].
  - destruct rest as [|b rest]; [done|]. simpl. destruct (span_digits rest).
    by rewrite (proj2 (Z.eqb_neq b 46)) by tauto.
  - pose proof (undigits_pad 9 ns) as Hu. unfold Second in Hns.
    destruct (undigits_trim (pad 9 ns) 0 ns) as (m & Hm & Hlen & Hn); [by apply Hu|].
    rewrite pad_length in *. cbn [app]. unfold parse_fraction.
    pose proof (trim_zeros_digits _ (pad_digits 9 ns)) as Hds.
    set (ds := trim_zeros (pad 9 ns)) in *. clearbody ds.
    rewrite span_digits_app; [|done|by destruct rest as [|? ?]; [|destruct Hr]].
    rewrite (take_ge ds) by lia. rewrite Hm.
    rewrite bool_decide_eq_false_2; [rewrite Z.eqb_refl; simpl; f_equal; lia|].
    intros ->. injection Hm as <-. lia.
Qed.

Lemma length_2 {A} (l : list A) : length l = 2%nat -> exists a b, l = [a; b].
Proof. destruct l as [|a [|b [|]]]; try done. eauto. Qed.

Lemma length_4 {A} (l : list A) : length l = 4%nat -> exists a b c d, l = [a; b; c; d].
Proof. destruct l as [|a [|b [|c [|d [|]]]]]; try done. eauto 6. Qed.

Lemma parse_uint_pad k z lo hi l :
  l = pad k z -> lo <= z <= hi -> 0 <= z < 10 ^ Z.of_nat k -> parse_uint l lo hi = Some z.
Proof.
  intros -> Hb Hz. unfold parse_uint. rewrite undigits_pad by done. simpl.
  unfold in_range. by rewrite !(proj2 (Z.leb_le _ _)) by lia.
Qed.

Lemma parse_zone_text zone : Z.abs zone < 1440 -> parse_zone (zone_text zone) = Some zone.
Proof.
  intros Hz. unfold zone_text. destruct (Z.eqb_spec zone 0) as [->|Hne]; [done|].
  pose proof (Z.div_mod (Z.abs zone) 60 ltac:(lia)).
  pose proof (Z.mod_pos_bound (Z.abs zone) 60 ltac:(lia)).
  set (h := Z.abs zone / 60) in *. set (m := Z.abs zone mod 60) in *. clearbody h m.
  destruct (length_2 (pad 2 h)) as (a & b & Hh); [apply pad_length|].
  destruct (length_2 (pad 2 m)) as (c & d & Hm); [apply pad_length|].
  rewrite Hh, Hm. unfold parse_zone. cbn [app length slice take drop Nat.sub lookup list_lookup].
  rewrite bool_decide_eq_false_2 by (destruct (zone <? 0); intros [=]). simpl.
  rewrite (parse_uint_pad 2 h _ _ [a; b]) by first [by symmetry|lia]. simpl.
  rewrite (parse_uint_pad 2 m _ _ [c; d]) by first [by symmetry|lia]. simpl.
  destruct (Z.ltb_spec zone 0); simpl; f_equal; lia.
Qed.

Lemma zone_text_head zone :
  match zone_text zone with b :: _ => is_digit b = false /\ b <> 46 | [] => True end.
Proof. unfold zone_text. destruct (zone =? 0); [done|]. by destruct (zone <? 0). Qed.

(** An instant of the years 0 to 9999 reads back from its text, whatever the
    zone it was written in. *)
Lemma parse_format_rfc3339 zone t :
  Z.abs zone < 1440 -> year_in_range zone t = true ->
  parse_rfc3339 (format_rfc3339 zone t) = Some t.
Proof.
  intros Hz. unfold year_in_range, year_of, format_rfc3339.
  set (local := t + zone * Minute). set (sec := local / Second).
  destruct (civil (sec / daySeconds)) as [[year month] day] eqn:Hciv. cbn [fst].
  intros [Hy1%Z.leb_le Hy2%Z.leb_le]%andb_true_iff.
  apply civil_spec in Hciv as (Hday & Hmonth & Hd).
  unfold year_text. rewrite (proj2 (Z.ltb_ge year 0)), (proj2 (Z.ltb_lt (Z.abs year) 10000)) by lia.
  rewrite Z.abs_eq by lia. cbn [app].
  pose proof (Z.div_mod sec daySeconds ltac:(done)). pose proof (Z.mod_pos_bound sec daySeconds ltac:(done)).
  set (s := sec mod daySeconds) in *.
  pose proof (Z.div_mod local Second ltac:(done)). pose proof (Z.mod_pos_bound local Second ltac:(done)).
  pose proof (Z.div_mod s 3600 ltac:(lia)). pose proof (Z.mod_pos_bound s 3600 ltac:(lia)).
  pose proof (Z.div_mod (s mod 3600) 60 ltac:(lia)). pose proof (Z.mod_pos_bound (s mod 3600) 60 ltac:(lia)).
  assert (s mod 60 = (s mod 3600) mod 60) as Hs60.
  { symmetry. apply Z.mod_mod_divide. by exists 60. }
  rewrite Hs60. set (hh := s / 3600) in *. set (mm := s mod 3600 / 60) in *.
  set (ss := (s mod 3600) mod 60) in *. set (ns := local mod Second) in *.
  unfold daySeconds in *.
  assert (1 <= day <= 31) as Hd31.
  { split; [lia|]. revert Hd. unfold daysIn. repeat destruct (_ =? _); simpl; try destruct (isLeap _); lia. }
  destruct (length_4 (pad 4 year)) as (y0 & y1 & y2 & y3 & Hy); [apply pad_length|].
  destruct (length_2 (pad 2 month)) as (m0 & m1 & Hm); [apply pad_length|].
  destruct (length_2 (pad 2 day)) as (d0 & d1 & Hdd); [apply pad_length|].
  destruct (length_2 (pad 2 hh)) as (h0 & h1 & Hh); [apply pad_length|].
  destruct (length_2 (pad 2 mm)) as (i0 & i1 & Hi); [apply pad_length|].
  destruct (length_2 (pad 2 ss)) as (s0 & s1 & Hss); [apply pad_length|].
  rewrite Hy, Hm, Hdd, Hh, Hi, Hss. unfold parse_rfc3339.
  cbn [app length slice take drop Nat.sub lookup list_lookup Nat.ltb Nat.leb].
  rewrite (parse_uint_pad 4 year _ _ [y0; y1; y2; y3]), (parse_uint_pad 2 month _ _ [m0; m1]) by first [by symmetry|lia]. cbn [mbind option_bind].
  rewrite (parse_uint_pad 2 day _ _ [d0; d1]) by first [by symmetry|lia]. cbn [mbind option_bind].
  rewrite (parse_uint_pad 2 hh _ _ [h0; h1]) by first [by symmetry|lia]. cbn [mbind option_bind].
  rewrite (parse_uint_pad 2 mm _ _ [i0; i1]) by first [by symmetry|lia]. cbn [mbind option_bind].
  rewrite (parse_uint_pad 2 ss _ _ [s0; s1]) by first [by symmetry|lia]. cbn [mbind option_bind].
  rewrite bool_decide_eq_true_2 by done. cbn [negb].
  rewrite drop_0, parse_fraction_text by (lia || apply zone_text_head).
  rewrite parse_zone_text by done. cbn [mbind option_bind]. f_equal. rewrite Hday.
  assert (local = Second * sec + ns) by done. assert (local = t + zone * Minute) by done.
  clearbody local sec s ns hh mm ss. unfold daySeconds, Second, Minute in *. lia.
Qed.
