(* ===== verification/Paths.v ===== *)
(** * File paths

    The lexical functions of Go's [path/filepath] on Unix that the result stores
    rely on: [Clean], [Join], [Rel] and [IsLocal], on the bytes of a path. *)

From S2P Require Import Prelude Domain Utf8 Text.

Open Scope Z_scope.

Definition slash : Z := 47.
Definition dot : bytes := [46].
Definition dotdot : bytes := [46; 46].

(** [strings.Split(p, "/")] and [strings.Join(cs, "/")]. *)
Fixpoint split_path (p : bytes) : list bytes :=
  match p with
  | [] => [[]]
  | b :: p =>
      if b =? slash then [] :: split_path p
      else match split_path p with
           | c :: cs => (b :: c) :: cs
           | [] => [[b]]
           end
  end.

Fixpoint join_path (cs : list bytes) : bytes :=
  match cs with
  | [] => []
  | [c] => c
  | c :: cs => c ++ slash :: join_path cs
  end.

Definition rooted (p : bytes) : bool := match p with b :: _ => b =? slash | [] => false end.

(** One element of a path, on the elements kept so far, the last one first. *)
Definition clean_step (rt : bool) (acc : list bytes) (c : bytes) : list bytes :=
  if bool_decide (c = []) || bool_decide (c = dot) then acc
  else if bool_decide (c = dotdot) then
    match acc with
    | [] => if rt then [] else [dotdot]
    | top :: acc' => if bool_decide (top = dotdot) then dotdot :: acc else acc'
    end
  else c :: acc.

Definition comps (rt : bool) (p : bytes) : list bytes := rev (fold_left (clean_step rt) (split_path p) []).

Definition render (rt : bool) (cs : list bytes) : bytes :=
  if rt then slash :: join_path cs else if bool_decide (cs = []) then dot else join_path cs.

Definition Clean (p : bytes) : bytes := render (rooted p) (comps (rooted p) p).

(** [filepath.Join] of two elements: empty ones are ignored. *)
Definition Join (a b : bytes) : bytes :=
  match a, b with
  | [], [] => []
  | [], _ => Clean b
  | _, [] => Clean a
  | _, _ => Clean (a ++ slash :: b)
  end.

(** What two lists of elements have left after their common beginning. *)
Fixpoint strip_common (b t : list bytes) : list bytes * list bytes :=
  match b, t with
  | x :: b', y :: t' => if bool_decide (x = y) then strip_common b' t' else (b, t)
  | _, _ => (b, t)
  end.

(** The elements of a cleaned target: a relative path that is empty is a dot. *)
Definition target_words (p : bytes) : list bytes :=
  if negb (rooted p) && bool_decide (comps (rooted p) p = []) then [dot] else comps (rooted p) p.

(** [None] is the error. *)
Definition Rel (base targ : bytes) : option bytes :=
  if bool_decide (Clean base = Clean targ) then Some dot
  else if negb (Bool.eqb (rooted base) (rooted targ)) then None
  else
    let '(b, t) := strip_common (comps (rooted base) base) (target_words targ) in
    match b with
    | [] => Some (join_path t)
    | h :: _ => if bool_decide (h = dotdot) then None
                else Some (join_path (map (fun _ => dotdot) b ++ t))
    end.

Definition IsLocal (p : bytes) : bool :=
  if rooted p || bool_decide (p = []) then false
  else
    let q := if existsb (fun c => bool_decide (c = dot) || bool_decide (c = dotdot)) (split_path p)
             then Clean p else p in
    negb (bool_decide (q = dotdot) || bool_decide (take 3 q = dotdot ++ [slash])).

(** ** Elements *)

Definition element (c : bytes) : Prop := c <> [] /\ slash ∉ c.

Lemma split_path_nonempty p : split_path p <> [].
Proof. destruct p as [|b p]; simpl; [done|]. destruct (b =? slash); [done|]. by destruct (split_path p). Qed.

Lemma split_path_elems p : Forall (fun c => slash ∉ c) (split_path p).
Proof.
  induction p as [|b p IH]; simpl; [repeat constructor; set_solver|].
  destruct (Z.eqb_spec b slash); [constructor; [set_solver|done]|].
  destruct (split_path p) as [|c cs]; [repeat constructor; set_solver|].
  inversion IH; subst. constructor; [set_solver|done].
Qed.

Lemma split_path_plain c : slash ∉ c -> split_path c = [c].
Proof.
  induction c as [|b c IH]; intros H; [done|]. simpl. apply not_elem_of_cons in H as [Hb Hc].
  rewrite (proj2 (Z.eqb_neq b slash)) by congruence. by rewrite IH.
Qed.

Lemma split_path_app a b : split_path (a ++ slash :: b) = split_path a ++ split_path b.
Proof.
  induction a as [|x a IH]; simpl; [done|]. destruct (x =? slash); [by rewrite IH|]. rewrite IH.
  by destruct (split_path a) as [|c cs] eqn:E; [by apply split_path_nonempty in E|].
Qed.

Lemma split_join cs : cs <> [] -> Forall (fun c => slash ∉ c) cs -> split_path (join_path cs) = cs.
Proof.
  intros Hne H. induction H as [|c cs Hc _ IH]; [done|]. destruct cs as [|c' cs].
  - by apply split_path_plain.
  - change (join_path (c :: c' :: cs)) with (c ++ slash :: join_path (c' :: cs)).
    rewrite split_path_app, (split_path_plain c) by done. by rewrite IH.
Qed.

(** ** Cleaned paths *)

(** An element that is kept as it is. *)
Definition plain_elem (c : bytes) : Prop := element c /\ c <> dot /\ c <> dotdot.

(** The elements kept, the last one first: names on top of steps to a parent,
    of which a rooted path has none. *)
Definition kept (rt : bool) (acc : list bytes) : Prop :=
  exists names n, acc = names ++ replicate n dotdot /\ Forall plain_elem names /\ (rt = true -> n = 0%nat).

Lemma clean_step_kept rt acc c : slash ∉ c -> kept rt acc -> kept rt (clean_step rt acc c).
Proof.
  intros Hc (names & n & -> & Hn & Hr). unfold clean_step.
  do 2 (case_bool_decide; simpl; [by exists names, n|]). case_bool_decide; subst.
  - destruct names as [|top names]; simpl.
    + destruct n as [|n]; simpl.
      * destruct rt; [by exists [], 0%nat|]. by exists [], 1%nat.
      * exists [], (S (S n)). split_and!; [done..|]. intros Hrt. by specialize (Hr Hrt).
    + inversion Hn as [|? ? (_ & _ & ?)]; subst. rewrite bool_decide_eq_false_2 by done. by exists names, n.
  - exists (c :: names), n. split_and!; [done| |done]. by constructor.
Qed.

Lemma clean_fold_kept rt l acc :
  Forall (fun c => slash ∉ c) l -> kept rt acc -> kept rt (fold_left (clean_step rt) l acc).
Proof. intros Hl. revert acc. induction Hl; intros acc Ha; simpl; [done|]. auto using clean_step_kept. Qed.

Lemma comps_kept rt p : kept rt (rev (comps rt p)).
Proof.
  unfold comps. rewrite rev_involutive. apply clean_fold_kept; [apply split_path_elems|]. by exists [], 0%nat.
Qed.

Lemma comps_shape rt p :
  exists n names, comps rt p = replicate n dotdot ++ names /\ Forall plain_elem names /\ (rt = true -> n = 0%nat).
Proof.
  destruct (comps_kept rt p) as (names & n & H & Hn & Hr). exists n, (rev names). split_and!; [| |done].
  - rewrite <- (rev_involutive (comps rt p)), H, rev_app_distr. f_equal. clear.
    induction n as [|n IH]; [done|]. simpl. rewrite IH. by rewrite <- replicate_cons_app.
  - by apply Forall_rev.
Qed.

(** A rendered list of elements has those elements. *)
Lemma comps_render rt n names :
  Forall plain_elem names -> (rt = true -> n = 0%nat) ->
  comps rt (render rt (replicate n dotdot ++ names)) = replicate n dotdot ++ names.
Proof.
  intros Hn Hr. set (cs := replicate n dotdot ++ names).
  assert (Forall (fun c => slash ∉ c) cs) as Hs.
  { apply Forall_app. split; [apply Forall_replicate; vm_compute; intros H; set_solver|].
    eapply Forall_impl; [exact Hn|]. by intros c [[_ ?] _]. }
  assert (forall l acc, Forall plain_elem l -> fold_left (clean_step rt) l acc = rev l ++ acc) as Hplain.
  { intros l acc Hl. revert acc. induction Hl as [|c l ([? ?] & ? & ?) _ IH]; intros acc; [done|]. simpl.
    unfold clean_step at 2. rewrite !bool_decide_eq_false_2 by done. simpl.
    by rewrite IH, <- app_assoc. }
  assert (fold_left (clean_step rt) cs [] = rev cs) as Hfold.
  { unfold cs. rewrite fold_left_app, Hplain, rev_app_distr by done. f_equal. destruct rt.
    - by rewrite Hr.
    - clear. assert (forall m, fold_left (clean_step false) (replicate n dotdot) (replicate m dotdot) = replicate (n + m) dotdot) as H.
      { induction n as [|n IH]; intros m; [done|]. simpl.
        change (dotdot :: replicate (n + m) dotdot) with (replicate (S (n + m)) dotdot).
        replace (S (n + m)) with (n + S m)%nat by lia. rewrite <- IH. f_equal. by destruct m. }
      etrans; [apply (H 0%nat)|]. rewrite Nat.add_0_r. clear H. induction n as [|n IH]; [done|]. simpl. rewrite <- IH.
      by rewrite <- replicate_cons_app. }
  unfold comps, render. destruct rt; simpl.
  - destruct (decide (cs = [])) as [->|Hne]; [done|]. rewrite split_join by done. simpl.
    change (clean_step true [] []) with (@nil bytes). by rewrite Hfold, rev_involutive.
  - case_bool_decide as He; [by rewrite He|]. by rewrite split_join, Hfold, rev_involutive.
Qed.

Lemma rooted_render rt n names :
  Forall plain_elem names -> rooted (render rt (replicate n dotdot ++ names)) = rt.
Proof.
  intros Hn. destruct rt; [done|]. unfold render. case_bool_decide as He; [done|].
  destruct n as [|n]; simpl in *.
  - destruct Hn as [|c names [[Hc Hs] _] _]; [done|]. destruct c as [|b c]; [done|].
    destruct names; simpl; apply Z.eqb_neq; set_solver.
  - by destruct (replicate n dotdot ++ names).
Qed.

Lemma Clean_spec p : rooted (Clean p) = rooted p /\ comps (rooted p) (Clean p) = comps (rooted p) p.
Proof.
  unfold Clean. destruct (comps_shape (rooted p) p) as (n & names & -> & Hn & Hr).
  split; [by apply rooted_render|by apply comps_render].
Qed.

(** ** Local paths *)

Lemma starts_up q :
  bool_decide (q = dotdot) || bool_decide (take 3 q = dotdot ++ [slash]) = true <->
  head (split_path q) = Some dotdot.
Proof.
  rewrite orb_true_iff, !bool_decide_eq_true. split.
  - intros [-> |H]; [done|]. destruct q as [|a [|b [|c q]]]; try done. simpl in H. injection H as -> -> ->. done.
  - destruct q as [|a q]; [done|]. simpl. destruct (Z.eqb_spec a slash); [done|].
    destruct q as [|b q]; simpl; [by intros [= ]|]. destruct (Z.eqb_spec b slash); [by intros [=]|].
    destruct q as [|c q]; simpl; [intros [= -> ->]; by left|]. destruct (Z.eqb_spec c slash) as [->|].
    + simpl. intros [= -> ->]. by right.
    + by destruct (split_path q).
Qed.

(** Without dots, cleaning drops the empty elements only. *)
Lemma fold_no_dots rt l acc :
  existsb (fun c => bool_decide (c = dot) || bool_decide (c = dotdot)) l = false ->
  fold_left (clean_step rt) l acc = rev (filter (fun c => c <> []) l) ++ acc.
Proof.
  revert acc. induction l as [|c l IH]; intros acc; [done|]. cbn [existsb fold_left].
  intros [[H1 H2]%orb_false_iff H3]%orb_false_iff. rewrite IH by done. unfold clean_step. rewrite H1, H2.
  rewrite orb_false_r. rewrite filter_cons. destruct (decide (c = [])) as [He|He].
  - by rewrite bool_decide_eq_true_2, decide_False by (done || by intros ?).
  - rewrite bool_decide_eq_false_2, decide_True by done. simpl. by rewrite <- app_assoc.
Qed.

Lemma IsLocal_spec p :
  IsLocal p = true <-> rooted p = false /\ p <> [] /\ head (comps false p) <> Some dotdot.
Proof.
  unfold IsLocal. destruct (rooted p) eqn:Hr; simpl; [split; [done|by intros [? _]]|].
  case_bool_decide as Hp; simpl; [split; [done|by intros (_ & ? & _)]|]. rewrite negb_true_iff.
  rewrite <- not_true_iff_false, starts_up.
  assert (head (split_path (if existsb (fun c => bool_decide (c = dot) || bool_decide (c = dotdot)) (split_path p)
    then Clean p else p)) = Some dotdot <-> head (comps false p) = Some dotdot) as H; [|naive_solver].
  destruct (existsb _ _) eqn:He.
  - unfold Clean. rewrite Hr. destruct (comps_shape false p) as (n & names & -> & Hn & _). unfold render.
    case_bool_decide as Hc; [by rewrite Hc|]. rewrite split_join; [done|done|].
    apply Forall_app. split; [apply Forall_replicate; vm_compute; intros H; set_solver|].
    eapply Forall_impl; [exact Hn|]. by intros c [[_ ?] _].
  - assert (dotdot ∉ split_path p) as Hnot.
    { intros Hin. rewrite <- not_true_iff_false in He. apply He, existsb_exists. exists dotdot.
      split; [by apply list_elem_of_In|done]. }
    unfold comps. rewrite fold_no_dots, app_nil_r, rev_involutive by done. split; intros Hh; exfalso; apply Hnot.
    + destruct (split_path p); [done|]. injection Hh as ->. by left.
    + destruct (filter _ _) as [|c l] eqn:Hf; [done|]. injection Hh as ->.
      assert (dotdot ∈ filter (fun c => c <> []) (split_path p)) as Hin by (rewrite Hf; by left).
      by apply list_elem_of_filter in Hin as [_ ?].
Qed.

Lemma local_no_up p : IsLocal p = true -> dotdot ∉ comps false p.
Proof.
  intros (_ & _ & Hh)%IsLocal_spec. destruct (comps_shape false p) as (n & names & Hc & Hn & _). rewrite Hc in *.
  destruct n; [|done]. simpl. intros Hin. rewrite Forall_forall in Hn. by destruct (Hn _ Hin) as (_ & _ & ?).
Qed.

(** ** A local path below a directory *)

Lemma up_stays l acc : dotdot ∈ acc -> dotdot ∈ fold_left (clean_step false) l acc.
Proof.
  revert acc. induction l as [|c l IH]; intros acc Hin; [done|]. simpl. apply IH. unfold clean_step.
  destruct (_ || _); [done|]. case_bool_decide; [|by right]. destruct acc as [|top acc]; [by left|].
  case_bool_decide; [by left|]. apply elem_of_cons in Hin as [?|?]; [congruence|done].
Qed.

Lemma fold_below rt l a b :
  dotdot ∉ fold_left (clean_step false) l a ->
  fold_left (clean_step rt) l (a ++ b) = fold_left (clean_step false) l a ++ b.
Proof.
  revert a. induction l as [|c l IH]; intros a Hnot; [done|]. cbn [fold_left] in *.
  rewrite <- IH by done. f_equal. unfold clean_step in *. destruct (_ || _); [done|].
  case_bool_decide; [|done]. destruct a as [|top a]; simpl.
  - exfalso. apply Hnot, up_stays. by left.
  - by case_bool_decide.
Qed.

Lemma comps_below root p :
  IsLocal p = true -> comps (rooted root) (root ++ slash :: p) = comps (rooted root) root ++ comps false p.
Proof.
  intros Hl%local_no_up. unfold comps in *. rewrite split_path_app, fold_left_app.
  pose proof (fold_below (rooted root) (split_path p) [] (fold_left (clean_step (rooted root)) (split_path root) [])) as H.
  cbn [app] in H. rewrite H; [by rewrite rev_app_distr|].
  intros Hin. apply Hl. rewrite list_elem_of_In, <- in_rev. by apply list_elem_of_In.
Qed.

Lemma strip_common_prefix b t : strip_common b (b ++ t) = ([], t).
Proof. induction b as [|x b IH]; simpl; [by destruct t|]. by rewrite bool_decide_eq_true_2. Qed.

(** A local path joined to a directory is found again relative to it. *)
Lemma Rel_Join root p : root <> [] -> IsLocal p = true -> Rel root (Join root p) = Some (Clean p).
Proof.
  intros Hroot Hl. pose proof (proj1 (IsLocal_spec p) Hl) as (Hp & Hne & _).
  assert (Join root p = Clean (root ++ slash :: p)) as -> by (by destruct root, p).
  set (t := root ++ slash :: p). assert (rooted t = rooted root) as Ht by (by destruct root).
  destruct (Clean_spec t) as [Hct Hcc]. destruct (Clean_spec (Clean t)) as [Hct2 Hcc2].
  destruct (Clean_spec root) as [_ Hcr]. rewrite Ht in *. rewrite Hct in *.
  pose proof (comps_below root p Hl) as Hb. fold t in Hb. rewrite Hb in Hcc.
  assert (Clean p = render false (comps false p)) as Hcp by (unfold Clean; by rewrite Hp).
  unfold Rel. rewrite Hct, eqb_reflx. cbn [negb]. case_bool_decide as He.
  - assert (comps (rooted root) root = comps (rooted root) root ++ comps false p) as Heq.
    { rewrite <- Hcr at 1. by rewrite He, Hcc2, Hcc. }
    rewrite <- (app_nil_r (comps (rooted root) root)) in Heq at 1. apply app_inv_head in Heq.
    by rewrite Hcp, <- Heq.
  - assert (comps false p <> []) as Hn.
    { intros Hn. apply He. unfold Clean at 1 2. by rewrite Hct, Hcc, Hn, app_nil_r. }
    assert (target_words (Clean t) = comps (rooted root) root ++ comps false p) as ->.
    { unfold target_words. rewrite Hct, Hcc, bool_decide_eq_false_2, andb_false_r; [done|].
      intros [_ ?]%app_eq_nil. done. }
    rewrite strip_common_prefix, Hcp. unfold render. by rewrite bool_decide_eq_false_2.
Qed.

Lemma IsLocal_Clean p : IsLocal p = true -> IsLocal (Clean p) = true.
Proof.
  intros (Hp & Hne & Hh)%IsLocal_spec. apply IsLocal_spec. destruct (Clean_spec p) as [Hr Hc]. rewrite Hp in *.
  rewrite Hc. split_and!; [done| |done]. unfold Clean. rewrite Hp. unfold render. case_bool_decide as He; [done|].
  destruct (comps_shape false p) as (n & names & Hs & Hn & _). rewrite Hs in *.
  destruct n as [|n]; simpl in *; [|by destruct (replicate n dotdot ++ names)].
  destruct Hn as [|c names [[Hc' _] _] _]; [done|]. destruct c; [done|]. by destruct names.
Qed.
