(* ===== verification/Json.v ===== *)
(** * JSON texts

    What the sources use of [encoding/json]: the grammar of a document, the
    quoting of a string by [Marshal] and its reading by [Unmarshal]. A document is
    a [json] tree whose strings and numbers are kept as they are written - the
    bytes between the quotes, the literal of the number - because the methods
    that decode them see those bytes. *)

From S2P Require Import Prelude Utf8 Text.

Inductive json :=
| JNull
| JBool (b : bool)
| JNum (lit : bytes)
| JStr (raw : bytes)
| JArr (elems : list json)
| JObj (members : list (bytes * json)).

(** ** Strings *)

Definition hex_digit (n : Z) : Z := if n <? 10 then 48 + n else 87 + n.

Definition escape_u (r : Z) : bytes :=
  [92; 117; hex_digit (r / 4096); hex_digit (r / 256 mod 16); hex_digit (r / 16 mod 16);
   hex_digit (r mod 16)].

(** One byte below 128, as [appendString] writes it with HTML escaping on. *)
Definition quote_ascii (b : Z) : bytes :=
  if (b =? 34) || (b =? 92) then [92; b]
  else if b =? 8 then [92; 98]
  else if b =? 12 then [92; 102]
  else if b =? 10 then [92; 110]
  else if b =? 13 then [92; 114]
  else if b =? 9 then [92; 116]
  else if (b <? 32) || (b =? 60) || (b =? 62) || (b =? 38) then escape_u b
  else [b].

(** The bytes of a longer rune: they are copied, but for the two line separators
    of JavaScript. *)
Definition quote_wide (l : bytes) : bytes :=
  if bool_decide (l = [226; 128; 168]) then escape_u 8232
  else if bool_decide (l = [226; 128; 169]) then escape_u 8233
  else l.

(** [appendString] without the quotes around it. A byte that is not part of a
    rune becomes the escape of U+FFFD. *)
Fixpoint quote (l : bytes) : bytes :=
  match l with
  | [] => []
  | b0 :: r0 =>
      if b0 <? 128 then quote_ascii b0 ++ quote r0
      else
        match r0 with
        | b1 :: r1 =>
            if in_range 194 223 b0 && accept_second b0 b1 then quote_wide [b0; b1] ++ quote r1
            else
              match r1 with
              | b2 :: r2 =>
                  if in_range 224 239 b0 && accept_second b0 b1 && is_cont b2
                  then quote_wide [b0; b1; b2] ++ quote r2
                  else
                    match r2 with
                    | b3 :: r3 =>
                        if in_range 240 244 b0 && accept_second b0 b1 && is_cont b2 && is_cont b3
                        then quote_wide [b0; b1; b2; b3] ++ quote r3
                        else escape_u RuneError ++ quote r0
                    | [] => escape_u RuneError ++ quote r0
                    end
              | [] => escape_u RuneError ++ quote r0
              end
        | [] => escape_u RuneError ++ quote r0
        end
  end.

Definition unhex (b : Z) : option Z :=
  if in_range 48 57 b then Some (b - 48)
  else if in_range 97 102 b then Some (b - 87)
  else if in_range 65 70 b then Some (b - 55)
  else None.

Definition hex4 (a b c d : Z) : option Z :=
  a ← unhex a; b ← unhex b; c ← unhex c; d ← unhex d; Some (((a * 16 + b) * 16 + c) * 16 + d).

Definition is_surrogate (r : Z) : bool := in_range 55296 57343 r.

(** [utf16.DecodeRune]. *)
Definition utf16_pair (r1 r2 : Z) : option Z :=
  if in_range 55296 56319 r1 && in_range 56320 57343 r2
  then Some ((r1 - 55296) * 1024 + (r2 - 56320) + 65536) else None.

(** The byte an escape of one letter stands for. *)
Definition unescape (c : Z) : option Z :=
  if (c =? 34) || (c =? 92) || (c =? 47) then Some c
  else if c =? 98 then Some 8
  else if c =? 102 then Some 12
  else if c =? 110 then Some 10
  else if c =? 114 then Some 13
  else if c =? 116 then Some 9
  else None.

(** [unquote] on the bytes between the quotes of a valid string. *)
Fixpoint unquote (l : bytes) : bytes :=
  match l with
  | [] => []
  | b0 :: r0 =>
      if b0 =? 92 then
        match r0 with
        | [] => []
        | c :: r1 =>
            match unescape c with
            | Some b => b :: unquote r1
            | None =>
                match r1 with
                | h1 :: h2 :: h3 :: h4 :: r2 =>
                    match hex4 h1 h2 h3 h4 with
                    | None => []
                    | Some r =>
                        if is_surrogate r then
                          match r2 with
                          | s1 :: s2 :: k1 :: k2 :: k3 :: k4 :: r3 =>
                              match (if (s1 =? 92) && (s2 =? 117)
                                     then hex4 k1 k2 k3 k4 ≫= utf16_pair r else None) with
                              | Some r => encode_rune r ++ unquote r3
                              | None => encode_rune RuneError ++ unquote r2
                              end
                          | _ => encode_rune RuneError ++ unquote r2
                          end
                        else encode_rune r ++ unquote r2
                    end
                | _ => []
                end
            end
        end
      else if b0 <? 128 then b0 :: unquote r0
      else
        match r0 with
        | b1 :: r1 =>
            if in_range 194 223 b0 && accept_second b0 b1 then b0 :: b1 :: unquote r1
            else
              match r1 with
              | b2 :: r2 =>
                  if in_range 224 239 b0 && accept_second b0 b1 && is_cont b2
                  then b0 :: b1 :: b2 :: unquote r2
                  else
                    match r2 with
                    | b3 :: r3 =>
                        if in_range 240 244 b0 && accept_second b0 b1 && is_cont b2 && is_cont b3
                        then b0 :: b1 :: b2 :: b3 :: unquote r3
                        else encode_rune RuneError ++ unquote r0
                    | [] => encode_rune RuneError ++ unquote r0
                    end
              | [] => encode_rune RuneError ++ unquote r0
              end
        | [] => encode_rune RuneError ++ unquote r0
        end
  end.

(** The raw bytes of a string up to its closing quote, and what follows. *)
Fixpoint scan_string (l : bytes) : option (bytes * bytes) :=
  match l with
  | [] => None
  | b :: r =>
      if b =? 34 then Some ([], r)
      else if b =? 92 then
        match r with
        | [] => None
        | c :: r1 =>
            if (match unescape c with Some _ => true | None => false end) then
              '(raw, rest) ← scan_string r1; Some (92 :: c :: raw, rest)
            else if c =? 117 then
              match r1 with
              | h1 :: h2 :: h3 :: h4 :: r2 =>
                  match hex4 h1 h2 h3 h4 with
                  | Some _ => '(raw, rest) ← scan_string r2;
                              Some (92 :: c :: h1 :: h2 :: h3 :: h4 :: raw, rest)
                  | None => None
                  end
              | _ => None
              end
            else None
        end
      else if b <? 32 then None
      else '(raw, rest) ← scan_string r; Some (b :: raw, rest)
  end.

(** ** Numbers: the states of the scanner *)

Inductive num_state := NStart | NNeg | NZero | NInt | NDot | NFrac | NExp | NExpSign | NExpDigit.

Definition num_step (st : num_state) (b : Z) : option num_state :=
  let digit := is_digit b in
  let exp := (b =? 101) || (b =? 69) in
  match st with
  | NStart => if b =? 45 then Some NNeg else if b =? 48 then Some NZero
              else if digit then Some NInt else None
  | NNeg => if b =? 48 then Some NZero else if digit then Some NInt else None
  | NZero => if b =? 46 then Some NDot else if exp then Some NExp else None
  | NInt => if digit then Some NInt else if b =? 46 then Some NDot
            else if exp then Some NExp else None
  | NDot => if digit then Some NFrac else None
  | NFrac => if digit then Some NFrac else if exp then Some NExp else None
  | NExp => if (b =? 43) || (b =? 45) then Some NExpSign
            else if digit then Some NExpDigit else None
  | NExpSign => if digit then Some NExpDigit else None
  | NExpDigit => if digit then Some NExpDigit else None
  end.

Definition num_final (st : num_state) : bool :=
  match st with NZero | NInt | NFrac | NExpDigit => true | _ => false end.

Fixpoint scan_number (st : num_state) (l : bytes) : option (bytes * bytes) :=
  match l with
  | b :: r =>
      match num_step st b with
      | Some st => '(lit, rest) ← scan_number st r; Some (b :: lit, rest)
      | None => if num_final st then Some ([], l) else None
      end
  | [] => if num_final st then Some ([], []) else None
  end.

(** ** Documents *)

Definition is_ws (b : Z) : bool := (b =? 32) || (b =? 9) || (b =? 10) || (b =? 13).

Fixpoint skip_ws (l : bytes) : bytes :=
  match l with
  | b :: r => if is_ws b then skip_ws r else l
  | [] => []
  end.

(** The literal [lit] at the front of the text. *)
Definition expect (lit l : bytes) : option bytes :=
  if bool_decide (take (length lit) l = lit) then Some (drop (length lit) l) else None.

Definition lit_true : bytes := [116; 114; 117; 101].
Definition lit_false : bytes := [102; 97; 108; 115; 101].
Definition lit_null : bytes := [110; 117; 108; 108].

Definition maxNestingDepth : Z := 10000.

(** A value and the text after it. The fuel bounds the number of values. *)
Fixpoint parse_value (fuel : nat) (depth : Z) (l : bytes) : option (json * bytes) :=
  match fuel with
  | 0%nat => None
  | S fuel =>
      match skip_ws l with
      | [] => None
      | b :: r =>
          if b =? 123 then
            if maxNestingDepth <=? depth then None
            else match skip_ws r with
                 | [] => None
                 | c :: r1 =>
                     if c =? 125 then Some (JObj [], r1)
                     else '(ms, rest) ← parse_members fuel (depth + 1) r; Some (JObj ms, rest)
                 end
          else if b =? 91 then
            if maxNestingDepth <=? depth then None
            else match skip_ws r with
                 | [] => None
                 | c :: r1 =>
                     if c =? 93 then Some (JArr [], r1)
                     else '(vs, rest) ← parse_elements fuel (depth + 1) r; Some (JArr vs, rest)
                 end
          else if b =? 34 then '(raw, rest) ← scan_string r; Some (JStr raw, rest)
          else if b =? 116 then rest ← expect lit_true (b :: r); Some (JBool true, rest)
          else if b =? 102 then rest ← expect lit_false (b :: r); Some (JBool false, rest)
          else if b =? 110 then rest ← expect lit_null (b :: r); Some (JNull, rest)
          else '(lit, rest) ← scan_number NStart (b :: r); Some (JNum lit, rest)
      end
  end
with parse_members (fuel : nat) (depth : Z) (l : bytes) : option (list (bytes * json) * bytes) :=
  match fuel with
  | 0%nat => None
  | S fuel =>
      match skip_ws l with
      | [] => None
      | b :: r =>
          if b =? 34 then
            '(name, r) ← scan_string r;
            r ← expect [58] (skip_ws r);
            '(v, r) ← parse_value fuel depth r;
            match skip_ws r with
            | [] => None
            | c :: r =>
                if c =? 125 then Some ([(name, v)], r)
                else if c =? 44 then
                  '(ms, r) ← parse_members fuel depth r; Some ((name, v) :: ms, r)
                else None
            end
          else None
      end
  end
with parse_elements (fuel : nat) (depth : Z) (l : bytes) : option (list json * bytes) :=
  match fuel with
  | 0%nat => None
  | S fuel =>
      '(v, r) ← parse_value fuel depth l;
      match skip_ws r with
      | [] => None
      | c :: r =>
          if c =? 93 then Some ([v], r)
          else if c =? 44 then '(vs, r) ← parse_elements fuel depth r; Some (v :: vs, r)
          else None
      end
  end.

(** [checkValid] and the syntax tree: one value and white space around it. No
    byte is looked at by more than two of the nested calls the fuel counts. *)
Definition parse (l : bytes) : option json :=
  '(v, rest) ← parse_value (2 * length l + 2) 0 l;
  if bool_decide (skip_ws rest = []) then Some v else None.

(** The compact form [Marshal] produces. *)
Fixpoint print (v : json) : bytes :=
  match v with
  | JNull => lit_null
  | JBool true => lit_true
  | JBool false => lit_false
  | JNum lit => lit
  | JStr raw => [34] ++ raw ++ [34]
  | JArr vs =>
      [91] ++
      (fix elems (first : bool) (vs : list json) : bytes :=
         match vs with
         | [] => [93]
         | v :: vs => (if first then [] else [44]) ++ print v ++ elems false vs
         end) true vs
  | JObj ms =>
      [123] ++
      (fix members (first : bool) (ms : list (bytes * json)) : bytes :=
         match ms with
         | [] => [125]
         | (name, v) :: ms =>
             (if first then [] else [44]) ++ [34] ++ name ++ [34; 58] ++ print v ++ members false ms
         end) true ms
  end.

(** ** What [Marshal] writes is read back *)

Section JsonInd.
Context (P : json -> Prop).
Context (Hnull : P JNull) (Hbool : forall b, P (JBool b)) (Hnum : forall lit, P (JNum lit)).
Context (Hstr : forall raw, P (JStr raw)).
Context (Harr : forall vs, Forall P vs -> P (JArr vs)).
Context (Hobj : forall ms, Forall (fun m : bytes * json => P m.2) ms -> P (JObj ms)).

Fixpoint json_nested_ind (v : json) : P v :=
  match v with
  | JNull => Hnull
  | JBool b => Hbool b
  | JNum lit => Hnum lit
  | JStr raw => Hstr raw
  | JArr vs =>
      Harr vs ((fix go (vs : list json) : Forall P vs :=
                  match vs with
                  | [] => @List.Forall_nil _ P
                  | v :: vs => @List.Forall_cons _ P v vs (json_nested_ind v) (go vs)
                  end) vs)
  | JObj ms =>
      Hobj ms ((fix go (ms : list (bytes * json)) : Forall (fun m => P m.2) ms :=
                  match ms with
                  | [] => @List.Forall_nil _ (fun m : bytes * json => P m.2)
                  | m :: ms => @List.Forall_cons _ (fun m : bytes * json => P m.2) m ms
                                 (json_nested_ind m.2) (go ms)
                  end) ms)
  end.
End JsonInd.

(** How deep a document nests, and how many calls its reading nests. *)
Fixpoint height (v : json) : Z :=
  match v with
  | JArr vs => 1 + fold_right (fun v h => Z.max (height v) h) 0 vs
  | JObj ms => 1 + fold_right (fun m h => Z.max (height m.2) h) 0 ms
  | _ => 0
  end.

Fixpoint weight (v : json) : nat :=
  match v with
  | JArr vs => 1 + fold_right (fun v w => S (weight v + w)) 0 vs
  | JObj ms => 1 + fold_right (fun m w => S (weight m.2 + w)) 0 ms
  | _ => 1
  end%nat.

Definition wf_raw (raw : bytes) : Prop := scan_string (raw ++ [34]) = Some (raw, []).
Definition wf_num (lit : bytes) : Prop := scan_number NStart lit = Some (lit, []).

(** The strings and numbers of a document are valid tokens. *)
Fixpoint wf (v : json) : Prop :=
  match v with
  | JNum lit => wf_num lit
  | JStr raw => wf_raw raw
  | JArr vs => fold_right (fun v P => wf v /\ P) True vs
  | JObj ms => fold_right (fun m P => (wf_raw m.1 /\ wf m.2) /\ P) True ms
  | _ => True
  end.

(** A byte that cannot continue a number. *)
Definition num_end (b : Z) : bool :=
  negb (is_digit b || (b =? 46) || (b =? 101) || (b =? 69)).

Definition ends (rest : bytes) : Prop :=
  match rest with b :: _ => num_end b = true | [] => True end.

Lemma scan_string_app l raw r x :
  scan_string l = Some (raw, r) -> scan_string (l ++ x) = Some (raw, r ++ x).
Proof.
  revert l raw r. fix IH 1. intros l raw r. destruct l as [|b l]; [done|]. cbn [scan_string app].
  destruct (b =? 34); [intros [= <- <-]; done|]. destruct (b =? 92).
  - destruct l as [|c l]; [done|]. cbn [app]. destruct (unescape c).
    + destruct (scan_string l) as [[raw' r']|] eqn:Hl; [|done]. simpl. intros [= <- <-].
      by rewrite (IH l _ _ Hl).
    + destruct (c =? 117); [|done]. destruct l as [|h1 [|h2 [|h3 [|h4 l]]]]; try done. cbn [app].
      destruct (hex4 h1 h2 h3 h4); [|done].
      destruct (scan_string l) as [[raw' r']|] eqn:Hl; [|done]. simpl. intros [= <- <-].
      by rewrite (IH l _ _ Hl).
  - destruct (b <? 32); [done|]. destruct (scan_string l) as [[raw' r']|] eqn:Hl; [|done].
    simpl. intros [= <- <-]. by rewrite (IH l _ _ Hl).
Qed.

Lemma scan_raw raw rest : wf_raw raw -> scan_string (raw ++ 34 :: rest) = Some (raw, rest).
Proof.
  intros H. apply (scan_string_app _ _ _ rest) in H. by rewrite <- app_assoc in H.
Qed.

Lemma num_step_end st b : num_final st = true -> num_end b = true -> num_step st b = None.
Proof.
  unfold num_end. rewrite negb_true_iff, !orb_false_iff. intros Hst [[[Hd H46] H101] H69].
  destruct st; try done; simpl; by rewrite ?Hd, ?H46, ?H101, ?H69.
Qed.

Lemma scan_number_app st lit r rest :
  scan_number st lit = Some (r, []) -> ends rest -> scan_number st (lit ++ rest) = Some (r, rest).
Proof.
  revert st r. induction lit as [|b lit IH]; intros st r; simpl.
  - destruct (num_final st) eqn:Hst; [|done]. intros [= <-] Hr.
    destruct rest as [|b rest]; simpl; [by rewrite Hst|]. rewrite num_step_end by done. by rewrite Hst.
  - destruct (num_step st b) as [st'|]; [|destruct (num_final st); done].
    destruct (scan_number st' lit) as [[r' l']|] eqn:Hl; [|done]. simpl. intros [= <- ->] Hr.
    by rewrite (IH _ _ Hl Hr).
Qed.

(** A number starts with a digit or a sign. *)
Lemma wf_num_head lit : wf_num lit -> exists b r, lit = b :: r /\ (b = 45 \/ 48 <= b <= 57).
Proof.
  unfold wf_num. destruct lit as [|b r]; [done|]. simpl. intros H. exists b, r. split; [done|].
  destruct (Z.eqb_spec b 45); [by left|]. destruct (Z.eqb_spec b 48); [lia|].
  destruct (is_digit b) eqn:Hd; [|done]. apply is_digit_range in Hd. lia.
Qed.

Fixpoint print_elems (first : bool) (vs : list json) : bytes :=
  match vs with
  | [] => [93]
  | v :: vs => (if first then [] else [44]) ++ print v ++ print_elems false vs
  end.

Fixpoint print_members (first : bool) (ms : list (bytes * json)) : bytes :=
  match ms with
  | [] => [125]
  | (name, v) :: ms =>
      (if first then [] else [44]) ++ [34] ++ name ++ [34; 58] ++ print v ++ print_members false ms
  end.

Lemma print_JArr vs : print (JArr vs) = 91 :: print_elems true vs.
Proof. done. Qed.

Lemma print_JObj ms : print (JObj ms) = 123 :: print_members true ms.
Proof. done. Qed.

Lemma print_members_last first ms : exists t, print_members first ms = t ++ [125].
Proof.
  revert first. induction ms as [|[name v] ms IH]; intros first; simpl; [by exists []|].
  destruct (IH false) as [t ->]. eexists ((if first then [] else [44]) ++ 34 :: name ++ 34 :: 58 :: print v ++ t).
  rewrite <- app_assoc. cbn [app]. by rewrite <- !app_assoc, <- !app_comm_cons, <- app_assoc.
Qed.

(** A value starts with a byte that is neither white space nor a closing
    bracket. *)
Definition opens (b : Z) : Prop := is_ws b = false /\ b <> 93 /\ b <> 125.

Lemma print_head v : wf v -> exists b r, print v = b :: r /\ opens b.
Proof.
  destruct v as [|[]|lit|raw|vs|ms]; intros Hwf; try (by eexists _, _).
  apply wf_num_head in Hwf as (b & r & -> & Hb). exists b, r. split; [done|].
  unfold opens, is_ws. rewrite !orb_false_iff, !Z.eqb_neq. lia.
Qed.

Lemma skip_ws_opens b r : opens b -> skip_ws (b :: r) = b :: r.
Proof. intros [Hb _]. simpl. by rewrite Hb. Qed.

(** What a value is followed by inside an array or an object. *)
Lemma print_elems_false vs rest :
  exists c r, print_elems false vs ++ rest = c :: r /\ skip_ws (c :: r) = c :: r /\
    num_end c = true /\ (vs = [] -> c = 93) /\ (vs <> [] -> c = 44).
Proof. destruct vs; simpl; eexists _, _; (split; [done|]); by repeat split. Qed.

Lemma print_members_false ms rest :
  exists c r, print_members false ms ++ rest = c :: r /\ skip_ws (c :: r) = c :: r /\
    num_end c = true /\ (ms = [] -> c = 125) /\ (ms <> [] -> c = 44).
Proof. destruct ms as [|[]]; simpl; eexists _, _; (split; [done|]); by repeat split. Qed.

(** The reading of a value, for the induction. *)
Definition reads (v : json) : Prop :=
  wf v -> forall fuel depth rest,
    (weight v <= fuel)%nat -> depth + height v <= maxNestingDepth -> ends rest ->
    parse_value fuel depth (print v ++ rest) = Some (v, rest).

Lemma reads_token v :
  (forall vs, v <> JArr vs) -> (forall ms, v <> JObj ms) -> reads v.
Proof.
  intros Ha Ho Hwf [|fuel] depth rest Hw _ Hr; [destruct v; simpl in Hw; lia|].
  destruct v as [|[]|lit|raw|vs|ms]; try done; try naive_solver.
  - apply wf_num_head in Hwf as Hh. destruct Hh as (b & r & -> & Hb). cbn [print app parse_value].
    assert (opens b) as Hop.
    { unfold opens, is_ws. rewrite !orb_false_iff, !Z.eqb_neq. lia. }
    rewrite skip_ws_opens by done. rewrite !(proj2 (Z.eqb_neq b _)) by lia.
    rewrite app_comm_cons. by rewrite (scan_number_app _ (b :: r) (b :: r)).
  - cbn [print app parse_value]. rewrite <- app_assoc. simpl. by rewrite scan_raw.
Qed.

Lemma reads_elems vs :
  Forall reads vs -> vs <> [] -> fold_right (fun v P => wf v /\ P) True vs ->
  forall fuel depth rest,
    (fold_right (fun v w => S (weight v + w)) 0 vs <= fuel)%nat ->
    depth + fold_right (fun v h => Z.max (height v) h) 0 vs <= maxNestingDepth ->
    parse_elements fuel depth (print_elems true vs ++ rest) = Some (vs, rest).
Proof.
  induction 1 as [|v vs Hv Hvs IH]; [done|]. intros _ [Hwf Hwfs] [|fuel] depth rest Hw Hd;
    simpl in Hw, Hd; [lia|]. cbn [print_elems app parse_elements]. rewrite <- app_assoc.
  destruct (print_elems_false vs rest) as (c & r & Hcr & Hskip & Hend & Hnil & Hcons).
  rewrite Hcr, Hv by (done || lia). cbn [mbind option_bind]. rewrite Hskip.
  destruct vs as [|v' vs'].
  - rewrite Hnil by done. simpl. injection Hcr as <- ->. done.
  - rewrite Hcons by done. simpl. injection Hcr as <- <-. rewrite <- app_assoc.
    assert (print v' ++ print_elems false vs' ++ rest = print_elems true (v' :: vs') ++ rest) as ->
      by (simpl; by rewrite <- app_assoc).
    rewrite IH by (done || simpl in *; lia). done.
Qed.

Lemma reads_members ms :
  Forall (fun m => reads m.2) ms -> ms <> [] ->
  fold_right (fun m P => (wf_raw m.1 /\ wf m.2) /\ P) True ms ->
  forall fuel depth rest,
    (fold_right (fun m w => S (weight m.2 + w)) 0 ms <= fuel)%nat ->
    depth + fold_right (fun m h => Z.max (height m.2) h) 0 ms <= maxNestingDepth ->
    parse_members fuel depth (print_members true ms ++ rest) = Some (ms, rest).
Proof.
  induction 1 as [|[name v] ms Hv Hms IH]; [done|].
  intros _ [[Hn Hwf] Hwfs] [|fuel] depth rest Hw Hd; simpl in *; [lia|].
  rewrite <- !app_assoc. cbn [app]. rewrite scan_raw by done. simpl.
  rewrite drop_0. rewrite <- app_assoc.
  destruct (print_members_false ms rest) as (c & r & Hcr & Hskip & Hend & Hnil & Hcons).
  rewrite Hcr, Hv by (done || lia). cbn [mbind option_bind]. rewrite Hskip.
  destruct ms as [|[name' v'] ms'].
  - rewrite Hnil by done. simpl. injection Hcr as <- ->. done.
  - rewrite Hcons by done. simpl. injection Hcr as <- <-.
    specialize (IH ltac:(done) Hwfs fuel depth rest). simpl in IH. rewrite IH by (simpl in *; lia). done.
Qed.

Lemma print_parse_value v : reads v.
Proof.
  induction v as [|b|lit|raw|vs IH|ms IH] using json_nested_ind; try (by apply reads_token).
  - intros Hwf [|fuel] depth rest Hw Hd Hr; [simpl in Hw; lia|]. rewrite print_JArr. simpl in Hwf.
    cbn [app parse_value]. simpl in Hw, Hd. rewrite (proj2 (Z.leb_gt _ _)); simpl.
    2: { assert (0 <= fold_right (fun v h => Z.max (height v) h) 0 vs); [|lia].
         clear. induction vs; simpl; lia. }
    destruct vs as [|v vs]; [done|].
    destruct (print_head v) as (b & r & Hb & Hop); [by apply Hwf|].
    assert (skip_ws (print_elems true (v :: vs) ++ rest) = print_elems true (v :: vs) ++ rest) as ->.
    { cbn [print_elems app]. rewrite Hb. cbn [app]. by apply skip_ws_opens. }
    pose proof (reads_elems _ IH ltac:(done) Hwf fuel (depth + 1) rest) as Hm.
    cbn [print_elems app] in *. rewrite Hb in *. cbn [app] in *.
    rewrite (proj2 (Z.eqb_neq b 93)) by (by destruct Hop as (_ & ? & _)).
    rewrite Hm by (simpl in *; lia). done.
  - intros Hwf [|fuel] depth rest Hw Hd Hr; [simpl in Hw; lia|]. rewrite print_JObj. simpl in Hwf.
    cbn [app parse_value]. simpl in Hw, Hd. rewrite (proj2 (Z.leb_gt _ _)); simpl.
    2: { assert (0 <= fold_right (fun m h => Z.max (height m.2) h) 0 ms); [|lia].
         clear. induction ms; simpl; lia. }
    destruct ms as [|[name v] ms]; [done|].
    pose proof (reads_members _ IH ltac:(done) Hwf fuel (depth + 1) rest) as Hm.
    simpl in *. rewrite Hm by lia. done.
Qed.

Lemma weight_length v : (weight v <= 2 * length (print v) + 1)%nat.
Proof.
  induction v as [| | | |vs IH|ms IH] using json_nested_ind; try (simpl; lia).
  - rewrite print_JArr. simpl. enough (forall first : bool, (fold_right (fun v w => S (weight v + w)) 0 vs +
      (if first then 0 else 2) <= 2 * length (print_elems first vs))%nat) as H by (specialize (H true); simpl in H; lia).
    induction IH as [|v vs Hv _ IHvs]; intros first; simpl; [destruct first; simpl; lia|].
    specialize (IHvs false). rewrite !length_app. destruct first; simpl in *; lia.
  - rewrite print_JObj. simpl. enough (forall first, (fold_right (fun m w => S (weight m.2 + w)) 0 ms <=
      2 * length (print_members first ms))%nat) as H by (specialize (H true); simpl in H; lia).
    induction IH as [|[name v] ms Hv _ IHms]; intros first; simpl; [lia|].
    specialize (IHms false). simpl in Hv. destruct first; simpl; rewrite !length_app; simpl;
      rewrite length_app; lia.
Qed.

(** A document that does not nest too deep is read back as it was printed. *)
Lemma parse_print v : wf v -> height v <= maxNestingDepth -> parse (print v) = Some v.
Proof.
  intros Hwf Hh. unfold parse. rewrite <- (app_nil_r (print v)) at 2.
  rewrite print_parse_value; [done|done| |lia|done].
  pose proof (weight_length v). lia.
Qed.

(** *** Strings *)

(** A piece of a string the scanner passes over whole. *)
Definition passes (c : bytes) : Prop :=
  forall r, scan_string (c ++ r) = '(raw, rest) ← scan_string r; Some (c ++ raw, rest).

Lemma passes_plain b : b <> 34 -> b <> 92 -> 32 <= b -> passes [b].
Proof.
  intros H1 H2 H3 r. cbn [app scan_string].
  rewrite (proj2 (Z.eqb_neq b 34)), (proj2 (Z.eqb_neq b 92)), (proj2 (Z.ltb_ge b 32)) by done.
  by destruct (scan_string r) as [[]|].
Qed.

Lemma passes_app c1 c2 : passes c1 -> passes c2 -> passes (c1 ++ c2).
Proof.
  intros H1 H2 r. rewrite <- app_assoc, H1, H2. destruct (scan_string r) as [[raw rest]|]; [|done].
  simpl. by rewrite app_assoc.
Qed.

Lemma passes_wide l : Forall (fun b => 128 <= b) l -> passes l.
Proof.
  induction 1 as [|b l Hb _ IH]; [intros r; simpl; by destruct (scan_string r) as [[]|]|].
  apply (passes_app [b]); [apply passes_plain; lia|done].
Qed.

Lemma unhex_digit n : 0 <= n < 16 -> unhex (hex_digit n) = Some n.
Proof.
  intros Hn. unfold hex_digit, unhex, in_range. destruct (Z.ltb_spec n 10).
  - rewrite !(proj2 (Z.leb_le _ _)) by lia. simpl. f_equal. lia.
  - rewrite (proj2 (Z.leb_le 48 _)), (proj2 (Z.leb_gt _ 57)) by lia. simpl.
    rewrite !(proj2 (Z.leb_le _ _)) by lia. simpl. f_equal. lia.
Qed.

Lemma hex4_escape r :
  0 <= r < 65536 ->
  hex4 (hex_digit (r / 4096)) (hex_digit (r / 256 mod 16)) (hex_digit (r / 16 mod 16))
    (hex_digit (r mod 16)) = Some r.
Proof.
  intros Hr. unfold hex4.
  pose proof (Z.mod_pos_bound (r / 256) 16 ltac:(lia)). pose proof (Z.mod_pos_bound (r / 16) 16 ltac:(lia)).
  pose proof (Z.mod_pos_bound r 16 ltac:(lia)). pose proof (Z.div_mod r 16 ltac:(lia)).
  pose proof (Z.div_mod (r / 16) 16 ltac:(lia)) as H3. rewrite Z.div_div in H3 by lia.
  pose proof (Z.div_mod (r / 256) 16 ltac:(lia)) as H4. rewrite Z.div_div in H4 by lia.
  change (16 * 16) with 256 in *. change (256 * 16) with 4096 in *.
  rewrite !unhex_digit by lia. simpl. f_equal. lia.
Qed.

Lemma passes_escape_u r : 0 <= r < 65536 -> passes (escape_u r).
Proof.
  intros Hr x. unfold escape_u. cbn [app scan_string]. simpl. rewrite hex4_escape by done.
  by destruct (scan_string x) as [[]|].
Qed.

Lemma passes_ascii b : 0 <= b < 128 -> passes (quote_ascii b).
Proof.
  intros Hb. unfold quote_ascii.
  destruct ((b =? 34) || (b =? 92)) eqn:Hq.
  { apply orb_true_iff in Hq as [->%Z.eqb_eq | ->%Z.eqb_eq]; intros r; simpl;
      by destruct (scan_string r) as [[]|]. }
  apply orb_false_iff in Hq as [?%Z.eqb_neq ?%Z.eqb_neq].
  repeat match goal with
  | |- passes (if b =? ?k then [92; _] else _) =>
      destruct (Z.eqb_spec b k) as [->|]; [intros r; simpl; by destruct (scan_string r) as [[]|]|]
  end.
  destruct (Z.ltb_spec b 32); simpl; [apply passes_escape_u; lia|].
  destruct (_ || _); [apply passes_escape_u; lia|]. by apply passes_plain.
Qed.

Lemma passes_quote_wide l : Forall (fun b => 128 <= b) l -> passes (quote_wide l).
Proof.
  intros Hl. unfold quote_wide. repeat case_bool_decide; [apply passes_escape_u; lia..|].
  by apply passes_wide.
Qed.

Lemma passes_quote l : Forall (fun b => 0 <= b < 256) l -> passes (quote l).
Proof.
  revert l. fix IH 1. intros l Hl. destruct l as [|b0 r0]; [apply passes_wide; constructor|].
  apply Forall_cons in Hl as [Hb0 Hr0]. cbn [quote].
  destruct (Z.ltb_spec b0 128); [apply passes_app; [apply passes_ascii; lia|by apply IH]|].
  assert (passes (escape_u RuneError ++ quote r0)) as Hbad.
  { apply passes_app; [by apply passes_escape_u|by apply IH]. }
  destruct r0 as [|b1 r1]; [done|]. apply Forall_cons in Hr0 as [Hb1 Hr1].
  assert (forall b, is_cont b = true -> 128 <= b) as Hcont.
  { intros b. unfold is_cont, in_range. rewrite andb_true_iff. lia. }
  assert (accept_second b0 b1 = true -> 128 <= b1) as Hacc.
  { unfold accept_second, is_cont, in_range. repeat destruct (b0 =? _); rewrite andb_true_iff; lia. }
  destruct (in_range 194 223 b0 && accept_second b0 b1) eqn:H2.
  { apply andb_true_iff in H2 as [_ H2]. apply passes_app; [|by apply IH].
    apply passes_quote_wide. repeat constructor; auto. }
  destruct r1 as [|b2 r2]; [done|]. apply Forall_cons in Hr1 as [Hb2 Hr2].
  destruct (in_range 224 239 b0 && accept_second b0 b1 && is_cont b2) eqn:H3.
  { apply andb_true_iff in H3 as [[_ ?]%andb_true_iff ?]. apply passes_app; [|by apply IH].
    apply passes_quote_wide. repeat constructor; auto. }
  destruct r2 as [|b3 r3]; [done|]. apply Forall_cons in Hr2 as [Hb3 Hr3].
  destruct (in_range 240 244 b0 && accept_second b0 b1 && is_cont b2 && is_cont b3) eqn:H4; [|done].
  apply andb_true_iff in H4 as [[[_ ?]%andb_true_iff ?]%andb_true_iff ?].
  apply passes_app; [|by apply IH]. apply passes_quote_wide. repeat constructor; auto.
Qed.

Lemma wf_raw_quote l : Forall (fun b => 0 <= b < 256) l -> wf_raw (quote l).
Proof. intros Hl. unfold wf_raw. rewrite passes_quote by done. simpl. by rewrite app_nil_r. Qed.

Definition quote_one (r : Z) : bytes := if r <? 128 then quote_ascii r else quote_wide (encode_rune r).

(** The arithmetic of an encoded rune, for the lemmas on its bytes. *)
Ltac scalar_bytes r Hs :=
  unfold encode_rune; rewrite Hs; apply is_scalar_range in Hs; unfold encode_scalar;
  pose proof (Z.div_mod r 64 ltac:(lia)); pose proof (Z.mod_pos_bound r 64 ltac:(lia));
  pose proof (Z.div_mod (r / 64) 64 ltac:(lia)); pose proof (Z.mod_pos_bound (r / 64) 64 ltac:(lia));
  pose proof (Z.div_mod (r / 4096) 64 ltac:(lia)); pose proof (Z.mod_pos_bound (r / 4096) 64 ltac:(lia));
  assert (r / 64 / 64 = r / 4096) as E1 by (by rewrite Z.div_div by lia);
  assert (r / 4096 / 64 = r / 262144) as E2 by (by rewrite Z.div_div by lia);
  rewrite E1 in *; rewrite E2 in *; clear E1 E2;
  set (r / 64) in *; set (r / 4096) in *; set (r / 262144) in *;
  repeat match goal with |- context [?a mod 64] => set (a mod 64) in * end;
  repeat match goal with x := _ : Z |- _ => clearbody x end.

Lemma quote_encode_rune r l :
  is_scalar r = true -> quote (encode_rune r ++ l) = quote_one r ++ quote l.
Proof.
  intros Hs. unfold quote_one. scalar_bytes r Hs.
  destruct (Z.ltb_spec r 128); [cbn [app quote]; by rewrite (proj2 (Z.ltb_lt r 128)) by lia|].
  destruct (Z.ltb_spec r 2048); [cbn -[Z.ltb quote_wide]; by bool_lia|].
  destruct (Z.ltb_spec r 65536); cbn -[Z.ltb quote_wide]; by bool_lia.
Qed.

Lemma unquote_wide_rune r l :
  is_scalar r = true -> 128 <= r -> unquote (encode_rune r ++ l) = encode_rune r ++ unquote l.
Proof.
  intros Hs Hr. scalar_bytes r Hs. destruct (Z.ltb_spec r 128); [lia|].
  destruct (Z.ltb_spec r 2048); [cbn -[Z.ltb Z.eqb]; rewrite (proj2 (Z.eqb_neq _ 92)) by lia; by bool_lia|].
  destruct (Z.ltb_spec r 65536); cbn -[Z.ltb Z.eqb]; rewrite (proj2 (Z.eqb_neq _ 92)) by lia; by bool_lia.
Qed.

Lemma unquote_escape_u r l :
  0 <= r < 65536 -> is_scalar r = true -> unquote (escape_u r ++ l) = encode_rune r ++ unquote l.
Proof.
  intros Hr Hs. unfold escape_u. cbn [app unquote]. simpl (92 =? 92). cbn iota.
  change (unescape 117) with (@None Z). cbn iota. rewrite hex4_escape by done.
  apply is_scalar_range in Hs. unfold is_surrogate, in_range.
  destruct (Z.leb_spec 55296 r), (Z.leb_spec r 57343); simpl; (done || lia).
Qed.

Lemma unquote_quote_one r l :
  is_scalar r = true -> unquote (quote_one r ++ l) = encode_rune r ++ unquote l.
Proof.
  intros Hs. unfold quote_one. destruct (Z.ltb_spec r 128) as [Hlt|Hge].
  - pose proof (is_scalar_range r) as Hrg. rewrite Hs in Hrg. destruct Hrg as [Hrg _].
    specialize (Hrg eq_refl).
    assert (encode_rune r = [r]) as He.
    { unfold encode_rune, encode_scalar. rewrite Hs. by rewrite (proj2 (Z.ltb_lt r 128)) by lia. }
    unfold quote_ascii. destruct ((r =? 34) || (r =? 92)) eqn:Hq.
    { apply orb_true_iff in Hq as [->%Z.eqb_eq | ->%Z.eqb_eq]; done. }
    apply orb_false_iff in Hq as [Hq1 Hq2].
    repeat match goal with
    | |- unquote ((if r =? ?k then [92; _] else _) ++ _) = _ =>
        destruct (Z.eqb_spec r k) as [->|]; [done|]
    end.
    destruct (_ || _); [apply unquote_escape_u; [lia|done]|]. rewrite He. cbn [app unquote].
    rewrite Hq2. by rewrite (proj2 (Z.ltb_lt r 128)) by lia.
  - unfold quote_wide. case_bool_decide as H1; [rewrite H1; by rewrite unquote_escape_u by done|].
    case_bool_decide as H2; [rewrite H2; by rewrite unquote_escape_u by done|].
    by apply unquote_wide_rune.
Qed.

(** Text that is UTF-8 throughout. *)
Definition is_utf8 (l : bytes) : Prop :=
  exists rs, Forall (fun r => is_scalar r = true) rs /\ l = encode rs.

(** A string survives being quoted and read back exactly when it is UTF-8; here
    the direction the stores rely on. *)
Lemma unquote_quote l : is_utf8 l -> unquote (quote l) = l.
Proof.
  intros (rs & Hrs & ->). unfold encode. induction Hrs as [|r rs Hr _ IH]; [done|].
  simpl. by rewrite quote_encode_rune, unquote_quote_one, IH.
Qed.

(** *** No control characters

    A printed document is one line: no byte of it is below 32. *)

Abbreviation printable := (Forall (fun b => 32 <= b)) (only parsing).

Lemma unhex_bound b n : unhex b = Some n -> 32 <= b.
Proof.
  unfold unhex, in_range.
  repeat match goal with |- context [?x <=? ?y] => destruct (Z.leb_spec x y); simpl end; intros; (done || lia).
Qed.

Lemma hex4_bound a b c d n : hex4 a b c d = Some n -> 32 <= a /\ 32 <= b /\ 32 <= c /\ 32 <= d.
Proof.
  unfold hex4. intros H. destruct (unhex a) eqn:?, (unhex b) eqn:?, (unhex c) eqn:?, (unhex d) eqn:?; try done.
  split_and!; by eapply unhex_bound.
Qed.

Lemma unescape_bound c b : unescape c = Some b -> 32 <= c.
Proof.
  unfold unescape. repeat match goal with |- context [c =? ?k] => destruct (Z.eqb_spec c k) as [->|]; simpl end;
    (done || lia).
Qed.

Lemma scan_string_printable l raw r : scan_string l = Some (raw, r) -> printable raw.
Proof.
  revert l raw r. fix IH 1. intros l raw r. destruct l as [|b l]; [done|]. cbn [scan_string].
  destruct (b =? 34); [intros [= <- <-]; constructor|]. destruct (b =? 92).
  - destruct l as [|c l]; [done|]. destruct (unescape c) eqn:Hc.
    + destruct (scan_string l) as [[raw' r']|] eqn:Hl; [|done]. simpl. intros [= <- <-].
      apply unescape_bound in Hc. constructor; [lia|]. constructor; [done|]. by apply (IH l _ r').
    + destruct (Z.eqb_spec c 117) as [->|]; [|done]. destruct l as [|h1 [|h2 [|h3 [|h4 l]]]]; try done.
      destruct (hex4 h1 h2 h3 h4) eqn:Hh; [|done]. apply hex4_bound in Hh.
      destruct (scan_string l) as [[raw' r']|] eqn:Hl; [|done]. simpl. intros [= <- <-].
      apply IH in Hl. repeat constructor; (lia || done || tauto).
  - destruct (Z.ltb_spec b 32); [done|]. destruct (scan_string l) as [[raw' r']|] eqn:Hl; [|done].
    simpl. intros [= <- <-]. constructor; [lia|]. by apply (IH l _ r').
Qed.

Lemma num_step_bound st b st' : num_step st b = Some st' -> 32 <= b.
Proof.
  intros H. destruct (Z.le_gt_cases 32 b) as [|Hlt]; [done|exfalso]. revert H.
  assert (is_digit b = false) as Hd by (apply not_true_is_false; rewrite is_digit_range; lia).
  unfold num_step. rewrite Hd. destruct st; rewrite ?(proj2 (Z.eqb_neq b _)) by lia; done.
Qed.

Lemma scan_number_printable st l lit r : scan_number st l = Some (lit, r) -> printable lit.
Proof.
  revert st lit. induction l as [|b l IH]; intros st lit; simpl.
  - destruct (num_final st); [intros [= <- _]; constructor|done].
  - destruct (num_step st b) as [st'|] eqn:Hs.
    + destruct (scan_number st' l) as [[lit' r']|] eqn:Hl; [|done]. simpl. intros [= <- <-].
      constructor; [by eapply num_step_bound|by eapply IH].
    + destruct (num_final st); [intros [= <- _]; constructor|done].
Qed.

Lemma print_printable v : wf v -> printable (print v).
Proof.
  induction v as [|[]|lit|raw|vs IH|ms IH] using json_nested_ind; intros Hwf;
    try (by repeat constructor).
  - by apply scan_number_printable in Hwf.
  - apply scan_string_printable in Hwf. cbn [print app]. constructor; [lia|].
    apply Forall_app. split; [done|]. repeat constructor. lia.
  - rewrite print_JArr. constructor; [lia|]. generalize true. simpl in Hwf.
    induction IH as [|v vs Hv _ IHvs]; intros first; simpl; [repeat constructor; lia|].
    destruct Hwf as [Hw Hws]. destruct first; simpl; [|constructor; [lia|]];
      (apply Forall_app; split; [by apply Hv|by apply IHvs]).
  - rewrite print_JObj. constructor; [lia|]. generalize true. simpl in Hwf.
    induction IH as [|[name v] ms Hv _ IHms]; intros first; simpl; [repeat constructor; lia|].
    destruct Hwf as [[Hn%scan_string_printable Hw] Hws]. simpl in *.
    assert (printable (34 :: name ++ 34 :: 58 :: print v ++ print_members false ms)).
    { constructor; [lia|]. apply Forall_app. split; [done|]. constructor; [lia|]. constructor; [lia|].
      apply Forall_app. split; [by apply Hv|by apply IHms]. }
    destruct first; simpl; [done|]. by constructor; [lia|].
Qed.
