(* ===== verification/JsonScan.v ===== *)
(** * The JSON scanner

    [json.Decoder] finds the end of the next value with a scanner that is fed byte by
    byte and keeps the brackets it is in on a stack ([encoding/json/scanner.go]), as the
    value may be followed by anything and the rest of the text may never arrive. Here it
    is an automaton; the theorem is that it agrees with the recursive reading of [Json]
    on every text. *)

From S2P Require Import Prelude Utf8 Text Json.

Open Scope Z_scope.

(** ** States *)

(** The fields [step] and [parseState] of the scanner. A number is in one of the states
    of [num_state], a literal has the bytes that are still due, an escape the hexadecimal
    digits. *)
Inductive scan_state :=
| BeginValue | BeginValueOrEmpty | BeginStringOrEmpty | BeginString | EndValue | EndTop
| InString | InStringEsc | InStringEscU (due : nat) | InNum (st : num_state) | InLit (due : bytes).

Inductive frame := ObjectKey | ObjectValue | ArrayValue.

Definition config : Type := scan_state * list frame.

(** What a step answers: [scanError], [scanEnd], or going on; [closed] is
    [scanEndObject] or [scanEndArray]. *)
Inductive opcode := SError | SEnd | SGo (closed : bool) (c : config).

(** ** Steps *)

Definition pushParseState (f : frame) (next : scan_state) (stk : list frame) : opcode :=
  if Z.of_nat (length (f :: stk)) <=? maxNestingDepth then SGo false (next, f :: stk) else SError.

Definition popParseState (stk : list frame) : opcode :=
  match stk with
  | [] | [_] => SGo true (EndTop, [])
  | _ :: stk => SGo true (EndValue, stk)
  end.

Definition stateEndValue (b : Z) (stk : list frame) : opcode :=
  match stk with
  | [] => SEnd
  | f :: below =>
      if is_ws b then SGo false (EndValue, stk)
      else
        match f with
        | ObjectKey => if b =? 58 then SGo false (BeginValue, ObjectValue :: below) else SError
        | ObjectValue =>
            if b =? 44 then SGo false (BeginString, ObjectKey :: below)
            else if b =? 125 then popParseState stk else SError
        | ArrayValue =>
            if b =? 44 then SGo false (BeginValue, stk)
            else if b =? 93 then popParseState stk else SError
        end
  end.

Definition stateBeginValue (b : Z) (stk : list frame) : opcode :=
  if is_ws b then SGo false (BeginValue, stk)
  else if b =? 123 then pushParseState ObjectKey BeginStringOrEmpty stk
  else if b =? 91 then pushParseState ArrayValue BeginValueOrEmpty stk
  else if b =? 34 then SGo false (InString, stk)
  else if b =? 116 then SGo false (InLit (drop 1 lit_true), stk)
  else if b =? 102 then SGo false (InLit (drop 1 lit_false), stk)
  else if b =? 110 then SGo false (InLit (drop 1 lit_null), stk)
  else match num_step NStart b with Some st => SGo false (InNum st, stk) | None => SError end.

Definition stateBeginString (b : Z) (stk : list frame) : opcode :=
  if is_ws b then SGo false (BeginString, stk) else if b =? 34 then SGo false (InString, stk) else SError.

Definition step (c : config) (b : Z) : opcode :=
  let '(s, stk) := c in
  match s with
  | BeginValue => stateBeginValue b stk
  | BeginValueOrEmpty =>
      if is_ws b then SGo false c else if b =? 93 then stateEndValue b stk else stateBeginValue b stk
  | BeginStringOrEmpty =>
      if is_ws b then SGo false c
      else if b =? 125 then stateEndValue b (ObjectValue :: drop 1 stk) else stateBeginString b stk
  | BeginString => stateBeginString b stk
  | EndValue => stateEndValue b stk
  | EndTop => SEnd
  | InString =>
      if b =? 34 then SGo false (EndValue, stk)
      else if b =? 92 then SGo false (InStringEsc, stk)
      else if b <? 32 then SError else SGo false (InString, stk)
  | InStringEsc =>
      if (match unescape b with Some _ => true | None => false end) then SGo false (InString, stk)
      else if b =? 117 then SGo false (InStringEscU 4, stk) else SError
  | InStringEscU due =>
      match unhex b with
      | Some _ => SGo false (match due with S (S n) => InStringEscU (S n) | _ => InString end, stk)
      | None => SError
      end
  | InNum st =>
      match num_step st b with
      | Some st => SGo false (InNum st, stk)
      | None => if num_final st then stateEndValue b stk else SError
      end
  | InLit due =>
      match due with
      | d :: due => if b =? d then SGo false (match due with [] => EndValue | _ => InLit due end, stk) else SError
      | [] => SError
      end
  end.

(** ** The next value of a text *)

Inductive scanned := VEnd (n : nat) | VError | VMore (c : config).

(** The loop of [Decoder.readValue] over the bytes at hand: the number of bytes of the
    value, a syntax error, or where the scanner stands. After a closing bracket the byte
    that would tell the end is not waited for. *)
Fixpoint scan_from (c : config) (n : nat) (l : bytes) : scanned :=
  match l with
  | [] => VMore c
  | b :: r =>
      match step c b with
      | SError => VError
      | SEnd => VEnd n
      | SGo closed c' =>
          if closed && bool_decide (c'.2 = []) then VEnd (S n) else scan_from c' (S n) r
      end
  end.

Definition scan_value (l : bytes) : scanned := scan_from (BeginValue, []) 0 l.

(** At the end of the text [scan.step(' ')] tells whether the value was complete. *)
Definition complete_at_eof (c : config) : bool := match step c 32 with SEnd => true | _ => false end.

(** ** Following the scanner *)

(** A state at the end of a value: the next byte is read as after any value. *)
Definition ended (s : scan_state) : bool :=
  match s with EndValue | EndTop => true | InNum st => num_final st | _ => false end.

(** The scanner goes over a text without leaving the brackets it was in. *)
Inductive travels (base : list frame) : config -> bytes -> config -> Prop :=
| travels_nil c : travels base c [] c
| travels_cons c b k c1 t c' :
    base `suffix_of` c.2 -> step c b = SGo k c1 -> travels base c1 t c' -> travels base c (b :: t) c'.

(** However far it gets in the text, it does not leave them, and at the end of the text
    it is within a value. *)
Fixpoint unfinished (base : list frame) (c : config) (l : bytes) : Prop :=
  base `suffix_of` c.2 /\
  match l with
  | [] => c.2 = base -> ended c.1 = false
  | b :: r => match step c b with SGo _ c' => unfinished base c' r | SEnd => False | SError => True end
  end.

Create HintDb scan.
#[export] Hint Constructors travels : scan.
#[export] Hint Resolve suffix_cons_r : scan.
#[export] Hint Extern 1 (@suffix _ _ _) => reflexivity : scan.

Lemma travels_app base c1 t1 c2 t2 c3 : travels base c1 t1 c2 -> travels base c2 t2 c3 -> travels base c1 (t1 ++ t2) c3.
Proof. induction 1; simpl; eauto with scan. Qed.

Lemma unfinished_app base c t c' l : travels base c t c' -> unfinished base c' l -> unfinished base c (t ++ l).
Proof. induction 1 as [|c b k c1 t c' Hs Hb Ht IH]; [done|]. simpl. rewrite Hb. auto. Qed.

Lemma suffix_above (f : frame) base stk : (f :: base) `suffix_of` stk -> base `suffix_of` stk /\ stk <> base.
Proof.
  intros [fr ->]. split; [exists (fr ++ [f]); by rewrite <- app_assoc|].
  intros H%(f_equal length). rewrite length_app in H. simpl in H. lia.
Qed.

Lemma travels_above f base c t c' : travels (f :: base) c t c' -> travels base c t c'.
Proof. induction 1 as [|c b k c1 t c' Hs]; [constructor|]. apply suffix_above in Hs as [? _]. eauto with scan. Qed.

Lemma unfinished_above f base c l : unfinished (f :: base) c l -> unfinished base c l.
Proof.
  revert c. induction l as [|b r IH]; intros c [Hs Hl]; apply suffix_above in Hs as [Hs Hne]; split; try done.
  destruct (step c b); auto.
Qed.

(** White space is passed over where it is allowed. *)
Lemma travels_ws base c l :
  base `suffix_of` c.2 -> (forall b, is_ws b = true -> step c b = SGo false c) ->
  exists w, l = w ++ skip_ws l /\ travels base c w c.
Proof.
  intros Hs Hc. induction l as [|b r (w & Hw & Ht)]; [exists []; split; [done|constructor]|]. simpl.
  destruct (is_ws b) eqn:Hb; [|exists []; split; [done|constructor]].
  exists (b :: w). split; [simpl; by f_equal|]. eauto with scan.
Qed.

(** Between two values the scanner waits for what separates them. *)
Definition between (c : config) (rest : bytes) : Prop :=
  ended c.1 = true /\ forall b r, rest = b :: r -> step c b = stateEndValue b c.2.

Lemma unfinished_between base f stk s rest :
  base `suffix_of` stk -> between (s, f :: stk) rest ->
  unfinished base (EndValue, f :: stk) rest -> unfinished base (s, f :: stk) rest.
Proof.
  intros Hs [_ Hb] Hu. destruct rest as [|b r].
  - split; [simpl; auto with scan|]. simpl. intros Heq. apply (f_equal length) in Heq.
    apply suffix_length in Hs. simpl in Heq. lia.
  - destruct Hu as [_ Hu]. split; [simpl; auto with scan|]. by rewrite (Hb b r).
Qed.

Lemma travels_between base stk s b r t c' :
  between (s, stk) (b :: r) -> travels base (EndValue, stk) (b :: t) c' -> travels base (s, stk) (b :: t) c'.
Proof.
  intros [_ Hb] Ht. inversion Ht; subst. econstructor; [done| |done]. by rewrite (Hb b r).
Qed.

(** ** Strings, numbers and literals *)

(** The text starts with [n] hexadecimal digits. *)
Definition hexes (n : nat) (l : bytes) : Prop :=
  exists h t, l = h ++ t /\ length h = n /\ Forall (fun b => is_Some (unhex b)) h.

Lemma hexes_cons n b l : hexes (S n) (b :: l) <-> is_Some (unhex b) /\ hexes n l.
Proof.
  split.
  - intros (h & t & Hl & Hh & Hf). destruct h as [|b' h]; [done|]. injection Hl as <- ->.
    apply Forall_cons in Hf as [Hb Hf]. split; [done|]. exists h, t. simpl in Hh. auto with lia.
  - intros [Hb (h & t & -> & Hh & Hf)]. exists (b :: h), t. simpl. auto with lia.
Qed.

Lemma hex_digits base stk n l :
  base `suffix_of` stk ->
  (exists h t, l = h ++ t /\ length h = S n /\ travels base (InStringEscU (S n), stk) h (InString, stk) /\ hexes (S n) l) \/
  (unfinished base (InStringEscU (S n), stk) l /\ ~ hexes (S n) l).
Proof.
  intros Hs. revert l. induction n as [|n IH]; intros [|b l];
    try (right; split; [done|]; intros (h & t & Hl & Hh & _); by destruct h);
    destruct (unhex b) as [x|] eqn:Hb;
    try (right; split; [split; [done|]; simpl; by rewrite Hb|]; rewrite hexes_cons, Hb; by intros [[? ?] _]).
  - left. exists [b], l. repeat split; [|by apply hexes_cons; rewrite Hb; split; [|exists [], l]].
    econstructor; [done| |constructor]. simpl. by rewrite Hb.
  - destruct (IH l) as [(h & t & -> & Hh & Ht & Hx)|[Hu Hno]].
    + left. exists (b :: h), t. repeat split; [simpl; lia| |by apply hexes_cons; rewrite Hb].
      econstructor; [done| |done]. simpl. by rewrite Hb.
    + right. split; [split; [done|]; simpl; by rewrite Hb|]. rewrite hexes_cons. tauto.
Qed.

Lemma hex4_hexes h1 h2 h3 h4 l : is_Some (hex4 h1 h2 h3 h4) <-> hexes 4 (h1 :: h2 :: h3 :: h4 :: l).
Proof.
  rewrite !hexes_cons. unfold hex4. split.
  - destruct (unhex h1), (unhex h2), (unhex h3), (unhex h4); simpl; intros [? Hx]; try discriminate.
    repeat split; eauto. by exists [], l.
  - intros ([? ->] & [? ->] & [? ->] & [? ->] & _). simpl. eauto.
Qed.

(** A string up to its closing quote. *)
Lemma string_scanned base stk l :
  base `suffix_of` stk ->
  match scan_string l with
  | Some (_, rest) => exists t, l = t ++ rest /\ travels base (InString, stk) t (EndValue, stk)
  | None => unfinished base (InString, stk) l
  end.
Proof.
  intros Hs. induction l as [l IH] using (induction_ltof1 _ (@length Z)). unfold ltof in IH.
  assert (forall t l', (length l' < length l)%nat -> l = t ++ l' -> travels base (InString, stk) t (InString, stk) ->
    match scan_string l' with
    | Some (_, rest) => exists t, l = t ++ rest /\ travels base (InString, stk) t (EndValue, stk)
    | None => unfinished base (InString, stk) l
    end) as Hgo.
  { intros t l' Hlen -> Ht. specialize (IH l' Hlen). destruct (scan_string l') as [[raw rest]|].
    - destruct IH as (t' & -> & Ht'). exists (t ++ t'). split; [by rewrite app_assoc|]. by eapply travels_app.
    - by eapply unfinished_app. }
  destruct l as [|b r]; [done|]. cbn [scan_string].
  destruct (b =? 34) eqn:H34.
  { exists [b]. split; [done|]. econstructor; [done| |constructor]. simpl. by rewrite H34. }
  destruct (b =? 92) eqn:H92.
  - destruct r as [|c r1]; [split; [done|]; simpl; by rewrite H34, H92|].
    destruct (unescape c) as [x|] eqn:Hc.
    + specialize (Hgo [b; c] r1). simpl in Hgo. destruct (scan_string r1) as [[raw rest]|]; simpl; apply Hgo; try lia; try done;
        (econstructor; [done|simpl; by rewrite H34, H92|]); (econstructor; [done|simpl; by rewrite Hc|constructor]).
    + destruct (c =? 117) eqn:Hu; [|split; [done|]; simpl; rewrite H34, H92; split; [done|]; simpl; by rewrite Hc, Hu].
      assert (forall t l', travels base (InStringEscU 4, stk) t l' -> travels base (InString, stk) (b :: c :: t) l') as Hesc.
      { intros t l' Ht. econstructor; [done|simpl; by rewrite H34, H92|]. econstructor; [done|simpl; by rewrite Hc, Hu|done]. }
      destruct (hex_digits base stk 3 r1 Hs) as [(h & t & -> & Hh & Ht & Hx)|[Hun Hno]].
      * destruct h as [|h1 [|h2 [|h3 [|h4 [|]]]]]; try discriminate Hh. cbn [app].
        cbn [app] in Hx. apply hex4_hexes in Hx as [x Hx]. rewrite Hx.
        specialize (Hgo (b :: c :: [h1; h2; h3; h4]) t). simpl in Hgo.
        destruct (scan_string t) as [[raw rest]|]; simpl; apply Hgo; try lia; try done; by apply Hesc.
      * assert (unfinished base (InString, stk) (b :: c :: r1)) as Hres.
        { apply (unfinished_app _ _ [b; c] (InStringEscU 4, stk)); [|done]. apply Hesc. constructor. }
        destruct r1 as [|h1 [|h2 [|h3 [|h4 r2]]]]; try exact Hres.
        destruct (hex4 h1 h2 h3 h4) eqn:Hx; [|exact Hres]. destruct Hno. apply hex4_hexes. by rewrite Hx.
  - destruct (b <? 32) eqn:H32; [split; [done|]; simpl; by rewrite H34, H92, H32|].
    specialize (Hgo [b] r). simpl in Hgo. destruct (scan_string r) as [[raw rest]|]; simpl; apply Hgo; try lia; try done;
      (econstructor; [done|simpl; by rewrite H34, H92, H32|constructor]).
Qed.

Lemma number_scanned base stk st l :
  base `suffix_of` stk ->
  match scan_number st l with
  | Some (_, rest) =>
      exists t st', l = t ++ rest /\ travels base (InNum st, stk) t (InNum st', stk) /\ between (InNum st', stk) rest
  | None => unfinished base (InNum st, stk) l
  end.
Proof.
  intros Hs. revert st. induction l as [|b r IH]; intros st; cbn [scan_number].
  - destruct (num_final st) eqn:Hf; [|done]. exists [], st. repeat split; [constructor|done|done].
  - destruct (num_step st b) as [st1|] eqn:Hb.
    + specialize (IH st1). destruct (scan_number st1 r) as [[lit rest]|]; simpl.
      * destruct IH as (t & st' & -> & Ht & Hbt). exists (b :: t), st'. repeat split; [|by apply Hbt|by apply Hbt].
        econstructor; [done|simpl; by rewrite Hb|done].
      * split; [done|]. by rewrite Hb.
    + destruct (num_final st) eqn:Hf; [|split; [done|]; simpl; by rewrite Hb, Hf].
      exists [], st. repeat split; [constructor|done|]. intros b' r' [= <- <-]. simpl. by rewrite Hb, Hf.
Qed.

(** The rest of a literal whose first byte was read. *)
Lemma literal_scanned base stk due l :
  base `suffix_of` stk -> due <> [] ->
  if bool_decide (take (length due) l = due)
  then travels base (InLit due, stk) due (EndValue, stk)
  else unfinished base (InLit due, stk) l.
Proof.
  intros Hs. revert l. induction due as [|d due IH]; intros l Hne; [done|]. destruct l as [|b l].
  { rewrite bool_decide_false by done. done. }
  simpl. destruct (Z.eqb_spec b d) as [->|Hb].
  - destruct due as [|d' due].
    + rewrite bool_decide_true by done. econstructor; [done|simpl; by rewrite Z.eqb_refl|constructor].
    + specialize (IH l ltac:(done)). destruct (decide (take (length (d' :: due)) l = d' :: due)) as [Ht|Ht].
      * rewrite (bool_decide_true _ Ht) in IH. rewrite bool_decide_true by (simpl in *; by f_equal).
        econstructor; [done|simpl; by rewrite Z.eqb_refl|done].
      * rewrite (bool_decide_false _ Ht) in IH. rewrite bool_decide_false by (by intros [= ?]).
        by split.
  - rewrite bool_decide_false by (by intros [= ?]). by split.
Qed.

(** ** Values *)

Lemma skip_ws_head l b r : skip_ws l = b :: r -> is_ws b = false.
Proof. induction l as [|c l IH]; [done|]. simpl. destruct (is_ws c) eqn:Hc; [done|]. by intros [= <- _]. Qed.

(** The state after a closing bracket. *)
Definition closing (stk : list frame) : scan_state := match stk with [] => EndTop | _ => EndValue end.

Lemma pop_closing f stk : popParseState (f :: stk) = SGo true (closing stk, stk).
Proof. by destruct stk. Qed.

Lemma closing_between stk rest : between (closing stk, stk) rest.
Proof. split; [by destruct stk|]. intros b r _. by destruct stk. Qed.

(** What follows a value within brackets. *)
Lemma separator_scanned f stk s rest :
  between (s, f :: stk) rest ->
  match skip_ws rest with
  | [] => unfinished stk (s, f :: stk) rest
  | b :: r =>
      match stateEndValue b (f :: stk) with
      | SGo _ c' => exists t, rest = t ++ r /\ travels stk (s, f :: stk) t c'
      | _ => unfinished stk (s, f :: stk) rest
      end
  end.
Proof.
  intros Hb. assert (stk `suffix_of` f :: stk) as Hs by auto with scan.
  destruct (travels_ws stk (EndValue, f :: stk) rest Hs) as (w & Hw & Ht).
  { intros b Hws. simpl. by rewrite Hws. }
  assert (forall l, unfinished stk (EndValue, f :: stk) l -> rest = w ++ l -> unfinished stk (s, f :: stk) rest) as Hun.
  { intros l Hl ->. apply unfinished_between; [done|done|]. by eapply unfinished_app. }
  destruct (skip_ws rest) as [|b r] eqn:Hk.
  { apply (Hun []); [|done]. split; [done|]. simpl. intros H%(f_equal length). simpl in H. lia. }
  assert (step (EndValue, f :: stk) b = stateEndValue b (f :: stk)) as Hstep by done.
  destruct (stateEndValue b (f :: stk)) as [| |k c'] eqn:He.
  - apply (Hun (b :: r)); [|done]. split; [done|]. by rewrite Hstep.
  - simpl in He. exfalso. by destruct (is_ws b), f; repeat (case_match; try done).
  - exists (w ++ [b]). split; [by rewrite <- app_assoc|].
    assert (travels stk (EndValue, f :: stk) (w ++ [b]) c') as Hall.
    { eapply travels_app; [done|]. econstructor; [done|done|constructor]. }
    destruct w as [|b0 w]; cbn [app] in *; subst rest; by eapply travels_between.
Qed.

Definition bracketed (v : json) : bool := match v with JArr _ | JObj _ => true | _ => false end.

(** The scanner on a text against the reading of a value, of the members of an object
    and of the elements of an array. *)
Definition value_scanned (stk : list frame) (l : bytes) (r : option (json * bytes)) : Prop :=
  match r with
  | Some (v, rest) =>
      exists t s, l = t ++ rest /\ travels stk (BeginValue, stk) t (s, stk) /\ between (s, stk) rest /\
        (if bracketed v then s = closing stk else s <> EndTop)
  | None => unfinished stk (BeginValue, stk) l
  end.

Definition inner_scanned {A} (f : frame) (s0 : scan_state) (stk : list frame) (l : bytes) (r : option (A * bytes)) : Prop :=
  match r with
  | Some (_, rest) => exists t, l = t ++ rest /\ travels stk (s0, f :: stk) t (closing stk, stk)
  | None => unfinished stk (s0, f :: stk) l
  end.

(** Going over a text first. *)
Lemma inner_after {A} f s0 stk c t l l' (r : option (A * bytes)) :
  l = t ++ l' -> travels stk c t (s0, f :: stk) -> inner_scanned f s0 stk l' r ->
  match r with
  | Some (_, rest) => exists t, l = t ++ rest /\ travels stk c t (closing stk, stk)
  | None => unfinished stk c l
  end.
Proof.
  intros -> Ht. destruct r as [[x rest]|]; simpl.
  - intros (t' & -> & Ht'). exists (t ++ t'). split; [by rewrite app_assoc|]. by eapply travels_app.
  - by apply unfinished_app.
Qed.

(** The reading starts after the white space. *)
Lemma skip_ws_idem l : skip_ws (skip_ws l) = skip_ws l.
Proof. induction l as [|b l IH]; [done|]. simpl. destruct (is_ws b) eqn:Hb; [done|]. simpl. by rewrite Hb. Qed.

Lemma skip_ws_length l : (length (skip_ws l) <= length l)%nat.
Proof. induction l as [|b l IH]; [done|]. simpl. destruct (is_ws b); simpl; lia. Qed.

Lemma parse_value_ws fuel d l : parse_value fuel d (skip_ws l) = parse_value fuel d l.
Proof. destruct fuel; [done|]. cbn [parse_value]. by rewrite skip_ws_idem. Qed.

Lemma parse_elements_ws fuel d l : parse_elements fuel d (skip_ws l) = parse_elements fuel d l.
Proof. destruct fuel; [done|]. cbn [parse_elements]. by rewrite parse_value_ws. Qed.

Lemma parse_members_ws fuel d l : parse_members fuel d (skip_ws l) = parse_members fuel d l.
Proof. destruct fuel; [done|]. cbn [parse_members]. by rewrite skip_ws_idem. Qed.

Lemma travels_nil_inv base c c' : travels base c [] c' -> c = c'.
Proof. by inversion 1. Qed.

(** Two states that read the next byte alike. *)
Lemma inner_same {A} f s0 s1 stk b l (r : option (A * bytes)) :
  step (s0, f :: stk) b = step (s1, f :: stk) b ->
  inner_scanned f s1 stk (b :: l) r -> inner_scanned f s0 stk (b :: l) r.
Proof.
  intros Heq. destruct r as [[x rest]|]; cbn [inner_scanned unfinished].
  - intros (t & Hl & Ht). exists t. split; [done|]. destruct t as [|b' t].
    + apply travels_nil_inv in Ht. apply (f_equal (fun c => length c.2)) in Ht. simpl in Ht. lia.
    + injection Hl as <- ->. inversion Ht; subst. econstructor; [done| |done]. by rewrite Heq.
  - intros [Hs Hu]. split; [done|]. by rewrite Heq.
Qed.

(** After an opening bracket the scanner also accepts the closing one; otherwise it
    reads on as before any string or value. *)
Lemma after_open {A} f s0 s1 closer stk r (res : option (A * bytes)) :
  ended s0 = false ->
  (forall b, is_ws b = true -> step (s0, f :: stk) b = SGo false (s0, f :: stk)) ->
  (forall b, is_ws b = false -> b <> closer -> step (s0, f :: stk) b = step (s1, f :: stk) b) ->
  step (s0, f :: stk) closer = SGo true (closing stk, stk) ->
  (forall b r1, skip_ws r = b :: r1 -> b <> closer -> inner_scanned f s1 stk (b :: r1) res) ->
  inner_scanned f s0 stk r
    (match skip_ws r with
     | [] => None
     | b :: r1 => if b =? closer then Some (None, r1) else prod_map Some id <$> res
     end).
Proof.
  intros He Hws Hsame Hclose Hin. assert (stk `suffix_of` f :: stk) as Hs by auto with scan.
  destruct (travels_ws stk (s0, f :: stk) r Hs Hws) as (w & Hw & Ht).
  destruct (skip_ws r) as [|b r1] eqn:Hk.
  { rewrite Hw. apply (unfinished_app _ _ _ _ _ Ht). split; [done|]. intros H%(f_equal length). simpl in H. lia. }
  destruct (Z.eqb_spec b closer) as [->|Hb].
  - exists (w ++ [closer]). split; [by rewrite <- app_assoc|]. eapply travels_app; [done|].
    econstructor; [done|done|constructor].
  - pose proof (skip_ws_head _ _ _ Hk) as Hnw. specialize (Hin b r1 eq_refl Hb).
    apply (inner_same f s0) in Hin; [|by apply Hsame]. apply (inner_after _ _ _ _ w r _ _ Hw Ht) in Hin.
    by destruct res as [[x rest]|].
Qed.

Lemma between_EndValue stk rest : between (EndValue, stk) rest.
Proof. by split. Qed.

(** A value may be preceded by white space. *)
Lemma value_after_ws stk l res : value_scanned stk (skip_ws l) res -> value_scanned stk l res.
Proof.
  destruct (travels_ws stk (BeginValue, stk) l) as (w & Hw & Ht); [simpl; auto with scan| |].
  { intros b Hb. simpl. unfold stateBeginValue. by rewrite Hb. }
  destruct res as [[v rest]|]; simpl.
  - intros (t & s & Hl & Ht' & Hb & Hv). exists (w ++ t), s.
    split; [rewrite Hw at 1; rewrite Hl; by rewrite app_assoc|]. split; [by eapply travels_app|done].
  - intros Hu. rewrite Hw. by eapply unfinished_app.
Qed.

Lemma value_opened {A} f s0 stk b r (mk : A -> json) (res : option (A * bytes)) :
  (forall x, bracketed (mk x) = true) -> step (BeginValue, stk) b = SGo false (s0, f :: stk) ->
  inner_scanned f s0 stk r res -> value_scanned stk (b :: r) (prod_map mk id <$> res).
Proof.
  intros Hmk Hb. destruct res as [[x rest]|]; cbn [value_scanned inner_scanned fmap option_fmap option_map prod_map].
  - intros (t & -> & Ht). exists (b :: t), (closing stk). split; [done|]. split; [econstructor; eauto with scan|].
    split; [apply closing_between|]. simpl. by rewrite Hmk.
  - intros Hu. split; [simpl; auto with scan|]. by rewrite Hb.
Qed.

Lemma value_refused stk b r : step (BeginValue, stk) b = SError -> value_scanned stk (b :: r) None.
Proof. intros Hb. split; [simpl; auto with scan|]. by rewrite Hb. Qed.

(** The values without brackets. *)
Lemma string_value stk r :
  value_scanned stk (34 :: r) ('(raw, rest) ← scan_string r; Some (JStr raw, rest)).
Proof.
  pose proof (string_scanned stk stk r) as H. specialize (H ltac:(auto with scan)).
  destruct (scan_string r) as [[raw rest]|]; simpl.
  - destruct H as (t & -> & Ht). exists (34 :: t), EndValue. split; [done|]. split; [by econstructor; auto with scan|].
    by split; [apply between_EndValue|].
  - split; [simpl; auto with scan|]. done.
Qed.

Lemma literal_value stk b due v r :
  due <> [] -> bracketed v = false -> step (BeginValue, stk) b = SGo false (InLit due, stk) ->
  value_scanned stk (b :: r) (rest ← expect (b :: due) (b :: r); Some (v, rest)).
Proof.
  intros Hne Hv Hb. pose proof (literal_scanned stk stk due r ltac:(auto with scan) Hne) as H.
  unfold expect. simpl. destruct (decide (take (length due) r = due)) as [He|He].
  - rewrite bool_decide_true in H by done. rewrite bool_decide_true by (by f_equal). simpl.
    exists (b :: due), EndValue. split; [simpl; f_equal; rewrite <- He at 1; by rewrite take_drop|].
    split; [econstructor; eauto with scan|]. split; [apply between_EndValue|]. by rewrite Hv.
  - rewrite bool_decide_false in H by done. rewrite bool_decide_false by (by intros [= ?]). simpl.
    split; [simpl; auto with scan|]. simpl in Hb |- *. by rewrite Hb.
Qed.

Lemma number_value stk b r :
  step (BeginValue, stk) b = match num_step NStart b with Some st => SGo false (InNum st, stk) | None => SError end ->
  value_scanned stk (b :: r) ('(lit, rest) ← scan_number NStart (b :: r); Some (JNum lit, rest)).
Proof.
  intros Hb. cbn [scan_number]. destruct (num_step NStart b) as [st|] eqn:Hst; [|by apply value_refused].
  pose proof (number_scanned stk stk st r ltac:(auto with scan)) as H.
  destruct (scan_number st r) as [[lit rest]|]; cbn [mbind option_bind value_scanned].
  - destruct H as (t & st' & -> & Ht & Hbt). exists (b :: t), (InNum st'). split; [done|].
    split; [econstructor; eauto with scan|]. by split.
  - split; [simpl; auto with scan|]. by rewrite Hb.
Qed.

(** What follows an element of an array or the value of a member. *)
Lemma after_value {A B} f stk s rest t0 l c0 s1 g closer (res : bytes -> option (A * bytes)) (one : B) (more : A -> B) :
  l = t0 ++ rest -> travels stk c0 t0 (s, f :: stk) -> between (s, f :: stk) rest ->
  (forall b, is_ws b = false -> stateEndValue b (f :: stk) =
     if b =? 44 then SGo false (s1, g :: stk) else if b =? closer then SGo true (closing stk, stk) else SError) ->
  closer <> 44 ->
  (forall r, (length r < length rest)%nat -> inner_scanned g s1 stk r (res r)) ->
  match (match skip_ws rest with
         | [] => None
         | c :: r => if c =? closer then Some (one, r)
                     else if c =? 44 then '(x, r) ← res r; Some (more x, r) else None
         end) with
  | Some (_, rest') => exists t, l = t ++ rest' /\ travels stk c0 t (closing stk, stk)
  | None => unfinished stk c0 l
  end.
Proof.
  intros -> Ht0 Hb He Hcl Hin. pose proof (separator_scanned f stk s rest Hb) as Hsep.
  destruct (skip_ws rest) as [|c r] eqn:Hk; [by eapply unfinished_app|].
  assert (length r < length rest)%nat as Hlen.
  { pose proof (skip_ws_length rest) as Hl. rewrite Hk in Hl. simpl in Hl. lia. }
  rewrite (He c (skip_ws_head _ _ _ Hk)) in Hsep.
  destruct (Z.eqb_spec c closer) as [->|Hc].
  - rewrite (proj2 (Z.eqb_neq _ _)) in Hsep by done. destruct Hsep as (t & -> & Ht).
    exists (t0 ++ t). split; [by rewrite app_assoc|]. by eapply travels_app.
  - destruct (Z.eqb_spec c 44) as [->|Hc44]; [|by eapply unfinished_app].
    destruct Hsep as (t & -> & Ht). specialize (Hin r Hlen).
    apply (inner_after g s1 stk c0 (t0 ++ t) (t0 ++ t ++ r)) in Hin; [|by rewrite app_assoc|by eapply travels_app].
    by destruct (res r) as [[x rest']|].
Qed.

Lemma end_of_element stk b : is_ws b = false ->
  stateEndValue b (ArrayValue :: stk) =
    if b =? 44 then SGo false (BeginValue, ArrayValue :: stk) else if b =? 93 then SGo true (closing stk, stk) else SError.
Proof. intros Hb. cbn [stateEndValue]. by rewrite Hb, pop_closing. Qed.

Lemma end_of_member stk b : is_ws b = false ->
  stateEndValue b (ObjectValue :: stk) =
    if b =? 44 then SGo false (BeginString, ObjectKey :: stk) else if b =? 125 then SGo true (closing stk, stk) else SError.
Proof. intros Hb. cbn [stateEndValue]. by rewrite Hb, pop_closing. Qed.

(** The nesting depth is the height of the stack. *)
Definition depth (stk : list frame) : Z := Z.of_nat (length stk).

Lemma elements_scanned fuel stk l :
  (forall stk l, (2 * length l + 1 <= fuel)%nat -> value_scanned stk l (parse_value fuel (depth stk) l)) ->
  (forall l, (2 * length l + 2 <= fuel)%nat -> inner_scanned ArrayValue BeginValue stk l (parse_elements fuel (depth stk + 1) l)) ->
  (2 * length l + 2 <= S fuel)%nat ->
  inner_scanned ArrayValue BeginValue stk l (parse_elements (S fuel) (depth stk + 1) l).
Proof.
  intros HV HE Hf. cbn [parse_elements]. specialize (HV (ArrayValue :: stk) l ltac:(lia)).
  replace (depth (ArrayValue :: stk)) with (depth stk + 1) in HV by (unfold depth; simpl; lia).
  destruct (parse_value fuel (depth stk + 1) l) as [[v r]|]; cbn [mbind option_bind].
  - destruct HV as (t & s & Hl & Ht & Hb & _). apply travels_above in Ht.
    unfold inner_scanned.
    eapply (after_value ArrayValue stk s r t l _ BeginValue ArrayValue 93 (fun r => parse_elements fuel (depth stk + 1) r) [v] (cons v));
      [done|done|done|apply end_of_element|done|].
    intros r' Hr. apply HE. apply (f_equal length) in Hl. rewrite length_app in Hl. lia.
  - by apply unfinished_above in HV.
Qed.

(** The name of a member with its colon. *)
Definition read_key (l : bytes) : option (bytes * bytes) :=
  match skip_ws l with
  | [] => None
  | b :: r => if b =? 34 then '(name, r) ← scan_string r; r ← expect [58] (skip_ws r); Some (name, r) else None
  end.

Lemma parse_members_key fuel d l :
  parse_members (S fuel) d l =
    '(name, r) ← read_key l;
    '(v, r) ← parse_value fuel d r;
    match skip_ws r with
    | [] => None
    | c :: r => if c =? 125 then Some ([(name, v)], r)
                else if c =? 44 then '(ms, r) ← parse_members fuel d r; Some ((name, v) :: ms, r) else None
    end.
Proof.
  cbn [parse_members]. unfold read_key. destruct (skip_ws l) as [|b r]; [done|]. destruct (b =? 34); [|done].
  destruct (scan_string r) as [[name r1]|]; [|done]. cbn [mbind option_bind]. by destruct (expect _ _).
Qed.

Lemma key_scanned stk l :
  match read_key l with
  | Some (_, rest) =>
      exists t, l = t ++ rest /\ t <> [] /\ travels stk (BeginString, ObjectKey :: stk) t (BeginValue, ObjectValue :: stk)
  | None => unfinished stk (BeginString, ObjectKey :: stk) l
  end.
Proof.
  set (c0 := (BeginString, ObjectKey :: stk)). assert (stk `suffix_of` ObjectKey :: stk) as Hs by auto with scan.
  destruct (travels_ws stk c0 l Hs) as (w & Hw & Ht).
  { intros b Hb. simpl. unfold stateBeginString. by rewrite Hb. }
  unfold read_key. destruct (skip_ws l) as [|b r] eqn:Hk; [rewrite Hw; apply (unfinished_app _ _ _ _ _ Ht); by split|].
  pose proof (skip_ws_head _ _ _ Hk) as Hnw. destruct (Z.eqb_spec b 34) as [->|Hb].
  2: { rewrite Hw. apply (unfinished_app _ _ _ _ _ Ht). split; [done|]. simpl. unfold stateBeginString.
       by rewrite Hnw, (proj2 (Z.eqb_neq _ _)). }
  pose proof (string_scanned stk (ObjectKey :: stk) r Hs) as Hstr.
  assert (travels stk c0 (w ++ [34]) (InString, ObjectKey :: stk)) as Hq.
  { eapply travels_app; [done|]. econstructor; [done|done|constructor]. }
  assert (l = (w ++ [34]) ++ r) as Hl by (rewrite Hw; by rewrite <- app_assoc).
  destruct (scan_string r) as [[name r1]|]; cbn [mbind option_bind]; [|rewrite Hl; by eapply unfinished_app].
  destruct Hstr as (t1 & -> & Ht1). rewrite app_assoc in Hl.
  pose proof (travels_app _ _ _ _ _ _ Hq Ht1) as Hq1.
  pose proof (separator_scanned ObjectKey stk EndValue r1 (between_EndValue _ _)) as Hsep.
  destruct (skip_ws r1) as [|c r2] eqn:Hk1; [rewrite Hl; by eapply unfinished_app|]. cbn [stateEndValue] in Hsep.
  rewrite (skip_ws_head _ _ _ Hk1) in Hsep. unfold expect. cbn [take drop length].
  destruct (Z.eqb_spec c 58) as [->|Hc].
  - rewrite bool_decide_true by done. cbn [mbind option_bind]. destruct Hsep as (t2 & -> & Ht2). rewrite drop_0.
    exists (((w ++ [34]) ++ t1) ++ t2). split; [by rewrite Hl, app_assoc|].
    split; [by destruct w|]. by eapply travels_app.
  - rewrite bool_decide_false by (by intros [= ?]). cbn [mbind option_bind]. rewrite Hl. by eapply unfinished_app.
Qed.

Lemma members_scanned fuel stk l :
  (forall stk l, (2 * length l + 1 <= fuel)%nat -> value_scanned stk l (parse_value fuel (depth stk) l)) ->
  (forall l, (2 * length l + 2 <= fuel)%nat -> inner_scanned ObjectKey BeginString stk l (parse_members fuel (depth stk + 1) l)) ->
  (2 * length l + 2 <= S fuel)%nat ->
  inner_scanned ObjectKey BeginString stk l (parse_members (S fuel) (depth stk + 1) l).
Proof.
  intros HV HM Hf. rewrite parse_members_key. pose proof (key_scanned stk l) as Hkey.
  destruct (read_key l) as [[name r]|]; [|done]. cbn [mbind option_bind]. destruct Hkey as (t & Hl & Hne & Ht).
  assert (length r < length l)%nat as Hlen by (rewrite Hl, length_app; destruct t; [done|simpl; lia]).
  specialize (HV (ObjectValue :: stk) r ltac:(lia)).
  replace (depth (ObjectValue :: stk)) with (depth stk + 1) in HV by (unfold depth; simpl; lia).
  destruct (parse_value fuel (depth stk + 1) r) as [[v r3]|]; cbn [mbind option_bind].
  2: { rewrite Hl. eapply unfinished_app; [done|]. by apply unfinished_above in HV. }
  destruct HV as (t3 & s & Hr & Ht3 & Hb3 & _). apply travels_above in Ht3.
  eapply (after_value ObjectValue stk s r3 _ l _ BeginString ObjectKey 125 (fun r => parse_members fuel (depth stk + 1) r)
            [(name, v)] (cons (name, v)));
    [|by eapply travels_app|done|apply end_of_member|done|].
  - rewrite Hl, Hr. by rewrite <- !app_assoc.
  - intros r' Hr'. apply HM. apply (f_equal length) in Hr. rewrite length_app in Hr. lia.
Qed.

(** A bracket is opened unless that would nest too deep. *)
Lemma push_depth f s stk : pushParseState f s stk = if maxNestingDepth <=? depth stk then SError else SGo false (s, f :: stk).
Proof.
  unfold pushParseState, depth. simpl length.
  destruct (Z.leb_spec maxNestingDepth (Z.of_nat (length stk))), (Z.leb_spec (Z.of_nat (S (length stk))) maxNestingDepth); (done || lia).
Qed.

Lemma object_value stk r res :
  (forall b r1, skip_ws r = b :: r1 -> inner_scanned ObjectKey BeginString stk (b :: r1) res) ->
  value_scanned stk (123 :: r)
    (if maxNestingDepth <=? depth stk then None
     else match skip_ws r with
          | [] => None
          | c :: r1 => if c =? 125 then Some (JObj [], r1) else '(ms, rest) ← res; Some (JObj ms, rest)
          end).
Proof.
  intros Hin. assert (step (BeginValue, stk) 123 = pushParseState ObjectKey BeginStringOrEmpty stk) as Hb by done.
  rewrite push_depth in Hb. destruct (maxNestingDepth <=? depth stk); [by apply value_refused|].
  assert (inner_scanned ObjectKey BeginStringOrEmpty stk r
    (match skip_ws r with [] => None | b :: r1 => if b =? 125 then Some (None, r1) else prod_map Some id <$> res end)) as Hi.
  { apply (after_open ObjectKey BeginStringOrEmpty BeginString 125); [done|..].
    - intros b Hws. simpl. by rewrite Hws.
    - intros b Hws Hc. cbn [step]. by rewrite Hws, (proj2 (Z.eqb_neq _ _)).
    - cbn. by destruct stk.
    - intros b r1 Hk _. by apply Hin. }
  apply (value_opened _ _ _ 123 r (fun o : option (list (bytes * json)) => JObj (default [] o))) in Hi; [|done|done].
  destruct (skip_ws r) as [|c r1]; [done|]. destruct (c =? 125); [done|]. by destruct res as [[ms rest]|].
Qed.

Lemma array_value stk r res :
  (forall b r1, skip_ws r = b :: r1 -> inner_scanned ArrayValue BeginValue stk (b :: r1) res) ->
  value_scanned stk (91 :: r)
    (if maxNestingDepth <=? depth stk then None
     else match skip_ws r with
          | [] => None
          | c :: r1 => if c =? 93 then Some (JArr [], r1) else '(vs, rest) ← res; Some (JArr vs, rest)
          end).
Proof.
  intros Hin. assert (step (BeginValue, stk) 91 = pushParseState ArrayValue BeginValueOrEmpty stk) as Hb by done.
  rewrite push_depth in Hb. destruct (maxNestingDepth <=? depth stk); [by apply value_refused|].
  assert (inner_scanned ArrayValue BeginValueOrEmpty stk r
    (match skip_ws r with [] => None | b :: r1 => if b =? 93 then Some (None, r1) else prod_map Some id <$> res end)) as Hi.
  { apply (after_open ArrayValue BeginValueOrEmpty BeginValue 93); [done|..].
    - intros b Hws. simpl. by rewrite Hws.
    - intros b Hws Hc. cbn [step]. by rewrite Hws, (proj2 (Z.eqb_neq _ _)).
    - cbn. by destruct stk.
    - intros b r1 Hk _. by apply Hin. }
  apply (value_opened _ _ _ 91 r (fun o : option (list json) => JArr (default [] o))) in Hi; [|done|done].
  destruct (skip_ws r) as [|c r1]; [done|]. destruct (c =? 93); [done|]. by destruct res as [[vs rest]|].
Qed.

Lemma begin_value_token stk b :
  is_ws b = false -> b <> 123 -> b <> 91 -> b <> 34 -> b <> 116 -> b <> 102 -> b <> 110 ->
  step (BeginValue, stk) b = match num_step NStart b with Some st => SGo false (InNum st, stk) | None => SError end.
Proof. intros Hws ? ? ? ? ? ?. cbn [step]. unfold stateBeginValue. by rewrite Hws, !(proj2 (Z.eqb_neq _ _)). Qed.

(** The scanner agrees with the recursive reading, with the fuel that is given to it. *)
Lemma values_scanned fuel :
  (forall stk l, (2 * length l + 1 <= fuel)%nat -> value_scanned stk l (parse_value fuel (depth stk) l)) /\
  (forall stk l, (2 * length l + 2 <= fuel)%nat ->
     inner_scanned ArrayValue BeginValue stk l (parse_elements fuel (depth stk + 1) l)) /\
  (forall stk l, (2 * length l + 2 <= fuel)%nat ->
     inner_scanned ObjectKey BeginString stk l (parse_members fuel (depth stk + 1) l)).
Proof.
  induction fuel as [|fuel (HV & HE & HM)]; [split_and!; intros; lia|].
  split_and!; [|intros; by apply elements_scanned; auto|intros; by apply members_scanned; auto].
  intros stk l Hf. apply value_after_ws. rewrite <- parse_value_ws.
  pose proof (skip_ws_length l) as Hlen. destruct (skip_ws l) as [|b r] eqn:Hk.
  { split; [simpl; auto with scan|done]. }
  pose proof (skip_ws_head _ _ _ Hk) as Hnw. simpl in Hlen. cbn [parse_value]. simpl skip_ws. rewrite Hnw.
  assert (forall c r1, skip_ws r = c :: r1 -> (2 * length (c :: r1) + 2 <= fuel)%nat) as Hin.
  { intros c r1 Hr. rewrite <- Hr. pose proof (skip_ws_length r). lia. }
  destruct (Z.eqb_spec b 123) as [->|H1].
  { apply object_value. intros c r1 Hr. rewrite <- parse_members_ws, Hr. auto. }
  destruct (Z.eqb_spec b 91) as [->|H2].
  { apply array_value. intros c r1 Hr. rewrite <- parse_elements_ws, Hr. auto. }
  destruct (Z.eqb_spec b 34) as [->|H3]; [apply string_value|].
  destruct (Z.eqb_spec b 116) as [->|H4]; [by apply (literal_value stk 116 [114; 117; 101])|].
  destruct (Z.eqb_spec b 102) as [->|H5]; [by apply (literal_value stk 102 [97; 108; 115; 101])|].
  destruct (Z.eqb_spec b 110) as [->|H6]; [by apply (literal_value stk 110 [117; 108; 108])|].
  apply number_value. by apply begin_value_token.
Qed.

(** ** The decoder *)

Ltac step_cases :=
  repeat match goal with
         | H : context [match ?x with _ => _ end] |- _ => destruct x eqn:?; try discriminate H
         | H : SGo _ _ = SGo _ _ |- _ => injection H as <- <-
         end.

(** The loop of the decoder stops at nothing but the end of a value. *)
Lemma step_EndTop c b k c' : step c b = SGo k c' -> c'.1 = EndTop <-> k = true /\ c'.2 = [].
Proof.
  destruct c as [s stk]. destruct s; cbn [step]; unfold stateBeginValue, stateBeginString, pushParseState;
    try (unfold stateEndValue, popParseState); intros H; step_cases; simpl; naive_solver.
Qed.

Lemma space_SEnd c : step c 32 = SEnd -> c.1 = EndTop \/ (c.2 = [] /\ ended c.1 = true).
Proof.
  destruct c as [s stk]. destruct s; cbn [step]; unfold stateBeginValue, stateBeginString, stateEndValue, popParseState;
    simpl; intros H; step_cases; try discriminate H; simpl; auto.
Qed.

Lemma travels_EndTop base c t c' : travels base c t c' -> c.1 = EndTop -> t = [] /\ c = c'.
Proof. intros [|[s stk] b k c1 t' c2 _ Hb _]; [done|]. simpl. intros ->. discriminate Hb. Qed.

Lemma scan_goes base c t c' n l :
  travels base c t c' -> c'.1 <> EndTop -> scan_from c n (t ++ l) = scan_from c' (n + length t) l.
Proof.
  intros Ht. revert n. induction Ht as [c|c b k c1 t c' _ Hb Ht IH]; intros n Hc; [by rewrite Nat.add_0_r|].
  cbn [app scan_from length]. rewrite Hb. destruct (k && bool_decide (c1.2 = [])) eqn:Hk.
  - apply andb_true_iff in Hk as [-> Hk%bool_decide_eq_true]. assert (c1.1 = EndTop) as He by (by eapply step_EndTop).
    by destruct (travels_EndTop _ _ _ _ Ht He) as [_ <-].
  - rewrite IH by done. f_equal. lia.
Qed.

Lemma scan_closes base c t c' n l :
  travels base c t c' -> c.1 <> EndTop -> c'.1 = EndTop -> scan_from c n (t ++ l) = VEnd (n + length t).
Proof.
  intros Ht. revert n. induction Ht as [c|c b k c1 t c' _ Hb Ht IH]; intros n Hc Hc'; [done|].
  cbn [app scan_from length]. rewrite Hb. destruct (k && bool_decide (c1.2 = [])) eqn:Hk.
  - apply andb_true_iff in Hk as [-> Hk%bool_decide_eq_true]. assert (c1.1 = EndTop) as He by (by eapply step_EndTop).
    destruct (travels_EndTop _ _ _ _ Ht He) as [-> _]. f_equal. simpl. lia.
  - rewrite IH; [f_equal; lia| |done]. intros [-> Hk']%(step_EndTop _ _ _ _ Hb). by rewrite Hk', bool_decide_true in Hk.
Qed.

(** Stopped before the end of the value. *)
Lemma scan_cut base c t c' n m :
  travels base c t c' -> c.1 <> EndTop -> (m < length t)%nat -> exists c1, scan_from c n (take m t) = VMore c1.
Proof.
  intros Ht. revert n m. induction Ht as [c|c b k c1 t c' _ Hb Ht IH]; intros n m Hc Hm; simpl in Hm; [lia|].
  destruct m as [|m]; [by eexists|]. cbn [take scan_from]. rewrite Hb.
  destruct (k && bool_decide (c1.2 = [])) eqn:Hk; [|apply IH; [|lia]].
  - apply andb_true_iff in Hk as [-> Hk%bool_decide_eq_true]. assert (c1.1 = EndTop) as He by (by eapply step_EndTop).
    destruct (travels_EndTop _ _ _ _ Ht He) as [-> _]. simpl in Hm. lia.
  - intros [-> Hk']%(step_EndTop _ _ _ _ Hb). by rewrite Hk', bool_decide_true in Hk.
Qed.

Lemma scan_unfinished c n l :
  unfinished [] c l -> (c.1 = EndTop -> c.2 = []) ->
  scan_from c n l = VError \/ exists c', scan_from c n l = VMore c' /\ complete_at_eof c' = false.
Proof.
  revert c n. induction l as [|b l IH]; intros c n [_ Hu] Hc.
  - right. exists c. split; [done|]. unfold complete_at_eof. destruct (step c 32) eqn:Hs; try done.
    destruct (space_SEnd _ Hs) as [He|[He Hen]]; [|by rewrite Hu in Hen].
    by rewrite He in Hu; specialize (Hu (Hc He)).
  - cbn [scan_from]. destruct (step c b) as [| |k c'] eqn:Hb; [by left|done|].
    destruct (k && bool_decide (c'.2 = [])) eqn:Hk; [|apply IH; [done|]; intros He; by eapply step_EndTop].
    apply andb_true_iff in Hk as [-> Hk%bool_decide_eq_true]. exfalso.
    assert (c'.1 = EndTop) as He by (by eapply step_EndTop). destruct c' as [s stk]. simpl in *. subst.
    destruct l as [|b' l]; destruct Hu as [_ Hu]; [by specialize (Hu eq_refl)|done].
Qed.

(** The decoder finds the value the recursive reading finds. It knows the end of a value
    without brackets only from the byte after it or the end of the text. *)
Lemma decoder_agrees l :
  match parse_value (2 * length l + 2) 0 l with
  | Some (v, rest) =>
      exists t, l = t ++ rest /\
        (scan_value l = VEnd (length t) \/
         (rest = [] /\ bracketed v = false /\ exists c, scan_value l = VMore c /\ complete_at_eof c = true))
  | None => scan_value l = VError \/ exists c, scan_value l = VMore c /\ complete_at_eof c = false
  end.
Proof.
  pose proof (proj1 (values_scanned (2 * length l + 2)) [] l ltac:(lia)) as H. change (depth []) with 0 in H.
  destruct (parse_value (2 * length l + 2) 0 l) as [[v rest]|]; [|by apply scan_unfinished].
  destruct H as (t & s & -> & Ht & [Hen Hb] & Hv). exists t. split; [done|]. unfold scan_value.
  destruct (bracketed v); [left; subst; by rewrite (scan_closes _ _ _ _ _ _ Ht)|].
  rewrite (scan_goes _ _ _ _ _ _ Ht) by done. destruct rest as [|b r]; [right|left].
  - split_and!; [done|done|]. exists (s, []). split; [done|]. unfold complete_at_eof.
    destruct s; try done. simpl in Hen |- *. rewrite num_step_end by done. by rewrite Hen.
  - cbn [scan_from]. by rewrite (Hb b r).
Qed.

(** A value in brackets is found whatever follows it, and not before its last byte. *)
Lemma bracketed_found l v rest t :
  parse_value (2 * length l + 2) 0 l = Some (v, rest) -> bracketed v = true -> l = t ++ rest ->
  (forall x, scan_value (t ++ x) = VEnd (length t)) /\
  (forall m, (m < length t)%nat -> exists c, scan_value (take m t) = VMore c).
Proof.
  intros Hp Hv Hl. pose proof (proj1 (values_scanned (2 * length l + 2)) [] l ltac:(lia)) as H.
  change (depth []) with 0 in H. rewrite Hp in H. destruct H as (t' & s & Hl' & Ht & _ & Hs). rewrite Hv in Hs. subst s.
  assert (t' = t) as -> by (apply (app_inv_tail rest); congruence). split.
  - intros x. by apply (scan_closes _ _ _ _ 0 x Ht).
  - intros m Hm. by apply (scan_cut _ _ _ _ 0 m Ht).
Qed.
