(* ===== verification/SqlGuard.v ===== *)
(** * The read-only statement guard

    [internal/sqlguard]: the scanner that tokenizes a statement into its bare
    words and counts its statements, and the [ReadOnly] policy over them. The
    scanner's index into the rune slice is the suffix that is still to be read,
    so [src[i:]] is the list a step takes and returns. *)

From S2P Require Import Prelude Utf8.

(** ** Character classes of package [unicode]

    The tables of the [unicode] package are an interface: the guard only relies
    on how they classify ASCII. *)

Class Unicode := {
  IsLetter : rune -> bool;
  IsDigit : rune -> bool;
  IsSpace : rune -> bool;
  ToUpper : rune -> rune;
  IsLetter_ascii c : 0 <= c < 128 -> IsLetter c = in_range 65 90 c || in_range 97 122 c;
  IsDigit_ascii c : 0 <= c < 128 -> IsDigit c = in_range 48 57 c;
  IsSpace_ascii c : 0 <= c < 128 -> IsSpace c = in_range 9 13 c || (c =? 32);
  ToUpper_ascii c : 0 <= c < 128 -> ToUpper c = if in_range 97 122 c then c - 32 else c
}.

(** The classification of ASCII, with every other rune outside the classes. *)
#[export, refine] Instance ascii_unicode : Unicode := {|
  IsLetter c := in_range 65 90 c || in_range 97 122 c;
  IsDigit c := in_range 48 57 c;
  IsSpace c := in_range 9 13 c || (c =? 32);
  ToUpper c := if in_range 97 122 c then c - 32 else c
|}.
Proof. all: done. Defined.

(** ** The scanner *)

Section Scanner.
Context `{Unicode}.

Definition writeKeywords : list string :=
  ["ALTER"; "ANALYZE"; "ATTACH"; "BEGIN"; "CALL";
   "COMMIT"; "COPY"; "CREATE"; "DEALLOCATE"; "DELETE";
   "DETACH"; "DO"; "DROP"; "EXEC"; "EXECUTE";
   "GRANT"; "HANDLER"; "IMPORT"; "INSERT"; "INTO";
   "KILL"; "LOAD"; "LOCK"; "MERGE"; "OPTIMIZE";
   "PREPARE"; "RENAME"; "REPLACE"; "REVOKE"; "ROLLBACK";
   "SAVEPOINT"; "SET"; "START"; "SYSTEM"; "TRUNCATE";
   "UPDATE"; "UPSERT"; "USE"; "VACUUM"].

Definition readVerbs : list string :=
  ["SELECT"; "WITH"; "SHOW"; "EXPLAIN"; "DESC"; "DESCRIBE"; "TABLE"; "VALUES"].

(** The runes the scanner looks for. *)
Definition r_newline : rune := 10.
Definition r_dquote : rune := 34.
Definition r_hash : rune := 35.
Definition r_dollar : rune := 36.
Definition r_quote : rune := 39.
Definition r_star : rune := 42.
Definition r_dash : rune := 45.
Definition r_slash : rune := 47.
Definition r_semi : rune := 59.
Definition r_backslash : rune := 92.
Definition r_underscore : rune := 95.
Definition r_backtick : rune := 96.

Definition is_word_rune (c : rune) : bool :=
  IsLetter c || IsDigit c || (c =? r_underscore).

(** [i+1 < n && src[i+1] == d], on the suffix after position [i]. *)
Definition next_is (d : rune) (rest : list rune) : bool :=
  match rest with
  | e :: _ => e =? d
  | [] => false
  end.

(** Skip to the end of the line, the newline itself excluded. *)
Fixpoint skip_line (l : list rune) : list rune :=
  match l with
  | [] => []
  | c :: rest => if c =? r_newline then l else skip_line rest
  end.

(** The body of a block comment, entered with [depth] openers unclosed. *)
Fixpoint skip_block (depth : nat) (l : list rune) : list rune :=
  match depth with
  | 0%nat => l
  | S depth' =>
      match l with
      | [] => []
      | c :: rest =>
          match rest with
          | d :: rest' =>
              if (c =? r_slash) && (d =? r_star) then skip_block (S depth) rest'
              else if (c =? r_star) && (d =? r_slash) then skip_block depth' rest'
              else skip_block depth rest
          | [] => skip_block depth rest
          end
      end
  end.

(** The suffix past a literal whose opening quote has been consumed. *)
Fixpoint skip_literal (quote : rune) (l : list rune) : list rune :=
  match l with
  | [] => []
  | c :: rest =>
      match rest with
      | d :: rest' =>
          if (c =? r_backslash) && (quote =? r_quote) then skip_literal quote rest'
          else if c =? quote then
            if d =? quote then skip_literal quote rest' else rest
          else skip_literal quote rest
      | [] => if c =? quote then rest else skip_literal quote rest
      end
  end.

Definition skipQuoted (l : list rune) (quote : rune) : list rune :=
  skip_literal quote (tail l).

(** The tag characters after a dollar sign. *)
Fixpoint take_tag (l : list rune) : list rune * list rune :=
  match l with
  | c :: rest =>
      if is_word_rune c then let '(t, r) := take_tag rest in (c :: t, r) else ([], l)
  | [] => ([], [])
  end.

(** [dollarTag]: the tag with both dollar signs, and the suffix just past it. *)
Definition dollarTag (l : list rune) : option (list rune * list rune) :=
  let '(t, r) := take_tag (tail l) in
  match r with
  | c :: r' => if c =? r_dollar then Some (r_dollar :: t ++ [r_dollar], r') else None
  | [] => None
  end.

Fixpoint is_prefix (p l : list rune) : option (list rune) :=
  match p, l with
  | [], _ => Some l
  | a :: p, b :: l => if a =? b then is_prefix p l else None
  | _ :: _, [] => None
  end.

(** [skipDollarQuoted]: the suffix past the first occurrence of the tag. Runes
    decoded from a string re-encode to valid UTF-8, where a substring match of
    an encoded tag is a match of its runes. *)
Fixpoint skipDollarQuoted (tag l : list rune) : list rune :=
  match is_prefix tag l with
  | Some r => r
  | None =>
      match l with
      | [] => []
      | _ :: rest => skipDollarQuoted tag rest
      end
  end.

(** The variables of [scan]: finished words, the word being built (both most
    recent first), whether the current statement has content, statements seen. *)
Record scan_state := mkScan {
  sc_words : list (list rune);
  sc_word : list rune;
  sc_pending : bool;
  sc_statements : nat
}.

Definition scan_init : scan_state := mkScan [] [] false 0.

Definition flush (st : scan_state) : scan_state :=
  match sc_word st with
  | [] => st
  | w => mkScan (rev w :: sc_words st) [] (sc_pending st) (sc_statements st)
  end.

Definition write_rune (c : rune) (st : scan_state) : scan_state :=
  mkScan (sc_words st) (c :: sc_word st) (sc_pending st) (sc_statements st).

Definition set_pending (st : scan_state) : scan_state :=
  mkScan (sc_words st) (sc_word st) true (sc_statements st).

(** Close the current statement if it has content. *)
Definition end_statement (st : scan_state) : scan_state :=
  if sc_pending st then mkScan (sc_words st) (sc_word st) false (S (sc_statements st)) else st.

(** One iteration of the loop of [scan], at [src[i] = c] with [src[i+1:] = rest]. *)
Definition scan_step (c : rune) (rest : list rune) (st : scan_state) : list rune * scan_state :=
  if ((c =? r_dash) && next_is r_dash rest) || (c =? r_hash) then
    (skip_line (c :: rest), flush st)
  else if (c =? r_slash) && next_is r_star rest then
    (skip_block 1 (tail rest), flush st)
  else if c =? r_dollar then
    match dollarTag (c :: rest) with
    | Some (tag, r) => (skipDollarQuoted tag r, set_pending (flush st))
    | None => (rest, write_rune c st)
    end
  else if (c =? r_quote) || (c =? r_dquote) || (c =? r_backtick) then
    (skipQuoted (c :: rest) c, set_pending (flush st))
  else if c =? r_semi then (rest, end_statement (flush st))
  else if is_word_rune c then (rest, set_pending (write_rune c st))
  else (rest, if IsSpace c then flush st else set_pending (flush st)).

(** The loop. Every iteration consumes at least one rune, so the length of the
    input is enough fuel ([scan_loop_fuel]). *)
Fixpoint scan_loop (fuel : nat) (l : list rune) (st : scan_state) : scan_state :=
  match fuel, l with
  | S fuel, c :: rest =>
      let '(l', st') := scan_step c rest st in scan_loop fuel l' st'
  | _, _ => st
  end.

Definition scan_from (l : list rune) (st : scan_state) : scan_state :=
  scan_loop (length l) l st.

Definition scan_finish (st : scan_state) : list (list rune) * nat :=
  let st := end_statement (flush st) in (rev (sc_words st), sc_statements st).

Definition scan (src : list rune) : list (list rune) * nat :=
  scan_finish (scan_from src scan_init).

(** ** The policy *)

Definition upper (w : list rune) : list rune := map ToUpper w.

Definition keyword_in (table : list string) (w : list rune) : bool :=
  existsb (fun k => bool_decide (upper w = runes k)) table.

#[local] Arguments keyword_in : simpl never.

Fixpoint first_write_keyword (words : list (list rune)) : option (list rune) :=
  match words with
  | [] => None
  | w :: rest => if keyword_in writeKeywords w then Some (upper w) else first_write_keyword rest
  end.

(** [ReadOnly] on the decoded statement: [None] accepts, [Some reason] rejects. *)
Definition ReadOnly_runes (src : list rune) : option string :=
  let '(words, statements) := scan src in
  match words with
  | [] => Some "statement is empty"
  | verb :: _ =>
      if (1 <? statements)%nat then Some "multiple statements are not allowed"
      else if negb (keyword_in readVerbs verb) then
        Some ("only read-only statements are allowed, got " +:+ string_of_runes (upper verb))
      else
        match first_write_keyword words with
        | Some w => Some ("only read-only statements are allowed, found " +:+ string_of_runes w)
        | None => None
        end
  end.

Definition ReadOnly (sql : string) : option string := ReadOnly_runes (runes sql).

(** ** Termination: each iteration consumes input *)

Lemma skip_line_length l : (length (skip_line l) <= length l)%nat.
Proof. induction l as [|c l IH]; simpl; [done|]. dmatch; simpl; lia. Qed.

(** The defining equations on two or more runes. *)
Lemma skip_block_cons d c e l :
  skip_block (S d) (c :: e :: l) =
  if (c =? r_slash) && (e =? r_star) then skip_block (S (S d)) l
  else if (c =? r_star) && (e =? r_slash) then skip_block d l
  else skip_block (S d) (e :: l).
Proof. done. Qed.

Lemma skip_block_0 l : skip_block 0 l = l.
Proof. by destruct l. Qed.

Lemma skip_literal_cons q c e l :
  skip_literal q (c :: e :: l) =
  if (c =? r_backslash) && (q =? r_quote) then skip_literal q l
  else if c =? q then if e =? q then skip_literal q l else e :: l
  else skip_literal q (e :: l).
Proof. done. Qed.

Lemma skip_block_length d l : (length (skip_block d l) <= length l)%nat.
Proof.
  revert d. induction l as [l IH] using (induction_ltof1 _ (@length rune)).
  unfold ltof in IH. intros [|d]; [destruct l; simpl; lia|].
  destruct l as [|c [|e l]]; [simpl; lia..|]. rewrite skip_block_cons.
  repeat case_match; (etransitivity; [apply IH|]); simpl; lia.
Qed.

Lemma skip_literal_length q l : (length (skip_literal q l) <= length l)%nat.
Proof.
  induction l as [l IH] using (induction_ltof1 _ (@length rune)). unfold ltof in IH.
  destruct l as [|c [|e l]]; [simpl; lia|simpl; case_match; simpl; lia|].
  rewrite skip_literal_cons.
  repeat case_match; try (simpl; lia); (etransitivity; [apply IH|]); simpl; lia.
Qed.

Lemma take_tag_length l : (length (take_tag l).2 <= length l)%nat.
Proof.
  induction l as [|c l IH]; [done|]. simpl. dmatch; [|done].
  destruct (take_tag l); simpl in *; lia.
Qed.

Lemma dollarTag_length l t r : dollarTag l = Some (t, r) -> (length r < length l)%nat.
Proof.
  unfold dollarTag. pose proof (take_tag_length (tail l)).
  destruct (take_tag (tail l)) as [t' [|c r']]; [done|]. case_match; [|done].
  intros [= <- <-]. destruct l; simpl in *; lia.
Qed.

Lemma is_prefix_length p l r : is_prefix p l = Some r -> (length r <= length l)%nat.
Proof.
  revert l. induction p as [|a p IH]; intros [|b l]; simpl; try naive_solver.
  case_match; [|done]. intros ?%IH. lia.
Qed.

Lemma skipDollarQuoted_length t l : (length (skipDollarQuoted t l) <= length l)%nat.
Proof.
  induction l as [|c l IH]; simpl; case_match eqn:E; try (apply is_prefix_length in E);
    simpl in *; lia.
Qed.

Lemma scan_step_length c rest st :
  (length (scan_step c rest st).1 < length (c :: rest))%nat.
Proof.
  unfold scan_step. repeat case_match; cbn [fst].
  - assert ((c =? r_newline) = false) as Hc.
    { match goal with Hh : (_ || _)%bool = true |- _ => apply orb_true_iff in Hh as [Hh|Hh] end;
        bprop; by subst. }
    simpl. rewrite Hc. pose proof (skip_line_length rest). lia.
  - pose proof (skip_block_length 1 (tail rest)). destruct rest; simpl in *; lia.
  - match goal with Hd : dollarTag _ = Some _ |- _ => apply dollarTag_length in Hd end.
    pose proof (skipDollarQuoted_length l l0). lia.
  - simpl. lia.
  - unfold skipQuoted. simpl. pose proof (skip_literal_length c rest). lia.
  - simpl. lia.
  - simpl. lia.
  - simpl. lia.
  - simpl. lia.
Qed.

Lemma scan_loop_fuel fuel fuel' l st :
  (length l <= fuel)%nat -> (length l <= fuel')%nat ->
  scan_loop fuel l st = scan_loop fuel' l st.
Proof.
  revert fuel' l st. induction fuel as [|fuel IH]; intros fuel' [|c l] st H1 H2;
    try (simpl in *; lia); [by destruct fuel'..|].
  destruct fuel' as [|fuel']; [simpl in *; lia|]. simpl.
  pose proof (scan_step_length c l st). destruct (scan_step c l st) as [l' st'].
  simpl in *. apply IH; lia.
Qed.

(** One iteration of the loop, as an equation on [scan_from]. *)
Lemma scan_from_cons c l st :
  scan_from (c :: l) st =
  scan_from (scan_step c l st).1 (scan_step c l st).2.
Proof.
  unfold scan_from at 1. simpl. pose proof (scan_step_length c l st).
  destruct (scan_step c l st) as [l' st']. simpl in *. apply scan_loop_fuel; lia.
Qed.

(** A run of the loop from one position to another. *)
Inductive scans : list rune -> scan_state -> list rune -> scan_state -> Prop :=
| scans_refl l st : scans l st l st
| scans_step c l st l' st' :
    scans (scan_step c l st).1 (scan_step c l st).2 l' st' -> scans (c :: l) st l' st'.

Lemma scans_from l st l' st' : scans l st l' st' -> scan_from l st = scan_from l' st'.
Proof. induction 1; [done|]. by rewrite scan_from_cons. Qed.

(** ** Spans the scanner skips *)

Lemma skip_literal_ne q c l :
  c <> q -> (c = r_backslash -> q <> r_quote) ->
  skip_literal q (c :: l) = skip_literal q l.
Proof.
  intros Hq Hb. assert ((c =? r_backslash) && (q =? r_quote) = false) as E.
  { apply andb_false_iff. destruct (Z.eqb_spec c r_backslash); [right|by left].
    apply Z.eqb_neq; auto. }
  apply Z.eqb_neq in Hq. destruct l as [|d l].
  - simpl. by rewrite Hq.
  - by rewrite skip_literal_cons, E, Hq.
Qed.

Lemma skip_literal_body q b post :
  q ∉ b -> (q = r_quote -> r_backslash ∉ b) -> next_is q post = false ->
  skip_literal q (b ++ q :: post) = post.
Proof.
  intros Hq Hb Hn. induction b as [|c b IH].
  - destruct post as [|d post]; [simpl; by rewrite Z.eqb_refl|].
    simpl app. rewrite skip_literal_cons, Z.eqb_refl. simpl in Hn. rewrite Hn.
    destruct (Z.eqb_spec q r_backslash) as [->|]; done.
  - apply not_elem_of_cons in Hq as [Hc Hq]. simpl app.
    rewrite skip_literal_ne; [apply IH; set_solver|done|].
    intros -> ->. apply Hb; set_solver.
Qed.

Lemma skip_line_body b post :
  r_newline ∉ b -> skip_line (b ++ r_newline :: post) = r_newline :: post.
Proof.
  induction b as [|c b IH]; simpl; intros Hn; [done|].
  apply not_elem_of_cons in Hn as [Hc Hn].
  destruct (Z.eqb_spec c r_newline); [congruence|auto].
Qed.

(** The text between the delimiters of a comment whose inner comments are
    closed. *)
Inductive nested : list rune -> Prop :=
| nested_nil : nested []
| nested_char c b : c <> r_slash -> c <> r_star -> nested b -> nested (c :: b)
| nested_comment b1 b2 : nested b1 -> nested b2 ->
    nested (r_slash :: r_star :: b1 ++ r_star :: r_slash :: b2).

Lemma skip_block_nested b :
  nested b -> forall d rest, skip_block (S d) (b ++ rest) = skip_block (S d) rest.
Proof.
  induction 1 as [|c b Hc1 Hc2 _ IH|b1 b2 _ IH1 _ IH2]; intros d rest; [done| |].
  - apply Z.eqb_neq in Hc1, Hc2. rewrite <-(IH d rest). simpl app.
    destruct (b ++ rest) as [|e l]; [done|]. by rewrite skip_block_cons, Hc1, Hc2.
  - simpl app. rewrite skip_block_cons. simpl. rewrite <-app_assoc, IH1. simpl app.
    rewrite skip_block_cons. simpl. apply IH2.
Qed.

Lemma is_prefix_app p l : is_prefix p (p ++ l) = Some l.
Proof. induction p; simpl; [done|]. by rewrite Z.eqb_refl. Qed.

Lemma skipDollarQuoted_body w b post :
  r_dollar ∉ b ->
  skipDollarQuoted (r_dollar :: w) (b ++ (r_dollar :: w) ++ post) = post.
Proof.
  induction b as [|c b IH]; intros Hb.
  - simpl app. simpl. by rewrite is_prefix_app.
  - apply not_elem_of_cons in Hb as [Hc Hb]. apply Z.eqb_neq in Hc.
    cbn -[Z.eqb]. rewrite Hc. by apply IH.
Qed.

Lemma word_rune_ascii c :
  is_word_rune c = true -> c ∉ [r_newline; r_dash; r_hash; r_slash; r_dollar; r_quote;
                               r_dquote; r_backtick; r_semi; r_star].
Proof.
  intros Hc Hin. unfold is_word_rune in Hc.
  rewrite IsLetter_ascii, IsDigit_ascii in Hc by (set_unfold in Hin; vm_compute in Hin; lia).
  set_unfold in Hin. destruct_or?; subst; done.
Qed.

Lemma take_tag_word w post :
  Forall (fun c => is_word_rune c = true) w ->
  take_tag (w ++ r_dollar :: post) = (w, r_dollar :: post).
Proof.
  induction 1 as [|c w Hc _ IH]; simpl.
  - destruct (is_word_rune r_dollar) eqn:E; [|done].
    apply word_rune_ascii in E. set_solver.
  - by rewrite Hc, IH.
Qed.

(** The contents of a literal, a quoted identifier, a line comment, a block
    comment (nested ones included) or a dollar-quoted string never reach the
    guard: wherever the scanner meets the opening delimiter, its words and its
    statement count come out the same whatever the span contains. *)
Theorem quoted_text_invisible st post :
  (forall q b, q ∈ [r_quote; r_dquote; r_backtick] -> q ∉ b ->
     (q = r_quote -> r_backslash ∉ b) -> next_is q post = false ->
     scan_from (q :: b ++ q :: post) st = scan_from post (set_pending (flush st))) /\
  (forall b, r_newline ∉ b ->
     scan_from (r_dash :: r_dash :: b ++ r_newline :: post) st =
       scan_from (r_newline :: post) (flush st) /\
     scan_from (r_hash :: b ++ r_newline :: post) st =
       scan_from (r_newline :: post) (flush st)) /\
  (forall b, nested b ->
     scan_from (r_slash :: r_star :: b ++ r_star :: r_slash :: post) st =
       scan_from post (flush st)) /\
  (forall w b, Forall (fun c => is_word_rune c = true) w -> r_dollar ∉ b ->
     scan_from ((r_dollar :: w ++ [r_dollar]) ++ b ++ (r_dollar :: w ++ [r_dollar]) ++ post) st =
       scan_from post (set_pending (flush st))).
Proof.
  split_and!.
  - intros q b Hq Hqb Hbs Hn. rewrite scan_from_cons.
    assert (scan_step q (b ++ q :: post) st =
            (skip_literal q (b ++ q :: post), set_pending (flush st))) as ->.
    { set_unfold in Hq. destruct_or?; by subst. }
    cbn [fst snd]. by rewrite skip_literal_body.
  - intros b Hb. split; rewrite scan_from_cons; simpl; by rewrite skip_line_body.
  - intros b Hb. rewrite scan_from_cons.
    change (scan_step r_slash _ st) with
      (skip_block 1 (b ++ r_star :: r_slash :: post), flush st).
    cbn [fst snd]. rewrite skip_block_nested, skip_block_cons by done. simpl.
    by rewrite skip_block_0.
  - intros w b Hw Hb. simpl app. rewrite scan_from_cons.
    set (tag := r_dollar :: w ++ [r_dollar]).
    assert (scan_step r_dollar ((w ++ [r_dollar]) ++ b ++ tag ++ post) st =
            (skipDollarQuoted tag (b ++ tag ++ post), set_pending (flush st))) as E.
    { unfold scan_step. simpl. unfold dollarTag. simpl tail.
      rewrite <-app_assoc. simpl app. by rewrite take_tag_word. }
    unfold tag in E at 1 3. simpl app in E. rewrite E. cbn [fst snd].
    f_equal. apply (skipDollarQuoted_body (w ++ [r_dollar]) b post Hb).
Qed.

(** ** Plain text *)

(** Turn [c ∉ ds] into the outcome of every test of [c] against a rune of [ds]. *)
Ltac rewrite_neqs Hn :=
  repeat (apply not_elem_of_cons in Hn as [?Hne Hn]);
  repeat match goal with
  | Hne : _ <> _ |- _ => apply Z.eqb_neq in Hne; rewrite ?Hne; clear Hne
  end.

(** A rune that separates words and opens nothing. *)
Definition inert (c : rune) : Prop :=
  is_word_rune c = false /\
  c ∉ [r_dash; r_hash; r_slash; r_dollar; r_quote; r_dquote; r_backtick; r_semi].

(** A word, possibly empty, and the separator that follows it. *)
Definition chunk : Type := list rune * rune.

Definition chunk_ok (k : chunk) : Prop :=
  Forall (fun c => is_word_rune c = true) k.1 /\ inert k.2.

Definition text (ks : list chunk) : list rune := concat (map (fun k => k.1 ++ [k.2]) ks).

Definition nonempty (w : list rune) : bool := match w with [] => false | _ => true end.

Definition text_words (ks : list chunk) : list (list rune) :=
  List.filter nonempty (map fst ks).

(** Whether the text has anything but white space. *)
Definition has_content (ks : list chunk) : bool :=
  existsb (fun k => nonempty k.1 || negb (IsSpace k.2)) ks.

Lemma scan_from_word w post ws wd p n :
  Forall (fun c => is_word_rune c = true) w ->
  scan_from (w ++ post) (mkScan ws wd p n) =
  scan_from post (mkScan ws (rev w ++ wd) (p || nonempty w) n).
Proof.
  intros Hw. revert wd p. induction Hw as [|c w Hc _ IH]; intros wd p; simpl app.
  - simpl. by rewrite orb_false_r.
  - rewrite scan_from_cons.
    assert (scan_step c (w ++ post) (mkScan ws wd p n) =
            (w ++ post, mkScan ws (c :: wd) true n)) as ->.
    { pose proof (word_rune_ascii c Hc) as Hn. unfold scan_step. rewrite Hc.
      by rewrite_neqs Hn. }
    cbn [fst snd]. rewrite IH. simpl. rewrite <-app_assoc, orb_true_r. done.
Qed.

Lemma scan_from_inert c post st :
  inert c ->
  scan_from (c :: post) st =
  scan_from post (if IsSpace c then flush st else set_pending (flush st)).
Proof.
  intros [Hw Hn]. rewrite scan_from_cons. unfold scan_step. rewrite Hw.
  by rewrite_neqs Hn.
Qed.

Lemma flush_rev w ws p n :
  flush (mkScan ws (rev w ++ []) p n) =
  mkScan (if nonempty w then w :: ws else ws) [] p n.
Proof.
  rewrite app_nil_r. destruct w as [|c w]; [done|]. unfold flush. cbn [sc_word].
  destruct (rev (c :: w)) as [|d l] eqn:E.
  - apply (f_equal (@length _)) in E. rewrite length_rev in E. done.
  - rewrite <-E, rev_involutive. done.
Qed.

(** Scanning plain text adds its words, in order, to the ones seen so far. *)
Lemma scan_from_text ks post ws p n :
  Forall chunk_ok ks ->
  scan_from (text ks ++ post) (mkScan ws [] p n) =
  scan_from post (mkScan (rev (text_words ks) ++ ws) [] (p || has_content ks) n).
Proof.
  intros Hks. revert ws p. induction Hks as [|[w c] ks [Hw Hc] _ IH]; intros ws p.
  - simpl. by rewrite orb_false_r.
  - unfold text. simpl. rewrite <-!app_assoc. fold (text ks).
    rewrite scan_from_word by done. simpl app. rewrite scan_from_inert by done.
    rewrite flush_rev. unfold text_words. simpl. fold (text_words ks).
    destruct (nonempty w) eqn:En; simpl; destruct (IsSpace c); simpl;
      unfold set_pending; simpl; rewrite IH; f_equal; f_equal;
      rewrite <-?app_assoc; simpl; try done; by destruct p.
Qed.

Lemma text_words_content ks : text_words ks <> [] -> has_content ks = true.
Proof.
  induction ks as [|[w c] ks IH]; [done|]. unfold text_words. simpl.
  destruct (nonempty w); simpl; [done|]. intros Hx. by rewrite IH, orb_true_r.
Qed.

Lemma scan_text ks :
  Forall chunk_ok ks ->
  scan (text ks) = (text_words ks, if has_content ks then 1%nat else 0%nat).
Proof.
  intros Hks. unfold scan, scan_init. rewrite <-(app_nil_r (text ks)), scan_from_text by done.
  unfold scan_finish, scan_from, flush, end_statement. simpl.
  destruct (has_content ks); simpl; by rewrite app_nil_r, rev_involutive.
Qed.

Lemma scan_two_texts ks1 ks2 :
  Forall chunk_ok ks1 -> Forall chunk_ok ks2 ->
  has_content ks1 = true -> has_content ks2 = true ->
  scan (text ks1 ++ r_semi :: text ks2) = (text_words ks1 ++ text_words ks2, 2%nat).
Proof.
  intros H1 H2 C1 C2. unfold scan, scan_init. rewrite scan_from_text by done.
  rewrite scan_from_cons. rewrite C1.
  change (scan_step r_semi _ _) with
    (text ks2, mkScan (rev (text_words ks1) ++ []) [] false 1).
  cbn [fst snd]. rewrite <-(app_nil_r (text ks2)), scan_from_text by done.
  rewrite C2. unfold scan_finish, scan_from, flush, end_statement. simpl.
  by rewrite app_nil_r, rev_app_distr, !rev_involutive.
Qed.

(** ** The policy *)

Lemma first_write_keyword_None ws :
  first_write_keyword ws = None <-> Forall (fun w => keyword_in writeKeywords w = false) ws.
Proof.
  induction ws as [|w ws IH]; simpl; [split; constructor|].
  rewrite Forall_cons, <-IH. cbv beta. destruct (keyword_in writeKeywords w);
    [|split; [intros; by split|by intros [_ ?]]].
  split; [done|]. by intros [? _].
Qed.

(** What the policy asks of the words and the statement count. *)
Definition read_only_words (words : list (list rune)) (statements : nat) : Prop :=
  (statements <= 1)%nat /\
  (exists verb rest, words = verb :: rest /\ keyword_in readVerbs verb = true) /\
  Forall (fun w => keyword_in writeKeywords w = false) words.

Lemma ReadOnly_runes_None src :
  ReadOnly_runes src = None <-> read_only_words (scan src).1 (scan src).2.
Proof.
  unfold ReadOnly_runes, read_only_words. destruct (scan src) as [[|verb words] n]; simpl fst; simpl snd.
  - split; [done|]. intros (_ & (? & ? & ? & _) & _). done.
  - rewrite <-first_write_keyword_None. destruct (Nat.ltb_spec 1 n).
    { split; [done|]. intros (? & _). lia. }
    destruct (keyword_in readVerbs verb) eqn:Ev; simpl negb; cbv iota.
    + destruct (first_write_keyword (verb :: words)).
      * split; [done|]. by intros (_ & _ & ?).
      * split; [|done]. intros _. split_and!; eauto.
    + split; [done|]. intros (_ & (? & ? & [= <- <-] & ?) & _). congruence.
Qed.

(** On plain text - words separated by white space, commas, parentheses and
    the like - the guard decides exactly the documented policy: it accepts when
    the first word is a read verb and no word is a write keyword, and it refuses
    two statements joined by a semicolon whatever they are. *)
Theorem plain_statement_policy ks :
  Forall chunk_ok ks ->
  (ReadOnly_runes (text ks) = None <->
     (exists verb rest, text_words ks = verb :: rest /\ keyword_in readVerbs verb = true) /\
     Forall (fun w => keyword_in writeKeywords w = false) (text_words ks)) /\
  (forall ks2, Forall chunk_ok ks2 -> text_words ks <> [] -> text_words ks2 <> [] ->
     ReadOnly_runes (text ks ++ r_semi :: text ks2) =
       Some "multiple statements are not allowed").
Proof.
  intros Hks. split.
  - rewrite ReadOnly_runes_None, scan_text by done. unfold read_only_words. simpl.
    assert ((if has_content ks then 1 else 0) <= 1)%nat by (destruct (has_content ks); lia).
    tauto.
  - intros ks2 Hks2 N1 N2. unfold ReadOnly_runes.
    rewrite scan_two_texts by auto using text_words_content.
    by destruct (text_words ks).
Qed.

(** ** Bare keywords *)

Lemma flush_words st : exists ws, sc_words (flush st) = ws ++ sc_words st.
Proof. unfold flush. destruct (sc_word st); [by exists []|by eexists [_]]. Qed.

Lemma end_statement_words st : sc_words (end_statement st) = sc_words st.
Proof. unfold end_statement. by destruct (sc_pending st). Qed.

Lemma scan_step_words c l st : exists ws, sc_words (scan_step c l st).2 = ws ++ sc_words st.
Proof.
  unfold scan_step. pose proof (flush_words st) as Hf.
  repeat case_match; simpl; rewrite ?end_statement_words; eauto; by exists [].
Qed.

(** A word once seen stays seen. *)
Lemma scan_from_words l st : exists ws, sc_words (scan_from l st) = ws ++ sc_words st.
Proof.
  revert st. induction l as [l IH] using (induction_ltof1 _ (@length rune)).
  unfold ltof in IH. intros st. destruct l as [|c l]; [by exists []|].
  rewrite scan_from_cons. destruct (scan_step_words c l st) as [ws1 H1].
  destruct (IH _ (scan_step_length c l st) (scan_step c l st).2) as [ws2 H2].
  exists (ws2 ++ ws1). by rewrite H2, H1, app_assoc.
Qed.

Lemma scan_step_flushes c l st :
  is_word_rune c = false -> c <> r_dollar ->
  sc_words (scan_step c l st).2 = sc_words (flush st).
Proof.
  intros Hw Hd. unfold scan_step. apply Z.eqb_neq in Hd. rewrite Hw, Hd.
  repeat case_match; simpl; by rewrite ?end_statement_words.
Qed.

(** The words of a scan that reaches a bare word contain it. *)
Lemma bare_word_scanned src kw post st :
  scans src scan_init (kw ++ post) st -> sc_word st = [] ->
  kw <> [] -> Forall (fun c => is_word_rune c = true) kw ->
  (post = [] \/ exists c l, post = c :: l /\ is_word_rune c = false /\ c <> r_dollar) ->
  kw ∈ (scan src).1.
Proof.
  intros Hs Hw Hne Hkw Hpost. unfold scan. rewrite (scans_from _ _ _ _ Hs).
  destruct st as [ws wd p n]. simpl in Hw. subst wd. rewrite scan_from_word by done.
  assert (sc_words (flush (mkScan ws (rev kw ++ []) (p || nonempty kw) n)) = kw :: ws) as Hf.
  { rewrite flush_rev. by destruct kw. }
  unfold scan_finish. simpl fst. rewrite end_statement_words.
  apply list_elem_of_In, in_rev. rewrite rev_involutive.
  destruct Hpost as [->|(c & l & -> & Hc & Hd)].
  - change (scan_from [] ?x) with x. rewrite Hf. by left.
  - rewrite scan_from_cons.
    pose proof (scan_step_flushes c l (mkScan ws (rev kw ++ []) (p || nonempty kw) n) Hc Hd) as E.
    rewrite Hf in E.
    destruct (scan_from_words (scan_step c l (mkScan ws (rev kw ++ []) (p || nonempty kw) n)).1
                (scan_step c l (mkScan ws (rev kw ++ []) (p || nonempty kw) n)).2) as [ws2 H2].
    destruct (flush_words (scan_from (scan_step c l (mkScan ws (rev kw ++ []) (p || nonempty kw) n)).1
                (scan_step c l (mkScan ws (rev kw ++ []) (p || nonempty kw) n)).2)) as [ws3 H3].
    rewrite H3, H2, E. apply in_or_app. right. apply in_or_app. right. by left.
Qed.

(** A write keyword the scanner meets outside every quoted span, in any
    letter case and anywhere in the statement, makes the guard reject it: it is
    enough that the scanner arrives at the keyword between words and that a
    delimiter or the end of the text follows it. *)
Theorem bare_write_keyword_rejected src kw post st :
  scans src scan_init (kw ++ post) st -> sc_word st = [] ->
  kw <> [] -> Forall (fun c => is_word_rune c = true) kw ->
  (post = [] \/ exists c l, post = c :: l /\ is_word_rune c = false /\ c <> r_dollar) ->
  keyword_in writeKeywords kw = true ->
  exists reason, ReadOnly_runes src = Some reason.
Proof.
  intros Hs Hw Hne Hkw Hpost Hk.
  destruct (ReadOnly_runes src) as [reason|] eqn:E; [by exists reason|].
  apply ReadOnly_runes_None in E as (_ & _ & Hall).
  rewrite Forall_forall in Hall.
  specialize (Hall kw (bare_word_scanned _ _ _ _ Hs Hw Hne Hkw Hpost)). congruence.
Qed.

End Scanner.

(** ** Witnesses *)

Lemma quoted_text_invisible_witness :
  scan_from (runes "'DROP' FROM t") scan_init =
  scan_from (runes " FROM t") (set_pending (flush scan_init)) /\
  scan_from (runes "$a$; DROP TABLE t$a$, 1") scan_init =
  scan_from (runes ", 1") (set_pending (flush scan_init)).
Proof.
  split.
  - apply (proj1 (quoted_text_invisible scan_init (runes " FROM t")) r_quote (runes "DROP"));
      [by apply (bool_decide_unpack _)|by apply (bool_decide_unpack _)|
       intros _; by apply (bool_decide_unpack _)|reflexivity].
  - apply (proj2 (proj2 (proj2 (quoted_text_invisible scan_init (runes ", 1"))))
             (runes "a") (runes "; DROP TABLE t"));
      [by apply (bool_decide_unpack _)|by apply (bool_decide_unpack _)].
Defined.

(** [SELECT a, b], chunk by chunk. *)
Definition select_a_b : list chunk :=
  [(runes "SELECT", 32); (runes "a", 44); (runes "", 32); (runes "b", 32)].

Lemma select_a_b_ok : Forall chunk_ok select_a_b.
Proof. unfold chunk_ok, inert. by apply (bool_decide_unpack _). Qed.

Lemma plain_statement_policy_witness :
  ReadOnly "SELECT a, b " = None /\
  ReadOnly "SELECT a, b ;SELECT a, b " = Some "multiple statements are not allowed".
Proof.
  split.
  - apply (proj1 (plain_statement_policy select_a_b select_a_b_ok)). split.
    + by exists (runes "SELECT"), [runes "a"; runes "b"].
    + by apply (bool_decide_unpack _).
  - apply (proj2 (plain_statement_policy select_a_b select_a_b_ok) select_a_b);
      [apply select_a_b_ok|discriminate|discriminate].
Defined.

Lemma bare_write_keyword_rejected_witness :
  exists reason, ReadOnly "SELECT 'x' drop" = Some reason.
Proof.
  apply (bare_write_keyword_rejected (runes "SELECT 'x' drop") (runes "drop") []
           (mkScan [runes "SELECT"] [] true 0)); try reflexivity.
  - vm_compute. do 9 (apply scans_step; vm_compute). apply scans_refl.
  - discriminate.
  - by apply (bool_decide_unpack _).
  - by left.
Defined.

(** ** Dialects the scanner reads differently

    The scanner accepts the comment and escape syntax of every dialect at once,
    so a statement can hide text from it in a dialect that does not have that
    syntax. Under PostgreSQL's lexical rules each statement below carries a
    second statement: [#] is an operator there and opens no comment, a backslash
    is an ordinary character of a literal, and a dollar sign inside an
    identifier opens no dollar quote. The guard accepts all three. *)
Lemma guard_accepts_second_statement :
  ReadOnly "SELECT 1 # 2; DROP TABLE t" = None /\
  ReadOnly "SELECT '\'; DROP TABLE t; --'" = None /\
  ReadOnly "SELECT 1 AS x$a$; DROP TABLE t; SELECT 2 AS y$a$" = None.
Proof. by vm_compute. Qed.

(** The reason of a rejection repeats the first word of the statement, which is
    all of it when the statement is one word. *)
Lemma guard_echoes_first_word :
  ReadOnly "s3cret_token" =
    Some "only read-only statements are allowed, got S3CRET_TOKEN".
Proof. by vm_compute. Qed.
