(* ===== verification/Authn.v ===== *)
(** * Authentication

    [internal/authn]: static bearer tokens, scopes and their implications, the
    identity a credential resolves to and the subject check of the read paths.
    [os.Getenv] is the argument [getenv]; a configuration error of [New] is a
    value with the token's position and subject instead of its text. *)

From S2P Require Import Prelude Domain Utf8.

Module Authn.

Inductive Scope := ScopeRead | ScopeWrite | ScopeAdmin.

#[export] Instance Scope_eq_dec : EqDecision Scope.
Proof. solve_decision. Defined.

Definition ValidScopes : list Scope := [ScopeRead; ScopeWrite; ScopeAdmin].

Definition scope_string (s : Scope) : string :=
  match s with
  | ScopeRead => "read"
  | ScopeWrite => "write"
  | ScopeAdmin => "admin"
  end.

(** [Scope(raw)], when it is one of [ValidScopes]. *)
Definition valid_scope (raw : string) : option Scope :=
  list_find (fun s => scope_string s = raw) ValidScopes ≫= fun p => Some p.2.

Record TokenSpec := mkTokenSpec {
  spec_Subject : string;
  spec_Value : string;
  spec_ValueEnv : string;
  spec_Scopes : list string
}.

Record token := mkToken {
  tok_value : string;
  tok_subject : string;
  tok_scopes : list Scope
}.

Record Identity := mkIdentity {
  id_Subject : string;
  id_Scopes : list Scope
}.

Definition Has (i : Identity) (s : Scope) : bool :=
  if slices_contains (id_Scopes i) ScopeAdmin then true
  else if bool_decide (s = ScopeRead) && slices_contains (id_Scopes i) ScopeWrite then true
  else slices_contains (id_Scopes i) s.

Definition IsAdmin (i : Identity) : bool := slices_contains (id_Scopes i) ScopeAdmin.

Record Authenticator := mkAuthenticator { tokens : list token }.

(** The ways [New] refuses a token list. *)
Inductive auth_error :=
| NoTokens
| EnvEmpty (i : nat) (subject var : string)
| NoValue (i : nat) (subject : string)
| DuplicateValue (i : nat) (subject : string)
| EmptySubject (i : nat)
| NoScopes (i : nat) (subject : string)
| UnknownScope (i : nat) (subject raw : string).

(** The loop over a spec's scopes. *)
Fixpoint parse_scopes (i : nat) (subject : string) (raws : list string) : auth_error + list Scope :=
  match raws with
  | [] => inr []
  | raw :: raws =>
      match valid_scope raw with
      | None => inl (UnknownScope i subject raw)
      | Some s =>
          match parse_scopes i subject raws with
          | inl e => inl e
          | inr ss => inr (s :: ss)
          end
      end
  end.

Definition resolve_value (getenv : string -> string) (i : nat) (spec : TokenSpec)
  : auth_error + string :=
  if negb (bool_decide (spec_ValueEnv spec = "")) then
    let value := getenv (spec_ValueEnv spec) in
    if bool_decide (value = "") then inl (EnvEmpty i (spec_Subject spec) (spec_ValueEnv spec))
    else inr value
  else if bool_decide (spec_Value spec = "") then inl (NoValue i (spec_Subject spec))
  else inr (spec_Value spec).

(** The loop of [New], with the values seen so far and the tokens built. *)
Fixpoint new_tokens (getenv : string -> string) (i : nat) (seen : list string)
    (specs : list TokenSpec) : auth_error + list token :=
  match specs with
  | [] => inr []
  | spec :: specs =>
      match resolve_value getenv i spec with
      | inl e => inl e
      | inr value =>
          if slices_contains seen value then inl (DuplicateValue i (spec_Subject spec))
          else if bool_decide (spec_Subject spec = "") then inl (EmptySubject i)
          else if bool_decide (spec_Scopes spec = []) then inl (NoScopes i (spec_Subject spec))
          else
            match parse_scopes i (spec_Subject spec) (spec_Scopes spec) with
            | inl e => inl e
            | inr scopes =>
                match new_tokens getenv (S i) (value :: seen) specs with
                | inl e => inl e
                | inr ts => inr (mkToken value (spec_Subject spec) scopes :: ts)
                end
            end
      end
  end.

Definition New (getenv : string -> string) (specs : list TokenSpec)
  : auth_error + Authenticator :=
  match specs with
  | [] => inl NoTokens
  | _ =>
      match new_tokens getenv 0 [] specs with
      | inl e => inl e
      | inr ts => inr (mkAuthenticator ts)
      end
  end.

(** The loop of [Authenticate]: every token is compared, the last match is kept. *)
Definition last_match (credential : string) (ts : list token) : option token :=
  fold_left (fun m t => if bool_decide (tok_value t = credential) then Some t else m) ts None.

Definition Authenticate (a : Authenticator) (credential : string) : result Identity :=
  match last_match credential (tokens a) with
  | None => Err ErrUnauthenticated
  | Some t => Ok (mkIdentity (tok_subject t) (tok_scopes t))
  end.

Definition bearer_prefix : string := "Bearer ".

Definition BearerToken (header : string) : string :=
  let n := String.length bearer_prefix in
  if (String.length header <? n)%nat || negb (EqualFold_ascii (string_take n header) bearer_prefix)
  then ""
  else TrimSpace (string_drop n header).

(** A request context, as far as authentication looks at it: the identity
    [WithIdentity] attached, or none. *)
Definition FromContext (ctx : option Identity) : option Identity := ctx.

Definition AuthorizeSubject (ctx : option Identity) (owner : string) : option error :=
  match FromContext ctx with
  | None => None
  | Some id =>
      if IsAdmin id then None
      else if negb (bool_decide (owner = "")) && bool_decide (owner = id_Subject id) then None
      else Some ErrForbidden
  end.

Definition SubjectFromContext (ctx : option Identity) : string :=
  match FromContext ctx with
  | None => ""
  | Some id => id_Subject id
  end.

(** ** Well-formed authenticators *)

Definition token_wf (t : token) : Prop :=
  tok_value t <> "" /\ tok_subject t <> "" /\ tok_scopes t <> [].

Definition Authenticator_wf (a : Authenticator) : Prop :=
  tokens a <> [] /\ Forall token_wf (tokens a) /\ NoDup (map tok_value (tokens a)).

Lemma parse_scopes_length i subject raws ss :
  parse_scopes i subject raws = inr ss -> length ss = length raws.
Proof.
  revert ss. induction raws as [|raw raws IH]; simpl; intros ss H; [by simplify_eq|].
  repeat case_match; simplify_eq. simpl. by rewrite (IH _ eq_refl).
Qed.

Lemma resolve_value_nonempty getenv i spec v :
  resolve_value getenv i spec = inr v -> v <> "".
Proof. unfold resolve_value. repeat case_bool_decide; simpl; intros; simplify_eq; done. Qed.

Lemma new_tokens_wf getenv i seen specs ts :
  new_tokens getenv i seen specs = inr ts ->
  map tok_subject ts = map spec_Subject specs /\
  Forall token_wf ts /\ NoDup (map tok_value ts) /\
  Forall (fun v => v ∉ seen) (map tok_value ts).
Proof.
  revert i seen ts. induction specs as [|spec specs IH]; intros i seen ts H.
  { simplify_eq/=. repeat constructor. }
  simpl in H.
  destruct (resolve_value getenv i spec) as [|value] eqn:Hv; [done|].
  destruct (slices_contains seen value) eqn:Hs; [done|].
  case_bool_decide; [done|]. case_bool_decide as Hsc; [done|].
  destruct (parse_scopes _ _ _) as [|scopes] eqn:Hp; [done|].
  destruct (new_tokens _ _ _ specs) as [|ts'] eqn:Ht; [done|]. simplify_eq/=.
  apply IH in Ht as (E & Hwf & Hnd & Hns). apply slices_contains_false in Hs.
  apply resolve_value_nonempty in Hv. apply parse_scopes_length in Hp.
  rewrite E. split_and!; [done| | |].
  - constructor; [|done]. split_and!; [done..|].
    destruct scopes; [|done]. by destruct (spec_Scopes spec).
  - apply NoDup_cons. split; [|done]. intros Hin. rewrite Forall_forall in Hns.
    apply (Hns value); set_solver.
  - constructor; [done|]. eapply Forall_impl; [exact Hns|]. set_solver.
Qed.

Lemma last_match_app c ts t :
  last_match c (ts ++ [t]) = if bool_decide (tok_value t = c) then Some t else last_match c ts.
Proof. unfold last_match. by rewrite fold_left_app. Qed.

Lemma last_match_Some c ts t :
  NoDup (map tok_value ts) -> (last_match c ts = Some t <-> t ∈ ts /\ tok_value t = c).
Proof.
  induction ts as [|u ts IH] using rev_ind; intros Hnd.
  { split; [done|]. intros [?%not_elem_of_nil _]. done. }
  rewrite last_match_app. rewrite map_app in Hnd. simpl in Hnd.
  apply NoDup_app in Hnd as (Hnd & Hdisj & _). specialize (IH Hnd).
  rewrite elem_of_app, list_elem_of_singleton. case_bool_decide as Hu.
  - split; [naive_solver|]. intros [[Hin| ->] Ht]; [|done]. exfalso.
    apply (Hdisj c); [|set_solver]. rewrite <-Ht. apply list_elem_of_In, in_map.
    by apply list_elem_of_In.
  - rewrite IH. naive_solver.
Qed.

Lemma last_match_None c ts :
  last_match c ts = None <-> Forall (fun t => tok_value t <> c) ts.
Proof.
  induction ts as [|u ts IH] using rev_ind; [split; [constructor|done]|].
  rewrite last_match_app, Forall_app, Forall_singleton. case_bool_decide; naive_solver.
Qed.

(** An authenticator [New] builds has one token per configured spec, in
    order, each with a non-empty value, subject and scope list, and no two
    tokens share a value: a token list that resolves to nothing usable is never
    accepted. *)
Theorem New_well_formed getenv specs a :
  New getenv specs = inr a ->
  Authenticator_wf a /\ map tok_subject (tokens a) = map spec_Subject specs.
Proof.
  unfold New, Authenticator_wf. destruct specs as [|spec specs]; [done|].
  destruct (new_tokens getenv 0 [] (spec :: specs)) as [|ts] eqn:E; [done|].
  intros [= <-]. apply new_tokens_wf in E as (Hs & Hwf & Hnd & _).
  simpl. split_and!; try done. by destruct ts.
Qed.

Lemma New_well_formed_witness :
  let getenv v := if bool_decide (v = "T2") then "s2" else "" in
  let specs := [mkTokenSpec "alice" "s1" "" ["read"]; mkTokenSpec "bob" "" "T2" ["admin"; "write"]] in
  exists a, New getenv specs = inr a /\ Authenticator_wf a.
Proof.
  eexists. split; [reflexivity|].
  exact (proj1 (New_well_formed
    (fun v => if bool_decide (v = "T2") then "s2" else "")
    [mkTokenSpec "alice" "s1" "" ["read"]; mkTokenSpec "bob" "" "T2" ["admin"; "write"]] _ eq_refl)).
Defined.

(** A well-formed authenticator resolves a credential to the identity of the
    one token with that value, rejects every other credential, and in particular
    rejects the empty credential a request without an Authorization header has. *)
Theorem Authenticate_exact a :
  Authenticator_wf a ->
  (forall t, t ∈ tokens a ->
     Authenticate a (tok_value t) = Ok (mkIdentity (tok_subject t) (tok_scopes t))) /\
  (forall credential, (forall t, t ∈ tokens a -> tok_value t <> credential) ->
     Authenticate a credential = Err ErrUnauthenticated) /\
  Authenticate a (BearerToken "") = Err ErrUnauthenticated.
Proof.
  intros (_ & Hwf & Hnd). rewrite Forall_forall in Hwf. unfold Authenticate. split_and!.
  - intros t Ht. by rewrite (proj2 (last_match_Some (tok_value t) _ t Hnd)).
  - intros c Hc. by rewrite (proj2 (last_match_None c _) (proj2 (Forall_forall _ _) Hc)).
  - change (BearerToken "") with "". rewrite (proj2 (last_match_None "" _)); [done|].
    apply Forall_forall. intros t Ht. apply Hwf, Ht.
Qed.

Lemma Authenticate_exact_witness :
  let a := mkAuthenticator [mkToken "s1" "alice" [ScopeRead]; mkToken "s2" "bob" [ScopeAdmin]] in
  Authenticate a "s2" = Ok (mkIdentity "bob" [ScopeAdmin]).
Proof.
  apply (proj1 (Authenticate_exact
    (mkAuthenticator [mkToken "s1" "alice" [ScopeRead]; mkToken "s2" "bob" [ScopeAdmin]])
    ltac:(split_and!; [discriminate|repeat constructor; discriminate|by apply (bool_decide_unpack _)]))
    (mkToken "s2" "bob" [ScopeAdmin])).
  right. left.
Defined.

Lemma Has_spec i s :
  Has i s = true <->
  ScopeAdmin ∈ id_Scopes i \/ (s = ScopeRead /\ ScopeWrite ∈ id_Scopes i) \/ s ∈ id_Scopes i.
Proof.
  unfold Has. rewrite <-!slices_contains_spec.
  destruct (slices_contains (id_Scopes i) ScopeAdmin); [tauto|].
  case_bool_decide; destruct (slices_contains (id_Scopes i) ScopeWrite); simpl; naive_solver.
Qed.

Lemma AuthorizeSubject_None ctx owner :
  AuthorizeSubject ctx owner = None <->
  match ctx with
  | None => True
  | Some id => ScopeAdmin ∈ id_Scopes id \/ (owner <> "" /\ owner = id_Subject id)
  end.
Proof.
  unfold AuthorizeSubject, FromContext, IsAdmin. destruct ctx as [id|]; [|done].
  rewrite <-slices_contains_spec. destruct (slices_contains (id_Scopes id) ScopeAdmin); [tauto|].
  repeat case_bool_decide; simpl; naive_solver.
Qed.

(** Scopes imply each other as documented: admin satisfies every scope, write
    satisfies read and nothing else, read satisfies only itself; and a caller
    with an identity may act on a record exactly when it is an admin or the
    record's non-empty owner is its own subject, so a record without an owner is
    admin-only. *)
Theorem scope_policy i s owner :
  (Has i s = true <->
     ScopeAdmin ∈ id_Scopes i \/ (s = ScopeRead /\ ScopeWrite ∈ id_Scopes i) \/ s ∈ id_Scopes i) /\
  (AuthorizeSubject (Some i) owner = None <->
     Has i ScopeAdmin = true \/ (owner <> "" /\ owner = id_Subject i)) /\
  AuthorizeSubject None owner = None.
Proof.
  split_and!; [apply Has_spec| |done].
  rewrite AuthorizeSubject_None, Has_spec. naive_solver.
Qed.

End Authn.
Export Authn.
