(* ===== verification/Lifecycle.v ===== *)
(** * Instance lifecycle

    [internal/lifecycle]: the three states an orchestrator sees and the
    transitions between them. The methods run under one mutex, so each is one
    step of the state. *)

From S2P Require Import Prelude.

Module Lifecycle.

Inductive State := StateServing | StateDraining | StateStoppable.

#[export] Instance State_eq_dec : EqDecision State.
Proof. solve_decision. Defined.

(** The conversion [string(st)]. *)
Definition State_string (st : State) : string :=
  match st with
  | StateServing => "SERVING"
  | StateDraining => "DRAINING"
  | StateStoppable => "STOPPABLE"
  end.

Record Manager := mkManager { state : State }.

Definition NewManager : Manager := mkManager StateServing.

Definition SetState (s : State) (m : Manager) : Manager := mkManager s.

Definition GetState (m : Manager) : State := state m.

Definition IsDraining (m : Manager) : bool :=
  let s := GetState m in
  bool_decide (s = StateDraining) || bool_decide (s = StateStoppable).

Definition Advance (inFlight : Z) (m : Manager) : State * Manager :=
  let m' :=
    match state m with
    | StateDraining => if inFlight =? 0 then mkManager StateStoppable else m
    | StateStoppable => if 0 <? inFlight then mkManager StateDraining else m
    | StateServing => m
    end in
  (state m', m').

(** A sequence of [Advance] calls with the given counts. *)
Definition advance_all (counts : list Z) (m : Manager) : Manager :=
  fold_left (fun m n => (Advance n m).2) counts m.

Lemma Advance_draining n m : IsDraining (Advance n m).2 = IsDraining m.
Proof. unfold Advance. destruct m as [[]]; simpl; repeat case_match; done. Qed.

Lemma Advance_state n m :
  0 <= n -> IsDraining m = true ->
  (Advance n m).1 = if n =? 0 then StateStoppable else StateDraining.
Proof.
  intros Hn. destruct m as [[]]; simpl; [done| |]; intros _;
    destruct (Z.eqb_spec n 0) as [->|]; try done.
  destruct (Z.ltb_spec 0 n); [done|lia].
Qed.

(** Draining is one-way: whatever counts are observed, [Advance] never moves
    an instance into or out of draining, a serving instance keeps serving, and a
    draining instance is reported STOPPABLE exactly when the last count was
    zero. *)
Theorem drain_is_one_way counts m :
  IsDraining (advance_all counts m) = IsDraining m /\
  (state m = StateServing -> advance_all counts m = m) /\
  (forall n, 0 <= n -> IsDraining m = true ->
     ((Advance n (advance_all counts m)).1 = StateStoppable <-> n = 0)).
Proof.
  unfold advance_all. split_and!.
  - revert m. induction counts as [|n counts IH]; intros m; cbn [fold_left]; [done|].
    by rewrite IH, Advance_draining.
  - destruct m as [s]. simpl. intros ->. induction counts; simpl; done.
  - intros n Hn Hm. rewrite Advance_state; [| done |].
    + destruct (Z.eqb_spec n 0); naive_solver.
    + revert m Hm. induction counts as [|k counts IH]; intros m Hm; cbn [fold_left]; [done|].
      apply IH. by rewrite Advance_draining.
Qed.

End Lifecycle.
