(* ===== verification/Config.v ===== *)
(** * Configuration

    [internal/config]: the configuration tree, its validation and defaults, the
    substitution of environment references, the atomically swapped snapshot a
    reload replaces, and the difference between two snapshots. Reading the file
    and the YAML library are arguments of [Reload]; the environment is the
    argument [lookupenv]. *)

From S2P Require Import Prelude Domain.
From Stdlib Require Import Floats.SpecFloat.
Open Scope Z_scope.

Set Warnings "-register-all".

Module Config.

(** ** Data *)

(** A Go slice: [None] is nil, which [reflect.DeepEqual] tells from an empty one. *)
Definition slice (A : Type) : Type := option (list A).
Definition elems {A} (s : slice A) : list A := default [] s.

(** A [float64], with IEEE equality ([NaN] differs from itself, [-0] equals [+0]). *)
Definition float64 : Type := spec_float.
Definition float_eqb (x y : float64) : bool := SFeqb x y.

Record InstanceConfig := mkInstance {
  inst_ID : string;
  MetaStoreKind : string;
  RedisAddr : string;
  RedisPassword : string;
  RedisDB : Z;
  DefaultStorage : string;
  HeartbeatTTL : Z;
  GCInterval : Z;
  OTLPEndpoint : string
}.

Record TLSConfig := mkTLS {
  CertFile : string;
  KeyFile : string;
  AllowH2C : bool
}.

Definition TLS_Enabled (t : TLSConfig) : bool :=
  negb (bool_decide (CertFile t = "")) && negb (bool_decide (KeyFile t = "")).

Record RateLimitConfig := mkRateLimit {
  RequestsPerSecond : float64;
  Burst : Z
}.

Record ServerConfig := mkServer {
  RESTAddr : string;
  GRPCAddr : string;
  MaxRequestBytes : Z;
  RequestTimeout : Z;
  ReadHeaderTimeout : Z;
  IdleTimeout : Z;
  WSAllowedOrigins : slice string;
  TrustedProxyCount : Z;
  AdminAddr : string;
  TLS : TLSConfig;
  RateLimit : RateLimitConfig
}.

Record AuthTokenConfig := mkAuthToken {
  at_Subject : string;
  at_Value : string;
  at_ValueEnv : string;
  at_Scopes : slice string
}.

Record AuthConfig := mkAuth { auth_Tokens : slice AuthTokenConfig }.

Record DefaultsConfig := mkDefaults {
  def_ResultTTL : Z;
  QueryTimeout : Z;
  MaxConcurrentQueries : Z;
  AllowWrites : bool
}.

Record StorageFSConfig := mkFS { fs_Root : string }.

Record StorageS3Config := mkS3 {
  s3_Bucket : string;
  s3_Region : string;
  s3_Endpoint : string;
  s3_KeyID : string;
  s3_Secret : string
}.

Record StorageClickHouseConfig := mkCH { ch_DSN : string; ch_Table : string }.

Record StorageConfig := mkStorage {
  st_FS : StorageFSConfig;
  st_S3 : StorageS3Config;
  st_ClickHouse : StorageClickHouseConfig
}.

Record DatabaseConfig := mkDatabase {
  dbc_ID : string;
  Engine : string;
  DSN : string;
  DisplayName : string;
  MaxConns : Z
}.

Record Config := mkConfig {
  Instance : InstanceConfig;
  Server : ServerConfig;
  Auth : option AuthConfig;
  Defaults : DefaultsConfig;
  Storage : StorageConfig;
  Databases : list DatabaseConfig
}.

#[export] Instance InstanceConfig_eq_dec : EqDecision InstanceConfig.
Proof. solve_decision. Defined.
#[export] Instance TLSConfig_eq_dec : EqDecision TLSConfig.
Proof. solve_decision. Defined.
#[export] Instance AuthTokenConfig_eq_dec : EqDecision AuthTokenConfig.
Proof. solve_decision. Defined.
#[export] Instance AuthConfig_eq_dec : EqDecision AuthConfig.
Proof. solve_decision. Defined.
#[export] Instance StorageFSConfig_eq_dec : EqDecision StorageFSConfig.
Proof. solve_decision. Defined.
#[export] Instance StorageS3Config_eq_dec : EqDecision StorageS3Config.
Proof. solve_decision. Defined.
#[export] Instance StorageClickHouseConfig_eq_dec : EqDecision StorageClickHouseConfig.
Proof. solve_decision. Defined.
#[export] Instance StorageConfig_eq_dec : EqDecision StorageConfig.
Proof. solve_decision. Defined.
#[export] Instance DatabaseConfig_eq_dec : EqDecision DatabaseConfig.
Proof. solve_decision. Defined.

(** ** Validation *)

(** [if x == 0 { x = d }] and [if x == "" { x = d }]. *)
Definition default_Z (d x : Z) : Z := if x =? 0 then d else x.
Definition default_string (d x : string) : string := if bool_decide (x = "") then d else x.

Definition max_gc_interval : Z := 58 * 365 * 24 * Hour.

(** The defaults [validate] fills in, field by field. *)
Definition default_instance (i : InstanceConfig) : InstanceConfig :=
  mkInstance (inst_ID i) (MetaStoreKind i) (RedisAddr i) (RedisPassword i) (RedisDB i)
    (default_string "fs" (DefaultStorage i))
    (default_Z (5 * Second) (HeartbeatTTL i))
    (default_Z Minute (GCInterval i))
    (OTLPEndpoint i).

Definition default_defaults (d : DefaultsConfig) : DefaultsConfig :=
  mkDefaults (default_Z (24 * Hour) (def_ResultTTL d)) (QueryTimeout d)
    (MaxConcurrentQueries d) (AllowWrites d).

Definition default_server (s : ServerConfig) : ServerConfig :=
  mkServer (default_string ":8080" (RESTAddr s)) (default_string ":9090" (GRPCAddr s))
    (default_Z (Z.shiftl 1 20) (MaxRequestBytes s))
    (default_Z (60 * Second) (RequestTimeout s))
    (default_Z (10 * Second) (ReadHeaderTimeout s))
    (default_Z (120 * Second) (IdleTimeout s))
    (WSAllowedOrigins s) (TrustedProxyCount s) (AdminAddr s) (TLS s) (RateLimit s).

Definition with_defaults (cfg : Config) : Config :=
  mkConfig (default_instance (Instance cfg)) (default_server (Server cfg)) (Auth cfg)
    (default_defaults (Defaults cfg)) (Storage cfg) (Databases cfg).

(** The switch on the default storage backend. *)
Definition check_default_storage (backend : string) (st : StorageConfig) : option error :=
  if bool_decide (backend = "fs") then None
  else if bool_decide (backend = "s3") then
    if bool_decide (s3_Bucket (st_S3 st) = "")
    then Some (PlainError "storage.s3.bucket must be set when default_storage is s3") else None
  else if bool_decide (backend = "clickhouse") then
    if bool_decide (ch_DSN (st_ClickHouse st) = "")
    then Some (PlainError "storage.clickhouse.dsn must be set when default_storage is clickhouse")
    else None
  else Some (PlainError ("unsupported instance.default_storage: " +:+ backend)).

Definition supported_engines : list string := ["postgres"; "mysql"; "clickhouse"; "oracle"].

(** The loop over the databases, with the IDs seen so far. *)
Fixpoint check_databases (seen : list string) (dbs : list DatabaseConfig) : option error :=
  match dbs with
  | [] => None
  | db :: dbs =>
      if bool_decide (dbc_ID db = "") then Some (PlainError "database ID cannot be empty")
      else if slices_contains seen (dbc_ID db) then
        Some (PlainError ("duplicate database ID: " +:+ dbc_ID db))
      else if negb (slices_contains supported_engines (Engine db)) then
        Some (PlainError ("unsupported database engine: " +:+ Engine db +:+ " for db " +:+ dbc_ID db))
      else if bool_decide (DSN db = "") then
        Some (PlainError ("dsn must be provided for database " +:+ dbc_ID db))
      else check_databases (dbc_ID db :: seen) dbs
  end.

(** [validate] mutates the configuration it is given; here it returns it. *)
Definition validate (cfg : Config) : result Config :=
  let inst := Instance cfg in
  if bool_decide (inst_ID inst = "") then Err (PlainError "instance.id must not be empty")
  else if negb (bool_decide (MetaStoreKind inst = "redis")) &&
          negb (bool_decide (MetaStoreKind inst = "memory")) then
    Err (PlainError "instance.metastore must be 'redis' or 'memory'")
  else if bool_decide (MetaStoreKind inst = "redis") && bool_decide (RedisAddr inst = "") then
    Err (PlainError "instance.redis_addr must be specified when metastore is redis")
  else
    match check_default_storage (default_string "fs" (DefaultStorage inst)) (Storage cfg) with
    | Some e => Err e
    | None =>
        if max_gc_interval <? default_Z Minute (GCInterval inst) then
          Err (PlainError "instance.gc_interval must not exceed 58 years")
        else if match Auth cfg with
                | Some a => bool_decide (elems (auth_Tokens a) = [])
                | None => false
                end then
          Err (PlainError "auth is configured but auth.tokens is empty")
        else if negb (eqb (bool_decide (CertFile (TLS (Server cfg)) = ""))
                          (bool_decide (KeyFile (TLS (Server cfg)) = ""))) then
          Err (PlainError "server.tls needs both cert_file and key_file")
        else
          match check_databases [] (Databases cfg) with
          | Some e => Err e
          | None => Ok (with_defaults cfg)
          end
    end.

(** ** Environment references *)

(** The nodes of a parsed document. [attrs] is what [expandEnv] neither reads
    nor writes: the kind of a node that is not a scalar, anchors, comments,
    positions. *)
Inductive node (attrs : Type) :=
| ScalarNode (a : attrs) (Value Tag : string) (Style : Z)
| OtherNode (a : attrs) (Content : list (node attrs)).
Arguments ScalarNode {attrs} _ _ _ _.
Arguments OtherNode {attrs} _ _.

Definition is_name_start (c : Ascii.ascii) : bool :=
  let b := Z.of_N (Ascii.N_of_ascii c) in
  ((65 <=? b) && (b <=? 90)) || ((97 <=? b) && (b <=? 122)) || (b =? 95).

Definition is_name_char (c : Ascii.ascii) : bool :=
  let b := Z.of_N (Ascii.N_of_ascii c) in is_name_start c || ((48 <=? b) && (b <=? 57)).

(** The longest run of name characters, and what follows it. *)
Fixpoint take_name (s : string) : string * string :=
  match s with
  | String c rest =>
      if is_name_char c then let '(n, r) := take_name rest in (String c n, r) else ("", s)
  | "" => ("", "")
  end%string.

Definition dollar : Ascii.ascii := Ascii.ascii_of_nat 36.
Definition lbrace : Ascii.ascii := Ascii.ascii_of_nat 123.
Definition rbrace : Ascii.ascii := Ascii.ascii_of_nat 125.

(** A match of [envRef] at the front of the string: the name and the rest. *)
Definition match_ref (s : string) : option (string * string) :=
  match s with
  | String d (String b (String c rest)) =>
      if bool_decide (d = dollar) && bool_decide (b = lbrace) && is_name_start c then
        match take_name (String c rest) with
        | (name, String e rest') => if bool_decide (e = rbrace) then Some (name, rest') else None
        | _ => None
        end
      else None
  | _ => None
  end%string.

(** [ReplaceAllStringFunc] with the callback of [expandEnv]: the expanded text
    and the names that are not set, in order. Substituted text is not scanned
    again. The length of the text bounds the number of matches and characters. *)
Fixpoint expand_scalar (lookupenv : string -> option string) (fuel : nat) (s : string)
  : string * list string :=
  match fuel with
  | 0%nat => (s, [])
  | S fuel =>
      match match_ref s with
      | Some (name, rest) =>
          let '(t, missing) := expand_scalar lookupenv fuel rest in
          match lookupenv name with
          | Some v => (v +:+ t, missing)
          | None => (String dollar (String lbrace (name +:+ String rbrace t)), name :: missing)
          end
      | None =>
          match s with
          | "" => ("", [])
          | String c rest =>
              let '(t, missing) := expand_scalar lookupenv fuel rest in (String c t, missing)
          end
      end
  end%string.

Definition expand_string (lookupenv : string -> option string) (s : string) : string * list string :=
  expand_scalar lookupenv (String.length s) s.

(** The walk over the document. *)
Fixpoint walk {attrs} (lookupenv : string -> option string) (n : node attrs)
  : node attrs * list string :=
  match n with
  | ScalarNode a v tag style =>
      let '(expanded, missing) := expand_string lookupenv v in
      (if bool_decide (expanded = v) then n else ScalarNode a expanded "" 0, missing)
  | OtherNode a content =>
      let children := map (walk lookupenv) content in
      (OtherNode a (map fst children), concat (map snd children))
  end.

Definition expandEnv {attrs} (lookupenv : string -> option string) (n : node attrs)
  : result (node attrs) :=
  let '(n', missing) := walk lookupenv n in
  match missing with
  | [] => Ok n'
  | _ => Err (PlainError ("unset environment variables referenced by the config: " +:+
                            strings_join ", " missing))
  end.

(** ** The hot-reloadable snapshot *)

Record Manager := mkManager { configPath : string; ptr : option Config }.

Definition Get (m : Manager) : option Config := ptr m.

Definition zero_config : Config :=
  mkConfig (mkInstance "" "" "" "" 0 "" 0 0 "")
    (mkServer "" "" 0 0 0 0 None 0 "" (mkTLS "" "" false) (mkRateLimit (S754_zero false) 0))
    None (mkDefaults 0 0 0 false)
    (mkStorage (mkFS "") (mkS3 "" "" "" "" "") (mkCH "" "")) [].

Definition map_err {A} (msg : string) (r : result A) : result A :=
  match r with
  | Ok a => Ok a
  | Err e => Err (WrapError msg e)
  end.

Section Reload.
Context {attrs : Type}
        (lookupenv : string -> option string)
        (ReadFile : string -> result string)
        (yaml_Unmarshal : string -> result (option (node attrs)))
        (yaml_Decode : node attrs -> result Config).

Open Scope dbb_scope.

(** What [Reload] computes before the swap. A document of kind zero is [None]. *)
Definition load (path : string) : result Config :=
  try data := map_err "failed to read config file" (ReadFile path) in
  try doc := map_err "failed to unmarshal yaml" (yaml_Unmarshal data) in
  try cfg := match doc with
             | None => Ok zero_config
             | Some n =>
                 try n' := map_err "failed to expand config" (expandEnv lookupenv n) in
                 map_err "failed to unmarshal yaml" (yaml_Decode n')
             end in
  map_err "config validation failed" (validate cfg).

Definition Reload (m : Manager) : option error * Manager :=
  match load (configPath m) with
  | Err e => (Some e, m)
  | Ok cfg => (None, mkManager (configPath m) (Some cfg))
  end.

Definition NewManager (path : string) : result Manager :=
  match Reload (mkManager path None) with
  | (Some e, _) => Err (WrapError "initial config load failed" e)
  | (None, m) => Ok m
  end.

End Reload.

(** ** Differences between snapshots *)

(** [reflect.DeepEqual] on the server section. *)
Definition server_deep_equal (o n : ServerConfig) : bool :=
  bool_decide (RESTAddr o = RESTAddr n) && bool_decide (GRPCAddr o = GRPCAddr n) &&
  (MaxRequestBytes o =? MaxRequestBytes n) && (RequestTimeout o =? RequestTimeout n) &&
  (ReadHeaderTimeout o =? ReadHeaderTimeout n) && (IdleTimeout o =? IdleTimeout n) &&
  bool_decide (WSAllowedOrigins o = WSAllowedOrigins n) &&
  (TrustedProxyCount o =? TrustedProxyCount n) && bool_decide (AdminAddr o = AdminAddr n) &&
  bool_decide (TLS o = TLS n) &&
  float_eqb (RequestsPerSecond (RateLimit o)) (RequestsPerSecond (RateLimit n)) &&
  (Burst (RateLimit o) =? Burst (RateLimit n)).

Definition NonReloadableChanges (oldCfg newCfg : option Config) : list string :=
  match oldCfg, newCfg with
  | Some o, Some n =>
      (if bool_decide (Instance o = Instance n) then [] else ["instance"]) ++
      (if server_deep_equal (Server o) (Server n) then [] else ["server"]) ++
      (if bool_decide (Storage o = Storage n) then [] else ["storage"]) ++
      (if bool_decide (Auth o = Auth n) then [] else ["auth"]) ++
      (if MaxConcurrentQueries (Defaults o) =? MaxConcurrentQueries (Defaults n)
       then [] else ["defaults.max_concurrent_queries"])
  | _, _ => []
  end.

Record DatabaseDiff := mkDiff {
  diff_Added : list DatabaseConfig;
  diff_Removed : list DatabaseConfig;
  diff_Updated : list DatabaseConfig
}.

(** [m[db.ID] = db] for every database in order. *)
Definition db_map (dbs : list DatabaseConfig) : gmap string DatabaseConfig :=
  fold_left (fun m db => <[dbc_ID db := db]> m) dbs ∅.

(** Whether a pool opened for one entry has to be replaced for the other. *)
Definition pool_changed (o n : DatabaseConfig) : bool :=
  negb (bool_decide (Engine o = Engine n)) || negb (bool_decide (DSN o = DSN n)) ||
  negb (MaxConns o =? MaxConns n).

(** The order of a Go map range is unspecified; the lists here are in the order
    of the model's map. *)
Definition DiffDatabases (oldCfg newCfg : option Config) : DatabaseDiff :=
  match oldCfg, newCfg with
  | None, None => mkDiff [] [] []
  | None, Some n => mkDiff (Databases n) [] []
  | Some o, None => mkDiff [] (Databases o) []
  | Some o, Some n =>
      let oldMap := db_map (Databases o) in
      let newMap := db_map (Databases n) in
      mkDiff
        (List.filter (fun db => match oldMap !! dbc_ID db with Some _ => false | None => true end)
           (map_to_list newMap).*2)
        (List.filter (fun db => match newMap !! dbc_ID db with Some _ => false | None => true end)
           (map_to_list oldMap).*2)
        (List.filter (fun db => match oldMap !! dbc_ID db with
                                | Some o => pool_changed o db
                                | None => false
                                end)
           (map_to_list newMap).*2)
  end.

(** ** Validation: what an accepted configuration satisfies *)

Definition database_ok (db : DatabaseConfig) : Prop :=
  dbc_ID db <> "" /\ Engine db ∈ supported_engines /\ DSN db <> "".

Definition storage_buildable (backend : string) (st : StorageConfig) : Prop :=
  backend = "fs" \/
  (backend = "s3" /\ s3_Bucket (st_S3 st) <> "") \/
  (backend = "clickhouse" /\ ch_DSN (st_ClickHouse st) <> "").

(** What [validate] demands of its input. *)
Definition acceptable (cfg : Config) : Prop :=
  inst_ID (Instance cfg) <> "" /\
  (MetaStoreKind (Instance cfg) = "memory" \/
   (MetaStoreKind (Instance cfg) = "redis" /\ RedisAddr (Instance cfg) <> "")) /\
  storage_buildable (default_string "fs" (DefaultStorage (Instance cfg))) (Storage cfg) /\
  GCInterval (Instance cfg) <= max_gc_interval /\
  (forall a, Auth cfg = Some a -> elems (auth_Tokens a) <> []) /\
  (CertFile (TLS (Server cfg)) = "" <-> KeyFile (TLS (Server cfg)) = "") /\
  NoDup (map dbc_ID (Databases cfg)) /\
  Forall database_ok (Databases cfg).

(** The defaults are in place. *)
Definition defaulted (cfg : Config) : Prop :=
  DefaultStorage (Instance cfg) <> "" /\ HeartbeatTTL (Instance cfg) <> 0 /\
  GCInterval (Instance cfg) <> 0 /\ def_ResultTTL (Defaults cfg) <> 0 /\
  RESTAddr (Server cfg) <> "" /\ GRPCAddr (Server cfg) <> "" /\
  MaxRequestBytes (Server cfg) <> 0 /\ RequestTimeout (Server cfg) <> 0 /\
  ReadHeaderTimeout (Server cfg) <> 0 /\ IdleTimeout (Server cfg) <> 0.

Definition well_formed (cfg : Config) : Prop := acceptable cfg /\ defaulted cfg.

Lemma default_Z_nonzero d x : d <> 0 -> default_Z d x <> 0.
Proof. unfold default_Z. intros. destruct (Z.eqb_spec x 0); lia. Qed.

Lemma default_Z_idem d x : x <> 0 -> default_Z d x = x.
Proof. unfold default_Z. intros. destruct (Z.eqb_spec x 0); lia. Qed.

Lemma default_string_nonempty d x : d <> "" -> default_string d x <> "".
Proof. unfold default_string. intros. by case_bool_decide. Qed.

Lemma default_string_idem d x : x <> "" -> default_string d x = x.
Proof. unfold default_string. intros. by case_bool_decide. Qed.

Lemma with_defaults_defaulted cfg : defaulted (with_defaults cfg).
Proof.
  repeat split; cbn [with_defaults default_instance default_server default_defaults
    Instance Server Defaults DefaultStorage HeartbeatTTL GCInterval def_ResultTTL RESTAddr
    GRPCAddr MaxRequestBytes RequestTimeout ReadHeaderTimeout IdleTimeout];
    (apply default_Z_nonzero || apply default_string_nonempty); done.
Qed.

Lemma with_defaults_idem cfg : defaulted cfg -> with_defaults cfg = cfg.
Proof.
  intros (?&?&?&?&?&?&?&?&?&?). destruct cfg as [[] [] ? [] ? ?]. simpl in *.
  unfold with_defaults, default_instance, default_server, default_defaults. simpl.
  by rewrite !default_string_idem, !default_Z_idem.
Qed.

Lemma with_defaults_acceptable cfg : acceptable cfg -> acceptable (with_defaults cfg).
Proof.
  unfold acceptable; simpl. intros (?&?&?&Hgc&?&?&?&?). split_and!; try done.
  - rewrite (default_string_idem _ (default_string _ _)); [done|].
    by apply default_string_nonempty.
  - unfold default_Z. case_match; [|done]. unfold max_gc_interval, Minute, Hour. lia.
Qed.

Lemma check_default_storage_None backend st :
  check_default_storage backend st = None <-> storage_buildable backend st.
Proof.
  unfold check_default_storage, storage_buildable.
  repeat case_bool_decide; subst; naive_solver.
Qed.

Lemma check_databases_None seen dbs :
  check_databases seen dbs = None <->
  NoDup (map dbc_ID dbs) /\ Forall database_ok dbs /\ (forall db, db ∈ dbs -> dbc_ID db ∉ seen).
Proof.
  revert seen. induction dbs as [|db dbs IH]; intros seen; cbn [check_databases map].
  { split; [|done]. intros _. split_and!; [constructor|constructor|]. by intros ? ?%elem_of_nil. }
  rewrite NoDup_cons, Forall_cons. unfold database_ok at 1.
  case_bool_decide as Hid; [naive_solver|].
  destruct (slices_contains seen (dbc_ID db)) eqn:Hs.
  { apply slices_contains_spec in Hs. split; [done|]. intros (_&_&Hn).
    destruct (Hn db); [apply list_elem_of_here|done]. }
  apply slices_contains_false in Hs.
  destruct (slices_contains supported_engines (Engine db)) eqn:He; simpl.
  2: { apply slices_contains_false in He. naive_solver. }
  apply slices_contains_spec in He.
  case_bool_decide as Hd; [naive_solver|]. rewrite IH. split.
  - intros (Hnd & Hok & Hseen). split_and!; try done.
    + intros (d & Heq & Hin)%list_elem_of_fmap. apply (Hseen d Hin).
      rewrite <- Heq. apply list_elem_of_here.
    + intros d [->|Hin]%elem_of_cons; [done|]. intros ?. apply (Hseen d Hin). by right.
  - intros ((Hni & Hnd) & (_ & Hok) & Hseen). split_and!; try done.
    intros d Hin [Heq|Hd']%elem_of_cons.
    + apply Hni. rewrite <- Heq. by apply list_elem_of_fmap_2.
    + apply (Hseen d); [by right|done].
Qed.

Lemma metastore_check inst :
  (negb (bool_decide (MetaStoreKind inst = "redis")) &&
   negb (bool_decide (MetaStoreKind inst = "memory")))%bool = false /\
  (bool_decide (MetaStoreKind inst = "redis") && bool_decide (RedisAddr inst = ""))%bool = false <->
  MetaStoreKind inst = "memory" \/ (MetaStoreKind inst = "redis" /\ RedisAddr inst <> "").
Proof. repeat case_bool_decide; simpl; intuition congruence. Qed.

Lemma default_gc_le x : (max_gc_interval <? default_Z Minute x) = false <-> x <= max_gc_interval.
Proof.
  rewrite Z.ltb_ge. unfold default_Z. destruct (Z.eqb_spec x 0); [|done].
  subst. unfold max_gc_interval, Minute, Hour. lia.
Qed.

Lemma auth_check (auth : option AuthConfig) :
  match auth with Some a => bool_decide (elems (auth_Tokens a) = []) | None => false end = false <->
  (forall a, auth = Some a -> elems (auth_Tokens a) <> []).
Proof.
  destruct auth as [a|]; [|naive_solver]. rewrite bool_decide_eq_false. naive_solver.
Qed.

Lemma tls_check (t : TLSConfig) :
  negb (eqb (bool_decide (CertFile t = "")) (bool_decide (KeyFile t = ""))) = false <->
  (CertFile t = "" <-> KeyFile t = "").
Proof. repeat case_bool_decide; simpl; intuition congruence. Qed.

(** The checks of [validate] are exactly [acceptable]. *)
Lemma validate_Ok cfg cfg' :
  validate cfg = Ok cfg' <-> acceptable cfg /\ cfg' = with_defaults cfg.
Proof.
  unfold validate, acceptable.
  rewrite <- metastore_check, !guard_Ok, !check_Ok, !guard_Ok, !check_Ok,
    check_default_storage_None, check_databases_None, bool_decide_eq_false, default_gc_le,
    auth_check, tls_check.
  split.
  - intros (?&?&?&?&?&?&?&(?&?&_)&[= <-]). by split_and!.
  - intros [(?&[??]&?&?&?&?&?&?) ->]. split_and!; try done.
    intros. apply not_elem_of_nil.
Qed.

Lemma validate_well_formed cfg cfg' : validate cfg = Ok cfg' -> well_formed cfg'.
Proof.
  intros [Ha ->]%validate_Ok. split.
  - by apply with_defaults_acceptable.
  - apply with_defaults_defaulted.
Qed.

(** [validate] accepts a configuration exactly when it names the instance,
    a usable metastore, a default storage backend that can be built, a garbage
    collection interval whose lock arithmetic cannot overflow, no empty token
    list, a complete certificate pair or none, and databases with distinct
    non-empty IDs, a supported engine and a DSN. What it returns satisfies the
    same conditions with every default filled in, and validating it again
    changes nothing. *)
Theorem validate_exact cfg :
  ((exists cfg', validate cfg = Ok cfg') <-> acceptable cfg) /\
  (forall cfg', validate cfg = Ok cfg' -> well_formed cfg' /\ validate cfg' = Ok cfg').
Proof.
  split.
  - setoid_rewrite validate_Ok. naive_solver.
  - intros cfg' Hv. destruct (validate_well_formed _ _ Hv) as [Ha Hd]. split; [done|].
    apply validate_Ok. by rewrite (with_defaults_idem _ Hd).
Qed.

(** ** The published snapshot *)

(** What a process has after a load and a sequence of reloads, each with the
    environment, the file and the document library's answers of its moment. *)
Inductive reachable {attrs} : Manager -> Prop :=
| reach_new lookupenv ReadFile (unm : string -> result (option (node attrs))) dec path m :
    NewManager lookupenv ReadFile unm dec path = Ok m -> reachable m
| reach_reload lookupenv ReadFile (unm : string -> result (option (node attrs))) dec m :
    reachable m -> reachable (Reload lookupenv ReadFile unm dec m).2.

Lemma map_err_Ok {A} msg (r : result A) a : map_err msg r = Ok a <-> r = Ok a.
Proof. destruct r; naive_solver. Qed.

Lemma load_well_formed {attrs} lookupenv ReadFile (unm : string -> result (option (node attrs))) dec
    path cfg :
  load lookupenv ReadFile unm dec path = Ok cfg -> well_formed cfg.
Proof.
  unfold load. intros (?&_&(?&_&(?&_&Hv)%result_bind_Ok)%result_bind_Ok)%result_bind_Ok.
  by apply map_err_Ok, validate_well_formed in Hv.
Qed.

(** Whatever sequence of reloads a process goes through, successful or
    failed, the snapshot it serves from is always present and well formed: a
    reload that fails at any stage leaves the previous one in place. *)
Theorem snapshot_always_valid {attrs} (m : Manager) :
  reachable (attrs := attrs) m -> exists cfg, Get m = Some cfg /\ well_formed cfg.
Proof.
  induction 1 as [le rf unm dec path m Hnew|le rf unm dec m _ IH].
  - unfold NewManager, Reload in Hnew. simpl in Hnew.
    destruct (load le rf unm dec path) as [cfg|e] eqn:Hl; simplify_eq/=.
    exists cfg. split; [done|]. by eapply load_well_formed.
  - unfold Reload. destruct (load _ _ _ _ _) as [cfg|e] eqn:Hl; simpl; [|done].
    exists cfg. split; [done|]. by eapply load_well_formed.
Qed.

Definition sample_config : Config :=
  mkConfig (mkInstance "dbb-1" "memory" "" "" 0 "" 0 0 "")
    (mkServer "" "" 0 0 0 0 None 0 "" (mkTLS "" "" false) (mkRateLimit (S754_zero false) 0))
    None (mkDefaults 0 0 0 false)
    (mkStorage (mkFS "/tmp") (mkS3 "" "" "" "" "") (mkCH "" ""))
    [mkDatabase "pg" "postgres" "postgres://db" "" 4].

Lemma snapshot_always_valid_witness :
  exists cfg, Get (mkManager "c.yaml" (Some (with_defaults sample_config))) = Some cfg /\
              well_formed cfg.
Proof.
  apply (snapshot_always_valid (attrs := unit)).
  apply (reach_new (fun _ => None) (fun _ => Ok "") (fun _ => Ok (Some (OtherNode () [])))
           (fun _ => Ok sample_config) "c.yaml").
  vm_compute. reflexivity.
Defined.

(** ** Differences *)

Definition unique_ids (dbs : list DatabaseConfig) : Prop := NoDup (map dbc_ID dbs).

Lemma db_map_fold dbs (m : gmap string DatabaseConfig) id db :
  unique_ids dbs ->
  fold_left (fun m db => <[dbc_ID db := db]> m) dbs m !! id = Some db <->
  (db ∈ dbs /\ dbc_ID db = id) \/ (m !! id = Some db /\ id ∉ map dbc_ID dbs).
Proof.
  unfold unique_ids. revert m. induction dbs as [|d dbs IH]; intros m; simpl.
  { intros _. split.
    - right. split; [done|]. apply not_elem_of_nil.
    - by intros [[?%elem_of_nil _]|[? _]]. }
  rewrite NoDup_cons. intros [Hni Hnd]. rewrite (IH _ Hnd), elem_of_cons, not_elem_of_cons.
  destruct (decide (dbc_ID d = id)) as [<-|Hne].
  - rewrite lookup_insert_eq. split.
    + intros [[? ?]|[[= ->] ?]]; left; auto.
    + intros [[[->|?] Heq]|[_ [? _]]]; [right; auto|left; auto|done].
  - rewrite lookup_insert_ne by done. split.
    + intros [[? ?]|[? ?]]; [left; auto|right; auto].
    + intros [[[->|?] Heq]|[? [_ ?]]]; [done|left; auto|right; auto].
Qed.

Lemma lookup_db_map dbs id db :
  unique_ids dbs -> db_map dbs !! id = Some db <-> db ∈ dbs /\ dbc_ID db = id.
Proof. intros Hu. unfold db_map. rewrite (db_map_fold _ _ _ _ Hu), lookup_empty. naive_solver. Qed.

Lemma db_map_None dbs id :
  unique_ids dbs -> db_map dbs !! id = None <-> id ∉ map dbc_ID dbs.
Proof.
  intros Hu. rewrite eq_None_not_Some. apply not_iff_compat. split.
  - intros [db [Hin <-]%(lookup_db_map _ _ _ Hu)]. by apply list_elem_of_fmap_2.
  - intros (db & -> & Hin)%list_elem_of_fmap. exists db. by apply lookup_db_map.
Qed.

(** The values of the map are the databases. *)
Lemma elem_of_db_map dbs db : unique_ids dbs -> db ∈ (map_to_list (db_map dbs)).*2 <-> db ∈ dbs.
Proof.
  intros Hu. rewrite list_elem_of_fmap. split.
  - intros ([id d] & -> & Hin%elem_of_map_to_list). by apply (lookup_db_map _ _ _ Hu) in Hin as [??].
  - intros Hin. exists (dbc_ID db, db). split; [done|].
    apply elem_of_map_to_list. by apply lookup_db_map.
Qed.

Lemma elem_of_filter_bool {A} (f : A -> bool) (l : list A) x :
  x ∈ List.filter f l <-> f x = true /\ x ∈ l.
Proof. rewrite !list_elem_of_In, filter_In. naive_solver. Qed.

Lemma pool_changed_spec o n :
  pool_changed o n = true <->
  Engine o <> Engine n \/ DSN o <> DSN n \/ MaxConns o <> MaxConns n.
Proof.
  unfold pool_changed.
  rewrite !orb_true_iff, !negb_true_iff, !bool_decide_eq_false, Z.eqb_neq. tauto.
Qed.

(** Between two snapshots with distinct database IDs, a database is reported
    as added exactly when its ID is new, removed exactly when its ID is gone,
    and updated exactly when an entry of the same ID has another engine, DSN or
    connection limit; a change of the display name alone is not a difference. *)
Theorem DiffDatabases_exact (o n : Config) (db : DatabaseConfig) :
  unique_ids (Databases o) -> unique_ids (Databases n) ->
  let d := DiffDatabases (Some o) (Some n) in
  (db ∈ diff_Added d <-> db ∈ Databases n /\ dbc_ID db ∉ map dbc_ID (Databases o)) /\
  (db ∈ diff_Removed d <-> db ∈ Databases o /\ dbc_ID db ∉ map dbc_ID (Databases n)) /\
  (db ∈ diff_Updated d <->
     db ∈ Databases n /\
     exists od, od ∈ Databases o /\ dbc_ID od = dbc_ID db /\
       (Engine od <> Engine db \/ DSN od <> DSN db \/ MaxConns od <> MaxConns db)).
Proof.
  intros Ho Hn d. subst d. cbn [DiffDatabases diff_Added diff_Removed diff_Updated].
  rewrite !elem_of_filter_bool, !elem_of_db_map by done. split_and!.
  - rewrite <- (db_map_None _ _ Ho). destruct (db_map (Databases o) !! _); naive_solver.
  - rewrite <- (db_map_None _ _ Hn). destruct (db_map (Databases n) !! _); naive_solver.
  - setoid_rewrite <- (pool_changed_spec _ db).
    destruct (db_map (Databases o) !! _) as [od|] eqn:Hod.
    + apply (lookup_db_map _ _ _ Ho) in Hod as Hod'. split.
      * intros [? ?]. split; [done|]. exists od. naive_solver.
      * intros (? & od' & Hin & Hid & ?). split; [|done].
        assert (od' = od) as ->; [|done].
        assert (db_map (Databases o) !! dbc_ID db = Some od') by by apply lookup_db_map.
        congruence.
    + split; [naive_solver|]. intros (_ & od & Hin & Hid & _).
      apply (db_map_None _ _ Ho) in Hod. destruct Hod. rewrite <- Hid.
      by apply list_elem_of_fmap_2.
Qed.

Lemma DiffDatabases_exact_witness :
  mkDatabase "pg" "postgres" "postgres://new" "" 4 ∈
    diff_Updated (DiffDatabases (Some sample_config)
      (Some (mkConfig (Instance sample_config) (Server sample_config) None (Defaults sample_config)
               (Storage sample_config) [mkDatabase "pg" "postgres" "postgres://new" "" 4]))).
Proof.
  apply DiffDatabases_exact; [by apply (bool_decide_unpack _)..|].
  split; [by apply (bool_decide_unpack _)|].
  exists (mkDatabase "pg" "postgres" "postgres://db" "" 4).
  split; [by apply (bool_decide_unpack _)|]. split; [done|]. right; left. discriminate.
Defined.

(** ** Environment references: what is substituted *)

(** Scalar text in pieces: a character other than a dollar sign, a dollar sign
    that opens no reference with the character after it, or a reference. *)
Inductive segment :=
| Lit (c : Ascii.ascii)
| Bare (c : Ascii.ascii)
| Ref (name : string).

Fixpoint all_name_chars (s : string) : bool :=
  match s with
  | "" => true
  | String c s => is_name_char c && all_name_chars s
  end%string.

Definition valid_name (s : string) : bool :=
  match s with
  | "" => false
  | String c _ => is_name_start c && all_name_chars s
  end%string.

Definition segment_ok (g : segment) : Prop :=
  match g with
  | Lit c => c <> dollar
  | Bare c => c <> lbrace /\ c <> dollar
  | Ref name => valid_name name = true
  end.

Definition ref_text (name rest : string) : string :=
  String dollar (String lbrace (name +:+ String rbrace rest)).

Fixpoint render (gs : list segment) : string :=
  match gs with
  | [] => ""
  | Lit c :: gs => String c (render gs)
  | Bare c :: gs => String dollar (String c (render gs))
  | Ref name :: gs => ref_text name (render gs)
  end%string.

(** The same text with the values of the variables in place of the references. *)
Fixpoint substitute (lookupenv : string -> option string) (gs : list segment) : string :=
  match gs with
  | [] => ""
  | Lit c :: gs => String c (substitute lookupenv gs)
  | Bare c :: gs => String dollar (String c (substitute lookupenv gs))
  | Ref name :: gs =>
      match lookupenv name with
      | Some v => v +:+ substitute lookupenv gs
      | None => ref_text name (substitute lookupenv gs)
      end
  end%string.

Definition unset_names (lookupenv : string -> option string) (gs : list segment) : list string :=
  omap (fun g => match g with
                 | Ref name => match lookupenv name with Some _ => None | None => Some name end
                 | _ => None
                 end) gs.

Lemma take_name_app name rest :
  all_name_chars name = true -> take_name (name +:+ String rbrace rest) = (name, String rbrace rest).
Proof.
  induction name as [|c name IH]; [done|]. cbn [all_name_chars].
  intros [Hc Hn]%andb_true_iff. rewrite string_append_cons. cbn [take_name]. by rewrite Hc, IH.
Qed.

Lemma match_ref_ref name rest :
  valid_name name = true -> match_ref (ref_text name rest) = Some (name, rest).
Proof.
  destruct name as [|c name]; [done|]. intros [Hs Hn]%andb_true_iff.
  unfold ref_text. rewrite string_append_cons. cbn [match_ref].
  rewrite Hs, <- string_append_cons, take_name_app by done. by rewrite !bool_decide_true.
Qed.

Lemma match_ref_lit c s : c <> dollar -> match_ref (String c s) = None.
Proof.
  intros Hc. destruct s as [|b [|e s]]; try done. cbn [match_ref]. by rewrite bool_decide_false.
Qed.

Lemma match_ref_bare c s : c <> lbrace -> match_ref (String dollar (String c s)) = None.
Proof.
  intros Hc. destruct s as [|e s]; [done|]. cbn [match_ref].
  by rewrite (bool_decide_false (c = _)), andb_false_r.
Qed.

Lemma expand_scalar_render lookupenv gs fuel :
  Forall segment_ok gs -> (String.length (render gs) <= fuel)%nat ->
  expand_scalar lookupenv fuel (render gs) = (substitute lookupenv gs, unset_names lookupenv gs).
Proof.
  intros Hok. revert fuel. induction Hok as [|[c|c|name] gs Hg _ IH]; intros fuel Hf.
  - by destruct fuel.
  - destruct fuel as [|fuel]; simpl in Hf; [lia|].
    cbn [render expand_scalar]. rewrite match_ref_lit, IH by (done || lia). done.
  - destruct Hg as [Hb Hd]. destruct fuel as [|[|fuel]]; simpl in Hf; [lia..|].
    cbn [render expand_scalar]. rewrite match_ref_bare, match_ref_lit, IH by (done || lia). done.
  - destruct fuel as [|fuel]; simpl in Hf; [lia|].
    cbn [render expand_scalar]. rewrite match_ref_ref by done.
    rewrite string_length_append in Hf. simpl in Hf. rewrite IH by lia.
    simpl. unfold unset_names. simpl. by destruct (lookupenv name).
Qed.

(** Expanding a scalar replaces every [${NAME}] reference by the variable's
    value, byte for byte and without scanning the value again, and leaves all
    other text, a bare dollar sign included, as it is. A reference to an unset
    variable is an error that names every such variable in order. A scalar that
    changes loses its tag and style so that its type is resolved anew. *)
Theorem expandEnv_scalar {attrs} lookupenv (a : attrs) gs tag style :
  Forall segment_ok gs ->
  expandEnv lookupenv (ScalarNode a (render gs) tag style) =
    match unset_names lookupenv gs with
    | [] =>
        Ok (if bool_decide (substitute lookupenv gs = render gs)
            then ScalarNode a (render gs) tag style
            else ScalarNode a (substitute lookupenv gs) "" 0)
    | missing =>
        Err (PlainError ("unset environment variables referenced by the config: " +:+
                           strings_join ", " missing))
    end.
Proof.
  intros Hok. unfold expandEnv. cbn [walk]. unfold expand_string.
  rewrite expand_scalar_render by done. by destruct (unset_names lookupenv gs).
Qed.

Definition sample_env (name : string) : option string :=
  if bool_decide (name = "POD") then Some "${POD}-7" else None.

Lemma expandEnv_scalar_witness :
  expandEnv sample_env (ScalarNode () "a$b-${POD}" "!!str" 4) = Ok (ScalarNode () "a$b-${POD}-7" "" 0).
Proof.
  apply (expandEnv_scalar sample_env () [Lit (Ascii.ascii_of_nat 97); Bare (Ascii.ascii_of_nat 98);
    Lit (Ascii.ascii_of_nat 45); Ref "POD"] "!!str" 4).
  repeat constructor; discriminate.
Defined.

End Config.
