(* ===== verification/MetaStore.v ===== *)
(** * The metadata store

    [internal/state]: the operations of the [MetaStore] interface
    ([metastore.go]), what the rest of the system relies on as a class of laws
    over observers of the store, and the in-memory implementation ([memory.go])
    with the proof that it satisfies the laws.

    An operation runs in one critical section of the store, so it is one atomic
    step. [time.Now] is read inside it, at most twice: [now] is the first reading
    and [now'] the second. *)

From S2P Require Import Prelude Domain.

Set Warnings "-register-all".

(** ** Control messages *)

Inductive ControlType :=
| ControlStopQuery
| ControlQueryEvent
| ControlOther (s : string).

Record QueryEventPayload := mkPayload {
  pl_State : string;
  pl_Stats : QueryStats;
  pl_Error : option QueryError
}.

Record ControlMsg := mkControlMsg {
  msg_Type : ControlType;
  msg_QueryID : string;
  msg_SenderID : string;
  msg_Event : option QueryEventPayload
}.

(** ** The interface *)

Inductive meta_op :=
| OpPutQuery (record : QueryRecord)
| OpGetQuery (id : string)
| OpUpdateQuery (record : QueryRecord)
| OpUpdateQueryIfState (record : QueryRecord) (expected : list QueryState)
| OpAcquireIdempotency (dbID key queryID : string) (ttl : Z)
| OpReleaseIdempotency (dbID key queryID : string)
| OpRefreshIdempotency (dbID key queryID : string) (ttl : Z)
| OpHeartbeat (instanceID : string) (ownedQueryIDs : list string) (ttl : Z)
| OpTryLock (name : string) (ttl : Z)
| OpPublishControl (msg : ControlMsg)
| OpCountInFlight (instanceID : string)
| OpListByInstance (instanceID : string)
| OpListDatabasesSeen
| OpListExpiredQueries
| OpListStaleQueries
| OpDeleteQuery (id : string).

(** What each operation returns; an [error] result is [None] on success. *)
Definition meta_answer (op : meta_op) : Type :=
  match op with
  | OpPutQuery _ | OpUpdateQuery _ | OpReleaseIdempotency _ _ _ | OpRefreshIdempotency _ _ _ _
  | OpHeartbeat _ _ _ | OpPublishControl _ | OpDeleteQuery _ => option error
  | OpGetQuery _ => result QueryRecord
  | OpUpdateQueryIfState _ _ | OpTryLock _ _ => result bool
  | OpAcquireIdempotency _ _ _ _ => result (string * bool)
  | OpCountInFlight _ => result Z
  | OpListByInstance _ | OpListDatabasesSeen | OpListExpiredQueries | OpListStaleQueries =>
      result (list string)
  end.

(** The key a store files an idempotency claim under. *)
Definition fullKey (dbID key : string) : string := dbID +:+ ":" +:+ key.

(** The record an operation may write, and the claim it may change. *)
Definition op_record (op : meta_op) : option string :=
  match op with
  | OpPutQuery r | OpUpdateQuery r | OpUpdateQueryIfState r _ => Some (ID r)
  | OpDeleteQuery id => Some id
  | _ => None
  end.

Definition op_key (op : meta_op) : option string :=
  match op with
  | OpAcquireIdempotency dbID key _ _ | OpReleaseIdempotency dbID key _
  | OpRefreshIdempotency dbID key _ _ => Some (fullKey dbID key)
  | _ => None
  end.

(** A stored record: the lease deadline is not part of it. *)
Definition stored (r : QueryRecord) : QueryRecord := set_LeaseDeadline zero_time r.

(** Retention of a finished query; zero falls back to a day. *)
Definition retention (r : QueryRecord) : Z :=
  if ResultTTL (rec_Options r) =? 0 then 24 * Hour else ResultTTL (rec_Options r).

Definition expired_at (now : time) (r : QueryRecord) : bool :=
  IsTerminal (rec_State r) && negb (IsZero (FinishedAt r)) &&
  time_after now (time_add (FinishedAt r) (retention r)).

Definition in_flight (r : QueryRecord) : bool :=
  state_eqb (rec_State r) StatePending || state_eqb (rec_State r) StateRunning.

(** The two outcomes of a write to a record: it is reported, or an error is and
    the write may or may not have taken place. *)
Definition wrote (before after : option QueryRecord) (r : QueryRecord) (ok : bool) : Prop :=
  if ok then after = Some (stored r) else after = before \/ after = Some (stored r).

(** A claim for [q] that ends at [deadline]. *)
Definition claim_until (q : string) (deadline t : time) : option string :=
  if t <? deadline then Some q else None.

(** What the users of a store rely on. [lookup_rec] is the stored record,
    [holder] the query that holds a claim at a moment, [lease_of] the deadline of
    a lease. Any operation may fail; the laws say what an answer means. *)
Class MetaStore (S : Type) := {
  meta_exec : time -> time -> forall op, S -> meta_answer op * S;
  meta_inv : S -> Prop;
  lookup_rec : S -> string -> option QueryRecord;
  holder : S -> string -> time -> option string;
  lease_of : S -> string -> option time;

  meta_inv_step now now' op s : meta_inv s -> meta_inv (meta_exec now now' op s).2;
  meta_lookup_ID s id r : meta_inv s -> lookup_rec s id = Some r -> ID r = id;

  meta_frame_record now now' op s id :
    op_record op <> Some id -> lookup_rec (meta_exec now now' op s).2 id = lookup_rec s id;
  meta_frame_key now now' op s k t :
    op_key op <> Some k -> holder (meta_exec now now' op s).2 k t = holder s k t;

  meta_put now now' r s :
    let out := meta_exec now now' (OpPutQuery r) s in
    wrote (lookup_rec s (ID r)) (lookup_rec out.2 (ID r)) r
      (match out.1 with None => true | Some _ => false end);
  meta_get now now' id s :
    match (meta_exec now now' (OpGetQuery id) s).1 with
    | Ok r => exists r0 d, lookup_rec s id = Some r0 /\ r = set_LeaseDeadline d r0
    | Err e => is_ErrNotFound e = true -> lookup_rec s id = None
    end;
  meta_update now now' r s :
    let out := meta_exec now now' (OpUpdateQuery r) s in
    match lookup_rec s (ID r) with
    | Some cur =>
        wrote (Some cur) (lookup_rec out.2 (ID r)) r
          (match out.1 with None => true | Some _ => false end)
    | None => out.1 <> None /\ lookup_rec out.2 (ID r) = None
    end;
  meta_update_if now now' r expected s :
    let out := meta_exec now now' (OpUpdateQueryIfState r expected) s in
    match out.1 with
    | Ok true =>
        (exists cur, lookup_rec s (ID r) = Some cur /\ rec_State cur ∈ expected) /\
        lookup_rec out.2 (ID r) = Some (stored r)
    | Ok false =>
        (exists cur, lookup_rec s (ID r) = Some cur /\ rec_State cur ∉ expected) /\
        lookup_rec out.2 (ID r) = lookup_rec s (ID r)
    | Err _ =>
        lookup_rec out.2 (ID r) = lookup_rec s (ID r) \/
        ((exists cur, lookup_rec s (ID r) = Some cur /\ rec_State cur ∈ expected) /\
         lookup_rec out.2 (ID r) = Some (stored r))
    end;
  meta_delete now now' id s :
    let out := meta_exec now now' (OpDeleteQuery id) s in
    match out.1 with
    | None => lookup_rec out.2 id = None
    | Some _ => lookup_rec out.2 id = lookup_rec s id \/ lookup_rec out.2 id = None
    end;

  meta_acquire now now' dbID key q ttl s :
    let out := meta_exec now now' (OpAcquireIdempotency dbID key q ttl) s in
    let k := fullKey dbID key in
    match out.1 with
    | Ok (q', true) =>
        holder s k now = None /\ q' = q /\ forall t, holder out.2 k t = claim_until q (now' + ttl) t
    | Ok (q', false) => holder s k now = Some q' /\ forall t, holder out.2 k t = holder s k t
    | Err _ =>
        (forall t, holder out.2 k t = holder s k t) \/
        (holder s k now = None /\ forall t, holder out.2 k t = claim_until q (now' + ttl) t)
    end;
  meta_release now now' dbID key q s t :
    let out := meta_exec now now' (OpReleaseIdempotency dbID key q) s in
    let k := fullKey dbID key in
    (holder s k t <> Some q -> holder out.2 k t = holder s k t) /\
    (holder s k t = Some q ->
       holder out.2 k t = None \/ (out.1 <> None /\ holder out.2 k t = Some q));
  meta_refresh now now' dbID key q ttl s :
    let out := meta_exec now now' (OpRefreshIdempotency dbID key q ttl) s in
    let k := fullKey dbID key in
    forall q', holder s k now = Some q' ->
      (forall t, holder out.2 k t = holder s k t) \/
      (0 < ttl /\ q' = q /\ forall t, holder out.2 k t = claim_until q (now + ttl) t);

  meta_stale now now' s ids :
    meta_inv s -> (meta_exec now now' OpListStaleQueries s).1 = Ok ids ->
    forall id, id ∈ ids <->
      exists r, lookup_rec s id = Some r /\ in_flight r = true /\
        (forall d, lease_of s id = Some d -> time_after now d = true);
  meta_expired now now' s ids :
    meta_inv s -> (meta_exec now now' OpListExpiredQueries s).1 = Ok ids ->
    forall id, id ∈ ids <-> exists r, lookup_rec s id = Some r /\ expired_at now r = true
}.

(** ** The in-memory store *)

Module Memory.

(** A subscriber's channel: its buffered messages and whether it is closed. *)
Record chan := mkChan { ch_buf : list ControlMsg; ch_closed : bool }.

Definition chan_cap : nat := 100.

(** [chans] is the heap of channels; [subscribers] the ones in the slice. *)
Record MemoryMetaStore := mkMem {
  queries : gmap string QueryRecord;
  idempotency : gmap string string;
  idempExpires : gmap string time;
  subscribers : list nat;
  leases : gmap string time;
  locks : gmap string time;
  chans : gmap nat chan
}.

Definition NewMemoryMetaStore : MemoryMetaStore := mkMem ∅ ∅ ∅ [] ∅ ∅ ∅.

Definition set_queries q m :=
  mkMem q (idempotency m) (idempExpires m) (subscribers m) (leases m) (locks m) (chans m).
Definition set_leases l m :=
  mkMem (queries m) (idempotency m) (idempExpires m) (subscribers m) l (locks m) (chans m).
Definition set_claims i e m :=
  mkMem (queries m) i e (subscribers m) (leases m) (locks m) (chans m).
Definition set_locks l m :=
  mkMem (queries m) (idempotency m) (idempExpires m) (subscribers m) (leases m) l (chans m).
Definition set_chans subs c m :=
  mkMem (queries m) (idempotency m) (idempExpires m) subs (leases m) (locks m) c.

Definition store (record : QueryRecord) (m : MemoryMetaStore) : MemoryMetaStore :=
  let m := set_queries (<[ID record := stored record]> (queries m)) m in
  if IsTerminal (rec_State record) then set_leases (delete (ID record) (leases m)) m else m.

Definition PutQuery (record : QueryRecord) (m : MemoryMetaStore)
  : option error * MemoryMetaStore :=
  (None, store record m).

Definition GetQuery (id : string) (m : MemoryMetaStore) : result QueryRecord :=
  match queries m !! id with
  | None => Err ErrNotFound
  | Some rec =>
      match leases m !! id with
      | Some exp => Ok (set_LeaseDeadline exp rec)
      | None => Ok rec
      end
  end.

Definition UpdateQuery (record : QueryRecord) (m : MemoryMetaStore)
  : option error * MemoryMetaStore :=
  match queries m !! ID record with
  | None => (Some ErrNotFound, m)
  | Some _ => (None, store record m)
  end.

Definition UpdateQueryIfState (record : QueryRecord) (expected : list QueryState)
  (m : MemoryMetaStore) : result bool * MemoryMetaStore :=
  match queries m !! ID record with
  | None => (Err ErrNotFound, m)
  | Some current =>
      if negb (slices_contains expected (rec_State current)) then (Ok false, m)
      else (Ok true, store record m)
  end.

(** Reading a missing key of a Go map of strings gives the empty string. *)
Definition claimed_by (k : string) (m : MemoryMetaStore) : string := default "" (idempotency m !! k).

Definition AcquireIdempotency (now now' : time) (dbID key queryID : string) (ttl : Z)
  (m : MemoryMetaStore) : result (string * bool) * MemoryMetaStore :=
  let k := fullKey dbID key in
  if match idempExpires m !! k with Some exp => time_before now exp | None => false end then
    (Ok (claimed_by k m, false), m)
  else
    (Ok (queryID, true),
     set_claims (<[k := queryID]> (idempotency m)) (<[k := time_add now' ttl]> (idempExpires m)) m).

Definition ReleaseIdempotency (dbID key queryID : string) (m : MemoryMetaStore)
  : option error * MemoryMetaStore :=
  let k := fullKey dbID key in
  if negb (bool_decide (claimed_by k m = queryID)) then (None, m)
  else (None, set_claims (delete k (idempotency m)) (delete k (idempExpires m)) m).

Definition RefreshIdempotency (now : time) (dbID key queryID : string) (ttl : Z)
  (m : MemoryMetaStore) : option error * MemoryMetaStore :=
  if ttl <=? 0 then (None, m)
  else
    let k := fullKey dbID key in
    if negb (bool_decide (claimed_by k m = queryID)) then (None, m)
    else (None, set_claims (idempotency m) (<[k := time_add now ttl]> (idempExpires m)) m).

Definition Heartbeat (now : time) (instanceID : string) (ownedQueryIDs : list string) (ttl : Z)
  (m : MemoryMetaStore) : option error * MemoryMetaStore :=
  (None, set_leases (fold_left (fun l id => <[id := time_add now ttl]> l) ownedQueryIDs (leases m)) m).

Definition TryLock (now : time) (name : string) (ttl : Z) (m : MemoryMetaStore)
  : result bool * MemoryMetaStore :=
  if match locks m !! name with Some exp => time_before now exp | None => false end
  then (Ok false, m)
  else (Ok true, set_locks (<[name := time_add now ttl]> (locks m)) m).

(** A send that does not block: a full buffer drops the message. Sending on a
    closed channel, or on one that does not exist, is a panic. *)
Definition try_send (msg : ControlMsg) (c : nat) (cs : gmap nat chan) : option (gmap nat chan) :=
  match cs !! c with
  | Some ch =>
      if ch_closed ch then None
      else if Nat.ltb (length (ch_buf ch)) chan_cap
      then Some (<[c := mkChan (ch_buf ch ++ [msg]) false]> cs)
      else Some cs
  | None => None
  end.

Fixpoint send_all (msg : ControlMsg) (subs : list nat) (cs : gmap nat chan)
  : option (gmap nat chan) :=
  match subs with
  | [] => Some cs
  | c :: subs => match try_send msg c cs with Some cs => send_all msg subs cs | None => None end
  end.

Definition PublishControl (msg : ControlMsg) (m : MemoryMetaStore) : option MemoryMetaStore :=
  match send_all msg (subscribers m) (chans m) with
  | Some cs => Some (set_chans (subscribers m) cs m)
  | None => None
  end.

(** [make(chan ControlMsg, 100)] gives a channel that was not there before. *)
Definition SubscribeControl (m : MemoryMetaStore) : nat * MemoryMetaStore :=
  let c := fresh (dom (chans m)) in
  (c, set_chans (subscribers m ++ [c]) (<[c := mkChan [] false]> (chans m)) m).

(** [close]: closing a closed channel is a panic. *)
Definition close_chan (c : nat) (cs : gmap nat chan) : option (gmap nat chan) :=
  match cs !! c with
  | Some ch => if ch_closed ch then None else Some (<[c := mkChan (ch_buf ch) true]> cs)
  | None => None
  end.

(** The first occurrence of a channel taken out of the slice. *)
Fixpoint remove_sub (c : nat) (subs : list nat) : option (list nat) :=
  match subs with
  | [] => None
  | d :: subs => if Nat.eqb d c then Some subs else cons d <$> remove_sub c subs
  end.

(** The goroutine of [SubscribeControl], once its context is done. *)
Definition Unsubscribe (c : nat) (m : MemoryMetaStore) : option MemoryMetaStore :=
  match remove_sub c (subscribers m) with
  | None => Some m
  | Some subs => (fun cs => set_chans subs cs m) <$> close_chan c (chans m)
  end.

Definition CountInFlight (instanceID : string) (m : MemoryMetaStore) : Z :=
  Z.of_nat (length (keys_where
    (fun _ q => bool_decide (OwnerInstanceID q = instanceID) && in_flight q) (queries m))).

(** The lists hold the records' own IDs, in the order of a map range. *)
Definition ids_where (f : QueryRecord -> bool) (m : MemoryMetaStore) : list string :=
  map (fun kv => ID kv.2) (List.filter (fun kv => f kv.2) (map_to_list (queries m))).

Definition ListByInstance (instanceID : string) (m : MemoryMetaStore) : list string :=
  ids_where (fun q => bool_decide (OwnerInstanceID q = instanceID) &&
                      negb (IsTerminal (rec_State q))) m.

Definition ListDatabasesSeen (m : MemoryMetaStore) : list string :=
  fold_left (fun dbs kv => if slices_contains dbs (DatabaseID kv.2) then dbs
                           else dbs ++ [DatabaseID kv.2])
    (map_to_list (queries m)) [].

Definition ListExpiredQueries (now : time) (m : MemoryMetaStore) : list string :=
  ids_where (expired_at now) m.

Definition ListStaleQueries (now : time) (m : MemoryMetaStore) : list string :=
  ids_where (fun q => in_flight q &&
                      match leases m !! ID q with
                      | Some exp => time_after now exp
                      | None => true
                      end) m.

Definition DeleteQuery (id : string) (m : MemoryMetaStore) : option error * MemoryMetaStore :=
  (None, set_leases (delete id (leases m)) (set_queries (delete id (queries m)) m)).

Definition close_all (subs : list nat) (cs : gmap nat chan) : option (gmap nat chan) :=
  fold_left (fun acc c => acc ≫= close_chan c) subs (Some cs).

Definition Close (m : MemoryMetaStore) : option MemoryMetaStore :=
  (fun cs => set_chans [] cs m) <$> close_all (subscribers m) (chans m).

(** The operations of the interface. A publication that would panic is left out
    by [channels_never_panic] below; here it leaves the store as it is. *)
Definition exec (now now' : time) (op : meta_op) (m : MemoryMetaStore)
  : meta_answer op * MemoryMetaStore :=
  match op with
  | OpPutQuery r => PutQuery r m
  | OpGetQuery id => (GetQuery id m, m)
  | OpUpdateQuery r => UpdateQuery r m
  | OpUpdateQueryIfState r expected => UpdateQueryIfState r expected m
  | OpAcquireIdempotency dbID key q ttl => AcquireIdempotency now now' dbID key q ttl m
  | OpReleaseIdempotency dbID key q => ReleaseIdempotency dbID key q m
  | OpRefreshIdempotency dbID key q ttl => RefreshIdempotency now dbID key q ttl m
  | OpHeartbeat i ids ttl => Heartbeat now i ids ttl m
  | OpTryLock name ttl => TryLock now name ttl m
  | OpPublishControl msg => (None, default m (PublishControl msg m))
  | OpCountInFlight i => (Ok (CountInFlight i m), m)
  | OpListByInstance i => (Ok (ListByInstance i m), m)
  | OpListDatabasesSeen => (Ok (ListDatabasesSeen m), m)
  | OpListExpiredQueries => (Ok (ListExpiredQueries now m), m)
  | OpListStaleQueries => (Ok (ListStaleQueries now m), m)
  | OpDeleteQuery id => DeleteQuery id m
  end.

(** ** The in-memory store satisfies the laws *)

Definition inv (m : MemoryMetaStore) : Prop := map_Forall (fun id r => ID r = id) (queries m).

Definition mem_holder (m : MemoryMetaStore) (k : string) (t : time) : option string :=
  match idempExpires m !! k with
  | Some exp => if time_before t exp then Some (claimed_by k m) else None
  | None => None
  end.

Lemma queries_store r m : queries (store r m) = <[ID r := stored r]> (queries m).
Proof. unfold store. by destruct (IsTerminal _). Qed.

Lemma claims_store r m :
  idempotency (store r m) = idempotency m /\ idempExpires (store r m) = idempExpires m.
Proof. unfold store. by destruct (IsTerminal _). Qed.

Lemma mem_holder_store r m k t : mem_holder (store r m) k t = mem_holder m k t.
Proof. unfold mem_holder, claimed_by. by destruct (claims_store r m) as [-> ->]. Qed.

Lemma set_LeaseDeadline_eta r : set_LeaseDeadline (LeaseDeadline r) r = r.
Proof. by destruct r. Qed.

Lemma elem_of_ids_where f m id :
  inv m -> id ∈ ids_where f m <-> exists r, queries m !! id = Some r /\ f r = true.
Proof.
  intros Hinv. unfold ids_where. rewrite list_elem_of_In, in_map_iff. split.
  - intros ([k r] & <- & [Hin Hf]%filter_In). simpl in *.
    apply list_elem_of_In, elem_of_map_to_list in Hin.
    pose proof (Hinv _ _ Hin) as <-. eauto.
  - intros (r & Hl & Hf). exists (id, r). split; [by apply Hinv in Hl|].
    apply filter_In. split; [|done]. by apply list_elem_of_In, elem_of_map_to_list.
Qed.

(** The operations that write no record leave the records alone, and likewise
    for the claims. *)
Lemma exec_queries now now' op m :
  op_record op = None -> queries (exec now now' op m).2 = queries m.
Proof.
  destruct op; try done; intros _; simpl; unfold AcquireIdempotency, ReleaseIdempotency,
    RefreshIdempotency, TryLock, PublishControl; repeat (dmatch; try done).
Qed.

Lemma mem_frame_record now now' op m id :
  op_record op <> Some id -> queries (exec now now' op m).2 !! id = queries m !! id.
Proof.
  destruct (op_record op) as [i|] eqn:Ho; [|by rewrite exec_queries].
  intros Hne. assert (i <> id) by congruence.
  destruct op; simplify_eq/=; unfold UpdateQuery, UpdateQueryIfState; repeat (dmatch; try done);
    simpl; rewrite ?queries_store; by rewrite ?lookup_insert_ne, ?lookup_delete_ne.
Qed.

Lemma mem_frame_key now now' op m k t :
  op_key op <> Some k -> mem_holder (exec now now' op m).2 k t = mem_holder m k t.
Proof.
  intros Hk. destruct op; simpl in *; unfold UpdateQuery, UpdateQueryIfState, TryLock,
    AcquireIdempotency, ReleaseIdempotency, RefreshIdempotency, PublishControl;
    repeat (dmatch; simpl; try done); rewrite ?mem_holder_store; try done;
    unfold mem_holder, claimed_by; simpl;
    rewrite ?lookup_insert_ne, ?lookup_delete_ne by congruence; done.
Qed.

Lemma mem_inv_step now now' op m : inv m -> inv (exec now now' op m).2.
Proof.
  intros Hm. destruct (op_record op) as [i|] eqn:Ho; [|unfold inv; by rewrite exec_queries].
  assert (forall r, inv (store r m)) as Hst.
  { intros r. unfold inv. rewrite queries_store. apply map_Forall_insert_2; [reflexivity|exact Hm]. }
  destruct op; simplify_eq/=; unfold UpdateQuery, UpdateQueryIfState; repeat (dmatch; try done);
    simpl; try apply Hst.
  apply map_Forall_delete. exact Hm.
Qed.

#[export] Program Instance memory_store : MetaStore MemoryMetaStore := {
  meta_exec := exec;
  meta_inv := inv;
  lookup_rec m id := queries m !! id;
  holder := mem_holder;
  lease_of m id := leases m !! id;
  meta_inv_step := mem_inv_step;
  meta_frame_record := mem_frame_record;
  meta_frame_key := mem_frame_key
}.
Next Obligation. intros m id r Hi Hl. by apply Hi. Qed.
Next Obligation. intros. simpl. by rewrite queries_store, lookup_insert_eq. Qed.
Next Obligation.
  intros now now' id m. simpl. unfold GetQuery.
  destruct (queries m !! id) as [r|] eqn:Hr; [|done].
  destruct (leases m !! id) as [d|]; [by exists r, d|].
  exists r, (LeaseDeadline r). by rewrite set_LeaseDeadline_eta.
Qed.
Next Obligation.
  intros now now' r m. simpl. unfold UpdateQuery.
  destruct (queries m !! ID r) eqn:Hr; simpl; [|by rewrite Hr].
  by rewrite queries_store, lookup_insert_eq.
Qed.
Next Obligation.
  intros now now' r expected m. simpl. unfold UpdateQueryIfState.
  destruct (queries m !! ID r) as [cur|] eqn:Hr; [|by left].
  destruct (slices_contains expected (rec_State cur)) eqn:Hc; simpl.
  - apply slices_contains_spec in Hc. rewrite queries_store, lookup_insert_eq. eauto.
  - apply slices_contains_false in Hc. eauto.
Qed.
Next Obligation. intros. simpl. by rewrite lookup_delete_eq. Qed.
Next Obligation.
  intros now now' dbID key q ttl m. simpl. unfold AcquireIdempotency, mem_holder, claim_until.
  destruct (idempExpires m !! _) as [exp|] eqn:He; [destruct (time_before now exp) eqn:Hb|];
    simpl; split; try done; rewrite ?He; try done; split; try done; intros t;
    unfold claimed_by; simpl; by rewrite !lookup_insert_eq.
Qed.
Next Obligation.
  intros now now' dbID key q m t. simpl. unfold ReleaseIdempotency, mem_holder.
  case_bool_decide as Hq; simpl.
  - rewrite lookup_delete_eq. split; [|by left].
    destruct (idempExpires m !! _); [|done]. destruct (time_before _ _); [|done]. by rewrite Hq.
  - split; [done|]. destruct (idempExpires m !! _); [|done].
    destruct (time_before _ _); [|done]. intros [=]. done.
Qed.
Next Obligation.
  intros now now' dbID key q ttl m. simpl. unfold RefreshIdempotency, mem_holder.
  intros q' Hh. destruct (Z.leb_spec ttl 0) as [?|Httl]; [by left|].
  case_bool_decide as Hq; simpl; [|by left]. right. split; [done|].
  destruct (idempExpires m !! _); [|done]. destruct (time_before now _); [|done].
  split; [congruence|]. intros t. rewrite lookup_insert_eq. unfold claimed_by in *. simpl.
  by rewrite Hq.
Qed.
Next Obligation.
  intros now now' m ids Hm [= <-] id. unfold ListStaleQueries.
  rewrite elem_of_ids_where by done. split.
  - intros (r & Hr & [Hf Hl]%andb_true_iff). exists r. split_and!; [done..|].
    intros d Hd. pose proof (Hm _ _ Hr) as Hid. simpl in Hid. by rewrite Hid, Hd in Hl.
  - intros (r & Hr & Hf & Hl). exists r. split; [done|]. rewrite Hf. simpl.
    pose proof (Hm _ _ Hr) as Hid. simpl in Hid. rewrite Hid.
    destruct (leases m !! id); [by apply Hl|done].
Qed.
Next Obligation.
  intros now now' m ids Hm [= <-] id. unfold ListExpiredQueries. by apply elem_of_ids_where.
Qed.

(** ** Subscriber channels *)

(** Every channel in the slice is open, and none is there twice. *)
Definition chans_ok (m : MemoryMetaStore) : Prop :=
  NoDup (subscribers m) /\
  forall c, c ∈ subscribers m -> exists b, chans m !! c = Some (mkChan b false).

Inductive chan_op := CPublish (msg : ControlMsg) | CSubscribe | CCancel (c : nat) | CClose.

(** One operation on the channels; [None] is a panic. *)
Definition chan_step (op : chan_op) (m : MemoryMetaStore) : option MemoryMetaStore :=
  match op with
  | CPublish msg => PublishControl msg m
  | CSubscribe => Some (SubscribeControl m).2
  | CCancel c => Unsubscribe c m
  | CClose => Close m
  end.

Fixpoint chan_run (ops : list chan_op) (m : MemoryMetaStore) : option MemoryMetaStore :=
  match ops with
  | [] => Some m
  | op :: ops => chan_step op m ≫= chan_run ops
  end.

Definition all_open (subs : list nat) (cs : gmap nat chan) : Prop :=
  forall c, c ∈ subs -> exists b, cs !! c = Some (mkChan b false).

Lemma try_send_open msg c cs subs :
  all_open subs cs -> c ∈ subs -> exists cs', try_send msg c cs = Some cs' /\ all_open subs cs'.
Proof.
  intros Ho Hc. destruct (Ho c Hc) as [b Hb]. unfold try_send. rewrite Hb. simpl.
  destruct (Nat.ltb _ _); [|eauto]. eexists. split; [done|].
  intros d Hd. destruct (decide (c = d)) as [<-|Hne].
  - rewrite lookup_insert_eq. eauto.
  - rewrite lookup_insert_ne by done. by apply Ho.
Qed.

Lemma send_all_open msg sent subs cs :
  all_open subs cs -> (forall c, c ∈ sent -> c ∈ subs) ->
  exists cs', send_all msg sent cs = Some cs' /\ all_open subs cs'.
Proof.
  revert cs. induction sent as [|c sent IH]; intros cs Ho Hsub; simpl; [eauto|].
  destruct (try_send_open msg c cs subs) as (cs' & -> & Ho'); [done|apply Hsub; by left|].
  apply IH; [done|]. intros d Hd. apply Hsub. by right.
Qed.

Lemma close_chan_open c cs subs :
  all_open (c :: subs) cs -> c ∉ subs ->
  exists cs', close_chan c cs = Some cs' /\ all_open subs cs'.
Proof.
  intros Ho Hc. destruct (Ho c) as [b Hb]; [by left|]. unfold close_chan. rewrite Hb. simpl.
  eexists. split; [done|]. intros d Hd. rewrite lookup_insert_ne by (intros ->; done).
  apply Ho. by right.
Qed.

Lemma close_all_open subs cs :
  NoDup subs -> all_open subs cs -> exists cs', close_all subs cs = Some cs'.
Proof.
  intros Hnd. revert cs. induction Hnd as [|c subs Hc _ IH]; intros cs Ho; [by exists cs|].
  destruct (close_chan_open c cs subs Ho Hc) as (cs' & Hcl & Ho').
  unfold close_all in *. cbn [fold_left]. simpl. rewrite Hcl. by apply IH.
Qed.

Lemma remove_sub_spec c subs subs' : remove_sub c subs = Some subs' -> subs ≡ₚ c :: subs'.
Proof.
  revert subs'. induction subs as [|d subs IH]; intros subs'; simpl; [done|].
  destruct (Nat.eqb_spec d c) as [->|]; [by intros [= <-]|].
  destruct (remove_sub c subs) as [l|]; [|done]. intros [= <-].
  rewrite (IH l) by done. apply Permutation_swap.
Qed.

Lemma chan_step_ok op m : chans_ok m -> exists m', chan_step op m = Some m' /\ chans_ok m'.
Proof.
  intros [Hnd Ho]. destruct op as [msg| |c|]; simpl.
  - unfold PublishControl.
    destruct (send_all_open msg (subscribers m) (subscribers m) (chans m)) as (cs & -> & ?);
      [done..|]. eexists. split; [done|]. by split.
  - eexists. split; [done|]. pose proof (is_fresh (dom (chans m))) as Hf.
    set (c := fresh (dom (chans m))) in *. apply not_elem_of_dom in Hf. split; simpl.
    + apply NoDup_app. split_and!; [done| |apply NoDup_singleton].
      intros d Hd ->%list_elem_of_singleton. destruct (Ho _ Hd). congruence.
    + intros d [Hd| ->%list_elem_of_singleton]%elem_of_app.
      * rewrite lookup_insert_ne; [by apply Ho|]. intros <-. destruct (Ho _ Hd). congruence.
      * rewrite lookup_insert_eq. eauto.
  - unfold Unsubscribe. destruct (remove_sub c (subscribers m)) as [subs|] eqn:Hr; [|by exists m].
    apply remove_sub_spec in Hr. rewrite Hr in Hnd. apply NoDup_cons in Hnd as [Hc Hnd].
    destruct (close_chan_open c (chans m) subs) as (cs & -> & ?); [|done|].
    + intros d Hd. apply Ho. by rewrite Hr.
    + eexists. split; [done|]. by split.
  - unfold Close. destruct (close_all_open (subscribers m) (chans m)) as [cs ->]; [done..|].
    eexists. split; [done|]. split; simpl; [constructor|]. by intros ? ?%elem_of_nil.
Qed.

(** However publications, subscriptions, cancelled subscriptions and the
    closing of the store are ordered, no message is sent on a closed channel and
    no channel is closed twice: the in-memory store never panics. *)
Theorem channels_never_panic ops : exists m, chan_run ops NewMemoryMetaStore = Some m.
Proof.
  assert (chans_ok NewMemoryMetaStore) as Hok.
  { split; simpl; [constructor|]. by intros ? ?%elem_of_nil. }
  revert Hok. generalize NewMemoryMetaStore.
  induction ops as [|op ops IH]; intros m Hok; simpl; [eauto|].
  destruct (chan_step_ok op m Hok) as (m' & -> & Hok'). simpl. by apply IH.
Qed.

End Memory.

#[export] Existing Instance Memory.memory_store.

(** ** Claims are exclusive *)

Section Claims.
Context {S : Type} `{!MetaStore S}.

(** A sequence of operations with the two clock readings of each. *)
Definition timed_op : Type := time * time * meta_op.

Definition exec_all (ops : list timed_op) (s : S) : S :=
  fold_left (fun s '(now, now', op) => (meta_exec now now' op s).2) ops s.

(** The operations that may end or move the claim of [q] on [k]. *)
Definition gives_up (k q : string) (op : meta_op) : Prop :=
  match op with
  | OpReleaseIdempotency dbID key q' | OpRefreshIdempotency dbID key q' _ =>
      fullKey dbID key = k /\ q' = q
  | _ => False
  end.

(** A step of another party keeps a claim that has not run out. *)
Lemma claim_step k q deadline now now' op s :
  now < deadline -> ~ gives_up k q op ->
  (forall t, t < deadline -> holder s k t = Some q) ->
  forall t, t < deadline -> holder (meta_exec now now' op s).2 k t = Some q.
Proof.
  intros Hnow Hg Hh t Ht. pose proof (Hh now Hnow) as Hn.
  destruct (decide (op_key op = Some k)) as [Hk|Hk]; [|rewrite meta_frame_key by done; auto].
  destruct op as [| | | |dbID key q' ttl|dbID key q'|dbID key q' ttl| | | | | | | | |];
    simplify_eq/=.
  - pose proof (meta_acquire now now' dbID key q' ttl s) as Hl. simpl in Hl.
    destruct (meta_exec _ _ _ _) as [[[? []]|] s']; simpl in *.
    + destruct Hl as [? _]. congruence.
    + destruct Hl as [_ ->]. auto.
    + destruct Hl as [->|[? _]]; [auto|congruence].
  - destruct (meta_release now now' dbID key q' s t) as [Hl _]. simpl in Hl.
    rewrite Hl; [auto|]. rewrite (Hh t Ht). intros [= ->]. by apply Hg.
  - destruct (meta_refresh now now' dbID key q' ttl s q Hn) as [Hl|(_ & -> & _)].
    + rewrite Hl. auto.
    + by destruct Hg.
Qed.

(** C18. A claim is exclusive: once a query has acquired an idempotency key, every
    other attempt to acquire it before the claim runs out is answered with that
    query's ID and does not acquire it, whatever operations of other parties come
    in between - only a release or a refresh made for the same query can change
    the claim. It holds of every lawful store. *)
Theorem claim_exclusive dbID key q ttl now now' ops q2 ttl2 later later' s :
  let k := fullKey dbID key in
  let s1 := (meta_exec now now' (OpAcquireIdempotency dbID key q ttl) s).2 in
  (meta_exec now now' (OpAcquireIdempotency dbID key q ttl) s).1 = Ok (q, true) ->
  Forall (fun o : timed_op => o.1.1 < now' + ttl /\ ~ gives_up k q o.2) ops ->
  later < now' + ttl ->
  let out := (meta_exec later later' (OpAcquireIdempotency dbID key q2 ttl2) (exec_all ops s1)).1 in
  out = Ok (q, false) \/ exists e, out = Err e.
Proof.
  intros k s1 Hacq Hops Hlater out. subst out s1.
  assert (forall t, t < now' + ttl ->
    holder (meta_exec now now' (OpAcquireIdempotency dbID key q ttl) s).2 k t = Some q) as Hh.
  { pose proof (meta_acquire now now' dbID key q ttl s) as Hl. cbv zeta in Hl. rewrite Hacq in Hl.
    destruct Hl as (_ & _ & Hl). intros t Ht. subst k. rewrite Hl. unfold claim_until.
    by apply Z.ltb_lt in Ht as ->. }
  revert Hh. generalize (meta_exec now now' (OpAcquireIdempotency dbID key q ttl) s).2. clear Hacq.
  induction Hops as [|[[n n'] op] ops [Hn Hg] _ IH]; intros s1 Hh.
  - simpl. pose proof (meta_acquire later later' dbID key q2 ttl2 s1) as Hl. simpl in Hl.
    specialize (Hh later Hlater). subst k.
    destruct (meta_exec _ _ _ s1) as [[[q' []]|e] s']; simpl in *; [| |eauto].
    + destruct Hl as [? _]. congruence.
    + destruct Hl as [? _]. left. congruence.
  - cbn [exec_all fold_left]. apply IH. simpl in *. eapply claim_step; done.
Qed.

End Claims.

Lemma claim_exclusive_witness :
  let s := (meta_exec 10 10 (OpAcquireIdempotency "pg" "k" "q1" 100) Memory.NewMemoryMetaStore).2 in
  let out := (meta_exec 90 90 (OpAcquireIdempotency "pg" "k" "q2" 50)
                (exec_all [(20, 20, OpAcquireIdempotency "pg" "k" "q3" 9);
                           (30, 30, OpReleaseIdempotency "pg" "k" "q3")] s)).1 in
  out = Ok ("q1", false) \/ exists e, out = Err e.
Proof.
  apply (claim_exclusive "pg" "k" "q1" 100 10 10
           [(20, 20, OpAcquireIdempotency "pg" "k" "q3" 9);
            (30, 30, OpReleaseIdempotency "pg" "k" "q3")] "q2" 50 90 90).
  - vm_compute. reflexivity.
  - repeat constructor; simpl; intros []; done.
  - lia.
Defined.
