(* ===== verification/RecordJson.v ===== *)
(** * Records and control messages as JSON

    The documents the Redis store keeps and publishes: [domain.QueryRecord] with
    its nested structs (models.go) and [state.ControlMsg] (metastore.go), by their
    [json] tags, and what [json.Unmarshal] makes of a document. A field the tag
    marks [omitzero] or [omitempty] is left out when it is zero; an unknown member
    is skipped; a member is matched to a field by its exact name or, failing that,
    without regard to case; [null] leaves a field as it is and clears a pointer; a
    value of the wrong type makes the whole decoding fail. *)

From S2P Require Import Prelude Domain Utf8 Text Json MetaStore.

(** ** Decoding of structs *)

(** The smallest rune of a fold orbit: two runes outside ASCII fold to a letter of
    it. *)
Definition fold_rune (r : Z) : Z :=
  if in_range 97 122 r then r - 32
  else if r =? 383 then 83
  else if r =? 8490 then 75
  else r.

Definition foldName (name : bytes) : list Z := map fold_rune (decode name).

Definition find_field (fields : list string) (name : bytes) : option string :=
  match List.find (fun f => bool_decide (name = bytes_of f)) fields with
  | Some f => Some f
  | None => List.find (fun f => bool_decide (foldName name = foldName (bytes_of f))) fields
  end.

(** The members of an object, in order, into a struct. *)
Fixpoint decode_members {A} (fields : list string) (set : string -> json -> A -> option A)
  (ms : list (bytes * json)) (a : A) : option A :=
  match ms with
  | [] => Some a
  | (raw, v) :: ms =>
      match find_field fields (unquote raw) with
      | None => decode_members fields set ms a
      | Some f => a ← set f v a; decode_members fields set ms a
      end
  end.

Definition decode_struct {A} (fields : list string) (set : string -> json -> A -> option A)
  (v : json) (cur : A) : option A :=
  match v with
  | JNull => Some cur
  | JObj ms => decode_members fields set ms cur
  | _ => None
  end.

Definition decode_ptr {A} (dec : json -> A -> option A) (zero : A) (v : json) (cur : option A)
  : option (option A) :=
  match v with
  | JNull => Some None
  | _ => Some <$> dec v (default zero cur)
  end.

Definition decode_string (v : json) (cur : string) : option string :=
  match v with
  | JNull => Some cur
  | JStr raw => Some (string_of_bytes (unquote raw))
  | _ => None
  end.

Definition decode_int64 (v : json) (cur : Z) : option Z :=
  match v with
  | JNull => Some cur
  | JNum lit => parse_int64 lit
  | _ => None
  end.

Definition decode_bool (v : json) (cur : bool) : option bool :=
  match v with
  | JNull => Some cur
  | JBool b => Some b
  | _ => None
  end.

(** ** Encoding *)

Definition json_string (s : string) : json := JStr (quote (bytes_of s)).
Definition json_int (z : Z) : json := JNum (FormatInt z).

Definition member (name : string) (v : json) : list (bytes * json) := [(quote (bytes_of name), v)].
Definition member_if (b : bool) (name : string) (v : json) : list (bytes * json) :=
  if b then member name v else [].

Definition options_fields : list string :=
  ["timeout"; "mode"; "result_ttl"; "idempotency_key"; "result_format"; "storage_backend"].
Definition stats_fields : list string :=
  ["rows_read"; "bytes_written"; "db_exec_duration"; "storage_write_duration"; "total_duration"].
Definition error_fields : list string := ["code"; "message"; "retryable"].
Definition ref_fields : list string :=
  ["backend"; "locator"; "size_bytes"; "row_count"; "format"; "checksum"].
Definition record_fields : list string :=
  ["id"; "database_id"; "sql"; "options"; "state"; "owner_instance_id"; "created_at"; "started_at";
   "finished_at"; "error"; "stats"; "result"; "idempotency_key"; "subject"].

Definition json_options (o : QueryOptions) : json :=
  JObj (member "timeout" (json_int (Timeout o)) ++
        member "mode" (json_string (Mode o)) ++
        member "result_ttl" (json_int (ResultTTL o)) ++
        member "idempotency_key" (json_string (opt_IdempotencyKey o)) ++
        member "result_format" (json_string (ResultFormat o)) ++
        member "storage_backend" (json_string (StorageBackend o))).

Definition json_stats (s : QueryStats) : json :=
  JObj (member "rows_read" (json_int (RowsRead s)) ++
        member "bytes_written" (json_int (BytesWritten s)) ++
        member "db_exec_duration" (json_int (DBExecDuration s)) ++
        member "storage_write_duration" (json_int (StorageWriteDuration s)) ++
        member "total_duration" (json_int (TotalDuration s))).

Definition json_error (e : QueryError) : json :=
  JObj (member "code" (json_string (QueryErrorCode_string (Code e))) ++
        member "message" (json_string (Message e)) ++
        member "retryable" (JBool (Retryable e))).

Definition json_ref (r : ResultRef) : json :=
  JObj (member "backend" (json_string (Backend r)) ++
        member "locator" (json_string (Locator r)) ++
        member "size_bytes" (json_int (SizeBytes r)) ++
        member "row_count" (json_int (RowCount r)) ++
        member "format" (json_string (Format r)) ++
        member "checksum" (json_string (Checksum r))).

Definition json_opt {A} (f : A -> json) (o : option A) : json :=
  match o with Some a => f a | None => JNull end.

Definition is_some {A} (o : option A) : bool := match o with Some _ => true | None => false end.
Definition nonempty (s : string) : bool := negb (bool_decide (s = "")).

Section Times.
(** The offset of the location of the process at an instant, in minutes; and the
    layout-driven [time.Parse], which decoding falls back to on a text that is not
    in the fixed RFC 3339 form. *)
Context (zone : time -> Z) (lenient_parse : bytes -> option time).

Definition json_time (t : time) : json := JStr (format_rfc3339 (zone t) t).

(** [Time.UnmarshalJSON] sees the literal as it is written. *)
Definition decode_time (v : json) (cur : time) : option time :=
  match v with
  | JNull => Some cur
  | JStr raw => match parse_rfc3339 raw with Some t => Some t | None => lenient_parse raw end
  | _ => None
  end.

Definition json_record (r : QueryRecord) : json :=
  JObj (member "id" (json_string (ID r)) ++
        member "database_id" (json_string (DatabaseID r)) ++
        member "sql" (json_string (SQL r)) ++
        member "options" (json_options (rec_Options r)) ++
        member "state" (json_string (QueryState_string (rec_State r))) ++
        member "owner_instance_id" (json_string (OwnerInstanceID r)) ++
        member "created_at" (json_time (CreatedAt r)) ++
        member_if (negb (IsZero (StartedAt r))) "started_at" (json_time (StartedAt r)) ++
        member_if (negb (IsZero (FinishedAt r))) "finished_at" (json_time (FinishedAt r)) ++
        member_if (is_some (rec_Error r)) "error" (json_opt json_error (rec_Error r)) ++
        member "stats" (json_stats (Stats r)) ++
        member_if (is_some (rec_Result r)) "result" (json_opt json_ref (rec_Result r)) ++
        member_if (nonempty (IdempotencyKey r)) "idempotency_key" (json_string (IdempotencyKey r)) ++
        member_if (nonempty (Subject r)) "subject" (json_string (Subject r))).

(** A time is encoded only if its year has four digits. *)
Definition encodable (t : time) : bool := IsZero t || year_in_range (zone t) t.

(** [json.Marshal(record)], [None] for an error. *)
Definition marshal_record (r : QueryRecord) : option bytes :=
  if year_in_range (zone (CreatedAt r)) (CreatedAt r) && encodable (StartedAt r) &&
     encodable (FinishedAt r)
  then Some (print (json_record r)) else None.

(** ** Decoding of records *)

Definition set_options (f : string) (v : json) (o : QueryOptions) : option QueryOptions :=
  let '(mkQueryOptions timeout mode ttl key fmt backend) := o in
  if bool_decide (f = "timeout") then
    (fun x => mkQueryOptions x mode ttl key fmt backend) <$> decode_int64 v timeout
  else if bool_decide (f = "mode") then
    (fun x => mkQueryOptions timeout x ttl key fmt backend) <$> decode_string v mode
  else if bool_decide (f = "result_ttl") then
    (fun x => mkQueryOptions timeout mode x key fmt backend) <$> decode_int64 v ttl
  else if bool_decide (f = "idempotency_key") then
    (fun x => mkQueryOptions timeout mode ttl x fmt backend) <$> decode_string v key
  else if bool_decide (f = "result_format") then
    (fun x => mkQueryOptions timeout mode ttl key x backend) <$> decode_string v fmt
  else
    (fun x => mkQueryOptions timeout mode ttl key fmt x) <$> decode_string v backend.

Definition set_stats (f : string) (v : json) (s : QueryStats) : option QueryStats :=
  let '(mkQueryStats rows bytes db store total) := s in
  if bool_decide (f = "rows_read") then
    (fun x => mkQueryStats x bytes db store total) <$> decode_int64 v rows
  else if bool_decide (f = "bytes_written") then
    (fun x => mkQueryStats rows x db store total) <$> decode_int64 v bytes
  else if bool_decide (f = "db_exec_duration") then
    (fun x => mkQueryStats rows bytes x store total) <$> decode_int64 v db
  else if bool_decide (f = "storage_write_duration") then
    (fun x => mkQueryStats rows bytes db x total) <$> decode_int64 v store
  else
    (fun x => mkQueryStats rows bytes db store x) <$> decode_int64 v total.

Definition set_error (f : string) (v : json) (e : QueryError) : option QueryError :=
  let '(mkQueryError code message retryable) := e in
  if bool_decide (f = "code") then
    (fun x => mkQueryError (QueryErrorCode_of_string x) message retryable) <$>
      decode_string v (QueryErrorCode_string code)
  else if bool_decide (f = "message") then
    (fun x => mkQueryError code x retryable) <$> decode_string v message
  else
    (fun x => mkQueryError code message x) <$> decode_bool v retryable.

Definition set_ref (f : string) (v : json) (r : ResultRef) : option ResultRef :=
  let '(mkResultRef backend locator size rows fmt sum) := r in
  if bool_decide (f = "backend") then
    (fun x => mkResultRef x locator size rows fmt sum) <$> decode_string v backend
  else if bool_decide (f = "locator") then
    (fun x => mkResultRef backend x size rows fmt sum) <$> decode_string v locator
  else if bool_decide (f = "size_bytes") then
    (fun x => mkResultRef backend locator x rows fmt sum) <$> decode_int64 v size
  else if bool_decide (f = "row_count") then
    (fun x => mkResultRef backend locator size x fmt sum) <$> decode_int64 v rows
  else if bool_decide (f = "format") then
    (fun x => mkResultRef backend locator size rows x sum) <$> decode_string v fmt
  else
    (fun x => mkResultRef backend locator size rows fmt x) <$> decode_string v sum.

Definition zero_options : QueryOptions := mkQueryOptions 0 "" 0 "" "" "".
Definition zero_error : QueryError := mkQueryError (ErrCodeOther "") "" false.
Definition zero_ref : ResultRef := mkResultRef "" "" 0 0 "" "".
Definition zero_record : QueryRecord :=
  mkQueryRecord "" "" "" zero_options (StateOther "") "" 0 0 0 None zero_stats None "" 0 "".

Definition decode_options := decode_struct options_fields set_options.
Definition decode_stats := decode_struct stats_fields set_stats.
Definition decode_error := decode_struct error_fields set_error.
Definition decode_ref := decode_struct ref_fields set_ref.

Definition set_record (f : string) (v : json) (r : QueryRecord) : option QueryRecord :=
  let '(mkQueryRecord id db sql opts st owner created started finished err stats res key lease subj) := r in
  if bool_decide (f = "id") then
    (fun x => mkQueryRecord x db sql opts st owner created started finished err stats res key lease subj)
      <$> decode_string v id
  else if bool_decide (f = "database_id") then
    (fun x => mkQueryRecord id x sql opts st owner created started finished err stats res key lease subj)
      <$> decode_string v db
  else if bool_decide (f = "sql") then
    (fun x => mkQueryRecord id db x opts st owner created started finished err stats res key lease subj)
      <$> decode_string v sql
  else if bool_decide (f = "options") then
    (fun x => mkQueryRecord id db sql x st owner created started finished err stats res key lease subj)
      <$> decode_options v opts
  else if bool_decide (f = "state") then
    (fun x => mkQueryRecord id db sql opts (QueryState_of_string x) owner created started finished err
                stats res key lease subj) <$> decode_string v (QueryState_string st)
  else if bool_decide (f = "owner_instance_id") then
    (fun x => mkQueryRecord id db sql opts st x created started finished err stats res key lease subj)
      <$> decode_string v owner
  else if bool_decide (f = "created_at") then
    (fun x => mkQueryRecord id db sql opts st owner x started finished err stats res key lease subj)
      <$> decode_time v created
  else if bool_decide (f = "started_at") then
    (fun x => mkQueryRecord id db sql opts st owner created x finished err stats res key lease subj)
      <$> decode_time v started
  else if bool_decide (f = "finished_at") then
    (fun x => mkQueryRecord id db sql opts st owner created started x err stats res key lease subj)
      <$> decode_time v finished
  else if bool_decide (f = "error") then
    (fun x => mkQueryRecord id db sql opts st owner created started finished x stats res key lease subj)
      <$> decode_ptr decode_error zero_error v err
  else if bool_decide (f = "stats") then
    (fun x => mkQueryRecord id db sql opts st owner created started finished err x res key lease subj)
      <$> decode_stats v stats
  else if bool_decide (f = "result") then
    (fun x => mkQueryRecord id db sql opts st owner created started finished err stats x key lease subj)
      <$> decode_ptr decode_ref zero_ref v res
  else if bool_decide (f = "idempotency_key") then
    (fun x => mkQueryRecord id db sql opts st owner created started finished err stats res x lease subj)
      <$> decode_string v key
  else
    (fun x => mkQueryRecord id db sql opts st owner created started finished err stats res key lease x)
      <$> decode_string v subj.

Definition decode_record := decode_struct record_fields set_record.

(** [json.Unmarshal(data, &rec)] into a fresh record. *)
Definition unmarshal_record (data : bytes) : option QueryRecord :=
  v ← parse data; decode_record v zero_record.

(** ** A stored record reads back *)

(** What a JSON document can carry: text that is UTF-8, integers of 64 bits,
    instants of four-digit years, and the named states and codes in their named
    form. *)
Definition text_ok (s : string) : Prop := is_utf8 (bytes_of s).

Definition time_ok (t : time) : Prop :=
  t = zero_time \/ (Z.abs (zone t) < 1440 /\ year_in_range (zone t) t = true).

Definition options_ok (o : QueryOptions) : Prop :=
  is_int64 (Timeout o) /\ is_int64 (ResultTTL o) /\
  text_ok (Mode o) /\ text_ok (opt_IdempotencyKey o) /\ text_ok (ResultFormat o) /\
  text_ok (StorageBackend o).

Definition stats_ok (s : QueryStats) : Prop :=
  is_int64 (RowsRead s) /\ is_int64 (BytesWritten s) /\ is_int64 (DBExecDuration s) /\
  is_int64 (StorageWriteDuration s) /\ is_int64 (TotalDuration s).

Definition error_ok (e : QueryError) : Prop :=
  QueryErrorCode_of_string (QueryErrorCode_string (Code e)) = Code e /\
  text_ok (QueryErrorCode_string (Code e)) /\ text_ok (Message e).

Definition ref_ok (r : ResultRef) : Prop :=
  text_ok (Backend r) /\ text_ok (Locator r) /\ is_int64 (SizeBytes r) /\ is_int64 (RowCount r) /\
  text_ok (Format r) /\ text_ok (Checksum r).

Definition opt_ok {A} (P : A -> Prop) (o : option A) : Prop :=
  match o with Some a => P a | None => True end.

Record record_ok (r : QueryRecord) : Prop := {
  ro_text : text_ok (ID r) /\ text_ok (DatabaseID r) /\ text_ok (SQL r) /\
            text_ok (OwnerInstanceID r) /\ text_ok (IdempotencyKey r) /\ text_ok (Subject r);
  ro_state : QueryState_of_string (QueryState_string (rec_State r)) = rec_State r /\
             text_ok (QueryState_string (rec_State r));
  ro_created : Z.abs (zone (CreatedAt r)) < 1440 /\
               year_in_range (zone (CreatedAt r)) (CreatedAt r) = true;
  ro_times : time_ok (StartedAt r) /\ time_ok (FinishedAt r);
  ro_options : options_ok (rec_Options r);
  ro_stats : stats_ok (Stats r);
  ro_error : opt_ok error_ok (rec_Error r);
  ro_result : opt_ok ref_ok (rec_Result r)
}.

(** *** Tokens *)

Lemma decode_json_string s cur : text_ok s -> decode_string (json_string s) cur = Some s.
Proof. intros H. unfold json_string. simpl. by rewrite unquote_quote, string_of_bytes_of. Qed.

Lemma decode_json_int z cur : is_int64 z -> decode_int64 (json_int z) cur = Some z.
Proof. apply parse_FormatInt. Qed.

Lemma decode_json_time t cur :
  Z.abs (zone t) < 1440 -> year_in_range (zone t) t = true -> decode_time (json_time t) cur = Some t.
Proof. intros Hz Hy. simpl. by rewrite parse_format_rfc3339. Qed.

Lemma decode_member {A} fields (set : string -> json -> A -> option A) name v ms a :
  find_field fields (unquote (quote (bytes_of name))) = Some name ->
  decode_members fields set (member name v ++ ms) a =
    (a ← set name v a; decode_members fields set ms a).
Proof. intros Hf. simpl. by rewrite Hf. Qed.

Lemma decode_last {A} fields (set : string -> json -> A -> option A) name v a :
  find_field fields (unquote (quote (bytes_of name))) = Some name ->
  decode_members fields set (member name v) a = set name v a.
Proof. intros Hf. simpl. rewrite Hf. by destruct (set name v a). Qed.

Lemma decode_if {A} fields (set : string -> json -> A -> option A) b name v ms a a' :
  find_field fields (unquote (quote (bytes_of name))) = Some name ->
  (b = true -> set name v a = Some a') -> (b = false -> a' = a) ->
  decode_members fields set (member_if b name v ++ ms) a = decode_members fields set ms a'.
Proof.
  intros Hf Ht Hn. destruct b; cbn [member_if app]; [|by rewrite Hn].
  rewrite decode_member by done. by rewrite Ht.
Qed.

Lemma wf_json_string s : wf (json_string s).
Proof. apply wf_raw_quote, bytes_of_range. Qed.

Lemma digits_fuel_head fuel z b l :
  0 < z < 2 ^ (Z.of_nat fuel + 1) -> digits_fuel fuel z = b :: l -> b <> 48.
Proof.
  revert z b l. induction fuel as [|fuel IH]; intros z b l Hz; simpl;
    destruct (Z.ltb_spec z 10); [intros [= <- _]; lia|done|intros [= <- _]; lia|].
  rewrite Nat2Z.inj_succ in Hz.
  replace (Z.succ (Z.of_nat fuel) + 1) with (Z.succ (Z.of_nat fuel + 1)) in Hz by lia.
  rewrite Z.pow_succ_r in Hz by lia.
  assert (1 <= z / 10) by (apply Z.div_le_lower_bound; lia).
  assert (z / 10 < 2 ^ (Z.of_nat fuel + 1)) by (apply Z.div_lt_upper_bound; lia).
  destruct (digits_fuel_spec fuel (z / 10)) as (_ & Hne & _); [lia|].
  destruct (digits_fuel fuel (z / 10)) as [|c r] eqn:Hd; [done|].
  simpl. intros [= <- _]. by apply (IH (z / 10) c r); [lia|].
Qed.

Lemma scan_int_digits l :
  Forall (fun b => is_digit b = true) l -> scan_number NInt l = Some (l, []).
Proof. induction 1 as [|b l Hb _ IH]; [done|]. simpl. by rewrite Hb, IH. Qed.

Lemma scan_digits st z :
  st = NStart \/ st = NNeg -> 0 <= z -> scan_number st (digits z) = Some (digits z, []).
Proof.
  intros Hst Hz. destruct (Z.eq_dec z 0) as [->|Hne]; [by destruct Hst as [-> | ->]|].
  destruct (digits_spec z Hz) as (_ & Hnil & Hd). destruct (digits z) as [|b l] eqn:He; [done|].
  assert (b <> 48) as Hb.
  { refine (digits_fuel_head _ z b l _ He). rewrite Z2Nat.id by apply Z.log2_nonneg.
    split; [lia|]. apply Z.log2_spec. lia. }
  apply Forall_cons in Hd as [Hb' Hl]. pose proof Hb' as Hr. apply is_digit_range in Hr.
  destruct Hst as [-> | ->]; simpl; rewrite ?(proj2 (Z.eqb_neq b 45)) by lia;
    rewrite (proj2 (Z.eqb_neq b 48)) by done; by rewrite Hb', scan_int_digits.
Qed.

Lemma wf_json_int z : wf (json_int z).
Proof.
  unfold json_int, FormatInt. simpl. unfold wf_num. destruct (Z.ltb_spec z 0).
  - simpl. rewrite scan_digits; [done|by right|lia].
  - apply scan_digits; [by left|lia].
Qed.

Definition plain (b : Z) : Prop := 32 <= b /\ b <> 34 /\ b <> 92.

Lemma wf_raw_plain l : Forall plain l -> wf_raw l.
Proof.
  intros Hl. assert (passes l) as Hp.
  { induction Hl as [|b l (? & ? & ?) _ IH]; [by apply passes_wide|].
    apply (passes_app [b]); [by apply passes_plain|done]. }
  unfold wf_raw. rewrite Hp. simpl. by rewrite app_nil_r.
Qed.

Lemma digits_plain l : Forall (fun b => is_digit b = true) l -> Forall plain l.
Proof. intros H. eapply Forall_impl; [exact H|]. intros b Hb%is_digit_range. unfold plain. lia. Qed.

Lemma pad_plain k z : Forall plain (pad k z).
Proof. apply digits_plain, pad_digits. Qed.

Ltac plain_bytes := repeat constructor; unfold plain; lia.

Lemma year_text_plain y : Forall plain (year_text y).
Proof.
  apply Forall_app. split; [destruct (y <? 0); plain_bytes|].
  destruct (_ <? _); [apply pad_plain|]. apply digits_plain, digits_spec. lia.
Qed.

Lemma fraction_plain ns : Forall plain (fraction ns).
Proof.
  unfold fraction. destruct (_ =? 0); constructor; [unfold plain; lia|].
  apply digits_plain, trim_zeros_digits, pad_digits.
Qed.

Lemma zone_text_plain zn : Forall plain (zone_text zn).
Proof.
  unfold zone_text. destruct (zn =? 0); [plain_bytes|].
  constructor; [destruct (zn <? 0); unfold plain; lia|].
  repeat first [apply pad_plain|apply Forall_app; split|plain_bytes].
Qed.

Lemma format_rfc3339_plain zn t : Forall plain (format_rfc3339 zn t).
Proof.
  unfold format_rfc3339. destruct (civil _) as [[y m] d].
  repeat first [apply pad_plain|apply year_text_plain|apply fraction_plain|apply zone_text_plain
               |apply Forall_app; split|plain_bytes].
Qed.

Lemma wf_json_time t : wf (json_time t).
Proof. apply wf_raw_plain, format_rfc3339_plain. Qed.

(** An object is well formed if its members are, and one level deeper. *)
Definition members_ok (h : Z) (ms : list (bytes * json)) : Prop :=
  Forall (fun m => wf_raw m.1 /\ wf m.2 /\ 0 <= height m.2 <= h) ms.

Lemma members_ok_app h ms1 ms2 :
  members_ok h ms1 -> members_ok h ms2 -> members_ok h (ms1 ++ ms2).
Proof. intros H1 H2. by apply Forall_app. Qed.

Lemma member_ok h name v : wf v -> 0 <= height v <= h -> members_ok h (member name v).
Proof. intros Hv Hh. constructor; [|constructor]. split_and!; [apply wf_raw_quote, bytes_of_range|done|simpl; lia..]. Qed.

Lemma member_if_ok h b name v : (b = true -> wf v /\ 0 <= height v <= h) -> members_ok h (member_if b name v).
Proof. intros H. destruct b; [|constructor]. destruct (H eq_refl). by apply member_ok. Qed.

Lemma wf_JObj h ms : 0 <= h -> members_ok h ms -> wf (JObj ms) /\ 0 <= height (JObj ms) <= h + 1.
Proof.
  intros Hh Hms. simpl. split.
  - induction Hms as [|m ms (? & ? & _) _ IH]; simpl; auto.
  - induction Hms as [|m ms (_ & _ & ?) _ IH]; simpl in *; lia.
Qed.

(** A string, a number, a time or a flag. *)
Definition leaf (v : json) : Prop := wf v /\ height v = 0.

Lemma leaf_string s : leaf (json_string s).
Proof. split; [apply wf_json_string|done]. Qed.
Lemma leaf_int z : leaf (json_int z).
Proof. split; [apply wf_json_int|done]. Qed.
Lemma leaf_time t : leaf (json_time t).
Proof. split; [apply wf_json_time|done]. Qed.
Lemma leaf_bool b : leaf (JBool b).
Proof. done. Qed.

#[local] Hint Resolve leaf_string leaf_int leaf_time leaf_bool : dbb.

Lemma member_leaf h name v : leaf v -> 0 <= h -> members_ok h (member name v).
Proof. intros [Hw Hh] Hle. apply member_ok; [done|]. rewrite Hh. lia. Qed.

Ltac split_members :=
  lazymatch goal with
  | |- members_ok _ (_ ++ _) => apply members_ok_app; [split_members|split_members]
  | |- members_ok _ (member _ _) => first [apply member_leaf; [solve [auto with dbb]|lia]|idtac]
  | |- _ => idtac
  end.

Lemma json_options_ok o : wf (json_options o) /\ 0 <= height (json_options o) <= 1.
Proof. apply (wf_JObj 0); [lia|]. split_members. Qed.

Lemma json_stats_ok s : wf (json_stats s) /\ 0 <= height (json_stats s) <= 1.
Proof. apply (wf_JObj 0); [lia|]. split_members. Qed.

Lemma json_error_ok e : wf (json_error e) /\ 0 <= height (json_error e) <= 1.
Proof. apply (wf_JObj 0); [lia|]. split_members. Qed.

Lemma json_ref_ok r : wf (json_ref r) /\ 0 <= height (json_ref r) <= 1.
Proof. apply (wf_JObj 0); [lia|]. split_members. Qed.

Lemma json_record_ok r : wf (json_record r) /\ 0 <= height (json_record r) <= 2.
Proof.
  apply (wf_JObj 1); [lia|]. split_members.
  - apply member_ok; apply json_options_ok.
  - apply member_if_ok. intros _. by split; [apply wf_json_time|].
  - apply member_if_ok. intros _. by split; [apply wf_json_time|].
  - apply member_if_ok. destruct (rec_Error r); [|done]. intros _. apply json_error_ok.
  - apply member_ok; apply json_stats_ok.
  - apply member_if_ok. destruct (rec_Result r); [|done]. intros _. apply json_ref_ok.
  - apply member_if_ok. intros _. by split; [apply wf_json_string|].
  - apply member_if_ok. intros _. by split; [apply wf_json_string|].
Qed.

(** *** Values *)

(** The names are concrete, so that the struct decoders compute. *)
Ltac decode_leaves :=
  repeat (simpl; first [rewrite parse_FormatInt by done
                       |rewrite unquote_quote by done; rewrite string_of_bytes_of]); simpl.

Lemma decode_json_options o cur : options_ok o -> decode_options (json_options o) cur = Some o.
Proof. intros (? & ? & ? & ? & ? & ?). destruct o, cur. by decode_leaves. Qed.

Lemma decode_json_stats s cur : stats_ok s -> decode_stats (json_stats s) cur = Some s.
Proof. intros (? & ? & ? & ? & ?). destruct s, cur. by decode_leaves. Qed.

Lemma decode_json_error e cur : error_ok e -> decode_error (json_error e) cur = Some e.
Proof. intros (Hc & ? & ?). destruct e, cur. simpl in Hc. decode_leaves. by rewrite Hc. Qed.

Lemma decode_json_ref r cur : ref_ok r -> decode_ref (json_ref r) cur = Some r.
Proof. intros (? & ? & ? & ? & ? & ?). destruct r, cur. by decode_leaves. Qed.

#[local] Arguments decode_options : simpl never.
#[local] Arguments decode_stats : simpl never.
#[local] Arguments decode_error : simpl never.
#[local] Arguments decode_ref : simpl never.
#[local] Arguments decode_time : simpl never.
#[local] Arguments decode_ptr : simpl never.
#[local] Arguments decode_string : simpl never.
#[local] Arguments json_options : simpl never.
#[local] Arguments json_stats : simpl never.
#[local] Arguments json_error : simpl never.
#[local] Arguments json_ref : simpl never.
#[local] Arguments json_time : simpl never.
#[local] Arguments json_string : simpl never.
#[local] Arguments member_if : simpl never.

Lemma decode_ptr_some {A} dec zero v (a : A) cur :
  v <> JNull -> dec v (default zero cur) = Some a -> decode_ptr dec zero v cur = Some (Some a).
Proof. intros Hv Hd. unfold decode_ptr. destruct v; try done; by rewrite Hd. Qed.

(** Chooses the branch of a field assignment; the names are concrete. *)
Ltac pick_field :=
  cbv beta iota; repeat first [rewrite bool_decide_eq_true_2 by done|rewrite bool_decide_eq_false_2 by done].

Ltac computed := cbn [fmap option_fmap option_map mbind option_bind].

(** Reads the next member with the round trip of its value. *)
Ltac field lem :=
  rewrite decode_member by (vm_compute; reflexivity); unfold set_record at 2; pick_field;
  rewrite lem by done; computed.

(** The same for a member that is left out when it is zero; [r] is the record
    after it. *)
Ltac field_if name r :=
  rewrite (decode_if _ _ _ name _ _ _ r); [|vm_compute; reflexivity|intros Hb; unfold set_record; pick_field|].

Lemma zero_of t : negb (IsZero t) = false -> t = 0.
Proof. unfold IsZero. intros H. bprop. done. Qed.

Lemma empty_of s : nonempty s = false -> s = "".
Proof. unfold nonempty. intros H. bprop. done. Qed.

Lemma decode_json_record r :
  record_ok r -> decode_record (json_record r) zero_record = Some (stored r).
Proof.
  intros [(? & ? & ? & ? & ? & ?) [Hst ?] [? ?] [Hs Hf] ? ? He Hr].
  destruct r as [id db sql opts st owner created started finished err stats res key lease subj].
  cbn [ID DatabaseID SQL rec_Options rec_State OwnerInstanceID CreatedAt StartedAt FinishedAt rec_Error
       Stats rec_Result IdempotencyKey Subject] in *.
  unfold decode_record, json_record, decode_struct, zero_record.
  cbn [ID DatabaseID SQL rec_Options rec_State OwnerInstanceID CreatedAt StartedAt FinishedAt rec_Error
       Stats rec_Result IdempotencyKey Subject].
  do 3 field decode_json_string. field decode_json_options. field decode_json_string. rewrite Hst.
  field decode_json_string. field decode_json_time.
  field_if "started_at" (mkQueryRecord id db sql opts st owner created started 0 None zero_stats None "" 0 "").
  2: { destruct Hs as [-> |[? ?]]; [done|]. by rewrite decode_json_time. }
  2: { intros Hz. by rewrite (zero_of started). }
  field_if "finished_at" (mkQueryRecord id db sql opts st owner created started finished None zero_stats None "" 0 "").
  2: { destruct Hf as [-> |[? ?]]; [done|]. by rewrite decode_json_time. }
  2: { intros Hz. by rewrite (zero_of finished). }
  field_if "error" (mkQueryRecord id db sql opts st owner created started finished err zero_stats None "" 0 "").
  2: { destruct err as [e|]; [|done].
       by rewrite (decode_ptr_some _ _ _ e) by first [done|by apply decode_json_error]. }
  2: { by destruct err. }
  field decode_json_stats.
  field_if "result" (mkQueryRecord id db sql opts st owner created started finished err stats res "" 0 "").
  2: { destruct res as [e|]; [|done].
       by rewrite (decode_ptr_some _ _ _ e) by first [done|by apply decode_json_ref]. }
  2: { by destruct res. }
  field_if "idempotency_key" (mkQueryRecord id db sql opts st owner created started finished err stats res key 0 "").
  2: { by rewrite decode_json_string. }
  2: { intros Hk. by rewrite (empty_of key). }
  rewrite <- (app_nil_r (member_if _ "subject" _)).
  field_if "subject" (mkQueryRecord id db sql opts st owner created started finished err stats res key 0 subj).
  - done.
  - by rewrite decode_json_string.
  - intros Hk. by rewrite (empty_of subj).
Qed.

(** A record the Redis store writes reads back as it was: encoding a record
    whose text is UTF-8, whose integers fit 64 bits and whose instants have
    four-digit years succeeds, and decoding the document gives every field back,
    whatever the location of the process - but for the lease deadline, which is
    not part of the document. *)
Theorem record_roundtrip r :
  record_ok r ->
  exists data, marshal_record r = Some data /\ unmarshal_record data = Some (stored r).
Proof.
  intros Hok. exists (print (json_record r)). split.
  - destruct Hok as [_ _ [_ Hc] [Hs Hf] _ _ _ _]. unfold marshal_record. rewrite Hc.
    assert (forall t, time_ok t -> encodable t = true) as He.
    { intros t [-> |[_ Ht]]; unfold encodable; [done|]. by rewrite Ht, orb_true_r. }
    by rewrite !He.
  - destruct (json_record_ok r) as [Hwf Hh]. unfold unmarshal_record.
    rewrite parse_print by (done || unfold maxNestingDepth; lia). simpl. by apply decode_json_record.
Qed.

(** ** Control messages *)

Definition ControlType_string (t : ControlType) : string :=
  match t with
  | ControlStopQuery => "STOP_QUERY"
  | ControlQueryEvent => "QUERY_EVENT"
  | ControlOther s => s
  end.

Definition ControlType_of_string (s : string) : ControlType :=
  if bool_decide (s = "STOP_QUERY") then ControlStopQuery
  else if bool_decide (s = "QUERY_EVENT") then ControlQueryEvent
  else ControlOther s.

Definition payload_fields : list string := ["state"; "stats"; "error"].
Definition control_fields : list string := ["type"; "query_id"; "sender_id"; "event"].

Definition json_payload (p : QueryEventPayload) : json :=
  JObj (member "state" (json_string (pl_State p)) ++
        member "stats" (json_stats (pl_Stats p)) ++
        member_if (is_some (pl_Error p)) "error" (json_opt json_error (pl_Error p))).

Definition json_control (m : ControlMsg) : json :=
  JObj (member "type" (json_string (ControlType_string (msg_Type m))) ++
        member "query_id" (json_string (msg_QueryID m)) ++
        member "sender_id" (json_string (msg_SenderID m)) ++
        member_if (is_some (msg_Event m)) "event" (json_opt json_payload (msg_Event m))).

Definition set_payload (f : string) (v : json) (p : QueryEventPayload) : option QueryEventPayload :=
  let '(mkPayload st stats err) := p in
  if bool_decide (f = "state") then (fun x => mkPayload x stats err) <$> decode_string v st
  else if bool_decide (f = "stats") then (fun x => mkPayload st x err) <$> decode_stats v stats
  else (fun x => mkPayload st stats x) <$> decode_ptr decode_error zero_error v err.

Definition zero_payload : QueryEventPayload := mkPayload "" zero_stats None.

Definition decode_payload := decode_struct payload_fields set_payload.

Definition set_control (f : string) (v : json) (m : ControlMsg) : option ControlMsg :=
  let '(mkControlMsg t id sender ev) := m in
  if bool_decide (f = "type") then
    (fun x => mkControlMsg (ControlType_of_string x) id sender ev) <$> decode_string v (ControlType_string t)
  else if bool_decide (f = "query_id") then
    (fun x => mkControlMsg t x sender ev) <$> decode_string v id
  else if bool_decide (f = "sender_id") then
    (fun x => mkControlMsg t id x ev) <$> decode_string v sender
  else (fun x => mkControlMsg t id sender x) <$> decode_ptr decode_payload zero_payload v ev.

Definition zero_control : ControlMsg := mkControlMsg (ControlOther "") "" "" None.

Definition marshal_control (m : ControlMsg) : bytes := print (json_control m).

Definition unmarshal_control (data : bytes) : option ControlMsg :=
  v ← parse data; decode_struct control_fields set_control v zero_control.

Record control_ok (m : ControlMsg) : Prop := {
  co_type : ControlType_of_string (ControlType_string (msg_Type m)) = msg_Type m /\
            text_ok (ControlType_string (msg_Type m));
  co_ids : text_ok (msg_QueryID m) /\ text_ok (msg_SenderID m);
  co_event : opt_ok (fun p => text_ok (pl_State p) /\ stats_ok (pl_Stats p) /\
                              opt_ok error_ok (pl_Error p)) (msg_Event m)
}.

Lemma json_payload_ok p : wf (json_payload p) /\ 0 <= height (json_payload p) <= 2.
Proof.
  apply (wf_JObj 1); [lia|]. split_members.
  - apply member_ok; apply json_stats_ok.
  - apply member_if_ok. destruct (pl_Error p); [|done]. intros _. apply json_error_ok.
Qed.

Lemma json_control_ok m : wf (json_control m) /\ 0 <= height (json_control m) <= 3.
Proof.
  apply (wf_JObj 2); [lia|]. split_members. apply member_if_ok. destruct (msg_Event m); [|done].
  intros _. apply json_payload_ok.
Qed.

Lemma decode_json_payload p cur :
  text_ok (pl_State p) -> stats_ok (pl_Stats p) -> opt_ok error_ok (pl_Error p) ->
  pl_Error cur = None -> decode_payload (json_payload p) cur = Some p.
Proof.
  intros ? ? He Hc. destruct p as [st stats err], cur as [st' stats' err'].
  cbn [pl_State pl_Stats pl_Error] in *. subst err'.
  unfold decode_payload, json_payload, decode_struct. cbn [pl_State pl_Stats pl_Error].
  rewrite decode_member by (vm_compute; reflexivity). unfold set_payload at 2. pick_field.
  rewrite decode_json_string by done. computed.
  rewrite decode_member by (vm_compute; reflexivity). unfold set_payload at 2. pick_field.
  rewrite decode_json_stats by done. computed. rewrite <- (app_nil_r (member_if _ _ _)).
  rewrite (decode_if _ _ _ "error" _ _ _ (mkPayload st stats err)); [done|vm_compute; reflexivity| |by destruct err].
  intros _. unfold set_payload. pick_field. destruct err as [e|]; [|done].
  by rewrite (decode_ptr_some _ _ _ e) by first [done|by apply decode_json_error].
Qed.

(** A control message the store publishes is the one the subscribers receive. *)
Theorem control_roundtrip m : control_ok m -> unmarshal_control (marshal_control m) = Some m.
Proof.
  intros [[Ht ?] [? ?] He]. unfold unmarshal_control, marshal_control.
  destruct (json_control_ok m) as [Hwf Hh].
  rewrite parse_print by (done || unfold maxNestingDepth; lia). cbn [mbind option_bind].
  destruct m as [t id sender ev]. cbn [msg_Type msg_QueryID msg_SenderID msg_Event] in *.
  unfold json_control, decode_struct, zero_control. cbn [msg_Type msg_QueryID msg_SenderID msg_Event].
  do 3 (rewrite decode_member by (vm_compute; reflexivity); unfold set_control at 2; pick_field;
        rewrite decode_json_string by done; computed).
  rewrite Ht, <- (app_nil_r (member_if _ _ _)).
  rewrite (decode_if _ _ _ "event" _ _ _ (mkControlMsg t id sender ev));
    [done|vm_compute; reflexivity| |by destruct ev].
  intros _. unfold set_control. pick_field. destruct ev as [p|]; [|done].
  destruct He as (? & ? & ?).
  by rewrite (decode_ptr_some _ _ _ p) by first [done|by apply decode_json_payload].
Qed.

End Times.

(** ** Examples *)

Definition demo_record : QueryRecord :=
  mkQueryRecord "q-1" "orders" "SELECT 'ü' <> x" (mkQueryOptions (30 * Second) "async" 0 "k" "csv" "fs")
    StateFailed "i-1" (63800000000 * Second + 5) (63800000001 * Second) zero_time
    (Some (mkQueryError ErrCodeQueryTimeout "late" true)) (mkQueryStats 10 (2 ^ 40) 1 2 (-3))
    (Some (mkResultRef "fs" "ab/q-1" 12 3 "csv" "")) "k" (63800000002 * Second) "alice".

Lemma text_ok_bool s :
  forallb is_scalar (decode (bytes_of s)) && bool_decide (encode (decode (bytes_of s)) = bytes_of s) = true ->
  text_ok s.
Proof.
  intros [H1 H2%bool_decide_eq_true]%andb_true_iff. exists (decode (bytes_of s)). split; [|done].
  apply List.Forall_forall. by apply forallb_forall.
Qed.

Lemma demo_record_ok : record_ok (fun _ => 120) demo_record.
Proof.
  split; unfold options_ok, stats_ok; simpl; repeat split; try done;
    try (apply text_ok_bool; vm_compute; reflexivity).
  - right. split; [simpl; lia|vm_compute; reflexivity].
  - by left.
Qed.
