(* ===== verification/Rows.v ===== *)
(** * Result rows as text

    [internal/storage/encoder.go]: the values a driver scans into a row, the text
    of a value ([toString]), and a row as a CSV record or as a line of JSON - with
    what the sources use of [encoding/csv] and [encoding/json]. *)

From S2P Require Import Prelude Domain Utf8 Text Json RecordJson.
From Stdlib Require Import Floats.SpecFloat.

Set Warnings "-register-all".

(** ** Values *)

Inductive int_kind := KInt | KInt8 | KInt16 | KInt32 | KInt64.

(** The dynamic type of an [any] a driver may hand out. A time carries the offset
    of its location in minutes; [VOther] is a type of a driver's own. *)
Inductive cell (other : Type) :=
| VNil
| VBool (b : bool)
| VInt (k : int_kind) (z : Z)
| VUint (k : int_kind) (z : Z)
| VFloat32 (f : spec_float)
| VFloat64 (f : spec_float)
| VString (s : string)
| VBytes (s : string)
| VTime (zone : Z) (t : time)
| VOther (o : other).
Arguments VNil {other}.
Arguments VBool {other} b.
Arguments VInt {other} k z.
Arguments VUint {other} k z.
Arguments VFloat32 {other} f.
Arguments VFloat64 {other} f.
Arguments VString {other} s.
Arguments VBytes {other} s.
Arguments VTime {other} zone t.
Arguments VOther {other} o.

(** The texts this development takes from elsewhere: the shortest decimal forms
    of floating-point numbers, and how a driver's own type prints ([%v]) and
    marshals. [Marshal] gives compact, valid JSON or an error. *)
Class ValueText (other : Type) := {
  format_float64 : spec_float -> bytes;
  format_float32 : spec_float -> bytes;
  marshal_float64 : spec_float -> option bytes;
  marshal_float32 : spec_float -> option bytes;
  sprint : other -> bytes;
  marshal_other : other -> option json;
  marshal_float64_num f lit : marshal_float64 f = Some lit -> wf_num lit;
  marshal_float32_num f lit : marshal_float32 f = Some lit -> wf_num lit;
  marshal_other_wf o v : marshal_other o = Some v -> wf v /\ height v < maxNestingDepth
}.

Section Rows.
Context {other : Type} `{!ValueText other}.

Definition toString (v : cell other) : bytes :=
  match v with
  | VNil => []
  | VString s | VBytes s => bytes_of s
  | VInt _ z | VUint _ z => FormatInt z
  | VFloat64 f => format_float64 f
  | VBool b => if b then lit_true else lit_false
  | VTime zone t => format_rfc3339 zone t
  | VFloat32 f => format_float32 f
  | VOther o => sprint o
  end.

(** ** CSV *)

(** [fieldNeedsQuotes]. *)
Definition starts_with_space (f : bytes) : bool :=
  match f with
  | b :: _ => is_ascii_space b || match drop_one wide_spaces f with Some _ => true | None => false end
  | [] => false
  end.

Definition csv_special (b : Z) : bool := (b =? 10) || (b =? 13) || (b =? 34) || (b =? 44).

Definition fieldNeedsQuotes (f : bytes) : bool :=
  if bool_decide (f = []) then false
  else if bool_decide (f = [92; 46]) then true
  else existsb csv_special f || starts_with_space f.

Definition double_quotes (f : bytes) : bytes :=
  concat (map (fun b => if b =? 34 then [34; 34] else [b]) f).

Definition csv_field (f : bytes) : bytes :=
  if fieldNeedsQuotes f then [34] ++ double_quotes f ++ [34] else f.

(** [csv.Writer.Write]: the bytes of one record. *)
Fixpoint csv_fields (first : bool) (fs : list bytes) : bytes :=
  match fs with
  | [] => [10]
  | f :: fs => (if first then [] else [44]) ++ csv_field f ++ csv_fields false fs
  end.

Definition csv_record (fs : list bytes) : bytes := csv_fields true fs.

Definition csv_text (rows : list (list bytes)) : bytes := concat (map csv_record rows).

(** *** Reading CSV

    The grammar of RFC 4180 with records ended by a line feed; like the reader of
    [encoding/csv], it skips empty lines. *)

Inductive csv_state := CStart | CPlain | CQuoted | CClosed.

(** [field] and [row] are what has been read of the current record. *)
Fixpoint read_csv (st : csv_state) (field : bytes) (row : list bytes) (l : bytes)
  : option (list (list bytes)) :=
  match l with
  | [] =>
      match st with
      | CStart => if bool_decide (row = []) then Some [] else Some [row ++ [field]]
      | CQuoted => None
      | _ => Some [row ++ [field]]
      end
  | b :: l =>
      match st with
      | CStart =>
          if b =? 34 then read_csv CQuoted [] row l
          else if b =? 44 then read_csv CStart [] (row ++ [[]]) l
          else if b =? 10 then
            if bool_decide (row = []) then read_csv CStart [] [] l
            else cons (row ++ [[]]) <$> read_csv CStart [] [] l
          else read_csv CPlain [b] row l
      | CPlain =>
          if b =? 34 then None
          else if b =? 44 then read_csv CStart [] (row ++ [field]) l
          else if b =? 10 then cons (row ++ [field]) <$> read_csv CStart [] [] l
          else read_csv CPlain (field ++ [b]) row l
      | CQuoted =>
          if b =? 34 then read_csv CClosed field row l
          else read_csv CQuoted (field ++ [b]) row l
      | CClosed =>
          if b =? 34 then read_csv CQuoted (field ++ [34]) row l
          else if b =? 44 then read_csv CStart [] (row ++ [field]) l
          else if b =? 10 then cons (row ++ [field]) <$> read_csv CStart [] [] l
          else None
      end
  end.

Definition parse_csv (l : bytes) : option (list (list bytes)) := read_csv CStart [] [] l.

Lemma read_quoted f field row l :
  read_csv CQuoted field row (double_quotes f ++ l) = read_csv CQuoted (field ++ f) row l.
Proof.
  revert field. induction f as [|b f IH]; intros field; [by rewrite app_nil_r|].
  unfold double_quotes. cbn [map concat]. rewrite <- app_assoc. fold (double_quotes f).
  destruct (Z.eqb_spec b 34) as [->|Hne].
  - simpl. rewrite IH. by rewrite <- app_assoc.
  - cbn [app read_csv]. rewrite (proj2 (Z.eqb_neq b 34)) by done. rewrite IH. by rewrite <- app_assoc.
Qed.

Lemma read_plain f field row l :
  existsb csv_special f = false ->
  read_csv CPlain field row (f ++ l) = read_csv CPlain (field ++ f) row l.
Proof.
  revert field. induction f as [|b f IH]; intros field; simpl; [by rewrite app_nil_r|].
  unfold csv_special at 1. rewrite !orb_false_iff. intros [[[[H10 _] H34] H44] Hf].
  rewrite H34, H44, H10, IH by done. by rewrite <- app_assoc.
Qed.

(** What follows a field: a comma or the end of the record. *)
Definition after_field (field : bytes) (row : list bytes) (b : Z) (l : bytes) :=
  if b =? 44 then read_csv CStart [] (row ++ [field]) l
  else cons (row ++ [field]) <$> read_csv CStart [] [] l.

Lemma read_field f row b l :
  b = 44 \/ b = 10 -> f <> [] \/ b = 44 \/ row <> [] ->
  read_csv CStart [] row (csv_field f ++ b :: l) = after_field f row b l.
Proof.
  intros Hb Hf. unfold csv_field. destruct (fieldNeedsQuotes f) eqn:Hq.
  - rewrite <- !app_assoc. simpl. rewrite read_quoted. simpl.
    by destruct Hb as [-> | ->].
  - unfold fieldNeedsQuotes in Hq. destruct f as [|c f].
    + simpl. destruct Hb as [-> | ->]; simpl; [done|].
      rewrite bool_decide_eq_false_2; [done|]. by destruct Hf as [?|[?|?]].
    + rewrite bool_decide_eq_false_2 in Hq by done. destruct (bool_decide _); [done|].
      apply orb_false_iff in Hq as [Hsp _]. pose proof Hsp as Hsp'.
      cbn [existsb] in Hsp. apply orb_false_iff in Hsp as [Hc Hfs].
      unfold csv_special in Hc. rewrite !orb_false_iff in Hc. destruct Hc as [[[H10 _] H34] H44].
      cbn [app read_csv]. rewrite H34, H44, H10, read_plain by done. cbn [app read_csv].
      by destruct Hb as [-> | ->].
Qed.

Lemma read_fields fs row l :
  fs <> [] -> (row = [] -> fs <> [[]]) ->
  read_csv CStart [] row (csv_fields true fs ++ l) =
    cons (row ++ fs) <$> read_csv CStart [] [] l.
Proof.
  revert row. induction fs as [|f fs IH]; intros row Hne Hblank; [done|]. cbn [csv_fields app].
  rewrite <- app_assoc. destruct fs as [|g fs].
  - cbn [csv_fields app]. rewrite read_field; [done|by right|].
    destruct f; [|by left]. right. right. intros ->. by apply Hblank.
  - cbn [csv_fields app]. rewrite read_field; [|by left|by right; left]. unfold after_field. simpl.
    specialize (IH (row ++ [f])). cbn [csv_fields app] in IH. rewrite IH; [by rewrite <- app_assoc|done|].
    intros H%app_eq_nil. by destruct H.
Qed.

(** A CSV result can be read back: the records [EncodeStream] writes are
    exactly the records a reader of the format gets, byte for byte in every field -
    quotes, separators, line breaks and leading spaces included - as long as no
    record is a single empty field, which is written as an empty line. *)
Theorem csv_roundtrip rows :
  Forall (fun fs => fs <> [] /\ fs <> [[]]) rows -> parse_csv (csv_text rows) = Some rows.
Proof.
  unfold parse_csv, csv_text. induction 1 as [|fs rows [Hne Hb] _ IH]; [done|].
  cbn [map concat]. change (csv_record fs) with (csv_fields true fs).
  rewrite read_fields by done. by rewrite IH.
Qed.

(** A row of one column whose value is empty or NULL is an empty line of the file:
    the reader skips it, and the file has fewer records than the row count the
    query reports. *)
Lemma empty_single_column_lost :
  csv_text [[bytes_of "name"]; [[]]] = bytes_of "name" ++ [10; 10] /\
  parse_csv (csv_text [[bytes_of "name"]; [toString VNil]; [bytes_of "x"]]) =
    Some [[bytes_of "name"]; [bytes_of "x"]].
Proof. by vm_compute. Qed.

(** ** JSON lines *)

(** [json.Marshal] of a value of the row map; a byte slice was made a string. *)
Definition cell_json (v : cell other) : option json :=
  match v with
  | VNil => Some JNull
  | VBool b => Some (JBool b)
  | VInt _ z | VUint _ z => Some (json_int z)
  | VFloat64 f => JNum <$> marshal_float64 f
  | VFloat32 f => JNum <$> marshal_float32 f
  | VString s | VBytes s => Some (json_string s)
  | VTime zone t =>
      if year_in_range zone t && (Z.abs zone <? 1440) then Some (JStr (format_rfc3339 zone t)) else None
  | VOther o => marshal_other o
  end.

(** The row map, kept in the order its keys are marshalled in; assigning a key
    again replaces its value. *)
Fixpoint assign (k : string) (v : cell other) (m : list (string * cell other))
  : list (string * cell other) :=
  match m with
  | [] => [(k, v)]
  | (k', v') :: m' =>
      match String.compare k k' with
      | Lt => (k, v) :: m
      | Eq => (k, v) :: m'
      | Gt => (k', v') :: assign k v m'
      end
  end.

Definition rowMap (columns : list string) (values : list (cell other)) : list (string * cell other) :=
  fold_left (fun m kv => assign kv.1 kv.2 m) (zip columns values) [].

Fixpoint marshal_members (m : list (string * cell other)) : option (list (bytes * json)) :=
  match m with
  | [] => Some []
  | (k, v) :: m => v ← cell_json v; ms ← marshal_members m; Some ((quote (bytes_of k), v) :: ms)
  end.

(** The line of a row, [None] when a value cannot be marshalled. *)
Definition json_row (columns : list string) (values : list (cell other)) : option json :=
  JObj <$> marshal_members (rowMap columns values).

Definition jsonl_line (columns : list string) (values : list (cell other)) : option bytes :=
  (fun v => print v ++ [10]) <$> json_row columns values.

Lemma assign_fresh k v m : k ∉ m.*1 -> assign k v m ≡ₚ (k, v) :: m.
Proof.
  induction m as [|[k' v'] m IH]; intros Hk; simpl; [done|].
  rewrite fmap_cons in Hk. apply not_elem_of_cons in Hk as [Hne Hk].
  destruct (String.compare k k') eqn:Hc; [|done|].
  - apply String.compare_eq_iff in Hc. done.
  - rewrite IH by done. apply Permutation_swap.
Qed.

Lemma assign_all_fresh l m :
  NoDup (m.*1 ++ l.*1) -> fold_left (fun m kv => assign kv.1 kv.2 m) l m ≡ₚ m ++ l.
Proof.
  revert m. induction l as [|[k v] l IH]; intros m Hnd; simpl; [by rewrite app_nil_r|].
  apply NoDup_app in Hnd as (Hm & Hd & Hl). rewrite fmap_cons in *. apply NoDup_cons in Hl as [Hk Hl].
  assert (k ∉ m.*1) as Hfresh by (intros Hin; apply (Hd _ Hin); by left).
  pose proof (assign_fresh k v m Hfresh) as Ha. rewrite IH.
  - rewrite Ha. simpl. by rewrite Permutation_middle.
  - rewrite Ha. simpl. apply NoDup_cons. split.
    + rewrite not_elem_of_app. done.
    + apply NoDup_app. split_and!; [done| |done]. intros x Hx Hin. apply (Hd x Hx). by right.
Qed.

(** With distinct column names the row map holds the row. *)
Lemma rowMap_perm columns values :
  NoDup columns -> length columns = length values -> rowMap columns values ≡ₚ zip columns values.
Proof.
  intros Hnd Hlen. unfold rowMap. rewrite assign_all_fresh; [done|]. simpl.
  by rewrite fst_zip by lia.
Qed.

Lemma cell_json_ok v j : cell_json v = Some j -> wf j /\ 0 <= height j < maxNestingDepth.
Proof.
  assert (forall j, 0 <= height j) as Hpos.
  { intros j'. induction j' as [| | | |vs IH|ms IH] using json_nested_ind; simpl; try lia.
    - assert (0 <= fold_right (fun v h => Z.max (height v) h) 0 vs); [|lia]. clear. induction vs; simpl; lia.
    - assert (0 <= fold_right (fun m h => Z.max (height m.2) h) 0 ms); [|lia]. clear. induction ms; simpl; lia. }
  destruct v as [|b|k z|k z|f|f|s|s|zone t|o]; simpl; intros H; simplify_eq/=;
    try (split; [first [done|apply wf_json_int|apply wf_json_string]|by unfold maxNestingDepth]).
  - apply fmap_Some in H as (lit & Hl & ->). split; [by apply marshal_float32_num in Hl|by simpl; unfold maxNestingDepth].
  - apply fmap_Some in H as (lit & Hl & ->). split; [by apply marshal_float64_num in Hl|by simpl; unfold maxNestingDepth].
  - destruct (_ && _); simplify_eq/=. split; [apply wf_raw_plain, format_rfc3339_plain|by unfold maxNestingDepth].
  - apply marshal_other_wf in H as [? ?]. split; [done|]. split; [apply Hpos|done].
Qed.

Lemma marshal_members_ok m ms :
  marshal_members m = Some ms ->
  members_ok (maxNestingDepth - 1) ms /\
  Forall2 (fun kv (jm : bytes * json) => jm.1 = quote (bytes_of kv.1) /\ cell_json kv.2 = Some jm.2) m ms.
Proof.
  revert ms. induction m as [|[k v] m IH]; intros ms; simpl.
  - intros [= <-]. split; constructor.
  - intros (j & Hj & H)%bind_Some. apply bind_Some in H as (ms' & Hms & [= <-]).
    destruct (IH _ Hms) as [Hok Hall]. pose proof (cell_json_ok _ _ Hj) as [Hw Hh]. split.
    + constructor; [|done]. simpl. split_and!; [apply wf_raw_quote, bytes_of_range|done|lia..].
    + by constructor.
Qed.

(** A line of a JSONL result ends with its only control character, a line feed. *)
Lemma jsonl_line_text columns values line :
  jsonl_line columns values = Some line -> exists text, line = text ++ [10] /\ Forall (fun b => 32 <= b) text.
Proof.
  unfold jsonl_line, json_row. intros (v & Hv & ->)%fmap_Some. apply fmap_Some in Hv as (ms & Hms & ->).
  destruct (marshal_members_ok _ _ Hms) as [Hok _].
  destruct (wf_JObj (maxNestingDepth - 1) ms ltac:(by unfold maxNestingDepth) Hok) as [Hwf _].
  exists (print (JObj ms)). split; [done|by apply print_printable].
Qed.

(** A line of a JSONL result is one line of text that reads back as the row:
    it ends with its only line feed and holds no other control character; without
    that line feed it is a JSON object whose members are the columns of the row,
    each once and with the encoding of its value, provided the names are
    distinct. *)
Theorem jsonl_line_faithful columns values line :
  jsonl_line columns values = Some line ->
  exists text ms,
    line = text ++ [10] /\ Forall (fun b => 32 <= b) text /\
    (exists t b, text = t ++ [b] /\ b = 125) /\ parse text = Some (JObj ms) /\
    (NoDup columns -> length columns = length values ->
       length ms = length columns /\
       forall k v, (k, v) ∈ zip columns values ->
         exists j, cell_json v = Some j /\ (quote (bytes_of k), j) ∈ ms).
Proof.
  unfold jsonl_line, json_row. intros (v & Hv & ->)%fmap_Some. apply fmap_Some in Hv as (ms & Hms & ->).
  destruct (marshal_members_ok _ _ Hms) as [Hok Hall].
  destruct (wf_JObj (maxNestingDepth - 1) ms ltac:(by unfold maxNestingDepth) Hok) as [Hwf Hh].
  exists (print (JObj ms)), ms. split_and!; [done|by apply print_printable| |apply parse_print; [done|lia]|].
  - rewrite print_JObj. destruct (print_members_last true ms) as [t ->]. by exists (123 :: t), 125.
  - intros Hnd Hlen. pose proof (rowMap_perm columns values Hnd Hlen) as Hp.
    split.
    + apply Forall2_length in Hall. rewrite <- Hall, Hp, length_zip_with_l; lia.
    + intros k v Hin. rewrite <- Hp in Hin. apply list_elem_of_lookup in Hin as [i Hi].
      destruct (Forall2_lookup_l _ _ _ _ _ Hall Hi) as ([raw j] & Hj & Hr & Hc). simpl in *. subst raw.
      exists j. split; [done|]. by apply list_elem_of_lookup_2 in Hj.
Qed.

End Rows.

(** ** A concrete instance

    Floating-point numbers printed by their integral part, and no driver types. *)

Definition integral (f : spec_float) : option Z :=
  match f with
  | S754_zero _ => Some 0
  | S754_finite s m e => let z := Z.shiftl (Zpos m) e in Some (if s then - z else z)
  | _ => None
  end.

Definition integral_text_of (f : spec_float) : bytes :=
  match integral f with Some z => FormatInt z | None => bytes_of "NaN" end.

#[export, refine] Instance integral_text : ValueText Empty_set := {
  format_float64 := integral_text_of;
  format_float32 := integral_text_of;
  marshal_float64 f := FormatInt <$> integral f;
  marshal_float32 f := FormatInt <$> integral f;
  sprint o := match o with end;
  marshal_other o := match o with end
}.
Proof.
  - intros f lit (z & _ & ->)%fmap_Some. apply (wf_json_int z).
  - intros f lit (z & _ & ->)%fmap_Some. apply (wf_json_int z).
  - intros [].
Defined.

Lemma csv_roundtrip_witness :
  let rows := [[bytes_of "id"; bytes_of "note"]; [bytes_of "1"; bytes_of "a,b" ++ [10] ++ bytes_of "c"];
               [bytes_of "2"; [34; 34; 13]]; [bytes_of "3"; []]] in
  parse_csv (csv_text rows) = Some rows.
Proof. apply csv_roundtrip. repeat constructor; done. Defined.

Lemma jsonl_line_faithful_witness :
  exists line text ms,
    jsonl_line ["id"; "name"] [VInt KInt64 7; VString "x"] = Some line /\ line = text ++ [10] /\
    parse text = Some (JObj ms) /\ length ms = 2%nat /\
    (quote (bytes_of "name"), json_string "x") ∈ ms.
Proof.
  assert (exists line, jsonl_line ["id"; "name"] [VInt KInt64 7; VString "x"] = Some line) as [line Hl]
    by (eexists; vm_compute; reflexivity).
  destruct (jsonl_line_faithful (other := Empty_set) ["id"; "name"] [VInt KInt64 7; VString "x"] line Hl)
    as (text & ms & Ht & _ & _ & Hp & Hrow).
  destruct Hrow as [Hlen Hin]; [by apply (bool_decide_unpack _)|done|].
  destruct (Hin "name" (VString "x")) as (v & [= <-] & Hv); [set_solver|].
  by exists line, text, ms.
Defined.

(** Of two columns with one name only the second reaches a JSONL result, although
    SQL allows both and the other formats keep both. *)
Lemma duplicate_columns_collapse :
  json_row ["a"; "a"] [VInt KInt64 1; VInt KInt64 2] =
    Some (JObj [(bytes_of "a", json_int 2)]).
Proof. by vm_compute. Qed.

(** Binary data is not preserved by a JSONL result: a byte that is not UTF-8 is
    written as U+FFFD, so that different values give the same line. *)
Lemma binary_column_altered :
  jsonl_line ["b"] [VBytes (byte_string 255)] = jsonl_line ["b"] [VBytes (byte_string 254)] /\
  jsonl_line ["b"] [VBytes (byte_string 255)] <> None.
Proof. split; [by vm_compute|]. by vm_compute. Qed.
