(* ===== verification/Parquet.v ===== *)
(** * Parquet columns

    [internal/storage/parquet.go]: field names for the columns of a result, the
    type of each column inferred from a sample of the rows, and the conversion of
    values to the type of their column. A schema is built by the Parquet library;
    the code relies only on its fields being the names of the group. *)

From S2P Require Import Prelude Domain Utf8 Text Json Rows.
From Stdlib Require Import Floats.SpecFloat.

Open Scope Z_scope.

(** ** Column names *)

(** [base + "_" + strconv.Itoa(n)]. *)
Definition suffixed (base : string) (n : nat) : string :=
  base +:+ "_" +:+ string_of_bytes (FormatInt (Z.of_nat n)).

(** The inner loop: the first candidate that is not taken. Among one candidate
    more than there are names taken one is free, so that many turns are enough. *)
Fixpoint free_name (fuel n : nat) (base name : string) (seen : list string) : option string :=
  if negb (slices_contains seen name) then Some name
  else match fuel with
       | 0%nat => None
       | S fuel => free_name fuel (S n) base (suffixed base n) seen
       end.

Definition base_name (i : nat) (col : string) : string :=
  if bool_decide (col = "") then "column_" +:+ string_of_bytes (FormatInt (Z.of_nat i)) else col.

(** The loop over the columns; the names handed out so far are in [seen]. *)
Fixpoint unique_names (i : nat) (columns : list string) (seen : list string) : option (list string) :=
  match columns with
  | [] => Some []
  | col :: columns =>
      name ← free_name (length seen) 1 (base_name i col) (base_name i col) seen;
      names ← unique_names (S i) columns (name :: seen);
      Some (name :: names)
  end.

Definition uniqueColumnNames (columns : list string) : option (list string) := unique_names 0 columns [].

Lemma FormatInt_inj a b : FormatInt a = FormatInt b -> 0 <= a -> 0 <= b -> a = b.
Proof.
  unfold FormatInt. intros E Ha Hb. rewrite !(proj2 (Z.ltb_ge _ 0)) in E by done.
  destruct (digits_spec a Ha) as [H1 _]. destruct (digits_spec b Hb) as [H2 _]. congruence.
Qed.

Lemma FormatInt_range z : Forall (fun b => 0 <= b < 256) (FormatInt z).
Proof.
  unfold FormatInt. assert (forall l, Forall (fun b => is_digit b = true) l -> Forall (fun b => 0 <= b < 256) l) as Hd.
  { intros l Hl. eapply Forall_impl; [exact Hl|]. intros b Hb%is_digit_range. lia. }
  destruct (Z.ltb_spec z 0); [constructor; [lia|]|]; apply Hd, digits_spec; lia.
Qed.

Lemma suffixed_inj base m n : suffixed base m = suffixed base n -> m = n.
Proof.
  unfold suffixed. intros E. apply (inj (String.append base)) in E.
  apply (inj (String.append "_")) in E. apply (f_equal bytes_of) in E.
  rewrite !bytes_of_string_of_bytes in E by apply FormatInt_range.
  apply FormatInt_inj in E; lia.
Qed.

(** A name that is not taken is found: the candidates differ, and there are more
    of them than names taken. *)
Lemma free_name_spec fuel n base name seen :
  exists cands, length cands = S fuel /\ cands !! 0%nat = Some name /\
    (forall k, (0 < k <= fuel)%nat -> cands !! k = Some (suffixed base (n + k - 1))) /\
    match free_name fuel n base name seen with
    | Some x => x ∈ cands /\ x ∉ seen
    | None => Forall (fun c => c ∈ seen) cands
    end.
Proof.
  revert n name. induction fuel as [|fuel IH]; intros n name; cbn [free_name].
  - exists [name]. split_and!; [done|done|intros k ?; lia|].
    destruct (slices_contains seen name) eqn:Hs; simpl.
    + apply slices_contains_spec in Hs. by repeat constructor.
    + apply slices_contains_false in Hs. split; [by left|done].
  - destruct (IH (S n) (suffixed base n)) as (cands & Hlen & H0 & Hk & Hres). exists (name :: cands).
    split_and!; [simpl; lia|done| |].
    + intros [|k] Hb; [lia|]. simpl. destruct k as [|k].
      * rewrite H0. do 2 f_equal. lia.
      * rewrite Hk by lia. do 2 f_equal. lia.
    + destruct (slices_contains seen name) eqn:Hs; simpl.
      * apply slices_contains_spec in Hs. destruct (free_name fuel _ _ _ _) as [x|].
        -- destruct Hres. split; [by right|done].
        -- by constructor.
      * apply slices_contains_false in Hs. split; [by left|done].
Qed.

Lemma suffixed_longer base n : suffixed base n <> base.
Proof.
  intros E. apply (f_equal String.length) in E. unfold suffixed in E.
  rewrite !string_length_append in E. simpl in E. lia.
Qed.

Lemma free_name_found base seen :
  exists x, free_name (length seen) 1 base base seen = Some x /\ x ∉ seen.
Proof.
  destruct (free_name_spec (length seen) 1 base base seen) as (cands & Hlen & H0 & Hk & Hres).
  destruct (free_name _ _ _ _ _) as [x|]; [exists x; by destruct Hres|exfalso].
  assert (forall i c, cands !! i = Some c -> c = match i with 0%nat => base | _ => suffixed base i end) as Hc.
  { intros [|i] c Hi; [congruence|]. rewrite Hk in Hi; [|apply lookup_lt_Some in Hi; lia].
    replace (1 + S i - 1)%nat with (S i) in Hi by lia. congruence. }
  assert (NoDup cands) as Hnd.
  { apply NoDup_alt. intros i j c Hi Hj. apply Hc in Hi, Hj. subst c.
    destruct i, j; try done; [by apply symmetry, suffixed_longer in Hj|by apply suffixed_longer in Hj|].
    apply suffixed_inj in Hj. lia. }
  assert (cands ⊆+ seen) as Hsub.
  { apply NoDup_submseteq; [done|]. by apply Forall_forall. }
  apply submseteq_length in Hsub. lia.
Qed.

Lemma unique_names_spec i columns seen :
  exists names, unique_names i columns seen = Some names /\ length names = length columns /\
    NoDup names /\ Forall (fun x => x ∉ seen) names.
Proof.
  revert i seen. induction columns as [|col columns IH]; intros i seen; simpl.
  { exists []. split_and!; [done..|constructor|constructor]. }
  destruct (free_name_found (base_name i col) seen) as (x & -> & Hx). simpl.
  destruct (IH (S i) (x :: seen)) as (names & -> & Hlen & Hnd & Hf). simpl.
  exists (x :: names). split_and!; [done|simpl; lia| |].
  - constructor; [|done]. intros Hin. rewrite Forall_forall in Hf. apply (Hf _ Hin). by left.
  - constructor; [done|]. eapply Forall_impl; [exact Hf|]. simpl. intros y Hy ?. apply Hy. by right.
Qed.

(** Names that are already usable are kept. *)
Lemma unique_names_kept i columns seen :
  NoDup (columns ++ seen) -> Forall (fun c => c <> "") columns ->
  unique_names i columns seen = Some columns.
Proof.
  revert i seen. induction columns as [|col columns IH]; intros i seen Hnd Hne; [done|]. simpl.
  apply Forall_cons in Hne as [Hc Hne]. apply NoDup_cons in Hnd as [Hcol Hnd].
  assert (free_name (length seen) 1 (base_name i col) (base_name i col) seen = Some col) as ->.
  { unfold base_name. rewrite bool_decide_eq_false_2 by done.
    assert (slices_contains seen col = false) as Hs.
    { apply slices_contains_false. intros ?. apply Hcol. apply elem_of_app. by right. }
    destruct (length seen); simpl; by rewrite Hs. }
  simpl. rewrite IH; [done| |done]. rewrite <- Permutation_middle. by apply NoDup_cons.
Qed.

(** ** Column types *)

Inductive parquetKind := kindString | kindInt | kindUint | kindFloat | kindBool | kindTimestamp.

#[export] Instance parquetKind_eq_dec : EqDecision parquetKind.
Proof. solve_decision. Defined.

(** The nodes of the schema, all of them optional. *)
Inductive node := Int64Node | Uint64Node | DoubleNode | BooleanNode | TimestampMicrosNode | StringNode.

Definition nodeFor (k : parquetKind) : node :=
  match k with
  | kindInt => Int64Node
  | kindUint => Uint64Node
  | kindFloat => DoubleNode
  | kindBool => BooleanNode
  | kindTimestamp => TimestampMicrosNode
  | kindString => StringNode
  end.

(** A value of the library: what it holds, its definition level and the index of
    its column; the repetition level is always 0. *)
Inductive physical := PNull | PInt64 (z : Z) | PDouble (f : spec_float) | PBoolean (b : bool) | PByteArray (b : bytes).

Record pvalue := mkPValue { pv : physical; definitionLevel : Z; columnIndex : nat }.

(** The physical type a node stores. *)
Definition stores (n : node) (p : physical) : Prop :=
  match n, p with
  | _, PNull => True
  | (Int64Node | Uint64Node | TimestampMicrosNode), PInt64 z => is_int64 z
  | DoubleNode, PDouble _ => True
  | BooleanNode, PBoolean _ => True
  | StringNode, PByteArray _ => True
  | _, _ => False
  end.

Section Columns.
Context {other : Type} `{!ValueText other}.

Definition kindOf (v : cell other) : parquetKind :=
  match v with
  | VBool _ => kindBool
  | VInt _ _ => kindInt
  | VUint _ _ => kindUint
  | VFloat32 _ | VFloat64 _ => kindFloat
  | VTime _ _ => kindTimestamp
  | _ => kindString
  end.

Definition is_nil (v : cell other) : bool := match v with VNil => true | _ => false end.

(** The kind of a column after one more value; [None] while it is not decided. *)
Definition infer (k : option parquetKind) (v : cell other) : option parquetKind :=
  if is_nil v then k
  else match k with
       | None => Some (kindOf v)
       | Some k => if bool_decide (k = kindOf v) then Some k else Some kindString
       end.

Definition infer_row (kinds : list (option parquetKind)) (row : list (cell other)) :=
  zip_with infer kinds row.

(** An undecided column has the zero kind. *)
Definition kind_of_column (k : option parquetKind) : parquetKind := default kindString k.

Definition infer_kinds (n : nat) (sample : list (list (cell other))) : list parquetKind :=
  map kind_of_column (fold_left infer_row sample (replicate n None)).

(** *** Conversion *)

Definition errUnconvertible (kind : string) : error :=
  PlainError ("value does not fit the inferred " +:+ kind +:+ " column").

Definition toInt64 (v : cell other) : option Z := match v with VInt _ z => Some z | _ => None end.
Definition toUint64 (v : cell other) : option Z := match v with VUint _ z => Some z | _ => None end.
Definition toFloat64 (v : cell other) : option spec_float :=
  match v with VFloat32 f | VFloat64 f => Some f | _ => None end.

(** Seconds from the zero instant to the Unix epoch. *)
Definition unixToInternal : Z := 62135596800.

Definition UnixMicro (t : time) : Z := wrap64 ((t - unixToInternal * Second) / Microsecond).

Definition converterFor (k : parquetKind) (index : nat) (v : cell other) : result pvalue :=
  let null := mkPValue PNull 0 index in
  let value p := Ok (mkPValue p 1 index) in
  if is_nil v then Ok null
  else
    match k with
    | kindInt => match toInt64 v with Some n => value (PInt64 n) | None => Err (errUnconvertible "integer") end
    | kindUint => match toUint64 v with
                  | Some n => value (PInt64 (wrap64 n))
                  | None => Err (errUnconvertible "unsigned integer")
                  end
    | kindFloat => match toFloat64 v with Some f => value (PDouble f) | None => Err (errUnconvertible "float") end
    | kindBool => match v with VBool b => value (PBoolean b) | _ => Err (errUnconvertible "boolean") end
    | kindTimestamp => match v with
                       | VTime _ t => value (PInt64 (UnixMicro t))
                       | _ => Err (errUnconvertible "timestamp")
                       end
    | kindString => value (PByteArray (toString v))
    end.

(** ** The schema *)

Record parquetColumn := mkColumn { col_index : nat; col_kind : parquetKind }.

(** [parquet.Group]: a later column of the same name replaces an earlier one. *)
Definition group_of (names : list string) (kinds : list parquetKind) : gmap string node :=
  fold_left (fun g nk => <[nk.1 := nodeFor nk.2]> g) (zip names kinds) ∅.

Definition positions (fields : list string) : gmap string nat :=
  fold_left (fun m fi => <[fi.1 := fi.2]> m) (zip fields (seq 0 (length fields))) ∅.

(** What the library makes of a group: a schema whose fields are its names, in an
    order of the library's own. *)
Definition schema_fields (Fields : gmap string node -> list string) : Prop :=
  forall g, NoDup (Fields g) /\ forall name, name ∈ Fields g <-> is_Some (g !! name).

Context (Fields : gmap string node -> list string).

Definition buildParquetSchema (names : list string) (sample : list (list (cell other)))
  : result (gmap string node * list parquetColumn) :=
  let kinds := infer_kinds (length names) sample in
  let group := group_of names kinds in
  let fields := Fields group in
  if negb (Nat.eqb (length fields) (length names)) then
    Err (PlainError "parquet schema has fewer fields than result columns")
  else
    let position := positions fields in
    Ok (group, zip_with (fun name k => mkColumn (default 0%nat (position !! name)) k) names kinds).

(** [writeRow]: the values at the indexes of their columns; [None] is the panic of
    an index out of range. The row is the one of the previous call. *)
Fixpoint fill_row (names : list string) (cols : list parquetColumn) (src : list (cell other))
  (row : list pvalue) : option (result (list pvalue)) :=
  match src, cols, names with
  | [], _, _ => Some (Ok row)
  | v :: src, c :: cols, name :: names =>
      match converterFor (col_kind c) (col_index c) v with
      | Err e => Some (Err (WrapError ("column " +:+ name) e))
      | Ok p => if Nat.ltb (col_index c) (length row)
                then fill_row names cols src (<[col_index c := p]> row) else None
      end
  | _, _, _ => None
  end.

(** *** The sample fits the types it decided *)

Definition fits (k : option parquetKind) (v : cell other) : Prop :=
  is_nil v = true \/ k = Some kindString \/ k = Some (kindOf v).

Lemma infer_fits k v : fits (infer k v) v.
Proof.
  unfold fits, infer. destruct (is_nil v); [by left|]. destruct k as [k|]; [|by right; right].
  case_bool_decide; subst; auto.
Qed.

Lemma infer_keeps k v w : fits k w -> fits (infer k v) w.
Proof.
  unfold fits, infer. destruct (is_nil v); [done|]. intros [H|[-> | ->]]; [by left|..].
  - case_bool_decide; auto.
  - case_bool_decide; auto.
Qed.

Lemma fits_converts k v index : fits k v -> exists p, converterFor (kind_of_column k) index v = Ok p.
Proof.
  intros [Hn|[-> | ->]]; unfold converterFor; simpl.
  - rewrite Hn. eauto.
  - destruct (is_nil v); eauto.
  - destruct v; simpl; eauto.
Qed.

Lemma infer_rows_fit sample kinds :
  Forall (fun row => length row = length kinds) sample ->
  length (fold_left infer_row sample kinds) = length kinds /\
  (forall i k w, kinds !! i = Some k -> fits k w ->
     exists k', fold_left infer_row sample kinds !! i = Some k' /\ fits k' w) /\
  forall row i v, row ∈ sample -> row !! i = Some v ->
    exists k, fold_left infer_row sample kinds !! i = Some k /\ fits k v.
Proof.
  revert kinds. induction sample as [|row sample IH]; intros kinds Hlen; simpl.
  { split_and!; [done|eauto|]. by intros ? ? ? ?%elem_of_nil. }
  apply Forall_cons in Hlen as [Hrow Hlen].
  assert (length (infer_row kinds row) = length kinds) as Hl by (unfold infer_row; rewrite length_zip_with; lia).
  destruct (IH (infer_row kinds row)) as (H1 & H2 & H3).
  { eapply Forall_impl; [exact Hlen|]. simpl. intros; congruence. }
  assert (forall i k v, kinds !! i = Some k -> row !! i = Some v ->
    infer_row kinds row !! i = Some (infer k v)) as Hat.
  { intros i k v Hk Hv. apply lookup_zip_with_Some. eauto. }
  split_and!; [congruence| |].
  - intros i k w Hk Hf.
    destruct (lookup_lt_is_Some_2 row i) as [v Hv]; [apply lookup_lt_Some in Hk; lia|].
    apply (H2 i (infer k v)); [by apply Hat|by apply infer_keeps].
  - intros row' i v Hin Hv. apply elem_of_cons in Hin as [-> |Hin]; [|by eapply H3].
    destruct (lookup_lt_is_Some_2 kinds i) as [k Hk]; [apply lookup_lt_Some in Hv; lia|].
    apply (H2 i (infer k v)); [by apply Hat|apply infer_fits].
Qed.

(** *** Every column has a place of its own *)

Lemma group_of_dom names kinds :
  length kinds = length names -> forall name, is_Some (group_of names kinds !! name) <-> name ∈ names.
Proof.
  intros Hlen name. unfold group_of.
  assert (forall l (g : gmap string node),
    is_Some (fold_left (fun g (nk : string * parquetKind) => <[nk.1 := nodeFor nk.2]> g) l g !! name) <->
    name ∈ l.*1 \/ is_Some (g !! name)) as H.
  { induction l as [|[x k] l IH]; intros g; simpl; [set_solver|]. rewrite IH. rewrite elem_of_cons.
    destruct (decide (x = name)) as [->|Hne].
    - rewrite lookup_insert_eq. naive_solver.
    - rewrite lookup_insert_ne by done. naive_solver. }
  rewrite H, fst_zip by lia. rewrite lookup_empty. split; [|by left]. intros [?|[? ?]]; done.
Qed.

Lemma positions_lookup fields i name :
  NoDup fields -> fields !! i = Some name -> positions fields !! name = Some i.
Proof.
  intros Hnd Hi. unfold positions.
  assert (forall l (m : gmap string nat),
    NoDup l.*1 -> forall k, (name, k) ∈ l ->
    fold_left (fun m (fi : string * nat) => <[fi.1 := fi.2]> m) l m !! name = Some k) as H.
  { induction l as [|[x j] l IH]; intros m Hl k Hin; [by apply elem_of_nil in Hin|]. simpl.
    rewrite fmap_cons in Hl. apply NoDup_cons in Hl as [Hx Hl]. apply elem_of_cons in Hin as [[= <- <-]|Hin].
    - clear IH. revert Hx. simpl. generalize (<[name := k]> m) (lookup_insert_eq m name k). clear m.
      induction l as [|[y j'] l IH]; intros m' Hm Hx; [done|]. simpl. rewrite fmap_cons in Hx, Hl.
      apply not_elem_of_cons in Hx as [Hne Hx]. apply NoDup_cons in Hl as [_ Hl]. apply IH; [done| |done].
      simpl in *. by rewrite lookup_insert_ne.
    - by apply IH. }
  apply H.
  - rewrite fst_zip; [done|]. rewrite length_seq. lia.
  - apply list_elem_of_lookup. exists i. apply lookup_zip_with_Some. exists name, i.
    split_and!; [done..|]. apply lookup_seq. split; [lia|]. by apply lookup_lt_Some in Hi.
Qed.

(** A row is written whole: no index is out of range, and each value ends up at
    the index of its column; it fails only at a value its column cannot hold. *)
Lemma fill_row_spec names cols src row :
  length names = length cols -> length src = length cols ->
  NoDup (map col_index cols) -> Forall (fun c => (col_index c < length row)%nat) cols ->
  match fill_row names cols src row with
  | None => False
  | Some (Ok row') =>
      length row' = length row /\
      (forall j, j ∉ map col_index cols -> row' !! j = row !! j) /\
      forall i v c, src !! i = Some v -> cols !! i = Some c ->
        exists p, converterFor (col_kind c) (col_index c) v = Ok p /\ row' !! col_index c = Some p
  | Some (Err _) =>
      exists i v c e, src !! i = Some v /\ cols !! i = Some c /\
        converterFor (col_kind c) (col_index c) v = Err e
  end.
Proof.
  revert names src row. induction cols as [|c cols IH]; intros [|name names] [|v src] row; try done; simpl.
  intros [= Hn] [= Hs] Hnd Hlt. apply NoDup_cons in Hnd as [Hc Hnd]. apply Forall_cons in Hlt as [Hci Hlt].
  destruct (converterFor (col_kind c) (col_index c) v) as [p|e] eqn:Hconv.
  2: { by exists 0%nat, v, c, e. }
  rewrite (proj2 (Nat.ltb_lt _ _)) by done.
  specialize (IH names src (<[col_index c := p]> row) Hn Hs Hnd).
  rewrite length_insert in IH. specialize (IH Hlt).
  destruct (fill_row names cols src _) as [[row'|e]|]; [| |done].
  - destruct IH as (Hlen & Hother & Hcols). split_and!; [done| |].
    + intros j Hj. apply not_elem_of_cons in Hj as [Hne Hj]. rewrite Hother by done.
      by rewrite list_lookup_insert_ne.
    + intros [|i] v' c' Hv Hc'; simpl in *; [|by apply (Hcols i)]. simplify_eq.
      exists p. split; [done|]. rewrite Hother by done. by apply list_lookup_insert_eq.
  - destruct IH as (i & v' & c' & e' & ? & ? & ?). by exists (S i), v', c', e'.
Qed.

Lemma infer_kinds_length n sample :
  Forall (fun row => length row = n) sample -> length (infer_kinds n sample) = n.
Proof.
  intros Hs. unfold infer_kinds. rewrite length_map.
  destruct (infer_rows_fit sample (replicate n None)) as (-> & _); [|by rewrite length_replicate].
  by rewrite length_replicate.
Qed.

(** The schema of distinct names is never refused, and gives every column an index
    of its own. *)
Lemma buildParquetSchema_spec names sample :
  schema_fields Fields -> NoDup names -> Forall (fun row => length row = length names) sample ->
  exists cols, buildParquetSchema names sample =
      Ok (group_of names (infer_kinds (length names) sample), cols) /\
    length cols = length names /\ NoDup (map col_index cols) /\
    Forall (fun c => (col_index c < length names)%nat) cols /\
    map col_kind cols = infer_kinds (length names) sample.
Proof.
  intros HF Hnd Hs. pose proof (infer_kinds_length _ _ Hs) as Hk. unfold buildParquetSchema.
  set (kinds := infer_kinds (length names) sample) in *.
  destruct (HF (group_of names kinds)) as [HFnd HFin]. set (fields := Fields (group_of names kinds)) in *.
  assert (fields ≡ₚ names) as Hp.
  { apply NoDup_Permutation; [done..|]. intros x. rewrite HFin. by apply group_of_dom. }
  rewrite (Permutation_length Hp), Nat.eqb_refl. cbn [negb]. eexists. split; [done|].
  assert (forall name, name ∈ names -> exists i, (i < length names)%nat /\ fields !! i = Some name /\
    positions fields !! name = Some i) as Hpos.
  { intros name Hin. rewrite <- Hp in Hin. apply list_elem_of_lookup in Hin as [i Hi]. exists i.
    split_and!; [|done|by apply positions_lookup]. apply lookup_lt_Some in Hi. by rewrite (Permutation_length Hp) in Hi. }
  split_and!.
  - rewrite length_zip_with. lia.
  - assert (forall names' kinds', NoDup names' -> (forall x, x ∈ names' -> x ∈ names) ->
      NoDup (map col_index (zip_with (fun name k => mkColumn (default 0%nat (positions fields !! name)) k)
        names' kinds'))) as Hgo; [|by apply Hgo].
    induction names' as [|x names' IH]; intros [|k kinds'] Hnd' Hsub; simpl; try constructor.
    + apply NoDup_cons in Hnd' as [Hx Hnd']. intros Hin. apply list_elem_of_In, in_map_iff in Hin as (c & Hc & Hin).
      apply list_elem_of_In, list_elem_of_lookup in Hin as [i Hi].
      apply lookup_zip_with_Some in Hi as (y & k' & -> & Hy & _). simpl in Hc.
      apply list_elem_of_lookup_2 in Hy.
      destruct (Hpos x) as (ix & _ & Hix & Hpx); [apply Hsub; by left|].
      destruct (Hpos y) as (iy & _ & Hiy & Hpy); [apply Hsub; by right|].
      rewrite Hpx, Hpy in Hc. simpl in Hc. congruence.
    + apply IH; [by apply NoDup_cons in Hnd' as [_ ?]|]. intros y Hy. apply Hsub. by right.
  - apply Forall_forall. intros c Hin. apply list_elem_of_lookup in Hin as [i Hi].
    apply lookup_zip_with_Some in Hi as (x & k & -> & Hx & _). simpl.
    destruct (Hpos x) as (ix & ? & _ & ->); [by apply list_elem_of_lookup_2 in Hx|done].
  - assert (forall names' kinds', length kinds' = length names' ->
      map col_kind (zip_with (fun name k => mkColumn (default 0%nat (positions fields !! name)) k)
        names' kinds') = kinds') as Hgo; [|by apply Hgo].
    induction names' as [|x names' IH]; intros [|k kinds'] [=]; simpl; [done|]. by rewrite IH.
Qed.

(** Writing Parquet rows never panics and never mixes up columns, whatever
    names and values a query returns: the loop that makes the names distinct ends
    and yields as many distinct names as there are columns, the schema built from
    them is accepted, and each value of a row is written at the index of its own
    column. A row is refused only at a value that does not fit its column, and
    never if it is one of the sampled rows the types were inferred from. *)
Lemma rows_placed columns sample :
  schema_fields Fields -> Forall (fun row => length row = length columns) sample ->
  exists names group cols,
    uniqueColumnNames columns = Some names /\ length names = length columns /\ NoDup names /\
    buildParquetSchema names sample = Ok (group, cols) /\ length cols = length columns /\
    forall src row, length src = length columns -> length row = length columns ->
      match fill_row names cols src row with
      | None => False
      | Some (Ok row') =>
          length row' = length columns /\
          forall i v c, src !! i = Some v -> cols !! i = Some c ->
            exists p, converterFor (col_kind c) (col_index c) v = Ok p /\ row' !! col_index c = Some p
      | Some (Err _) => src ∉ sample
      end.
Proof.
  intros HF Hs. destruct (unique_names_spec 0 columns []) as (names & Hu & Hlen & Hnd & _).
  rewrite <- Hlen in Hs. destruct (buildParquetSchema_spec names sample HF Hnd Hs)
    as (cols & Hb & Hcl & Hci & Hlt & Hkinds).
  exists names, (group_of names (infer_kinds (length names) sample)), cols.
  split_and!; [done..|congruence|]. intros src row Hsrc Hrow.
  pose proof (fill_row_spec names cols src row) as Hf. rewrite Hrow, <- Hlen in Hf.
  specialize (Hf ltac:(done) ltac:(congruence) Hci Hlt).
  destruct (fill_row names cols src row) as [[row'|e]|]; [|intros Hin|done].
  - destruct Hf as (? & _ & ?). split; [congruence|done].
  - destruct Hf as (i & v & c & e' & Hv & Hc & He).
    destruct (infer_rows_fit sample (replicate (length names) None)) as (_ & _ & Hfit).
    { by rewrite length_replicate. }
    destruct (Hfit src i v Hin Hv) as (k & Hk & Hfv).
    destruct (fits_converts k v (col_index c) Hfv) as [p Hp].
    assert (col_kind c = kind_of_column k) as Heq; [|congruence].
    assert (map col_kind cols !! i = Some (col_kind c)) as H1.
    { change (map col_kind cols) with (col_kind <$> cols). by rewrite list_lookup_fmap, Hc. }
    rewrite Hkinds in H1. unfold infer_kinds in H1.
    change (map kind_of_column ?l) with (kind_of_column <$> l) in H1.
    rewrite list_lookup_fmap, Hk in H1. by injection H1.
Qed.

(** ** What a reader of the file gets *)

Inductive reading := RNull | RInt (z : Z) | RFloat (f : spec_float) | RBool (b : bool)
| RMicros (z : Z) | RText (b : bytes).

(** The logical value of what a node stores: an unsigned column reads the bit
    pattern as an unsigned number. *)
Definition read_node (n : node) (p : physical) : option reading :=
  match n, p with
  | _, PNull => Some RNull
  | Int64Node, PInt64 z => Some (RInt z)
  | Uint64Node, PInt64 z => Some (RInt (z mod 2 ^ 64))
  | TimestampMicrosNode, PInt64 z => Some (RMicros z)
  | DoubleNode, PDouble f => Some (RFloat f)
  | BooleanNode, PBoolean b => Some (RBool b)
  | StringNode, PByteArray b => Some (RText b)
  | _, _ => None
  end.

(** The values of the Go types. *)
Definition cell_ok (v : cell other) : Prop :=
  match v with
  | VInt _ z => is_int64 z
  | VUint _ z => 0 <= z < 2 ^ 64
  | VTime _ t => is_int64 ((t - unixToInternal * Second) / Microsecond)
  | _ => True
  end.

(** What the reader is meant to get: the value itself, a timestamp to the
    microsecond, and the text of the value where the column is textual. *)
Definition meaning (k : parquetKind) (v : cell other) : reading :=
  match k, v with
  | _, VNil => RNull
  | kindString, v => RText (toString v)
  | _, (VInt _ z | VUint _ z) => RInt z
  | _, (VFloat32 f | VFloat64 f) => RFloat f
  | _, VBool b => RBool b
  | _, VTime _ t => RMicros ((t - unixToInternal * Second) / Microsecond)
  | _, v => RText (toString v)
  end.

(** C40. A converted value has the physical type its column is declared with and
    carries the column's index, and a reader of the file gets the value back:
    integers exactly - unsigned ones above the signed range included - numbers and
    flags as they are, timestamps to the microsecond, everything else as its text,
    and NULL as NULL. *)
Theorem parquet_value_preserved k index v p :
  cell_ok v -> converterFor k index v = Ok p ->
  stores (nodeFor k) (pv p) /\ columnIndex p = index /\
  (definitionLevel p = if is_nil v then 0 else 1) /\
  read_node (nodeFor k) (pv p) = Some (meaning k v).
Proof.
  unfold converterFor. intros Hok. destruct (is_nil v) eqn:Hn.
  { intros [= <-]. destruct v; try done. by destruct k. }
  destruct k; simpl; destruct v; try done; simpl in *; intros [= <-]; split_and!; try done; simpl;
    try apply wrap64_range.
  - f_equal. f_equal. unfold wrap64. rewrite Zminus_mod_idemp_l. 
    replace (z + 2 ^ 63 - 2 ^ 63) with z by lia. by apply Z.mod_small.
  - unfold UnixMicro. by rewrite wrap64_id.
Qed.

End Columns.

(** The fields of a group in the order of its keys. *)
Definition fields_by_key (g : gmap string node) : list string := (map_to_list g).*1.

Lemma fields_by_key_ok : schema_fields fields_by_key.
Proof.
  intros g. split; [apply NoDup_fst_map_to_list|]. intros name. unfold fields_by_key.
  rewrite list_elem_of_fmap. split.
  - intros ([k v] & -> & H). apply elem_of_map_to_list in H. by exists v.
  - intros [v H]. exists (name, v). split; [done|]. by apply elem_of_map_to_list.
Qed.

Lemma parquet_value_preserved_witness :
  cell_ok (other := Empty_set) (VUint KInt64 (2 ^ 63 + 5)) /\
  exists p, converterFor (other := Empty_set) kindUint 3 (VUint KInt64 (2 ^ 63 + 5)) = Ok p /\
    read_node Uint64Node (pv p) = Some (RInt (2 ^ 63 + 5)).
Proof.
  assert (cell_ok (other := Empty_set) (VUint KInt64 (2 ^ 63 + 5))) as Hok by (simpl; lia).
  split; [done|]. eexists. split; [reflexivity|].
  apply (parquet_value_preserved (other := Empty_set) kindUint 3 (VUint KInt64 (2 ^ 63 + 5)) _ Hok).
  reflexivity.
Defined.
