(* ===== verification/Prog.v ===== *)
(** * Effectful programs

    Code that talks to the metadata store, a database, a result store or the
    manager's shared state is a [prog]: a tree of actions, each an atomic
    operation of the environment, with a continuation for every answer the
    environment may give. Go blocks that hold a mutex are single actions; what
    runs between two actions is local to the goroutine.

    [executes p tr a] says that [p] can return [a] after the actions and answers
    of the trace [tr]; the environment is unconstrained. [run] executes a program
    against a concrete world, and [wp] is the proof rule for traces. *)

From S2P Require Import Prelude.

Section Prog.
Context {action : Type} {answer : action -> Type}.

Inductive prog (A : Type) : Type :=
| Ret (a : A)
| Vis (e : action) (k : answer e -> prog A).
Arguments Ret {A} a.
Arguments Vis {A} e k.

Fixpoint bind {A B} (p : prog A) (f : A -> prog B) : prog B :=
  match p with
  | Ret a => f a
  | Vis e k => Vis e (fun x => bind (k x) f)
  end.

Definition call (e : action) : prog (answer e) := Vis e Ret.

(** [for _, x := range xs { body }], the state of the loop threaded through. *)
Fixpoint for_each {A S} (body : A -> S -> prog S) (xs : list A) (s : S) : prog S :=
  match xs with
  | [] => Ret s
  | x :: xs => bind (body x s) (fun s => for_each body xs s)
  end.

(** ** Traces *)

Definition event : Type := {e : action & answer e}.

Fixpoint executes {A} (p : prog A) (tr : list event) (a : A) : Prop :=
  match p with
  | Ret b => tr = [] /\ a = b
  | Vis e k => exists x tr', tr = existT e x :: tr' /\ executes (k x) tr' a
  end.

(** [wp p Q tr]: after the trace [tr], every way [p] can go on ends in [Q]. *)
Fixpoint wp {A} (p : prog A) (Q : A -> list event -> Prop) (tr : list event) : Prop :=
  match p with
  | Ret a => Q a tr
  | Vis e k => forall x, wp (k x) Q (tr ++ [existT e x])
  end.

Lemma wp_mono {A} (p : prog A) (Q R : A -> list event -> Prop) tr :
  (forall a tr', Q a tr' -> R a tr') -> wp p Q tr -> wp p R tr.
Proof. intros HQR. revert tr. induction p; simpl; eauto. Qed.

Lemma wp_bind {A B} (p : prog A) (f : A -> prog B) Q tr :
  wp (bind p f) Q tr <-> wp p (fun a tr' => wp (f a) Q tr') tr.
Proof. revert tr. induction p as [|e k IH]; intros tr; simpl; [done|]. split; intros H x; by apply IH. Qed.

Lemma executes_wp {A} (p : prog A) tr a :
  executes p tr a -> forall Q tr0, wp p Q tr0 -> Q a (tr0 ++ tr).
Proof.
  revert tr. induction p as [b|e k IH]; intros tr; simpl.
  - intros [-> ->] Q tr0 HQ. by rewrite app_nil_r.
  - intros (x & tr' & -> & Hex) Q tr0 HQ.
    specialize (IH x tr' Hex Q (tr0 ++ [existT e x]) (HQ x)). by rewrite <- app_assoc in IH.
Qed.

(** The rule the properties of programs are proved with. *)
Lemma wp_sound {A} (p : prog A) (Q : A -> list event -> Prop) :
  wp p Q [] -> forall tr a, executes p tr a -> Q a tr.
Proof. intros Hwp tr a Hex. apply (executes_wp _ _ _ Hex Q [] Hwp). Qed.

Lemma wp_executes {A} (p : prog A) Q tr :
  wp p Q tr <-> forall tr' a, executes p tr' a -> Q a (tr ++ tr').
Proof.
  split; [intros Hwp tr' a Hex; by apply (executes_wp _ _ _ Hex Q tr)|].
  revert tr. induction p as [b|e k IH]; intros tr Hall; simpl in *.
  - rewrite <- (app_nil_r tr). by apply Hall.
  - intros x. apply IH. intros tr' a Hex. rewrite <- app_assoc. apply Hall. by exists x, tr'.
Qed.

(** Stepping over a procedure with what is known of its traces. *)
Lemma wp_call {A B} (Φ : list event -> A -> Prop) (p : prog A) (f : A -> prog B) Q tr :
  (forall tr' a, executes p tr' a -> Φ tr' a) ->
  (forall tr' a, Φ tr' a -> wp (f a) Q (tr ++ tr')) -> wp (bind p f) Q tr.
Proof. intros Hp Hf. apply wp_bind, wp_executes. auto. Qed.

Lemma executes_bind {A B} (p : prog A) (f : A -> prog B) tr b :
  executes (bind p f) tr b <->
  exists tr1 tr2 a, tr = tr1 ++ tr2 /\ executes p tr1 a /\ executes (f a) tr2 b.
Proof.
  revert tr. induction p as [a|e k IH]; intros tr; simpl.
  - split; [intros; by exists [], tr, a|]. by intros (? & ? & ? & -> & [-> ->] & ?).
  - split.
    + intros (x & tr' & -> & (tr1 & tr2 & a & -> & ? & ?)%IH).
      exists (existT e x :: tr1), tr2, a. naive_solver.
    + intros (? & tr2 & a & -> & (x & tr' & -> & ?) & ?).
      exists x, (tr' ++ tr2). split; [done|]. apply IH. by exists tr', tr2, a.
Qed.

(** A property of the actions a program may perform, whatever the answers. *)
Fixpoint only {A} (P : action -> Prop) (p : prog A) : Prop :=
  match p with
  | Ret _ => True
  | Vis e k => P e /\ forall x, only P (k x)
  end.

Lemma only_bind {A B} P (p : prog A) (f : A -> prog B) :
  only P p -> (forall a, only P (f a)) -> only P (bind p f).
Proof. intros Hp Hf. induction p; simpl in *; [done|]. destruct Hp. split; auto. Qed.

Lemma only_for_each {A S} P (body : A -> S -> prog S) xs s :
  (forall x s, only P (body x s)) -> only P (for_each body xs s).
Proof. intros Hb. revert s. induction xs; simpl; intros s; [done|]. by apply only_bind. Qed.

Lemma only_executes {A} P (p : prog A) tr a :
  only P p -> executes p tr a -> Forall (fun ev : event => P (projT1 ev)) tr.
Proof.
  revert tr. induction p as [b|e k IH]; intros tr; simpl.
  - by intros _ [-> _].
  - intros [He Hk] (x & tr' & -> & Hex). constructor; [done|]. by apply (IH x); [apply Hk|].
Qed.

(** ** Running against a world *)

Section Run.
Context {W : Type} (handle : forall e, W -> answer e * W).

Fixpoint run {A} (p : prog A) (w : W) : A * list event * W :=
  match p with
  | Ret a => (a, [], w)
  | Vis e k =>
      let '(x, w') := handle e w in
      let '(a, tr, w'') := run (k x) w' in
      (a, existT e x :: tr, w'')
  end.

(** A program always returns, whatever answers the world gives. *)
Lemma run_executes {A} (p : prog A) (w : W) : executes p (run p w).1.2 (run p w).1.1.
Proof.
  revert w. induction p as [a|e k IH]; intros w; simpl; [done|].
  destruct (handle e w) as [x w'] eqn:He. specialize (IH x w').
  destruct (run (k x) w') as [[a tr] w'']. simpl in *. by exists x, tr.
Qed.

(** The outcome without the trace. *)
Definition eval {A} (p : prog A) (w : W) : A * W := let '(a, _, w') := run p w in (a, w').

Lemma eval_bind {A B} (p : prog A) (f : A -> prog B) w : eval (bind p f) w = eval (f (eval p w).1) (eval p w).2.
Proof.
  revert w. induction p as [a|a k IH]; intros w; [done|].
  unfold eval in *. cbn [bind run]. destruct (handle a w) as [x w'].
  specialize (IH x w'). destruct (run (k x) w') as [[c tr] w''].
  etransitivity; [|exact IH]. by destruct (run (bind (k x) f) w') as [[d tr'] w3].
Qed.

Lemma eval_inv {A} (I : W -> Prop) (p : prog A) w :
  (forall a w, I w -> I (handle a w).2) -> I w -> I (eval p w).2.
Proof.
  intros Hstep. revert w. unfold eval. induction p as [a|a k IH]; intros w Hw; [done|]. cbn [run].
  specialize (Hstep a w Hw). destruct (handle a w) as [x w']. specialize (IH x w' Hstep).
  by destruct (run (k x) w') as [[b tr] w''].
Qed.

Lemma eval_call (a : action) w : eval (call a) w = handle a w.
Proof. unfold eval, call. cbn [run]. by destruct (handle a w). Qed.

End Run.

End Prog.

Arguments prog {action} answer A.
Arguments Ret {action answer A} a.
Arguments Vis {action answer A} e k.
Arguments event {action} answer.

Notation "'do' x <- p ; q" := (bind p (fun x => q))
  (at level 10, x name, p at level 99, q at level 200, right associativity,
   format "'do'  x  <-  p ; '//' q") : dbb_scope.
Notation "'do' ' pat <- p ; q" := (bind p (fun x => match x with pat => q end))
  (at level 10, pat pattern, p at level 99, q at level 200, right associativity) : dbb_scope.
Notation "p ;; q" := (bind p (fun _ => q))
  (at level 100, q at level 200, right associativity) : dbb_scope.

#[export] Hint Resolve only_bind only_for_each : dbb.
