(* ===== verification/Pipe.v ===== *)
(** * Goroutines joined by a pipe

    [io.Pipe] of the standard library, between the two goroutines the storage
    backends connect with it: one writes and closes the writing end, the other
    reads and closes the reading end. Each goroutine is a program of its own
    ([wr], [rd]); a configuration runs any interleaving of their steps, and keeps
    the trace of each. A pipe has no buffer: a write lasts until readers have taken
    all of it or an end is closed. *)

From S2P Require Import Prelude Domain Utf8 Text Prog.

Open Scope Z_scope.
Open Scope dbb_scope.

(** ** Actions *)

(** What a goroutine does to the pipe; a channel that the reading goroutine closes
    and the writing one looks at; the wait for the other goroutine, which answers
    with what that one returned; and calls of its own environment. *)
Inductive paction (env : Type) :=
| PWrite (b : bytes)
| PCloseWrite (e : option error)
| PRead (k : Z)
| PCloseRead (e : option error)
| PSignal
| PPoll
| PWait
| PEnv (a : env).
Arguments PWrite {env} b.
Arguments PCloseWrite {env} e.
Arguments PRead {env} k.
Arguments PCloseRead {env} e.
Arguments PSignal {env}.
Arguments PPoll {env}.
Arguments PWait {env}.
Arguments PEnv {env} a.

Definition panswer {env} (eans : env -> Type) (other : Type) (a : paction env) : Type :=
  match a with
  | PWrite _ => Z * option error
  | PRead _ => bytes * option error
  | PPoll => bool
  | PWait => other
  | PEnv a => eans a
  | PCloseWrite _ | PCloseRead _ | PSignal => unit
  end.

(** A program of the environment alone. *)
Fixpoint lift {env} {eans : env -> Type} {other A} (p : prog eans A) : prog (panswer eans other) A :=
  match p with
  | Ret a => Ret a
  | Vis e k => Vis (PEnv e : paction env) (fun x => lift (k x))
  end.

(** ** The pipe *)

Definition EOF : error := PlainError "EOF".
Definition is_EOF (e : error) : bool :=
  match e with PlainError msg => bool_decide (msg = "EOF") | _ => false end.
Definition ErrClosedPipe : error := PlainError "io: read/write on closed pipe".

(** The error each end was closed with, and whether the channel was closed. *)
Record pipe := mkPipe { w_closed : option error; r_closed : option error; signalled : bool }.

Definition new_pipe : pipe := mkPipe None None false.

Definition is_done (p : pipe) : bool :=
  match w_closed p, r_closed p with None, None => false | _, _ => true end.

Definition readCloseError (p : pipe) : error :=
  match r_closed p, w_closed p with None, Some e => e | _, _ => ErrClosedPipe end.

Definition writeCloseError (p : pipe) : error :=
  match w_closed p, r_closed p with None, Some e => e | _, _ => ErrClosedPipe end.

(** Only the first error of an end counts. *)
Definition closeWrite (e : option error) (p : pipe) : pipe :=
  mkPipe (Some (default (default EOF e) (w_closed p))) (r_closed p) (signalled p).

Definition closeRead (e : option error) (p : pipe) : pipe :=
  mkPipe (w_closed p) (Some (default (default ErrClosedPipe e) (r_closed p))) (signalled p).

Definition signal (p : pipe) : pipe := mkPipe (w_closed p) (r_closed p) true.

(** ** Configurations *)

Section Pipe.
Context {wenv renv : Type} {weans : wenv -> Type} {reans : renv -> Type} {A B : Type}.

Abbreviation wans := (panswer weans B).
Abbreviation rans := (panswer reans A).

(** The writing goroutine is in the middle of a write, of which so many bytes were
    taken, or anywhere else. *)
Inductive writing :=
| Running (p : prog wans A)
| Writing (b : bytes) (n : nat) (k : Z * option error -> prog wans A).

Record config := mkConfig {
  pp : pipe;
  wr : writing;
  rd : prog rans B;
  wlog : list (event wans);
  rlog : list (event rans)
}.

Definition start (w : prog wans A) (r : prog rans B) : config := mkConfig new_pipe (Running w) r [] [].

Definition wev (a : paction wenv) (x : wans a) : event wans := existT a x.
Definition rev_ (a : paction renv) (x : rans a) : event rans := existT a x.

Inductive step : config -> config -> Prop :=
| step_write b k p r wl rl : is_done p = false ->
    step (mkConfig p (Running (Vis (PWrite b) k)) r wl rl) (mkConfig p (Writing b 0 k) r wl rl)
| step_write_closed b k p r wl rl : is_done p = true ->
    step (mkConfig p (Running (Vis (PWrite b) k)) r wl rl)
      (mkConfig p (Running (k (0, Some (writeCloseError p)))) r (wl ++ [wev (PWrite b) (0, Some (writeCloseError p))]) rl)
| step_write_broken b n k p r wl rl : is_done p = true ->
    step (mkConfig p (Writing b n k) r wl rl)
      (mkConfig p (Running (k (Z.of_nat n, Some (writeCloseError p)))) r
         (wl ++ [wev (PWrite b) (Z.of_nat n, Some (writeCloseError p))]) rl)
| step_transfer b n k m kr p wl rl : is_done p = false ->
    let got := take (Z.to_nat m) (drop n b) in
    let n' := (n + length got)%nat in
    (n' < length b)%nat ->
    step (mkConfig p (Writing b n k) (Vis (PRead m) kr) wl rl)
      (mkConfig p (Writing b n' k) (kr (got, None)) wl (rl ++ [rev_ (PRead m) (got, None)]))
| step_transfer_last b n k m kr p wl rl : is_done p = false ->
    let got := take (Z.to_nat m) (drop n b) in
    (length b <= n + length got)%nat ->
    step (mkConfig p (Writing b n k) (Vis (PRead m) kr) wl rl)
      (mkConfig p (Running (k (Z.of_nat (length b), None))) (kr (got, None))
         (wl ++ [wev (PWrite b) (Z.of_nat (length b), None)]) (rl ++ [rev_ (PRead m) (got, None)]))
| step_read_closed m kr p w wl rl : is_done p = true ->
    step (mkConfig p w (Vis (PRead m) kr) wl rl)
      (mkConfig p w (kr ([], Some (readCloseError p))) wl (rl ++ [rev_ (PRead m) ([], Some (readCloseError p))]))
| step_close_write e k p r wl rl :
    step (mkConfig p (Running (Vis (PCloseWrite e) k)) r wl rl)
      (mkConfig (closeWrite e p) (Running (k tt)) r (wl ++ [wev (PCloseWrite e) tt]) rl)
| step_close_read e kr p w wl rl :
    step (mkConfig p w (Vis (PCloseRead e) kr) wl rl)
      (mkConfig (closeRead e p) w (kr tt) wl (rl ++ [rev_ (PCloseRead e) tt]))
| step_signal kr p w wl rl :
    step (mkConfig p w (Vis PSignal kr) wl rl)
      (mkConfig (signal p) w (kr tt) wl (rl ++ [rev_ PSignal tt]))
| step_poll k p r wl rl :
    step (mkConfig p (Running (Vis PPoll k)) r wl rl)
      (mkConfig p (Running (k (signalled p))) r (wl ++ [wev PPoll (signalled p)]) rl)
| step_wait k p b wl rl :
    step (mkConfig p (Running (Vis PWait k)) (Ret b) wl rl)
      (mkConfig p (Running (k b)) (Ret b) (wl ++ [wev PWait b]) rl)
| step_wenv a x k p r wl rl :
    step (mkConfig p (Running (Vis (PEnv a) k)) r wl rl)
      (mkConfig p (Running (k x)) r (wl ++ [wev (PEnv a) x]) rl)
| step_renv a x kr p w wl rl :
    step (mkConfig p w (Vis (PEnv a) kr) wl rl)
      (mkConfig p w (kr x) wl (rl ++ [rev_ (PEnv a) x])).

Definition finished (c : config) (a : A) (b : B) : Prop := wr c = Running (Ret a) /\ rd c = Ret b.

(** ** Every run is finite *)

Definition prog_lt {act} {ans : act -> Type} {X} (p q : prog ans X) : Prop :=
  match q with Ret _ => False | Vis _ k => exists x, p = k x end.

(** The program a writing goroutine goes on with after a write. *)
Definition w_prog (w : writing) : prog wans A :=
  match w with Running p => p | Writing b n k => Vis (PWrite b) k end.

Definition w_left (w : writing) : nat := match w with Running _ => 1 | Writing _ _ _ => 0 end.

Lemma prog_lt_wf {act} {ans : act -> Type} {X} (p : prog ans X) : Acc prog_lt p.
Proof. induction p as [a|e k IH]; constructor; [done|]. by intros q [x ->]. Qed.

(** A step takes one of the goroutines further in its program, or starts a write. *)
Lemma step_measure c c' : step c c' ->
  prog_lt (w_prog (wr c')) (w_prog (wr c)) \/
  (w_prog (wr c') = w_prog (wr c) /\ prog_lt (rd c') (rd c)) \/
  (w_prog (wr c') = w_prog (wr c) /\ rd c' = rd c /\ (w_left (wr c') < w_left (wr c))%nat).
Proof. destruct 1; simpl; unfold prog_lt; eauto 12 with lia. Qed.

Lemma steps_finite c : Acc (fun c' c => step c c') c.
Proof.
  enough (forall w r n c, w_prog (wr c) = w -> rd c = r -> w_left (wr c) = n -> Acc (fun c' c => step c c') c) by eauto.
  clear c. intros w. induction (prog_lt_wf w) as [w _ IHw]. intros r. induction (prog_lt_wf r) as [r _ IHr].
  intros n. induction n as [n IHn] using lt_wf_ind. intros c <- <- <-. constructor. intros c' Hs.
  destruct (step_measure _ _ Hs) as [Hlt|[[Hw Hlt]|(Hw & Hr & Hn)]]; eauto.
Qed.

(** ** No run gets stuck *)

Definition isSome {X} (o : option X) : bool := match o with Some _ => true | None => false end.

(** The writing goroutine only writes, and closes its end before it waits for the
    other goroutine and before it returns. *)
Fixpoint writes (closed : bool) (p : prog wans A) : Prop :=
  match p with
  | Ret _ => closed = true
  | Vis e k =>
      match e with PRead _ | PCloseRead _ | PSignal => False | PWait => closed = true | _ => True end /\
      forall x, writes (match e with PCloseWrite _ => true | _ => closed end) (k x)
  end.

(** The reading goroutine only reads, and closes its end before it returns, except
    with the results [out]. *)
Fixpoint reads (out : B -> Prop) (closed : bool) (p : prog rans B) : Prop :=
  match p with
  | Ret b => closed = true \/ out b
  | Vis e k =>
      match e with PWrite _ | PCloseWrite _ | PPoll | PWait => False | _ => True end /\
      forall x, reads out (match e with PCloseRead _ => true | _ => closed end) (k x)
  end.

Definition roles (out : B -> Prop) (c : config) : Prop :=
  writes (isSome (w_closed (pp c))) (w_prog (wr c)) /\ reads out (isSome (r_closed (pp c))) (rd c).

Lemma roles_step out c c' : roles out c -> step c c' -> roles out c'.
Proof. intros [Hw Hr]. destruct 1; simpl in *; destruct_and?; split; simpl; eauto. Qed.

Lemma roles_reachable out c c' : roles out c -> rtc step c c' -> roles out c'.
Proof. intros H. induction 1; [done|]. eauto using roles_step. Qed.

Context {w_answers : forall a, Inhabited (weans a)} {r_answers : forall a, Inhabited (reans a)}.

Ltac can_step :=
  left; eexists;
  first [by apply (step_wenv _ inhabitant) | by apply (step_renv _ inhabitant) | by apply step_write
        | by apply step_write_closed | by apply step_write_broken | by apply step_read_closed
        | by apply step_close_write | by apply step_close_read | by apply step_signal | by apply step_poll
        | by apply step_wait].

(** The reader is never left waiting: it can go on, has returned, or is in a read
    that waits for a writer that can go on. *)
Lemma roles_progress out c : roles out c ->
  (exists c', step c c') \/ (exists a b, finished c a b) \/ (exists b, rd c = Ret b /\ out b).
Proof.
  destruct c as [p w r wl rl]. intros [Hw Hr]. simpl in *.
  destruct (is_done p) eqn:Hd.
  - destruct r as [b|[]]; simpl in *; try tauto; try can_step.
    destruct w as [[a|[]]|]; simpl in *; try tauto; try can_step.
    right; left. by exists a, b.
  - assert (w_closed p = None /\ r_closed p = None) as [Hwc Hrc] by (by destruct p as [[] [] ?]).
    rewrite Hwc, Hrc in *. simpl in *.
    destruct w as [[a|[]]|b n k]; simpl in *; try tauto; try done; try (by destruct Hw); try can_step.
    destruct r as [x|[| |m| | | | |] kr]; simpl in *; try tauto; try can_step; try (by destruct Hr; eauto 6).
    destruct (decide (n + length (take (Z.to_nat m) (drop n b)) < length b)%nat).
    + left. eexists. by apply step_transfer.
    + left. eexists. apply step_transfer_last; [done|lia].
Qed.

(** *** Traces *)

Fixpoint after {act} {ans : act -> Type} {X} (p : prog ans X) (tr : list (event ans)) (q : prog ans X) : Prop :=
  (tr = [] /\ q = p) \/
  match p with
  | Ret _ => False
  | Vis e k => exists x tr', tr = existT e x :: tr' /\ after (k x) tr' q
  end.

Lemma after_refl {act} {ans : act -> Type} {X} (p : prog ans X) : after p [] p.
Proof. destruct p; by left. Qed.

Lemma after_trans {act} {ans : act -> Type} {X} (p q r : prog ans X) tr1 tr2 :
  after p tr1 q -> after q tr2 r -> after p (tr1 ++ tr2) r.
Proof.
  revert tr1. induction p as [a|e k IH]; intros tr1; simpl; [by intros [[-> ->]|?]|].
  intros [[-> ->]|(x & tr' & -> & H1)] H2; [done|]. right. exists x, (tr' ++ tr2). by eauto.
Qed.

Lemma after_snoc {act} {ans : act -> Type} {X} (p : prog ans X) tr e k x :
  after p tr (Vis e k) -> after p (tr ++ [existT e x]) (k x).
Proof. intros H. eapply after_trans; [exact H|]. right. exists x, []. split; [done|]. apply after_refl. Qed.

Lemma after_ret {act} {ans : act -> Type} {X} (p : prog ans X) tr a : after p tr (Ret a) -> executes p tr a.
Proof.
  revert tr. induction p as [b|e k IH]; intros tr; simpl; [by intros [[-> [= ->]]|]|].
  intros [[_ ?]|(x & tr' & -> & H)]; [done|]. exists x, tr'. by eauto.
Qed.

(** ** What goes through *)

(** The bytes a write handed over, and those a read got. *)
Definition taken_ev (ev : event wans) : bytes :=
  let '(existT a x) := ev in
  match a return wans a -> bytes with
  | PWrite b => fun x => take (Z.to_nat x.1) b
  | _ => fun _ => []
  end x.

Definition got_ev (ev : event rans) : bytes :=
  let '(existT a x) := ev in
  match a return rans a -> bytes with
  | PRead _ => fun x => x.1
  | _ => fun _ => []
  end x.

Definition taken (tr : list (event wans)) : bytes := concat (map taken_ev tr).
Definition received (tr : list (event rans)) : bytes := concat (map got_ev tr).

(** A write without an error was taken whole. *)
Definition write_ok (ev : event wans) : Prop :=
  let '(existT a x) := ev in
  match a return wans a -> Prop with
  | PWrite b => fun x => 0 <= x.1 <= Z.of_nat (length b) /\ (x.2 = None -> x.1 = Z.of_nat (length b))
  | _ => fun _ => True
  end x.

(** A read gets no more than it has room for, and nothing with an error. *)
Definition read_fits (ev : event rans) : Prop :=
  let '(existT a x) := ev in
  match a return rans a -> Prop with
  | PRead m => fun x => (length x.1 <= Z.to_nat m)%nat /\ (x.2 <> None -> x.1 = [])
  | _ => fun _ => True
  end x.

(** Reads of at least a byte that got none, and writes of none. *)
Definition idle_ev (ev : event rans) : bool :=
  let '(existT a x) := ev in
  match a return rans a -> bool with
  | PRead m => fun x => (0 <? m) && match x with ([], None) => true | _ => false end
  | _ => fun _ => false
  end x.

Definition empty_ev (ev : event wans) : bool :=
  match projT1 ev with PWrite [] => true | _ => false end.

Definition idle_reads (tr : list (event rans)) : nat := length (List.filter idle_ev tr).
Definition empty_writes (tr : list (event wans)) : nat := length (List.filter empty_ev tr).

Lemma taken_snoc tr ev : taken (tr ++ [ev]) = taken tr ++ taken_ev ev.
Proof. unfold taken. by rewrite map_app, concat_app, <- (app_nil_r (taken_ev ev)). Qed.

Lemma received_snoc tr ev : received (tr ++ [ev]) = received tr ++ got_ev ev.
Proof. unfold received. by rewrite map_app, concat_app, <- (app_nil_r (got_ev ev)). Qed.

Lemma idle_reads_snoc tr ev : idle_reads (tr ++ [ev]) = (idle_reads tr + if idle_ev ev then 1 else 0)%nat.
Proof. unfold idle_reads. rewrite List.filter_app, length_app. simpl. by destruct (idle_ev ev). Qed.

Lemma empty_writes_snoc tr ev : empty_writes (tr ++ [ev]) = (empty_writes tr + if empty_ev ev then 1 else 0)%nat.
Proof. unfold empty_writes. rewrite List.filter_app, length_app. simpl. by destruct (empty_ev ev). Qed.

(** What a write that is under way has handed over. *)
Definition under_way (w : writing) : bytes :=
  match w with Running _ => [] | Writing b n _ => take n b end.

(** A wait that is over was answered with what the reader returned. *)
Definition waited (r : prog rans B) (ev : event wans) : Prop :=
  let '(existT a x) := ev in
  match a return wans a -> Prop with PWait => fun x => r = Ret x | _ => fun _ => True end x.

Lemma waited_vis e k r (wl : list (event wans)) : Forall (waited (Vis e k)) wl -> Forall (waited r) wl.
Proof. intros H. eapply Forall_impl; [exact H|]. intros [a x]. by destruct a. Qed.

Record flows (W : prog wans A) (R : prog rans B) (c : config) : Prop := {
  fl_w : after W (wlog c) (w_prog (wr c));
  fl_r : after R (rlog c) (rd c);
  fl_bytes : received (rlog c) = taken (wlog c) ++ under_way (wr c);
  fl_ok : Forall write_ok (wlog c);
  fl_fits : Forall read_fits (rlog c);
  fl_part : match wr c with Running _ => True | Writing b n _ => n = 0%nat \/ (n < length b)%nat end;
  fl_idle : (idle_reads (rlog c) <= empty_writes (wlog c))%nat;
  fl_wait : Forall (waited (rd c)) (wlog c)
}.

Lemma take_transfer (b : bytes) n m :
  take n b ++ take m (drop n b) = take (n + length (take m (drop n b))) b.
Proof.
  rewrite take_take_drop, length_take, length_drop. destruct (decide (m <= length b - n)%nat).
  - by rewrite Nat.min_l.
  - rewrite Nat.min_r by lia. rewrite !take_ge; [done|lia..].
Qed.

Lemma flows_start W R : flows W R (start W R).
Proof. by split; simpl; auto using after_refl. Qed.

Lemma transfer_empty (b : bytes) n m :
  0 < m -> take (Z.to_nat m) (drop n b) = [] -> (length b <= n)%nat.
Proof.
  intros Hm H. apply (f_equal length) in H. rewrite length_take, length_drop in H. simpl in H. lia.
Qed.

Lemma flows_step W R c c' : flows W R c -> step c c' -> flows W R c'.
Proof.
  intros [H1 H2 H3 H4 H4' H5 H6 H7]. destruct 1; split; simpl in *; unfold wev, rev_;
    rewrite ?taken_snoc, ?received_snoc, ?idle_reads_snoc, ?empty_writes_snoc;
    try (apply Forall_app; split; [done|]; apply Forall_singleton; simpl); eauto using after_snoc, waited_vis with lia;
    simpl; rewrite ?app_nil_r in *; try done; rewrite ?Nat2Z.id, ?andb_false_r; try done; try lia.
  - split; [lia|done].
  - split; [lia|done].
  - rewrite H3, <- app_assoc. f_equal. apply take_transfer.
  - subst got. rewrite length_take. split; [lia|done].
  - destruct (Z.ltb_spec 0 m); [|simpl; lia]. destruct got eqn:Hg; [|simpl; lia].
    apply transfer_empty in Hg; [|done]. lia.
  - rewrite H3, <- app_assoc. f_equal. subst got. rewrite take_transfer. by rewrite !take_ge by lia.
  - subst got. rewrite length_take. split; [lia|done].
  - destruct (Z.ltb_spec 0 m); [|simpl; lia]. destruct got eqn:Hg; [|simpl; lia].
    apply transfer_empty in Hg; [|done]. destruct b; [simpl; lia|simpl in *; lia].
  - apply Forall_app. split; [by eapply waited_vis|by repeat constructor].
Qed.

Lemma flows_reachable W R c : rtc step (start W R) c -> flows W R c.
Proof.
  generalize (flows_start W R). generalize (start W R). intros c0 H0 Hs. induction Hs; eauto using flows_step.
Qed.

(** What a run is, for the goroutines: each executed its program, what one received
    is what the other wrote, and writes failed only as the pipe says. *)
Lemma flows_finished W R c a b : rtc step (start W R) c -> finished c a b ->
  executes W (wlog c) a /\ executes R (rlog c) b /\ received (rlog c) = taken (wlog c) /\
  Forall write_ok (wlog c) /\ Forall read_fits (rlog c) /\
  (idle_reads (rlog c) <= empty_writes (wlog c))%nat /\ Forall (waited (Ret b)) (wlog c).
Proof.
  intros [H1 H2 H3 H4 H4' _ H6 H7]%flows_reachable.
  intros [Hw Hr]. rewrite Hw, Hr in *. simpl in *. rewrite app_nil_r in H3.
  split_and!; auto using after_ret.
Qed.

(** ** What the end of the stream means *)

(** The error the writing end was first closed with, the trace up to then, and
    whether the reader closed the channel or its end. *)
Fixpoint first_close (tr : list (event wans)) : option error :=
  match tr with
  | [] => None
  | ev :: tr => match projT1 ev with PCloseWrite e => Some (default EOF e) | _ => first_close tr end
  end.

Fixpoint before_close (tr : list (event wans)) : list (event wans) :=
  match tr with
  | [] => []
  | ev :: tr => match projT1 ev with PCloseWrite e => [] | _ => ev :: before_close tr end
  end.

Definition closes_read (ev : event rans) : bool :=
  match projT1 ev with PCloseRead _ | PSignal => true | _ => false end.

Definition gave_up (tr : list (event rans)) : bool := existsb closes_read tr.

(** A write without an error, a look at the channel while it is open. *)
Definition unfailed (ev : event wans) : Prop :=
  let '(existT a x) := ev in
  match a return wans a -> Prop with
  | PWrite _ => fun x => x.2 = None
  | PPoll => fun x => x = false
  | _ => fun _ => True
  end x.

Definition read_error (ev : event rans) : option error :=
  let '(existT a x) := ev in
  match a return rans a -> option error with PRead _ => fun x => x.2 | _ => fun _ => None end x.

Record closings (c : config) : Prop := {
  cl_w : w_closed (pp c) = first_close (wlog c);
  cl_r : gave_up (rlog c) = false -> r_closed (pp c) = None /\ signalled (pp c) = false;
  cl_open : gave_up (rlog c) = false -> Forall unfailed (before_close (wlog c));
  cl_read l1 ev l2 e : rlog c = l1 ++ ev :: l2 -> read_error ev = Some e -> gave_up l1 = false ->
    first_close (wlog c) = Some e /\ Forall unfailed (before_close (wlog c))
}.

Lemma first_close_snoc tr ev :
  first_close (tr ++ [ev]) = match first_close tr with Some e => Some e | None => first_close [ev] end.
Proof. induction tr as [|[a x] tr IH]; [done|]. simpl in *. by destruct a. Qed.

Lemma before_close_snoc tr ev :
  before_close (tr ++ [ev]) = match first_close tr with Some _ => before_close tr | None => tr ++ before_close [ev] end.
Proof.
  induction tr as [|[a x] tr IH]; [done|]. simpl in *. destruct a; [|done|..]; rewrite IH; by destruct (first_close tr).
Qed.

Lemma before_close_open tr : first_close tr = None -> before_close tr = tr.
Proof. induction tr as [|[a x] tr IH]; [done|]. simpl. destruct a; intros H; [|done|..]; by rewrite IH. Qed.

Lemma gave_up_snoc tr ev : gave_up (tr ++ [ev]) = gave_up tr || closes_read ev.
Proof. unfold gave_up. rewrite existsb_app. simpl. by rewrite orb_false_r. Qed.

Lemma split_snoc {X} (l l1 l2 : list X) x y :
  l ++ [x] = l1 ++ y :: l2 -> (l = l1 /\ x = y /\ l2 = []) \/ exists l2', l2 = l2' ++ [x] /\ l = l1 ++ y :: l2'.
Proof.
  destruct l2 as [|z l2 _] using rev_ind; [by intros [-> [= ->]]%app_inj_tail; left|].
  intros H. right. exists l2. rewrite app_comm_cons, app_assoc in H. by apply app_inj_tail in H as [-> ->].
Qed.

Lemma closings_wlog p p' w w' r wl rl ev :
  closings (mkConfig p w r wl rl) -> w_closed p' = first_close (wl ++ [ev]) ->
  r_closed p' = r_closed p -> signalled p' = signalled p ->
  (gave_up rl = false -> first_close wl = None -> Forall unfailed (before_close [ev])) ->
  closings (mkConfig p' w' r (wl ++ [ev]) rl).
Proof.
  intros [H1 H2 H3 H4] Hw Hr Hsig Hev. simpl in *.
  assert (gave_up rl = false -> Forall unfailed (before_close (wl ++ [ev]))) as Hopen.
  { intros Hg. rewrite before_close_snoc. destruct (first_close wl) eqn:Hf; [by apply H3|].
    rewrite Forall_app. split; [|by apply Hev]. rewrite <- (before_close_open wl) by done. by apply H3. }
  split; simpl; [done|by rewrite Hr, Hsig|done|]. intros l1 ev' l2 e Hl He Hg.
  destruct (H4 l1 ev' l2 e Hl He Hg) as [Hf Hu]. rewrite first_close_snoc, before_close_snoc, Hf. done.
Qed.

Lemma closings_rlog p p' w r r' wl rl ev :
  closings (mkConfig p w r wl rl) -> w_closed p' = w_closed p ->
  (closes_read ev = false -> r_closed p' = r_closed p /\ signalled p' = signalled p) ->
  (forall e, read_error ev = Some e -> gave_up rl = false -> first_close wl = Some e) ->
  closings (mkConfig p' w r' wl (rl ++ [ev])).
Proof.
  intros [H1 H2 H3 H4] Hw Hr Hev. simpl in *. split; simpl.
  - by rewrite Hw.
  - rewrite gave_up_snoc. intros [Hg Hc]%orb_false_iff. destruct (Hr Hc) as [-> ->]. auto.
  - rewrite gave_up_snoc. intros [? _]%orb_false_iff. auto.
  - intros l1 ev' l2 e Hl He Hg. apply split_snoc in Hl as [(<- & <- & _)|(l2' & -> & Hl)]; [|by eauto].
    split; [by apply Hev|by apply H3].
Qed.

Lemma is_done_closed p wl :
  w_closed p = first_close wl -> r_closed p = None -> is_done p = true ->
  first_close wl = Some (readCloseError p) /\ first_close wl <> None.
Proof. destruct p as [[] []]; unfold readCloseError; simpl; by intros <-. Qed.

Lemma closings_step c c' : closings c -> step c c' -> closings c'.
Proof.
  intros Hc. pose proof (cl_w _ Hc) as Hw. pose proof (cl_r _ Hc) as Hr.
  destruct 1 as [| | |b n k m kr p wl rl| | | | | | | | |]; simpl in *;
    try (by destruct Hc);
    try (eapply closings_wlog; [exact Hc| |done..|];
         [rewrite first_close_snoc, <- ?Hw; simpl; by destruct (w_closed p)|]; simpl; intros Hg Hf;
         destruct (Hr Hg) as [Hr1 Hr2]; repeat constructor; try done;
         by destruct (is_done_closed _ _ Hw Hr1));
    try (eapply closings_rlog; [exact Hc|done|done|]; intros e [= <-] Hg; destruct (Hr Hg) as [Hr1 _];
         by destruct (is_done_closed _ _ Hw Hr1));
    try (by eapply closings_rlog; [exact Hc|done..]).
  - assert (closings (mkConfig p (Writing b n' k) (Vis (PRead m) kr) wl rl)) as Hc' by by destruct Hc.
    by eapply closings_rlog; [exact Hc'|done..].
  - eapply (closings_rlog p); [|done..].
    eapply closings_wlog; [exact Hc| |done|done|by repeat constructor].
    rewrite first_close_snoc, Hw. by destruct (first_close wl).
Qed.

(** The end of the stream, and any other error a reader gets before it closed its
    end, is the error the writer closed its end with, and every write before that
    was taken whole. *)
Lemma read_error_means W R c l1 ev l2 e :
  rtc step (start W R) c -> rlog c = l1 ++ ev :: l2 -> read_error ev = Some e -> gave_up l1 = false ->
  first_close (wlog c) = Some e /\ Forall unfailed (before_close (wlog c)).
Proof.
  intros Hs. assert (closings c) as Hc; [|by apply Hc].
  assert (closings (start W R)) as H0 by (split; [done..|]; simpl; by intros []).
  revert H0 Hs. generalize (start W R). intros c0 H0 Hs. induction Hs; eauto using closings_step.
Qed.

(** Every run of goroutines that keep their roles can be continued to an end, and
    has no infinite continuation. *)
Lemma runs_end out W R c : writes false W -> reads out false R -> rtc step (start W R) c ->
  Acc (fun c' c => step c c') c /\
  exists c', rtc step c c' /\ ((exists a b, finished c' a b) \/ (exists b, rd c' = Ret b /\ out b)).
Proof.
  intros Hw Hr Hs. split; [apply steps_finite|].
  assert (roles out c) as Hro by (eapply roles_reachable; [|exact Hs]; done). clear Hs.
  induction (steps_finite c) as [c _ IH]. destruct (roles_progress out c Hro) as [[c' Hc]|Hend].
  - destruct (IH c' Hc) as (c2 & Hs & ?); [by eapply roles_step|]. exists c2. split; [by eapply rtc_l|done].
  - exists c. split; [done|]. done.
Qed.

(** ** One of the runs *)

Section Schedule.
Context (wh : forall a, weans a) (rh : forall a, reans a).

Definition sched_w (c : config) : option config :=
  match wr c with
  | Writing b n k =>
      if is_done (pp c) then
        let x := (Z.of_nat n, Some (writeCloseError (pp c))) in
        Some (mkConfig (pp c) (Running (k x)) (rd c) (wlog c ++ [wev (PWrite b) x]) (rlog c))
      else None
  | Running (Ret _) => None
  | Running (Vis e k) =>
      match e return (wans e -> prog wans A) -> option config with
      | PWrite b => fun k =>
          if is_done (pp c) then
            let x := (0, Some (writeCloseError (pp c))) in
            Some (mkConfig (pp c) (Running (k x)) (rd c) (wlog c ++ [wev (PWrite b) x]) (rlog c))
          else Some (mkConfig (pp c) (Writing b 0 k) (rd c) (wlog c) (rlog c))
      | PCloseWrite e => fun k =>
          Some (mkConfig (closeWrite e (pp c)) (Running (k tt)) (rd c) (wlog c ++ [wev (PCloseWrite e) tt]) (rlog c))
      | PPoll => fun k =>
          let x := signalled (pp c) in
          Some (mkConfig (pp c) (Running (k x)) (rd c) (wlog c ++ [wev PPoll x]) (rlog c))
      | PWait => fun k =>
          match rd c with
          | Ret b => Some (mkConfig (pp c) (Running (k b)) (Ret b) (wlog c ++ [wev PWait b]) (rlog c))
          | _ => None
          end
      | PEnv a => fun k =>
          Some (mkConfig (pp c) (Running (k (wh a))) (rd c) (wlog c ++ [wev (PEnv a) (wh a)]) (rlog c))
      | _ => fun _ => None
      end k
  end.

Definition sched_r (c : config) : option config :=
  match rd c with
  | Ret _ => None
  | Vis e k =>
      match e return (rans e -> prog rans B) -> option config with
      | PRead m => fun k =>
          if is_done (pp c) then
            let x := ([], Some (readCloseError (pp c))) in
            Some (mkConfig (pp c) (wr c) (k x) (wlog c) (rlog c ++ [rev_ (PRead m) x]))
          else
            match wr c with
            | Writing b n kw =>
                let got := take (Z.to_nat m) (drop n b) in
                let rl := rlog c ++ [rev_ (PRead m) (got, None)] in
                if (n + length got <? length b)%nat
                then Some (mkConfig (pp c) (Writing b (n + length got) kw) (k (got, None)) (wlog c) rl)
                else let x := (Z.of_nat (length b), None) in
                     Some (mkConfig (pp c) (Running (kw x)) (k (got, None)) (wlog c ++ [wev (PWrite b) x]) rl)
            | _ => None
            end
      | PCloseRead e => fun k =>
          Some (mkConfig (closeRead e (pp c)) (wr c) (k tt) (wlog c) (rlog c ++ [rev_ (PCloseRead e) tt]))
      | PSignal => fun k => Some (mkConfig (signal (pp c)) (wr c) (k tt) (wlog c) (rlog c ++ [rev_ PSignal tt]))
      | PEnv a => fun k =>
          Some (mkConfig (pp c) (wr c) (k (rh a)) (wlog c) (rlog c ++ [rev_ (PEnv a) (rh a)]))
      | _ => fun _ => None
      end k
  end.

(** The reader runs as long as it can. *)
Fixpoint schedule (n : nat) (c : config) : config :=
  match n with
  | O => c
  | S n =>
      match sched_r c with
      | Some c' => schedule n c'
      | None => match sched_w c with Some c' => schedule n c' | None => c end
      end
  end.

Lemma sched_w_step c c' : sched_w c = Some c' -> step c c'.
Proof.
  destruct c as [p [[a|e k]|b n k] r wl rl]; unfold sched_w; simpl; [done| |].
  - destruct e; try done; try (intros [= <-]; by constructor).
    + destruct (is_done p) eqn:Hd; intros [= <-]; by constructor.
    + destruct r; intros [= <-]; by constructor.
  - destruct (is_done p) eqn:Hd; intros [= <-]; by constructor.
Qed.

Lemma sched_r_step c c' : sched_r c = Some c' -> step c c'.
Proof.
  destruct c as [p w [b|e k] wl rl]; unfold sched_r; simpl; [done|].
  destruct e as [| |m| | | | |]; try done; try (intros [= <-]; by constructor).
  destruct (is_done p) eqn:Hd; [intros [= <-]; by constructor|].
  destruct w as [|b n kw]; [done|]. destruct (Nat.ltb_spec (n + length (take (Z.to_nat m) (drop n b))) (length b));
    intros [= <-]; [by apply step_transfer|by apply step_transfer_last].
Qed.

Lemma schedule_steps n c : rtc step c (schedule n c).
Proof.
  revert c. induction n as [|n IH]; intros c; simpl; [done|].
  destruct (sched_r c) as [c'|] eqn:Hr; [eapply rtc_l; [by apply sched_r_step|done]|].
  destruct (sched_w c) as [c'|] eqn:Hw; [eapply rtc_l; [by apply sched_w_step|done]|done].
Qed.

End Schedule.

End Pipe.
