(* ===== verification/Tracing.v ===== *)
(** * Tracing wrappers

    [internal/storage/tracing.go], [internal/db/tracing.go] and
    [internal/telemetry/tracing.go]: the wrappers between the query manager and a
    result backend or a database pool. A client is a program over the operations of
    backends and pools ([bact]); [wrap] runs it with the wrappers in between, whose
    calls of the tracing library are actions of their own ([TSpan]). The theorem is
    that the client cannot tell the difference, and what becomes of the spans. *)

From S2P Require Import Prelude Domain Utf8 Text Prog.

Open Scope Z_scope.
Open Scope dbb_scope.

(** ** Operations *)

(** Writers, readers and row streams are numbers. [BWriter] answers with the
    locator and the writer or the error; [BWriteTo] is the copy of a reader into a
    writer, by the reader's own method or [io.Copy]. *)
Inductive bact :=
| BWriter (queryID format : string) | BWrite (w : Z) (p : bytes) | BCloseWriter (w : Z)
| BReader (ref : ResultRef) | BRead (r : Z) (size : Z) | BWriteTo (r : Z) (dest : Z) | BCloseReader (r : Z)
| BStat (ref : ResultRef) | BDelete (ref : ResultRef)
| BExec (sql : string) | BColumns (s : Z) | BNext (s : Z) | BScan (s : Z) | BErr (s : Z) | BCloseRows (s : Z).

Definition bans (a : bact) : Type :=
  match a with
  | BWriter _ _ => ResultRef * result Z
  | BWrite _ _ | BWriteTo _ _ => Z * option error
  | BReader _ | BExec _ => result Z
  | BRead _ _ => bytes * option error
  | BStat _ => ResultRef * option error
  | BColumns _ => result (list string)
  | BNext _ => bool
  | BCloseWriter _ | BCloseReader _ | BDelete _ | BScan _ | BErr _ | BCloseRows _ => option error
  end.

(** The tracing library. *)
Inductive spact :=
| SStart (name : string) (attrs : list (string * string))
| SRecordError (span : Z) (e : error)
| SSetStatus (span : Z) (description : string)
| SSetAttributes (span : Z) (key : string) (value : Z)
| SEnd (span : Z).

Definition spans (a : spact) : Type := match a with SStart _ _ => Z | _ => unit end.

(** [TLook] is a call a wrapper makes on its own account. *)
Inductive tact := TSpan (a : spact) | TIn (a : bact) | TLook (a : bact).

Definition tans (a : tact) : Type :=
  match a with TSpan a => spans a | TIn a | TLook a => bans a end.

Abbreviation T A := (prog tans A).

Definition start_span (name : string) (attrs : list (string * string)) : T Z := call (TSpan (SStart name attrs)).

(** [telemetry.EndSpan]. *)
Definition EndSpan (span : Z) (err : option error) : T unit :=
  (match err with
   | Some e => call (TSpan (SRecordError span e)) ;; call (TSpan (SSetStatus span (Error e)))
   | None => Ret tt
   end : T unit) ;;
  call (TSpan (SEnd span)).

(** ** Wrapped objects *)

Inductive handle := HWriter (w : Z) | HReader (r : Z) | HRows (s : Z).

#[export] Instance handle_eq_dec : EqDecision handle.
Proof. solve_decision. Defined.

#[export] Instance handle_countable : Countable handle.
Proof.
  refine (inj_countable' (fun h => match h with HWriter z => (0, z) | HReader z => (1, z) | HRows z => (2, z) end)
    (fun p => match p with (0, z) => HWriter z | (1, z) => HReader z | (_, z) => HRows z end) _).
  by intros [].
Defined.

(** The span of an object and what it counted: bytes, or rows. *)
Record traced_obj := mkObj { o_span : Z; o_count : Z }.

Abbreviation objects := (gmap handle traced_obj).

Definition add_count (h : handle) (n : Z) (st : objects) : objects :=
  alter (fun o => mkObj (o_span o) (i64_add (o_count o) n)) h st.

(** [Close] of a wrapped object, which every object that was handed out has. *)
Definition close_obj (h : handle) (key : string) (err : option error) (st : objects) : T unit :=
  match st !! h with
  | Some o => call (TSpan (SSetAttributes (o_span o) key (o_count o))) ;; EndSpan (o_span o) err
  | None => Ret tt
  end.

Section Wrappers.
Context (backend engine : string).

(** *** Result backends *)

Definition tracedStore_Writer (queryID format : string) (st : objects) : T (bans (BWriter queryID format) * objects) :=
  do span <- start_span "storage.write"
               [("storage.backend", backend); ("query.id", queryID); ("result.format", format)];
  do '(ref, out) <- call (TIn (BWriter queryID format));
  match out with
  | Err e => EndSpan span (Some e) ;; Ret (ref, Err e, st)
  | Ok w => Ret (ref, Ok w, <[HWriter w := mkObj span 0]> st)
  end.

Definition tracedStore_Reader (ref : ResultRef) (st : objects) : T (bans (BReader ref) * objects) :=
  do span <- start_span "storage.read" [("storage.backend", backend); ("result.locator", Locator ref)];
  do out <- call (TIn (BReader ref));
  match out with
  | Err e => EndSpan span (Some e) ;; Ret (Err e, st)
  | Ok r => Ret (Ok r, <[HReader r := mkObj span 0]> st)
  end.

Definition tracedStore_Stat (ref : ResultRef) (st : objects) : T (bans (BStat ref) * objects) :=
  do span <- start_span "storage.stat" [("storage.backend", backend); ("result.locator", Locator ref)];
  do out <- call (TIn (BStat ref));
  EndSpan span out.2 ;; Ret (out, st).

Definition tracedStore_Delete (ref : ResultRef) (st : objects) : T (bans (BDelete ref) * objects) :=
  do span <- start_span "storage.delete" [("storage.backend", backend); ("result.locator", Locator ref)];
  do err <- call (TIn (BDelete ref));
  EndSpan span err ;; Ret (err, st).

Definition tracedWriteCloser_Write (w : Z) (p : bytes) (st : objects) : T (bans (BWrite w p) * objects) :=
  do out <- call (TIn (BWrite w p));
  Ret (out, add_count (HWriter w) out.1 st).

Definition tracedWriteCloser_Close (w : Z) (st : objects) : T (bans (BCloseWriter w) * objects) :=
  do err <- call (TIn (BCloseWriter w));
  close_obj (HWriter w) "storage.bytes_written" err st ;; Ret (err, st).

Definition tracedReadCloser_Read (r size : Z) (st : objects) : T (bans (BRead r size) * objects) :=
  do out <- call (TIn (BRead r size));
  Ret (out, add_count (HReader r) (Z.of_nat (length out.1)) st).

Definition tracedReadCloser_WriteTo (r dest : Z) (st : objects) : T (bans (BWriteTo r dest) * objects) :=
  do out <- call (TIn (BWriteTo r dest));
  Ret (out, add_count (HReader r) out.1 st).

Definition tracedReadCloser_Close (r : Z) (st : objects) : T (bans (BCloseReader r) * objects) :=
  do err <- call (TIn (BCloseReader r));
  close_obj (HReader r) "storage.bytes_read" err st ;; Ret (err, st).

(** *** Pools *)

Definition newTracedRowStream (s : Z) (st : objects) : T objects :=
  do span <- start_span "db.rows" [("db.system", engine)];
  Ret (<[HRows s := mkObj span 0]> st).

(** The deferred end of the first span runs after the second one was started. *)
Definition tracedPool_Exec (sql : string) (st : objects) : T (bans (BExec sql) * objects) :=
  do span <- start_span "db.exec" [("db.system", engine)];
  do out <- call (TIn (BExec sql));
  match out with
  | Err e => EndSpan span (Some e) ;; Ret (Err e, st)
  | Ok s => do st <- newTracedRowStream s st; EndSpan span None ;; Ret (Ok s, st)
  end.

Definition tracedRowStream_Next (s : Z) (st : objects) : T (bans (BNext s) * objects) :=
  do ok <- call (TIn (BNext s));
  Ret (ok, if (ok : bool) then add_count (HRows s) 1 st else st).

(** The span reports the error of the stream when closing has none; the caller gets
    the one of closing. *)
Definition tracedRowStream_Close (s : Z) (st : objects) : T (bans (BCloseRows s) * objects) :=
  do err <- call (TIn (BCloseRows s));
  do spanErr <- match err with
                | Some e => Ret (Some e)
                | None => call (TLook (BErr s)) : T (option error)
                end;
  close_obj (HRows s) "db.rows_read" spanErr st ;; Ret (err, st).

(** The wrappers embed what they do not change. *)
Definition embedded (a : bact) (st : objects) : T (bans a * objects) := do x <- call (TIn a); Ret (x, st).

Definition traced (a : bact) : objects -> T (bans a * objects) :=
  match a with
  | BWriter q f => tracedStore_Writer q f
  | BWrite w p => tracedWriteCloser_Write w p
  | BCloseWriter w => tracedWriteCloser_Close w
  | BReader ref => tracedStore_Reader ref
  | BRead r n => tracedReadCloser_Read r n
  | BWriteTo r d => tracedReadCloser_WriteTo r d
  | BCloseReader r => tracedReadCloser_Close r
  | BStat ref => tracedStore_Stat ref
  | BDelete ref => tracedStore_Delete ref
  | BExec sql => tracedPool_Exec sql
  | BNext s => tracedRowStream_Next s
  | BCloseRows s => tracedRowStream_Close s
  | BColumns s => embedded (BColumns s)
  | BScan s => embedded (BScan s)
  | BErr s => embedded (BErr s)
  end.

(** A client with the wrappers in between. *)
Fixpoint wrap {A} (p : prog bans A) (st : objects) : T (A * objects) :=
  match p with
  | Ret a => Ret (a, st)
  | Vis e k => do '(x, st) <- traced e st; wrap (k x) st
  end.

(** ** What a trace shows *)

Abbreviation ttrace := (list (event tans)).

(** The calls of the client, in order. *)
Definition inner_ev (ev : event tans) : list (event bans) :=
  let '(existT a x) := ev in
  match a return tans a -> list (event bans) with TIn a => fun x => [existT a x] | _ => fun _ => [] end x.

Definition started_ev (ev : event tans) : list Z :=
  let '(existT a x) := ev in
  match a return tans a -> list Z with
  | TSpan a => match a return spans a -> list Z with SStart _ _ => fun x => [x] | _ => fun _ => [] end
  | _ => fun _ => []
  end x.

Definition ended_ev (ev : event tans) : list Z :=
  match projT1 ev with TSpan (SEnd s) => [s] | _ => [] end.

Definition recorded_ev (ev : event tans) : list error :=
  match projT1 ev with TSpan (SRecordError _ e) => [e] | _ => [] end.

(** The errors a wrapper found by asking a row stream on its own account. *)
Definition looked_ev (ev : event tans) : list error :=
  let '(existT a x) := ev in
  match a return tans a -> list error with
  | TLook a => match a return bans a -> list error with BErr _ => fun x => option_list x | _ => fun _ => [] end
  | _ => fun _ => []
  end x.

Definition asked_ev (ev : event tans) : list Z :=
  match projT1 ev with TLook (BErr s) => [s] | _ => [] end.

Definition inner (tr : ttrace) : list (event bans) := concat (map inner_ev tr).
Definition started (tr : ttrace) : list Z := concat (map started_ev tr).
Definition ended (tr : ttrace) : list Z := concat (map ended_ev tr).
Definition recorded (tr : ttrace) : list error := concat (map recorded_ev tr).
Definition looked (tr : ttrace) : list error := concat (map looked_ev tr).
Definition asked (tr : ttrace) : list Z := concat (map asked_ev tr).

Lemma concat_map_app {X Y} (f : X -> list Y) l1 l2 : concat (map f (l1 ++ l2)) = concat (map f l1) ++ concat (map f l2).
Proof. by rewrite map_app, concat_app. Qed.

(** The object an operation hands out, and the one it closes. *)
Definition opens (ev : event bans) : option handle :=
  let '(existT a x) := ev in
  match a return bans a -> option handle with
  | BWriter _ _ => fun x => match x.2 with Ok w => Some (HWriter w) | Err _ => None end
  | BReader _ => fun x => match x with Ok r => Some (HReader r) | Err _ => None end
  | BExec _ => fun x => match x with Ok s => Some (HRows s) | Err _ => None end
  | _ => fun _ => None
  end x.

Definition closes (a : bact) : option handle :=
  match a with
  | BCloseWriter w => Some (HWriter w)
  | BCloseReader r => Some (HReader r)
  | BCloseRows s => Some (HRows s)
  | _ => None
  end.

(** A row stream that was closed without an error. *)
Definition closes_cleanly (ev : event bans) : option Z :=
  let '(existT a x) := ev in
  match a return bans a -> option Z with
  | BCloseRows s => fun x => match x with None => Some s | Some _ => None end
  | _ => fun _ => None
  end x.

Lemma not_closing a x : closes a = None -> closes_cleanly (existT a x) = None.
Proof. by destruct a. Qed.

(** The error of an operation that has a span of its own or ends one: opening, [Stat],
    [Delete] and closing. The errors of single writes, reads and copies, of [Columns],
    of [Scan] and of [Err] are only passed on. *)
Definition span_error (ev : event bans) : option error :=
  let '(existT a x) := ev in
  match a return bans a -> option error with
  | BWriter _ _ => fun x => match x.2 with Err e => Some e | Ok _ => None end
  | BReader _ | BExec _ => fun x => match x with Err e => Some e | Ok _ => None end
  | BStat _ => fun x => x.2
  | BDelete _ | BCloseWriter _ | BCloseReader _ | BCloseRows _ => fun x => x
  | _ => fun _ => None
  end x.

Definition bev (a : bact) (x : bans a) : event bans := existT a x.

(** What one wrapped operation does: the operation itself, once; a span it starts is
    ended or belongs to the object handed out; the objects keep their spans; closing
    an object ends its span; and the errors recorded are that of the operation, if it
    is one with a span, and the one the wrapper found by asking. *)
Record traced_as (a : bact) (st : objects) (tr : ttrace) (x : bans a) (st' : objects) : Prop := {
  ta_inner : inner tr = [bev a x];
  ta_started s : s ∈ started tr -> s ∈ ended tr \/ exists h o, opens (bev a x) = Some h /\ st' !! h = Some o /\ o_span o = s;
  ta_keeps h : opens (bev a x) <> Some h -> o_span <$> st' !! h = o_span <$> st !! h;
  ta_known h : opens (bev a x) = Some h -> is_Some (st' !! h);
  ta_closes h o : closes a = Some h -> st !! h = Some o -> o_span o ∈ ended tr;
  ta_recorded : (forall h, closes a = Some h -> is_Some (st !! h)) ->
    recorded tr = option_list (span_error (bev a x)) ++ looked tr;
  ta_asked : asked tr = option_list (closes_cleanly (bev a x))
}.

Lemma EndSpan_spec s err tr u : executes (EndSpan s err) tr u ->
  inner tr = [] /\ started tr = [] /\ ended tr = [s] /\ recorded tr = option_list err /\ looked tr = [] /\ asked tr = [].
Proof.
  unfold EndSpan. destruct err as [e|].
  - by intros (? & ? & -> & ? & ? & -> & ? & ? & -> & -> & _).
  - by intros (? & ? & -> & -> & _).
Qed.

Lemma close_obj_spec h key err st tr u : executes (close_obj h key err st) tr u ->
  inner tr = [] /\ started tr = [] /\ (looked tr = [] /\ asked tr = []) /\
  (forall o, st !! h = Some o -> o_span o ∈ ended tr /\ recorded tr = option_list err).
Proof.
  unfold close_obj. destruct (st !! h) as [o|].
  - intros (x & tr' & -> & H). cbn [bind call] in H. apply EndSpan_spec in H as (H1 & H2 & H3 & H4 & H5 & H6).
    unfold inner, started, ended, recorded, looked, asked in *. cbn [map concat inner_ev started_ev ended_ev recorded_ev looked_ev asked_ev projT1 Datatypes.app].
    split_and!; [done..|]. intros o' [= <-]. rewrite H3, H4. split; [by left|done].
  - intros [-> _]. done.
Qed.

Lemma add_count_span h h' n st : o_span <$> add_count h n st !! h' = o_span <$> st !! h'.
Proof.
  unfold add_count. destruct (decide (h = h')) as [->|Hne].
  - rewrite lookup_alter_eq. by destruct (st !! h').
  - by rewrite lookup_alter_ne.
Qed.

(** *** Each wrapped operation *)

Lemma use_as a st f tr x st' :
  executes (do y <- call (TIn a); Ret (y, f y) : T (bans a * objects)) tr (x, st') ->
  (forall y h, o_span <$> f y !! h = o_span <$> st !! h) -> closes a = None ->
  (forall y, opens (bev a y) = None) -> (forall y, span_error (bev a y) = None) ->
  traced_as a st tr x st'.
Proof.
  intros (y & tr' & -> & [-> [= -> ->]]) Hf Hc Ho He.
  split; [done|by intros s Hs%elem_of_nil|intros h _; apply Hf| | |intros _; by rewrite He|by rewrite not_closing];
    intros h; rewrite ?Ho, ?Hc; done.
Qed.

Lemma instant_as name attrs a (err : bans a -> option error) st tr x st' :
  executes (do span <- start_span name attrs; do y <- call (TIn a); EndSpan span (err y) ;; Ret (y, st)) tr (x, st') ->
  closes a = None -> (forall y, opens (bev a y) = None) -> (forall y, span_error (bev a y) = err y) ->
  traced_as a st tr x st'.
Proof.
  intros (s & tr1 & -> & Hex) Hc Ho He. cbn [bind call] in Hex. destruct Hex as (y & tr2 & -> & Hex). cbn [bind call] in Hex.
  apply executes_bind in Hex as (t1 & t2 & u & -> & (H1 & H2 & H3 & H4 & H5 & H6)%EndSpan_spec & [-> [= -> ->]]).
  rewrite app_nil_r. unfold inner, started, ended, recorded, looked, asked in *.
  split; unfold inner, started, ended, recorded, looked, asked;
    cbn [map concat inner_ev started_ev ended_ev recorded_ev looked_ev asked_ev projT1 Datatypes.app]; rewrite ?H1, ?H2, ?H3, ?H4, ?H5, ?H6.
  - done.
  - intros s' ->%list_elem_of_singleton. left. by left.
  - done.
  - intros h. by rewrite Ho.
  - intros h o. by rewrite Hc.
  - intros _. by rewrite He, app_nil_r.
  - by rewrite not_closing.
Qed.

(** A look at the object under the wrapper leaves the spans alone. *)
Definition silent (tr : ttrace) : Prop := inner tr = [] /\ started tr = [] /\ ended tr = [] /\ recorded tr = [].

Lemma close_as a h key (err : bans a -> option error) (look : option error -> T (option error)) st tr x st' :
  executes (do y <- call (TIn a); do e <- look (err y); close_obj h key e st ;; Ret (y, st)) tr (x, st') ->
  (forall e t e', executes (look e) t e' -> silent t /\ option_list e' = option_list e ++ looked t) ->
  (forall y t e', executes (look (err y)) t e' -> asked t = option_list (closes_cleanly (bev a y))) ->
  closes a = Some h -> (forall y, opens (bev a y) = None) -> (forall y, span_error (bev a y) = err y) ->
  traced_as a st tr x st'.
Proof.
  intros (y & tr1 & -> & Hex) Hlook Hask Hc Ho He. cbn [bind call] in Hex.
  apply executes_bind in Hex as (t1 & t2 & e' & -> & Hl & Hex).
  apply executes_bind in Hex as (t3 & t4 & u & -> & (H1 & H2 & (H5 & H6) & H3)%close_obj_spec & [-> [= -> ->]]).
  pose proof (Hask _ _ _ Hl) as La. destruct (Hlook _ _ _ Hl) as [(L1 & L2 & L3 & L4) Hsame]. rewrite app_nil_r.
  unfold inner, started, ended, recorded, looked, asked in *.
  split; unfold inner, started, ended, recorded, looked, asked;
    cbn [map concat inner_ev started_ev ended_ev recorded_ev looked_ev asked_ev projT1 Datatypes.app];
    rewrite ?concat_map_app, ?L1, ?L2, ?L3, ?L4, ?H1, ?H2, ?H5, ?H6; cbn [Datatypes.app].
  - done.
  - by intros s ?%elem_of_nil.
  - done.
  - intros h'. by rewrite Ho.
  - intros h' o. rewrite Hc. intros [= <-] Hst. by apply H3.
  - intros Hk. destruct (Hk h Hc) as [o Hst]. destruct (H3 o Hst) as [_ ->].
    unfold looked in Hsame. by rewrite He, app_nil_r, Hsame.
  - by rewrite app_nil_r.
Qed.

(** A span that was started for an object. *)
Lemma open_as a st tr x st' span h :
  inner tr = [bev a x] -> started tr = [span] -> recorded tr = [] -> looked tr = [] -> asked tr = [] ->
  opens (bev a x) = Some h -> closes a = None -> span_error (bev a x) = None -> st' = <[h := mkObj span 0]> st -> traced_as a st tr x st'.
Proof.
  intros Hi Hs Hr Hl Ha Ho Hc He ->.
  split; [done| | | |intros h' o; by rewrite Hc|intros _; by rewrite He, Hr, Hl|by rewrite Ha, not_closing].
  - intros s. rewrite Hs. intros ->%list_elem_of_singleton. right. exists h, (mkObj span 0). by rewrite lookup_insert_eq.
  - intros h' Hne. rewrite lookup_insert_ne; [done|]. intros ->. by destruct Hne.
  - intros h'. rewrite Ho. intros [= <-]. by rewrite lookup_insert_eq.
Qed.

Lemma failed_as a st tr x span e :
  inner tr = [bev a x] -> started tr = [span] -> ended tr = [span] -> recorded tr = [e] -> looked tr = [] -> asked tr = [] ->
  opens (bev a x) = None -> closes a = None -> span_error (bev a x) = Some e -> traced_as a st tr x st.
Proof.
  intros Hi Hs Hen Hr Hl Ha Ho Hc He. split; [done| |done| |intros h o; by rewrite Hc| |by rewrite Ha, not_closing].
  - intros s. rewrite Hs, Hen. by left.
  - intros h. by rewrite Ho.
  - intros _. by rewrite He, Hr, Hl.
Qed.

Ltac spans_of :=
  unfold inner, started, ended, recorded, looked, asked in *;
  cbn [map concat inner_ev started_ev ended_ev recorded_ev looked_ev asked_ev projT1 Datatypes.app];
  rewrite ?concat_map_app;
  repeat match goal with H : concat (map _ _) = _ |- _ => rewrite H end; done.

Lemma writer_as queryID format st tr x st' :
  executes (tracedStore_Writer queryID format st) tr (x, st') -> traced_as (BWriter queryID format) st tr x st'.
Proof.
  intros (s & tr1 & -> & Hex). cbn [bind call] in Hex. destruct Hex as ([ref out] & tr2 & -> & Hex). cbn [bind call] in Hex.
  destruct out as [w|e].
  - destruct Hex as [-> [= -> ->]]. by apply (open_as _ _ _ _ _ s (HWriter w)).
  - apply executes_bind in Hex as (t1 & t2 & u & -> & (H1 & H2 & H3 & H4 & H5 & H6)%EndSpan_spec & [-> [= -> ->]]).
    rewrite app_nil_r. apply (failed_as _ _ _ _ s e); [spans_of..|done|done|done].
Qed.

Lemma reader_as ref st tr x st' :
  executes (tracedStore_Reader ref st) tr (x, st') -> traced_as (BReader ref) st tr x st'.
Proof.
  intros (s & tr1 & -> & Hex). cbn [bind call] in Hex. destruct Hex as (out & tr2 & -> & Hex). cbn [bind call] in Hex.
  destruct out as [r|e].
  - destruct Hex as [-> [= -> ->]]. by apply (open_as _ _ _ _ _ s (HReader r)).
  - apply executes_bind in Hex as (t1 & t2 & u & -> & (H1 & H2 & H3 & H4 & H5 & H6)%EndSpan_spec & [-> [= -> ->]]).
    rewrite app_nil_r. apply (failed_as _ _ _ _ s e); [spans_of..|done|done|done].
Qed.

Lemma exec_as sql st tr x st' :
  executes (tracedPool_Exec sql st) tr (x, st') -> traced_as (BExec sql) st tr x st'.
Proof.
  intros (s & tr1 & -> & Hex). cbn [bind call] in Hex. destruct Hex as (out & tr2 & -> & Hex). cbn [bind call] in Hex.
  destruct out as [r|e].
  - destruct Hex as (s2 & tr3 & -> & Hex). cbn [bind call] in Hex.
    apply executes_bind in Hex as (t1 & t2 & u & -> & (H1 & H2 & H3 & H4 & H5 & H6)%EndSpan_spec & [-> [= -> ->]]).
    rewrite app_nil_r.
    assert (traced_as (BExec sql) st [existT (TSpan (SStart "db.rows" [("db.system", engine)])) s2; existT (TIn (BExec sql)) (Ok r)]
      (Ok r) (<[HRows r := mkObj s2 0]> st)) as [A1 A2 A3 A4 A5 A6 _] by (by apply (open_as _ _ _ _ _ s2 (HRows r))).
    split; [spans_of| |exact A3|exact A4|done|intros _; spans_of|spans_of].
    intros s'. unfold started, ended, inner in *. cbn [map concat started_ev ended_ev projT1 Datatypes.app].
    rewrite H2, H3. rewrite elem_of_cons. intros [->|Hs']; [left; by left|].
    destruct (A2 s') as [Hn|?]; [by rewrite <- Hs' || exact Hs'|by apply elem_of_nil in Hn|by right].
  - apply executes_bind in Hex as (t1 & t2 & u & -> & (H1 & H2 & H3 & H4 & H5 & H6)%EndSpan_spec & [-> [= -> ->]]).
    rewrite app_nil_r. apply (failed_as _ _ _ _ s e); [spans_of..|done|done|done].
Qed.

Lemma traced_spec a st tr x st' : executes (traced a st) tr (x, st') -> traced_as a st tr x st'.
Proof.
  destruct a; cbn [traced]; try (intros H; eapply use_as in H; [exact H|..]; done);
    try (intros H; eapply use_as in H; [exact H|intros; apply add_count_span|done..]).
  - apply writer_as.
  - intros H. eapply (close_as (BCloseWriter w) _ _ (fun y => y) Ret) in H; [exact H| | |done..].
    + intros e t e' [-> ->]. by rewrite app_nil_r.
    + by intros y t e' [-> ->].
  - apply reader_as.
  - intros H. eapply (close_as (BCloseReader r) _ _ (fun y => y) Ret) in H; [exact H| | |done..].
    + intros e t e' [-> ->]. by rewrite app_nil_r.
    + by intros y t e' [-> ->].
  - intros H. by eapply (instant_as _ _ (BStat ref) snd) in H.
  - intros H. by eapply (instant_as _ _ (BDelete ref) (fun y => y)) in H.
  - apply exec_as.
  - intros H. eapply (use_as (BNext s) st (fun ok => if ok : bool then add_count (HRows s) 1 st else st)) in H; [exact H| |done..].
    intros [] h; [apply add_count_span|done].
  - intros H. eapply (close_as (BCloseRows s) _ _ (fun y => y)
      (fun err => match err with Some e => Ret (Some e) | None => call (TLook (BErr s)) end)) in H; [exact H| | |done..].
    + intros [e|] t e'; [by intros [-> ->]|]. intros (y & t' & -> & [-> ->]). split; [done|].
      unfold looked. simpl. by rewrite app_nil_r.
    + intros [e|] t e'; [by intros [-> ->]|]. by intros (y & t' & -> & [-> ->]).
Qed.

(** *** Every answer can be passed on *)

Definition runs {A} (p : T A) (Q : A -> Prop) : Prop := exists tr a, executes p tr a /\ Q a.

Lemma runs_vis {A} e (k : tans e -> T A) x Q : runs (k x) Q -> runs (Vis e k) Q.
Proof. intros (tr & a & Hex & HQ). exists (existT e x :: tr), a. split; [|done]. by exists x, tr. Qed.

Lemma runs_bind {A B} (p : T A) (f : A -> T B) Q : runs p (fun a => runs (f a) Q) -> runs (bind p f) Q.
Proof.
  intros (tr & a & Hp & tr' & b & Hf & HQ). exists (tr ++ tr'), b. split; [|done].
  apply executes_bind. by exists tr, tr', a.
Qed.

Lemma runs_ret {A} (a : A) (Q : A -> Prop) : Q a -> runs (Ret a) Q.
Proof. by exists [], a. Qed.

Lemma runs_EndSpan s err : runs (EndSpan s err) (fun _ => True).
Proof.
  unfold EndSpan. destruct err as [e|]; cbn [bind call].
  - apply (runs_vis (TSpan (SRecordError s e)) _ tt), (runs_vis (TSpan (SSetStatus s (Error e))) _ tt).
    apply (runs_vis (TSpan (SEnd s)) _ tt). by apply runs_ret.
  - apply (runs_vis (TSpan (SEnd s)) _ tt). by apply runs_ret.
Qed.

Lemma runs_close_obj h key err st : runs (close_obj h key err st) (fun _ => True).
Proof.
  unfold close_obj. destruct (st !! h) as [o|]; [|by apply runs_ret].
  apply (runs_vis (TSpan (SSetAttributes (o_span o) key (o_count o))) _ tt), runs_EndSpan.
Qed.

Lemma runs_then {A B} (p : T A) (f : A -> T B) Q : runs p (fun _ => True) -> (forall a, runs (f a) Q) -> runs (bind p f) Q.
Proof. intros (tr & a & Hp & _) Hf. apply runs_bind. exists tr, a. by split. Qed.

Lemma traced_runs a st (x : bans a) : runs (traced a st) (fun out => out.1 = x).
Proof.
  destruct a; cbn [traced];
    try (apply (runs_vis (TIn _) _ x); by apply runs_ret);
    try (apply (runs_vis (TSpan (SStart _ _)) _ 0); apply (runs_vis (TIn _) _ x));
    try (apply (runs_vis (TIn _) _ x)); cbn [bind call];
    try (apply runs_then; [apply runs_EndSpan || apply runs_close_obj|intros; by apply runs_ret]).
  - destruct x as [ref [w|e]]; [by apply runs_ret|].
    apply runs_then; [apply runs_EndSpan|intros; by apply runs_ret].
  - destruct x as [r|e]; [by apply runs_ret|].
    apply runs_then; [apply runs_EndSpan|intros; by apply runs_ret].
  - destruct x as [s|e].
    + apply (runs_vis (TSpan (SStart _ _)) _ 1). apply runs_then; [apply runs_EndSpan|intros; by apply runs_ret].
    + apply runs_then; [apply runs_EndSpan|intros; by apply runs_ret].
  - apply runs_then.
    + destruct x as [e|]; [by apply runs_ret|]. apply (runs_vis (TLook (BErr s)) _ None). by apply runs_ret.
    + intros e. apply runs_then; [apply runs_close_obj|intros; by apply runs_ret].
Qed.

(** ** The client cannot tell *)

(** A client that closes what it opened, as often as it likes, and a backend that
    does not hand out an object twice. *)
Fixpoint disciplined (known : gset handle) (tr : list (event bans)) : Prop :=
  match tr with
  | [] => True
  | ev :: tr =>
      (forall h, closes (projT1 ev) = Some h -> h ∈ known) /\
      (forall h, opens ev = Some h -> h ∉ known) /\
      disciplined (match opens ev with Some h => {[h]} ∪ known | None => known end) tr
  end.

Lemma wrap_inner {A} (p : prog bans A) st tr a st' :
  executes (wrap p st) tr (a, st') -> executes p (inner tr) a.
Proof.
  revert st tr. induction p as [b|e k IH]; intros st tr; cbn [wrap]; [by intros [-> [= -> ->]]|].
  intros (t1 & t2 & [x s1] & -> & Hop%traced_spec & Hex)%executes_bind.
  unfold inner. rewrite concat_map_app. fold (inner t1) (inner t2). rewrite (ta_inner _ _ _ _ _ Hop).
  exists x, (inner t2). split; [done|]. by eapply IH.
Qed.

Lemma wrap_runs {A} (p : prog bans A) st tri a :
  executes p tri a -> exists tr st', executes (wrap p st) tr (a, st') /\ inner tr = tri.
Proof.
  revert st tri. induction p as [b|e k IH]; intros st tri; cbn [wrap].
  { intros [-> ->]. by exists [], st. }
  intros (x & tri' & -> & Hex). destruct (traced_runs e st x) as (t1 & [y s1] & Hop & Hy). simpl in Hy. subst y.
  destruct (IH x s1 tri' Hex) as (t2 & st' & Hw & Hi). exists (t1 ++ t2), st'. split.
  - apply executes_bind. by exists t1, t2, (x, s1).
  - unfold inner. rewrite concat_map_app. fold (inner t1) (inner t2).
    by rewrite (ta_inner _ _ _ _ _ (traced_spec _ _ _ _ _ Hop)), Hi.
Qed.

(** What is known of the spans after the client has run from a table of objects. *)
Record spans_kept (st : objects) (tr : ttrace) (st' : objects) : Prop := {
  sk_keeps h o : st !! h = Some o -> exists o', st' !! h = Some o' /\ o_span o' = o_span o;
  sk_started s : s ∈ started tr -> s ∈ ended tr \/ exists h o, st' !! h = Some o /\ o_span o = s;
  sk_closed ev h o : ev ∈ inner tr -> closes (projT1 ev) = Some h -> st' !! h = Some o -> o_span o ∈ ended tr;
  sk_recorded e : e ∈ recorded tr <-> (exists ev, ev ∈ inner tr /\ span_error ev = Some e) \/ e ∈ looked tr;
  sk_asked : asked tr = omap closes_cleanly (inner tr)
}.

Lemma traced_dom a st tr x st' : traced_as a st tr x st' ->
  dom st' = match opens (bev a x) with Some h => {[h]} ∪ dom st | None => dom st end.
Proof.
  intros [_ _ A3 A4 _ _ _].
  assert (forall h, opens (bev a x) <> Some h -> h ∈ dom st' <-> h ∈ dom st) as Hk.
  { intros h Hh. rewrite !elem_of_dom, <- !(fmap_is_Some o_span). by rewrite A3. }
  apply set_eq. intros h. destruct (opens (bev a x)) as [h'|] eqn:Ho; [|by apply Hk].
  rewrite elem_of_union, elem_of_singleton. destruct (decide (h = h')) as [->|Hne].
  - rewrite elem_of_dom. split; [by left|]. intros _. by apply A4.
  - rewrite Hk by congruence. split; [by right|]. by intros [?|?].
Qed.

Lemma spans_kept_step a st t1 x s1 t2 st' :
  traced_as a st t1 x s1 -> (forall h, closes a = Some h -> h ∈ dom st) ->
  (forall h, opens (bev a x) = Some h -> h ∉ dom st) -> spans_kept s1 t2 st' -> spans_kept st (t1 ++ t2) st'.
Proof.
  intros [A1 A2 A3 A4 A5 A6 A7] Hc Ho [B1 B2 B3 B4 B5].
  assert (forall h o, st !! h = Some o -> exists o', st' !! h = Some o' /\ o_span o' = o_span o) as Hkeep.
  { intros h o Hh. assert (opens (bev a x) <> Some h) as Hne.
    { intros Heq. apply (Ho h Heq). by apply elem_of_dom_2 in Hh. }
    specialize (A3 h Hne). rewrite Hh in A3. destruct (s1 !! h) as [o1|] eqn:H1; [|done]. simpl in A3. injection A3 as A3.
    destruct (B1 h o1 H1) as (o' & ? & ?). exists o'. split; [done|congruence]. }
  unfold started, ended, inner, recorded, looked, asked in *.
  split; unfold started, ended, inner, recorded, looked, asked; [exact Hkeep| | | |]; rewrite !concat_map_app.
  - intros s [Hs|Hs]%elem_of_app.
    + destruct (A2 s Hs) as [He|(h & o & _ & Hh & <-)]; [left; by apply elem_of_app; left|].
      destruct (B1 h o Hh) as (o' & Hh' & <-). right. by exists h, o'.
    + destruct (B2 s Hs) as [He|?]; [left; by apply elem_of_app; right|by right].
  - intros ev h o [Hev|Hev]%elem_of_app Hcl Hh; apply elem_of_app.
    + rewrite A1 in Hev. apply list_elem_of_singleton in Hev as ->. simpl in Hcl.
      specialize (Hc h Hcl). apply elem_of_dom in Hc as [o0 Hst]. left.
      destruct (Hkeep h o0 Hst) as (o' & Hh' & Hsp). rewrite Hh' in Hh. injection Hh as ->. rewrite Hsp. by eapply A5.
    + right. by eapply B3.
  - intros e. rewrite !elem_of_app, B4, A6, A1, elem_of_app by (intros h Hcl; by apply elem_of_dom, Hc).
    assert (e ∈ option_list (span_error (bev a x)) <-> span_error (bev a x) = Some e) as ->
      by (destruct (span_error _); set_solver).
    split.
    + intros [[?|?]|[(ev & ? & ?)|?]]; [left; exists (bev a x)|auto|left; exists ev|auto]; set_solver.
    + intros [(ev & [->%list_elem_of_singleton|?]%elem_of_app & ?)|[?|?]]; eauto.
  - rewrite A7, B5, A1. cbn [Datatypes.app]. cbn [omap list_omap]. by destruct (closes_cleanly (bev a x)).
Qed.

Lemma wrap_spans {A} (p : prog bans A) st tr a st' :
  executes (wrap p st) tr (a, st') -> disciplined (dom st) (inner tr) -> spans_kept st tr st'.
Proof.
  revert st tr. induction p as [b|e k IH]; intros st tr; cbn [wrap].
  { intros [-> [= -> ->]] _. split; [by eauto|by intros s ?%elem_of_nil|by intros ev h o ?%elem_of_nil|set_solver|done]. }
  intros (t1 & t2 & [x s1] & -> & Hop%traced_spec & Hex)%executes_bind.
  unfold inner. rewrite concat_map_app. fold (inner t1) (inner t2). rewrite (ta_inner _ _ _ _ _ Hop).
  cbn [Datatypes.app disciplined]. intros (Hc & Ho & Hd). rewrite <- (traced_dom _ _ _ _ _ Hop) in Hd.
  by eapply spans_kept_step; [exact Hop|exact Hc|exact Ho|eapply IH].
Qed.

(** C33. The tracing wrappers are invisible: a client of a result backend and of a
    database pool makes the same calls and gets the same answers with the wrappers as
    without them, and any behaviour without them is one with them. And the spans tell
    the truth: when the client closes only what it opened, a span that was started
    and not ended is the one of an object that was handed out and not closed, and the
    errors recorded in spans are exactly those of opening a writer, a reader or a
    statement, of [Stat], of [Delete] and of closing, and those a row stream reported
    when it was asked, which is done for exactly the streams that were closed without
    an error. The errors of single writes, reads and scans are passed on and not
    recorded. *)
Theorem tracing_invisible {A} (p : prog bans A) tri a :
  (executes p tri a <-> exists tr st', executes (wrap p ∅) tr (a, st') /\ inner tr = tri) /\
  (forall tr st', executes (wrap p ∅) tr (a, st') -> disciplined ∅ (inner tr) ->
     (forall s, s ∈ started tr -> s ∉ ended tr ->
        exists h o, st' !! h = Some o /\ o_span o = s /\
          forall ev, ev ∈ inner tr -> closes (projT1 ev) <> Some h) /\
     (forall e, e ∈ recorded tr <->
        (exists ev, ev ∈ inner tr /\ span_error ev = Some e) \/ e ∈ looked tr) /\
     asked tr = omap closes_cleanly (inner tr)).
Proof.
  split.
  - split; [apply wrap_runs|]. intros (tr & st' & Hex & <-). by eapply wrap_inner.
  - intros tr st' Hex Hd. rewrite <- (dom_empty_L (M := gmap handle) (A := traced_obj)) in Hd.
    destruct (wrap_spans _ _ _ _ _ Hex Hd) as [_ B2 B3 B4 B5]. split; [|by split].
    intros s Hs Hne. destruct (B2 s Hs) as [?|(h & o & Hh & <-)]; [done|]. exists h, o. split_and!; [done..|].
    intros ev Hev Hcl. by apply Hne, (B3 ev h o).
Qed.

End Wrappers.
