(* ===== verification/Meter.v ===== *)
(** * The meter provider

    The lazily built, process-wide provider of [internal/telemetry/metrics.go] and
    the initialization of [otel.go]. The calls of the OpenTelemetry and Prometheus
    libraries are the actions of the programs; what is assumed of them is that a
    call that returns an error has installed nothing. The mutex [providerMu] makes a
    call of [ensureMeterProvider] atomic, so the package variable is passed along. *)

From S2P Require Import Prelude Domain Prog.

Open Scope Z_scope.
Open Scope dbb_scope.

Module Meter.

(** ** Providers *)

Inductive reader := Prometheus | OTLP (endpoint : string).

Record MeterProvider := mkMeterProvider {
  Readers : list reader;
  Resource : option string;
  Boundaries : list Z (* of the duration histogram, in milliseconds *)
}.

Inductive oaction :=
| ONewResource (serviceName : string)
| OSetTextMapPropagator
| ONewOTLPMetricExporter (endpoint : string)
| ONewPrometheusExporter (* registers a collector with the default registry *)
| OSetMeterProvider (p : MeterProvider)
| ONewTraceExporter (endpoint : string)
| OSetTracerProvider
| OTracerShutdown
| OMeterShutdown
| OLog (msg : string).

(** [None] is success, but for the resource, which is a value. *)
Definition oanswer (a : oaction) : Type :=
  match a with
  | ONewResource _ => result string
  | ONewOTLPMetricExporter _ | ONewPrometheusExporter | ONewTraceExporter _ | OTracerShutdown | OMeterShutdown => option error
  | OSetTextMapPropagator | OSetMeterProvider _ | OSetTracerProvider | OLog _ => unit
  end.

Abbreviation OM := (@prog oaction oanswer).

Definition call (a : oaction) : OM (oanswer a) := Prog.call a.

(** ** Operations *)

Definition newOTLPMetricReader (otlpEndpoint : string) : OM (result reader) :=
  do err <- call (ONewOTLPMetricExporter otlpEndpoint);
  match err with
  | Some e => Ret (Err (WrapError "failed to create OTLP metric exporter" e))
  | None => Ret (Ok (OTLP otlpEndpoint))
  end.

Definition query_duration_boundaries : list Z := [5; 10; 25; 50; 100; 250; 500; 1000; 2500; 5000; 10000].

Definition already_built : error :=
  PlainError "the meter provider was already built without them; call InitOTel before serving /metrics".

(** The new value of [providerInstance], and what the call returns. *)
Definition ensureMeterProvider (res : option string) (otlpEndpoint : string) (providerInstance : option MeterProvider) :
    OM (option MeterProvider * result MeterProvider) :=
  match providerInstance with
  | Some p =>
    if negb (bool_decide (res = None)) || negb (otlpEndpoint =? "")%string
    then Ret (providerInstance, Err already_built) else Ret (providerInstance, Ok p)
  | None =>
    do otlpReader <- (if (otlpEndpoint =? "")%string then Ret (Ok [])
                      else do r <- newOTLPMetricReader otlpEndpoint;
                           Ret (match r with Ok reader => Ok [reader] | Err e => Err e end));
    match otlpReader with
    | Err e => Ret (None, Err e)
    | Ok readers =>
      do err <- call ONewPrometheusExporter;
      match err with
      | Some e => Ret (None, Err e)
      | None =>
        let p := mkMeterProvider (Prometheus :: readers) res query_duration_boundaries in
        call (OSetMeterProvider p) ;;
        Ret (Some p, Ok p)
      end
    end
  end.

(** What the returned [OTelShutdown] does: nothing, or shutting down the providers. *)
Inductive OTelShutdown := NoShutdown | ShutdownProviders.

Definition shutdown (s : OTelShutdown) : OM (option error) :=
  match s with
  | NoShutdown => Ret None
  | ShutdownProviders =>
    do e1 <- call OTracerShutdown;
    do e2 <- call OMeterShutdown;
    let errs := option_list (WrapError "tracer provider shutdown failed" <$> e1) ++
                option_list (WrapError "meter provider shutdown failed" <$> e2) in
    match errs with
    | [] => Ret None
    | _ => Ret (Some (PlainError ("OTel shutdown encountered errors: [" +:+ strings_join " " (map Error errs) +:+ "]")))
    end
  end.

Definition InitOTel (serviceName otlpEndpoint : string) (providerInstance : option MeterProvider) :
    OM (option MeterProvider * result OTelShutdown) :=
  do res <- call (ONewResource serviceName);
  match res with
  | Err e => Ret (providerInstance, Err (WrapError "failed to create resource" e))
  | Ok res =>
    call OSetTextMapPropagator ;;
    do '(providerInstance, mp) <- ensureMeterProvider (Some res) otlpEndpoint providerInstance;
    match mp with
    | Err e => Ret (providerInstance, Err (WrapError "failed to initialize metrics" e))
    | Ok _ =>
      if (otlpEndpoint =? "")%string then Ret (providerInstance, Ok NoShutdown)
      else
        do err <- call (ONewTraceExporter otlpEndpoint);
        match err with
        | Some e => Ret (providerInstance, Err (WrapError "failed to create OTLP trace exporter" e))
        | None => call OSetTracerProvider ;; Ret (providerInstance, Ok ShutdownProviders)
        end
    end
  end.

Definition Handler (providerInstance : option MeterProvider) : OM (option MeterProvider) :=
  do '(providerInstance, r) <- ensureMeterProvider None "" providerInstance;
  match r with
  | Err _ => call (OLog "ERROR: failed to initialize the meter provider") ;; Ret providerInstance
  | Ok _ => Ret providerInstance
  end.

(** ** Sequences of calls *)

(** What the rest of the program does with the package, one call after another. *)
Inductive tcall := CInit (serviceName otlpEndpoint : string) | CHandler.

Definition tstep (c : tcall) (st : option MeterProvider) : OM (option MeterProvider * result OTelShutdown) :=
  match c with
  | CInit name endpoint => InitOTel name endpoint st
  | CHandler => do st <- Handler st; Ret (st, Ok NoShutdown)
  end.

Fixpoint tcalls (cs : list tcall) (st : option MeterProvider) : OM (option MeterProvider * list (result OTelShutdown)) :=
  match cs with
  | [] => Ret (st, [])
  | c :: cs =>
    do '(st, r) <- tstep c st;
    do '(st, rs) <- tcalls cs st;
    Ret (st, r :: rs)
  end.

Definition collector_of (ev : event oanswer) : option unit :=
  match ev with existT ONewPrometheusExporter None => Some tt | _ => None end.

(** The collectors a trace left in the default registry. *)
Definition collectors (tr : list (event oanswer)) : nat := length (omap collector_of tr).

(** The providers it installed. *)
Definition installed (tr : list (event oanswer)) : list MeterProvider :=
  omap (fun ev => match projT1 ev with OSetMeterProvider p => Some p | _ => None end) tr.

(** What a call that reported success is owed. *)
Definition honoured (st : option MeterProvider) (tr : list (event oanswer)) (c : tcall) (r : result OTelShutdown) : Prop :=
  match c, r with
  | CInit name endpoint, Ok _ =>
    exists p res, st = Some p /\ Resource p = Some res /\ existT (ONewResource name) (Ok res) ∈ tr /\
      (endpoint <> "" -> OTLP endpoint ∈ Readers p)
  | _, _ => True
  end.

Definition initialized (cr : tcall * result OTelShutdown) : option unit :=
  match cr with (CInit _ _, Ok _) => Some tt | _ => None end.

(** The number of successful initializations. *)
Definition initializations (cs : list tcall) (rs : list (result OTelShutdown)) : nat :=
  length (omap initialized (zip cs rs)).

(** What one call does to the package: it keeps a provider that is there, and
    otherwise registers a collector exactly when it installs one. *)
Definition effect (st st' : option MeterProvider) (tr : list (event oanswer)) : Prop :=
  match st with
  | Some p => st' = Some p /\ collectors tr = 0%nat /\ installed tr = []
  | None => collectors tr = length (option_list st') /\ installed tr = option_list st'
  end.

Lemma collectors_app t1 t2 : collectors (t1 ++ t2) = (collectors t1 + collectors t2)%nat.
Proof. unfold collectors. by rewrite omap_app, length_app. Qed.

Lemma installed_app t1 t2 : installed (t1 ++ t2) = installed t1 ++ installed t2.
Proof. apply omap_app. Qed.

Lemma effect_app st1 st2 st3 t1 t2 : effect st1 st2 t1 -> effect st2 st3 t2 -> effect st1 st3 (t1 ++ t2).
Proof.
  unfold effect. rewrite collectors_app, installed_app. destruct st1 as [p|].
  - intros (-> & -> & ->). done.
  - intros [-> ->]. destruct st2 as [p|]; [intros (-> & -> & ->)|intros [-> ->]]; done.
Qed.

Lemma effect_quiet st tr : collectors tr = 0%nat -> installed tr = [] -> effect st st tr.
Proof. intros Hc Hi. unfold effect. by destruct st; rewrite Hc, Hi. Qed.

(** A call of [ensureMeterProvider] that returns a provider returns the installed
    one, and it has what was asked for. *)
Lemma ensureMeterProvider_effect res endpoint st tr st' r :
  (forall p, st = Some p -> Prometheus ∈ Readers p) ->
  executes (ensureMeterProvider res endpoint st) tr (st', r) ->
  effect st st' tr /\
  match r with
  | Ok p => st' = Some p /\ Prometheus ∈ Readers p /\ (is_Some res -> st = None /\ Resource p = res) /\
            (endpoint <> "" -> st = None /\ OTLP endpoint ∈ Readers p)
  | Err _ => st' = st
  end.
Proof.
  intros Hst. unfold ensureMeterProvider. destruct st as [p|].
  - destruct (negb _ || _) eqn:E; intros (-> & [= -> ->]); [done|].
    apply orb_false_iff in E as [E1 E2]. apply negb_false_iff in E1, E2.
    apply bool_decide_eq_true in E1 as ->. apply String.eqb_eq in E2 as ->.
    split; [done|]. split; [done|]. split; [by apply Hst|]. split; [by intros []|done].
  - intros (t1 & t2 & rd & -> & H1 & H2)%executes_bind.
    assert (collectors t1 = 0%nat /\ installed t1 = [] /\
            (forall readers, rd = Ok readers -> endpoint <> "" -> OTLP endpoint ∈ readers)) as (Hc & Hi & Hr).
    { destruct (endpoint =? "")%string eqn:E.
      - destruct H1 as [-> ->]. apply String.eqb_eq in E. done.
      - destruct H1 as ([e|] & u & -> & [-> ->]); [done|]. split_and!; [done..|]. intros ? [= <-] _. apply list_elem_of_singleton. done. }
    apply (effect_quiet None) in Hi as He1; [|done].
    destruct rd as [readers|e]; [|destruct H2 as [-> [= -> ->]]; by rewrite app_nil_r].
    destruct H2 as ([e|] & t3 & -> & H2); cbn [bind call Prog.call] in H2.
    + destruct H2 as [-> [= -> ->]]. by split; [apply (effect_app _ _ _ _ _ He1)|].
    + destruct H2 as (x & t4 & -> & [-> [= -> ->]]). split; [by apply (effect_app _ _ _ _ _ He1)|].
      split_and!; [done|by constructor|done|]. intros Hne. split; [done|]. right. by apply Hr.
Qed.

(** A provider serves [/metrics]. *)
Definition serves (st : option MeterProvider) : Prop := forall p, st = Some p -> Prometheus ∈ Readers p.

Lemma InitOTel_effect name endpoint st tr st' r :
  serves st -> executes (InitOTel name endpoint st) tr (st', r) ->
  serves st' /\ effect st st' tr /\ honoured st' tr (CInit name endpoint) r /\
  match r with Ok _ => st = None /\ is_Some st' | Err _ => True end.
Proof.
  intros Hst ([res|e] & t1 & -> & Hex); cbn [bind call Prog.call] in Hex.
  2: { destruct Hex as [-> [= -> ->]]. split; [done|]. by split; [apply effect_quiet|]. }
  destruct Hex as ([] & t2 & -> & Hex). cbn [bind call Prog.call] in Hex.
  apply executes_bind in Hex as (t3 & t4 & [st1 mp] & -> & Hen & Hex).
  apply ensureMeterProvider_effect in Hen as [He Hp]; [|done].
  assert (forall t, effect st1 st1 t -> effect st st1 ((existT (ONewResource name) (Ok res) : event oanswer) ::
            existT OSetTextMapPropagator tt :: t3 ++ t)) as Hall.
  { intros t Ht. apply (effect_app st st st1 [_; _]); [by apply effect_quiet|by eapply effect_app]. }
  destruct mp as [p|e].
  2: { destruct Hex as [-> [= -> ->]]. subst st1. split; [done|]. by split; [apply Hall, effect_quiet|]. }
  destruct Hp as (-> & Hprom & Hres & Hotlp). destruct Hres as [-> Hres]; [done|].
  assert (serves (Some p)) as Hs by by intros ? [= <-].
  assert (forall t, honoured (Some p) ((existT (ONewResource name) (Ok res) : event oanswer) :: t) (CInit name endpoint) (Ok NoShutdown)) as Hh.
  { intros t. exists p, res. split_and!; [done|done|by left|]. intros Hne. by apply Hotlp. }
  destruct (endpoint =? "")%string.
  { destruct Hex as [-> [= -> ->]]. split_and!; [done|by apply Hall, effect_quiet|by apply Hh|done|done]. }
  destruct Hex as ([e|] & t5 & -> & Hex); cbn [bind call Prog.call] in Hex.
  { destruct Hex as [-> [= -> ->]]. split_and!; [done|by apply Hall, effect_quiet|done|done]. }
  destruct Hex as ([] & t6 & -> & [-> [= -> ->]]).
  split_and!; [done|by apply Hall, effect_quiet|by apply Hh|done|done].
Qed.

Lemma tstep_effect c st tr st' r :
  serves st -> executes (tstep c st) tr (st', r) ->
  serves st' /\ effect st st' tr /\ honoured st' tr c r /\
  (is_Some (initialized (c, r)) -> st = None /\ is_Some st').
Proof.
  intros Hst. destruct c as [name endpoint|]; cbn [tstep].
  { intros (? & ? & ? & Hi)%InitOTel_effect; [|done]. split_and!; [done..|]. destruct r; [done|]. intros [? [=]]. }
  intros (t1 & t2 & st1 & -> & H1 & [-> [= -> ->]])%executes_bind. rewrite app_nil_r.
  apply executes_bind in H1 as (t3 & t4 & [st2 mp] & -> & Hen & Hex).
  apply ensureMeterProvider_effect in Hen as [He Hp]; [|done].
  assert (serves st2) as Hs.
  { destruct mp as [p|]; [|by subst]. destruct Hp as (-> & Hprom & _). by intros ? [= <-]. }
  assert (effect st st1 (t3 ++ t4) /\ st1 = st2) as [Heff ->].
  { destruct mp as [p|e]; [by destruct Hex as [-> ->]; rewrite app_nil_r|].
    destruct Hex as ([] & t5 & -> & [-> ->]). split; [|done]. eapply effect_app; [done|by apply effect_quiet]. }
  split_and!; [done..|]. intros [? [=]].
Qed.

Lemma honoured_later st tr tr1 tr2 c r : honoured st tr c r -> honoured st (tr1 ++ tr ++ tr2) c r.
Proof. destruct c, r; try done. intros (p & res & ? & ? & ? & ?). exists p, res. split_and!; try done. set_solver. Qed.

Lemma tcalls_effect cs st tr st' rs :
  serves st -> executes (tcalls cs st) tr (st', rs) ->
  serves st' /\ effect st st' tr /\ Forall2 (honoured st' tr) cs rs /\
  (initializations cs rs <= match st with Some _ => 0 | None => 1 end)%nat.
Proof.
  revert st tr rs. induction cs as [|c cs IH]; intros st tr rs Hst; cbn [tcalls].
  { intros [-> [= -> ->]]. split_and!; [done|by apply effect_quiet|done|]. unfold initializations. simpl. lia. }
  intros (t1 & t2 & [st1 r] & -> & H1 & H2)%executes_bind.
  apply executes_bind in H2 as (t3 & t4 & [st2 rs'] & -> & H2 & [-> [= -> ->]]). rewrite app_nil_r.
  apply tstep_effect in H1 as (Hs1 & He1 & Hh1 & Hi1); [|done].
  apply IH in H2 as (Hs2 & He2 & Hh2 & Hi2); [|done].
  split_and!; [done|by eapply effect_app| |].
  - constructor.
    + apply (honoured_later _ _ [] t3). destruct st1 as [p|]; [by destruct He2 as [-> _]|].
      destruct c, r; try done. by destruct Hh1 as (p & res & ? & _).
    + eapply Forall2_impl; [exact Hh2|]. intros c' r' H. apply (honoured_later _ _ t1 []) in H. by rewrite app_nil_r in H.
  - unfold initializations in *. cbn [zip zip_with omap list_omap].
    destruct (initialized (c, r)) as [[]|].
    + destruct Hi1 as [-> [p ->]]; [done|]. simpl. lia.
    + destruct st as [p|]; [by destruct He1 as [-> _]|]. destruct st1; lia.
Qed.

(** The meter provider is built once. Whatever the rest of the program does with the
    package (initializing it, with or without an OTLP endpoint, and serving
    [/metrics], in any order and any number of times) and whichever calls of the
    libraries fail: the default registry holds one collector when a provider is
    installed and none otherwise, so [/metrics] never serves a series twice; a
    provider is installed at most once and has the Prometheus reader; at most one
    initialization succeeds; and one that reported success got the resource it made
    and its OTLP reader. *)
Theorem meter_provider_once cs tr st rs :
  executes (tcalls cs None) tr (st, rs) ->
  collectors tr = length (option_list st) /\ installed tr = option_list st /\
  (forall p, st = Some p -> Prometheus ∈ Readers p) /\
  (initializations cs rs <= 1)%nat /\ Forall2 (honoured st tr) cs rs.
Proof.
  intros Hex. apply tcalls_effect in Hex as (Hs & [Hc Hi] & Hh & Hn); [|done]. done.
Qed.

(** *** A concrete environment *)

(** The OTLP metric exporter fails the first time. *)
Definition demo_env (a : oaction) (n : nat) : oanswer a * nat :=
  match a with
  | ONewResource name => (Ok name, n)
  | ONewOTLPMetricExporter _ => (if decide (n = 0%nat) then Some (PlainError "no route") else None, S n)
  | ONewPrometheusExporter | ONewTraceExporter _ | OTracerShutdown | OMeterShutdown => (None, n)
  | OSetTextMapPropagator | OSetMeterProvider _ | OSetTracerProvider | OLog _ => (tt, n)
  end.

Definition demo_calls : list tcall := [CInit "dbbridge" "collector:4317"; CInit "dbbridge" "collector:4317"; CHandler; CInit "dbbridge" ""].

Definition demo_out := Prog.run demo_env (tcalls demo_calls None) 0%nat.

(** The failed attempt leaves nothing behind, the second one succeeds, and the last
    one is refused. *)
Lemma meter_provider_once_witness :
  demo_out.1.1.1 = Some (mkMeterProvider [Prometheus; OTLP "collector:4317"] (Some "dbbridge") query_duration_boundaries) /\
  collectors demo_out.1.2 = 1%nat.
Proof.
  assert (executes (tcalls demo_calls None) demo_out.1.2 (demo_out.1.1.1, demo_out.1.1.2)) as Hex.
  { exact (run_executes demo_env (tcalls demo_calls None) 0%nat). }
  destruct (meter_provider_once _ _ _ _ Hex) as (Hc & _).
  split; [vm_compute; reflexivity|]. rewrite Hc. vm_compute. reflexivity.
Defined.

(** When only the trace exporter fails, [InitOTel] returns an error but the provider
    stays installed with its OTLP reader, nobody holds a function that shuts it down,
    and a second attempt is refused. *)
Lemma InitOTel_half_initialized name endpoint e :
  endpoint <> "" ->
  exists p,
    executes (tcalls [CInit name endpoint; CInit name endpoint] None)
      [existT (ONewResource name) (Ok name); existT OSetTextMapPropagator tt;
       existT (ONewOTLPMetricExporter endpoint) None; existT ONewPrometheusExporter None;
       existT (OSetMeterProvider p) tt; existT (ONewTraceExporter endpoint) (Some e);
       existT (ONewResource name) (Ok name); existT OSetTextMapPropagator tt]
      (Some p, [Err (WrapError "failed to create OTLP trace exporter" e);
                Err (WrapError "failed to initialize metrics" already_built)]) /\
    OTLP endpoint ∈ Readers p.
Proof.
  intros Hne%String.eqb_neq.
  exists (mkMeterProvider [Prometheus; OTLP endpoint] (Some name) query_duration_boundaries).
  split; [|set_solver]. cbn [tcalls tstep]. unfold InitOTel, ensureMeterProvider. rewrite Hne.
  cbn. rewrite ?Hne. cbn. repeat (eexists _, _; split; [reflexivity|]; cbn; rewrite ?Hne; cbn). done.
Qed.

End Meter.
