(* ===== verification/Redis.v ===== *)
(** * The Redis metadata store

    [internal/state/redis.go]: the operations of the metadata store as programs over
    Redis commands. A pipeline is the sequence of its commands, between which the
    commands of other clients may run; a script and a [MULTI]/[EXEC] block run
    without interruption. The server, with the client library in front of it, is the
    class [RedisServer] of the behaviour its documentation states. *)

From S2P Require Import Prelude Domain Utf8 Text Json MetaStore RecordJson Prog.

Open Scope Z_scope.
Open Scope dbb_scope.

(** ** Keys *)

Definition queryKey (id : string) : string := "dbbridge:query:" +:+ id.
Definition leaseKey (id : string) : string := "dbbridge:lease:" +:+ id.
Definition lockKey (name : string) : string := "dbbridge:lock:" +:+ name.
Definition idempotencyKey (dbID key : string) : string := "dbbridge:idempotency:" +:+ dbID +:+ ":" +:+ key.
Definition instanceKey (id : string) : string := "dbbridge:instance:" +:+ id.
Definition instanceQueriesKey (id : string) : string := "dbbridge:instance:" +:+ id +:+ ":queries".
Definition controlChannel : string := "dbbridge:control:channel".
Definition databasesSeenKey : string := "dbbridge:databases:seen".

(** ** Commands *)

Inductive bcmd :=
| BSet (key : string) (value : bytes) (ttl : Z)
| BGet (key : string)
| BTTL (key : string)
| BSetNX (key : string) (value : bytes) (ttl : Z)
| BDel (key : string)
| BPExpire (key : string) (ms : Z)
| BExists (key : string)
| BSAdd (key member : string)
| BSRem (key member : string)
| BSCard (key : string)
| BSMembers (key : string)
| BPublish (channel : string) (value : bytes)
| BScan (cursor : Z).

(** A missing key is nil; the time to live is negative for a key without one. *)
Definition breply (c : bcmd) : Type :=
  match c with
  | BGet _ => option bytes
  | BTTL _ | BDel _ | BPExpire _ _ | BSCard _ | BSAdd _ _ | BSRem _ _ | BPublish _ _ => Z
  | BSet _ _ _ => unit
  | BSetNX _ _ _ | BExists _ => bool
  | BSMembers _ => list string
  | BScan _ => list string * Z
  end.

(** What a client asks for: a command, a script, the value of a key to watch, or a
    transaction guarded by the watch of a key. *)
Inductive raction :=
| RCmd (c : bcmd)
| REval (script : prog breply Z)
| RWatch (key : string)
| RExec (key : string) (token : Z) (cmds : list bcmd)
| RNow.

(** Any call may fail. [RWatch] answers with a token of the key's version, [RExec]
    with whether the transaction went through. *)
Definition ranswer (a : raction) : Type :=
  match a with
  | RCmd c => result (breply c)
  | REval _ => result Z
  | RWatch _ => result Z
  | RExec _ _ _ => result bool
  | RNow => time
  end.

Abbreviation Rd A := (prog ranswer A).

(** [pipe.Exec]: the commands in order, and the first error. *)
Fixpoint pipeline (cs : list bcmd) : Rd (option error) :=
  match cs with
  | [] => Ret None
  | c :: cs =>
      do x <- call (RCmd c);
      do err <- pipeline cs;
      match x with
      | Err e => Ret (Some e)
      | Ok _ => Ret err
      end
  end.

(** ** Records *)

Section Store.
Context (zone : time -> Z) (lenient_parse : bytes -> option time).
Context (json_error : error).

(** How long a record is kept: its retention and a day more. *)
Definition expiration (record : QueryRecord) : Z :=
  let ttl := if ResultTTL (rec_Options record) =? 0 then 24 * Hour else ResultTTL (rec_Options record) in
  i64_add ttl (24 * Hour).

(** The commands that persist a record. *)
Definition writeQuery (record : QueryRecord) (data : bytes) : list bcmd :=
  BSet (queryKey (ID record)) data (expiration record) ::
  (if bool_decide (DatabaseID record = "") then [] else [BSAdd databasesSeenKey (DatabaseID record)]) ++
  (if negb (IsTerminal (rec_State record))
   then [BSAdd (instanceQueriesKey (OwnerInstanceID record)) (ID record)]
   else [BSRem (instanceQueriesKey (OwnerInstanceID record)) (ID record); BDel (leaseKey (ID record))]).

Definition PutQuery (record : QueryRecord) : Rd (option error) :=
  match marshal_record zone record with
  | None => Ret (Some (WrapError "failed to marshal query" json_error))
  | Some data =>
      do err <- pipeline (writeQuery record data);
      match err with
      | Some e => Ret (Some (WrapError "failed to put query in redis" e))
      | None => Ret None
      end
  end.

Definition UpdateQuery (record : QueryRecord) : Rd (option error) := PutQuery record.

(** A key that is missing is reported before an error of the lease. *)
Definition GetQuery (id : string) : Rd (result QueryRecord) :=
  do get <- call (RCmd (BGet (queryKey id)));
  do lease <- call (RCmd (BTTL (leaseKey id)));
  match get, lease with
  | Err e, _ => Ret (Err (WrapError "failed to get query from redis" e))
  | Ok None, _ => Ret (Err ErrNotFound)
  | Ok (Some _), Err e => Ret (Err (WrapError "failed to get query from redis" e))
  | Ok (Some val), Ok ttl =>
      match unmarshal_record lenient_parse val with
      | None => Ret (Err (WrapError "failed to unmarshal query" json_error))
      | Some rec =>
          if 0 <? ttl then
            do now <- call RNow;
            Ret (Ok (set_LeaseDeadline (time_add now ttl) rec))
          else Ret (Ok rec)
      end
  end.

Definition conditional_failed (e : error) : error := WrapError "conditional query update failed" e.

Definition UpdateQueryIfState (record : QueryRecord) (expected : list QueryState) : Rd (result bool) :=
  match marshal_record zone record with
  | None => Ret (Err (WrapError "failed to marshal query" json_error))
  | Some data =>
      let key := queryKey (ID record) in
      do watch <- call (RWatch key);
      match watch with
      | Err e => Ret (Err (conditional_failed e))
      | Ok token =>
          do get <- call (RCmd (BGet key));
          match get with
          | Ok None => Ret (Err ErrNotFound)
          | Err e => Ret (Err (conditional_failed e))
          | Ok (Some val) =>
              match unmarshal_record lenient_parse val with
              | None => Ret (Err (conditional_failed (WrapError "failed to unmarshal query" json_error)))
              | Some current =>
                  if negb (bool_decide (rec_State current ∈ expected)) then Ret (Ok false)
                  else
                    do tx <- call (RExec key token (writeQuery record data));
                    match tx with
                    | Err e => Ret (Err (conditional_failed e))
                    | Ok written => Ret (Ok written)
                    end
              end
          end
      end
  end.

(** ** Claims *)

Definition AcquireIdempotency (dbID key queryID : string) (ttl : Z) : Rd (result (string * bool)) :=
  let rkey := idempotencyKey dbID key in
  do set <- call (RCmd (BSetNX rkey (bytes_of queryID) ttl));
  match set with
  | Err e => Ret (Err (WrapError "redis setnx failed" e))
  | Ok true => Ret (Ok (queryID, true))
  | Ok false =>
      do get <- call (RCmd (BGet rkey));
      match get with
      | Err e => Ret (Err (WrapError "redis get existing idempotency failed" e))
      | Ok None => Ret (Err (WrapError "redis get existing idempotency failed" (PlainError "redis: nil")))
      | Ok (Some val) => Ret (Ok (string_of_bytes val, false))
      end
  end.

(** The scripts act on a key only while it still holds their argument. *)
Definition if_held (key : string) (arg : bytes) (act : prog breply Z) : prog breply Z :=
  do val <- call (BGet key);
  if bool_decide (val = Some arg) then act else Ret 0.

Definition releaseIdempotencyScript (key : string) (arg : bytes) : prog breply Z :=
  if_held key arg (call (BDel key)).

Definition refreshIdempotencyScript (key : string) (arg : bytes) (ms : Z) : prog breply Z :=
  if_held key arg (call (BPExpire key ms)).

Definition ReleaseIdempotency (dbID key queryID : string) : Rd (option error) :=
  do x <- call (REval (releaseIdempotencyScript (idempotencyKey dbID key) (bytes_of queryID)));
  match x with
  | Err e => Ret (Some (WrapError "redis release idempotency failed" e))
  | Ok _ => Ret None
  end.

Definition RefreshIdempotency (dbID key queryID : string) (ttl : Z) : Rd (option error) :=
  if ttl <=? 0 then Ret None
  else
    do x <- call (REval (refreshIdempotencyScript (idempotencyKey dbID key) (bytes_of queryID)
                          (Z.quot ttl Millisecond)));
    match x with
    | Err e => Ret (Some (WrapError "redis refresh idempotency failed" e))
    | Ok _ => Ret None
    end.

(** ** Leases, locks and messages *)

Definition Heartbeat (instanceID : string) (ownedQueryIDs : list string) (ttl : Z) : Rd (option error) :=
  do err <- pipeline (BSet (instanceKey instanceID) (bytes_of "alive") ttl ::
                      map (fun id => BSet (leaseKey id) (bytes_of instanceID) ttl) ownedQueryIDs);
  match err with
  | Some e => Ret (Some (WrapError "redis heartbeat failed" e))
  | None => Ret None
  end.

Definition TryLock (name : string) (ttl : Z) : Rd (result bool) :=
  do x <- call (RCmd (BSetNX (lockKey name) (bytes_of "held") ttl));
  match x with
  | Err e => Ret (Err (WrapError "redis try lock failed" e))
  | Ok held => Ret (Ok held)
  end.

Definition PublishControl (msg : ControlMsg) : Rd (option error) :=
  do x <- call (RCmd (BPublish controlChannel (marshal_control msg)));
  match x with
  | Err e => Ret (Some (WrapError "failed to publish control msg" e))
  | Ok _ => Ret None
  end.

(** What a subscription forwards of the payloads it receives. *)
Definition forward_control (payloads : list bytes) : list ControlMsg := omap unmarshal_control payloads.

(** ** Lists *)

Definition CountInFlight (instanceID : string) : Rd (result Z) :=
  do x <- call (RCmd (BSCard (instanceQueriesKey instanceID)));
  match x with
  | Err e => Ret (Err (WrapError "failed to get active query count from redis" e))
  | Ok card => Ret (Ok card)
  end.

Definition ListByInstance (instanceID : string) : Rd (result (list string)) :=
  do x <- call (RCmd (BSMembers (instanceQueriesKey instanceID)));
  match x with
  | Err e => Ret (Err (WrapError "failed to list queries by instance from redis" e))
  | Ok ids => Ret (Ok ids)
  end.

Definition ListDatabasesSeen : Rd (result (list string)) :=
  do x <- call (RCmd (BSMembers databasesSeenKey));
  match x with
  | Err e => Ret (Err (WrapError "failed to list databases seen from redis" e))
  | Ok ids => Ret (Ok ids)
  end.

(** *** Walking the records *)

Section Scan.
Context {A : Type} (visit : QueryRecord -> A -> Rd A).

(** A key that is gone or cannot be read is passed over. *)
Definition visit_key (k : string) (acc : A) : Rd A :=
  do get <- call (RCmd (BGet k));
  match get with
  | Ok (Some val) =>
      match unmarshal_record lenient_parse val with
      | Some rec => visit rec acc
      | None => Ret acc
      end
  | _ => Ret acc
  end.

(** The server decides how many pages there are: [None] is a walk that has not come
    to its end after [fuel] of them. *)
Fixpoint scanQueries (fuel : nat) (cursor : Z) (acc : A) : Rd (option (result A)) :=
  match fuel with
  | O => Ret None
  | S fuel =>
      do x <- call (RCmd (BScan cursor));
      match x with
      | Err e => Ret (Some (Err (WrapError "scan queries failed" e)))
      | Ok (keys, nextCursor) =>
          do acc <- for_each visit_key keys acc;
          if nextCursor =? 0 then Ret (Some (Ok acc)) else scanQueries fuel nextCursor acc
      end
  end.

End Scan.

Definition ListExpiredQueries (fuel : nat) : Rd (option (result (list string))) :=
  do now <- call RNow;
  scanQueries (fun rec (expired : list string) =>
    if negb (IsTerminal (rec_State rec)) || IsZero (FinishedAt rec) then Ret expired
    else
      let ttl := if ResultTTL (rec_Options rec) =? 0 then 24 * Hour else ResultTTL (rec_Options rec) in
      if time_after now (time_add (FinishedAt rec) ttl) then Ret (expired ++ [ID rec]) else Ret expired)
    fuel 0 [].

(** A lease that cannot be looked up is taken for one that exists. *)
Definition visit_stale (rec : QueryRecord) (stale : list string) : Rd (list string) :=
  if negb (state_eqb (rec_State rec) StatePending) && negb (state_eqb (rec_State rec) StateRunning)
  then Ret stale
  else
    do exists_ <- call (RCmd (BExists (leaseKey (ID rec))));
    match exists_ with
    | Ok false => Ret (stale ++ [ID rec])
    | _ => Ret stale
    end.

Definition ListStaleQueries (fuel : nat) : Rd (option (result (list string))) :=
  scanQueries visit_stale fuel 0 [].

Definition DeleteQuery (id : string) : Rd (option error) :=
  do rec <- GetQuery id;
  do err <- pipeline (BDel (queryKey id) :: BDel (leaseKey id) ::
                      match rec with
                      | Ok rec => [BSRem (instanceQueriesKey (OwnerInstanceID rec)) id]
                      | Err _ => []
                      end);
  match err with
  | Some e => Ret (Some (WrapError "redis delete query failed" e))
  | None => Ret None
  end.

End Store.

(** ** The server *)

(** The time a key set with [ttl] lives: without end for zero, otherwise in
    milliseconds and at least one. *)
Definition lifetime (ttl : Z) : option Z :=
  if ttl =? 0 then None else Some (Z.max Millisecond (ttl - ttl mod Millisecond)).

Definition until (deadline : option Z) (t : time) : bool :=
  match deadline with None => true | Some d => t <? d end.

(** The key of a string a command may change. *)
Definition writes (c : bcmd) : option string :=
  match c with
  | BSet k _ _ | BSetNX k _ _ | BDel k | BPExpire k _ => Some k
  | _ => None
  end.

(** [rget s t k] is what the key [k] would hold at the moment [t] if nothing were
    written to it from [s] on; [version] counts the writes to a key. Nothing is said
    of a key that is set with a negative time to live. *)
Class RedisServer (R : Type) := {
  rexec : time -> forall c, R -> breply c * R;
  rget : R -> time -> string -> option bytes;
  version : R -> string -> Z;

  redis_get now k s : (rexec now (BGet k) s).1 = rget s now k;
  redis_frame now c s k t : writes c <> Some k -> rget (rexec now c s).2 t k = rget s t k;
  redis_set now k v ttl s t :
    0 <= ttl -> now <= t -> rget (rexec now (BSet k v ttl) s).2 t k =
      if until ((fun l => now + l) <$> lifetime ttl) t then Some v else None;
  redis_setnx_taken now k v ttl s :
    rget s now k <> None ->
    (rexec now (BSetNX k v ttl) s).1 = false /\
    forall t, rget (rexec now (BSetNX k v ttl) s).2 t k = rget s t k;
  redis_setnx_free now k v ttl s :
    rget s now k = None -> 0 <= ttl ->
    (rexec now (BSetNX k v ttl) s).1 = true /\
    forall t, now <= t -> rget (rexec now (BSetNX k v ttl) s).2 t k =
      if until ((fun l => now + l) <$> lifetime ttl) t then Some v else None;
  redis_del now k s t : now <= t -> rget (rexec now (BDel k) s).2 t k = None;
  redis_pexpire now k ms s t :
    now <= t -> rget (rexec now (BPExpire k ms) s).2 t k =
      match rget s now k with
      | Some v => if t <? now + ms * Millisecond then Some v else None
      | None => None
      end;

  redis_version_mono now c s k : version s k <= version (rexec now c s).2 k;
  redis_version_same now c s k :
    version (rexec now c s).2 k = version s k -> forall t, now <= t -> rget (rexec now c s).2 t k = rget s t k
}.

Section Clients.
Context {R : Type} `{!RedisServer R}.

Definition exec_all (now : time) (cs : list bcmd) (s : R) : R := fold_left (fun s c => (rexec now c s).2) cs s.

(** One call, answered at the moment [now]. A call that failed may have been carried
    out or not. *)
Definition server_step (now : time) (ev : event ranswer) (s s' : R) : Prop :=
  let '(existT a x) := ev in
  match a return ranswer a -> Prop with
  | RCmd c => fun x =>
      match x with Ok y => rexec now c s = (y, s') | Err _ => s' = s \/ s' = (rexec now c s).2 end
  | REval p => fun x =>
      let out := run (rexec now) p s in
      match x with Ok z => z = out.1.1 /\ s' = out.2 | Err _ => s' = s \/ s' = out.2 end
  | RWatch k => fun x => s' = s /\ match x with Ok tok => tok = version s k | Err _ => True end
  | RExec k tok cs => fun x =>
      match x with
      | Ok true => version s k = tok /\ s' = exec_all now cs s
      | Ok false => s' = s
      | Err _ => s' = s \/ (version s k = tok /\ s' = exec_all now cs s)
      end
  | RNow => fun _ => s' = s
  end x.

(** The calls of other clients, while time goes on. *)
Inductive interfere (allowed : raction -> Prop) : time -> R -> time -> R -> Prop :=
| interfere_wait t t' s : t <= t' -> interfere allowed t s t' s
| interfere_step t s t1 s1 t2 ev s2 :
    interfere allowed t s t1 s1 -> t1 <= t2 -> allowed (projT1 ev) -> server_step t2 ev s1 s2 ->
    interfere allowed t s t2 s2.

(** A run of one client among others. *)
Fixpoint among (allowed : raction -> Prop) (t : time) (s : R) (tr : list (event ranswer)) (t' : time) (s' : R) : Prop :=
  match tr with
  | [] => interfere allowed t s t' s'
  | ev :: tr => exists t1 s1 s2,
      interfere allowed t s t1 s1 /\ server_step t1 ev s1 s2 /\ among allowed t1 s2 tr t' s'
  end.

Lemma interfere_time allowed t s t' s' : interfere allowed t s t' s' -> t <= t'.
Proof. induction 1; lia. Qed.

Lemma among_time allowed t s tr t' s' : among allowed t s tr t' s' -> t <= t'.
Proof.
  revert t s. induction tr as [|ev tr IH]; intros t s; simpl; [by apply interfere_time|].
  intros (t1 & s1 & s2 & H1%interfere_time & _ & H2%IH). lia.
Qed.

Lemma interfere_inv allowed (Inv : time -> R -> Prop) t s t' s' :
  (forall t t' s, t <= t' -> Inv t s -> Inv t' s) ->
  (forall t ev s s', allowed (projT1 ev) -> server_step t ev s s' -> Inv t s -> Inv t s') ->
  interfere allowed t s t' s' -> Inv t s -> Inv t' s'.
Proof. intros Ht Hs. induction 1; intros HI; eauto. Qed.

(** *** Versions *)

Lemma exec_all_version now cs s k :
  version s k <= version (exec_all now cs s) k /\
  (version (exec_all now cs s) k = version s k ->
   forall t, now <= t -> rget (exec_all now cs s) t k = rget s t k).
Proof.
  revert s. induction cs as [|c cs IH]; intros s; simpl; [split; [lia|done]|].
  destruct (IH (rexec now c s).2) as [H1 H2]. pose proof (redis_version_mono now c s k) as Hm.
  split; [unfold exec_all in *; lia|]. intros He t Ht. unfold exec_all in *.
  rewrite H2 by (lia || done). apply redis_version_same; [lia|done].
Qed.

Lemma run_version {A} now (p : prog breply A) s k :
  version s k <= version (run (rexec now) p s).2 k /\
  (version (run (rexec now) p s).2 k = version s k ->
   forall t, now <= t -> rget (run (rexec now) p s).2 t k = rget s t k).
Proof.
  revert s. induction p as [a|c f IH]; intros s; simpl; [split; [lia|done]|].
  pose proof (redis_version_mono now c s k) as Hm. pose proof (redis_version_same now c s k) as Hs.
  destruct (rexec now c s) as [x s1]. simpl in *. specialize (IH x s1).
  destruct (run (rexec now) (f x) s1) as [[a tr] s2]. simpl in *. destruct IH as [H1 H2].
  split; [lia|]. intros He t Ht. rewrite H2 by (lia || done). apply Hs; [lia|done].
Qed.

(** While the version of a key stays the same, so does what it holds. *)
Lemma step_version now ev s s' k :
  server_step now ev s s' ->
  version s k <= version s' k /\
  (version s' k = version s k -> forall t, now <= t -> rget s' t k = rget s t k).
Proof.
  destruct ev as [a x]. destruct a as [c|p|k'|k' tok cs|]; simpl.
  - destruct x as [y|e]; [intros H|intros [-> | ->]; [split; [lia|done]|]].
    + pose proof (redis_version_mono now c s k). pose proof (redis_version_same now c s k).
      by rewrite H in *.
    + split; [apply redis_version_mono|apply redis_version_same].
  - destruct x as [z|e]; [intros [_ ->]|intros [-> | ->]; [split; [lia|done]|]]; apply run_version.
  - intros [-> _]. split; [lia|done].
  - destruct x as [[]|e]; [intros [_ ->]|intros ->; split; [lia|done]|intros [-> |[_ ->]]; [split; [lia|done]|]];
      apply exec_all_version.
  - intros ->. split; [lia|done].
Qed.

Lemma interfere_version allowed t s t' s' k :
  interfere allowed t s t' s' ->
  version s k <= version s' k /\
  (version s' k = version s k -> forall u, t' <= u -> rget s' u k = rget s u k).
Proof.
  induction 1 as [t t' s H|t s t1 s1 t2 ev s2 _ [IH1 IH2] Ht _ Hs]; [split; [lia|done]|].
  destruct (step_version _ _ _ _ k Hs) as [H1 H2]. split; [lia|]. intros He u Hu.
  rewrite H2 by lia. apply IH2; lia.
Qed.

(** *** Calls that leave a key alone *)

Definition spares (key : string) (a : raction) : Prop :=
  match a with
  | RCmd c => writes c <> Some key
  | REval p => only (fun c => writes c <> Some key) p
  | RExec _ _ cs => Forall (fun c => writes c <> Some key) cs
  | RWatch _ | RNow => True
  end.

Lemma run_spares {A} now key (p : prog breply A) s t :
  only (fun c => writes c <> Some key) p -> rget (run (rexec now) p s).2 t key = rget s t key.
Proof.
  revert s. induction p as [a|c f IH]; intros s; simpl; [done|]. intros [Hc Hf].
  pose proof (redis_frame now c s key t Hc) as Hfr. destruct (rexec now c s) as [x s1]. simpl in Hfr.
  specialize (IH x s1 (Hf x)). destruct (run (rexec now) (f x) s1) as [[a tr] s2]. simpl in *. congruence.
Qed.

Lemma exec_all_spares now key cs s t :
  Forall (fun c => writes c <> Some key) cs -> rget (exec_all now cs s) t key = rget s t key.
Proof.
  intros Hcs. revert s. induction Hcs as [|c cs Hc _ IH]; intros s; simpl; [done|].
  unfold exec_all in *. rewrite IH. by apply redis_frame.
Qed.

Lemma spares_step now key ev s s' t :
  spares key (projT1 ev) -> server_step now ev s s' -> rget s' t key = rget s t key.
Proof.
  destruct ev as [[c|p|k'|k' tok cs|] x]; simpl; intros Hsp.
  - destruct x as [y|e]; [|intros [-> | ->]; [done|by apply redis_frame]].
    intros H. pose proof (redis_frame now c s key t Hsp) as Hf. by rewrite H in Hf.
  - destruct x as [z|e]; [intros [_ ->]|intros [-> | ->]; [done|]]; by apply run_spares.
  - by intros [-> _].
  - destruct x as [[]|e]; [intros [_ ->]|by intros ->|intros [-> |[_ ->]]; [done|]]; by apply exec_all_spares.
  - by intros ->.
Qed.

Lemma interfere_spares key t s t' s' u : interfere (spares key) t s t' s' -> rget s' u key = rget s u key.
Proof. induction 1 as [|t s t1 s1 t2 ev s2 _ IH _ Hsp Hst]; [done|]. rewrite <- IH. by eapply spares_step. Qed.

Lemma among_spares key t s tr t' s' u :
  Forall (fun ev => spares key (projT1 ev)) tr -> among (spares key) t s tr t' s' -> rget s' u key = rget s u key.
Proof.
  intros Htr. revert t s. induction Htr as [|ev tr Hev _ IH]; intros t s; simpl; [by apply interfere_spares|].
  intros (t1 & s1 & s2 & Hi & Hst & Ham). rewrite (IH _ _ Ham), (spares_step _ _ _ _ _ _ Hev Hst).
  by eapply interfere_spares.
Qed.

Lemma pipeline_spares key cs tr out :
  Forall (fun c => writes c <> Some key) cs -> executes (pipeline cs) tr out ->
  Forall (fun ev => spares key (projT1 ev)) tr.
Proof.
  intros Hcs. apply (only_executes (spares key)). induction Hcs as [|c cs Hc _ IH]; simpl; [done|].
  split; [done|]. intros x. apply only_bind; [done|]. by intros; destruct x.
Qed.

(** *** The conditional write is a fence *)

Context (zone : time -> Z) (lenient_parse : bytes -> option time) (json_error : error).

(** A call that changed nothing. *)
Definition harmless (ev : event ranswer) : Prop :=
  let '(existT a x) := ev in
  match a return ranswer a -> Prop with
  | RCmd (BGet _) | RWatch _ | RNow => fun _ => True
  | RExec _ _ _ => fun x => x = Ok false
  | _ => fun _ => False
  end x.

(** What a key held when it was read is what it holds while its version is the one
    watched before. *)
Lemma read_unchanged allowed t0 s0 t1 s1 val s1' t2 s2 k :
  interfere allowed t0 s0 t1 s1 -> server_step t1 (existT (RCmd (BGet k)) (Ok (Some val))) s1 s1' ->
  interfere allowed t1 s1' t2 s2 -> version s2 k = version s0 k ->
  rget s1 t1 k = Some val /\ t1 <= t2 /\ forall u, t2 <= u -> rget s2 u k = rget s1 u k.
Proof.
  intros Hi1 Hget Hi2 Hv. destruct (step_version _ _ _ _ k Hget) as [Hm2 Hs2]. simpl in Hget.
  pose proof (redis_get t1 k s1) as Hg. rewrite Hget in Hg. simpl in Hg.
  pose proof (interfere_time _ _ _ _ _ Hi2) as Ht.
  destruct (interfere_version _ _ _ _ _ k Hi1) as [Hm1 _].
  destruct (interfere_version _ _ _ _ _ k Hi2) as [Hm3 Hs3].
  split_and!; [done|lia|]. intros u Hu. rewrite Hs3, Hs2 by lia. done.
Qed.

(** The record was in an expected state when it was read at [t1], nobody had changed it
    by the moment [t2], and the write was carried out then without interruption. *)
Definition fenced_write (allowed : raction -> Prop) (t : time) (record : QueryRecord) (expected : list QueryState)
  (t' : time) (s' : R) : Prop :=
  exists data val current t1 s1 t2 s2,
    marshal_record zone record = Some data /\
    rget s1 t1 (queryKey (ID record)) = Some val /\ unmarshal_record lenient_parse val = Some current /\
    rec_State current ∈ expected /\ t <= t1 <= t2 /\
    (forall u, t2 <= u -> rget s2 u (queryKey (ID record)) = rget s1 u (queryKey (ID record))) /\
    interfere allowed t2 (exec_all t2 (writeQuery record data) s2) t' s'.

(** The transaction was the last call and was answered with an error, and the server
    did not carry it out. *)
Definition lost_write (allowed : raction -> Prop) (t : time) (s : R) (tr : list (event ranswer)) (t' : time) (s' : R)
  : Prop :=
  exists tr0 k tok cs e t2 s2, tr = tr0 ++ [existT (RExec k tok cs) (Err e)] /\ Forall harmless tr0 /\
    among allowed t s tr0 t2 s2 /\ interfere allowed t2 s2 t' s'.

(** C10. The conditional write of the Redis store is a fence, whatever other clients do
    between its commands: when it reports that it wrote, the record it had read was in
    one of the expected states and nobody had changed it by the moment of the write,
    which was carried out without interruption; when it reports that it did not write
    or that there is no such query, it changed nothing. When it reports another error
    it changed nothing, or its transaction was answered with that error, and then the
    server did not carry it out or did so fenced in the same way. *)
Theorem redis_update_fenced allowed t s tr t' s' record expected out :
  among allowed t s tr t' s' ->
  executes (UpdateQueryIfState zone lenient_parse json_error record expected) tr out ->
  match out with
  | Ok true => fenced_write allowed t record expected t' s'
  | Ok false | Err ErrNotFound => Forall harmless tr
  | Err _ => Forall harmless tr \/ lost_write allowed t s tr t' s' \/
             fenced_write allowed t record expected t' s'
  end.
Proof.
  unfold UpdateQueryIfState. destruct (marshal_record zone record) as [data|] eqn:Hd; [|by intros _ [-> ->]; left].
  intros Ham (x & tr1 & -> & Hex). cbn [bind call] in Hex.
  destruct Ham as (t0 & s0 & s0' & Hi0 & [-> Htok] & Ham).
  destruct x as [token|e]; [|destruct Hex as [-> ->]; left; by repeat constructor]. subst token.
  destruct Hex as (x & tr2 & -> & Hex). cbn [bind call] in Hex.
  destruct Ham as (t1 & s1 & s1' & Hi1 & Hget & Ham).
  destruct x as [[val|]|e]; [|destruct Hex as [-> ->]; by repeat constructor|
    destruct Hex as [-> ->]; left; by repeat constructor].
  destruct (unmarshal_record lenient_parse val) as [current|] eqn:Hu; [|destruct Hex as [-> ->]; left; by repeat constructor].
  case_bool_decide as Hst; cbn [negb] in Hex; [|destruct Hex as [-> ->]; by repeat constructor].
  destruct Hex as (x & tr3 & -> & Hex). cbn [bind call] in Hex.
  destruct Ham as (t2 & s2 & s2' & Hi2 & Htx & Hi3).
  assert (version s2 (queryKey (ID record)) = version s0 (queryKey (ID record)) ->
    s2' = exec_all t2 (writeQuery record data) s2 -> tr3 = [] -> fenced_write allowed t record expected t' s') as Hfence.
  { intros Hv -> ->. exists data, val, current, t1, s1, t2, s2.
    destruct (read_unchanged _ _ _ _ _ _ _ _ _ _ Hi1 Hget Hi2 Hv) as (Hg & Hle & Hsame).
    pose proof (interfere_time _ _ _ _ _ Hi0). pose proof (interfere_time _ _ _ _ _ Hi1). by split_and!; try lia. }
  destruct x as [[]|e]; destruct Hex as [-> ->]; simpl in Htx.
  - by apply Hfence; destruct Htx.
  - by repeat constructor.
  - right. destruct Htx as [-> |[? ?]]; [left|right; by apply Hfence].
    eexists [_; _], _, _, _, e, t2, s2. split; [done|]. split; [by repeat constructor|]. split; [|exact Hi3].
    exists t0, s0, s0. split; [exact Hi0|]. split; [by split|]. exists t1, s1, s1'. by split_and!.
Qed.

(** *** A record that was put is read back *)

Lemma keys_apart a b : leaseKey a <> queryKey b.
Proof. by intros [=]. Qed.

Lemma writeQuery_rest record data :
  exists rest, writeQuery record data = BSet (queryKey (ID record)) data (expiration record) :: rest /\
    Forall (fun c => writes c <> Some (queryKey (ID record))) rest.
Proof.
  unfold writeQuery. eexists. split; [done|]. apply Forall_app. split.
  - case_bool_decide; by repeat constructor.
  - destruct (negb _); repeat constructor; try done.
Qed.

Lemma put_sets record data t s tr t' s' :
  0 <= expiration record ->
  among (spares (queryKey (ID record))) t s tr t' s' -> executes (pipeline (writeQuery record data)) tr None ->
  exists ts, t <= ts <= t' /\ forall u, ts <= u ->
    rget s' u (queryKey (ID record)) = if until ((fun l => ts + l) <$> lifetime (expiration record)) u then Some data else None.
Proof.
  destruct (writeQuery_rest record data) as (rest & -> & Hrest). cbn [pipeline].
  intros Hexp Ham (x & tr' & -> & Hex). cbn [bind call] in Hex.
  apply executes_bind in Hex as (tr1 & tr2 & err & -> & Hp & Hex).
  destruct x as [[]|e]; [|by destruct Hex as [_ [=]]]. destruct Hex as [-> _]. rewrite app_nil_r in Ham.
  destruct Ham as (ts & s1 & s2 & Hi & Hst & Ham). exists ts. split.
  - pose proof (interfere_time _ _ _ _ _ Hi). pose proof (among_time _ _ _ _ _ _ Ham). lia.
  - intros u Hu. rewrite (among_spares _ _ _ _ _ _ u (pipeline_spares _ _ _ _ Hrest Hp) Ham).
    pose proof (redis_set ts (queryKey (ID record)) data (expiration record) s1 u Hexp Hu) as Hset.
    simpl in Hst. by rewrite Hst in Hset.
Qed.

(** C20. A record put into Redis is read back as it was, by any client, through the JSON
    text it is stored as: after a write without an error, and until the retention of
    the query and a day more have passed, reading the query gives the same record with
    the deadline of its lease filled in, or the error of a failed call, as long as
    nobody else writes that record; other commands may run at any point. *)
Theorem redis_record_read_back record t s tr t1 s1 tr2 t2 s2 out :
  record_ok zone record -> 0 <= expiration record ->
  among (spares (queryKey (ID record))) t s tr t1 s1 ->
  executes (PutQuery zone json_error record) tr None ->
  among (spares (queryKey (ID record))) t1 s1 tr2 t2 s2 ->
  executes (GetQuery lenient_parse json_error (ID record)) tr2 out ->
  until ((fun l => t + l) <$> lifetime (expiration record)) t2 = true ->
  (exists d, out = Ok (set_LeaseDeadline d (stored record))) \/
  (exists e, out = Err (WrapError "failed to get query from redis" e)).
Proof.
  intros Hok Hexp Ham1 Hput Ham2 Hget Hlive.
  destruct (record_roundtrip zone lenient_parse record Hok) as (data & Hm & Hu).
  unfold PutQuery in Hput. rewrite Hm in Hput.
  apply executes_bind in Hput as (tra & trb & [e|] & -> & Hp & Hex); [by destruct Hex as [_ [=]]|].
  destruct Hex as [-> _]. rewrite app_nil_r in Ham1.
  destruct (put_sets _ _ _ _ _ _ _ Hexp Ham1 Hp) as (ts & Hts & Hdata).
  destruct Hget as (x & tr3 & -> & Hex). cbn [bind call] in Hex.
  destruct Hex as (y & tr4 & -> & Hex). cbn [bind call] in Hex.
  destruct Ham2 as (tg & sg & sg' & Hi & Hst & Ham).
  destruct x as [v|e]; [|destruct Hex as [_ ->]; right; by eexists].
  assert (v = Some data) as ->.
  { pose proof (redis_get tg (queryKey (ID record)) sg) as Hg. simpl in Hst. rewrite Hst in Hg. simpl in Hg.
    pose proof (interfere_time _ _ _ _ _ Hi) as Htg. pose proof (among_time _ _ _ _ _ _ Ham) as Ht2.
    rewrite Hg, (interfere_spares _ _ _ _ _ tg Hi), Hdata by lia.
    destruct (lifetime _) as [l|]; simpl in *; [|done]. apply Z.ltb_lt in Hlive.
    by rewrite (proj2 (Z.ltb_lt _ _)) by lia. }
  destruct y as [ttl|e]; [|destruct Hex as [_ ->]; right; by eexists].
  rewrite Hu in Hex. left. destruct (0 <? ttl).
  - destruct Hex as (now & tr5 & -> & _ & ->). by eexists.
  - destruct Hex as [_ ->]. by exists zero_time.
Qed.

(** *** A claim is exclusive *)

(** What other clients do with the key of a claim of [q]: they claim it, or release
    or refresh it for queries of their own. *)
Definition fair (key : string) (q : bytes) (a : raction) : Prop :=
  spares key a \/
  (exists v ttl, a = RCmd (BSetNX key v ttl)) \/
  exists v, v <> q /\
    (a = REval (releaseIdempotencyScript key v) \/ exists ms, a = REval (refreshIdempotencyScript key v ms)).

(** [q] holds the key from [t] on until the deadline [d]. *)
Definition held (key : string) (q : bytes) (d : option time) (t : time) (s : R) : Prop :=
  until d t = true -> forall u, t <= u -> until d u = true -> rget s u key = Some q.

Lemma until_earlier d t t' : t <= t' -> until d t' = true -> until d t = true.
Proof. destruct d as [d|]; simpl; [|done]. rewrite !Z.ltb_lt. lia. Qed.

Lemma held_later key q d t t' s : t <= t' -> held key q d t s -> held key q d t' s.
Proof. intros Ht Hh Hd u Hu Hdu. apply Hh; [by eapply until_earlier|lia|done]. Qed.

Lemma held_get key q d t s s' v : held key q d t s -> until d t = true -> rexec t (BGet key) s = (v, s') -> v = Some q.
Proof. intros Hh Hd He. pose proof (redis_get t key s) as Hg. rewrite He in Hg. simpl in Hg. rewrite Hg. by apply Hh. Qed.

Lemma run_if_held now key q v act s t :
  rget s now key = Some q -> v <> q -> rget (run (rexec now) (if_held key v act) s).2 t key = rget s t key.
Proof.
  intros Hq Hne. unfold if_held. cbn [bind call run].
  pose proof (redis_get now key s) as Hg. pose proof (redis_frame now (BGet key) s key t) as Hf.
  destruct (rexec now (BGet key) s) as [x s1]. simpl in Hg, Hf. subst x. rewrite Hq.
  rewrite bool_decide_eq_false_2 by congruence. simpl. by apply Hf.
Qed.

Lemma held_step key q d t ev s s' :
  fair key q (projT1 ev) -> server_step t ev s s' -> held key q d t s -> held key q d t s'.
Proof.
  intros Hfair Hst Hh Hd u Hu Hdu. specialize (Hh Hd). pose proof (Hh t (Z.le_refl t) Hd) as Hnow.
  rewrite <- (Hh u Hu Hdu). destruct Hfair as [Hsp|[(v & ttl & He)|(v & Hv & He)]].
  - by eapply spares_step.
  - destruct ev as [a x]. simpl in He. subst a. simpl in Hst.
    destruct (redis_setnx_taken t key v ttl s) as [_ Hnx]; [by rewrite Hnow|]. specialize (Hnx u).
    destruct x as [y|e]; [|by destruct Hst as [-> | ->]]. by rewrite Hst in Hnx.
  - assert (exists act, projT1 ev = REval (if_held key v act)) as [act Hact]
      by (destruct He as [He|[ms He]]; rewrite He; by eexists).
    destruct ev as [a x]. simpl in Hact. subst a. simpl in Hst.
    destruct x as [z|e]; [destruct Hst as [_ ->]|destruct Hst as [-> | ->]; [done|]];
      by apply (run_if_held t key q).
Qed.

Lemma interfere_held key q d t s t' s' :
  interfere (fair key q) t s t' s' -> held key q d t s -> held key q d t' s'.
Proof.
  apply (interfere_inv (fair key q) (held key q d)); [by intros; eapply held_later|].
  intros. by eapply held_step.
Qed.

(** The claim itself: from the moment it was made. *)
Lemma acquire_held dbID key q ttl t s tr t' s' q' :
  let k := idempotencyKey dbID key in
  0 <= ttl -> among (fair k (bytes_of q)) t s tr t' s' -> executes (AcquireIdempotency dbID key q ttl) tr (Ok (q', true)) ->
  q' = q /\ held k (bytes_of q) ((fun l => t + l) <$> lifetime ttl) t' s'.
Proof.
  simpl. unfold AcquireIdempotency. intros Httl Ham (x & tr' & -> & Hex). cbn [bind call] in Hex.
  destruct Ham as (ts & s1 & s2 & Hi & Hst & Ham). simpl in Hst.
  destruct x as [[]|e]; [|by destruct Hex as ([[v|]|e] & tr2 & -> & _ & [=])|by destruct Hex as [_ [=]]].
  destruct Hex as [-> [= ->]]. split; [done|].
  pose proof (interfere_time _ _ _ _ _ Hi) as Hts.
  apply (interfere_held _ _ _ _ _ _ _ Ham). intros _ u Hu Hdu.
  destruct (rget s1 ts (idempotencyKey dbID key)) as [w|] eqn:Hw.
  { destruct (redis_setnx_taken ts (idempotencyKey dbID key) (bytes_of q) ttl s1) as [H _]; [by rewrite Hw|].
    by rewrite Hst in H. }
  destruct (redis_setnx_free ts (idempotencyKey dbID key) (bytes_of q) ttl s1 Hw Httl) as [_ Hnx].
  rewrite Hst in Hnx. simpl in Hnx. rewrite Hnx by done.
  destruct (lifetime ttl) as [l|]; simpl in *; [|done]. apply Z.ltb_lt in Hdu.
  by rewrite (proj2 (Z.ltb_lt _ _)) by lia.
Qed.

(** C19. An idempotency key is claimed once, over Redis too: after a claim was granted
    and until its lifetime has passed, every attempt of any client to claim the key
    gets the query that holds it or an error, and never the claim, whatever commands,
    attempts, releases and refreshes of other queries run in between, also between
    the two commands of an attempt. *)
Theorem redis_claim_exclusive dbID key q ttl t s tr q1 t1 s1 q2 ttl2 tr2 t2 s2 q' granted :
  let k := idempotencyKey dbID key in
  0 <= ttl -> among (fair k (bytes_of q)) t s tr t1 s1 ->
  executes (AcquireIdempotency dbID key q ttl) tr (Ok (q1, true)) ->
  among (fair k (bytes_of q)) t1 s1 tr2 t2 s2 ->
  executes (AcquireIdempotency dbID key q2 ttl2) tr2 (Ok (q', granted)) ->
  until ((fun l => t + l) <$> lifetime ttl) t2 = true ->
  q' = q /\ granted = false.
Proof.
  simpl. intros Httl Ham1 Hex1 Ham2 Hex2 Hlive.
  destruct (acquire_held _ _ _ _ _ _ _ _ _ _ Httl Ham1 Hex1) as [_ Hh].
  set (d := (fun l => t + l) <$> lifetime ttl) in *. set (k := idempotencyKey dbID key) in *.
  unfold AcquireIdempotency in Hex2. destruct Hex2 as (x & tr' & -> & Hex). cbn [bind call] in Hex.
  destruct Ham2 as (ta & sa & sa' & Hi & Hst & Ham).
  pose proof (among_time _ _ _ _ _ _ Ham) as Hta.
  apply (interfere_held _ _ _ _ _ _ _ Hi) in Hh.
  assert (held k (bytes_of q) d ta sa') as Hh'.
  { eapply held_step; [|exact Hst|done]. right. left. by eexists _, _. }
  assert (until d ta = true) as Hda by (by eapply until_earlier).
  destruct x as [[]|e]; [|destruct Hex as (x & tr2 & -> & Hex); cbn [bind call] in Hex|by destruct Hex as [_ [=]]].
  { exfalso. destruct (redis_setnx_taken ta k (bytes_of q2) ttl2 sa) as [H _].
    - by rewrite (Hh Hda ta (Z.le_refl ta) Hda).
    - simpl in Hst. fold k in Hst. by rewrite Hst in H. }
  destruct Ham as (tb & sb & sb' & Hib & Hstb & Ham). pose proof (among_time _ _ _ _ _ _ Ham) as Htb.
  apply (interfere_held _ _ _ _ _ _ _ Hib) in Hh'.
  assert (until d tb = true) as Hdb by (by eapply until_earlier).
  destruct x as [v|e]; [|by destruct Hex as [_ [=]]]. simpl in Hstb.
  rewrite (held_get _ _ _ _ _ _ _ Hh' Hdb Hstb) in Hex. destruct Hex as [_ [= -> ->]].
  by rewrite string_of_bytes_of.
Qed.

End Clients.

(** ** Stale queries *)

(** What a walk found stale: a record that was read, in flight, without a lease. *)
Definition found_stale (lenient_parse : bytes -> option time) (tr : list (event ranswer)) (id : string) : Prop :=
  exists k val rec,
    existT (RCmd (BGet k)) (Ok (Some val)) ∈ tr /\ unmarshal_record lenient_parse val = Some rec /\
    ID rec = id /\ in_flight rec = true /\ existT (RCmd (BExists (leaseKey id))) (Ok false) ∈ tr.

Lemma found_stale_mono lenient_parse tr1 tr2 tr id :
  found_stale lenient_parse tr id -> found_stale lenient_parse (tr1 ++ tr ++ tr2) id.
Proof.
  intros (k & val & rec & H1 & H2 & H3 & H4 & H5). exists k, val, rec. rewrite !elem_of_app. by split_and!; auto.
Qed.

Lemma visit_key_stale lenient_parse k stale tr stale' :
  executes (visit_key lenient_parse visit_stale k stale) tr stale' ->
  forall id, id ∈ stale' -> id ∈ stale \/ found_stale lenient_parse tr id.
Proof.
  intros (x & tr' & -> & Hex) id. cbn [bind call] in Hex.
  destruct x as [[val|]|e]; [|destruct Hex as [_ ->]; by left..].
  destruct (unmarshal_record lenient_parse val) as [rec|] eqn:Hu; [|destruct Hex as [_ ->]; by left].
  unfold visit_stale in Hex. destruct (negb _ && negb _) eqn:Hf; [destruct Hex as [_ ->]; by left|].
  destruct Hex as (y & tr2 & -> & Hex). cbn [bind call] in Hex.
  destruct y as [[]|e]; destruct Hex as [-> ->]; [by left| |by left].
  rewrite elem_of_app, list_elem_of_singleton. intros [?| ->]; [by left|right].
  exists k, val, rec. split_and!; [by left|done|done| |right; by left].
  unfold in_flight. by apply orb_true_iff; rewrite <- !negb_false_iff; apply andb_false_iff.
Qed.

Lemma scan_stale lenient_parse fuel cursor stale tr ids :
  executes (scanQueries lenient_parse visit_stale fuel cursor stale) tr (Some (Ok ids)) ->
  forall id, id ∈ ids -> id ∈ stale \/ found_stale lenient_parse tr id.
Proof.
  revert cursor stale tr. induction fuel as [|fuel IH]; intros cursor stale tr; [by intros [_ [=]]|].
  intros (x & tr' & -> & Hex). cbn [bind call] in Hex. destruct x as [[keys next]|e]; [|by destruct Hex as [_ [=]]].
  apply executes_bind in Hex as (tr1 & tr2 & acc & -> & Hk & Hex).
  assert (forall id, id ∈ acc -> id ∈ stale \/ found_stale lenient_parse tr1 id) as Hacc.
  { clear -Hk. revert stale tr1 Hk. induction keys as [|k keys IHk]; intros stale tr1; cbn [for_each].
    - intros [_ ->]. by left.
    - intros (tra & trb & st & -> & Hv & Hr)%executes_bind id Hid.
      destruct (IHk _ _ Hr id Hid) as [Hin|Hf].
      + destruct (visit_key_stale _ _ _ _ _ Hv id Hin) as [?|Hf]; [by left|right].
        apply (found_stale_mono _ [] trb) in Hf. done.
      + right. apply (found_stale_mono _ tra []) in Hf. by rewrite app_nil_r in Hf. }
  intros id Hid. destruct (next =? 0).
  - destruct Hex as [-> [= ->]]. destruct (Hacc id Hid) as [?|Hf]; [by left|right].
    by apply (found_stale_mono _ [existT (RCmd (BScan cursor)) (Ok (keys, next))] []) in Hf.
  - destruct (IH _ _ _ Hex id Hid) as [Hin|Hf].
    + destruct (Hacc id Hin) as [?|Hf]; [by left|right].
      by apply (found_stale_mono _ [existT (RCmd (BScan cursor)) (Ok (keys, next))] tr2) in Hf.
    + right. apply (found_stale_mono _ (existT (RCmd (BScan cursor)) (Ok (keys, next)) :: tr1) []) in Hf.
      by rewrite app_nil_r in Hf.
Qed.

(** Every query the store lists as stale was read in flight and looked up without a
    lease; a lease that could not be looked up does not make one. *)
Theorem redis_stale_sound lenient_parse fuel tr ids :
  executes (ListStaleQueries lenient_parse fuel) tr (Some (Ok ids)) ->
  forall id, id ∈ ids -> found_stale lenient_parse tr id.
Proof. intros Hex id Hid. by destruct (scan_stale _ _ _ _ _ _ Hex id Hid) as [?%elem_of_nil|]. Qed.

(** ** A server

    Strings with their deadlines, sets and a counter of writes per key. *)

Record iredis := mkIRedis {
  ir_strings : gmap string (bytes * option time);
  ir_sets : gmap string (gset string);
  ir_version : gmap string Z
}.

Definition ir_get (s : iredis) (t : time) (k : string) : option bytes :=
  match ir_strings s !! k with
  | Some (v, d) => if until d t then Some v else None
  | None => None
  end.

Definition ir_count (s : iredis) (k : string) : Z := default 0 (ir_version s !! k).

(** A write to a string key. *)
Definition ir_write (k : string) (e : option (bytes * option time)) (s : iredis) : iredis :=
  mkIRedis (partial_alter (fun _ => e) k (ir_strings s)) (ir_sets s) (<[k := ir_count s k + 1]> (ir_version s)).

Definition ir_set (k : string) (f : gset string -> gset string) (s : iredis) : iredis :=
  mkIRedis (ir_strings s) (<[k := f (default ∅ (ir_sets s !! k))]> (ir_sets s)) (ir_version s).

Definition ir_entry (now : time) (v : bytes) (ttl : Z) : option (bytes * option time) :=
  Some (v, (fun l => now + l) <$> lifetime ttl).

Definition ir_members (s : iredis) (k : string) : gset string := default ∅ (ir_sets s !! k).

Definition ir_exec (now : time) (c : bcmd) (s : iredis) : breply c * iredis :=
  match c return breply c * iredis with
  | BSet k v ttl => (tt, ir_write k (ir_entry now v ttl) s)
  | BGet k => (ir_get s now k, s)
  | BTTL k => (match ir_strings s !! k with
               | Some (_, Some d) => if now <? d then d - now else -2
               | Some (_, None) => -1
               | None => -2
               end, s)
  | BSetNX k v ttl =>
      match ir_get s now k with
      | Some _ => (false, s)
      | None => (true, ir_write k (ir_entry now v ttl) s)
      end
  | BDel k => (1, ir_write k None s)
  | BPExpire k ms =>
      (1, ir_write k ((fun v => (v, Some (now + ms * Millisecond))) <$> ir_get s now k) s)
  | BExists k => (match ir_get s now k with Some _ => true | None => false end, s)
  | BSAdd k m => (1, ir_set k (fun x => {[m]} ∪ x) s)
  | BSRem k m => (1, ir_set k (fun x => x ∖ {[m]}) s)
  | BSCard k => (Z.of_nat (size (ir_members s k)), s)
  | BSMembers k => (elements (ir_members s k), s)
  | BPublish _ _ => (0, s)
  | BScan _ => ((map_to_list (ir_strings s)).*1, 0, s)
  end.

Lemma ir_get_write k e s t k' :
  ir_get (ir_write k e s) t k' =
  if decide (k = k') then match e with Some (v, d) => if until d t then Some v else None | None => None end
  else ir_get s t k'.
Proof.
  unfold ir_get, ir_write. simpl. case_decide; subst; [by rewrite lookup_partial_alter_eq|].
  by rewrite lookup_partial_alter_ne.
Qed.

Lemma ir_count_write k e s k' :
  ir_count (ir_write k e s) k' = if decide (k = k') then ir_count s k' + 1 else ir_count s k'.
Proof.
  unfold ir_count at 1, ir_write. simpl. case_decide; subst; [by rewrite lookup_insert_eq|].
  by rewrite lookup_insert_ne.
Qed.

(** What a command does to the counters and the other keys. *)
Lemma ir_exec_effect now c s :
  (ir_exec now c s).2 = s \/
  (exists k e, writes c = Some k /\ (ir_exec now c s).2 = ir_write k e s) \/
  (exists k f, (ir_exec now c s).2 = ir_set k f s).
Proof.
  destruct c; simpl; eauto 6. destruct (ir_get s now key); simpl; eauto 6.
Qed.

#[export, refine] Instance ideal_redis : RedisServer iredis := {
  rexec := ir_exec; rget := ir_get; version := ir_count
}.
Proof.
  - done.
  - intros now c s k t Hw. destruct (ir_exec_effect now c s) as [-> |[(k' & e & Hk & ->)|(k' & f & ->)]]; try done.
    rewrite ir_get_write, decide_False; [done|]. congruence.
  - intros now k v ttl s t _ Ht. cbn [ir_exec snd]. by rewrite ir_get_write, decide_True.
  - intros now k v ttl s Hk. simpl. by destruct (ir_get s now k).
  - intros now k v ttl s Hk _. simpl. rewrite Hk. split; [done|]. intros t Ht. cbn [snd].
    by rewrite ir_get_write, decide_True.
  - intros now k s t _. cbn [ir_exec snd]. by rewrite ir_get_write, decide_True.
  - intros now k ms s t _. cbn [ir_exec snd]. rewrite ir_get_write, decide_True by done.
    by destruct (ir_get s now k).
  - intros now c s k. destruct (ir_exec_effect now c s) as [-> |[(k' & e & Hk & ->)|(k' & f & ->)]]; [lia| |].
    + rewrite ir_count_write. case_decide; lia.
    + done.
  - intros now c s k. destruct (ir_exec_effect now c s) as [-> |[(k' & e & Hk & ->)|(k' & f & ->)]]; [done| |].
    + rewrite ir_count_write. case_decide; [lia|]. intros _ t _. by rewrite ir_get_write, decide_False.
    + done.
Defined.

(** ** Examples *)

(** One client, all of whose calls are answered at the moment [now]. *)
Definition redis_env {R} `{!RedisServer R} (now : time) (a : raction) (s : R) : ranswer a * R :=
  match a return ranswer a * R with
  | RCmd c => let '(x, s') := rexec now c s in (Ok x, s')
  | REval p => let out := run (rexec now) p s in (Ok out.1.1, out.2)
  | RWatch k => (Ok (version s k), s)
  | RExec k tok cs => if version s k =? tok then (Ok true, exec_all now cs s) else (Ok false, s)
  | RNow => (now, s)
  end.

Lemma redis_env_among {R} `{!RedisServer R} {A} allowed now (p : Rd A) (s : R) :
  among allowed now s (run (redis_env now) p s).1.2 now (run (redis_env now) p s).2.
Proof.
  revert s. induction p as [a|a f IH]; intros s; simpl; [by constructor|].
  destruct (redis_env now a s) as [x s1] eqn:He. specialize (IH x s1).
  destruct (run (redis_env now) (f x) s1) as [[b tr] s2]. simpl in *.
  exists now, s, s1. split_and!; [by constructor| |done].
  destruct a as [c|q|k|k tok cs|]; simpl in He.
  - destruct (rexec now c s) as [y s'] eqn:Hc. injection He as <- <-. done.
  - injection He as <- <-. done.
  - injection He as <- <-. done.
  - destruct (Z.eqb_spec (version s k) tok); injection He as <- <-; done.
  - injection He as <- <-. done.
Qed.

Definition demo_zone (t : time) : Z := 120.
Definition demo_parse (l : bytes) : option time := None.
Definition demo_error : error := PlainError "json".
Definition demo_now : time := 63800000003 * Second.

Definition empty_redis : iredis := mkIRedis ∅ ∅ ∅.
Definition demo_put := run (redis_env demo_now) (PutQuery demo_zone demo_error demo_record) empty_redis.
Definition demo_get := run (redis_env demo_now) (GetQuery demo_parse demo_error "q-1") demo_put.2.
Definition demo_update :=
  run (redis_env demo_now) (UpdateQueryIfState demo_zone demo_parse demo_error demo_record [StateFailed]) demo_put.2.
Definition demo_acquire (q : string) (s : iredis) :=
  run (redis_env demo_now) (AcquireIdempotency "db" "k" q Hour) s.

(** A run of the one client, as the theorems want it. *)
Lemma run_result {A} (p : Rd A) (s : iredis) out :
  (run (redis_env demo_now) p s).1.1 = out -> executes p (run (redis_env demo_now) p s).1.2 out.
Proof. intros <-. apply run_executes. Qed.

Lemma redis_record_read_back_witness :
  exists d, demo_get.1.1 = Ok (set_LeaseDeadline d (stored demo_record)).
Proof.
  assert (demo_put.1.1 = None) as Hp by (vm_compute; reflexivity).
  destruct (redis_record_read_back demo_zone demo_parse demo_error demo_record demo_now empty_redis
    demo_put.1.2 demo_now demo_put.2 demo_get.1.2 demo_now demo_get.2 demo_get.1.1 demo_record_ok) as [H|[e He]].
  - vm_compute. done.
  - apply redis_env_among.
  - by apply run_result.
  - apply redis_env_among.
  - by apply run_result.
  - vm_compute. reflexivity.
  - exact H.
  - exfalso. assert (match demo_get.1.1 with Ok _ => true | Err _ => false end = true) as H by (vm_compute; reflexivity).
    by rewrite He in H.
Defined.

Lemma redis_update_fenced_witness :
  demo_update.1.1 = Ok true /\
  exists val current t1 (s1 : iredis),
    rget s1 t1 (queryKey "q-1") = Some val /\ unmarshal_record demo_parse val = Some current /\
    rec_State current ∈ [StateFailed].
Proof.
  assert (demo_update.1.1 = Ok true) as Hu by (vm_compute; reflexivity). split; [exact Hu|].
  pose proof (redis_update_fenced demo_zone demo_parse demo_error (fun _ => True) demo_now demo_put.2
    demo_update.1.2 demo_now demo_update.2 demo_record [StateFailed] (Ok true)
    (redis_env_among _ _ _ _) (run_result _ _ _ Hu)) as (data & val & current & t1 & s1 & _ & _ & _ & H1 & H2 & H3 & _).
  exists val, current, t1, s1. exact (conj H1 (conj H2 H3)).
Defined.

Lemma redis_claim_exclusive_witness :
  (demo_acquire "q-1" empty_redis).1.1 = Ok ("q-1", true) /\
  exists q granted, (demo_acquire "q-2" (demo_acquire "q-1" empty_redis).2).1.1 = Ok (q, granted) /\
    q = "q-1" /\ granted = false.
Proof.
  assert ((demo_acquire "q-1" empty_redis).1.1 = Ok ("q-1", true)) as H1 by (vm_compute; reflexivity).
  split; [exact H1|].
  assert (exists q granted, (demo_acquire "q-2" (demo_acquire "q-1" empty_redis).2).1.1 = Ok (q, granted))
    as (q & granted & H2) by (eexists _, _; vm_compute; reflexivity).
  exists q, granted. split; [exact H2|].
  refine (redis_claim_exclusive "db" "k" "q-1" Hour demo_now empty_redis _ "q-1" demo_now _ "q-2" Hour _ demo_now _
    q granted _ (redis_env_among _ _ _ _) (run_result _ _ _ H1) (redis_env_among _ _ _ _) (run_result _ _ _ H2) _).
  - done.
  - vm_compute. reflexivity.
Defined.

(** *** Keys that meet *)

(** The set of an instance's queries and the mark of another instance may share a
    key, and so may claims of different databases. *)
Lemma instance_keys_meet id : instanceKey (id +:+ ":queries") = instanceQueriesKey id.
Proof. done. Qed.

Lemma idempotency_keys_meet : idempotencyKey "a:b" "c" = idempotencyKey "a" "b:c".
Proof. done. Qed.
