(* ===== verification/Subscription.v ===== *)
(** * Control subscriptions over Redis

    The goroutine of [SubscribeControl] in [internal/state/redis.go]: it takes payloads
    from the channel of the Redis client, decodes them and sends them on a channel of 100
    messages, until the context ends or the client closes its channel. The goroutine, its
    reader, the client and the context take steps in any order. *)

From S2P Require Import Prelude Domain Utf8 Text Json RecordJson MetaStore Prog Redis.

#[local] Arguments unmarshal_control : simpl never.

(** ** The goroutine *)

Definition control_buffer : nat := 100.

(** In the [select], blocked in [ch <- ctrl], or returned. *)
Inductive forwarding := FSelect | FSend (ctrl : ControlMsg) | FReturned.

Record feed := mkFeed {
  arrived : list bytes;          (* payloads the client holds for [redisCh] *)
  redisCh_closed : bool;
  fwd : forwarding;
  buffered : list ControlMsg;    (* [ch] *)
  ch_closed : nat;               (* how often [ch] was closed *)
  pubsub_closed : nat;
  ctx_ended : bool;
  reading : bool;                (* whether anybody reads [ch] *)
  taken : list bytes;            (* the payloads received so far *)
  delivered : list ControlMsg    (* the messages the reader got *)
}.

(** [SubscribeControl] up to its return. *)
Definition SubscribeControl : feed := mkFeed [] false FSelect [] 0 0 false true [] [].

(** The deferred calls: [close(ch)], then [pubsub.Close()]. *)
Definition returns (c : feed) : feed :=
  mkFeed (arrived c) (redisCh_closed c) FReturned (buffered c) (S (ch_closed c)) (S (pubsub_closed c))
    (ctx_ended c) (reading c) (taken c) (delivered c).

(** [case msg, ok := <-redisCh]. *)
Definition take_payload (c : feed) : option feed :=
  match arrived c with
  | payload :: rest =>
      Some (mkFeed rest (redisCh_closed c)
              (match unmarshal_control payload with Some ctrl => FSend ctrl | None => FSelect end)
              (buffered c) (ch_closed c) (pubsub_closed c) (ctx_ended c) (reading c) (taken c ++ [payload]) (delivered c))
  | [] => if redisCh_closed c then Some (returns c) else None
  end.

(** [ch <- ctrl], when there is room. *)
Definition send_control (ctrl : ControlMsg) (c : feed) : option feed :=
  if (length (buffered c) <? control_buffer)%nat
  then Some (mkFeed (arrived c) (redisCh_closed c) FSelect (buffered c ++ [ctrl]) (ch_closed c) (pubsub_closed c)
               (ctx_ended c) (reading c) (taken c) (delivered c))
  else None.

(** ** Interleavings *)

Inductive label := LDone | LTake | LSend | LReceive | LArrive (payload : bytes) | LCloseRedis | LCancel | LGone.

(** The steps of the goroutine and of its reader. *)
Definition own (l : label) : bool := match l with LDone | LTake | LSend | LReceive => true | _ => false end.

Definition step (l : label) (c : feed) : option feed :=
  let '(mkFeed arr rc f buf cc pc ctx rd tk dl) := c in
  match l with
  | LDone => match f with FSelect => if ctx then Some (returns c) else None | _ => None end
  | LTake => match f with FSelect => take_payload c | _ => None end
  | LSend => match f with FSend ctrl => send_control ctrl c | _ => None end
  | LReceive =>
      match buf with
      | m :: buf => if rd then Some (mkFeed arr rc f buf cc pc ctx rd tk (dl ++ [m])) else None
      | [] => None
      end
  | LArrive payload => if rc then None else Some (mkFeed (arr ++ [payload]) rc f buf cc pc ctx rd tk dl)
  | LCloseRedis => Some (mkFeed arr true f buf cc pc ctx rd tk dl)
  | LCancel => Some (mkFeed arr rc f buf cc pc true rd tk dl)
  | LGone => Some (mkFeed arr rc f buf cc pc ctx false tk dl)
  end.

Definition steps (c c' : feed) : Prop := exists l, step l c = Some c'.
Definition own_steps (c c' : feed) : Prop := exists l, own l = true /\ step l c = Some c'.
Definition reachable (c : feed) : Prop := rtc steps SubscribeControl c.

Fixpoint run_labels (ls : list label) (c : feed) : option feed :=
  match ls with [] => Some c | l :: ls => c' ← step l c; run_labels ls c' end.

Lemma feed_run_labels_steps ls c c' : run_labels ls c = Some c' -> rtc steps c c'.
Proof.
  revert c. induction ls as [|l ls IH]; intros c; simpl; [by intros [= <-]|].
  destruct (step l c) as [c1|] eqn:H; [|done]. simpl. intros Hr. eapply rtc_l; [by exists l|auto].
Qed.

(** ** What the reader gets *)

Definition pending (f : forwarding) : list ControlMsg := match f with FSend ctrl => [ctrl] | _ => [] end.

Record feed_ok (c : feed) : Prop := {
  fo_flow : delivered c ++ buffered c ++ pending (fwd c) = forward_control (taken c);
  fo_room : (length (buffered c) <= control_buffer)%nat;
  fo_closed : ch_closed c = (match fwd c with FReturned => 1 | _ => 0 end)%nat /\ pubsub_closed c = ch_closed c
}.

Lemma feed_step_ok l c c' : feed_ok c -> step l c = Some c' -> feed_ok c'.
Proof.
  destruct c as [arr rc f buf cc pc ctx rd tk dl]. intros [Hf Hr [Hc Hp]]. simpl in *.
  assert (forall k, f = FSelect -> feed_ok (mkFeed arr k FReturned buf (S cc) (S pc) ctx rd tk dl)) as Hret.
  { intros k ->. simpl in *. subst. by split. }
  destruct l; cbn [step].
  - destruct f; try done. destruct ctx; [|done]. intros [= <-]. by apply Hret.
  - destruct f; try done. unfold take_payload. cbn. destruct arr as [|payload rest].
    { destruct rc; [|done]. intros [= <-]. by apply Hret. }
    intros [= <-]. simpl in *. rewrite app_nil_r in Hf. unfold forward_control in *.
    destruct (unmarshal_control payload) as [ctrl|] eqn:Hu; split; simpl; try done;
      unfold forward_control; rewrite omap_app; simpl; rewrite Hu, <- Hf, <- ?app_assoc; by rewrite ?app_nil_r.
  - destruct f as [|ctrl|]; try done. unfold send_control. cbn [buffered]. destruct (Nat.ltb_spec (length buf) control_buffer); [|done].
    intros [= <-]. split; cbn in *; [by rewrite app_nil_r|rewrite length_app; cbn; lia|done].
  - destruct buf as [|m buf]; [done|]. destruct rd; [|done]. intros [= <-]. simpl in *.
    split; simpl; [by rewrite <- app_assoc|lia|done].
  - destruct rc; [done|]. intros [= <-]. by split.
  - intros [= <-]. by split.
  - intros [= <-]. by split.
  - intros [= <-]. by split.
Qed.

Lemma feed_reachable_ok c : reachable c -> feed_ok c.
Proof.
  unfold reachable. assert (feed_ok SubscribeControl) as H0 by (split; simpl; [done|unfold control_buffer; lia|done]).
  revert H0. generalize SubscribeControl. induction 2 as [|c0 c1 c2 [l Hl] _ IH]; [done|]. apply IH. by eapply feed_step_ok.
Qed.

(** ** The goroutine returns *)

Definition work (c : feed) : nat :=
  (4 * length (arrived c) + match fwd c with FSelect => 1 | FSend _ => 3 | FReturned => 0 end + length (buffered c))%nat.

Lemma feed_own_step_works l c c' : own l = true -> step l c = Some c' -> (work c' < work c)%nat.
Proof.
  destruct c as [arr rc f buf cc pc ctx rd tk dl]. intros Hl. destruct l; try discriminate Hl; cbn [step]; unfold work.
  - destruct f; try done. destruct ctx; [|done]. intros [= <-]. simpl. lia.
  - destruct f; try done. unfold take_payload. cbn. destruct arr as [|payload rest].
    { destruct rc; [|done]. intros [= <-]. simpl. lia. }
    intros [= <-]. simpl. destruct (unmarshal_control payload); simpl; lia.
  - destruct f as [|ctrl|]; try done. unfold send_control. cbn [buffered]. case_match; [|done]. intros [= <-]. simpl.
    rewrite length_app. simpl. lia.
  - destruct buf as [|m buf]; [done|]. destruct rd; [|done]. intros [= <-]. simpl. lia.
Qed.

Lemma ended_progress c : ctx_ended c = true -> reading c = true -> fwd c <> FReturned -> exists c', own_steps c c'.
Proof.
  destruct c as [arr rc f buf cc pc ctx rd tk dl]. simpl. intros -> -> Hf. destruct f as [|ctrl|]; [..|done].
  - eexists _, LDone. by split.
  - destruct (Nat.ltb_spec (length buf) control_buffer) as [Hlt|Hge].
    + eexists _, LSend. split; [done|]. cbn [step]. unfold send_control. cbn [buffered]. by rewrite (proj2 (Nat.ltb_lt _ _)).
    + destruct buf as [|m buf]; [simpl in Hge; unfold control_buffer in Hge; lia|]. eexists _, LReceive. by split.
Qed.

Lemma own_keeps c c' : own_steps c c' -> ctx_ended c' = ctx_ended c /\ reading c' = reading c.
Proof.
  intros (l & Hl & Hs). destruct c as [arr rc f buf cc pc ctx rd tk dl]. destruct l; try discriminate Hl; cbn [step] in Hs;
    unfold take_payload, send_control, returns in Hs; cbn in Hs; repeat case_match; simplify_eq; done.
Qed.

Lemma feed_own_steps_bounded n c c' : nsteps own_steps n c c' -> (n + work c' <= work c)%nat.
Proof.
  induction 1 as [|n c0 c1 c2 (l & Hl & Hs) _ IH]; [lia|]. pose proof (feed_own_step_works _ _ _ Hl Hs). lia.
Qed.

(** C27. The control messages of other instances reach a subscriber in their order: what it
    has read, what is buffered and what is being sent are together the messages of the
    payloads taken from Redis that can be decoded, with none lost or repeated; at most
    100 are buffered; and the channel and the subscription are closed once, when the
    goroutine returns. After the context has ended the goroutine returns within a
    bounded number of steps as long as the subscriber goes on reading. *)
Theorem control_forwarded c :
  reachable c ->
  delivered c ++ buffered c ++ pending (fwd c) = forward_control (taken c) /\
  (length (buffered c) <= control_buffer)%nat /\
  ch_closed c = (match fwd c with FReturned => 1 | _ => 0 end)%nat /\ pubsub_closed c = ch_closed c /\
  (ctx_ended c = true -> reading c = true ->
     (forall n c', nsteps own_steps n c c' -> (n <= work c)%nat) /\
     (forall c', rtc own_steps c c' -> (forall c'', ~ own_steps c' c'') -> fwd c' = FReturned)).
Proof.
  intros Hr. destruct (feed_reachable_ok c Hr) as [Hf Hroom [Hc Hp]]. split_and!; try done. intros Hctx Hrd. split.
  - intros n c' Hn%feed_own_steps_bounded. lia.
  - intros c' Hs Hstuck. assert (ctx_ended c' = true /\ reading c' = true) as [Hctx' Hrd'].
    { clear Hstuck Hf Hroom Hc Hp Hr. induction Hs as [|c0 c1 c2 H1%own_keeps _ IH]; [done|]. apply IH; naive_solver congruence. }
    destruct (fwd c') eqn:Hfw; [..|done]; destruct (ended_progress c' Hctx' Hrd') as [c'' H]; try congruence; by destruct (Hstuck c'').
Qed.

(** ** Examples *)

Definition demo_control (id : string) : ControlMsg := mkControlMsg ControlQueryEvent id "i-1" None.
Definition demo_payload : bytes := marshal_control (demo_control "q-1").

(** Two messages and a payload that is none, then the end of the context. *)
Definition demo_labels : list label :=
  [LArrive demo_payload; LArrive [123]; LTake; LSend; LTake; LArrive demo_payload; LReceive; LTake; LCancel].

Definition demo_feed : feed := default SubscribeControl (run_labels demo_labels SubscribeControl).

Lemma demo_feed_reachable : reachable demo_feed.
Proof. apply (feed_run_labels_steps demo_labels). vm_compute. reflexivity. Qed.

Lemma control_forwarded_witness :
  delivered demo_feed ++ buffered demo_feed ++ pending (fwd demo_feed) = [demo_control "q-1"; demo_control "q-1"] /\
  forall n c', nsteps own_steps n demo_feed c' -> (n <= 3)%nat.
Proof.
  destruct (control_forwarded demo_feed demo_feed_reachable) as (Hf & _ & _ & _ & Ht).
  split; [rewrite Hf; vm_compute; reflexivity|]. exact (proj1 (Ht ltac:(vm_compute; reflexivity) ltac:(vm_compute; reflexivity))).
Defined.

(** A subscriber that stops reading when its context ends: with a full buffer the
    goroutine stays in its send for good, and neither the channel nor the subscription
    is ever closed. *)
Definition full_labels : list label :=
  concat (repeat [LArrive demo_payload; LTake; LSend] control_buffer) ++ [LArrive demo_payload; LTake; LCancel; LGone].

Definition full_feed : feed := default SubscribeControl (run_labels full_labels SubscribeControl).

Lemma abandoned_subscription_leaks :
  reachable full_feed /\ ctx_ended full_feed = true /\
  forall c, rtc steps full_feed c -> reading c = false /\ pubsub_closed c = 0%nat /\ ch_closed c = 0%nat.
Proof.
  split; [apply (feed_run_labels_steps full_labels); vm_compute; reflexivity|]. split; [vm_compute; reflexivity|].
  assert (exists ctrl, fwd full_feed = FSend ctrl /\ length (buffered full_feed) = control_buffer /\
    reading full_feed = false /\ pubsub_closed full_feed = 0%nat /\ ch_closed full_feed = 0%nat) as H0
    by (eexists; vm_compute; split_and!; reflexivity).
  revert H0. generalize full_feed. intros c0 H0 c Hs. enough (exists ctrl, fwd c = FSend ctrl /\
    length (buffered c) = control_buffer /\ reading c = false /\ pubsub_closed c = 0%nat /\ ch_closed c = 0%nat) by naive_solver.
  induction Hs as [|c0 c1 c2 [l Hl] _ IH]; [done|]. apply IH. clear IH.
  destruct H0 as (ctrl & Hf & Hb & Hrd & Hp & Hc). exists ctrl.
  destruct c0 as [arr rc f buf cc pc ctx rd tk dl]. cbn [fwd buffered reading pubsub_closed ch_closed] in *. subst.
  destruct l; cbn [step] in Hl; try discriminate Hl.
  - unfold send_control in Hl. cbn [buffered] in Hl. by rewrite Hb, Nat.ltb_irrefl in Hl.
  - by destruct buf.
  - destruct rc; [done|]. by injection Hl as <-.
  - by injection Hl as <-.
  - by injection Hl as <-.
  - by injection Hl as <-.
Qed.
