(* ===== verification/Encoder.v ===== *)
(** * Streaming a result into a file

    [internal/storage/encoder.go] and the writing half of [parquet.go]: rows pulled
    from a stream, encoded, and written through a counting writer, with progress
    reports on the way. The writer, the clock, the callbacks and the Parquet
    library are the environment ([eaction]); a stream is the list of what its turns
    yield, so that every run over it ends. *)

From S2P Require Import Prelude Domain Utf8 Text Json RecordJson Rows Parquet Prog.

Open Scope Z_scope.
Open Scope dbb_scope.

(** ** The environment *)

(** [EWrite] is [w.Write]: the number of bytes taken and the error. The calls of
    the Parquet writer answer how many bytes they passed on. *)
Inductive eaction :=
| EWrite (data : bytes)
| ENow
| EProgress (callback : nat) (rows count : Z)
| EPqOpen (schema : gmap string node)
| EPqWrite (row : list pvalue)
| EPqFlush
| EPqClose.

Definition eanswer (a : eaction) : Type :=
  match a with
  | EWrite _ | EPqWrite _ | EPqFlush | EPqClose => Z * option error
  | ENow => time
  | EProgress _ _ _ | EPqOpen _ => unit
  end.

Abbreviation E A := (prog eanswer A).

(** The counting writer, the buffer of the CSV writer with its first error, and
    the moment of the last report. *)
Record est := mkEst { cnt : Z; buf : bytes; werr : option error; last : time }.

Definition set_cnt c st := mkEst c (buf st) (werr st) (last st).
Definition set_buf b e st := mkEst (cnt st) b e (last st).
Definition set_last t st := mkEst (cnt st) (buf st) (werr st) t.

(** [CountingWriter.Write]. *)
Definition cw_write (data : bytes) (st : est) : E (Z * option error * est) :=
  do out <- call (EWrite data);
  Ret (out.1, out.2, set_cnt (i64_add (cnt st) out.1) st).

(** *** [bufio.Writer], of the default size *)

Definition bufio_size : Z := 4096.

Definition ErrShortWrite : error := PlainError "short write".

Definition flush (st : est) : E (option error * est) :=
  match werr st with
  | Some e => Ret (Some e, st)
  | None =>
      if bool_decide (buf st = []) then Ret (None, st)
      else
        do '(n, err, st) <- cw_write (buf st) st;
        let err := match err with
                   | Some e => Some e
                   | None => if n <? Z.of_nat (length (buf st)) then Some ErrShortWrite else None
                   end in
        match err with
        | Some e => Ret (Some e, set_buf (buf st) (Some e) st)
        | None => Ret (None, set_buf [] None st)
        end
  end.

(** Bytes into the buffer: it is flushed when it is full and one more arrives. *)
Fixpoint push (l : bytes) (st : est) : E (option error * est) :=
  match l with
  | [] => Ret (werr st, st)
  | b :: l =>
      match werr st with
      | Some e => Ret (Some e, st)
      | None =>
          if Z.of_nat (length (buf st)) =? bufio_size then
            do '(err, st) <- flush st;
            match err with
            | Some e => Ret (Some e, st)
            | None => push l (set_buf (buf st ++ [b]) None st)
            end
          else push l (set_buf (buf st ++ [b]) None st)
      end
  end.

Definition csv_write (fs : list bytes) (st : est) : E (option error * est) := push (csv_record fs) st.

(** ** Streams *)

Section Encode.
Context {other : Type} `{!ValueText other}.

(** One turn of a stream: whether the context is done by then, and the scan. *)
Record turn := mkTurn { t_ctx : option error; t_scan : result (list (cell other)) }.

(** [rs_mid] is what [Err] says while rows are left, [rs_err] what it says at the
    end. *)
Record row_stream := mkStream {
  rs_columns : result (list string);
  rs_rows : list turn;
  rs_mid : option error;
  rs_err : option error
}.

(** ** Progress *)

Context (callbacks : nat).

Definition progressReportEvery : Z := 1000.
Definition progressReportAfter : Z := Second.

Definition emit (rows : Z) (st : est) : E est :=
  do now <- call ENow;
  for_each (fun i (_ : unit) => call (EProgress i rows (cnt st)) : E unit) (seq 0 callbacks) tt ;;
  Ret (set_last now st).
#[local] Arguments emit : simpl never.

Definition report_rows (rows : Z) (st : est) : E est :=
  if negb (Z.rem rows progressReportEvery =? 0) then
    do now <- call ENow;
    if time_sub now (last st) <? progressReportAfter then Ret st else emit rows st
  else emit rows st.

(** ** CSV and JSON lines *)

(** The loop of a format, over what it writes for a row: the rows counted, and the
    error that ended it. *)
Fixpoint encode_rows (write : list (cell other) -> est -> E (option error * est))
  (turns : list turn) (rowCount : Z) (st : est) : E (Z * est * option error) :=
  match turns with
  | [] => Ret (rowCount, st, None)
  | t :: turns =>
      match t_ctx t with
      | Some e => Ret (rowCount, st, Some e)
      | None =>
          match t_scan t with
          | Err e => Ret (rowCount, st, Some (WrapError "failed to scan row" e))
          | Ok values =>
              do '(err, st) <- write values st;
              match err with
              | Some e => Ret (rowCount, st, Some e)
              | None =>
                  let rowCount := i64_add rowCount 1 in
                  do st <- report_rows rowCount st;
                  encode_rows write turns rowCount st
              end
          end
      end
  end.

Definition wrap_err (msg : string) (e : option error) : option error := WrapError msg <$> e.

Definition csv_row (values : list (cell other)) (st : est) : E (option error * est) :=
  do '(err, st) <- csv_write (map toString values) st;
  Ret (wrap_err "failed to write csv row" err, st).

(** The text of [json]'s error is the library's. *)
Context (marshal_error : list string -> list (cell other) -> error).

Definition jsonl_row (columns : list string) (values : list (cell other)) (st : est)
  : E (option error * est) :=
  match jsonl_line columns values with
  | None => Ret (Some (WrapError "failed to marshal row to json" (marshal_error columns values)), st)
  | Some line =>
      do '(_, err, st) <- cw_write line st;
      Ret (wrap_err "failed to write jsonl row" err, st)
  end.

(** How an encoder ends: it returns an error or none, or a run-time panic goes
    through it. *)
Inductive outcome := Returned (err : option error) | Panicked.

(** What is left for the deferred report: the row count, the state, the counts
    returned and the outcome. *)
Definition ended : Type := Z * est * (Z * Z) * outcome.

Definition counted (rowCount : Z) (st : est) (err : option error) : ended :=
  (rowCount, st, (rowCount, cnt st), Returned err).

Definition encode_csv (s : row_stream) (columns : list string) (st : est) : E ended :=
  do '(err, st) <- csv_write (map bytes_of columns) st;
  match err with
  | Some e => Ret (0, st, (0, 0), Returned (Some (WrapError "failed to write csv header" e)))
  | None =>
      do '(rowCount, st, err) <- encode_rows csv_row (rs_rows s) 0 st;
      match err with
      | Some e => Ret (counted rowCount st (Some e))
      | None =>
          do '(err, st) <- flush st;
          match err with
          | Some e => Ret (counted rowCount st (Some (WrapError "csv flush failed" e)))
          | None => Ret (counted rowCount st (wrap_err "row stream error" (rs_err s)))
          end
      end
  end.

Definition encode_jsonl (s : row_stream) (columns : list string) (st : est) : E ended :=
  do '(rowCount, st, err) <- encode_rows (jsonl_row columns) (rs_rows s) 0 st;
  match err with
  | Some e => Ret (counted rowCount st (Some e))
  | None => Ret (counted rowCount st (wrap_err "row stream error" (rs_err s)))
  end.

(** ** Parquet *)

Context (Fields : gmap string node -> list string).

Definition parquetSchemaSample : nat := 128.
Definition parquetRowsPerRowGroup : Z := 50000.

(** The head of the stream: the rows sampled and the turns left. *)
Fixpoint take_sample (n : nat) (turns : list turn) : result (list (list (cell other)) * list turn) :=
  match n, turns with
  | O, _ | _, [] => Ok ([], turns)
  | S n, t :: turns =>
      match t_ctx t with
      | Some e => Err e
      | None =>
          match t_scan t with
          | Err e => Err (WrapError "failed to scan row" e)
          | Ok values =>
              match take_sample n turns with
              | Ok (sample, rest) => Ok (values :: sample, rest)
              | Err e => Err e
              end
          end
      end
  end.

(** What the Parquet writer passed on reaches the counting writer. *)
Definition passed (out : Z * option error) (st : est) : est := set_cnt (i64_add (cnt st) out.1) st.

(** The row count, the row that is reused, and the rest. *)
Definition pst : Type := Z * list pvalue * est.

Definition flush_group (rowCount : Z) (st : est) : E (option error * est) :=
  if Z.rem rowCount parquetRowsPerRowGroup =? 0 then
    do out <- call EPqFlush;
    Ret (wrap_err "failed to flush parquet row group" out.2, passed out st)
  else Ret (None, st).

Definition writeRow (names : list string) (cols : list parquetColumn) (src : list (cell other))
  (s : pst) : E (pst * outcome) :=
  let '(rowCount, row, st) := s in
  match fill_row names cols src row with
  | None => Ret (s, Panicked)
  | Some (Err e) => Ret (s, Returned (Some e))
  | Some (Ok row) =>
      do out <- call (EPqWrite row);
      let st := passed out st in
      match out.2 with
      | Some e => Ret (rowCount, row, st, Returned (Some (WrapError "failed to write parquet row" e)))
      | None =>
          let rowCount := i64_add rowCount 1 in
          do '(err, st) <- flush_group rowCount st;
          match err with
          | Some e => Ret (rowCount, row, st, Returned (Some e))
          | None => do st <- report_rows rowCount st; Ret (rowCount, row, st, Returned None)
          end
      end
  end.

Fixpoint write_sample (names : list string) (cols : list parquetColumn)
  (sample : list (list (cell other))) (s : pst) : E (pst * outcome) :=
  match sample with
  | [] => Ret (s, Returned None)
  | src :: sample =>
      do '(s, out) <- writeRow names cols src s;
      match out with
      | Returned None => write_sample names cols sample s
      | _ => Ret (s, out)
      end
  end.

Fixpoint write_stream (names : list string) (cols : list parquetColumn) (turns : list turn) (s : pst)
  : E (pst * outcome) :=
  match turns with
  | [] => Ret (s, Returned None)
  | t :: turns =>
      match t_ctx t with
      | Some e => Ret (s, Returned (Some e))
      | None =>
          match t_scan t with
          | Err e => Ret (s, Returned (Some (WrapError "failed to scan row" e)))
          | Ok values =>
              do '(s, out) <- writeRow names cols values s;
              match out with
              | Returned None => write_stream names cols turns s
              | _ => Ret (s, out)
              end
          end
      end
  end.

(** The rows and the footer; the writer is closed on every way out. *)
Definition write_file (s : row_stream) (names : list string) (cols : list parquetColumn)
  (sample : list (list (cell other))) (rest : list turn) (st : est) : E (Z * est * outcome) :=
  do '(s1, out) <- write_sample names cols sample (0, replicate (length cols) (mkPValue PNull 0 0), st);
  do '(s2, out) <- (match out with
                    | Returned None => write_stream names cols rest s1
                    | _ => Ret (s1, out)
                    end);
  let '(rowCount, _, st) := s2 in
  do closing <- call EPqClose;
  let st := passed closing st in
  match out with
  | Returned None =>
      match rs_err s with
      | Some e => Ret (rowCount, st, Returned (Some (WrapError "row stream error" e)))
      | None => Ret (rowCount, st, Returned (wrap_err "failed to finalize parquet file" closing.2))
      end
  | _ => Ret (rowCount, st, out)
  end.

(** The search for free names always ends ([unique_names_spec]): its failure
    is not reached. *)
Definition encodeParquet (s : row_stream) (columns : list string) (st : est) : E (Z * est * outcome) :=
  match uniqueColumnNames columns with
  | None => Ret (0, st, Panicked)
  | Some names =>
  match take_sample parquetSchemaSample (rs_rows s) with
  | Err e => Ret (0, st, Returned (Some e))
  | Ok (sample, rest) =>
      match (if Nat.ltb (length sample) parquetSchemaSample then rs_err s else rs_mid s) with
      | Some e => Ret (0, st, Returned (Some (WrapError "row stream error" e)))
      | None =>
          match buildParquetSchema Fields names sample with
          | Err e => Ret (0, st, Returned (Some e))
          | Ok (schema, cols) => call (EPqOpen schema) ;; write_file s names cols sample rest st
          end
      end
  end
  end.

(** A panic skips the assignment of the row count. *)
Definition encode_parquet (s : row_stream) (columns : list string) (st : est) : E ended :=
  do '(rows, st, out) <- encodeParquet s columns st;
  match out with
  | Returned err => Ret (counted rows st err)
  | Panicked => Ret (0, st, (0, 0), Panicked)
  end.

(** ** EncodeStream *)

Definition encode_format (s : row_stream) (format : string) (columns : list string) (st : est) : E ended :=
  if bool_decide (format = "csv") then encode_csv s columns st
  else if bool_decide (format = "parquet") then encode_parquet s columns st
  else if bool_decide (format = "jsonl") then encode_jsonl s columns st
  else Ret (0, st, (0, 0), Returned (Some (PlainError "unsupported format"))).

Definition EncodeStream (s : row_stream) (format : string) : E (Z * Z * outcome) :=
  match rs_columns s with
  | Err e => Ret (0, 0, Returned (Some (WrapError "failed to get columns" e)))
  | Ok columns =>
      do now <- call ENow;
      do '(rowCount, st, counts, out) <- encode_format s format columns (mkEst 0 [] None now);
      do _ <- emit rowCount st;
      Ret (counts, out)
  end.

(** ** What reached the writer *)

Abbreviation etrace := (list (event eanswer)).

Definition written_ev (ev : event eanswer) : bytes :=
  match projT1 ev with EWrite data => data | _ => [] end.

Definition written (tr : etrace) : bytes := concat (map written_ev tr).

(** The contract of [io.Writer]: a write without an error took everything, and no
    write takes more than it was given. *)
Definition honest_ev (ev : event eanswer) : Prop :=
  let '(existT a x) := ev in
  match a return eanswer a -> Prop with
  | EWrite data => fun x => 0 <= x.1 <= Z.of_nat (length data) /\ (x.2 = None -> x.1 = Z.of_nat (length data))
  | _ => fun _ => True
  end x.

Definition honest (tr : etrace) : Prop := Forall honest_ev tr.

Lemma written_app tr1 tr2 : written (tr1 ++ tr2) = written tr1 ++ written tr2.
Proof. unfold written. by rewrite map_app, concat_app. Qed.

Lemma honest_app tr1 tr2 : honest (tr1 ++ tr2) <-> honest tr1 /\ honest tr2.
Proof. apply Forall_app. Qed.

(** [st] became [st'] while [tr] ran, and [l] is what was put into it. *)
Definition wrote (st st' : est) (l : bytes) (tr : etrace) : Prop :=
  buf st ++ l = written tr ++ buf st' /\
  cnt st' = i64_add (cnt st) (Z.of_nat (length (written tr))) /\ werr st' = None.

Lemma wrap64_absorb a b : wrap64 (wrap64 a + b) = wrap64 (a + b).
Proof.
  unfold wrap64. f_equal. 
  replace ((a + 2 ^ 63) mod 2 ^ 64 - 2 ^ 63 + b + 2 ^ 63) with ((a + 2 ^ 63) mod 2 ^ 64 + b) by lia.
  rewrite Zplus_mod_idemp_l. f_equal. lia.
Qed.

Lemma wrote_trans st1 st2 st3 l1 l2 tr1 tr2 :
  wrote st1 st2 l1 tr1 -> wrote st2 st3 l2 tr2 -> wrote st1 st3 (l1 ++ l2) (tr1 ++ tr2).
Proof.
  intros (H1 & H2 & H3) (H4 & H5 & H6). unfold wrote. rewrite written_app. split_and!; [| |done].
  - by rewrite app_assoc, H1, <- app_assoc, H4, app_assoc.
  - rewrite H5, H2. unfold i64_add. rewrite wrap64_absorb, length_app. f_equal. lia.
Qed.

Lemma flush_wrote st tr err st' :
  executes (flush st) tr (err, st') -> honest tr -> err = None -> is_int64 (cnt st) ->
  wrote st st' [] tr /\ buf st' = [].
Proof.
  unfold flush. destruct (werr st) eqn:Hw; [by intros [_ [= -> ->]] _ [=]|].
  case_bool_decide as Hb.
  { intros [-> [= -> ->]] _ _ Hi. split; [|done]. split_and!; [by rewrite Hb| |done].
    unfold written, i64_add. simpl. by rewrite Z.add_0_r, wrap64_id. }
  simpl. intros ([n e] & tr' & -> & Hex) [[_ Hn] _]%Forall_cons -> _.
  destruct e as [e|]; [by destruct Hex as [_ [=]]|]. simpl in Hn. specialize (Hn eq_refl).
  rewrite (proj2 (Z.ltb_ge _ _)) in Hex by (simpl; lia). destruct Hex as [-> [= ->]].
  split; [|done]. unfold wrote, written. cbn. rewrite !app_nil_r. split_and!; [done| |done].
  by rewrite Hn.
Qed.

Lemma wrote_range st st' l tr : wrote st st' l tr -> is_int64 (cnt st').
Proof. intros (_ & -> & _). apply wrap64_range. Qed.

Lemma wrote_nothing st st' tr :
  is_int64 (cnt st) -> werr st = None -> written tr = [] ->
  buf st' = buf st -> cnt st' = cnt st -> werr st' = werr st -> wrote st st' [] tr.
Proof.
  intros Hi Hw Ht Hb Hc He. unfold wrote. rewrite Ht, Hb, Hc, He, app_nil_r. split_and!; [done| |done].
  unfold i64_add. simpl. by rewrite Z.add_0_r, wrap64_id.
Qed.

Lemma push_wrote l st tr st' :
  executes (push l st) tr (None, st') -> honest tr -> is_int64 (cnt st) -> wrote st st' l tr.
Proof.
  revert st tr. induction l as [|b l IH]; intros st tr; simpl.
  { intros [-> [= Hw ->]] _ Hi. by apply wrote_nothing. }
  destruct (werr st) eqn:Hw; [by intros [_ [=]]|].
  assert (forall s tr, werr s = None -> executes (push l (set_buf (buf s ++ [b]) None s)) tr (None, st') ->
    honest tr -> is_int64 (cnt s) -> wrote s st' (b :: l) tr) as Hgo.
  { intros s tr0 Hs Hex Hh Hi. destruct (IH _ _ Hex Hh Hi) as (H1 & H2 & H3).
    split_and!; [|done..]. rewrite <- H1. simpl. by rewrite <- app_assoc. }
  destruct (_ =? bufio_size); [|intros; by apply Hgo].
  intros (tr1 & tr2 & [[e|] s] & -> & Hf & Hex)%executes_bind [Hh1 Hh2]%honest_app Hi;
    [by destruct Hex as [_ [=]]|].
  destruct (flush_wrote _ _ _ _ Hf Hh1 eq_refl Hi) as [Hfw _].
  apply (wrote_trans _ _ _ [] _ _ _ Hfw). apply Hgo; [by destruct Hfw as (_ & _ & ?)|done|done|].
  by eapply wrote_range.
Qed.

(** Reports write nothing. *)
Definition quiet (st st' : est) (tr : etrace) : Prop :=
  written tr = [] /\ buf st' = buf st /\ cnt st' = cnt st /\ werr st' = werr st.

Definition reports (rows count : Z) (now : time) : etrace :=
  existT ENow now :: map (fun i => existT (EProgress i rows count) tt) (seq 0 callbacks).

Lemma emit_executes rows st tr st' :
  executes (emit rows st) tr st' -> exists now, tr = reports rows (cnt st) now /\ st' = set_last now st.
Proof.
  unfold emit. simpl. intros (now & tr' & -> & (tr1 & tr2 & u & -> & Hf & [-> ->])%executes_bind).
  exists now. split; [|done]. unfold reports. f_equal. rewrite app_nil_r.
  revert tr1 u Hf. generalize tt at 1. generalize (seq 0 callbacks). induction l as [|i l IH]; simpl.
  - by intros ? ? ? [-> _].
  - intros ? tr1 u ([] & tr' & -> & Hf). f_equal. by eapply IH.
Qed.

Lemma written_reports rows count now : written (reports rows count now) = [].
Proof. unfold written, reports. simpl. generalize (seq 0 callbacks). by induction l. Qed.

Lemma report_quiet rows st tr st' : executes (report_rows rows st) tr st' -> quiet st st' tr.
Proof.
  assert (forall tr st', executes (emit rows st) tr st' -> quiet st st' tr) as Hemit.
  { intros tr0 st0 (now & -> & ->)%emit_executes. split_and!; [apply written_reports|done..]. }
  unfold report_rows. destruct (negb _); [|by apply Hemit]. simpl. intros (now & tr' & -> & Hex).
  destruct (_ <? _); [by destruct Hex as [-> ->]|].
  destruct (Hemit _ _ Hex) as (H & ?). split; [|done]. unfold written in *. by simpl.
Qed.

(** ** The loop of a text format *)

(** What a stream without failures yields. *)
Definition yields (turns : list turn) (rows : list (list (cell other))) : Prop :=
  turns = map (fun r => mkTurn None (Ok r)) rows.

Lemma encode_rows_wrote write (T : list (cell other) -> bytes -> Prop) (Inv : est -> Prop) turns rowCount st tr n st' :
  (forall st, Inv st -> is_int64 (cnt st) /\ werr st = None) ->
  (forall st st' tr, Inv st -> quiet st st' tr -> Inv st') ->
  (forall r st tr st', executes (write r st) tr (None, st') -> honest tr -> Inv st ->
     exists l, T r l /\ wrote st st' l tr /\ Inv st') ->
  executes (encode_rows write turns rowCount st) tr (n, st', None) ->
  honest tr -> Inv st -> is_int64 rowCount ->
  exists rows texts, yields turns rows /\ Forall2 T rows texts /\ wrote st st' (concat texts) tr /\
    n = i64_add rowCount (Z.of_nat (length rows)) /\ Inv st'.
Proof.
  intros HInv Hquiet Hwrite. revert rowCount st tr. induction turns as [|[c s] turns IH]; intros rowCount st tr; simpl.
  { intros [-> [= -> ->]] _ Hi Hr. exists [], []. destruct (HInv _ Hi). split_and!; [done|constructor| | |done].
    - by apply wrote_nothing.
    - unfold i64_add. simpl. by rewrite Z.add_0_r, wrap64_id. }
  destruct c; [by intros [_ [=]]|]. destruct s as [values|e]; [|by intros [_ [=]]].
  intros (tr1 & tr2 & [[e|] s1] & -> & Hw & Hex)%executes_bind [Hh1 Hh2]%honest_app Hi Hr;
    [by destruct Hex as [_ [=]]|].
  destruct (Hwrite _ _ _ _ Hw Hh1 Hi) as (l & HT & Hl & Hi1).
  apply executes_bind in Hex as (tr3 & tr4 & s2 & -> & Hrep%report_quiet & Hex).
  apply honest_app in Hh2 as [_ Hh2]. pose proof (Hquiet _ _ _ Hi1 Hrep) as Hi2.
  destruct (IH _ _ _ Hex Hh2 Hi2 (wrap64_range _)) as (rows & texts & Hy & HTs & Hls & -> & Hi3).
  destruct (HInv _ Hi1) as [Hc He]. destruct Hrep as (Hq1 & Hq2 & Hq3 & Hq4).
  exists (values :: rows), (l :: texts). split_and!; [by unfold yields in *; simpl; rewrite Hy|by constructor| | |done].
  - simpl. eapply wrote_trans; [done|].
    eapply (wrote_trans _ s2 _ [] _ tr3); [by apply wrote_nothing|done].
  - unfold i64_add. rewrite wrap64_absorb. f_equal. simpl. lia.
Qed.

(** The text of a result: the header and the rows in CSV, a line a row in JSON
    lines. *)
Definition result_text (format : string) (columns : list string) (rows : list (list (cell other)))
  (text : bytes) : Prop :=
  if bool_decide (format = "csv") then text = csv_text (map bytes_of columns :: map (map toString) rows)
  else exists lines, Forall2 (fun r l => jsonl_line columns r = Some l) rows lines /\ text = concat lines.

(** What an encoder that returned no error did with the stream. *)
Definition encoded (s : row_stream) (format : string) (columns : list string) (st : est) (tr : etrace)
  (end_ : ended) : Prop :=
  exists rows text,
    yields (rs_rows s) rows /\ rs_err s = None /\ result_text format columns rows text /\
    written tr = text /\
    end_.1.1.1 = wrap64 (Z.of_nat (length rows)) /\
    end_.1.2 = (wrap64 (Z.of_nat (length rows)), i64_add (cnt st) (Z.of_nat (length text))) /\
    cnt end_.1.1.2 = i64_add (cnt st) (Z.of_nat (length text)).

Lemma csv_row_wrote r st tr st' :
  executes (csv_row r st) tr (None, st') -> honest tr -> is_int64 (cnt st) ->
  wrote st st' (csv_record (map toString r)) tr.
Proof.
  unfold csv_row. intros (tr1 & tr2 & [e s] & -> & Hw & Hex)%executes_bind [Hh _]%honest_app Hi.
  destruct Hex as [-> [= He ->]]. destruct e; [done|]. rewrite app_nil_r. by apply push_wrote.
Qed.

Lemma encode_csv_encoded s columns st tr end_ :
  executes (encode_csv s columns st) tr end_ -> end_.2 = Returned None -> honest tr ->
  st = mkEst 0 [] None (last st) -> encoded s "csv" columns st tr end_.
Proof.
  unfold encode_csv. intros Hex Hend Hh Hst.
  apply executes_bind in Hex as (tr1 & tr2 & [[e|] s1] & -> & Hw & Hex); [by destruct Hex as [_ ->]|].
  apply honest_app in Hh as [Hh1 Hh2]. apply push_wrote in Hw; [|done|by rewrite Hst].
  apply executes_bind in Hex as (tr3 & tr4 & [[n s2] [e|]] & -> & Hr & Hex); [by destruct Hex as [_ ->]|].
  apply honest_app in Hh2 as [Hh2 Hh3].
  apply (encode_rows_wrote _ (fun r l => l = csv_record (map toString r))
    (fun st => is_int64 (cnt st) /\ werr st = None)) in Hr
    as (rows & texts & Hy & HT & Hl & -> & [Hc _]); [|done|..]; try done.
  2: { intros ? ? ? [] (_ & _ & -> & ->). done. }
  2: { intros r s0 tr0 s0' He Hh0 [Hi _]. eexists. split; [done|]. apply csv_row_wrote in He; [|done..].
       split_and!; [done|by eapply wrote_range|by destruct He as (_ & _ & ?)]. }
  2: { split; [by eapply wrote_range|by destruct Hw as (_ & _ & ?)]. }
  apply executes_bind in Hex as (tr5 & tr6 & [[e|] s3] & -> & Hf & Hex); [by destruct Hex as [_ ->]|].
  apply honest_app in Hh3 as [Hh3 _]. destruct (flush_wrote _ _ _ _ Hf Hh3 eq_refl Hc) as [Hfl Hb].
  destruct Hex as [-> ->]. simpl in Hend. injection Hend as He. destruct (rs_err s) eqn:Hs; [done|].
  destruct (wrote_trans _ _ _ _ _ _ _ Hw (wrote_trans _ _ _ _ _ _ _ Hl Hfl)) as (H1 & H2 & _).
  rewrite Hst in H1. simpl in H1. rewrite Hb, !app_nil_r in H1. rewrite app_nil_r.
  exists rows, (csv_record (map bytes_of columns) ++ concat texts).
  unfold result_text. rewrite bool_decide_eq_true_2 by done. rewrite <- H1 in H2.
  split_and!; [done..| |done|done|by simpl; rewrite <- H2|done].
  unfold csv_text. simpl. f_equal. clear -HT. induction HT; simpl; congruence.
Qed.

Lemma encode_jsonl_encoded s columns st tr end_ :
  executes (encode_jsonl s columns st) tr end_ -> end_.2 = Returned None -> honest tr ->
  st = mkEst 0 [] None (last st) -> encoded s "jsonl" columns st tr end_.
Proof.
  unfold encode_jsonl. intros Hex Hend Hh Hst.
  apply executes_bind in Hex as (tr1 & tr2 & [[n s1] [e|]] & -> & Hr & Hex); [by destruct Hex as [_ ->]|].
  apply honest_app in Hh as [Hh1 _].
  apply (encode_rows_wrote _ (fun r l => jsonl_line columns r = Some l)
    (fun st => is_int64 (cnt st) /\ werr st = None /\ buf st = [])) in Hr
    as (rows & texts & Hy & HT & (H1 & H2 & _) & -> & (_ & _ & Hb)); [|naive_solver|..]; try done.
  2: { intros ? ? ? (? & ? & ?) (_ & -> & -> & ->). done. }
  2: { intros r s0 tr0 s0'. unfold jsonl_row. destruct (jsonl_line columns r) as [l|]; [|by intros [_ [=]]].
       simpl. intros ([k e] & tr' & -> & -> & [= He ->]) [[_ Hn] _]%Forall_cons (Hi & Hw & Hbf).
       destruct e; [done|]. simpl in Hn. exists l. specialize (Hn eq_refl). subst k.
       split_and!; [done| |apply wrap64_range|done|done]. unfold wrote, written. simpl.
       rewrite Hbf, !app_nil_r. done. }
  2: { by rewrite Hst. }
  destruct Hex as [-> ->]. simpl in Hend. injection Hend as He. destruct (rs_err s) eqn:Hs; [done|].
  rewrite Hst, Hb, app_nil_r in H1. simpl in H1. rewrite app_nil_r.
  exists rows, (concat texts). unfold result_text. rewrite bool_decide_eq_false_2 by done.
  rewrite <- H1 in H2. split_and!; [done..|by exists texts|done|done|by simpl; rewrite <- H2|done].
Qed.

(** The parts of a run without an error. *)
Lemma EncodeStream_encoded s format tr rows count :
  format = "csv" \/ format = "jsonl" ->
  executes (EncodeStream s format) tr (rows, count, Returned None) -> honest tr ->
  exists columns now tr1 n st now',
    rs_columns s = Ok columns /\ tr = existT ENow now :: tr1 ++ reports n (cnt st) now' /\
    encoded s format columns (mkEst 0 [] None now) tr1 (n, st, (rows, count), Returned None) /\
    written tr = written tr1.
Proof.
  intros Hformat Hex Hh. unfold EncodeStream in Hex.
  destruct (rs_columns s) as [columns|e]; [|by destruct Hex as [_ [=]]].
  destruct Hex as (now & tr' & -> & Hex). cbn [bind call] in Hex.
  apply executes_bind in Hex as (tr1 & tr2 & [[[n st] counts] out] & -> & He & Hex).
  apply Forall_cons in Hh as [_ Hh]. apply honest_app in Hh as [Hh1 _].
  apply executes_bind in Hex as (tr3 & tr4 & st' & -> & (now' & -> & ->)%emit_executes & [-> [= <- <-]]).
  exists columns, now, tr1, n, st, now'. rewrite app_nil_r. split_and!; [done..| |].
  - unfold encode_format in He. destruct Hformat as [-> | ->]; simpl in He;
      [by eapply encode_csv_encoded|by eapply encode_jsonl_encoded].
  - match goal with |- written (_ :: ?l) = _ => change (written l = written tr1) end.
    by rewrite written_app, written_reports, app_nil_r.
Qed.

(** C11. Encoding a result as CSV or JSON lines is exact: when [EncodeStream] reports
    no error, every row of the stream was read without a failure and the stream
    ended without one, what went to the writer is the text of exactly those rows in
    order, the row and byte counts returned are theirs, and the last report every
    progress callback got carries the same figures. *)
Theorem encode_exact s format tr rows count :
  format = "csv" \/ format = "jsonl" ->
  executes (EncodeStream s format) tr (rows, count, Returned None) -> honest tr ->
  exists columns values text tr0 now,
    rs_columns s = Ok columns /\ yields (rs_rows s) values /\ rs_err s = None /\
    result_text format columns values text /\ written tr = text /\
    rows = wrap64 (Z.of_nat (length values)) /\ count = wrap64 (Z.of_nat (length text)) /\
    tr = tr0 ++ reports rows count now.
Proof.
  intros Hformat Hex Hh.
  destruct (EncodeStream_encoded _ _ _ _ _ Hformat Hex Hh) as (columns & now & tr1 & n & st & now' & Hcol & -> & Henc & Hwt).
  destruct Henc as (values & text & Hy & Hs & Ht & Hw & Hn & Hcounts & Hcnt).
  cbn [fst snd cnt] in Hn, Hcounts, Hcnt. unfold i64_add in Hcnt, Hcounts. rewrite Z.add_0_l in *.
  injection Hcounts as -> ->. exists columns, values, text, (existT ENow now :: tr1), now'.
  rewrite Hwt, Hcnt, Hn. by split_and!.
Qed.

(** ** The Parquet file *)



































End Encode.

(** ** Examples *)

(** A writer, a clock and a Parquet library that always succeed. *)
Definition demo_env (a : eaction) (w : unit) : eanswer a * unit :=
  (match a return eanswer a with
   | EWrite data => (Z.of_nat (length data), None)
   | ENow => 0
   | EProgress _ _ _ | EPqOpen _ => tt
   | EPqWrite row => (Z.of_nat (length row), None)
   | EPqFlush => (0, None)
   | EPqClose => (4, None)
   end, w).

Definition demo_stream : row_stream (other := Empty_set) :=
  mkStream (Ok ["id"; "id"])
    [mkTurn None (Ok [VInt KInt64 1; VString "a,b"]);
     mkTurn None (Ok [VNil; VString "c"])] None None.

Definition demo_run (format : string) :=
  run demo_env (EncodeStream 1 (fun _ _ => PlainError "json") fields_by_key demo_stream format) tt.

Lemma encoder_demo_executes format out :
  (demo_run format).1.1 = out ->
  executes (EncodeStream 1 (fun _ _ => PlainError "json") fields_by_key demo_stream format)
    (demo_run format).1.2 out.
Proof. intros <-. apply run_executes. Qed.

Lemma encode_exact_witness :
  exists columns values text,
    (demo_run "csv").1.1 = (2, 17, Returned None) /\ rs_columns demo_stream = Ok columns /\
    yields (rs_rows demo_stream) values /\ result_text "csv" columns values text /\
    written (demo_run "csv").1.2 = text /\ length values = 2%nat.
Proof.
  assert ((demo_run "csv").1.1 = (2, 17, Returned None)) as Hr by (vm_compute; reflexivity).
  destruct (encode_exact 1 (fun _ _ => PlainError "json") fields_by_key demo_stream "csv" _ 2 17
    (or_introl eq_refl) (encoder_demo_executes _ _ Hr)) as (columns & values & text & _ & _ & H1 & H2 & _ & H3 & H4 & H5 & _).
  { vm_compute. repeat constructor; done. }
  exists columns, values, text. split_and!; [exact Hr|exact H1|exact H2|exact H3|exact H4|].
  apply (f_equal length) in H2. rewrite length_map in H2. exact (eq_sym H2).
Defined.

