(* ===== verification/ResultStore.v ===== *)
(** * Result storage: the registry, the file system and S3

    [internal/storage/registry.go], the wrapper of [storage/tracing.go] and the
    backends [fs] and [s3]. The operating system and the object store are the
    environment ([saction]); the lexical checks that keep a locator inside the
    results directory or the result prefix are those of [Paths]. *)

From S2P Require Import Prelude Domain Utf8 Text Paths Prog.

Open Scope Z_scope.
Open Scope dbb_scope.

(** ** The registry *)

(** A backend, with the check of a backend that cannot hold every format, or the
    tracing wrapper around one. *)
Inductive store :=
| BareStore (id : string) (checker : option (string -> bool))
| tracedStore (inner : store) (backend : string).

(** [SupportsFormat] of the package; the method of the wrapper calls it again. *)
Fixpoint SupportsFormat (s : store) (format : string) : bool :=
  match s with
  | BareStore _ None => true
  | BareStore _ (Some check) => check format
  | tracedStore inner _ => SupportsFormat inner format
  end.

(** [Traced] and [Unwrap]; [None] is a nil store. *)
Definition Traced (s : option store) (backend : string) : option store :=
  match s with None => None | Some s => Some (tracedStore s backend) end.

Definition Unwrap (s : store) : store := match s with tracedStore inner _ => inner | _ => s end.

Abbreviation registry := (gmap string store).

(** [None] is the panic. *)
Definition Register (name : string) (s : option store) (r : registry) : option registry :=
  match s with
  | None => None
  | Some _ =>
      match r !! name with
      | Some _ => None
      | None => match Traced s name with Some t => Some (<[name := t]> r) | None => None end
      end
  end.

Definition GetStore (name : string) (r : registry) : result store :=
  match r !! name with
  | None => Err (PlainError ("storage: unknown storage backend " +:+ name))
  | Some s => Ok s
  end.

(** A backend is registered once; it is then found under its name and no other,
    wrapped in a way that leaves its answer on formats as it is. *)
Lemma Register_GetStore name s r r' :
  Register name (Some s) r = Some r' ->
  r !! name = None /\
  (exists t, GetStore name r' = Ok t /\ Unwrap t = s /\ forall f, SupportsFormat t f = SupportsFormat s f) /\
  (forall n, n <> name -> GetStore n r' = GetStore n r) /\
  forall s2, Register name s2 r' = None.
Proof.
  unfold Register. destruct (r !! name) eqn:Hr; [done|]. simpl. intros [= <-].
  unfold GetStore. rewrite lookup_insert_eq. split_and!; [done| | |by intros []].
  - eexists. by split_and!.
  - intros n Hn. by rewrite lookup_insert_ne.
Qed.

(** ** Operations of the environment *)

(** Files relative to the root handle, and objects of the bucket. An opened file or
    object is a number that stands for its reader or writer. *)
Inductive saction :=
| FMkdirAll (dir : bytes) | FOpenRoot (dir : bytes)
| FCreate (name : bytes) | FOpen (name : bytes) | FStat (name : bytes) | FRemove (name : bytes)
| OUpload (key : bytes) (data : bytes) | OGet (key : bytes) | OHead (key : bytes) | ODelete (key : bytes).

Definition sanswer (a : saction) : Type :=
  match a with
  | FMkdirAll _ | FOpenRoot _ | FRemove _ | OUpload _ _ | ODelete _ => option error
  | FCreate _ | FOpen _ | OGet _ => result Z
  | FStat _ => result Z
  | OHead _ => result (option Z)
  end.

Abbreviation P A := (prog sanswer A).

Definition zero_resultref : ResultRef := mkResultRef "" "" 0 0 "" "".

Definition set_SizeBytes (n : Z) (r : ResultRef) : ResultRef :=
  mkResultRef (Backend r) (Locator r) n (RowCount r) (Format r) (Checksum r).

(** [fmt.Sprintf("%s.%s", queryID, format)]. *)
Definition result_name (queryID format : string) : bytes := bytes_of queryID ++ 46 :: bytes_of format.

(** ** The file system *)

Definition default_root : string := "results".

Definition NewFSResultStore (rootDir : string) : P (result string) :=
  let rootDir := if bool_decide (rootDir = "") then default_root else rootDir in
  do err <- call (FMkdirAll (bytes_of rootDir));
  match err with
  | Some e => Ret (Err (WrapError "failed to create root results dir" e))
  | None =>
      do err <- call (FOpenRoot (bytes_of rootDir));
      match err with
      | Some e => Ret (Err (WrapError "failed to open root results dir" e))
      | None => Ret (Ok rootDir)
      end
  end.

(** ** Connecting to S3 *)

(** The options the configuration of the AWS library is loaded with. *)
Inductive load_option := WithRegion (region : string) | WithStaticCredentials (keyID secret : string).

Section Connecting.
Context {aws_config : Type} (LoadDefaultConfig : list load_option -> result aws_config).

(** The store with the options of its client. *)
Record S3ResultStore := mkS3ResultStore {
  client_Config : aws_config;
  client_BaseEndpoint : option string;
  client_UsePathStyle : bool;
  store_bucket : string
}.

Definition s3_load_options (region keyID secret : string) : list load_option :=
  (if negb (bool_decide (region = "")) then [WithRegion region] else []) ++
  (if negb (bool_decide (keyID = "")) && negb (bool_decide (secret = "")) then [WithStaticCredentials keyID secret] else []).

Definition NewS3ResultStore (bucket region endpoint keyID secret : string) : result S3ResultStore :=
  match LoadDefaultConfig (s3_load_options region keyID secret) with
  | Err e => Err (WrapError "failed to load aws config" e)
  | Ok cfg =>
      Ok (if negb (bool_decide (endpoint = "")) then mkS3ResultStore cfg (Some endpoint) true bucket
          else mkS3ResultStore cfg None false bucket)
  end.

(** Half a pair of credentials is not used: the library then looks for its own. *)
Lemma half_credentials_unused bucket region endpoint keyID secret :
  keyID = "" \/ secret = "" ->
  NewS3ResultStore bucket region endpoint keyID secret = NewS3ResultStore bucket region endpoint "" "".
Proof.
  intros Hk. unfold NewS3ResultStore, s3_load_options. destruct Hk as [-> | ->]; [done|].
  rewrite (bool_decide_true ("" = "")) by done. by rewrite andb_false_r.
Qed.

End Connecting.

Section Files.
Context (rootDir : string) (IsNotExist : error -> bool).

Definition outside_root : error := PlainError "result locator is outside the results directory".

Definition relative (locator : string) : result bytes :=
  match Rel (bytes_of rootDir) (bytes_of locator) with
  | None => Err outside_root
  | Some rel => if negb (IsLocal rel) then Err outside_root else Ok rel
  end.

Definition fs_Writer (queryID format : string) : P (result (Z * ResultRef)) :=
  let filename := result_name queryID format in
  if negb (IsLocal filename) then Ret (Err (PlainError "invalid result file name"))
  else
    do file <- call (FCreate filename);
    match file with
    | Err e => Ret (Err (WrapError "failed to create results file" e))
    | Ok f =>
        let locator := string_of_bytes (Join (bytes_of rootDir) filename) in
        Ret (Ok (f, mkResultRef "fs" locator 0 0 format ""))
    end.

Definition fs_Reader (ref : ResultRef) : P (result Z) :=
  match relative (Locator ref) with
  | Err e => Ret (Err e)
  | Ok rel =>
      do file <- call (FOpen rel);
      match file with
      | Err e => Ret (Err (WrapError "failed to open results file" e))
      | Ok f => Ret (Ok f)
      end
  end.

Definition fs_Stat (ref : ResultRef) : P (result ResultRef) :=
  match relative (Locator ref) with
  | Err e => Ret (Err e)
  | Ok rel =>
      do info <- call (FStat rel);
      match info with
      | Err e => Ret (Err (WrapError "failed to stat results file" e))
      | Ok size => Ret (Ok (set_SizeBytes size ref))
      end
  end.

Definition fs_Delete (ref : ResultRef) : P (option error) :=
  match relative (Locator ref) with
  | Err e => Ret (Some e)
  | Ok rel =>
      do err <- call (FRemove rel);
      match err with
      | Some e => if negb (IsNotExist e) then Ret (Some (WrapError "failed to delete results file" e)) else Ret None
      | None => Ret None
      end
  end.

End Files.

(** ** S3 *)

Definition objectPrefix : bytes := bytes_of "results/".

Definition outside_prefix : error := PlainError "result locator is outside the result prefix".

Definition checkKey (key : bytes) : option error :=
  if negb (bool_decide (take (length objectPrefix) key = objectPrefix)) then Some outside_prefix
  else if negb (IsLocal (drop (length objectPrefix) key)) then Some outside_prefix
  else None.

(** The writer is the key its upload goes to. *)
Definition s3_Writer (queryID format : string) : result (bytes * ResultRef) :=
  let key := objectPrefix ++ result_name queryID format in
  match checkKey key with
  | Some e => Err e
  | None => Ok (key, mkResultRef "s3" (string_of_bytes key) 0 0 format "")
  end.

(** [pipeWriter.Close] after [data] was written: the upload reads the pipe to its
    end, [Close] waits for it and returns its error; closing a pipe has none. *)
Definition s3_Close (key data : bytes) : P (option error) := call (OUpload key data).

Definition s3_Reader (ref : ResultRef) : P (result Z) :=
  match checkKey (bytes_of (Locator ref)) with
  | Some e => Ret (Err e)
  | None =>
      do out <- call (OGet (bytes_of (Locator ref)));
      match out with
      | Err e => Ret (Err (WrapError "s3 download failed" e))
      | Ok body => Ret (Ok body)
      end
  end.

Definition s3_Stat (ref : ResultRef) : P (result ResultRef) :=
  match checkKey (bytes_of (Locator ref)) with
  | Some e => Ret (Err e)
  | None =>
      do out <- call (OHead (bytes_of (Locator ref)));
      match out with
      | Err e => Ret (Err (WrapError "s3 head object failed" e))
      | Ok (Some size) => Ret (Ok (set_SizeBytes size ref))
      | Ok None => Ret (Ok ref)
      end
  end.

Definition s3_Delete (ref : ResultRef) : P (option error) :=
  match checkKey (bytes_of (Locator ref)) with
  | Some e => Ret (Some e)
  | None =>
      do err <- call (ODelete (bytes_of (Locator ref)));
      match err with
      | Some e => Ret (Some (WrapError "s3 delete failed" e))
      | None => Ret None
      end
  end.

(** ** Confinement *)

(** A path whose elements never lead above the place it is taken from. *)
Definition below (p : bytes) : Prop := rooted p = false /\ dotdot ∉ comps false p.

(** What an operation may touch: files below the results directory, objects below
    the result prefix. *)
Definition inside (a : saction) : Prop :=
  match a with
  | FCreate n | FOpen n | FStat n | FRemove n => below n
  | OUpload k _ | OGet k | OHead k | ODelete k => exists n, k = objectPrefix ++ n /\ below n
  | FMkdirAll _ | FOpenRoot _ => False
  end.

Lemma local_below p : IsLocal p = true -> below p.
Proof. intros Hl. split; [by apply IsLocal_spec in Hl as (? & _)|by apply local_no_up]. Qed.

Lemma relative_below root locator rel : relative root locator = Ok rel -> below rel.
Proof.
  unfold relative. destruct (Rel _ _) as [r|]; [|done]. destruct (IsLocal r) eqn:Hl; [|done].
  intros [= <-]. by apply local_below.
Qed.

Lemma checkKey_below key : checkKey key = None -> exists n, key = objectPrefix ++ n /\ below n.
Proof.
  unfold checkKey. case_bool_decide as Hp; [|done]. simpl.
  destruct (IsLocal _) eqn:Hl; [|done]. intros _. exists (drop (length objectPrefix) key).
  split; [|by apply local_below].
  etrans; [symmetry; apply (take_drop (length objectPrefix))|]. by rewrite Hp.
Qed.

(** C32. The file and S3 backends are confined: whatever query ID, format or stored
    locator they are given, every file they create, open, inspect or remove lies
    below the results directory, and every object they write, read, inspect or delete
    below the result prefix; anything else is refused without touching the store. *)
Theorem stores_confined root IsNotExist queryID format ref data :
  only inside (fs_Writer root queryID format) /\ only inside (fs_Reader root ref) /\
  only inside (fs_Stat root ref) /\ only inside (fs_Delete root IsNotExist ref) /\
  (forall key r, s3_Writer queryID format = Ok (key, r) -> only inside (s3_Close key data)) /\
  only inside (s3_Reader ref) /\ only inside (s3_Stat ref) /\ only inside (s3_Delete ref).
Proof.
  split_and!.
  - unfold fs_Writer. destruct (IsLocal _) eqn:Hl; [|done]. simpl. split; [by apply local_below|].
    by intros [].
  - unfold fs_Reader. destruct (relative _ _) eqn:Hr; [|done]. simpl. split; [by eapply relative_below|].
    by intros [].
  - unfold fs_Stat. destruct (relative _ _) eqn:Hr; [|done]. simpl. split; [by eapply relative_below|].
    by intros [].
  - unfold fs_Delete. destruct (relative _ _) eqn:Hr; [|done]. simpl. split; [by eapply relative_below|].
    intros [e|]; simpl; [by destruct (negb _)|done].
  - intros key r. unfold s3_Writer. destruct (checkKey _) eqn:Hk; [done|]. intros [= <- _]. simpl.
    split; [by apply checkKey_below|done].
  - unfold s3_Reader. destruct (checkKey _) eqn:Hk; [done|]. simpl. split; [by apply checkKey_below|by intros []].
  - unfold s3_Stat. destruct (checkKey _) eqn:Hk; [done|]. simpl.
    split; [by apply checkKey_below|by intros [[]|]].
  - unfold s3_Delete. destruct (checkKey _) eqn:Hk; [done|]. simpl. split; [by apply checkKey_below|by intros []].
Qed.

(** ** A result is found again *)

Lemma Forall_join {Q : Z -> Prop} cs : Q slash -> Forall (Forall Q) cs -> Forall Q (join_path cs).
Proof.
  intros Hs H. induction H as [|c cs Hc H IH]; [done|]. destruct cs; [done|].
  apply Forall_app. split; [done|by constructor].
Qed.

Lemma Forall_Clean {Q : Z -> Prop} p : Q slash -> Q 46 -> Forall Q p -> Forall Q (Clean p).
Proof.
  intros Hs Hd Hp. unfold Clean, render.
  assert (Forall (Forall Q) (split_path p)) as Hsp.
  { clear -Hp. induction Hp as [|b p Hb _ IH]; simpl; [by repeat constructor|].
    destruct (b =? slash); [by constructor|]. destruct (split_path p); [by repeat constructor|].
    inversion IH; subst. constructor; [by constructor|done]. }
  assert (Forall (Forall Q) (comps (rooted p) p)) as Hc.
  { unfold comps. apply Forall_rev. revert Hsp. generalize (split_path p) (rooted p). intros l rt Hl.
    assert (Forall (Forall Q) []) as Hn by constructor. revert Hn. generalize (@nil bytes).
    induction Hl as [|c l Hc _ IH]; intros acc Ha; [done|]. simpl. apply IH. unfold clean_step.
    destruct (_ || _); [done|]. case_bool_decide; [|by constructor].
    assert (Forall Q dotdot) by (repeat constructor; done).
    destruct acc as [|top acc]; [destruct rt; repeat constructor; done|].
    inversion Ha; subst. case_bool_decide; [by constructor|done]. }
  destruct (rooted p); [constructor; [done|by apply Forall_join]|].
  case_bool_decide; [by repeat constructor|by apply Forall_join].
Qed.

Lemma Join_range a b :
  Forall (fun b => 0 <= b < 256) a -> Forall (fun b => 0 <= b < 256) b ->
  Forall (fun b => 0 <= b < 256) (Join a b).
Proof.
  intros Ha Hb. assert (Forall (fun b => 0 <= b < 256) (a ++ slash :: b)) as Hab.
  { apply Forall_app. split; [done|]. by constructor. }
  unfold Join. destruct a, b; [done|..]; by apply Forall_Clean.
Qed.

Lemma result_name_range queryID format : Forall (fun b => 0 <= b < 256) (result_name queryID format).
Proof. apply Forall_app. split; [apply bytes_of_range|]. constructor; [lia|apply bytes_of_range]. Qed.

Lemma Clean_plain c : plain_elem c -> Clean c = c.
Proof.
  intros Hc. pose proof Hc as ([Hne Hs] & Hd & Hdd).
  assert (rooted c = false) as Hr. { destruct c; [done|]. simpl. apply Z.eqb_neq. set_solver. }
  unfold Clean. rewrite Hr. unfold comps. rewrite split_path_plain by done. cbn [fold_left].
  unfold clean_step. rewrite !bool_decide_eq_false_2 by done. done.
Qed.

(** The names results are stored under are single elements. *)
Lemma result_name_plain queryID format :
  queryID <> "" -> slash ∉ bytes_of queryID -> format ∈ ValidResultFormats ->
  plain_elem (result_name queryID format).
Proof.
  intros Hq Hs Hf. unfold result_name. destruct queryID as [|c q]; [done|].
  assert (slash ∉ bytes_of format /\ (3 <= length (bytes_of format))%nat) as [Hsf Hlen].
  { unfold ValidResultFormats in Hf. set_unfold in Hf. destruct Hf as [-> |[-> |[-> |[]]]];
      (split; [vm_compute; intros H; set_solver|simpl; lia]). }
  split_and!; [split; [done|]|..].
  - intros [Hin|[Hin|Hin]%elem_of_cons]%elem_of_app; [done|by vm_compute in Hin|done].
  - intros E. apply (f_equal length) in E. rewrite length_app in E. simpl in E. lia.
  - intros E. apply (f_equal length) in E. rewrite length_app in E. simpl in E. lia.
Qed.

(** [p] begins with the operation [a]. *)
Definition begins {A} (p : P A) (a : saction) : Prop := exists k, p = Vis a k.

Lemma fs_relative_writer root queryID format f ref :
  root <> "" -> forall tr, executes (fs_Writer root queryID format) tr (Ok (f, ref)) ->
  tr = [existT (FCreate (result_name queryID format)) (Ok f)] /\
  relative root (Locator ref) = Ok (Clean (result_name queryID format)).
Proof.
  intros Hroot tr. unfold fs_Writer. destruct (IsLocal _) eqn:Hl; [|by intros [_ [=]]].
  intros (x & tr' & -> & Hex). cbn [bind call] in Hex. destruct x as [g|e]; [|by destruct Hex as [_ [=]]].
  destruct Hex as [-> [= -> ->]]. split; [done|]. unfold relative. cbn [Locator].
  rewrite bytes_of_string_of_bytes by auto using Join_range, bytes_of_range, result_name_range.
  rewrite Rel_Join; [by rewrite IsLocal_Clean|by destruct root|done].
Qed.

(** A result written to the file system is found again: for a query ID without a
    slash and a known format the writer creates the file named after them in the
    results directory, and the locator it returns leads the reader, the inspection
    and the removal to exactly that file, whatever the results directory is called. *)
Theorem fs_result_found root IsNotExist queryID format f ref tr :
  root <> "" -> queryID <> "" -> slash ∉ bytes_of queryID -> format ∈ ValidResultFormats ->
  executes (fs_Writer root queryID format) tr (Ok (f, ref)) ->
  tr = [existT (FCreate (result_name queryID format)) (Ok f)] /\
  begins (fs_Reader root ref) (FOpen (result_name queryID format)) /\
  begins (fs_Stat root ref) (FStat (result_name queryID format)) /\
  begins (fs_Delete root IsNotExist ref) (FRemove (result_name queryID format)).
Proof.
  intros Hroot Hq Hs Hf Hex.
  destruct (fs_relative_writer _ _ _ _ _ Hroot _ Hex) as [Htr Hrel].
  rewrite Clean_plain in Hrel by (by apply result_name_plain).
  unfold begins, fs_Reader, fs_Stat, fs_Delete. rewrite Hrel. split_and!; [done|by eexists..].
Qed.

Lemma fs_result_found_witness :
  exists ref, executes (fs_Writer "/var/lib/../results//" "q-1" "csv")
      [existT (FCreate (result_name "q-1" "csv")) (Ok 7)] (Ok (7, ref)) /\
    Locator ref = "/var/results/q-1.csv" /\
    begins (fs_Reader "/var/lib/../results//" ref) (FOpen (bytes_of "q-1.csv")).
Proof.
  eexists. assert (executes (fs_Writer "/var/lib/../results//" "q-1" "csv")
      [existT (FCreate (result_name "q-1" "csv")) (Ok 7)]
      (Ok (7, mkResultRef "fs" "/var/results/q-1.csv" 0 0 "csv" ""))) as Hex.
  { exists (Ok 7), []. by split. }
  split; [exact Hex|]. split; [done|].
  refine (proj1 (proj2 (fs_result_found _ (fun _ => true) _ _ _ _ _ _ _ _ _ Hex))); [done|done| |].
  - vm_compute. intros H. set_solver.
  - vm_compute. set_solver.
Defined.
