(* ===== verification/ClickHouse.v ===== *)
(** * Results in ClickHouse

    [internal/storage/backends/clickhouse/storage.go]: a result is split into lines
    that become rows of a table, inserted in transactions of 500, and read back by
    joining the rows with line feeds. The database is the environment ([caction]);
    what a transaction leaves in the table is computed from the calls made and
    answered ([stored_rows]). *)

From S2P Require Import Prelude Domain Utf8 Text Json RecordJson Rows Parquet Prog Encoder.
From S2P Require Import ResultStore.
From stdpp Require Import sorting.

Open Scope Z_scope.
Open Scope dbb_scope.

(** A row of the results table. *)
Record chunk := mkChunk { query_id : string; chunk_id : Z; chunk_format : string; data : bytes }.

(** A selection answers with the lines of its rows, each scanned or not, and the
    error that ended it. *)
Inductive caction :=
| CCreateTable (table : string) | CCloseDB
| CBegin | CPrepare | CInsert (row : chunk) | CCommit | CRollback | CCloseStmt
| CSelect (queryID : string) | CStat (queryID : string) | CDeleteRows (queryID : string).

Definition canswer (a : caction) : Type :=
  match a with
  | CSelect _ => result (list (result bytes) * option error)
  | CStat _ => result (Z * option Z)
  | _ => option error
  end.

Abbreviation C A := (prog canswer A).

(** ** Opening the store *)

Definition newStore (table : string) : C (result string) :=
  let table := if bool_decide (table = "") then "dbbridge_results" else table in
  do err <- call (CCreateTable table);
  match err with
  | Some e => call CCloseDB ;; Ret (Err (WrapError "failed to create clickhouse results table" e))
  | None => Ret (Ok table)
  end.

(** [sql_Open] is [sql.Open], which connects to nothing yet. *)
Definition NewClickHouseResultStore (sql_Open : string -> option error) (dsn table : string) : C (result string) :=
  match sql_Open dsn with
  | Some e => Ret (Err (WrapError "failed to open clickhouse connection for storage" e))
  | None => newStore table
  end.

Definition ch_Close : C (option error) := call CCloseDB.

(** A store whose table cannot be created gives its connections back, and one that was
    opened keeps them. *)
Lemma store_opening sql_Open dsn table tr r :
  executes (NewClickHouseResultStore sql_Open dsn table) tr r ->
  (exists e, r = Err e /\ (sql_Open dsn = None -> exists x y, tr = [x; y] /\ projT1 y = CCloseDB)) \/
  (sql_Open dsn = None /\ exists t, t <> "" /\ r = Ok t /\ tr = [existT (CCreateTable t) None]).
Proof.
  unfold NewClickHouseResultStore. destruct (sql_Open dsn) as [e|].
  - intros [-> ->]. left. by eexists.
  - unfold newStore. set (t := if bool_decide (table = "") then _ else _). intros (err & tr' & -> & Hr). destruct err as [e|].
    + destruct Hr as (x & tr2 & -> & -> & ->). left. eexists. split; [done|]. intros _. by eexists _, _.
    + destruct Hr as [-> ->]. right. split; [done|]. exists t. split_and!; [|done..]. unfold t. by case_bool_decide.
Qed.

Definition ch_SupportsFormat (format : string) : bool := bool_decide (format = "jsonl").

(** ** Splitting into lines *)

(** [bufio.ScanLines]: the text between line feeds, without a carriage return at
    its end; what is left at the end of the input is a line unless it is empty. *)
Fixpoint raw_lines (cur : bytes) (l : bytes) : list bytes :=
  match l with
  | [] => if bool_decide (cur = []) then [] else [cur]
  | b :: l => if b =? 10 then cur :: raw_lines [] l else raw_lines (cur ++ [b]) l
  end.

Definition dropCR (c : bytes) : bytes :=
  if bool_decide (List.last c 0 = 13) then removelast c else c.

Definition max_line : Z := 10 * 1024 * 1024.

(** The lines [bufio.Scanner] yields and whether a line that does not fit its buffer
    ended it. *)
Fixpoint scan_lines (raw : list bytes) : list bytes * bool :=
  match raw with
  | [] => ([], false)
  | c :: raw =>
      if max_line <=? Z.of_nat (length c) then ([], true)
      else let '(lines, long) := scan_lines raw in (dropCR c :: lines, long)
  end.

Definition ErrTooLong : error := PlainError "bufio.Scanner: token too long".

(** ** Writing *)

Definition uint32_succ (n : Z) : Z := (n + 1) mod 2 ^ 32.

(** The next transaction and its statement. *)
Definition begin_tx : C (option error) :=
  do err <- call CBegin;
  match err with
  | Some e => Ret (Some e)
  | None =>
      do err <- call CPrepare;
      match err with
      | Some e => call CRollback ;; Ret (Some e)
      | None => Ret None
      end
  end.

Fixpoint insert_lines (queryID format : string) (lines : list bytes) (long : bool) (chunkID : Z) : C (option error) :=
  match lines with
  | [] =>
      if long then call CRollback ;; Ret (Some ErrTooLong)
      else call CCommit
  | line :: lines =>
      do err <- call (CInsert (mkChunk queryID chunkID format line));
      match err with
      | Some e => call CRollback ;; Ret (Some e)
      | None =>
          let chunkID := uint32_succ chunkID in
          if chunkID mod 500 =? 0 then
            do err <- call CCommit;
            match err with
            | Some e => Ret (Some e)
            | None =>
                do err <- begin_tx;
                match err with
                | Some e => Ret (Some e)
                | None => insert_lines queryID format lines long chunkID
                end
            end
          else insert_lines queryID format lines long chunkID
      end
  end.

(** The goroutine of a writer into which [text] was written, and what [Close]
    returns: it waits for the goroutine and returns its error. The deferred close is
    of the first statement, and only once one was prepared. *)
Definition insert_result (queryID format : string) (text : bytes) : C (option error) :=
  do err <- begin_tx;
  match err with
  | Some e => Ret (Some e)
  | None =>
      let '(lines, long) := scan_lines (raw_lines [] text) in
      do err <- insert_lines queryID format lines long 0;
      call CCloseStmt ;; Ret err
  end.

Definition ch_ref (queryID format : string) : ResultRef := mkResultRef "clickhouse" queryID 0 0 format "".

(** ** Reading *)

(** What comes out of the pipe, read to its end. *)
Fixpoint read_lines (rows : list (result bytes)) (err : option error) : bytes * option error :=
  match rows with
  | [] => ([], err)
  | Err e :: _ => ([], Some e)
  | Ok line :: rows => let '(text, e) := read_lines rows err in (line ++ [10] ++ text, e)
  end.

Definition ch_Reader (ref : ResultRef) : C (result (bytes * option error)) :=
  do out <- call (CSelect (Locator ref));
  match out with
  | Err e => Ret (Err (WrapError "clickhouse select failed" e))
  | Ok (rows, err) => Ret (Ok (read_lines rows err))
  end.

Definition set_RowCount (n : Z) (r : ResultRef) : ResultRef :=
  mkResultRef (Backend r) (Locator r) (SizeBytes r) n (Format r) (Checksum r).

Definition ch_Stat (ref : ResultRef) : C (result ResultRef) :=
  do out <- call (CStat (Locator ref));
  match out with
  | Err e => Ret (Err (WrapError "clickhouse stat failed" e))
  | Ok (count, size) =>
      let ref := set_RowCount count ref in
      Ret (Ok (match size with Some n => set_SizeBytes n ref | None => ref end))
  end.

Definition ch_Delete (ref : ResultRef) : C (option error) :=
  do err <- call (CDeleteRows (Locator ref));
  match err with
  | Some e => Ret (Some (WrapError "clickhouse delete failed" e))
  | None => Ret None
  end.

(** ** What the transactions leave *)

(** The rows of the table and those of the open transaction. A call that failed adds
    nothing; a transaction that is rolled back leaves nothing. *)
Definition tx_step (t : list chunk * list chunk) (ev : event canswer) : list chunk * list chunk :=
  let '(existT a x) := ev in
  match a return canswer a -> list chunk * list chunk with
  | CBegin | CRollback => fun _ => (t.1, [])
  | CInsert row => fun x => match x with None => (t.1, t.2 ++ [row]) | Some _ => t end
  | CCommit => fun x => match x with None => (t.1 ++ t.2, []) | Some _ => (t.1, []) end
  | _ => fun _ => t
  end x.

Definition stored_rows (tr : list (event canswer)) (table : list chunk) : list chunk :=
  (fold_left tx_step tr (table, [])).1.

(** The rows of the lines, numbered from [n] in 32 bits. *)
Fixpoint numbered (queryID format : string) (n : Z) (lines : list bytes) : list chunk :=
  match lines with
  | [] => []
  | l :: lines => mkChunk queryID n format l :: numbered queryID format (uint32_succ n) lines
  end.

Lemma begin_tx_steps tr t : executes begin_tx tr None -> fold_left tx_step tr t = (t.1, []).
Proof.
  intros (x & tr' & -> & Hex). cbn [bind call] in Hex. destruct x as [e|]; [by destruct Hex as [_ [=]]|].
  destruct Hex as (y & tr2 & -> & Hex). cbn [bind call] in Hex. destruct y as [e|].
  - by destruct Hex as (z & tr3 & -> & _ & [=]).
  - by destruct Hex as [-> _].
Qed.

Lemma insert_lines_steps queryID format lines long n tr t :
  executes (insert_lines queryID format lines long n) tr None ->
  long = false /\ fold_left tx_step tr t = (t.1 ++ t.2 ++ numbered queryID format n lines, []).
Proof.
  revert n tr t. induction lines as [|line lines IH]; intros n tr [c p].
  - cbn [insert_lines]. destruct long; [by intros (x & tr' & -> & _ & [=])|].
    intros (x & tr' & -> & -> & [= <-]). split; [done|]. simpl. by rewrite app_nil_r.
  - cbn [insert_lines]. intros (x & tr' & -> & Hex). cbn [bind call] in Hex. destruct x as [e|].
    { by destruct Hex as (z & tr3 & -> & _ & [=]). }
    cbn [fold_left tx_step fst snd numbered]. destruct (_ =? 0).
    + destruct Hex as (x & tr2 & -> & Hex). cbn [bind call] in Hex. destruct x as [e|]; [by destruct Hex as [_ [=]]|].
      apply executes_bind in Hex as (tr3 & tr4 & [e|] & -> & Hb & Hex); [by destruct Hex as [_ [=]]|].
      cbn [fold_left tx_step fst snd]. rewrite fold_left_app, (begin_tx_steps tr3) by done.
      destruct (IH _ _ ((c ++ p ++ [mkChunk queryID n format line]), []) Hex) as [-> H]. split; [done|].
      cbn [fst snd] in *. rewrite H. by rewrite <- !app_assoc.
    + destruct (IH _ _ (c, p ++ [mkChunk queryID n format line]) Hex) as [-> H]. split; [done|].
      rewrite H. cbn [fst snd]. by rewrite <- !app_assoc.
Qed.

(** A write that reported no error left exactly the lines of the text. *)
Lemma insert_result_rows queryID format text tr table :
  executes (insert_result queryID format text) tr None ->
  (scan_lines (raw_lines [] text)).2 = false /\
  stored_rows tr table = table ++ numbered queryID format 0 (scan_lines (raw_lines [] text)).1.
Proof.
  unfold insert_result. intros (tr1 & tr2 & [e|] & -> & Hb & Hex)%executes_bind; [by destruct Hex as [_ [=]]|].
  destruct (scan_lines _) as [lines long].
  apply executes_bind in Hex as (tr3 & tr4 & err & -> & Hi & Hex).
  destruct Hex as (x & tr5 & -> & -> & [= <-]).
  destruct (insert_lines_steps _ _ _ _ _ _ (table, []) Hi) as [-> H]. split; [done|].
  unfold stored_rows. rewrite fold_left_app, (begin_tx_steps tr1) by done. rewrite fold_left_app.
  cbn [fst]. by rewrite H.
Qed.

(** ** Lines come back *)

(** Text made of lines that end with a line feed and hold no carriage return at
    their end. *)
Definition line_text (ls : list bytes) : bytes := concat (map (fun l => l ++ [10]) ls).

Definition plain_line (l : bytes) : Prop := (10 ∉ l) /\ List.last l 0 <> 13.

Lemma raw_lines_step l cur rest : 10 ∉ l -> raw_lines cur (l ++ [10] ++ rest) = (cur ++ l) :: raw_lines [] rest.
Proof.
  revert cur. induction l as [|b l IH]; intros cur Hl; [simpl; by rewrite app_nil_r|].
  apply not_elem_of_cons in Hl as [Hb Hl]. simpl. rewrite (proj2 (Z.eqb_neq b 10)) by congruence.
  rewrite IH by done. by rewrite <- app_assoc.
Qed.

Lemma raw_lines_text ls : Forall (fun l => 10 ∉ l) ls -> raw_lines [] (line_text ls) = ls.
Proof.
  unfold line_text. induction 1 as [|l ls Hl _ IH]; [done|]. cbn [map concat]. rewrite <- app_assoc.
  rewrite raw_lines_step by done. by rewrite IH.
Qed.

Lemma scan_lines_plain ls :
  Forall plain_line ls -> (scan_lines ls).2 = false -> (scan_lines ls).1 = ls.
Proof.
  induction 1 as [|l ls [_ Hl] _ IH]; [done|]. simpl. destruct (max_line <=? _); [done|].
  destruct (scan_lines ls) as [lines long]. simpl in *. intros H. rewrite (IH H). f_equal. unfold dropCR.
  by rewrite bool_decide_eq_false_2.
Qed.

(** The answer of a selection [ORDER BY chunk_id]: the rows of the query, in some
    order that respects the numbers. *)
Definition selects (table : list chunk) (queryID : string) (lines : list bytes) : Prop :=
  exists rows, rows ≡ₚ filter (fun r => query_id r = queryID) table /\
    Sorted (fun a b => chunk_id a <= chunk_id b) rows /\ lines = map data rows.

Lemma numbered_ids queryID format n lines :
  0 <= n -> n + Z.of_nat (length lines) <= 2 ^ 32 ->
  Forall (fun r => query_id r = queryID /\ n <= chunk_id r) (numbered queryID format n lines) /\
  StronglySorted (fun a b => chunk_id a < chunk_id b) (numbered queryID format n lines) /\
  map data (numbered queryID format n lines) = lines.
Proof.
  revert n. induction lines as [|l lines IH]; intros n Hn Hl; simpl; [by repeat constructor|].
  simpl in Hl. destruct lines as [|l' lines]; [by repeat constructor|].
  assert (uint32_succ n = n + 1) as Hs by (unfold uint32_succ; apply Z.mod_small; simpl in Hl; lia).
  rewrite Hs. destruct (IH (n + 1)) as (H1 & H2 & H3); [lia|simpl in *; lia|]. split_and!.
  - constructor; [split; [done|simpl; lia]|]. eapply Forall_impl; [exact H1|]. intros r [? ?]. split; [done|lia].
  - constructor; [done|]. apply List.Forall_forall. rewrite Forall_forall in H1. intros r Hr%list_elem_of_In.
    destruct (H1 r Hr). simpl. lia.
  - by rewrite H3.
Qed.

Lemma sorted_rows_unique (rows xs : list chunk) :
  rows ≡ₚ xs -> StronglySorted (fun a b => chunk_id a <= chunk_id b) rows ->
  StronglySorted (fun a b => chunk_id a < chunk_id b) xs -> rows = xs.
Proof.
  revert rows. induction xs as [|x xs IH]; intros rows Hp Hr Hx; [by apply Permutation_nil_r in Hp|].
  destruct rows as [|r rows]; [by apply Permutation_nil_l in Hp|].
  inversion Hr as [|? ? Hr' Hall]; inversion Hx as [|? ? Hx' Hallx]; subst.
  rewrite List.Forall_forall in Hall, Hallx.
  assert (r = x) as ->.
  { assert (r ∈ x :: xs) as Hin by (rewrite <- Hp; by left). apply elem_of_cons in Hin as [?|Hin]; [done|].
    apply list_elem_of_In, Hallx in Hin.
    assert (x ∈ r :: rows) as Hin2 by (rewrite Hp; by left). apply elem_of_cons in Hin2 as [?|Hin2]; [done|].
    apply list_elem_of_In, Hall in Hin2. lia. }
  f_equal. apply IH; [by apply Permutation_cons_inv in Hp|done|done].
Qed.

Lemma filter_all {A} (Q : A -> Prop) `{!forall x, Decision (Q x)} l : Forall Q l -> filter Q l = l.
Proof. induction 1 as [|x l Hx _ IH]; [done|]. rewrite filter_cons_True by done. by rewrite IH. Qed.

Lemma filter_none {A} (Q : A -> Prop) `{!forall x, Decision (Q x)} l : Forall (fun x => ~ Q x) l -> filter Q l = [].
Proof. induction 1 as [|x l Hx _ IH]; [done|]. by rewrite filter_cons_False. Qed.

Lemma selects_numbered table queryID format lines out :
  Forall (fun r => query_id r <> queryID) table -> Z.of_nat (length lines) <= 2 ^ 32 ->
  selects (table ++ numbered queryID format 0 lines) queryID out -> out = lines.
Proof.
  intros Hnew Hlen (rows & Hp & Hs & ->).
  destruct (numbered_ids queryID format 0 lines) as (H1 & H2 & H3); [lia|lia|].
  rewrite filter_app in Hp. rewrite (filter_none _ table) in Hp by done.
  rewrite (filter_all _ (numbered _ _ _ _)) in Hp; [|eapply Forall_impl; [exact H1|]; by intros r [? _]].
  rewrite <- H3. f_equal. apply sorted_rows_unique; [done| |done].
  apply Sorted_StronglySorted; [|done]. intros a b c ? ?. lia.
Qed.

Lemma read_lines_text rows err text :
  read_lines rows err = (text, None) -> exists lines, rows = map Ok lines /\ err = None /\ text = line_text lines.
Proof.
  revert text. induction rows as [|[l|e] rows IH]; intros text; simpl; [intros [= <- ->]; by exists []| |done].
  destruct (read_lines rows err) as [t e]. intros [= <- ->]. destruct (IH t eq_refl) as (lines & -> & -> & ->).
  exists (l :: lines). split_and!; [done..|]. unfold line_text. simpl. by rewrite <- app_assoc.
Qed.

(** The selections of [tr] were answered from [table]: an answer that is complete has
    the rows of the query. *)
Definition answered_ev (table : list chunk) (ev : event canswer) : Prop :=
  let '(existT a x) := ev in
  match a return canswer a -> Prop with
  | CSelect q => fun x => forall lines, x = Ok (map Ok lines, None) -> selects table q lines
  | _ => fun _ => True
  end x.

Definition answered (table : list chunk) (tr : list (event canswer)) : Prop := Forall (answered_ev table) tr.

(** The text of a JSON-lines result is made of lines without line ends in them. *)
Lemma jsonl_text_lines {other} `{!ValueText other} columns (values : list (list (cell other))) text :
  result_text "jsonl" columns values text ->
  exists ls, text = line_text ls /\ Forall plain_line ls /\ length ls = length values.
Proof.
  unfold result_text. rewrite bool_decide_eq_false_2 by done. intros (lines & HF & ->).
  induction HF as [|r l values lines Hl HF (ls & Hls & Hp & Hlen)]; [by exists []|].
  destruct (jsonl_line_text _ _ _ Hl) as (t & -> & Ht). exists (t :: ls). split_and!; [| |simpl; lia].
  - unfold line_text in *. simpl. by rewrite Hls.
  - constructor; [|done]. split.
    + intros Hin. rewrite Forall_forall in Ht. specialize (Ht _ Hin). lia.
    + destruct (decide (t = [])) as [->|Hne]; [done|]. rewrite Forall_forall in Ht.
      assert (List.last t 0 ∈ t) as Hin.
      { rewrite (app_removelast_last 0 Hne) at 2. apply elem_of_app. right. by left. }
      specialize (Ht _ Hin). lia.
Qed.

(** What encoding and inserting a JSON-lines result without an error leave in the
    table. *)
Lemma jsonl_stored {other} `{!ValueText other} k merr Fields (s : row_stream (other := other))
  tre n count queryID table tri :
  executes (EncodeStream k merr Fields s "jsonl") tre (n, count, Returned None) -> honest tre ->
  executes (insert_result queryID "jsonl" (written tre)) tri None ->
  exists columns values ls,
    rs_columns s = Ok columns /\ yields (rs_rows s) values /\ result_text "jsonl" columns values (line_text ls) /\
    written tre = line_text ls /\ length ls = length (rs_rows s) /\
    stored_rows tri table = table ++ numbered queryID "jsonl" 0 ls.
Proof.
  intros He Hh Hi.
  destruct (EncodeStream_encoded _ _ _ _ _ _ _ _ (or_intror eq_refl) He Hh)
    as (columns & _ & tr1 & _ & _ & _ & Hcol & _ & (values & text' & Hy & _ & Ht & Hw & _) & Hwt).
  rewrite Hwt, Hw in *. destruct (jsonl_text_lines columns values text' Ht) as (ls & -> & Hls & Hlv).
  destruct (insert_result_rows _ _ _ _ table Hi) as [Hlong Hrows].
  assert (raw_lines [] (line_text ls) = ls) as Hraw.
  { apply raw_lines_text. eapply Forall_impl; [exact Hls|]. by intros l [? _]. }
  rewrite Hraw in *. rewrite scan_lines_plain in Hrows by done.
  exists columns, values, ls. split_and!; [done..| |done].
  unfold yields in Hy. rewrite Hlv, <- (length_map (fun r => mkTurn None (Ok r)) values), <- Hy. done.
Qed.

(** A JSON-lines result survives ClickHouse byte for byte, as [SupportsFormat]
    promises: when encoding the result and closing the writer both reported no error,
    and the query had no rows in the table before, then what the reader delivers from
    the rows of the query in the order of their numbers is exactly the text that was
    encoded. The rows may have been inserted in any number of transactions; the bound
    is the 32-bit number of a row. *)
Theorem clickhouse_keeps_jsonl {other} `{!ValueText other} k merr Fields (s : row_stream (other := other))
  tre n count queryID table tri trr text :
  executes (EncodeStream k merr Fields s "jsonl") tre (n, count, Returned None) -> honest tre ->
  executes (insert_result queryID "jsonl" (written tre)) tri None ->
  Forall (fun r => query_id r <> queryID) table -> Z.of_nat (length (rs_rows s)) <= 2 ^ 32 ->
  executes (ch_Reader (ch_ref queryID "jsonl")) trr (Ok (text, None)) -> answered (stored_rows tri table) trr ->
  text = written tre.
Proof.
  intros He Hh Hi Hnew Hlen Hr Hans.
  destruct (jsonl_stored _ _ _ _ _ _ _ _ table _ He Hh Hi) as (columns & values & ls & _ & _ & _ & Hw & Hlv & Hrows).
  rewrite Hw, Hrows in *.
  destruct Hr as (x & tr' & -> & Hr). apply Forall_cons in Hans as [Hsel _]. cbn [bind call] in Hr.
  destruct x as [[rows err]|e]; destruct Hr as [_ [= Hr]].
  symmetry in Hr. apply read_lines_text in Hr as (lines & -> & -> & ->). specialize (Hsel lines eq_refl).
  apply selects_numbered in Hsel as ->; [done|done|by rewrite Hlv].
Qed.

(** The size the database reports for a result is the one of its lines, which leaves
    out a line feed a row. *)
Lemma stat_size_short ls :
  Z.of_nat (length (line_text ls)) = foldr Z.add 0 (map (fun l => Z.of_nat (length l)) ls) + Z.of_nat (length ls).
Proof.
  unfold line_text. induction ls as [|l ls IH]; [done|]. simpl. rewrite !length_app. simpl. lia.
Qed.

(** ** Examples *)

(** CSV is not safe, as the comment of [SupportsFormat] says: a carriage return
    inside a quoted field is lost. *)
Lemma csv_loses_cr :
  let text := csv_record [bytes_of "a" ++ [13; 10] ++ bytes_of "b"] in
  line_text (scan_lines (raw_lines [] text)).1 <> text.
Proof. vm_compute. done. Qed.

(** A database that never fails, holding a table. *)
Definition demo_db (a : caction) (w : list chunk * list chunk) : canswer a * (list chunk * list chunk) :=
  let x := match a return canswer a with
           | CSelect q => Ok (map Ok (map data (filter (fun r => query_id r = q) w.1)), None)
           | CStat _ => Ok (0, None)
           | _ => None
           end in
  (x, tx_step w (existT a x)).

Definition demo_text : bytes := written (demo_run "jsonl").1.2.
Definition demo_insert := run demo_db (insert_result "q-1" "jsonl" demo_text) ([mkChunk "q-0" 0 "jsonl" []], []).
Definition demo_read := run demo_db (ch_Reader (ch_ref "q-1" "jsonl")) demo_insert.2.

Lemma clickhouse_keeps_jsonl_witness :
  exists text, demo_read.1.1 = Ok (text, None) /\ text = demo_text /\ text <> [].
Proof.
  assert (exists text, demo_read.1.1 = Ok (text, None)) as [text Hr] by (eexists; vm_compute; reflexivity).
  assert (demo_insert.1.1 = None) as Hi by (vm_compute; reflexivity).
  assert ((demo_run "jsonl").1.1 = (2, 24, Returned None)) as He by (vm_compute; reflexivity).
  exists text. split; [done|].
  assert (text = demo_text) as Ht; [|split; [done|]; rewrite Ht; vm_compute; done].
  refine (clickhouse_keeps_jsonl 1 (fun _ _ => PlainError "json") fields_by_key demo_stream (demo_run "jsonl").1.2
    2 24 "q-1" [mkChunk "q-0" 0 "jsonl" []] demo_insert.1.2 demo_read.1.2 text _ _ _ _ _ _ _).
  - by apply encoder_demo_executes.
  - vm_compute. repeat constructor; done.
  - rewrite <- Hi. apply run_executes.
  - by repeat constructor.
  - vm_compute. done.
  - rewrite <- Hr. apply run_executes.
  - constructor; [|constructor]. simpl. intros lines [= Hl]. 
    exists (filter (fun r => query_id r = "q-1") (stored_rows demo_insert.1.2 [mkChunk "q-0" 0 "jsonl" []])).
    split; [done|]. split; [vm_compute; repeat constructor; done|].
    destruct lines as [|l1 [|l2 [|l3 lines]]]; try discriminate Hl. injection Hl as <- <-.
    vm_compute. reflexivity.
Defined.
