(* ===== verification/StorePipes.v ===== *)
(** * The storage backends behind a pipe

    S3 and ClickHouse take a result through [io.Pipe]: the execution of a query
    encodes its rows into the writing end and closes it, while a goroutine of the
    backend uploads or inserts what comes out of the reading end
    ([clickhouse/storage.go], [s3/storage.go]); a ClickHouse result is read back the
    other way round. The two goroutines are programs over the pipe of [Pipe], run in
    any interleaving; the scanner that cuts the stream into lines is followed read
    by read. *)

From S2P Require Import Prelude Domain Utf8 Text Json RecordJson Rows Parquet Prog Encoder.
From S2P Require Import ResultStore ClickHouse Pipe.

Open Scope Z_scope.
Open Scope dbb_scope.

(** ** Encoding into a pipe *)

(** The encoder with the pipe as its writer; its other calls are its environment. *)
Fixpoint into_pipe {res A} (p : prog eanswer A) : prog (panswer eanswer res) A :=
  match p with
  | Ret a => Ret a
  | Vis e k =>
      match e as e return (eanswer e -> prog (panswer eanswer res) A) -> prog (panswer eanswer res) A with
      | EWrite b => fun k => Vis (PWrite b) k
      | e => fun k => Vis (PEnv e) k
      end (fun x => into_pipe (k x))
  end.

(** What the backend's goroutine ends with. *)
Inductive fed := Fed (err : option error) | OutOfFuel.

(** [clickhousePipeWriter.Close] and [pipeWriter.Close]: closing the pipe gives no
    error, so that the goroutine's is the one returned. *)
Definition pw_Close {env} {eans : env -> Type} : prog (panswer eans fed) fed :=
  call (PCloseWrite None : paction env) ;; call PWait.

(** The part of a query's execution that stores its rows. *)
Definition store_rows_through {A} (encode : prog eanswer A) : prog (panswer eanswer fed) (A * fed) :=
  do out <- into_pipe encode;
  do closed <- pw_Close;
  Ret (out, closed).

(** ** The goroutine of ClickHouse *)

Section Insert.
Context (queryID format : string) {A : Type}.

Abbreviation G X := (prog (panswer canswer A) X).

(** The lines of one turn of the scanner; a failed insert is rolled back. *)
Fixpoint insert_many (lines : list bytes) (chunkID : Z) : C (result Z) :=
  match lines with
  | [] => Ret (Ok chunkID)
  | line :: lines =>
      do err <- call (CInsert (mkChunk queryID chunkID format line));
      match err with
      | Some e => call CRollback ;; Ret (Err e)
      | None =>
          let chunkID := uint32_succ chunkID in
          if chunkID mod 500 =? 0 then
            do err <- call CCommit;
            match err with
            | Some e => Ret (Err e)
            | None =>
                do err <- begin_tx;
                match err with
                | Some e => Ret (Err e)
                | None => insert_many lines chunkID
                end
            end
          else insert_many lines chunkID
      end
  end.

(** *** [bufio.Scanner] *)

(** The size of its buffer, where in it the unread bytes begin, and the bytes. *)
Record scanner := mkScanner { sc_size : Z; sc_start : Z; sc_data : bytes }.

Definition new_scanner : scanner := mkScanner (64 * 1024) 0 [].

Definition sc_end (sc : scanner) : Z := sc_start sc + Z.of_nat (length (sc_data sc)).

Definition maxConsecutiveEmptyReads : Z := 100.
Definition ErrNoProgress : error := PlainError "multiple Read calls return no data or error".

(** The whole lines of some bytes and what is left. *)
Fixpoint split_lines (cur l : bytes) : list bytes * bytes :=
  match l with
  | [] => ([], cur)
  | b :: l =>
      if b =? 10 then let '(ls, rest) := split_lines [] l in (cur :: ls, rest)
      else split_lines (cur ++ [b]) l
  end.

(** Room for the next read: the bytes are moved to the front when the buffer is used
    up or its first half is, and a full buffer is doubled up to the limit. *)
Definition make_room (sc : scanner) : option scanner :=
  let start := if (0 <? sc_start sc) && ((sc_end sc =? sc_size sc) || (sc_size sc / 2 <? sc_start sc))
               then 0 else sc_start sc in
  let sc := mkScanner (sc_size sc) start (sc_data sc) in
  if sc_end sc =? sc_size sc then
    if max_line <=? sc_size sc then None
    else Some (mkScanner (Z.min (sc_size sc * 2) max_line) 0 (sc_data sc))
  else Some sc.

(** The tokens left when the reader reported [err], and the end of the loop. *)
Definition at_end (data : bytes) (err : error) (chunkID : Z) : C (option error) :=
  do r <- insert_many (map dropCR (raw_lines [] data)) chunkID;
  match r with
  | Err e => Ret (Some e)
  | Ok _ => if is_EOF err then call CCommit else call CRollback ;; Ret (Some err)
  end.

Fixpoint feed (fuel : nat) (sc : scanner) (empties chunkID : Z) : G fed :=
  match fuel with
  | O => Ret OutOfFuel
  | S fuel =>
      do '(b, err) <- call (PRead (sc_size sc - sc_end sc));
      match err with
      | Some e => do r <- lift (at_end (sc_data sc ++ b) e chunkID); Ret (Fed r)
      | None =>
          match b with
          | [] =>
              if maxConsecutiveEmptyReads <? empties + 1
              then do r <- lift (at_end (sc_data sc) ErrNoProgress chunkID); Ret (Fed r)
              else feed fuel sc (empties + 1) chunkID
          | _ :: _ =>
              let '(ls, rest) := split_lines [] (sc_data sc ++ b) in
              do r <- lift (insert_many (map dropCR ls) chunkID);
              match r with
              | Err e => Ret (Fed (Some e))
              | Ok chunkID =>
                  let consumed := Z.of_nat (length (sc_data sc ++ b)) - Z.of_nat (length rest) in
                  match make_room (mkScanner (sc_size sc) (sc_start sc + consumed) rest) with
                  | None => lift (call CRollback) ;; Ret (Fed (Some ErrTooLong))
                  | Some sc => feed fuel sc 0 chunkID
                  end
              end
          end
      end
  end.

(** The goroutine [Writer] starts. It closes its end of the pipe with its error. *)
Definition inserter (fuel : nat) : G fed :=
  do err <- lift begin_tx;
  match err with
  | Some e => call (PCloseRead (Some e)) ;; Ret (Fed (Some e))
  | None =>
      do r <- feed fuel new_scanner 0 0;
      match r with
      | OutOfFuel => Ret OutOfFuel
      | Fed err => call (PCloseRead err) ;; lift (call CCloseStmt) ;; Ret (Fed err)
      end
  end.

End Insert.

(** ** Programs and their traces *)

(** The calls of a goroutine's own environment. *)
Definition env_ev {env} {eans : env -> Type} {res} (ev : event (panswer eans res)) : list (event eans) :=
  let '(existT a x) := ev in
  match a return panswer eans res a -> list (event eans) with
  | PEnv a => fun x => [existT a x]
  | _ => fun _ => []
  end x.

Definition env_trace {env} {eans : env -> Type} {res} (tr : list (event (panswer eans res))) : list (event eans) :=
  concat (map env_ev tr).

(** The calls of the encoder. *)
Definition enc_ev {res} (ev : event (panswer eanswer res)) : list (event eanswer) :=
  let '(existT a x) := ev in
  match a return panswer eanswer res a -> list (event eanswer) with
  | PWrite b => fun x => [existT (EWrite b) x]
  | PEnv a => fun x => [existT a x]
  | _ => fun _ => []
  end x.

Definition enc_trace {res} (tr : list (event (panswer eanswer res))) : list (event eanswer) :=
  concat (map enc_ev tr).

Lemma env_trace_app {env} {eans : env -> Type} {res} (tr1 tr2 : list (event (panswer eans res))) :
  env_trace (tr1 ++ tr2) = env_trace tr1 ++ env_trace tr2.
Proof. unfold env_trace. by rewrite map_app, concat_app. Qed.

Lemma received_app {env} {eans : env -> Type} {A} (tr1 tr2 : list (event (panswer eans A))) :
  received (tr1 ++ tr2) = received tr1 ++ received tr2.
Proof. unfold received. by rewrite map_app, concat_app. Qed.

Lemma idle_reads_app {env} {eans : env -> Type} {A} (tr1 tr2 : list (event (panswer eans A))) :
  idle_reads (tr1 ++ tr2) = (idle_reads tr1 + idle_reads tr2)%nat.
Proof. unfold idle_reads. by rewrite List.filter_app, length_app. Qed.

Lemma executes_lift {env} {eans : env -> Type} {res A} (p : prog eans A) (tr : list (event (panswer eans res))) a :
  executes (lift p) tr a -> executes p (env_trace tr) a /\ received tr = [] /\ idle_reads tr = 0%nat.
Proof.
  revert tr. induction p as [b|e k IH]; intros tr; simpl; [by intros [-> ->]|].
  intros (x & tr' & -> & (H1 & H2 & H3)%IH). split; [|by split].
  exists x, (env_trace tr'). done.
Qed.

(** No write of the encoder failed. *)
Definition clean_ev (ev : event eanswer) : Prop :=
  let '(existT a x) := ev in
  match a return eanswer a -> Prop with EWrite _ => fun x => x.2 = None | _ => fun _ => True end x.

Abbreviation clean tr := (Forall clean_ev tr).

Lemma executes_into {res A} (p : prog eanswer A) (tr : list (event (panswer eanswer res))) a :
  executes (into_pipe p) tr a ->
  executes p (enc_trace tr) a /\ (Forall write_ok tr -> honest (enc_trace tr)) /\
  (Forall write_ok tr -> clean (enc_trace tr) -> taken tr = written (enc_trace tr)).
Proof.
  revert tr. induction p as [b|e k IH]; intros tr; simpl; [intros [-> ->]; split_and!; [done..|constructor|done]|].
  destruct e; intros (x & tr' & -> & Hex); destruct (IH _ _ Hex) as (H1 & H2 & H3);
    (split; [by exists x, (enc_trace tr')|split]); intros [Hok Hoks]%Forall_cons;
    try (apply (Forall_cons_2 honest_ev); [exact Hok|by apply H2]);
    intros [Hu Hus]%Forall_cons; unfold taken, written in *; simpl; rewrite H3 by done; try done.
  simpl in *. destruct Hok as [_ ->]; [|done]. by rewrite Nat2Z.id, take_ge.
Qed.

(** ** Roles *)

(** Actions that close nothing. *)
Definition writing_act {env} (a : paction env) : Prop :=
  match a with PWrite _ | PPoll | PEnv _ => True | _ => False end.

Definition reading_act {env} (a : paction env) : Prop :=
  match a with PRead _ | PEnv _ => True | _ => False end.

Lemma writes_bind {env} {eans : env -> Type} {A B X} (p : prog (panswer eans B) X) (f : X -> prog (panswer eans B) A) closed :
  only writing_act p -> (forall a, writes closed (f a)) -> writes closed (bind p f).
Proof.
  intros Hp Hf. induction p as [b|e k IH]; simpl in *; [done|]. destruct Hp as [He Hk].
  destruct e; try done; (split; [done|]; auto).
Qed.

Lemma reads_bind {env} {eans : env -> Type} {A B X} out (p : prog (panswer eans A) X) (f : X -> prog (panswer eans A) B) closed :
  only reading_act p -> (forall a, reads out closed (f a)) -> reads out closed (bind p f).
Proof.
  intros Hp Hf. induction p as [b|e k IH]; simpl in *; [done|]. destruct Hp as [He Hk].
  destruct e; try done; (split; [done|]; auto).
Qed.

Lemma only_lift {env} {eans : env -> Type} {res A} P (p : prog eans A) :
  (forall a, P (PEnv a)) -> only P (lift p : prog (panswer eans res) A).
Proof. intros HP. induction p; simpl; auto. Qed.

Lemma only_into {res A} P (p : prog eanswer A) :
  (forall b, P (PWrite b)) -> (forall a, P (PEnv a)) -> only P (into_pipe p : prog (panswer eanswer res) A).
Proof. intros Hw HP. induction p as [b|e k IH]; simpl; [done|]. destruct e; simpl; auto. Qed.

Lemma store_rows_writes {A} (encode : prog eanswer A) : writes false (store_rows_through encode).
Proof. apply writes_bind; [by apply only_into|]. intros a. by repeat split. Qed.

(** ** The encoder reports a failed write *)

Lemma flush_clean st tr st' : executes (flush st) tr (None, st') -> clean tr.
Proof.
  unfold flush. destruct (werr st); [by intros [_ [=]]|]. case_bool_decide; [by intros [-> _]|].
  simpl. intros ([n [e|]] & tr' & -> & Hex); [by destruct Hex as [_ [=]]|].
  simpl in Hex. destruct (_ <? _); [by destruct Hex as [_ [=]]|]. destruct Hex as [-> _]. by repeat constructor.
Qed.

Lemma push_clean l st tr st' : executes (push l st) tr (None, st') -> clean tr.
Proof.
  revert st tr. induction l as [|b l IH]; intros st tr; simpl; [by intros [-> _]|].
  destruct (werr st); [by intros [_ [=]]|]. destruct (_ =? bufio_size); [|by apply IH].
  intros (tr1 & tr2 & [[e|] s] & -> & Hf & Hex)%executes_bind; [by destruct Hex as [_ [=]]|].
  apply Forall_app. split; [by eapply flush_clean|by eapply IH].
Qed.

Section Clean.
Context {other : Type} `{!ValueText other} (callbacks : nat) (marshal_error : list string -> list (cell other) -> error).
Context (Fields : gmap string node -> list string).

Lemma report_clean rows st tr st' : executes (report_rows callbacks rows st) tr st' -> clean tr.
Proof.
  assert (forall tr st', executes (emit callbacks rows st) tr st' -> clean tr) as Hemit.
  { intros tr0 st0 (now & -> & ->)%emit_executes. constructor; [done|]. apply Forall_map, Forall_true. done. }
  unfold report_rows. destruct (negb _); [|by apply Hemit]. simpl. intros (now & tr' & -> & Hex).
  constructor; [done|]. destruct (_ <? _); [by destruct Hex as [-> ->]|by eapply Hemit].
Qed.

Lemma encode_rows_clean write (turns : list (turn (other := other))) n st tr n' st' :
  (forall r st tr st', executes (write r st) tr (None, st') -> clean tr) ->
  executes (encode_rows callbacks write turns n st) tr (n', st', None) -> clean tr.
Proof.
  intros Hwrite. revert n st tr. induction turns as [|[c s] turns IH]; intros n st tr; simpl; [by intros [-> _]|].
  destruct c; [by intros [_ [=]]|]. destruct s as [values|e]; [|by intros [_ [=]]].
  intros (tr1 & tr2 & [[e|] s1] & -> & Hw & Hex)%executes_bind; [by destruct Hex as [_ [=]]|].
  apply executes_bind in Hex as (tr3 & tr4 & s2 & -> & Hrep & Hex).
  rewrite !Forall_app. split_and!; [by eapply Hwrite|by eapply report_clean|by eapply IH].
Qed.

Lemma EncodeStream_clean s format tr rows count :
  format = "csv" \/ format = "jsonl" ->
  executes (EncodeStream callbacks marshal_error Fields s format) tr (rows, count, Returned None) -> clean tr.
Proof.
  intros Hformat Hex. unfold EncodeStream in Hex. destruct (rs_columns s) as [columns|e]; [|by destruct Hex as [_ [=]]].
  destruct Hex as (now & tr' & -> & Hex). cbn [bind call] in Hex. constructor; [done|].
  apply executes_bind in Hex as (tr1 & tr2 & [[[n st] counts] out] & -> & He & Hex).
  apply executes_bind in Hex as (tr3 & tr4 & st' & -> & (now' & -> & ->)%emit_executes & [-> [= <- <-]]).
  rewrite app_nil_r. apply Forall_app. split.
  2: { constructor; [done|]. by apply Forall_map, Forall_true. }
  unfold encode_format in He. destruct Hformat as [-> | ->]; simpl in He.
  - unfold encode_csv in He. apply executes_bind in He as (t1 & t2 & [[e|] s1] & -> & Hw & He); [by destruct He as [_ [=]]|].
    apply executes_bind in He as (t3 & t4 & [[m s2] [e|]] & -> & Hr & He); [by destruct He as [_ [=]]|].
    apply executes_bind in He as (t5 & t6 & [[e|] s3] & -> & Hf & He); [by destruct He as [_ [=]]|].
    destruct He as [-> _]. rewrite app_nil_r, !Forall_app. split_and!; [by eapply push_clean| |by eapply flush_clean].
    eapply encode_rows_clean; [|exact Hr]. intros r s0 tr0 s0'. unfold csv_row.
    intros (u1 & u2 & [[e|] ?] & -> & Hp & [-> [=]])%executes_bind. rewrite app_nil_r. by eapply push_clean.
  - unfold encode_jsonl in He. apply executes_bind in He as (t1 & t2 & [[m s2] [e|]] & -> & Hr & He); [by destruct He as [_ [=]]|].
    destruct He as [-> _]. rewrite app_nil_r. eapply encode_rows_clean; [|exact Hr].
    intros r s0 tr0 s0'. unfold jsonl_row. destruct (jsonl_line columns r) as [l|]; [|by intros [_ [=]]].
    simpl. intros ([k e] & tr' & -> & -> & [= He _]). destruct e; [done|]. by repeat constructor.
Qed.

End Clean.

(** ** Lines cut out of a stream *)

Lemma raw_lines_prefix l l2 cur : 10 ∉ l -> raw_lines cur (l ++ l2) = raw_lines (cur ++ l) l2.
Proof.
  revert cur. induction l as [|b l IH]; intros cur Hl; simpl; [by rewrite app_nil_r|].
  apply not_elem_of_cons in Hl as [Hb Hl]. rewrite (proj2 (Z.eqb_neq b 10)) by congruence.
  rewrite IH by done. by rewrite <- app_assoc.
Qed.

Lemma split_lines_spec cur l ls rest :
  split_lines cur l = (ls, rest) -> 10 ∉ cur ->
  (10 ∉ rest) /\ (length rest <= length (cur ++ l))%nat /\
  Forall (fun x => (length x < length (cur ++ l))%nat) ls /\
  forall l2, raw_lines cur (l ++ l2) = ls ++ raw_lines rest l2.
Proof.
  revert cur ls rest. induction l as [|b l IH]; intros cur ls rest; simpl.
  { intros [= <- <-] Hc. split_and!; [done|rewrite app_nil_r; lia|constructor|done]. }
  destruct (Z.eqb_spec b 10) as [->|Hb].
  - destruct (split_lines [] l) as [ls' rest'] eqn:Hs. intros [= <- <-] Hc.
    destruct (IH [] _ _ Hs) as (H1 & H2 & H3 & H4); [apply not_elem_of_nil|].
    rewrite length_app. simpl in *. split_and!; [done|lia| |intros l2; by rewrite H4].
    constructor; [lia|]. eapply Forall_impl; [exact H3|]. simpl. lia.
  - intros Hs Hc. destruct (IH _ _ _ Hs) as (H1 & H2 & H3 & H4); [set_solver|].
    rewrite <- app_assoc in H2, H3. done.
Qed.

Lemma scan_lines_app ls ls2 :
  Forall (fun l => Z.of_nat (length l) < max_line) ls ->
  scan_lines (ls ++ ls2) = (map dropCR ls ++ (scan_lines ls2).1, (scan_lines ls2).2).
Proof.
  induction 1 as [|l ls Hl _ IH]; simpl; [by destruct (scan_lines ls2)|].
  rewrite (proj2 (Z.leb_gt _ _)) by done. by rewrite IH.
Qed.

Lemma raw_lines_short n cur l :
  (length (cur ++ l) <= n)%nat -> Forall (fun x => (length x <= n)%nat) (raw_lines cur l).
Proof.
  revert cur. induction l as [|b l IH]; intros cur; simpl; rewrite length_app; simpl; intros Hn.
  - case_bool_decide; repeat constructor. lia.
  - destruct (b =? 10); [constructor; [lia|]; apply IH; simpl; lia|].
    apply IH. rewrite !length_app. simpl. lia.
Qed.

(** *** The scanner *)

Record sc_ok (sc : scanner) : Prop := {
  sc_start_ok : 0 <= sc_start sc;
  sc_room : sc_end sc < sc_size sc;
  sc_limit : sc_size sc <= max_line;
  sc_line : 10 ∉ sc_data sc
}.

Lemma new_scanner_ok : sc_ok new_scanner.
Proof. split; [done|done|done|apply not_elem_of_nil]. Qed.

Lemma make_room_ok sc sc' :
  0 <= sc_start sc -> sc_end sc <= sc_size sc <= max_line -> 0 < sc_size sc -> 10 ∉ sc_data sc ->
  make_room sc = Some sc' -> sc_ok sc' /\ sc_data sc' = sc_data sc.
Proof.
  unfold make_room, sc_end. simpl. intros H0 [H1 H2] H3 H4.
  set (len := Z.of_nat (length (sc_data sc))) in *. assert (0 <= len) by lia.
  destruct ((0 <? sc_start sc) && _) eqn:Hm.
  - apply andb_true_iff in Hm as [Hm%Z.ltb_lt _].
    destruct (Z.eqb_spec (0 + len) (sc_size sc)); [lia|]. intros [= <-]. split; [|done].
    split; unfold sc_end; simpl; [lia|fold len; lia|lia|done].
  - destruct (Z.eqb_spec (sc_start sc + len) (sc_size sc)).
    + destruct (Z.leb_spec max_line (sc_size sc)); [done|]. intros [= <-]. split; [|done].
      split; unfold sc_end; simpl; [lia|fold len; lia|lia|done].
    + intros [= <-]. split; [|done]. split; unfold sc_end; simpl; [lia|fold len; lia|lia|done].
Qed.

(** ** The goroutine inserts what it received *)

Section Inserted.
Context (queryID format : string) {A : Type}.

Lemma insert_many_lines ls ls2 long n m tr1 tr2 r :
  executes (insert_many queryID format ls n) tr1 (Ok m) ->
  executes (insert_lines queryID format ls2 long m) tr2 r ->
  executes (insert_lines queryID format (ls ++ ls2) long n) (tr1 ++ tr2) r.
Proof.
  revert n tr1. induction ls as [|l ls IH]; intros n tr1; [by intros [-> [= ->]]|].
  cbn [insert_many Datatypes.app insert_lines]. intros (x & tr' & -> & Hex) H2. cbn [bind call] in Hex.
  exists x, (tr' ++ tr2). split; [done|]. cbn [bind call]. destruct x as [e|].
  { by destruct Hex as (y & t & -> & [_ [=]]). }
  destruct (_ =? 0); [|by apply IH]. destruct Hex as (y & t & -> & Hex). cbn [bind call] in Hex.
  exists y, (t ++ tr2). split; [done|]. cbn [bind call]. destruct y as [e|]; [by destruct Hex as [_ [=]]|].
  apply executes_bind in Hex as (t1 & t2 & [e|] & -> & Hb & Hex); [by destruct Hex as [_ [=]]|].
  apply executes_bind. exists t1, (t2 ++ tr2), None. split; [by rewrite app_assoc|]. split; [done|]. by apply IH.
Qed.

Lemma at_end_inserts data e n tr :
  executes (at_end queryID format data e n) tr None -> Z.of_nat (length data) < max_line ->
  executes (insert_lines queryID format (scan_lines (raw_lines [] data)).1 (scan_lines (raw_lines [] data)).2 n) tr None.
Proof.
  unfold at_end. intros (t1 & t2 & [m|e'] & -> & Hi & Hex)%executes_bind Hlen; [|by destruct Hex as [_ [=]]].
  rewrite <- (app_nil_r (raw_lines [] data)), scan_lines_app; simpl.
  - eapply insert_many_lines; [exact Hi|]. destruct (is_EOF e); [done|by destruct Hex as (y & t & -> & [_ [=]])].
  - eapply Forall_impl; [apply (raw_lines_short (length data)); done|]. simpl. lia.
Qed.

Abbreviation inserts tr text n :=
  (executes (insert_lines queryID format (scan_lines (raw_lines [] text)).1 (scan_lines (raw_lines [] text)).2 n)
     (env_trace tr) None).

Lemma feed_inserts fuel sc empties n (tr : list (event (panswer canswer A))) :
  executes (feed queryID format fuel sc empties n) tr (Fed None) -> Forall read_fits tr -> sc_ok sc ->
  inserts tr (sc_data sc ++ received tr) n.
Proof.
  revert sc empties n tr. induction fuel as [|fuel IH]; intros sc empties n tr; [by intros [_ [=]]|].
  cbn [feed]. intros ([b err] & tr' & -> & Hex) [[Hb Herr] Hfit]%Forall_cons Hok.
  cbn [bind call fst snd] in *. unfold received. cbn [map got_ev concat fst]. fold (received tr').
  unfold env_trace. cbn [map env_ev concat Datatypes.app]. fold (env_trace tr').
  pose proof Hok as [Hs Hroom Hlim Hline].
  assert (Z.of_nat (length (sc_data sc)) < max_line) as Hshort by (unfold sc_end in *; lia).
  destruct err as [e|].
  { rewrite Herr in * by done. rewrite !app_nil_r in Hex.
    apply executes_bind in Hex as (t1 & t2 & r & -> & (Hend & Hrec & _)%executes_lift & [-> [= <-]]).
    rewrite !app_nil_r, Hrec. simpl. rewrite app_nil_r. by eapply at_end_inserts. }
  destruct b as [|b0 b].
  { simpl. destruct (_ <? _).
    - apply executes_bind in Hex as (t1 & t2 & r & -> & (Hend & Hrec & _)%executes_lift & [-> [= <-]]).
      rewrite !app_nil_r, Hrec, app_nil_r. by eapply at_end_inserts.
    - by eapply IH. }
  set (bs := b0 :: b) in *. destruct (split_lines [] (sc_data sc ++ bs)) as [ls rest] eqn:Hsp.
  destruct (split_lines_spec _ _ _ _ Hsp) as (Hrest & Hlen & Hls & Hraw); [apply not_elem_of_nil|].
  apply executes_bind in Hex as (t1 & t2 & r & -> & (Hins & Hrec & _)%executes_lift & Hex).
  destruct r as [m|e]; [|by destruct Hex as [_ [=]]].
  destruct (make_room _) as [sc'|] eqn:Hm; [|by destruct Hex as (y & t & -> & [_ [=]])].
  assert (Z.of_nat (length (sc_data sc ++ bs)) + sc_start sc <= sc_size sc) as Hfull.
  { rewrite length_app. unfold sc_end in *. lia. }
  apply make_room_ok in Hm as [Hok' Hd]; simpl in *; [|unfold sc_end in *; simpl; lia..|done].
  apply Forall_app in Hfit as [_ Hfit]. specialize (IH _ _ _ _ Hex Hfit Hok'). rewrite Hd in IH. simpl in IH.
  rewrite raw_lines_prefix in IH by done. simpl in IH.
  rewrite env_trace_app, received_app, Hrec.
  change (sc_data sc ++ b0 :: b ++ [] ++ received t2) with (sc_data sc ++ bs ++ received t2).
  rewrite app_assoc, Hraw, scan_lines_app.
  - simpl. eapply insert_many_lines; [exact Hins|exact IH].
  - eapply Forall_impl; [exact Hls|]. simpl. lia.
Qed.

Lemma inserter_inserts fuel (tr : list (event (panswer canswer A))) :
  executes (inserter queryID format fuel) tr (Fed None) -> Forall read_fits tr ->
  executes (insert_result queryID format (received tr)) (env_trace tr) None.
Proof.
  unfold inserter, insert_result. intros (t1 & t2 & err & -> & (Hb & Hrec & _)%executes_lift & Hex)%executes_bind Hfit.
  apply Forall_app in Hfit as [_ Hfit]. rewrite env_trace_app, received_app, Hrec, app_nil_l.
  destruct err as [e|]; [by destruct Hex as (y & t & -> & [_ [=]])|].
  apply executes_bind in Hex as (t3 & t4 & [err|] & -> & Hf & Hex); [|by destruct Hex as [_ [=]]].
  apply Forall_app in Hfit as [Hfit _]. destruct Hex as (y & t & -> & Hex). cbn [bind call] in Hex.
  destruct Hex as (z & t5 & -> & [-> [= <-]]).
  apply (feed_inserts _ _ _ _ _ Hf) in Hfit; [|apply new_scanner_ok]. simpl in Hfit.
  apply executes_bind. exists (env_trace t1), (env_trace t3 ++ [existT CCloseStmt z]), None. split.
  { by rewrite env_trace_app. }
  split; [done|]. rewrite received_app. unfold received at 2. simpl. rewrite app_nil_r.
  destruct (scan_lines (raw_lines [] (received t3))) as [lines long].
  apply executes_bind. exists (env_trace t3), [existT CCloseStmt z], None. split_and!; [done|done|]. by exists z, [].
Qed.

End Inserted.

(** ** The fuel of the scanner *)

(** A reader that ran out of fuel read that often, each time a byte at least or the
    nothing of an empty write. *)
Lemma feed_fuel queryID format {A} fuel sc empties n (tr : list (event (panswer canswer A))) :
  executes (feed queryID format fuel sc empties n) tr OutOfFuel -> Forall read_fits tr -> sc_ok sc ->
  (fuel <= length (received tr) + idle_reads tr)%nat.
Proof.
  revert sc empties n tr. induction fuel as [|fuel IH]; intros sc empties n tr; [lia|].
  cbn [feed]. intros ([b err] & tr' & -> & Hex) [[Hb Herr] Hfit]%Forall_cons Hok. cbn [bind call fst snd] in *.
  pose proof Hok as [Hs Hroom Hlim Hline]. unfold received, idle_reads. cbn [map got_ev concat fst].
  rewrite length_app. fold (received tr').
  destruct err as [e|]; [by apply executes_bind in Hex as (t1 & t2 & r & -> & _ & [_ [=]])|].
  destruct b as [|b0 b].
  { destruct (_ <? _); [by apply executes_bind in Hex as (t1 & t2 & r & -> & _ & [_ [=]])|].
    specialize (IH _ _ _ _ Hex Hfit Hok). cbn [List.filter idle_ev].
    rewrite (proj2 (Z.ltb_lt _ _)) by lia. unfold idle_reads in IH. simpl in *. lia. }
  set (bs := b0 :: b) in *. destruct (split_lines [] (sc_data sc ++ bs)) as [ls rest] eqn:Hsp.
  destruct (split_lines_spec _ _ _ _ Hsp) as (Hrest & Hlen & _ & _); [apply not_elem_of_nil|].
  apply executes_bind in Hex as (t1 & t2 & r & -> & (_ & Hrec & Hidle)%executes_lift & Hex).
  destruct r as [m|e]; [|by destruct Hex as [_ [=]]].
  destruct (make_room _) as [sc'|] eqn:Hm; [|by destruct Hex as (y & t & -> & [_ [=]])].
  assert (Z.of_nat (length (sc_data sc ++ bs)) + sc_start sc <= sc_size sc) as Hfull.
  { rewrite length_app. unfold sc_end in *. lia. }
  apply make_room_ok in Hm as [Hok' _]; simpl in *; [|unfold sc_end in *; simpl; lia..|done].
  apply Forall_app in Hfit as [_ Hfit]. specialize (IH _ _ _ _ Hex Hfit Hok').
  rewrite andb_false_r. rewrite received_app, Hrec. fold (idle_reads (t1 ++ t2)). rewrite idle_reads_app, Hidle.
  simpl. lia.
Qed.

Lemma inserter_fuel queryID format {A} fuel (tr : list (event (panswer canswer A))) :
  executes (inserter queryID format fuel) tr OutOfFuel -> Forall read_fits tr ->
  (fuel <= length (received tr) + idle_reads tr)%nat.
Proof.
  unfold inserter. intros (t1 & t2 & [e|] & -> & (_ & Hrec & Hidle)%executes_lift & Hex)%executes_bind Hfit.
  { by destruct Hex as (y & t & -> & [_ [=]]). }
  apply Forall_app in Hfit as [_ Hfit]. rewrite received_app, idle_reads_app, Hrec, Hidle.
  apply executes_bind in Hex as (t3 & t4 & [err|] & -> & Hf & Hex).
  - destruct Hex as (y & t & -> & Hex). by destruct Hex as (z & t5 & -> & [_ [=]]).
  - destruct Hex as [-> _]. rewrite app_nil_r in *. apply (feed_fuel _ _ _ _ _ _ _ Hf) in Hfit; [|apply new_scanner_ok].
    simpl. lia.
Qed.

Lemma feed_reading queryID format {A} fuel sc empties n :
  only reading_act (feed queryID format fuel sc empties n : prog (panswer canswer A) fed).
Proof.
  revert sc empties n. induction fuel as [|fuel IH]; intros sc empties n; [done|].
  cbn [feed bind call only]. split; [done|]. intros [b [e|]]; [by apply only_bind; [apply only_lift|]|].
  destruct b as [|b0 b]; [destruct (_ <? _); [by apply only_bind; [apply only_lift|]|done]|].
  destruct (split_lines _ _) as [ls rest]. apply only_bind; [by apply only_lift|].
  intros [m|e]; [|done]. destruct (make_room _); [done|by split].
Qed.

Lemma inserter_reads queryID format {A} fuel :
  reads (fun r => r = OutOfFuel) false (inserter queryID format fuel : prog (panswer canswer A) fed).
Proof.
  apply reads_bind; [by apply only_lift|]. intros [e|]; [by repeat split; left|].
  apply reads_bind; [apply feed_reading|]. intros [err|]; [by repeat split; left|by right].
Qed.

(** ** The goroutine of S3 *)

(** [Upload] is the library's: a program that reads the body and makes calls of its
    own. Its result closes the pipe. *)
Definition s3_upload {env} {eans : env -> Type} {A} (upload : prog (panswer eans A) (option error))
  : prog (panswer eans A) fed :=
  do err <- upload; call (PCloseRead err) ;; Ret (Fed err).

(** ** Reading from ClickHouse *)

Inductive kaction := KCloseRows.
Definition kanswer (_ : kaction) : Type := option error.

(** The goroutine [Reader] starts, over the rows of the selection: it stops when the
    reader was closed, at a row that cannot be scanned, and when a write fails. *)
Fixpoint send_rows {B} (rows : list (result bytes)) (err : option error) : prog (panswer kanswer B) unit :=
  match rows with
  | [] => match err with Some e => call (PCloseWrite (Some e)) | None => Ret tt end
  | row :: rows =>
      do closed <- call PPoll;
      if (closed : bool) then Ret tt
      else
        match row with
        | Err e => call (PCloseWrite (Some e))
        | Ok line =>
            do out <- call (PWrite (line ++ [10]));
            match out.2 with Some _ => Ret tt | None => send_rows rows err end
        end
  end.

Definition row_pump {B} (rows : list (result bytes)) (err : option error) : prog (panswer kanswer B) unit :=
  send_rows rows err ;;
  call (PEnv KCloseRows) ;;
  call (PCloseWrite None) ;;
  Ret tt.

(** [clickhouseReader.Close]; the second time it does nothing. *)
Definition reader_Close {A} (isClosed : bool) : prog (panswer kanswer A) bool :=
  if isClosed then Ret true
  else
    call PSignal ;;
    call (PCloseRead None) ;;
    call (PEnv KCloseRows) ;;
    Ret true.

(** A download: whatever reads it makes, the reader is closed at the end. *)
Definition download {A X} (consume : prog (panswer kanswer A) X) : prog (panswer kanswer A) X :=
  do x <- consume; reader_Close false ;; Ret x.

Lemma send_rows_writes {A B} rows err (f : unit -> prog (panswer kanswer B) A) closed :
  (forall closed u, writes closed (f u)) -> writes closed (bind (send_rows rows err) f).
Proof.
  intros Hf. revert closed. induction rows as [|row rows IH]; intros closed; cbn [send_rows].
  { destruct err; [split; [done|]; intros; apply Hf|apply Hf]. }
  split; [done|]. intros [|]; [apply Hf|]. destruct row as [line|e]; [|split; [done|]; intros; apply Hf].
  split; [done|]. intros [n [e|]]; [apply Hf|apply IH].
Qed.

Lemma row_pump_writes {B} rows err : writes false (row_pump rows err : prog (panswer kanswer B) unit).
Proof. apply send_rows_writes. intros closed u. by repeat split. Qed.

(** *** What the consumer gets *)

Lemma send_rows_spec {B} rows err (tr : list (event (panswer kanswer B))) u :
  executes (send_rows rows err) tr u -> Forall unfailed (before_close tr) -> Forall write_ok tr ->
  (taken tr, first_close tr) = read_lines rows err.
Proof.
  revert tr. induction rows as [|row rows IH]; intros tr; cbn [send_rows].
  { destruct err as [e|]; [by intros (x & tr' & -> & [-> _])|by intros [-> _]]. }
  intros (closed & tr' & -> & Hex). cbn [bind call] in Hex. cbn [before_close projT1].
  intros [Hu Hus]%Forall_cons [_ Hok]%Forall_cons. simpl in Hu. subst closed.
  destruct row as [line|e]; [|by destruct Hex as (x & t & -> & [-> _])].
  destruct Hex as ([n e] & t & -> & Hex). cbn [bind call snd] in Hex. cbn [before_close projT1] in Hus.
  apply Forall_cons in Hus as [Hw Hus]. apply Forall_cons in Hok as [[_ Hn] Hok]. simpl in Hw, Hn. subst e.
  specialize (IH _ Hex Hus Hok). cbn [read_lines]. rewrite <- IH. cbn [first_close projT1]. unfold taken. cbn [map taken_ev concat fst].
  by rewrite Hn, Nat2Z.id, take_ge, <- app_assoc.
Qed.

(** No error of the database is the end of the stream. *)
Definition no_eof (rows : list (result bytes)) (err : option error) : Prop :=
  forall text e, read_lines rows err = (text, Some e) -> is_EOF e = false.

Lemma first_close_app {env} {eans : env -> Type} {B} (tr1 tr2 : list (event (panswer eans B))) :
  first_close (tr1 ++ tr2) = match first_close tr1 with Some e => Some e | None => first_close tr2 end.
Proof. induction tr1 as [|[a x] tr1 IH]; [done|]. simpl. by destruct a. Qed.

Lemma before_close_app {env} {eans : env -> Type} {B} (tr1 tr2 : list (event (panswer eans B))) :
  before_close (tr1 ++ tr2) = before_close tr1 ++ match first_close tr1 with Some _ => [] | None => before_close tr2 end.
Proof. induction tr1 as [|[a x] tr1 IH]; [done|]. simpl. destruct a; simpl; by rewrite ?IH. Qed.

Lemma taken_app {env} {eans : env -> Type} {B} (tr1 tr2 : list (event (panswer eans B))) :
  taken (tr1 ++ tr2) = taken tr1 ++ taken tr2.
Proof. unfold taken. by rewrite map_app, concat_app. Qed.

(** A download that comes to the end of the stream before it was closed got every
    row, and the error of a selection that failed is not taken for its end. *)
Lemma row_pump_delivers {X} rows err (R : prog (panswer kanswer unit) X) c x l1 ev l2 e :
  rtc step (start (row_pump rows err) R) c -> finished c tt x ->
  rlog c = l1 ++ ev :: l2 -> read_error ev = Some e -> gave_up l1 = false -> no_eof rows err ->
  read_lines rows err = (received (rlog c), if is_EOF e then None else Some e).
Proof.
  intros Hs Hfin Hl He Hg Hne. destruct (read_error_means _ _ _ _ _ _ _ Hs Hl He Hg) as [Hclose Hu].
  destruct (flows_finished _ _ _ _ _ Hs Hfin) as (HW & _ & Hbytes & Hok & _). rewrite Hbytes.
  unfold row_pump in HW. apply executes_bind in HW as (t1 & t2 & [] & Hwl & Hsend & HW).
  destruct HW as (y & t3 & -> & HW). cbn [bind call] in HW. destruct HW as (z & t4 & -> & HW). cbn [bind call] in HW.
  destruct HW as [-> _]. rewrite Hwl in *. rewrite before_close_app in Hu. rewrite first_close_app in Hclose.
  apply Forall_app in Hu as [Hu _]. apply Forall_app in Hok as [Hok _].
  pose proof (send_rows_spec _ _ _ _ Hsend Hu Hok) as Hr.
  rewrite taken_app. unfold taken at 2. simpl. rewrite app_nil_r, <- Hr. f_equal.
  destruct (first_close t1) as [e'|] eqn:Hf; [|by injection Hclose as <-].
  injection Hclose as ->. by rewrite (Hne _ _ (eq_sym Hr)).
Qed.

(** ** Storing and reading *)

#[export] Instance eanswer_inhabited a : Inhabited (eanswer a).
Proof. destruct a; simpl; apply _ || exact (populate 0). Qed.

#[export] Instance canswer_inhabited a : Inhabited (canswer a).
Proof. destruct a; simpl; try apply _; exact (populate (Err EOF)). Qed.

#[export] Instance kanswer_inhabited a : Inhabited (kanswer a).
Proof. unfold kanswer. apply _. Qed.

(** [Close] returns what the goroutine ended with. *)
Lemma store_rows_closed {X env} {eans : env -> Type} (encode : prog eanswer X) (R : prog (panswer eans (X * fed)) fed) c x closed r :
  rtc step (start (store_rows_through encode) R) c -> finished c (x, closed) r ->
  closed = r /\ exists tr : list (event (panswer eanswer fed)),
    executes (into_pipe encode) tr x /\ Forall write_ok tr /\ received (rlog c) = taken tr.
Proof.
  intros Hs Hfin. destruct (flows_finished _ _ _ _ _ Hs Hfin) as (HW & _ & Hbytes & Hok & _ & _ & Hwait).
  unfold store_rows_through in HW. apply executes_bind in HW as (t1 & t2 & y & Hwl & Hinto & HW).
  destruct HW as (u & t3 & -> & HW). cbn [bind call] in HW. destruct HW as (z & t4 & -> & HW). cbn [bind call] in HW.
  destruct HW as [-> [= -> ->]]. rewrite Hwl, Forall_app in Hwait. destruct Hwait as [_ Hwait].
  rewrite !Forall_cons in Hwait. destruct Hwait as (_ & Hz & _). simpl in Hz. injection Hz as ->.
  split; [done|]. exists t1. rewrite Hwl, Forall_app in Hok. destruct Hok as [Hok _]. split_and!; [done..|].
  rewrite Hbytes, Hwl, taken_app. unfold taken at 2. simpl. by rewrite app_nil_r.
Qed.

(** The rows a selection of a query answered with. *)
Definition selected (table : list chunk) (queryID : string) (rows : list (result bytes)) (err : option error) : Prop :=
  forall lines, rows = map Ok lines -> err = None -> selects table queryID lines.

(** C7. A JSON-lines result goes through ClickHouse unchanged, from the rows of the query
    to the bytes of a download, in every interleaving of the goroutines involved: when
    the encoder and [Close] reported no error, and the query had no rows in the table
    before, then a download that comes to the end of the stream got exactly the text
    of the rows. The bound is the 32-bit number of a row. *)
Theorem clickhouse_end_to_end {other X} `{!ValueText other} k merr Fields (s : row_stream (other := other))
  fuel queryID c n count r table rows err (consume : prog (panswer kanswer unit) X) c2 x l1 ev l2 e :
  rtc step (start (store_rows_through (EncodeStream k merr Fields s "jsonl")) (inserter queryID "jsonl" fuel)) c ->
  finished c (n, count, Returned None, Fed None) r ->
  Forall (fun row => query_id row <> queryID) table -> Z.of_nat (length (rs_rows s)) <= 2 ^ 32 ->
  selected (stored_rows (env_trace (rlog c)) table) queryID rows err -> no_eof rows err ->
  rtc step (start (row_pump rows err) (download consume)) c2 -> finished c2 tt x ->
  rlog c2 = l1 ++ ev :: l2 -> read_error ev = Some e -> is_EOF e = true -> gave_up l1 = false ->
  exists columns values,
    rs_columns s = Ok columns /\ yields (rs_rows s) values /\
    result_text "jsonl" columns values (received (rlog c2)).
Proof.
  intros Hs Hfin Hnew Hlen Hsel Hne Hs2 Hfin2 Hl He Heof Hg.
  pose proof (row_pump_delivers _ _ _ _ _ _ _ _ _ Hs2 Hfin2 Hl He Hg Hne) as Hread. rewrite Heof in Hread.
  apply read_lines_text in Hread as (lines & -> & -> & ->). specialize (Hsel lines eq_refl eq_refl).
  destruct (store_rows_closed _ _ _ _ _ _ Hs Hfin) as (<- & tr & Hinto & Hok & Hbytes).
  destruct (flows_finished _ _ _ _ _ Hs Hfin) as (_ & HR & _ & _ & Hfits & _).
  destruct (executes_into _ _ _ Hinto) as (Henc & Hhon & Htaken). specialize (Hhon Hok).
  rewrite (Htaken Hok) in Hbytes by (by eapply EncodeStream_clean; [right|]).
  apply inserter_inserts in HR; [|done]. rewrite Hbytes in HR.
  destruct (jsonl_stored _ _ _ _ _ _ _ _ table _ Henc Hhon HR) as (columns & values & ls & Hcol & Hy & Ht & _ & Hlv & Hrows).
  rewrite Hrows in Hsel. apply selects_numbered in Hsel as ->; [|done|by rewrite Hlv]. by exists columns, values.
Qed.

(** C13. The goroutines of a result always come to an end. Storing: every run of the
    encoder with the goroutine of S3, whatever the upload library does, and with the
    one of ClickHouse is finite and can only stop when both have returned, with
    [Close] returning the error of the goroutine; of the scanner as many reads have to
    be followed as there are bytes and empty writes. Reading: every run of a download
    with the goroutine that feeds it is finite and only stops when both have
    returned, wherever the download breaks off. *)
Theorem store_goroutines_end {X Y} (encode : prog eanswer X) (consume : prog (panswer kanswer unit) Y) :
  (forall env (eans : env -> Type) (upload : prog (panswer eans (X * fed)) (option error)) c,
     (forall a, Inhabited (eans a)) -> only reading_act upload ->
     rtc step (start (store_rows_through encode) (s3_upload upload)) c ->
     Acc (fun c' c => step c c') c /\ exists c' x r, rtc step c c' /\ finished c' (x, Fed r) (Fed r)) /\
  (forall queryID format fuel c,
     rtc step (start (store_rows_through encode) (inserter queryID format fuel)) c ->
     Acc (fun c' c => step c c') c /\
     exists c', rtc step c c' /\
       ((exists x r, finished c' (x, Fed r) (Fed r)) \/
        (fuel <= length (received (rlog c')) + empty_writes (wlog c'))%nat)) /\
  (forall rows err c, only reading_act consume ->
     rtc step (start (row_pump rows err) (download consume)) c ->
     Acc (fun c' c => step c c') c /\ exists c' y, rtc step c c' /\ finished c' tt y).
Proof.
  split_and!.
  - intros env eans upload c Hinh Hup Hs.
    assert (reads (fun _ => False) false (s3_upload upload)) as Hr
      by (apply reads_bind; [exact Hup|]; intros err; by repeat split; left).
    destruct (runs_end (fun _ => False) (store_rows_through encode) (s3_upload upload) c (store_rows_writes encode) Hr Hs) as (Hacc & c' & Hs' & Hend).
    split; [done|]. destruct Hend as [([x closed] & r & Hfin)|(? & _ & [])].
    assert (rtc step (start (store_rows_through encode) (s3_upload upload)) c') as Hs2 by (by etrans).
    destruct (store_rows_closed _ _ _ _ _ _ Hs2 Hfin) as (-> & _).
    destruct (flows_finished _ _ _ _ _ Hs2 Hfin) as (_ & HR & _).
    apply executes_bind in HR as (t1 & t2 & err & _ & _ & HR). destruct HR as (y & t & -> & [_ ->]). by exists c', x, err.
  - intros queryID format fuel c Hs.
    destruct (runs_end _ (store_rows_through encode) (inserter queryID format fuel) c (store_rows_writes encode)
      (inserter_reads queryID format fuel) Hs) as (Hacc & c' & Hs' & Hend).
    assert (rtc step (start (store_rows_through encode) (inserter queryID format fuel)) c') as Hs2 by (by etrans).
    split; [done|]. exists c'. split; [done|].
    assert (rd c' = Ret OutOfFuel -> (fuel <= length (received (rlog c')) + empty_writes (wlog c'))%nat) as Hfuel.
    { intros Hrd. destruct (flows_reachable _ _ _ Hs2) as [_ HR _ _ Hfits _ Hidle _]. rewrite Hrd in HR.
      apply after_ret in HR. apply inserter_fuel in HR; [|done]. lia. }
    destruct Hend as [([x closed] & r & Hfin)|(r & Hrd & ->)]; [|right; auto].
    destruct (store_rows_closed _ _ _ _ _ _ Hs2 Hfin) as (-> & _). destruct r as [r|]; [left; by exists x, r|].
    right. apply Hfuel. apply Hfin.
  - intros rows err c Hcons Hs.
    assert (writes false (row_pump rows err : prog (panswer kanswer Y) unit)) as Hw by apply row_pump_writes.
    assert (reads (fun _ => False) false (download consume)) as Hr
      by (apply reads_bind; [exact Hcons|]; intros y; by repeat split; left).
    destruct (runs_end (fun _ => False) (row_pump rows err) (download consume) c Hw Hr Hs) as (Hacc & c' & Hs' & Hend).
    split; [done|]. destruct Hend as [([] & y & Hfin)|(? & _ & [])]. by exists c', y.
Qed.

(** ** Examples *)

Definition demo_wh (a : eaction) : eanswer a := (demo_env a tt).1.
Definition demo_ch (a : caction) : canswer a := (demo_db a ([], [])).1.

Definition demo_store : config :=
  schedule demo_wh demo_ch 100
    (start (store_rows_through (EncodeStream 1 (fun _ _ => PlainError "json") fields_by_key demo_stream "jsonl"))
       (inserter "q-1" "jsonl" 100)).

Definition demo_rows : list (result bytes) :=
  map Ok (map data (filter (fun r => query_id r = "q-1")
    (stored_rows (env_trace (rlog demo_store)) [mkChunk "q-0" 0 "jsonl" []]))).

(** Reading in pieces of seven bytes to the end of the stream. *)
Fixpoint read_all {A} (fuel : nat) : prog (panswer kanswer A) unit :=
  match fuel with
  | O => Ret tt
  | S fuel =>
      do out <- call (PRead 7);
      match out.2 with Some _ => Ret tt | None => read_all fuel end
  end.

Definition demo_download : config :=
  schedule (fun a => inhabitant) (fun a => inhabitant) 100 (start (row_pump demo_rows None) (download (read_all 20))).

(** The first read that got an error. *)
Fixpoint until_error {B} (tr : list (event (panswer kanswer B))) : list (event (panswer kanswer B)) :=
  match tr with
  | [] => []
  | ev :: tr => match read_error ev with Some _ => [] | None => ev :: until_error tr end
  end.

Lemma map_Ok_inj {X} (l1 l2 : list X) : map Ok l1 = map Ok l2 -> l1 = l2.
Proof. revert l2. induction l1 as [|x l1 IH]; intros [|y l2] [=]; [done|]. f_equal; auto. Qed.

Lemma clickhouse_end_to_end_witness :
  exists columns values,
    rs_columns demo_stream = Ok columns /\ yields (rs_rows demo_stream) values /\
    result_text "jsonl" columns values (received (rlog demo_download)) /\ received (rlog demo_download) <> [].
Proof.
  set (i := length (until_error (rlog demo_download))).
  assert (exists ev, rlog demo_download !! i = Some ev /\ read_error ev = Some EOF) as (ev & Hi & Hev)
    by (eexists; vm_compute; split; reflexivity).
  destruct (clickhouse_end_to_end 1 (fun _ _ => PlainError "json") fields_by_key demo_stream 100 "q-1" demo_store
    2 24 (Fed None) [mkChunk "q-0" 0 "jsonl" []] demo_rows None (read_all 20) demo_download tt
    (take i (rlog demo_download)) ev (drop (S i) (rlog demo_download)) EOF) as (columns & values & H1 & H2 & H3).
  - apply schedule_steps.
  - split; vm_compute; reflexivity.
  - by repeat constructor.
  - vm_compute. done.
  - intros lines Hl _. unfold demo_rows in Hl. apply map_Ok_inj in Hl as <-.
    eexists. split; [reflexivity|]. split; [vm_compute; repeat constructor; done|reflexivity].
  - intros text e H. vm_compute in H. discriminate H.
  - apply schedule_steps.
  - split; vm_compute; reflexivity.
  - symmetry. by apply take_drop_middle.
  - exact Hev.
  - reflexivity.
  - vm_compute. reflexivity.
  - exists columns, values. split; [exact H1|]. split; [exact H2|]. split; [exact H3|]. vm_compute. discriminate.
Defined.
