(* ===== verification/Databases.v ===== *)
(** * Database drivers and pools

    [internal/db]: the registry of drivers, the four drivers and the wrapper that
    counts rows. The connection libraries are the environment ([daction]); a handle
    they give out is a number. *)

From S2P Require Import Prelude Domain Prog.

Open Scope Z_scope.
Open Scope dbb_scope.

(** ** Connections *)

Inductive daction :=
| DParseConfig (dsn : string)
| DOpen (driverName dsn : string)
| DSetMaxOpenConns (h n : Z)
| DSetMaxIdleConns (h n : Z)
| DNewPool (config : Z) (maxConns : option Z)
| DPing (h : Z)
| DClose (h : Z).

Definition danswer (a : daction) : Type :=
  match a with
  | DParseConfig _ | DOpen _ _ | DNewPool _ _ => result Z
  | DSetMaxOpenConns _ _ | DSetMaxIdleConns _ _ => unit
  | DPing _ | DClose _ => option error
  end.

Abbreviation D A := (prog danswer A).

(** The engines a driver is linked in for; each name is also the one of the
    [database/sql] driver. *)
Inductive Driver := postgresDriver | mysqlDriver | clickhouseDriver | oracleDriver.

Definition driver_name (d : Driver) : string :=
  match d with
  | postgresDriver => "postgres"
  | mysqlDriver => "mysql"
  | clickhouseDriver => "clickhouse"
  | oracleDriver => "oracle"
  end.

(** [int32(n)]. *)
Definition wrap32 (n : Z) : Z := (n + 2 ^ 31) mod 2 ^ 32 - 2 ^ 31.

Definition open_postgres (dsn : string) (maxConns : Z) : D (result Z) :=
  do config <- call (DParseConfig dsn);
  match config with
  | Err e => Ret (Err (WrapError "failed to parse postgres dsn" e))
  | Ok config =>
      do pool <- call (DNewPool config (if 0 <? maxConns then Some (wrap32 maxConns) else None));
      match pool with
      | Err e => Ret (Err (WrapError "failed to connect to postgres" e))
      | Ok h => Ret (Ok h)
      end
  end.

(** The drivers over [database/sql] differ in the name only. *)
Definition open_sql (name dsn : string) (maxConns : Z) : D (result Z) :=
  do db <- call (DOpen name dsn);
  match db with
  | Err e => Ret (Err (WrapError ("failed to open " +:+ name +:+ " connection") e))
  | Ok h =>
      (if 0 <? maxConns then call (DSetMaxOpenConns h maxConns) ;; call (DSetMaxIdleConns h maxConns) else Ret tt) ;;
      do err <- call (DPing h);
      match err with
      | Some e =>
          do _ <- call (DClose h);
          Ret (Err (WrapError ("failed to ping " +:+ name) e))
      | None => Ret (Ok h)
      end
  end.

Definition open_mysql : string -> Z -> D (result Z) := open_sql "mysql".
Definition open_clickhouse : string -> Z -> D (result Z) := open_sql "clickhouse".
Definition open_oracle : string -> Z -> D (result Z) := open_sql "oracle".

Definition driver_Open (d : Driver) : string -> Z -> D (result Z) :=
  match d with
  | postgresDriver => open_postgres
  | mysqlDriver => open_mysql
  | clickhouseDriver => open_clickhouse
  | oracleDriver => open_oracle
  end.

(** ** The registry *)

Abbreviation drivers := (gmap string Driver).

(** [None] is the panic. *)
Definition Register (engine : string) (d : option Driver) (r : drivers) : option drivers :=
  match d with
  | None => None
  | Some d => match r !! engine with Some _ => None | None => Some (<[engine := d]> r) end
  end.

(** The [init] functions of the packages the program is linked with. *)
Definition linked : list Driver := [clickhouseDriver; mysqlDriver; oracleDriver; postgresDriver].

Definition registered : option drivers :=
  fold_left (fun r d => r ← r; Register (driver_name d) (Some d) r) linked (Some ∅).

(** A pool with its tracing wrapper. *)
Record tracedPool := mkTracedPool { tp_pool : Z; tp_engine : string }.

Definition Traced (pool : option Z) (engine : string) : option tracedPool :=
  match pool with
  | None => None
  | Some pool => Some (mkTracedPool pool engine)
  end.

(** A pool as its users hold it: wrapped, or as the driver made it. *)
Inductive anyPool := BarePool (h : Z) | WrappedPool (p : tracedPool).

Definition Unwrap (p : anyPool) : anyPool :=
  match p with
  | WrappedPool p => BarePool (tp_pool p)
  | BarePool _ => p
  end.

(** What was wrapped is found again, and unwrapping twice is unwrapping once. *)
Lemma Unwrap_Traced p engine : (forall h, Unwrap <$> (WrappedPool <$> Traced (Some h) engine) = Some (BarePool h)) /\ Unwrap (Unwrap p) = Unwrap p.
Proof. split; [done|]. by destruct p. Qed.

Definition OpenPool (r : drivers) (engine dsn : string) (maxConns : Z) : D (result tracedPool) :=
  match r !! engine with
  | None => Ret (Err (PlainError ("db: unknown database engine " +:+ engine)))
  | Some d =>
      do pool <- driver_Open d dsn maxConns;
      match pool with
      | Err e => Ret (Err e)
      | Ok h => Ret (Ok (mkTracedPool h engine))
      end
  end.

(** ** No connection is left open *)

Definition opened_ev (ev : event danswer) : list Z :=
  let '(existT a x) := ev in
  match a return danswer a -> list Z with
  | DOpen _ _ | DNewPool _ _ => fun x => match x with Ok h => [h] | Err _ => [] end
  | _ => fun _ => []
  end x.

Definition closed_ev (ev : event danswer) : list Z :=
  match projT1 ev with DClose h => [h] | _ => [] end.

Definition conns_opened (tr : list (event danswer)) : list Z := concat (map opened_ev tr).
Definition conns_closed (tr : list (event danswer)) : list Z := concat (map closed_ev tr).

(** What opening a pool leaves: the connection of the pool, or nothing. *)
Definition leaves (tr : list (event danswer)) (out : result Z) : Prop :=
  match out with
  | Ok h => conns_opened tr = [h] /\ conns_closed tr = []
  | Err _ => conns_opened tr = conns_closed tr
  end.

Lemma open_postgres_leaves dsn n tr out : executes (open_postgres dsn n) tr out -> leaves tr out.
Proof.
  intros (x & tr1 & -> & Hex). cbn [bind call] in Hex. destruct x as [c|e]; [|by destruct Hex as [-> ->]].
  destruct Hex as (y & tr2 & -> & Hex). cbn [bind call] in Hex. by destruct y; destruct Hex as [-> ->].
Qed.

(** Setting the limits of a handle opens and closes nothing. *)
Lemma open_sql_leaves name dsn n tr out : executes (open_sql name dsn n) tr out -> leaves tr out.
Proof.
  intros (x & tr1 & -> & Hex). cbn [bind call] in Hex. destruct x as [h|e]; [|by destruct Hex as [-> ->]].
  apply executes_bind in Hex as (tr2 & tr3 & u & -> & Hset & Hex).
  assert (conns_opened tr2 = [] /\ conns_closed tr2 = []) as [Ho Hc].
  { destruct (0 <? n); [|by destruct Hset as [-> _]]. by destruct Hset as (? & ? & -> & ? & ? & -> & -> & _). }
  destruct Hex as (y & tr4 & -> & Hex). cbn [bind call] in Hex.
  unfold leaves, conns_opened, conns_closed in *. destruct y as [e|].
  - destruct Hex as (z & tr5 & -> & -> & ->). cbn [map concat]. rewrite !map_app, !concat_app, Ho, Hc. done.
  - destruct Hex as [-> ->]. cbn [map concat]. rewrite !map_app, !concat_app, Ho, Hc. done.
Qed.

(** Opening a database pool leaks nothing: the four drivers register without a
    panic and an engine is known exactly when it is one of theirs; a pool that is
    opened is the one connection the library gave out, left open, and a failure,
    an unreachable server included, leaves no connection open. *)
Theorem pool_never_leaks :
  exists r, registered = Some r /\
    (forall engine, is_Some (r !! engine) <-> engine ∈ map driver_name linked) /\
    forall engine dsn maxConns tr out, executes (OpenPool r engine dsn maxConns) tr out ->
      match out with
      | Ok p => engine ∈ map driver_name linked /\ tp_engine p = engine /\
          conns_opened tr = [tp_pool p] /\ conns_closed tr = []
      | Err _ => conns_opened tr = conns_closed tr
      end.
Proof.
  eexists. split; [reflexivity|].
  match goal with |- context [is_Some (?r !! _)] => set (reg := r) end.
  assert (forall engine, is_Some (reg !! engine) <-> engine ∈ map driver_name linked) as Hreg.
  { intros engine. unfold reg. rewrite !lookup_insert_is_Some'. simpl. rewrite lookup_empty.
    rewrite !elem_of_cons, elem_of_nil.
    assert (is_Some (@None Driver) <-> False) as -> by (split; [by intros []|done]). naive_solver. }
  split; [exact Hreg|]. intros engine dsn maxConns tr out. unfold OpenPool.
  destruct (reg !! engine) as [d|] eqn:He; [|by intros [-> ->]].
  intros (tr1 & tr2 & o & -> & Hopen & Hex)%executes_bind.
  assert (leaves tr1 o) as Hl by (destruct d; [by eapply open_postgres_leaves|by eapply open_sql_leaves..]).
  destruct o as [h|e]; destruct Hex as [-> ->]; rewrite app_nil_r; [|done].
  split_and!; [by apply Hreg; rewrite He|done|apply Hl..].
Qed.

(** *** Limits *)

(** The limit of a Postgres pool is cut to 32 bits. *)
Lemma postgres_limit_wraps dsn config h :
  executes (open_postgres dsn (2 ^ 32 + 1))
    [existT (DParseConfig dsn) (Ok config); existT (DNewPool config (Some 1)) (Ok h)] (Ok h).
Proof. by repeat (eexists _, _; split; [done|]). Qed.
