(* ===== verification/Pools.v ===== *)
(** * Pools and row streams

    The interfaces [Pool] and [RowStream] of [internal/db/registry.go] and their four
    implementations under [internal/db/drivers]: one over pgx, three over
    [database/sql]. A pool and a result set are numbers, and scanning a row answers with
    the row or an error. What a pool promises to the code that runs statements on it -
    which result sets hold a connection - is the class [Lends]; the pools over
    [database/sql] keep it over a model of that library ([SqlDB]), the one over pgx over
    any library that behaves as pgx documents ([Pgx]). *)

From S2P Require Import Prelude Domain Prog Databases.

Open Scope Z_scope.
Open Scope dbb_scope.

(** ** The libraries *)

Inductive pgx_action :=
| PgQuery (h : Z) (sql : string) | PgPing (h : Z) | PgStat (h : Z) | PgClose (h : Z)
| PgFieldDescriptions (r : nat) | PgNext (r : nat) | PgScan (r : nat) | PgErr (r : nat) | PgRowsClose (r : nat).

Inductive sql_action :=
| QueryContext (h : Z) (sql : string) | PingContext (h : Z) | DBStats (h : Z) | DBClose (h : Z)
| SqlColumns (r : nat) | SqlNext (r : nat) | SqlScan (r : nat) | SqlErr (r : nat) | SqlRowsClose (r : nat).

Section Pools.
Context {row : Type}.

(** The statistics of pgx are 32-bit, those of [database/sql] are ints. *)
Definition pgx_answer (a : pgx_action) : Type :=
  match a with
  | PgQuery _ _ => result nat
  | PgPing _ | PgErr _ => option error
  | PgStat _ => Z * Z * Z
  | PgClose _ | PgRowsClose _ => unit
  | PgFieldDescriptions _ => list string
  | PgNext _ => bool
  | PgScan _ => result row
  end.

Definition sql_answer (a : sql_action) : Type :=
  match a with
  | QueryContext _ _ => result nat
  | PingContext _ | DBClose _ | SqlErr _ | SqlRowsClose _ => option error
  | DBStats _ => Z * Z * Z
  | SqlColumns _ => result (list string)
  | SqlNext _ => bool
  | SqlScan _ => result row
  end.

(** ** The interfaces *)

Record PoolStat := mkPoolStat { st_Open : Z; st_Idle : Z; st_InUse : Z }.

(** The methods of a pool and of the streams it opens, as programs over the calls of its
    library. *)
Record Pool {act : Type} (ans : act -> Type) := mkPool {
  Exec : Z -> string -> prog ans (result nat);
  Ping : Z -> prog ans (option error);
  Stat : Z -> prog ans PoolStat;
  Close : Z -> prog ans (option error);
  Columns : nat -> prog ans (result (list string));
  Next : nat -> prog ans bool;
  Scan : nat -> prog ans (result row);
  Err_ : nat -> prog ans (option error);
  CloseRows : nat -> prog ans (option error)
}.

(** ** The drivers *)

Definition postgresPool : Pool pgx_answer := {|
  Exec h sql :=
    do rows <- call (PgQuery h sql : pgx_action);
    match rows with Err e => Ret (Err e) | Ok r => Ret (Ok r) end;
  Ping h := call (PgPing h : pgx_action);
  Stat h := do '(total, idle, acquired) <- call (PgStat h : pgx_action); Ret (mkPoolStat total idle acquired);
  Close h := call (PgClose h : pgx_action) ;; Ret None;
  Columns r := do fields <- call (PgFieldDescriptions r : pgx_action); Ret (Ok fields);
  Next r := call (PgNext r : pgx_action);
  Scan r := call (PgScan r : pgx_action);
  Err_ r := call (PgErr r : pgx_action);
  CloseRows r := call (PgRowsClose r : pgx_action) ;; Ret None
|}.

(** The three drivers over [database/sql] have the same methods. *)
Definition sqlPool : Pool sql_answer := {|
  Exec h sql :=
    do rows <- call (QueryContext h sql : sql_action);
    match rows with Err e => Ret (Err e) | Ok r => Ret (Ok r) end;
  Ping h := call (PingContext h : sql_action);
  Stat h := do '(open, idle, inUse) <- call (DBStats h : sql_action);
            Ret (mkPoolStat (wrap32 open) (wrap32 idle) (wrap32 inUse));
  Close h := call (DBClose h : sql_action);
  Columns r := call (SqlColumns r : sql_action);
  Next r := call (SqlNext r : sql_action);
  Scan r := call (SqlScan r : sql_action);
  Err_ r := call (SqlErr r : sql_action);
  CloseRows r := call (SqlRowsClose r : sql_action)
|}.

Definition mysqlPool : Pool sql_answer := sqlPool.
Definition clickhousePool : Pool sql_answer := sqlPool.
Definition oraclePool : Pool sql_answer := sqlPool.

(** ** What a pool promises *)

(** The methods an encoder reads a stream with. *)
Inductive reader {act : Type} {ans : act -> Type} (p : Pool ans) (r : nat) : forall X : Type, prog ans X -> Prop :=
| reads_Columns : reader p r _ (Columns _ p r)
| reads_Next : reader p r _ (Next _ p r)
| reads_Scan : reader p r _ (Scan _ p r)
| reads_Err : reader p r _ (Err_ _ p r).

(** The methods of a pool that open no stream. *)
Inductive keeper {act : Type} {ans : act -> Type} (p : Pool ans) (h : Z) : forall X : Type, prog ans X -> Prop :=
| keeps_Ping : keeper p h _ (Ping _ p h)
| keeps_Stat : keeper p h _ (Stat _ p h)
| keeps_Close : keeper p h _ (Close _ p h).

(** [holding w] are the result sets that keep a connection of the library in the state
    [w], as many as the pool counts in use: a statement that is accepted opens one more,
    reading from one may give its own connection back and no other, and closing it
    does. *)
Class Lends {act : Type} {ans : act -> Type} (p : Pool ans) (W : Type) := {
  lib_exec : forall a : act, W -> ans a * W;
  lib_ok : W -> Prop;
  holding : W -> gset nat;
  lib_exec_ok a w : lib_ok w -> lib_ok (lib_exec a w).2;
  lends_Stat h w : lib_ok w -> st_InUse (eval lib_exec (Stat _ p h) w).1 = wrap32 (Z.of_nat (size (holding w)));
  lends_Exec h sql w :
    match eval lib_exec (Exec _ p h sql) w with
    | (Ok r, w') => (r ∉ holding w) /\ holding w' = {[r]} ∪ holding w
    | (Err _, w') => holding w' = holding w
    end;
  lends_keep h X (m : prog ans X) w : keeper p h X m -> holding (eval lib_exec m w).2 = holding w;
  lends_read r X (m : prog ans X) w :
    reader p r X m ->
    holding w ∖ {[r]} ⊆ holding (eval lib_exec m w).2 /\ holding (eval lib_exec m w).2 ⊆ holding w;
  lends_CloseRows r w : holding (eval lib_exec (CloseRows _ p r) w).2 = holding w ∖ {[r]}
}.

(** *** pgx *)

(** What pgx documents of the rows of a pool: a query that is accepted holds a
    connection until its rows are closed, reading them may close them, and closing them
    makes the connection ready for use again, also when they were closed before. The
    statistics count, in 32 bits, the connections that are held. *)
Class Pgx (W : Type) := {
  pgx_exec : forall a : pgx_action, W -> pgx_answer a * W;
  pgx_held : W -> gset nat;
  pgx_stat h w : (pgx_exec (PgStat h) w).1.2 = wrap32 (Z.of_nat (size (pgx_held w)));
  pgx_query h sql w :
    match pgx_exec (PgQuery h sql) w with
    | (Ok r, w') => (r ∉ pgx_held w) /\ pgx_held w' = {[r]} ∪ pgx_held w
    | (Err _, w') => pgx_held w' = pgx_held w
    end;
  pgx_keep a h w : a ∈ [PgPing h; PgStat h; PgClose h] -> pgx_held (pgx_exec a w).2 = pgx_held w;
  pgx_use a r w :
    a ∈ [PgFieldDescriptions r; PgNext r; PgScan r; PgErr r] ->
    pgx_held w ∖ {[r]} ⊆ pgx_held (pgx_exec a w).2 /\ pgx_held (pgx_exec a w).2 ⊆ pgx_held w;
  pgx_close r w : pgx_held (pgx_exec (PgRowsClose r) w).2 = pgx_held w ∖ {[r]}
}.

End Pools.

Arguments Pool row {act} ans.
Arguments Exec {row act ans} _ _ _.
Arguments Ping {row act ans} _ _.
Arguments Stat {row act ans} _ _.
Arguments Close {row act ans} _ _.
Arguments Columns {row act ans} _ _.
Arguments Next {row act ans} _ _.
Arguments Scan {row act ans} _ _.
Arguments Err_ {row act ans} _ _.
Arguments CloseRows {row act ans} _ _.
Arguments mkPool {row act ans}.
Arguments Pgx row W : clear implicits.

(** One call of a library, at the type its answer has. *)
Ltac eval_action handle a w :=
  let E := fresh in pose proof (eval_call handle a w) as E;
  first [rewrite E | cbn [pgx_answer sql_answer] in E; rewrite E]; clear E.

#[export, refine] Instance postgres_lends {row W} `{!Pgx row W} : Lends (row := row) postgresPool W := {
  lib_exec := pgx_exec;
  lib_ok _ := True;
  holding := pgx_held;
  lib_exec_ok _ _ _ := I
}.
Proof.
  - intros h w _. cbn [Stat postgresPool]. rewrite eval_bind; eval_action pgx_exec (PgStat h) w.
    pose proof (pgx_stat h w) as Hs. by destruct (pgx_exec (PgStat h) w) as [[[total idle] acquired] w'].
  - intros h sql w. cbn [Exec postgresPool]. rewrite eval_bind; eval_action pgx_exec (PgQuery h sql) w.
    pose proof (pgx_query h sql w) as Hq. by destruct (pgx_exec (PgQuery h sql) w) as [[r|e] w'].
  - intros h X m w Hm. destruct Hm; cbn [Ping Stat Close postgresPool].
    + eval_action pgx_exec (PgPing h) w. apply (pgx_keep (PgPing h) h). set_solver.
    + rewrite eval_bind. eval_action pgx_exec (PgStat h) w. pose proof (pgx_keep (PgStat h) h w) as Hk.
      destruct (pgx_exec (PgStat h) w) as [[[total idle] acquired] w']. apply Hk. set_solver.
    + rewrite eval_bind. eval_action pgx_exec (PgClose h) w. apply (pgx_keep (PgClose h) h). set_solver.
  - intros r X m w Hm. destruct Hm; cbn [Columns Next Scan Err_ postgresPool].
    + rewrite eval_bind; eval_action pgx_exec (PgFieldDescriptions r) w. apply (pgx_use (PgFieldDescriptions r)). set_solver.
    + eval_action pgx_exec (PgNext r) w. apply (pgx_use (PgNext r)). set_solver.
    + eval_action pgx_exec (PgScan r) w. apply (pgx_use (PgScan r)). set_solver.
    + eval_action pgx_exec (PgErr r) w. apply (pgx_use (PgErr r)). set_solver.
  - intros r w. cbn [CloseRows postgresPool]. rewrite eval_bind; eval_action pgx_exec (PgRowsClose r) w. apply pgx_close.
Defined.
