(* ===== verification/SqlDB.v ===== *)
(** * database/sql and the contract of the pools

    What the drivers of [internal/db/drivers] use of [database/sql], over an arbitrary
    [driver.Driver] whose statements have one result set: the counting of connections,
    result sets that hold a connection until they are closed, and their closing at the
    end of the rows. A pool over it lends its connections as [Pools.Lends] says. Module
    [DbTest] is [internal/testutil/dbtest]: a driver of two rows and the check of the
    contract, which the three pools pass. *)

From S2P Require Import Prelude Domain Prog Databases Pools.

Open Scope Z_scope.
Open Scope dbb_scope.

(** ** Drivers *)

(** What [driver.Rows.Next] answers: a row, [io.EOF], or another error. *)
Inductive next_row {V : Type} := NextRow (vals : V) | NextEOF | NextFail (e : error).
Arguments next_row V : clear implicits.

(** A connection, and the rows of a statement prepared and queried on it. *)
Record driver {V R : Type} := mkDriver {
  drv_Open : option error;
  drv_Query : string -> result R;
  drv_Columns : R -> list string;
  drv_Next : R -> next_row V * R;
  drv_Close : R -> option error
}.
Arguments driver V R : clear implicits.

Section Sql.
Context {V R row : Type} (drv : driver V R).
(** How [Scan] converts the values of a row into its destinations. *)
Context (convert : V -> result row).

Record sql_rows := mkRows {
  sr_rows : R;
  sr_closed : bool;
  sr_lasterr : option error;   (* but for [io.EOF] *)
  sr_lastcols : option V
}.

(** A handle: its limits (0 is none for open connections), the connections that are open
    and those of them that are idle, and the result sets. [released] are the result
    sets whose driver rows were closed. *)
Record DB := mkDB {
  db_maxOpen : Z;
  db_maxIdle : Z;
  db_closed : bool;
  db_numOpen : Z;
  db_idle : Z;
  db_rows : gmap nat sql_rows;
  released : list nat
}.

Definition ErrConnClosed : error := PlainError "sql: database is closed".
Definition errRowsClosed : error := PlainError "sql: Rows are closed".

Definition set_conns (numOpen idle : Z) (db : DB) : DB :=
  mkDB (db_maxOpen db) (db_maxIdle db) (db_closed db) numOpen idle (db_rows db) (released db).

Definition set_rows (r : nat) (rs : sql_rows) (db : DB) : DB :=
  mkDB (db_maxOpen db) (db_maxIdle db) (db_closed db) (db_numOpen db) (db_idle db) (<[r := rs]> (db_rows db)) (released db).

(** [DB.conn]: an idle connection, or a new one below the limit. At the limit the caller
    waits for one until its context ends. *)
Definition take_conn (db : DB) : option error * DB :=
  if db_closed db then (Some ErrConnClosed, db)
  else if 0 <? db_idle db then (None, set_conns (db_numOpen db) (db_idle db - 1) db)
  else if (0 <? db_maxOpen db) && (db_maxOpen db <=? db_numOpen db) then (Some ContextDeadlineExceeded, db)
  else match drv_Open drv with
       | Some e => (Some e, db)
       | None => (None, set_conns (db_numOpen db + 1) (db_idle db) db)
       end.

(** [DB.putConn]: a connection becomes idle, or is closed if there are enough or the
    handle is closed. *)
Definition put_conn (db : DB) : DB :=
  if db_closed db || (db_maxIdle db <=? db_idle db) then set_conns (db_numOpen db - 1) (db_idle db) db
  else set_conns (db_numOpen db) (db_idle db + 1) db.

(** [Rows.close]. *)
Definition close_rows (r : nat) (err : option error) (db : DB) : option error * DB :=
  match db_rows db !! r with
  | Some rs =>
      if sr_closed rs then (None, db)
      else
        let lasterr := match sr_lasterr rs with Some e => Some e | None => err end in
        let db := set_rows r (mkRows (sr_rows rs) true lasterr (sr_lastcols rs)) db in
        let db := mkDB (db_maxOpen db) (db_maxIdle db) (db_closed db) (db_numOpen db) (db_idle db) (db_rows db) (released db ++ [r]) in
        (drv_Close drv (sr_rows rs), put_conn db)
  | None => (None, db)
  end.

Definition new_rows (db : DB) : nat := fresh (dom (db_rows db) : gset nat).

Definition sql_Query (sql : string) (db : DB) : result nat * DB :=
  match take_conn db with
  | (Some e, db) => (Err e, db)
  | (None, db) =>
      match drv_Query drv sql with
      | Err e => (Err e, put_conn db)
      | Ok rows => (Ok (new_rows db), set_rows (new_rows db) (mkRows rows false None None) db)
      end
  end.

Definition sql_Ping (db : DB) : option error * DB :=
  match take_conn db with
  | (Some e, db) => (Some e, db)
  | (None, db) => (None, put_conn db)
  end.

(** [DB.Close]: the idle connections are closed, the others when they come back. *)
Definition sql_Close (db : DB) : option error * DB :=
  if db_closed db then (None, db)
  else (None, mkDB (db_maxOpen db) (db_maxIdle db) true (db_numOpen db - db_idle db) 0 (db_rows db) (released db)).

Definition sql_Stats (db : DB) : Z * Z * Z := (db_numOpen db, db_idle db, db_numOpen db - db_idle db).

Definition sql_Next (r : nat) (db : DB) : bool * DB :=
  match db_rows db !! r with
  | Some rs =>
      if sr_closed rs then (false, db)
      else
        let '(nx, rows) := drv_Next drv (sr_rows rs) in
        match nx with
        | NextRow vals => (true, set_rows r (mkRows rows false (sr_lasterr rs) (Some vals)) db)
        | NextEOF => (false, (close_rows r None (set_rows r (mkRows rows false (sr_lasterr rs) (sr_lastcols rs)) db)).2)
        | NextFail e => (false, (close_rows r (Some e) (set_rows r (mkRows rows false (sr_lasterr rs) (sr_lastcols rs)) db)).2)
        end
  | None => (false, db)
  end.

(** [lasterrOrErrLocked]. *)
Definition lasterr_or (e : error) (rs : sql_rows) : error := default e (sr_lasterr rs).

Definition rows_Scan (r : nat) (db : DB) : result row :=
  match db_rows db !! r with
  | Some rs =>
      if sr_closed rs then Err (lasterr_or errRowsClosed rs)
      else match sr_lastcols rs with
           | None => Err (PlainError "sql: Scan called without calling Next")
           | Some vals => convert vals
           end
  | None => Err errRowsClosed
  end.

Definition rows_Columns (r : nat) (db : DB) : result (list string) :=
  match db_rows db !! r with
  | Some rs => if sr_closed rs then Err (lasterr_or errRowsClosed rs) else Ok (drv_Columns drv (sr_rows rs))
  | None => Err errRowsClosed
  end.

Definition rows_Err (r : nat) (db : DB) : option error := db_rows db !! r ≫= sr_lasterr.

(** The actions of a pool over one handle. *)
Definition sql_step (a : sql_action) (db : DB) : sql_answer (row := row) a * DB :=
  match a with
  | QueryContext _ sql => sql_Query sql db
  | PingContext _ => sql_Ping db
  | DBStats _ => (sql_Stats db, db)
  | DBClose _ => sql_Close db
  | SqlColumns r => (rows_Columns r db, db)
  | SqlNext r => sql_Next r db
  | SqlScan r => (rows_Scan r db, db)
  | SqlErr r => (rows_Err r db, db)
  | SqlRowsClose r => close_rows r None db
  end.

Definition on_handle {A} (p : prog (sql_answer (row := row)) A) (db : DB) : A * DB := eval sql_step p db.

(** ** Connections are accounted for *)

Definition in_use (db : DB) : Z := db_numOpen db - db_idle db.
Definition open_sets (db : DB) : gmap nat sql_rows := filter (fun kv => sr_closed kv.2 = false) (db_rows db).

(** Every connection in use is that of an open result set, and the limits are kept. *)
Record conns_ok (db : DB) : Prop := {
  co_idle : 0 <= db_idle db <= Z.max 0 (db_maxIdle db);
  co_limit : 0 < db_maxOpen db -> db_numOpen db <= db_maxOpen db;
  co_use : in_use db = Z.of_nat (size (open_sets db));
  co_released : NoDup (released db) /\ forall r, r ∈ released db <-> exists rs, db_rows db !! r = Some rs /\ sr_closed rs = true
}.

(** As the record says, but for one connection that no result set holds yet. *)
Definition one_spare (db : DB) : Prop := exists db0, conns_ok db0 /\ db_rows db = db_rows db0 /\ released db = released db0 /\
  db_maxOpen db = db_maxOpen db0 /\ db_maxIdle db = db_maxIdle db0 /\ in_use db = in_use db0 + 1 /\
  0 <= db_idle db <= Z.max 0 (db_maxIdle db) /\ (0 < db_maxOpen db -> db_numOpen db <= db_maxOpen db).

Lemma take_conn_spare db db' : conns_ok db -> take_conn db = (None, db') -> one_spare db' /\ db_closed db' = db_closed db.
Proof.
  intros Hok. pose proof Hok as [Hi Hl Hu Hr]. unfold take_conn. destruct (db_closed db) eqn:Hc; [done|].
  destruct (Z.ltb_spec 0 (db_idle db)).
  - intros [= <-]. split; [|done]. exists db. split; [exact Hok|]. unfold in_use in *. simpl. split_and!; (done || lia).
  - destruct ((0 <? db_maxOpen db) && (db_maxOpen db <=? db_numOpen db)) eqn:Hm; [done|]. destruct (drv_Open drv); [done|].
    apply andb_false_iff in Hm. rewrite Z.ltb_ge, Z.leb_gt in Hm.
    intros [= <-]. split; [|done]. exists db. split; [exact Hok|]. unfold in_use in *. simpl. split_and!; (done || lia).
Qed.

Lemma take_conn_failed db e db' : take_conn db = (Some e, db') -> db' = db.
Proof. unfold take_conn. repeat case_match; by intros [= _ <-]. Qed.

Lemma put_conn_spare db : one_spare db -> conns_ok (put_conn db).
Proof.
  intros (db0 & [Hi Hl Hu Hr] & Hrows & Hrel & Hmo & Hmi & Huse & Hidle & Hlim). unfold in_use in *.
  unfold put_conn. destruct (db_closed db || (db_maxIdle db <=? db_idle db)) eqn:E.
  - split; unfold in_use, open_sets in *; simpl; rewrite ?Hrows, ?Hrel; (done || lia).
  - apply orb_false_iff in E as [_ E%Z.leb_gt]. split; unfold in_use, open_sets in *; simpl; rewrite ?Hrows, ?Hrel; (done || lia).
Qed.

Lemma open_sets_insert_open r rs (m : gmap nat sql_rows) :
  m !! r = None -> sr_closed rs = false ->
  size (filter (fun kv => sr_closed kv.2 = false) (<[r := rs]> m)) = S (size (filter (fun kv => sr_closed kv.2 = false) m)).
Proof.
  intros Hm Hc. rewrite map_filter_insert_True by done. apply map_size_insert_None.
  apply map_lookup_filter_None. by left.
Qed.

Lemma open_sets_insert_same r rs rs' (m : gmap nat sql_rows) :
  m !! r = Some rs -> sr_closed rs = false -> sr_closed rs' = false ->
  size (filter (fun kv => sr_closed kv.2 = false) (<[r := rs']> m)) = size (filter (fun kv => sr_closed kv.2 = false) m).
Proof.
  intros Hm Hc Hc'. rewrite map_filter_insert_True by done. apply map_size_insert_Some.
  exists rs. by apply map_lookup_filter_Some.
Qed.

Lemma open_sets_insert_closed r rs rs' (m : gmap nat sql_rows) :
  m !! r = Some rs -> sr_closed rs = false -> sr_closed rs' = true ->
  S (size (filter (fun kv => sr_closed kv.2 = false) (<[r := rs']> m))) = size (filter (fun kv => sr_closed kv.2 = false) m).
Proof.
  intros Hm Hc Hc'. rewrite map_filter_insert_False by (simpl; by rewrite Hc').
  rewrite map_filter_delete, map_size_delete_Some by (exists rs; by apply map_lookup_filter_Some).
  assert (size (filter (fun kv => sr_closed kv.2 = false) m) <> 0)%nat; [|lia].
  intros H%map_size_empty_inv. assert (filter (fun kv => sr_closed kv.2 = false) m !! r = Some rs) as Hl by (by apply map_lookup_filter_Some).
  by rewrite H in Hl.
Qed.

(** Going on with an open result set. *)
Lemma set_rows_ok r rs rs' db :
  conns_ok db -> db_rows db !! r = Some rs -> sr_closed rs = false -> sr_closed rs' = false -> conns_ok (set_rows r rs' db).
Proof.
  intros [Hi Hl Hu [Hnd Hr]] Hm Hc Hc'. split; simpl; try done.
  - unfold in_use, open_sets in *. simpl. by rewrite (open_sets_insert_same _ rs).
  - split; [done|]. intros r'. rewrite Hr. destruct (decide (r' = r)) as [->|Hne].
    + rewrite lookup_insert_eq. naive_solver congruence.
    + by rewrite lookup_insert_ne.
Qed.

Lemma close_rows_ok r err db : conns_ok db -> conns_ok (close_rows r err db).2.
Proof.
  intros Hok. pose proof Hok as [Hi Hl Hu [Hnd Hr]]. unfold close_rows. destruct (db_rows db !! r) as [rs|] eqn:Hm; [|done].
  destruct (sr_closed rs) eqn:Hc; [done|]. cbv zeta. cbn [snd]. set (rs' := mkRows _ true _ _).
  pose proof (open_sets_insert_closed r rs rs' (db_rows db) Hm Hc eq_refl) as Hsize.
  apply put_conn_spare. exists (mkDB (db_maxOpen db) (db_maxIdle db) (db_closed db) (db_numOpen db - 1) (db_idle db)
    (<[r := rs']> (db_rows db)) (released db ++ [r])).
  split; [|unfold in_use in *; simpl; split_and!; (done || lia)].
  split; unfold in_use, open_sets in *; simpl; try (done || lia). split.
  - apply NoDup_app. split; [done|]. split; [|apply NoDup_singleton]. intros x Hx ->%list_elem_of_singleton.
    apply Hr in Hx. naive_solver congruence.
  - intros r'. rewrite elem_of_app, list_elem_of_singleton, Hr. destruct (decide (r' = r)) as [->|Hne].
    + rewrite lookup_insert_eq. split; [eauto|by right].
    + rewrite lookup_insert_ne by done. naive_solver.
Qed.

Lemma sql_Next_ok r db : conns_ok db -> conns_ok (sql_Next r db).2.
Proof.
  intros Hok. unfold sql_Next. destruct (db_rows db !! r) as [rs|] eqn:Hm; [|done]. destruct (sr_closed rs) eqn:Hc; [done|].
  destruct (drv_Next drv (sr_rows rs)) as [[vals| |e] rows]; [|apply close_rows_ok|apply close_rows_ok];
    by apply (set_rows_ok r rs).
Qed.

Lemma sql_Query_ok sql db : conns_ok db -> conns_ok (sql_Query sql db).2.
Proof.
  intros Hok. unfold sql_Query. destruct (take_conn db) as [[e|] db1] eqn:Ht; [by apply take_conn_failed in Ht as ->|].
  apply take_conn_spare in Ht as [Hs _]; [|done]. destruct (drv_Query drv sql) as [rows|e]; [|by apply put_conn_spare].
  assert (db_rows db1 !! new_rows db1 = None) as Hn by (apply not_elem_of_dom; unfold new_rows; apply is_fresh).
  destruct Hs as (db0 & [Hi Hl Hu [Hnd Hr]] & Hrows & Hrel & Hmo & Hmi & Huse & Hidle & Hlim). cbn [snd].
  split; unfold in_use, open_sets in *; simpl; try (done || lia).
  - rewrite open_sets_insert_open by done. rewrite Hrows. lia.
  - rewrite Hrel. split; [done|]. intros r. rewrite Hr, <- Hrows. destruct (decide (r = new_rows db1)) as [->|Hne].
    + rewrite lookup_insert_eq, Hn. naive_solver.
    + by rewrite lookup_insert_ne.
Qed.

Lemma sql_step_ok a db : conns_ok db -> conns_ok (sql_step a db).2.
Proof.
  intros Hok. destruct a; cbn [sql_step snd]; try done; auto using sql_Query_ok, sql_Next_ok, close_rows_ok.
  - unfold sql_Ping. destruct (take_conn db) as [[e|] db1] eqn:Ht; [by apply take_conn_failed in Ht as ->|].
    apply take_conn_spare in Ht as [Hs _]; [|done]. by apply put_conn_spare.
  - unfold sql_Close. destruct (db_closed db); [done|]. destruct Hok as [Hi Hl Hu Hr].
    split; unfold in_use, open_sets in *; simpl; (done || lia).
Qed.

(** ** The connections of the result sets *)

Definition held (db : DB) : gset nat := dom (open_sets db).

Lemma elem_of_held r db : r ∈ held db <-> exists rs, db_rows db !! r = Some rs /\ sr_closed rs = false.
Proof. unfold held, open_sets. rewrite elem_of_dom. unfold is_Some. by setoid_rewrite map_lookup_filter_Some. Qed.

Lemma held_rows db db' : db_rows db' = db_rows db -> held db' = held db.
Proof. unfold held, open_sets. by intros ->. Qed.

Lemma put_conn_rows db : db_rows (put_conn db) = db_rows db.
Proof. unfold put_conn. by case_match. Qed.

Lemma take_conn_rows db : db_rows (take_conn db).2 = db_rows db.
Proof. unfold take_conn. by repeat case_match. Qed.

(** A result set that is written is held exactly if it is open. *)
Lemma held_insert r rs db : held (set_rows r rs db) = if sr_closed rs then held db ∖ {[r]} else {[r]} ∪ held db.
Proof.
  apply set_eq. intros x. rewrite elem_of_held. cbn [set_rows db_rows]. destruct (decide (x = r)) as [->|Hne].
  - rewrite lookup_insert_eq. destruct (sr_closed rs) eqn:Hc.
    + split; [naive_solver congruence|]. by intros [_ ?%not_elem_of_singleton]%elem_of_difference.
    + split; [|by eauto]. intros _. apply elem_of_union_l. by apply elem_of_singleton.
  - rewrite lookup_insert_ne by done. rewrite <- elem_of_held. destruct (sr_closed rs); set_solver.
Qed.

Lemma close_rows_held r err db : held (close_rows r err db).2 = held db ∖ {[r]}.
Proof.
  assert (r ∉ held db -> held db = held db ∖ {[r]}) as Hnot by set_solver. unfold close_rows.
  destruct (db_rows db !! r) as [rs|] eqn:Hm; [destruct (sr_closed rs) eqn:Hc|].
  - apply Hnot. rewrite elem_of_held. naive_solver congruence.
  - cbn [snd]. rewrite (held_rows _ _ (put_conn_rows _)). exact (held_insert r (mkRows _ true _ _) db).
  - apply Hnot. rewrite elem_of_held. naive_solver congruence.
Qed.

Lemma sql_Next_held r db : held db ∖ {[r]} ⊆ held (sql_Next r db).2 /\ held (sql_Next r db).2 ⊆ held db.
Proof.
  unfold sql_Next. destruct (db_rows db !! r) as [rs|] eqn:Hm; [|set_solver]. destruct (sr_closed rs) eqn:Hc; [set_solver|].
  assert (r ∈ held db) as Hr by (apply elem_of_held; eauto).
  destruct (drv_Next drv (sr_rows rs)) as [[vals| |e] rows]; cbn [snd];
    rewrite ?close_rows_held, held_insert; cbn [sr_closed]; set_solver.
Qed.

Lemma sql_Query_held sql db :
  match sql_Query sql db with
  | (Ok r, db') => (r ∉ held db) /\ held db' = {[r]} ∪ held db
  | (Err _, db') => held db' = held db
  end.
Proof.
  unfold sql_Query. pose proof (take_conn_rows db) as Hrows. destruct (take_conn db) as [[e|] db1]; cbn [snd] in Hrows.
  - by apply held_rows.
  - destruct (drv_Query drv sql) as [rows|e]; [|by apply held_rows; rewrite put_conn_rows].
    rewrite held_insert. cbn [sr_closed]. rewrite (held_rows _ _ Hrows). split; [|done].
    rewrite <- (held_rows _ _ Hrows), elem_of_held. intros (rs & Hm & _).
    apply (is_fresh (dom (db_rows db1) : gset nat)), elem_of_dom. by exists rs.
Qed.

Lemma sql_Ping_held db : held (sql_Ping db).2 = held db.
Proof.
  apply held_rows. pose proof (take_conn_rows db) as Hrows. unfold sql_Ping.
  destruct (take_conn db) as [[e|] db1]; cbn [snd] in *; by rewrite ?put_conn_rows.
Qed.

(** The pools over [database/sql] lend its connections, within the limits of the
    handle. *)
#[export, refine] Instance sql_lends : Lends sqlPool DB := {
  lib_exec := sql_step;
  lib_ok := conns_ok;
  holding := held;
  lib_exec_ok := sql_step_ok
}.
Proof.
  - intros h db Hok. cbn [Stat sqlPool]. rewrite eval_bind. eval_action sql_step (DBStats h) db.
    cbn [sql_step sql_Stats fst snd]. unfold held. rewrite size_dom, <- (co_use _ Hok). done.
  - intros h sql db. cbn [Exec sqlPool]. rewrite eval_bind. eval_action sql_step (QueryContext h sql) db.
    cbn [sql_step]. pose proof (sql_Query_held sql db) as Hq. by destruct (sql_Query sql db) as [[r|e] db'].
  - intros h X m db Hm. destruct Hm; cbn [Ping Stat Close sqlPool].
    + eval_action sql_step (PingContext h) db. apply sql_Ping_held.
    + rewrite eval_bind. by eval_action sql_step (DBStats h) db.
    + eval_action sql_step (DBClose h) db. apply held_rows. cbn [sql_step]. unfold sql_Close. by case_match.
  - intros r X m db Hm. destruct Hm; cbn [Columns Next Scan Err_ sqlPool].
    + eval_action sql_step (SqlColumns r) db. set_solver.
    + eval_action sql_step (SqlNext r) db. apply sql_Next_held.
    + eval_action sql_step (SqlScan r) db. set_solver.
    + eval_action sql_step (SqlErr r) db. set_solver.
  - intros r db. cbn [CloseRows sqlPool]. eval_action sql_step (SqlRowsClose r) db. apply close_rows_held.
Defined.

End Sql.

(** ** The test driver and the contract check *)

Module DbTest.

Inductive value := VInt (n : Z) | VText (s : string).

#[export] Instance value_eq_dec : EqDecision value.
Proof. solve_decision. Defined.

Definition failingQuery : string := "SELECT boom".
Definition fakeColumns : list string := ["id"; "name"].
Definition fakeRows : list (list value) := [[VInt 1; VText "alice"]; [VInt 2; VText "bob"]].
Definition errBoom : error := PlainError "dbtest: the fake result set broke".

Record fakeResultRows := mkFake { pos : nat; fails : bool }.

Definition fake_Next (r : fakeResultRows) : next_row (list value) * fakeResultRows :=
  if fails r && bool_decide (pos r = 1%nat) then (NextFail errBoom, r)
  else match fakeRows !! pos r with
       | None => (NextEOF, r)
       | Some vals => (NextRow vals, mkFake (S (pos r)) (fails r))
       end.

(** [fakeDriver] with its connections and statements. *)
Definition fakeDriver : driver (list value) fakeResultRows := {|
  drv_Open := None;
  drv_Query query := Ok (mkFake 0 (bool_decide (query = failingQuery)));
  drv_Columns _ := fakeColumns;
  drv_Next := fake_Next;
  drv_Close _ := None
|}.

(** [Scan(&id, &name)] of an [int64] and a [string]. *)
Definition scan_pair (vals : list value) : result (Z * string) :=
  match vals with [VInt id; VText name] => Ok (id, name) | _ => Err (PlainError "sql: Scan error") end.

(** [sql.Open] connects to nothing yet and keeps two idle connections. *)
Definition OpenFakeDB : DB (V := list value) (R := fakeResultRows) := mkDB 0 2 false 0 0 ∅ [].

Abbreviation pool := (Pool (Z * string) sql_answer).

Definition on {A} (p : prog sql_answer A) (db : DB) : A * DB := on_handle fakeDriver scan_pair p db.

(** [t.Errorf] and [t.Fatalf] unless a condition holds: the failures reported. *)
Definition errorf (ok : bool) (msg : string) (rest : list string) : list string := (if ok then [] else [msg]) ++ rest.
Definition fatalf (ok : bool) (msg : string) (rest : list string) : list string := if ok then rest else [msg].

#[export] Instance PoolStat_eq_dec : EqDecision PoolStat.
Proof. solve_decision. Defined.

Definition no_error (e : option error) : bool := match e with None => true | Some _ => false end.

(** [errors.Is(err, errBoom)] for the error as it is. *)
Definition is_boom (e : option error) : bool :=
  match e with Some (PlainError msg) => bool_decide (msg = Error errBoom) | _ => false end.

Definition check_Stat (p : pool) : list string :=
  let '(got, db) := on (Stat p 0) OpenFakeDB in
  fatalf (bool_decide (got = mkPoolStat 0 0 0)) "Stat on an unused pool"
    (match take_conn fakeDriver db with
     | (Some _, _) => ["check out a connection"]
     | (None, db) =>
         let '(held, db) := on (Stat p 0) db in
         let '(back, _) := on (Stat p 0) (put_conn db) in
         errorf (bool_decide (held = mkPoolStat 1 0 1)) "Stat while a connection is held"
           (errorf (bool_decide (back = mkPoolStat 1 1 0)) "Stat after the connection went back" [])
     end).

Definition check_Ping (p : pool) : list string := errorf (no_error (on (Ping p 0) OpenFakeDB).1) "Ping" [].

(** [for rows.Next()], with [Scan] or without it: the rows, whether one did not scan, and
    whether the loop came to its end. *)
Fixpoint loop_rows (p : pool) (scan : bool) (r : nat) (fuel : nat) (got : list (Z * string)) (db : DB) : list (Z * string) * option error * bool * DB :=
  match fuel with
  | O => (got, None, false, db)
  | S fuel =>
      let '(more, db) := on (Next p r) db in
      if negb more then (got, None, true, db)
      else if negb scan then loop_rows p scan r fuel got db
      else let '(x, db) := on (Scan p r) db in
           match x with
           | Ok x => loop_rows p scan r fuel (got ++ [x]) db
           | Err e => (got, Some e, true, db)
           end
  end.

Definition check_rows (p : pool) : list string :=
  match on (Exec p 0 "SELECT id, name FROM t") OpenFakeDB with
  | (Err _, _) => ["Exec"]
  | (Ok r, db) =>
      match on (Columns p r) db with
      | (Err _, _) => ["Columns"]
      | (Ok cols, db) =>
          errorf (bool_decide (cols = fakeColumns)) "Columns"
            (let '(got, scanErr, ended, db) := loop_rows p true r 4 [] db in
             fatalf (ended && no_error scanErr) "Scan"
               (let '(err, db) := on (Err_ p r) db in
                errorf (no_error err) "Err after a clean iteration"
                  (fatalf (bool_decide (length got = length fakeRows)) "rows read"
                     (errorf (bool_decide (map (fun x => [VInt x.1; VText x.2]) got = fakeRows)) "row"
                        (let '(c1, db) := on (CloseRows p r) db in
                         let '(c2, _) := on (CloseRows p r) db in
                         errorf (no_error c1) "Close" (errorf (no_error c2) "second Close" []))))))
      end
  end.

Definition check_broken (p : pool) : list string :=
  match on (Exec p 0 failingQuery) OpenFakeDB with
  | (Err _, _) => ["Exec"]
  | (Ok r, db) =>
      let '(_, _, ended, db) := loop_rows p false r 4 [] db in
      fatalf ended "Next"
        (let '(err, db) := on (Err_ p r) db in
         let '(c, _) := on (CloseRows p r) db in
         errorf (is_boom err) "Err" (errorf (no_error c) "Close after a broken result set" []))
  end.

Definition check_close (p : pool) : list string :=
  let '(c1, db) := on (Close p 0) OpenFakeDB in
  fatalf (no_error c1) "Close"
    (let '(c2, db) := on (Close p 0) db in
     errorf (no_error c2) "second Close"
       (errorf (match (on (Exec p 0 "SELECT 1") db).1 with Err _ => true | Ok _ => false end) "Exec on a closed pool" [])).

(** The failures of the whole check. *)
Definition CheckSQLPool (p : pool) : list string :=
  check_Stat p ++ check_Ping p ++ check_rows p ++ check_broken p ++ check_close p.

(** The three drivers over [database/sql] keep the contract of [db.Pool] the tests check,
    and a pool that reports idle connections as used ones does not. *)
Lemma sql_pools_pass : Forall (fun p => CheckSQLPool p = []) [mysqlPool; clickhousePool; oraclePool].
Proof. repeat constructor; by vm_compute. Qed.

Definition swapped_stat : pool :=
  mkPool (Exec sqlPool) (Ping sqlPool)
    (fun h => do s <- Stat sqlPool h; Ret (mkPoolStat (st_Open s) (st_InUse s) (st_Idle s)))
    (Close sqlPool) (Columns sqlPool) (Next sqlPool) (Scan sqlPool) (Err_ sqlPool) (CloseRows sqlPool).

Lemma swapped_stat_found :
  CheckSQLPool swapped_stat = ["Stat while a connection is held"; "Stat after the connection went back"].
Proof. by vm_compute. Qed.

Lemma OpenFakeDB_ok : conns_ok OpenFakeDB.
Proof. split; [vm_compute; split; discriminate|done|done|]. split; [constructor|]. intros r. rewrite elem_of_nil. naive_solver. Qed.

End DbTest.
