(* ===== verification/Harness.v ===== *)
(** * Test support

    The fakes the tests of the repository stand on ([internal/testutil/harness.go]): a
    driver whose pools answer every statement with two rows, one whose pools wait for
    the end of the context, and one that opens nothing; and the helpers that look for
    spans ([internal/testutil/tracing.go]). Where Go would panic the result is [None].
    (The suite for pools over [database/sql] is [SqlDB.DbTest].) *)

From S2P Require Import Prelude Domain Utf8 Text Json RecordJson Rows Parquet Prog Encoder Pools.

Open Scope Z_scope.
Open Scope dbb_scope.

(** ** Rows *)

Section Fakes.
Context {other : Type}.

Record fakeRowStream := mkFakeRows { frs_cols : list string; frs_rows : list (list (cell other)); frs_pos : Z }.

Definition frs_Columns (s : fakeRowStream) : result (list string) := Ok (frs_cols s).

Definition frs_Next (s : fakeRowStream) : bool * fakeRowStream :=
  let s := mkFakeRows (frs_cols s) (frs_rows s) (frs_pos s + 1) in
  (frs_pos s <? Z.of_nat (length (frs_rows s)), s).

(** A destination of a scan: a pointer to a value of any type, with the value, or
    something else. *)
Inductive dest := AnyPtr (v : cell other) | OtherPtr.

Fixpoint scan_dests (row : list (cell other)) (dests : list dest) : option (list dest) :=
  match dests with
  | [] => Some []
  | AnyPtr _ :: dests => v ← head row; rest ← scan_dests (tail row) dests; Some (AnyPtr v :: rest)
  | OtherPtr :: dests => rest ← scan_dests (tail row) dests; Some (OtherPtr :: rest)
  end.

Definition frs_Scan (dests : list dest) (s : fakeRowStream) : option (list dest) :=
  if frs_pos s <? 0 then None else row ← frs_rows s !! Z.to_nat (frs_pos s); scan_dests row dests.

Definition frs_Err (s : fakeRowStream) : option error := None.
Definition frs_Close (s : fakeRowStream) : option error := None.

(** ** Drivers and pools *)

Inductive testDriver := FakeDriver | FailToOpenDriver | SlowDriver.
Inductive testPool := fakePool | slowPool.

Definition FakeDriver_Open (dsn : string) (maxConns : Z) : result testPool := Ok fakePool.
Definition FailToOpenDriver_Open (dsn : string) (maxConns : Z) : result testPool :=
  Err (PlainError ("connection refused: " +:+ dsn)).
Definition SlowDriver_Open (dsn : string) (maxConns : Z) : result testPool := Ok slowPool.

Definition test_Open (d : testDriver) : string -> Z -> result testPool :=
  match d with
  | FakeDriver => FakeDriver_Open
  | FailToOpenDriver => FailToOpenDriver_Open
  | SlowDriver => SlowDriver_Open
  end.

Definition fake_rows : fakeRowStream :=
  mkFakeRows ["id"; "name"] [[VInt KInt64 1; VString "alice"]; [VInt KInt64 2; VString "bob"]] (-1).

Definition fakePool_Exec (ctx : option error) (sql : string) : option (result fakeRowStream) := Some (Ok fake_rows).

(** [ctx] is the error of the context once it is done; a call that waits has no
    result yet. *)
Definition slowPool_Exec (ctx : option error) (sql : string) : option (result fakeRowStream) := Err <$> ctx.

Definition test_Exec (p : testPool) : option error -> string -> option (result fakeRowStream) :=
  match p with
  | fakePool => fakePool_Exec
  | slowPool => slowPool_Exec
  end.

(** The other methods are the same for both. *)
Definition test_Ping (p : testPool) : option error := None.
Definition test_Stat (p : testPool) : PoolStat := mkPoolStat 0 0 0.
Definition test_Close (p : testPool) : option error := None.

(** ** Reading the fake rows *)

(** A reader as the encoders are: [n] destinations of any type, row by row. *)
Definition values_of (dests : list dest) : list (cell other) := omap (fun d => match d with AnyPtr v => Some v | OtherPtr => None end) dests.

Fixpoint read_rows (fuel n : nat) (s : fakeRowStream) : option (list (list (cell other)) * option error) :=
  match fuel with
  | O => None
  | S fuel =>
      let '(more, s) := frs_Next s in
      if negb more then Some ([], frs_Err s)
      else
        dests ← frs_Scan (replicate n (AnyPtr VNil)) s;
        '(rows, err) ← read_rows fuel n s;
        Some (values_of dests :: rows, err)
  end.

Lemma scan_dests_row row n : (n <= length row)%nat ->
  scan_dests row (replicate n (AnyPtr VNil)) = Some (map AnyPtr (take n row)).
Proof.
  revert row. induction n as [|n IH]; intros [|v row] Hn; cbn in *; [done..|lia|]. by rewrite IH by lia.
Qed.

Lemma values_of_any vs : values_of (map AnyPtr vs) = vs.
Proof. induction vs as [|v vs IH]; [done|]. unfold values_of in *. cbn. by rewrite IH. Qed.

(** A stream of rows that are wide enough is read to its end without a panic: each row
    once, in order, cut to the destinations, and no error. *)
Lemma fake_rows_read cols n rows fuel :
  Forall (fun row => n <= length row)%nat rows -> (length rows < fuel)%nat ->
  read_rows fuel n (mkFakeRows cols rows (-1)) = Some (map (take n) rows, None).
Proof.
  intros Hrows. assert (forall k fuel, (k <= length rows)%nat -> (length rows - k < fuel)%nat ->
    read_rows fuel n (mkFakeRows cols rows (Z.of_nat k - 1)) = Some (map (take n) (drop k rows), None)) as Hfrom.
  { intros k f Hk. remember (length rows - k)%nat as left eqn:Hl. revert k f Hk Hl. induction left as [|left IH]; intros k f Hk Hl Hf.
    all: destruct f as [|f]; [lia|]; cbn [read_rows frs_Next frs_cols frs_rows frs_pos]; cbv zeta iota.
    all: replace (Z.of_nat k - 1 + 1) with (Z.of_nat k) by lia.
    - rewrite (proj2 (Z.ltb_ge _ _)) by lia. by rewrite drop_ge by lia.
    - rewrite (proj2 (Z.ltb_lt _ _)) by lia. cbn [negb]. unfold frs_Scan. cbn [frs_pos frs_rows].
      rewrite (proj2 (Z.ltb_ge _ _)) by lia. rewrite Nat2Z.id. destruct (lookup_lt_is_Some_2 rows k) as [row Hrow]; [lia|].
      rewrite Hrow. cbn [mbind option_bind]. rewrite scan_dests_row by (eapply Forall_lookup in Hrows; eauto). cbn [mbind option_bind].
      replace (Z.of_nat k) with (Z.of_nat (S k) - 1) by lia. rewrite IH by lia. cbn [mbind option_bind].
      rewrite values_of_any. by rewrite (drop_S _ _ _ Hrow). }
  intros Hf. apply (Hfrom 0%nat fuel); lia.
Qed.

(** A scan before the first row, or after the last, panics. *)
Lemma fake_scan_outside cols rows dests :
  frs_Scan dests (mkFakeRows cols rows (-1)) = None /\ frs_Scan dests (mkFakeRows cols rows (Z.of_nat (length rows))) = None.
Proof.
  split; [done|]. unfold frs_Scan. cbn [frs_pos frs_rows]. rewrite (proj2 (Z.ltb_ge _ _)) by lia.
  rewrite Nat2Z.id. by rewrite lookup_ge_None_2.
Qed.

(** A statement on the slow database ends exactly when its context does, and with its
    error; one on the fast database returns the rows whatever it is. *)
Lemma test_pools_answer ctx sql :
  (test_Exec slowPool ctx sql = None <-> ctx = None) /\ (forall e, ctx = Some e -> test_Exec slowPool ctx sql = Some (Err e)) /\
  test_Exec fakePool ctx sql = Some (Ok fake_rows).
Proof. split_and!; [by destruct ctx|by intros e ->|done]. Qed.

End Fakes.

(** ** Spans *)

Record ReadOnlySpan := mkSpan { span_Name : string; span_TraceID : Z; span_SpanID : Z; span_Parent : Z }.

Definition spanWait : Z := 10 * Second.

Definition SpanNames (ended : list ReadOnlySpan) : list string := map span_Name ended.

Inductive span_result := SpanFound (s : ReadOnlySpan) | NoSpan (recorded : list string) | ManySpans (n : nat).

(** What one turn of the loop sees: the spans that ended, and the clock; after the loop
    the recorder is read once more for the message. *)
Definition named (name : string) (ended : list ReadOnlySpan) : list ReadOnlySpan :=
  List.filter (fun s => bool_decide (span_Name s = name)) ended.

Fixpoint find_span (name : string) (deadline : time) (turns : list (list ReadOnlySpan * time)) (later : list ReadOnlySpan)
  : option span_result :=
  match turns with
  | [] => None
  | (ended, now) :: turns =>
      let found := named name ended in
      if bool_decide (0 < length found)%nat || (deadline <? now) then
        Some match found with
             | [s] => SpanFound s
             | [] => NoSpan (SpanNames later)
             | _ => ManySpans (length found)
             end
      else find_span name deadline turns later
  end.

Definition SpanByName (name : string) (start : time) (turns : list (list ReadOnlySpan * time)) (later : list ReadOnlySpan)
  : option span_result :=
  find_span name (start + spanWait) turns later.

(** The failures [RequireChildOf] reports, with what their texts are made of. *)
Inductive child_failure :=
| HasParent (child : string) (got want : Z) (parent : string)
| IsInTrace (child : string) (got want : Z) (parent : string).

Definition RequireChildOf (child parent : ReadOnlySpan) : list child_failure :=
  (if negb (span_Parent child =? span_SpanID parent)
   then [HasParent (span_Name child) (span_Parent child) (span_SpanID parent) (span_Name parent)] else []) ++
  (if negb (span_TraceID child =? span_TraceID parent)
   then [IsInTrace (span_Name child) (span_TraceID child) (span_TraceID parent) (span_Name parent)] else []).

(** The search stops at the first moment a span of that name has ended, or at the
    deadline: until then none had. It answers with a span only if that was the one span
    with the name, and gives up only after the deadline. *)
Lemma SpanByName_spec name start turns later :
  let waiting '(ended, now) := named name ended = [] /\ now <= start + spanWait in
  match SpanByName name start turns later with
  | None => Forall waiting turns
  | Some r => exists before ended now rest, turns = before ++ (ended, now) :: rest /\ Forall waiting before /\
      match r with
      | SpanFound s => named name ended = [s] /\ s ∈ ended /\ span_Name s = name
      | NoSpan recorded => named name ended = [] /\ start + spanWait < now /\ recorded = SpanNames later
      | ManySpans n => n = length (named name ended) /\ (1 < n)%nat
      end
  end.
Proof.
  cbv zeta. unfold SpanByName. generalize (start + spanWait). intros deadline.
  induction turns as [|[ended now] turns IH]; [constructor|]. cbn [find_span].
  destruct (bool_decide_reflect (0 < length (named name ended))%nat) as [Hf|Hf]; cbn [orb].
  - exists [], ended, now, turns. split_and!; [done..|]. destruct (named name ended) as [|s [|s' l]] eqn:Hn; cbn in Hf; [lia| |split; [done|cbn; lia]].
    assert (s ∈ named name ended) as Hin by (rewrite Hn; by left). unfold named in Hin.
    apply list_elem_of_In, filter_In in Hin as [Hin ->%bool_decide_eq_true]. by split_and!; [|apply list_elem_of_In|].
  - assert (named name ended = []) as Hn by (destruct (named name ended); [done|cbn in Hf; lia]). rewrite Hn.
    destruct (Z.ltb_spec deadline now).
    + by exists [], ended, now, turns.
    + destruct (find_span name deadline turns later) as [r|]; [|by constructor].
      destruct IH as (before & e & l & rest & -> & Hb & Hr). exists ((ended, now) :: before), e, l, rest.
      split_and!; [done|by constructor|done].
Qed.

(** A child passes exactly when it has that parent, in the same trace. *)
Lemma RequireChildOf_spec child parent :
  RequireChildOf child parent = [] <-> span_Parent child = span_SpanID parent /\ span_TraceID child = span_TraceID parent.
Proof.
  unfold RequireChildOf. destruct (Z.eqb_spec (span_Parent child) (span_SpanID parent)), (Z.eqb_spec (span_TraceID child) (span_TraceID parent));
    cbn; naive_solver.
Qed.
