(* ===== verification/Certs.v ===== *)
(** * Certificates

    [internal/transport/certs/reloader.go]: the pair a listener serves, read again
    when a file has changed. The files and the parser of key pairs are the
    environment; each block that holds the lock is one step on the pair. *)

From S2P Require Import Prelude Domain Prog.

Open Scope Z_scope.
Open Scope dbb_scope.

(** A certificate is a number that stands for it. *)
Inductive taction := TStat (file : string) | TLoad (certFile keyFile : string).

Definition tanswer (a : taction) : Type :=
  match a with TStat _ => result time | TLoad _ _ => result Z end.

Abbreviation T A := (prog tanswer A).

Record Reloader := mkReloader {
  certFile : string;
  keyFile : string;
  cert : option Z;
  certMod : time;
  keyMod : time
}.

Definition reload (r : Reloader) : T (option error * Reloader) :=
  do certInfo <- call (TStat (certFile r));
  match certInfo with
  | Err e => Ret (Some (WrapError "failed to stat the TLS certificate" e), r)
  | Ok cm =>
      do keyInfo <- call (TStat (keyFile r));
      match keyInfo with
      | Err e => Ret (Some (WrapError "failed to stat the TLS key" e), r)
      | Ok km =>
          do pair <- call (TLoad (certFile r) (keyFile r));
          match pair with
          | Err e => Ret (Some (WrapError "failed to load the TLS key pair" e), r)
          | Ok c => Ret (None, mkReloader (certFile r) (keyFile r) (Some c) cm km)
          end
      end
  end.

Definition NewReloader (certFile keyFile : string) : T (result Reloader) :=
  do '(err, r) <- reload (mkReloader certFile keyFile None zero_time zero_time);
  match err with
  | Some e => Ret (Err e)
  | None => Ret (Ok r)
  end.

Definition changed (r : Reloader) : T bool :=
  do certInfo <- call (TStat (certFile r));
  match certInfo with
  | Err _ => Ret false
  | Ok cm =>
      do keyInfo <- call (TStat (keyFile r));
      match keyInfo with
      | Err _ => Ret false
      | Ok km => Ret (negb (cm =? certMod r) || negb (km =? keyMod r))
      end
  end.

(** The certificate a handshake gets; [Ok None] would be a handshake without one. *)
Definition getCertificate (r : Reloader) : T (result (option Z) * Reloader) :=
  do ch <- changed r;
  if ch then
    do '(err, r) <- reload r;
    match err with
    | Some e =>
        match cert r with
        | Some c => Ret (Ok (Some c), r)
        | None => Ret (Err e, r)
        end
    | None => Ret (Ok (cert r), r)
    end
  else Ret (Ok (cert r), r).

(** A sequence of handshakes, with what each of them got. *)
Fixpoint handshakes (n : nat) (r : Reloader) : T (list (result (option Z)) * Reloader) :=
  match n with
  | O => Ret ([], r)
  | S n =>
      do '(out, r) <- getCertificate r;
      do '(outs, r) <- handshakes n r;
      Ret (out :: outs, r)
  end.

(** The pairs that were loaded, in order. *)
Definition loaded_ev (ev : event tanswer) : list Z :=
  let '(existT a x) := ev in
  match a return tanswer a -> list Z with
  | TLoad _ _ => fun x => match x with Ok c => [c] | Err _ => [] end
  | TStat _ => fun _ => []
  end x.

Definition loaded (tr : list (event tanswer)) : list Z := concat (map loaded_ev tr).

Lemma loaded_app tr1 tr2 : loaded (tr1 ++ tr2) = loaded tr1 ++ loaded tr2.
Proof. unfold loaded. by rewrite map_app, concat_app. Qed.

(** The pair in hand is always the one loaded last. *)
Definition in_hand (c : option Z) (tr : list (event tanswer)) : option Z :=
  match list.last (loaded tr) with Some c' => Some c' | None => c end.

Lemma in_hand_app c tr1 tr2 : in_hand c (tr1 ++ tr2) = in_hand (in_hand c tr1) tr2.
Proof.
  unfold in_hand. rewrite loaded_app, last_app. by destruct (list.last (loaded tr2)).
Qed.

Lemma reload_spec r tr err r' :
  executes (reload r) tr (err, r') ->
  cert r' = in_hand (cert r) tr /\ (err = None -> exists c, cert r' = Some c) /\
  (err <> None -> r' = r).
Proof.
  intros (x & tr1 & -> & Hex). cbn [bind call] in Hex. destruct x as [cm|e]; [|by destruct Hex as [-> [= -> ->]]].
  destruct Hex as (x & tr2 & -> & Hex). cbn [bind call] in Hex. destruct x as [km|e]; [|by destruct Hex as [-> [= -> ->]]].
  destruct Hex as (x & tr3 & -> & Hex). cbn [bind call] in Hex.
  destruct x as [c|e]; destruct Hex as [-> [= -> ->]]; split_and!; try done. intros _. by exists c.
Qed.

Lemma changed_loads r tr b : executes (changed r) tr b -> loaded tr = [].
Proof.
  intros (x & tr1 & -> & Hex). cbn [bind call] in Hex. destruct x as [cm|e]; [|by destruct Hex as [-> _]].
  destruct Hex as (x & tr2 & -> & Hex). cbn [bind call] in Hex. by destruct x; destruct Hex as [-> _].
Qed.

Lemma getCertificate_spec r tr out r' :
  executes (getCertificate r) tr (out, r') -> cert r <> None ->
  out = Ok (cert r') /\ cert r' = in_hand (cert r) tr /\ cert r' <> None.
Proof.
  intros (tr1 & tr2 & ch & -> & Hc & Hex)%executes_bind Hr. apply changed_loads in Hc.
  rewrite in_hand_app. unfold in_hand at 2. rewrite Hc. simpl.
  destruct ch; [|by destruct Hex as [-> [= -> ->]]].
  apply executes_bind in Hex as (tr3 & tr4 & [err r1] & -> & (H1 & H2 & H3)%reload_spec & Hex).
  destruct err as [e|].
  - rewrite <- (H3 ltac:(done)) in Hr. destruct (cert r1) eqn:Hc1; [|done].
    destruct Hex as [-> [= -> ->]]. rewrite app_nil_r. rewrite Hc1. by split_and!.
  - destruct Hex as [-> [= -> ->]]. rewrite app_nil_r. destruct (H2 eq_refl) as [c Hc1]. rewrite Hc1 in *. by split_and!.
Qed.

(** Once a key pair was loaded, every TLS handshake is answered with a certificate,
    whatever happens to the files: each handshake of any sequence gets the pair that
    was last loaded successfully, and a renewal that cannot be read leaves it as it is. *)
Theorem handshakes_served n r tr outs r' :
  cert r <> None -> executes (handshakes n r) tr (outs, r') ->
  length outs = n /\ cert r' = in_hand (cert r) tr /\
  Forall (fun out => exists c, out = Ok (Some c) /\ (Some c = cert r \/ c ∈ loaded tr)) outs.
Proof.
  revert r tr outs. induction n as [|n IH]; intros r tr outs Hr; cbn [handshakes].
  { intros [-> [= -> ->]]. by split_and!. }
  intros (tr1 & tr2 & [out r1] & -> & Hg & Hex)%executes_bind.
  apply executes_bind in Hex as (tr3 & tr4 & [outs' r2] & -> & Hh & [-> [= -> ->]]). rewrite app_nil_r.
  destruct (getCertificate_spec _ _ _ _ Hg Hr) as (-> & H1 & H2).
  destruct (IH _ _ _ H2 Hh) as (Hn & H3 & H4). rewrite in_hand_app, <- H1.
  split_and!; [simpl; lia|done|]. destruct (cert r1) as [c1|] eqn:Hc1; [|done].
  assert (Some c1 = cert r \/ c1 ∈ loaded tr1) as Hc.
  { unfold in_hand in H1. destruct (list.last (loaded tr1)) eqn:Hl; [|by left].
    right. injection H1 as ->. by eapply last_Some_elem_of. }
  rewrite loaded_app. constructor.
  - exists c1. split; [done|]. rewrite elem_of_app. tauto.
  - eapply Forall_impl; [exact H4|]. intros o (c & -> & Hco). exists c. split; [done|]. rewrite elem_of_app.
    destruct Hco as [[= ->]|?]; tauto.
Qed.

Lemma handshakes_served_witness :
  exists outs r', executes (handshakes 2 (mkReloader "c.pem" "k.pem" (Some 1) 10 10))
      [existT (TStat "c.pem") (Ok 20); existT (TStat "k.pem") (Ok 10);
       existT (TStat "c.pem") (Ok 20); existT (TStat "k.pem") (Ok 10);
       existT (TLoad "c.pem" "k.pem") (Err (PlainError "half written"));
       existT (TStat "c.pem") (Err (PlainError "gone"))] (outs, r') /\
    length outs = 2%nat /\ cert r' = Some 1.
Proof.
  eexists _, _. match goal with |- ?A /\ _ => assert A as Hex end.
  { do 6 (eexists _, _; split; [reflexivity|]). simpl. by split. }
  split; [exact Hex|].
  destruct (handshakes_served 2 (mkReloader "c.pem" "k.pem" (Some 1) 10 10) _ _ _ ltac:(done) Hex) as (H1 & H2 & _).
  split; [exact H1|exact H2].
Defined.
