(* ===== verification/ManagerState.v ===== *)
(** * The shared state of the query manager

    The part of [internal/core/manager/manager.go] that runs under the manager's
    mutexes: admission and the in-flight registry ([activeRegMu]), the
    concurrency slots, the pool table ([dbPoolsMu]), and the watchers with their
    channels ([watchersMu]). Each block that holds a mutex is one function here,
    and [local_exec] makes it one atomic action of the programs of [Manager]. *)

From S2P Require Import Prelude Domain Config.
Import Config.

Set Warnings "-register-all".

(** ** Data *)

Record QueryEvent := mkEvent {
  ev_QueryID : string;
  ev_State : QueryState;
  ev_Stats : QueryStats;
  ev_Error : option QueryError
}.

(** Handles of things the manager refers to by pointer. *)
Abbreviation pool := nat (only parsing).
Abbreviation ctx_id := nat (only parsing).
Abbreviation chan_id := nat (only parsing).

Record managedPool := mkManagedPool { mp_pool : pool; mp_cfg : DatabaseConfig }.

Record activeQuery := mkActive { aq_cancel : ctx_id; aq_dbID : string }.

Definition watcherBuffer : nat := 20.
Definition eventPublishBuffer : nat := 256.

Record watch_chan := mkWatchChan { wc_buf : list QueryEvent; wc_closed : bool }.

(** The fields captured at construction that never change afterwards. *)
Record captured := mkCaptured {
  instanceID : string;
  defaultStorage : string;
  gcPeriodDur : Z
}.

(** [slots] is the capacity and the number of tokens in the channel. [chans] is
    the heap of watcher channels. *)
Record QueryManager := mkQM {
  qm_cfg : Config.Config;
  self : captured;
  dbPools : gmap string managedPool;
  activeReg : gmap string activeQuery;
  draining : bool;
  slots : option (nat * nat);
  watchers : gmap string (gset chan_id);
  chans : gmap chan_id watch_chan;
  events : list QueryEvent
}.

Definition set_pools p q := mkQM (qm_cfg q) (self q)
  p (activeReg q) (draining q) (slots q) (watchers q) (chans q) (events q).
Definition set_reg r q := mkQM (qm_cfg q) (self q)
  (dbPools q) r (draining q) (slots q) (watchers q) (chans q) (events q).
Definition set_draining d q := mkQM (qm_cfg q) (self q)
  (dbPools q) (activeReg q) d (slots q) (watchers q) (chans q) (events q).
Definition set_slots s q := mkQM (qm_cfg q) (self q)
  (dbPools q) (activeReg q) (draining q) s (watchers q) (chans q) (events q).
Definition set_watch w c q := mkQM (qm_cfg q) (self q)
  (dbPools q) (activeReg q) (draining q) (slots q) w c (events q).
Definition set_events e q := mkQM (qm_cfg q) (self q)
  (dbPools q) (activeReg q) (draining q) (slots q) (watchers q) (chans q) e.

(** The manager as [NewQueryManager] builds it, before its pools are opened. *)
Definition new_manager (cfg : Config.Config) : QueryManager :=
  mkQM cfg
    (mkCaptured (inst_ID (Instance cfg)) (DefaultStorage (Instance cfg)) (GCInterval (Instance cfg)))
    ∅ ∅ false
    (if 0 <? MaxConcurrentQueries (Defaults cfg)
     then Some (Z.to_nat (MaxConcurrentQueries (Defaults cfg)), 0%nat) else None)
    ∅ ∅ [].

(** ** Admission *)

Definition lookupPool (dbID : string) (q : QueryManager) : option pool :=
  mp_pool <$> dbPools q !! dbID.

(** [admit]. *)
Definition admit_query (queryID dbID : string) (cancel : ctx_id) (q : QueryManager)
  : option error * QueryManager :=
  if draining q then (Some DrainingError, q)
  else (None, set_reg (<[queryID := mkActive cancel dbID]> (activeReg q)) q).

Definition deregister (queryID : string) (q : QueryManager) : QueryManager :=
  set_reg (delete queryID (activeReg q)) q.

Definition acquireSlot (q : QueryManager) : bool * QueryManager :=
  match slots q with
  | None => (true, q)
  | Some (cap, used) =>
      if Nat.ltb used cap then (true, set_slots (Some (cap, S used)) q) else (false, q)
  end.

Definition releaseSlot (q : QueryManager) : QueryManager :=
  match slots q with
  | Some (cap, S used) => set_slots (Some (cap, used)) q
  | _ => q
  end.

Definition Drain (q : QueryManager) : QueryManager := set_draining true q.

Definition activeForDB (dbID : string) (q : QueryManager) : Z :=
  Z.of_nat (length (keys_where (fun _ aq => bool_decide (aq_dbID aq = dbID)) (activeReg q))).

Definition local_in_flight (q : QueryManager) : Z := Z.of_nat (size (activeReg q)).

(** ** Watchers *)

(** A send that does not block; [None] is the panic of a closed channel. *)
Definition offer (ev : QueryEvent) (c : chan_id) (cs : gmap chan_id watch_chan)
  : option (gmap chan_id watch_chan) :=
  match cs !! c with
  | Some ch =>
      if wc_closed ch then None
      else if Nat.ltb (length (wc_buf ch)) watcherBuffer
      then Some (<[c := mkWatchChan (wc_buf ch ++ [ev]) false]> cs)
      else Some cs
  | None => None
  end.

Definition close_watch (c : chan_id) (cs : gmap chan_id watch_chan)
  : option (gmap chan_id watch_chan) :=
  match cs !! c with
  | Some ch => if wc_closed ch then None else Some (<[c := mkWatchChan (wc_buf ch) true]> cs)
  | None => None
  end.

Definition subs_of (queryID : string) (q : QueryManager) : gset chan_id :=
  default ∅ (watchers q !! queryID).

Definition dropWatcherLocked (queryID : string) (c : chan_id) (q : QueryManager)
  : option QueryManager :=
  match watchers q !! queryID with
  | None => Some q
  | Some subs =>
      if bool_decide (c ∈ subs) then
        let subs' := subs ∖ {[c]} in
        let w := if bool_decide (subs' = ∅) then delete queryID (watchers q)
                 else <[queryID := subs']> (watchers q) in
        (fun cs => set_watch w cs q) <$> close_watch c (chans q)
      else Some q
  end.

Definition unwatch := dropWatcherLocked.

(** The critical section of [Watch]: a fresh channel is subscribed, it gets the
    current state, and a terminal state ends the subscription at once. *)
Definition watch_add (current : QueryEvent) (q : QueryManager) : option (chan_id * QueryManager) :=
  let c := fresh (dom (chans q)) in
  let id := ev_QueryID current in
  let q1 := set_watch (<[id := {[c]} ∪ subs_of id q]> (watchers q))
              (<[c := mkWatchChan [] false]> (chans q)) q in
  match offer current c (chans q1) with
  | None => None
  | Some cs =>
      let q2 := set_watch (watchers q1) cs q1 in
      if IsTerminal (ev_State current)
      then (fun q3 => (c, q3)) <$> dropWatcherLocked id c q2
      else Some (c, q2)
  end.

Definition deliver_one (ev : QueryEvent) (c : chan_id) (q : QueryManager) : option QueryManager :=
  match offer ev c (chans q) with
  | None => None
  | Some cs =>
      let q1 := set_watch (watchers q) cs q in
      if IsTerminal (ev_State ev) then dropWatcherLocked (ev_QueryID ev) c q1 else Some q1
  end.

Definition deliver_all (ev : QueryEvent) (cs : list chan_id) (q : QueryManager)
  : option QueryManager :=
  fold_left (fun acc c => acc ≫= deliver_one ev c) cs (Some q).

(** The range over the map visits each subscription that was there once; the
    only entries the loop deletes are the ones it has just visited. *)
Definition deliverEvent (ev : QueryEvent) (q : QueryManager) : option QueryManager :=
  deliver_all ev (elements (subs_of (ev_QueryID ev) q)) q.

(** The non-blocking send to the publisher's queue. *)
Definition enqueue (ev : QueryEvent) (q : QueryManager) : bool * QueryManager :=
  if Nat.ltb (length (events q)) eventPublishBuffer
  then (true, set_events (events q ++ [ev]) q) else (false, q).

(** ** Timing of garbage collection *)

(** A receive from the queue that does not wait. *)
Definition dequeue (q : QueryManager) : option QueryEvent * QueryManager :=
  match events q with
  | [] => (None, q)
  | ev :: evs => (Some ev, set_events evs q)
  end.

Definition gcInterval : Z := Minute.

Definition gcPeriod (me : captured) : Z :=
  if 0 <? gcPeriodDur me then gcPeriodDur me else gcInterval.
Definition gcBudget (me : captured) : Z := i64_quot (i64_mul (gcPeriod me) 3) 4.
Definition gcLockTTL (me : captured) : Z := i64_quot (i64_mul (gcPeriod me) 5) 6.

Definition heartbeatTTL (cfg : Config.Config) : Z := HeartbeatTTL (Instance cfg).

Definition getEngine (dbID : string) (cfg : Config.Config) : string :=
  match List.find (fun d => bool_decide (dbc_ID d = dbID)) (Databases cfg) with
  | Some d => Engine d
  | None => "unknown"
  end.

(** ** The critical sections as operations *)

Inductive local_op :=
| LLookupPool (dbID : string)
| LAdmit (queryID dbID : string) (cancel : ctx_id)
| LDeregister (queryID : string)
| LAcquireSlot
| LReleaseSlot
| LDrain
| LActive (queryID : string)
| LActiveIDs
| LActives
| LActiveForDB (dbID : string)
| LCount
| LWatch (current : QueryEvent)
| LUnwatch (queryID : string) (c : chan_id)
| LDeliver (ev : QueryEvent)
| LEnqueue (ev : QueryEvent)
| LDequeue
| LConfig
| LPools
| LSetPools (pools : gmap string managedPool).

Definition local_answer (op : local_op) : Type :=
  match op with
  | LLookupPool _ => option pool
  | LAdmit _ _ _ => option error
  | LAcquireSlot | LEnqueue _ => bool
  | LActive _ => option activeQuery
  | LActiveIDs => list string
  | LActives => gmap string activeQuery
  | LDequeue => option QueryEvent
  | LActiveForDB _ | LCount => Z
  | LWatch _ => chan_id
  | LConfig => Config.Config
  | LPools => gmap string managedPool
  | LDeregister _ | LReleaseSlot | LDrain | LUnwatch _ _ | LDeliver _ | LSetPools _ => unit
  end.

(** [None] is a panic. [LConfig] is [cfgManager.Get()]. *)
Definition local_exec (op : local_op) (q : QueryManager)
  : option (local_answer op * QueryManager) :=
  match op with
  | LLookupPool dbID => Some (lookupPool dbID q, q)
  | LAdmit id dbID c => Some (admit_query id dbID c q)
  | LDeregister id => Some (tt, deregister id q)
  | LAcquireSlot => Some (acquireSlot q)
  | LReleaseSlot => Some (tt, releaseSlot q)
  | LDrain => Some (tt, Drain q)
  | LActive id => Some (activeReg q !! id, q)
  | LActiveIDs => Some ((map_to_list (activeReg q)).*1, q)
  | LActives => Some (activeReg q, q)
  | LActiveForDB dbID => Some (activeForDB dbID q, q)
  | LCount => Some (local_in_flight q, q)
  | LWatch ev => watch_add ev q
  | LUnwatch id c => pair tt <$> unwatch id c q
  | LDeliver ev => pair tt <$> deliverEvent ev q
  | LEnqueue ev => Some (enqueue ev q)
  | LDequeue => Some (dequeue q)
  | LConfig => Some (qm_cfg q, q)
  | LPools => Some (dbPools q, q)
  | LSetPools p => Some (tt, set_pools p q)
  end.

(** ** Watchers: invariant and delivery *)

(** Every subscribed channel is open and belongs to one query; a query without
    subscriptions has no entry. *)
Record watch_ok (q : QueryManager) : Prop := {
  wo_open id subs c :
    watchers q !! id = Some subs -> c ∈ subs -> exists b, chans q !! c = Some (mkWatchChan b false);
  wo_one id1 id2 subs1 subs2 c :
    watchers q !! id1 = Some subs1 -> watchers q !! id2 = Some subs2 ->
    c ∈ subs1 -> c ∈ subs2 -> id1 = id2;
  wo_nonempty id : watchers q !! id <> Some ∅
}.

Lemma elem_of_subs_of id c q :
  c ∈ subs_of id q <-> exists subs, watchers q !! id = Some subs /\ c ∈ subs.
Proof.
  unfold subs_of. destruct (watchers q !! id) as [subs|] eqn:Hs; simpl.
  - split; [eauto|]. by intros (? & [= <-] & ?).
  - split; [by intros ?%elem_of_empty|]. by intros (? & ? & _).
Qed.

(** What a send to an open channel leaves in its buffer. *)
Definition offered (ev : QueryEvent) (b : list QueryEvent) : list QueryEvent :=
  if Nat.ltb (length b) watcherBuffer then b ++ [ev] else b.

Lemma offer_open ev c cs b :
  cs !! c = Some (mkWatchChan b false) ->
  offer ev c cs = Some (<[c := mkWatchChan (offered ev b) false]> cs).
Proof.
  intros Hc. unfold offer, offered. rewrite Hc. simpl. destruct (Nat.ltb _ _); [done|].
  by rewrite insert_id.
Qed.

(** Replacing the buffer of an open channel keeps the invariant. *)
Lemma watch_ok_buffer q c b b' :
  watch_ok q -> chans q !! c = Some (mkWatchChan b false) ->
  watch_ok (set_watch (watchers q) (<[c := mkWatchChan b' false]> (chans q)) q).
Proof.
  intros [Ho H1 Hn] Hc. split; simpl; [|done..]. intros id subs d Hs Hd.
  destruct (decide (c = d)) as [<-|Hne]; [rewrite lookup_insert_eq; eauto|].
  rewrite lookup_insert_ne by done. eauto.
Qed.

Definition drop_entry (id : string) (c : chan_id) (w : gmap string (gset chan_id)) :=
  match w !! id with
  | None => w
  | Some subs =>
      let subs' := subs ∖ {[c]} in
      if bool_decide (subs' = ∅) then delete id w else <[id := subs']> w
  end.

Lemma drop_entry_ok id c q b :
  watch_ok q -> c ∈ subs_of id q ->
  watch_ok (set_watch (drop_entry id c (watchers q)) (<[c := mkWatchChan b true]> (chans q)) q).
Proof.
  intros [Ho H1 Hn] (subs & Hs & Hc)%elem_of_subs_of.
  assert (forall i s d, drop_entry id c (watchers q) !! i = Some s -> d ∈ s ->
            d <> c /\ exists s0, watchers q !! i = Some s0 /\ d ∈ s0) as Hsub.
  { intros i s d Hi Hd. unfold drop_entry in Hi. rewrite Hs in Hi.
    destruct (decide (i = id)) as [->|Hne].
    - case_bool_decide; [by rewrite lookup_delete_eq in Hi|].
      rewrite lookup_insert_eq in Hi. simplify_eq. set_solver.
    - assert (watchers q !! i = Some s) as Hw.
      { case_bool_decide; [by rewrite lookup_delete_ne in Hi|by rewrite lookup_insert_ne in Hi]. }
      split; [|eauto]. intros ->. apply Hne. by eapply H1. }
  split; simpl.
  - intros i s d Hi Hd. destruct (Hsub _ _ _ Hi Hd) as (Hdc & s0 & Hs0 & Hd0).
    rewrite lookup_insert_ne by done. eauto.
  - intros i1 i2 s1 s2 d Hi1 Hi2 Hd1 Hd2.
    destruct (Hsub _ _ _ Hi1 Hd1) as (_ & ? & ? & ?).
    destruct (Hsub _ _ _ Hi2 Hd2) as (_ & ? & ? & ?). eauto.
  - intros i Hi. unfold drop_entry in Hi. rewrite Hs in Hi.
    destruct (decide (i = id)) as [->|Hne]; case_bool_decide as Hem.
    + by rewrite lookup_delete_eq in Hi.
    + rewrite lookup_insert_eq in Hi. by simplify_eq.
    + rewrite lookup_delete_ne in Hi by done. by apply (Hn i).
    + rewrite lookup_insert_ne in Hi by done. by apply (Hn i).
Qed.

(** Dropping a subscription: nothing happens unless it is there, and then its
    channel is closed with its buffer intact. *)
Lemma dropWatcherLocked_absent id c q : c ∉ subs_of id q -> dropWatcherLocked id c q = Some q.
Proof.
  unfold dropWatcherLocked, subs_of. destruct (watchers q !! id) as [subs|]; [|done]. simpl.
  intros Hc. by rewrite bool_decide_false.
Qed.

Lemma dropWatcherLocked_present id c q b :
  c ∈ subs_of id q -> chans q !! c = Some (mkWatchChan b false) ->
  dropWatcherLocked id c q =
    Some (set_watch (drop_entry id c (watchers q)) (<[c := mkWatchChan b true]> (chans q)) q).
Proof.
  intros (subs & Hs & Hc)%elem_of_subs_of Hb. unfold dropWatcherLocked, drop_entry, close_watch.
  rewrite Hs, bool_decide_true, Hb by done. done.
Qed.

Lemma dropWatcherLocked_ok id c q :
  watch_ok q -> exists q', dropWatcherLocked id c q = Some q' /\ watch_ok q'.
Proof.
  intros Hok. destruct (decide (c ∈ subs_of id q)) as [Hc|Hc].
  - pose proof Hc as (subs & Hs & Hin)%elem_of_subs_of.
    destruct (wo_open _ Hok _ _ _ Hs Hin) as [b Hb].
    rewrite (dropWatcherLocked_present _ _ _ b) by done. eexists. split; [done|].
    by apply drop_entry_ok.
  - rewrite dropWatcherLocked_absent by done. eauto.
Qed.

(** One delivery to a subscription of the query. *)
Definition delivered (ev : QueryEvent) (c : chan_id) (b : list QueryEvent) (q : QueryManager) :=
  if IsTerminal (ev_State ev)
  then set_watch (drop_entry (ev_QueryID ev) c (watchers q))
         (<[c := mkWatchChan (offered ev b) true]> (chans q)) q
  else set_watch (watchers q) (<[c := mkWatchChan (offered ev b) false]> (chans q)) q.

Lemma deliver_one_present ev c q b :
  c ∈ subs_of (ev_QueryID ev) q -> chans q !! c = Some (mkWatchChan b false) ->
  deliver_one ev c q = Some (delivered ev c b q).
Proof.
  intros Hc Hb. unfold deliver_one, delivered. rewrite (offer_open _ _ _ _ Hb).
  destruct (IsTerminal _); [|done].
  erewrite dropWatcherLocked_present; [|done|simpl; by rewrite lookup_insert_eq].
  simpl. by rewrite insert_insert_eq.
Qed.

Lemma delivered_ok ev c b q :
  watch_ok q -> c ∈ subs_of (ev_QueryID ev) q -> chans q !! c = Some (mkWatchChan b false) ->
  watch_ok (delivered ev c b q).
Proof.
  intros Hok Hc Hb. unfold delivered. destruct (IsTerminal _).
  - by apply drop_entry_ok.
  - by eapply watch_ok_buffer.
Qed.

Lemma subs_of_delivered ev c b q :
  subs_of (ev_QueryID ev) (delivered ev c b q) =
    if IsTerminal (ev_State ev) then subs_of (ev_QueryID ev) q ∖ {[c]} else subs_of (ev_QueryID ev) q.
Proof.
  unfold delivered. destruct (IsTerminal _); [|done]. unfold subs_of, drop_entry. simpl.
  destruct (watchers q !! ev_QueryID ev) as [subs|] eqn:Hs; simpl; [|rewrite Hs; set_solver].
  case_bool_decide as He; [by rewrite lookup_delete_eq, He|by rewrite lookup_insert_eq].
Qed.

(** What delivering an event to the subscriptions [cs] of its query does. *)
Record delivery (ev : QueryEvent) (cs : list chan_id) (q q' : QueryManager) : Prop := {
  dl_ok : watch_ok q';
  dl_in c b : c ∈ cs -> chans q !! c = Some (mkWatchChan b false) ->
    chans q' !! c = Some (mkWatchChan (offered ev b) (IsTerminal (ev_State ev)));
  dl_out c : c ∉ cs -> chans q' !! c = chans q !! c;
  dl_subs : subs_of (ev_QueryID ev) q' =
    if IsTerminal (ev_State ev) then subs_of (ev_QueryID ev) q ∖ list_to_set cs
    else subs_of (ev_QueryID ev) q;
  dl_others id : id <> ev_QueryID ev -> watchers q' !! id = watchers q !! id;
  dl_rest : q' = set_watch (watchers q') (chans q') q
}.

Lemma delivery_nil ev q : watch_ok q -> delivery ev [] q q.
Proof.
  intros Hok. split; try done.
  - by intros ? ? ?%elem_of_nil.
  - destruct (IsTerminal _); [|done]. set_solver.
  - by destruct q.
Qed.

Lemma delivered_others ev c b q id :
  id <> ev_QueryID ev -> watchers (delivered ev c b q) !! id = watchers q !! id.
Proof.
  intros Hne. unfold delivered. destruct (IsTerminal _); [|done]. simpl. unfold drop_entry.
  destruct (watchers q !! ev_QueryID ev); [|done].
  case_bool_decide; [by rewrite lookup_delete_ne|by rewrite lookup_insert_ne].
Qed.

Lemma chans_delivered ev c b q :
  chans (delivered ev c b q) =
    <[c := mkWatchChan (offered ev b) (IsTerminal (ev_State ev))]> (chans q).
Proof. unfold delivered. by destruct (IsTerminal _). Qed.

Lemma delivery_cons ev c cs b q q' :
  watch_ok q -> c ∈ subs_of (ev_QueryID ev) q -> c ∉ cs ->
  chans q !! c = Some (mkWatchChan b false) ->
  delivery ev cs (delivered ev c b q) q' -> delivery ev (c :: cs) q q'.
Proof.
  intros Hok Hc Hcs Hb [Hok' Hin Hout Hsubs Hoth Hrest]. split; [done|..].
  - intros d b' [->|Hd]%elem_of_cons Hd'.
    + rewrite Hout by done. rewrite chans_delivered, lookup_insert_eq. congruence.
    + apply Hin; [done|]. rewrite chans_delivered, lookup_insert_ne; [done|]. by intros ->.
  - intros d [Hne Hd]%not_elem_of_cons. rewrite Hout by done.
    by rewrite chans_delivered, lookup_insert_ne.
  - rewrite Hsubs, subs_of_delivered. destruct (IsTerminal _); [|done]. set_solver.
  - intros id Hid. rewrite Hoth by done. by apply delivered_others.
  - rewrite Hrest. unfold delivered. by destruct (IsTerminal _).
Qed.

Lemma deliver_all_spec ev cs q :
  watch_ok q -> NoDup cs -> (forall c, c ∈ cs -> c ∈ subs_of (ev_QueryID ev) q) ->
  exists q', deliver_all ev cs q = Some q' /\ delivery ev cs q q'.
Proof.
  intros Hok Hnd. revert q Hok.
  induction Hnd as [|c cs Hc Hnd IH]; intros q Hok Hsub.
  { exists q. split; [done|by apply delivery_nil]. }
  assert (c ∈ subs_of (ev_QueryID ev) q) as Hcs by (apply Hsub; by left).
  pose proof Hcs as (subs & Hs & Hin)%elem_of_subs_of.
  destruct (wo_open _ Hok _ _ _ Hs Hin) as [b Hb].
  destruct (IH (delivered ev c b q)) as (q' & Hq' & Hdel).
  - by apply delivered_ok.
  - intros d Hd. rewrite subs_of_delivered.
    assert (d ∈ subs_of (ev_QueryID ev) q) by (apply Hsub; by right).
    destruct (IsTerminal _); [|done]. set_solver.
  - exists q'. split; [|by eapply delivery_cons].
    unfold deliver_all in *. cbn [fold_left]. simpl. by rewrite (deliver_one_present _ _ _ b).
Qed.

Lemma deliverEvent_spec ev q :
  watch_ok q ->
  exists q', deliverEvent ev q = Some q' /\
    delivery ev (elements (subs_of (ev_QueryID ev) q)) q q'.
Proof.
  intros Hok. apply deliver_all_spec; [done|apply NoDup_elements|].
  intros c. by rewrite elem_of_elements.
Qed.

(** A fresh channel subscribed to [id]. *)
Definition subscribed (id : string) (c : chan_id) (b : list QueryEvent) (q : QueryManager) :=
  set_watch (<[id := {[c]} ∪ subs_of id q]> (watchers q)) (<[c := mkWatchChan b false]> (chans q)) q.

Lemma subscribed_inv id c b q i s d :
  watchers (subscribed id c b q) !! i = Some s -> d ∈ s ->
  (d = c /\ i = id) \/ exists s0, watchers q !! i = Some s0 /\ d ∈ s0.
Proof.
  simpl. destruct (decide (i = id)) as [->|Hne].
  - rewrite lookup_insert_eq. intros [= <-] [->%elem_of_singleton|Hd]%elem_of_union; [by left|].
    right. by apply elem_of_subs_of.
  - rewrite lookup_insert_ne by done. eauto.
Qed.

Lemma subscribed_ok id c b q : watch_ok q -> chans q !! c = None -> watch_ok (subscribed id c b q).
Proof.
  intros Hok Hf.
  assert (forall i subs, watchers q !! i = Some subs -> c ∉ subs) as Hnew.
  { intros i subs Hs Hin. destruct (wo_open _ Hok _ _ _ Hs Hin). congruence. }
  split.
  - intros i s d Hi Hd. destruct (subscribed_inv _ _ _ _ _ _ _ Hi Hd) as [[-> ->]|(s0 & Hs & Hd0)];
      simpl; [rewrite lookup_insert_eq; eauto|].
    rewrite lookup_insert_ne; [by eapply wo_open|]. intros <-. by eapply Hnew.
  - intros i1 i2 s1 s2 d Hi1 Hi2 Hd1 Hd2.
    destruct (subscribed_inv _ _ _ _ _ _ _ Hi1 Hd1) as [[-> ->]|(t1 & Ht1 & Hm1)],
      (subscribed_inv _ _ _ _ _ _ _ Hi2 Hd2) as [[Heq ->]|(t2 & Ht2 & Hm2)]; subst; [done| | |].
    + by destruct (Hnew _ _ Ht2 Hm2).
    + by destruct (Hnew _ _ Ht1 Hm1).
    + by eapply (wo_one _ Hok).
  - intros i. simpl. destruct (decide (i = id)) as [->|Hne].
    + rewrite lookup_insert_eq. intros [=He]. set_solver.
    + rewrite lookup_insert_ne by done. apply (wo_nonempty _ Hok).
Qed.

Lemma watch_add_ok ev q :
  watch_ok q -> exists c q', watch_add ev q = Some (c, q') /\ watch_ok q'.
Proof.
  intros Hok. unfold watch_add. pose proof (is_fresh (dom (chans q))) as Hf.
  set (c := fresh (dom (chans q))) in *. apply not_elem_of_dom in Hf.
  cbn [chans set_watch]. rewrite (offer_open _ _ _ []) by by rewrite lookup_insert_eq.
  rewrite insert_insert_eq. pose proof (subscribed_ok (ev_QueryID ev) c (offered ev []) q Hok Hf) as Hok2.
  destruct (IsTerminal _); [|eauto].
  destruct (dropWatcherLocked_ok (ev_QueryID ev) c _ Hok2) as (q3 & Hq3 & ?).
  exists c, q3. split; [|done]. exact (f_equal (fmap (fun q => (c, q))) Hq3).
Qed.

(** A consumer takes the oldest event out of its channel. *)
Definition receive (c : chan_id) (q : QueryManager) : QueryManager :=
  match chans q !! c with
  | Some (mkWatchChan (_ :: b) closed) =>
      set_watch (watchers q) (<[c := mkWatchChan b closed]> (chans q)) q
  | _ => q
  end.

Inductive shared_step := SOp (op : local_op) | SReceive (c : chan_id).

(** A sequence of atomic steps on the shared state; [None] is a panic. *)
Fixpoint shared_run (steps : list shared_step) (q : QueryManager) : option QueryManager :=
  match steps with
  | [] => Some q
  | SOp op :: steps => (local_exec op q) ≫= fun out => shared_run steps out.2
  | SReceive c :: steps => shared_run steps (receive c q)
  end.

Lemma watch_ok_same q q' :
  watchers q' = watchers q -> chans q' = chans q -> watch_ok q -> watch_ok q'.
Proof. intros Hw Hc [Ho H1 Hn]. split; rewrite ?Hw, ?Hc; eauto. Qed.

Lemma local_exec_ok op q :
  watch_ok q -> exists out, local_exec op q = Some out /\ watch_ok out.2.
Proof.
  intros Hok. destruct op; simpl; try (eexists; split; [done|]; simpl;
    unfold admit_query, acquireSlot, releaseSlot, enqueue, dequeue; repeat (dmatch; simpl);
    by apply (watch_ok_same q)).
  - destruct (watch_add_ok current q Hok) as (c & q' & -> & ?). eauto.
  - destruct (dropWatcherLocked_ok queryID c q Hok) as (q' & Hd & ?).
    unfold unwatch. rewrite Hd. simpl. eauto.
  - destruct (deliverEvent_spec ev q Hok) as (q' & -> & [? _ _ _ _ _]). simpl. eauto.
Qed.

Lemma receive_ok c q : watch_ok q -> watch_ok (receive c q).
Proof.
  intros Hok. unfold receive. destruct (chans q !! c) as [[[|ev b] []]|] eqn:Hc; try done.
  - split; simpl; [|apply Hok..]. intros id subs d Hs Hd.
    rewrite lookup_insert_ne; [by eapply wo_open|].
    intros <-. destruct (wo_open _ Hok _ _ _ Hs Hd). congruence.
  - by eapply watch_ok_buffer.
Qed.

(** C14. Whatever the goroutines of an instance do to its shared state and in
    whatever order, no event is sent on a closed subscription channel and no
    channel is closed twice, and afterwards every subscription on record still
    has an open channel. *)
Theorem shared_state_never_panics cfg steps :
  exists q, shared_run steps (new_manager cfg) = Some q /\
    forall id c, c ∈ subs_of id q -> exists b, chans q !! c = Some (mkWatchChan b false).
Proof.
  assert (watch_ok (new_manager cfg)) as Hok by (split; simpl; naive_solver).
  revert Hok. generalize (new_manager cfg).
  induction steps as [|[op|c] steps IH]; intros q Hok; simpl.
  - exists q. split; [done|]. intros id c (s & Hs & Hc)%elem_of_subs_of. by eapply wo_open.
  - destruct (local_exec_ok op q Hok) as ([x q'] & -> & Hok'). simpl. by apply IH.
  - by apply IH, receive_ok.
Qed.

(** Delivering a terminal event ends every local subscription of its query:
    each channel is closed after the event was put at the end of its buffer, or
    with its 20 older events if it was full, the query has no subscriptions left,
    and those of other queries are not touched. An event that is not terminal
    ends none. *)
Theorem terminal_event_ends_subscriptions ev q :
  watch_ok q ->
  exists q', deliverEvent ev q = Some q' /\
    (forall c b, c ∈ subs_of (ev_QueryID ev) q -> chans q !! c = Some (mkWatchChan b false) ->
       exists b', chans q' !! c = Some (mkWatchChan b' (IsTerminal (ev_State ev))) /\
         (b' = b ++ [ev] \/ (b' = b /\ (watcherBuffer <= length b)%nat))) /\
    subs_of (ev_QueryID ev) q' =
      (if IsTerminal (ev_State ev) then ∅ else subs_of (ev_QueryID ev) q) /\
    (forall id, id <> ev_QueryID ev -> subs_of id q' = subs_of id q) /\
    (forall c, c ∉ subs_of (ev_QueryID ev) q -> chans q' !! c = chans q !! c).
Proof.
  intros Hok. destruct (deliverEvent_spec ev q Hok) as (q' & Hq' & [_ Hin Hout Hsubs Hoth _]).
  exists q'. split_and!; [done|..].
  - intros c b Hc Hb. exists (offered ev b). split.
    + apply Hin; [|done]. by apply elem_of_elements.
    + unfold offered. destruct (Nat.ltb_spec (length b) watcherBuffer); eauto.
  - rewrite Hsubs. destruct (IsTerminal _); [|done].
    rewrite list_to_set_elements_L. set_solver.
  - intros id Hid. unfold subs_of. by rewrite Hoth.
  - intros c Hc. apply Hout. by rewrite elem_of_elements.
Qed.

Definition sample_event (s : QueryState) : QueryEvent := mkEvent "q1" s zero_stats None.

(** A manager with one subscription for [q1], whose channel is 7. *)
Definition watched_manager : QueryManager :=
  set_watch {[ "q1" := {[ 7%nat ]} ]} {[ 7%nat := mkWatchChan [] false ]}
    (new_manager (with_defaults sample_config)).

Lemma watched_manager_ok : watch_ok watched_manager.
Proof.
  split; simpl.
  - intros id subs c [<- <-]%lookup_singleton_Some ->%elem_of_singleton. by exists [].
  - by intros id1 id2 s1 s2 c [<- _]%lookup_singleton_Some [<- _]%lookup_singleton_Some.
  - intros id [_ H]%lookup_singleton_Some. set_solver.
Qed.

Lemma terminal_event_ends_subscriptions_witness :
  exists q', deliverEvent (sample_event StateSucceeded) watched_manager = Some q' /\
    subs_of "q1" q' = ∅.
Proof.
  destruct (terminal_event_ends_subscriptions (sample_event StateSucceeded) watched_manager
              watched_manager_ok) as (q' & Hq' & _ & Hs & _).
  exists q'. split; [exact Hq'|exact Hs].
Defined.

(** ** Draining *)

(** The watcher operations change nothing but the watchers. *)
Definition watch_only (q q' : QueryManager) : Prop := exists w cs, q' = set_watch w cs q.

Lemma watch_only_refl q : watch_only q q.
Proof. exists (watchers q), (chans q). by destruct q. Qed.

Lemma watch_only_trans q1 q2 q3 : watch_only q1 q2 -> watch_only q2 q3 -> watch_only q1 q3.
Proof. intros (w & cs & ->) (w' & cs' & ->). by exists w', cs'. Qed.

Lemma dropWatcherLocked_only id c q q' : dropWatcherLocked id c q = Some q' -> watch_only q q'.
Proof.
  unfold dropWatcherLocked. destruct (watchers q !! id); [|intros [= <-]; apply watch_only_refl].
  case_bool_decide; [|intros [= <-]; apply watch_only_refl].
  destruct (close_watch _ _); [|done]. intros [= <-]. by eexists _, _.
Qed.

Lemma watch_add_only ev q c q' : watch_add ev q = Some (c, q') -> watch_only q q'.
Proof.
  unfold watch_add. destruct (offer _ _ _) as [cs|]; [|done].
  destruct (IsTerminal _); [|intros [= <- <-]; by eexists _, _].
  destruct (dropWatcherLocked _ _ _) as [q3|] eqn:Hd; [|done]. intros [= <- <-].
  apply dropWatcherLocked_only in Hd as (w & cs' & ->). by exists w, cs'.
Qed.

Lemma deliverEvent_only ev q q' : deliverEvent ev q = Some q' -> watch_only q q'.
Proof.
  unfold deliverEvent, deliver_all. generalize (elements (subs_of (ev_QueryID ev) q)).
  intros cs. revert q. induction cs as [|c cs IH]; intros q; cbn [fold_left]; simpl.
  { intros [= <-]. apply watch_only_refl. }
  destruct (deliver_one ev c q) as [q1|] eqn:H1.
  - intros H. eapply watch_only_trans; [|by apply IH]. unfold deliver_one in H1.
    destruct (offer _ _ _); [|done]. destruct (IsTerminal _); [|simplify_eq; by eexists _, _].
    apply dropWatcherLocked_only in H1 as (w & cs' & ->). by exists w, cs'.
  - intros H. exfalso. clear IH. induction cs; simpl in H; [done|auto].
Qed.

(** What an operation does to the registry, the drain flag and the slots. *)
Lemma local_exec_admission op q out :
  local_exec op q = Some out ->
  draining out.2 = (match op with LDrain => true | _ => draining q end) /\
  activeReg out.2 = (match op with
                     | LAdmit id dbID c =>
                         if draining q then activeReg q
                         else <[id := mkActive c dbID]> (activeReg q)
                     | LDeregister id => delete id (activeReg q)
                     | _ => activeReg q
                     end) /\
  slots out.2 = (match op with
                 | LAcquireSlot => slots (acquireSlot q).2
                 | LReleaseSlot => slots (releaseSlot q)
                 | _ => slots q
                 end).
Proof.
  destruct op; simpl; intros Hop; simplify_eq; simpl;
    try (unfold admit_query, acquireSlot, releaseSlot, enqueue, dequeue; by repeat (dmatch; simpl)).
  - destruct out as [c q']. by apply watch_add_only in Hop as (w & cs & ->).
  - destruct (unwatch queryID c q) as [q'|] eqn:Hu; simplify_eq/=.
    by apply dropWatcherLocked_only in Hu as (w & cs & ->).
  - destruct (deliverEvent ev q) as [q'|] eqn:Hu; simplify_eq/=.
    by apply deliverEvent_only in Hu as (w & cs & ->).
Qed.

(** A drained instance stays drained, and its registry only loses entries. *)
Lemma drained_run steps q q' :
  draining q = true -> shared_run steps q = Some q' ->
  draining q' = true /\ activeReg q' ⊆ activeReg q.
Proof.
  revert q. induction steps as [|[op|c] steps IH]; intros q Hd Hrun; simpl in Hrun.
  - by simplify_eq.
  - destruct (local_exec op q) as [[x p]|] eqn:Hop; [|done]. simpl in Hrun.
    apply local_exec_admission in Hop as (Hd' & Hreg & _). simpl in *.
    destruct (IH p) as [? Hsub]; [destruct op; congruence|done|]. split; [done|].
    etrans; [exact Hsub|]. rewrite Hreg. destruct op; rewrite ?Hd; try done. apply delete_subseteq.
  - destruct (IH (receive c q)) as [? Hsub]; [|done|].
    + unfold receive. by repeat dmatch.
    + split; [done|]. etrans; [exact Hsub|]. unfold receive. by repeat dmatch.
Qed.

(** C15. Once [Drain] has run no query is ever admitted again: through any
    sequence of steps the registry only loses entries, every attempt to admit a
    query is answered with the draining error and registers nothing, and so a
    count of zero stays zero (I5). *)
Theorem drain_closes_admission steps q q' :
  shared_run steps (Drain q) = Some q' ->
  dom (activeReg q') ⊆ dom (activeReg q) /\
  (forall id dbID c, admit_query id dbID c q' = (Some DrainingError, q')) /\
  (local_in_flight q = 0 -> local_in_flight q' = 0).
Proof.
  intros Hrun. apply drained_run in Hrun as [Hd Hsub%subseteq_dom]; [|done].
  split_and!; [done| |].
  - intros. unfold admit_query. by rewrite Hd.
  - unfold local_in_flight. rewrite <- !size_dom. intros Hz.
    assert (size (dom (activeReg q')) <= size (dom (activeReg q)))%nat by by apply subseteq_size, Hsub.
    lia.
Qed.

Lemma drain_closes_admission_witness :
  exists q', shared_run [SOp (LAdmit "q1" "pg" 3); SOp LAcquireSlot]
               (Drain (new_manager (with_defaults sample_config))) = Some q' /\
    local_in_flight q' = 0.
Proof.
  eexists. split; [reflexivity|].
  eapply (drain_closes_admission [SOp (LAdmit "q1" "pg" 3); SOp LAcquireSlot]
            (new_manager (with_defaults sample_config))); [reflexivity|].
  vm_compute. reflexivity.
Defined.

(** ** Concurrency slots *)

(** The tokens a sequence of steps still holds, given [held] before it: [None]
    if a release has no acquisition before it. *)
Fixpoint slots_held (steps : list shared_step) (held : nat) (q : QueryManager) : option nat :=
  match steps with
  | [] => Some held
  | SOp op :: steps =>
      match local_exec op q with
      | None => None
      | Some (_, q') =>
          match op with
          | LAcquireSlot =>
              slots_held steps (if (acquireSlot q).1 then S held else held) q'
          | LReleaseSlot =>
              match held with 0%nat => None | S h => slots_held steps h q' end
          | _ => slots_held steps held q'
          end
      end
  | SReceive c :: steps => slots_held steps held (receive c q)
  end.

Lemma slots_receive c q : slots (receive c q) = slots q.
Proof. unfold receive. by repeat dmatch. Qed.

Lemma slots_run cap steps held n q q' :
  slots q = Some (cap, held) -> (held <= cap)%nat ->
  shared_run steps q = Some q' -> slots_held steps held q = Some n ->
  slots q' = Some (cap, n) /\ (n <= cap)%nat.
Proof.
  revert held q. induction steps as [|[op|c] steps IH]; intros held q Hs Hle Hrun Hh;
    cbn [shared_run slots_held] in *.
  - by simplify_eq.
  - destruct (local_exec op q) as [[x p]|] eqn:Hop; [|done]. simpl in Hrun.
    apply local_exec_admission in Hop as (_ & _ & Hp). simpl in Hp.
    assert (slots p = slots q -> slots_held steps held p = Some n ->
            slots q' = Some (cap, n) /\ (n <= cap)%nat) as Hsame
      by (intros Heq ?; eapply IH; [rewrite Heq|..]; done).
    destruct op; auto.
    + unfold acquireSlot in Hp, Hh. rewrite Hs in Hp, Hh.
      destruct (Nat.ltb_spec held cap); simpl in Hp, Hh; [|by apply Hsame; [congruence|]].
      apply (IH (S held) p); [done|lia|done..].
    + destruct held as [|h]; [done|]. unfold releaseSlot in Hp. rewrite Hs in Hp. simpl in Hp.
      apply (IH h p); [done|lia|done..].
  - apply (IH held (receive c q)); [by rewrite slots_receive|done..].
Qed.

(** With [max_concurrent_queries] set to a positive [n], in every sequence of
    steps in which a slot is only released after it was acquired the channel
    holds exactly the slots in use, there are never more than [n] of them, and an
    acquisition succeeds exactly while fewer than [n] are in use. *)
Theorem slots_bound_concurrency cfg steps q held :
  0 < MaxConcurrentQueries (Defaults cfg) ->
  shared_run steps (new_manager cfg) = Some q ->
  slots_held steps 0 (new_manager cfg) = Some held ->
  Z.of_nat held <= MaxConcurrentQueries (Defaults cfg) /\
  ((acquireSlot q).1 = true <-> Z.of_nat held < MaxConcurrentQueries (Defaults cfg)).
Proof.
  intros Hn Hrun Hh.
  destruct (slots_run (Z.to_nat (MaxConcurrentQueries (Defaults cfg))) steps 0 held
              (new_manager cfg) q) as [Hs Hle]; [|lia|done..|].
  - simpl. by apply Z.ltb_lt in Hn as ->.
  - split; [lia|]. unfold acquireSlot. rewrite Hs.
    destruct (Nat.ltb_spec held (Z.to_nat (MaxConcurrentQueries (Defaults cfg)))); simpl;
      split; intros; try done; lia.
Qed.

Definition one_slot_config : Config.Config :=
  mkConfig (Instance sample_config) (Server sample_config) None (mkDefaults 0 0 1 false)
    (Storage sample_config) [].

Lemma slots_bound_concurrency_witness :
  exists q, shared_run [SOp LAcquireSlot; SOp LAcquireSlot] (new_manager one_slot_config) = Some q /\
    ((acquireSlot q).1 = true <-> Z.of_nat 1 < 1).
Proof.
  eexists. split; [reflexivity|].
  eapply (slots_bound_concurrency one_slot_config [SOp LAcquireSlot; SOp LAcquireSlot] _ 1);
    [reflexivity|reflexivity|vm_compute; reflexivity].
Defined.

(** ** Garbage-collection timing *)

(** For every configuration that passes validation the period of garbage
    collection is positive and the two durations derived from it do not
    overflow: they are three quarters and five sixths of the period, so the
    cluster lock outlives the budget of a pass and expires before the next one. *)
Theorem gc_durations_fit cfg cfg' :
  validate cfg = Ok cfg' -> is_int64 (GCInterval (Instance cfg)) ->
  let q := self (new_manager cfg') in
  0 < gcPeriod q /\
  gcBudget q = gcPeriod q * 3 / 4 /\ gcLockTTL q = gcPeriod q * 5 / 6 /\
  gcBudget q <= gcLockTTL q /\ gcLockTTL q < gcPeriod q.
Proof.
  intros Hv Hi q. apply validate_Ok in Hv as [(_ & _ & _ & Hgc & _) ->].
  assert (0 < gcPeriod q <= max_gc_interval) as Hp.
  { subst q. unfold gcPeriod, gcInterval. simpl. unfold default_Z, max_gc_interval, Minute, Hour in *.
    destruct (Z.eqb_spec (GCInterval (Instance cfg)) 0); [simpl; lia|].
    destruct (Z.ltb_spec 0 (GCInterval (Instance cfg))); lia. }
  unfold gcBudget, gcLockTTL, i64_quot, i64_mul. generalize dependent (gcPeriod q). intros p Hp.
  unfold max_gc_interval, Hour in Hp.
  rewrite !(wrap64_id (p * _)) by (unfold is_int64, int64_min, int64_max; lia).
  rewrite !Z.quot_div_nonneg by lia.
  rewrite !wrap64_id by (unfold is_int64, int64_min, int64_max;
    pose proof (Z.div_le_upper_bound (p * 3) 4 p); pose proof (Z.div_le_upper_bound (p * 5) 6 p);
    pose proof (Z.div_pos (p * 3) 4); pose proof (Z.div_pos (p * 5) 6); lia).
  split_and!; [lia|done|done| |].
  - apply Z.div_le_lower_bound; [lia|]. pose proof (Z.mul_div_le (p * 3) 4). lia.
  - apply Z.div_lt_upper_bound; lia.
Qed.

Lemma gc_durations_fit_witness :
  gcBudget (self (new_manager (with_defaults sample_config))) <=
  gcLockTTL (self (new_manager (with_defaults sample_config))).
Proof.
  eapply (gc_durations_fit sample_config (with_defaults sample_config));
    [vm_compute; reflexivity|by vm_compute].
Defined.
