(* ===== verification/Manager.v ===== *)
(** * The query manager

    [internal/core/manager/manager.go]: submission, execution, cancellation,
    watching, garbage collection, the owner reaper and reloading, as programs
    over the actions below. An action is one atomic interaction with the shared
    state of the instance ([ManagerState]), the metadata store ([MetaStore]), the
    clock, a database pool, a result store or another goroutine. Log lines and
    trace spans are left out. *)

From S2P Require Import Prelude Domain Utf8 SqlGuard Authn Lifecycle Config MetaStore Prog ManagerState.
Import Config.

Set Warnings "-register-all".

(** ** Actions *)

(** The context an operation runs under. *)
Inductive ctxref :=
| CtxBackground
| CtxCaller                                (* the request's context *)
| CtxWithoutCancel (parent : ctxref)
| CtxManager                               (* qm.ctx *)
| CtxId (c : ctx_id)                       (* an execution context *)
| CtxWithTimeout (parent : ctxref) (d : Z).

Inductive telemetry :=
| TIdempotencyHit
| TQueryStarted
| TQueryFinished
| TQueryCompleted (engine state : string) (d : Z)
| TResultBytes (backend : string) (n : Z)
| TPoolStat (dbID : string) (stat : Z * Z * Z).

(** The background goroutines of an instance. *)
Inductive worker_name :=
| HeartbeatWorker
| GcWorker
| ControlWorker
| OwnerReaper
| EventPublisher.

(** What [EncodeStream] does: the progress it reports on the way, the rows and
    bytes it has written, its error, and the digest of the bytes that went
    through the hasher. *)
Record encode_outcome := mkEncode {
  enc_reports : list (Z * Z);
  enc_rows : Z;
  enc_bytes : Z;
  enc_err : option error;
  enc_digest : string
}.

Inductive action :=
| ALocal (op : local_op)
| AMeta (cx : ctxref) (op : meta_op)
| ANow
| ANewUUID
| ANewCtx (timeout : option Z)
| ACancel (c : ctx_id)
| ACtxErr (cx : ctxref)
| APing (p : pool)
| AExec (cx : ctxref) (p : pool) (sql : string)
| ACloseRows (rows : nat)
| AOpenPool (engine dsn : string) (maxConns : Z)
| AClosePoolWhenIdle (dbID : string) (p : pool)
| AGetStore (name : string)
| ASupportsFormat (store format : string)
| AWriter (cx : ctxref) (store queryID format : string)
| AEncode (cx : ctxref) (rows : nat) (format : string) (writer : nat)
| ACloseWriter (writer : nat)
| ADeleteResult (cx : ctxref) (store : string) (ref : ResultRef)
| AMail (snapshot : QueryRecord)
| ALost
| AStopReporting
| ABackoff (d : Z)
| ASendTerminal (ev : QueryEvent)
| AGoRun (record : QueryRecord) (p : pool) (c : ctx_id)
| AGoUnwatch (queryID : string) (c : chan_id)
| AReceiveUntilTerminal (c : chan_id)
| ATelemetry (t : telemetry)
| AReloadConfig
| AReader (cx : ctxref) (store : string) (ref : ResultRef)
| AIsDraining
| AAdvance (inFlight : Z)
| APoolStat (p : pool)
| AClosePool (p : pool)
| AGoWorker (w : worker_name)
| AWorkerTick
| ANextEvent
| ASubscribe
| ANextControl
| AWaitQueries (d : Z)
| AStopPublisher
| AWaitPublisher (d : Z)
| ACancelManager
| AWaitWorkers
| AWaitPools.

(** [AMail] reports whether the mailbox had room, [ABackoff] whether the manager
    was closed while waiting, [ASendTerminal] whether the queue took the event in
    time, and [AReceiveUntilTerminal] the events received up to the first terminal
    one or the end of the channel. [AIsDraining] and [AAdvance] are the operations
    of the instance's lifecycle manager. [AWorkerTick] waits for the next tick of
    a worker's timer and reports whether the manager was closed instead;
    [ANextEvent] waits for the next event to publish and answers [None] when the
    publisher is stopped; [ASubscribe] is [SubscribeControl] and [ANextControl]
    the next control message, [None] when the channel or the manager is closed.
    [AWaitQueries] and [AWaitPublisher] report whether the wait ended in time. *)
Definition answer (a : action) : Type :=
  match a with
  | ALocal op => local_answer op
  | AMeta _ op => meta_answer op
  | ANow => time
  | ANewUUID => string
  | ANewCtx _ => ctx_id
  | ACtxErr _ | APing _ | ACloseRows _ | AGetStore _ | ACloseWriter _ | ADeleteResult _ _ _ 
  | AReloadConfig => option error
  | AExec _ _ _ => result nat
  | AOpenPool _ _ _ => result pool
  | ASupportsFormat _ _ | AMail _ | ALost | ABackoff _ | ASendTerminal _ => bool
  | AWriter _ _ _ _ => result (nat * ResultRef)
  | AEncode _ _ _ _ => encode_outcome
  | AReceiveUntilTerminal _ => list QueryEvent
  | AReader _ _ _ => result nat
  | AIsDraining | AWorkerTick | AWaitQueries _ | AWaitPublisher _ => bool
  | APoolStat _ => Z * Z * Z
  | AClosePool _ | ASubscribe => option error
  | ANextEvent => option QueryEvent
  | ANextControl => option ControlMsg
  | AAdvance _ => Lifecycle.State
  | ACancel _ | AStopReporting | AGoRun _ _ _ | AGoUnwatch _ _ | ATelemetry _
  | AClosePoolWhenIdle _ _ | AGoWorker _ | AStopPublisher | ACancelManager | AWaitWorkers
  | AWaitPools => unit
  end.

Abbreviation M := (prog answer).

Open Scope dbb_scope.

Definition local (op : local_op) : M (local_answer op) := call (answer := answer) (ALocal op).
Definition meta (cx : ctxref) (op : meta_op) : M (meta_answer op) :=
  call (answer := answer) (AMeta cx op).
Definition act (a : action) : M (answer a) := call (answer := answer) a.

(** [time.Since]. *)
Definition since (t : time) : M Z := do now <- act ANow; Ret (time_sub now t).

(** ** Pure parts *)

Definition terminalPersistAttempts : nat := 5.
Definition progressPersistInterval : Z := 2 * Second.
Definition progressPersistTimeout : Z := 2 * Second.
Definition reapBudget : Z := 15 * Second.
Definition gcLockName : string := "gc".

Definition applyDefaults (me : captured) (cfg : Config.Config) (opts : QueryOptions) : QueryOptions :=
  mkQueryOptions
    (if Timeout opts =? 0 then QueryTimeout (Defaults cfg) else Timeout opts)
    (if bool_decide (Mode opts = "") then "async" else Mode opts)
    (if ResultTTL opts =? 0 then def_ResultTTL (Defaults cfg) else ResultTTL opts)
    (opt_IdempotencyKey opts)
    (if bool_decide (ResultFormat opts = "") then "jsonl" else ResultFormat opts)
    (if bool_decide (StorageBackend opts = "") then defaultStorage me else StorageBackend opts).

Definition idempotencySubmitTTL (opts : QueryOptions) : Z := i64_add (ResultTTL opts) (24 * Hour).

Definition scopedIdempotencyKey (subject key : string) : string :=
  subject +:+ byte_string 0 +:+ key.

Definition backendErrorMessage (code : QueryErrorCode) : string :=
  match code with
  | ErrCodeDBExecFailed => "the database driver failed to execute the query"
  | ErrCodeStorageInitFailed => "the result storage backend failed to initialize"
  | ErrCodeStorageWriterFailed => "the result storage backend failed to open a writer"
  | ErrCodeStreamEncodeFailed => "encoding the result stream failed"
  | ErrCodeStorageFinalizeFailed => "the result storage backend failed to finalize the result"
  | _ => "the query failed"
  end.

Definition samePoolConfig (a b : DatabaseConfig) : bool :=
  bool_decide (Engine a = Engine b) && bool_decide (DSN a = DSN b) && (MaxConns a =? MaxConns b).

(** The [%q] of a registered backend name, which has nothing to escape. *)
Definition quoted (s : string) : string := byte_string 34 +:+ s +:+ byte_string 34.

Definition dbIDs (dbs : list DatabaseConfig) : list string := map dbc_ID dbs.

Section Manager.
Context `{Unicode} (me : captured) (caller : option Identity).

(** ** Events *)

Definition notifyWatchers (ev : QueryEvent) : M unit :=
  local (LDeliver ev) ;;
  if IsTerminal (ev_State ev)
  then act (ASendTerminal ev) ;; Ret tt
  else local (LEnqueue ev) ;; Ret tt.

Definition Watch (queryID : string) : M (result chan_id) :=
  do got <- meta CtxCaller (OpGetQuery queryID);
  match got return M (result chan_id) with
  | Err e => Ret (Err e)
  | Ok rec =>
      do ch <- local (LWatch (mkEvent queryID (rec_State rec) (Stats rec) (rec_Error rec)));
      if IsTerminal (rec_State rec) then Ret (Ok ch : result chan_id)
      else act (AGoUnwatch queryID ch) ;; Ret (Ok ch : result chan_id)
  end.

(** ** Submission *)

Definition resolveIdempotency (dbID key : string) (opts : QueryOptions) (queryID : string)
  : M (result (option QueryRecord)) :=
  let ttl := idempotencySubmitTTL opts in
  do got <- meta CtxCaller (OpAcquireIdempotency dbID key queryID ttl);
  match got with
  | Err e => Ret (Err (WrapError "failed to process idempotency" e))
  | Ok (_, true) => Ret (Ok None)
  | Ok (existingID, false) =>
      do found <- meta CtxCaller (OpGetQuery existingID);
      match found with
      | Ok rec =>
          match AuthorizeSubject caller (Subject rec) with
          | Some _ => Ret (Err (NotFoundError "query" existingID))
          | None => Ret (Ok (Some rec))
          end
      | Err e =>
          if negb (is_ErrNotFound e) then Ret (Err e)
          else
            do rel <- meta CtxCaller (OpReleaseIdempotency dbID key existingID);
            match rel with
            | Some e => Ret (Err (WrapError "failed to reclaim idempotency key" e))
            | None =>
                do again <- meta CtxCaller (OpAcquireIdempotency dbID key queryID ttl);
                match again with
                | Err e => Ret (Err (WrapError "failed to process idempotency" e))
                | Ok (_, true) => Ret (Ok None)
                | Ok (existingID, false) =>
                    do last <- meta CtxCaller (OpGetQuery existingID);
                    match last with
                    | Ok rec => Ret (Ok (Some rec))
                    | Err e => Ret (Err e)
                    end
                end
            end
      end
  end.

(** The checks that run before the first side effect: the pool and the options
    of an accepted request. *)
Definition check_request (dbID sql : string) (opts : QueryOptions)
  : M (result (pool * QueryOptions)) :=
  do found <- local (LLookupPool dbID);
  match found with
  | None => Ret (Err (NotFoundError "database" dbID))
  | Some p =>
      do cfg <- local LConfig;
      let opts := applyDefaults me cfg opts in
      match Validate opts with
      | Some e => Ret (Err e)
      | None =>
          do serr <- act (AGetStore (StorageBackend opts));
          match serr with
          | Some _ => Ret (Err (ValidationError "storage_backend" "unknown storage backend"))
          | None =>
              do ok <- act (ASupportsFormat (StorageBackend opts) (ResultFormat opts));
              if negb ok then
                Ret (Err (ValidationError "result_format"
                  ("storage backend " +:+ quoted (StorageBackend opts) +:+ " cannot store " +:+
                   ResultFormat opts +:+ " results unchanged")))
              else
                do cfg <- local LConfig;
                match (if AllowWrites (Defaults cfg) then None else ReadOnly sql) with
                | Some reason => Ret (Err (ValidationError "sql" reason))
                | None => Ret (Ok (p, opts))
                end
          end
      end
  end.

(** The rollback closure of [SubmitQuery]. *)
Definition release (dbID idemKey queryID : string) (opts : QueryOptions) : M unit :=
  if bool_decide (opt_IdempotencyKey opts = "") then Ret tt
  else meta (CtxWithoutCancel CtxCaller) (OpReleaseIdempotency dbID idemKey queryID) ;; Ret tt.

(** From the admitted record to the launched goroutine and the response. *)
Definition launch (record : QueryRecord) (p : pool) (execCtx : ctx_id) : M (result QueryRecord) :=
  do cfg <- local LConfig;
  meta CtxCaller (OpHeartbeat (instanceID me) [ID record] (heartbeatTTL cfg)) ;;
  notifyWatchers (mkEvent (ID record) StatePending zero_stats None) ;;
  if bool_decide (Mode (rec_Options record) = "sync") then
    do ch <- Watch (ID record);
    act (AGoRun record p execCtx) ;;
    (match ch with
     | Ok ch => act (AReceiveUntilTerminal ch) ;; Ret tt
     | Err _ => Ret tt
     end) ;;
    meta CtxCaller (OpGetQuery (ID record))
  else
    act (AGoRun record p execCtx) ;;
    Ret (Ok record).

(** Submission once the idempotency key is resolved. *)
Definition execute (dbID sql : string) (opts : QueryOptions) (p : pool)
  (queryID subject idemKey : string) : M (result QueryRecord) :=
  do perr <- act (APing p);
  match perr with
  | Some _ =>
      release dbID idemKey queryID opts ;;
      Ret (Err (UnavailableError ("database " +:+ dbID)))
  | None =>
      do slot <- local LAcquireSlot;
      if negb slot then
        release dbID idemKey queryID opts ;;
        Ret (Err (ResourceExhaustedError "too many concurrent queries on this instance"))
      else
        do c <- act (ANewCtx (if 0 <? Timeout opts then Some (Timeout opts) else None));
        do aerr <- local (LAdmit queryID dbID c);
        match aerr with
        | Some e =>
            act (ACancel c) ;; local LReleaseSlot ;; release dbID idemKey queryID opts ;;
            Ret (Err e)
        | None =>
            do now <- act ANow;
            let record := mkQueryRecord queryID dbID sql opts StatePending (instanceID me) now
              zero_time zero_time None zero_stats None (opt_IdempotencyKey opts) zero_time subject in
            do werr <- meta CtxCaller (OpPutQuery record);
            match werr with
            | Some e =>
                local (LDeregister queryID) ;; act (ACancel c) ;; local LReleaseSlot ;;
                release dbID idemKey queryID opts ;;
                Ret (Err (WrapError "failed to persist query state" e))
            | None => launch record p c
            end
        end
  end.

Definition SubmitQuery (dbID sql : string) (opts : QueryOptions) : M (result QueryRecord) :=
  do checked <- check_request dbID sql opts;
  match checked with
  | Err e => Ret (Err e)
  | Ok (p, opts) =>
      do queryID <- act ANewUUID;
      let subject := SubjectFromContext caller in
      let idemKey := scopedIdempotencyKey subject (opt_IdempotencyKey opts) in
      if bool_decide (opt_IdempotencyKey opts = "") then
        execute dbID sql opts p queryID subject idemKey
      else
        do existing <- resolveIdempotency dbID idemKey opts queryID;
        match existing with
        | Err e => Ret (Err e)
        | Ok (Some rec) => act (ATelemetry TIdempotencyHit) ;; Ret (Ok rec)
        | Ok None => execute dbID sql opts p queryID subject idemKey
        end
  end.

(** ** Execution *)

(** [persist] with [attempts] left and the next backoff. *)
Fixpoint persist (rec : QueryRecord) (attempts : nat) (backoff : Z) : M (option error) :=
  match attempts with
  | 0%nat => Ret None
  | S rest =>
      do err <- meta (CtxWithTimeout CtxBackground (10 * Second)) (OpPutQuery rec);
      match err with
      | None => Ret None
      | Some e =>
          match rest with
          | 0%nat => Ret (Some e)
          | S _ =>
              do closed <- act (ABackoff backoff);
              if closed then Ret (Some e) else persist rec rest (backoff * 2)
          end
      end
  end.

Definition initial_backoff : Z := 200 * Millisecond.

(** The record after the transition, or [None] when it was refused. *)
Definition complete (rec : QueryRecord) (next : QueryState) : M (option QueryRecord) :=
  if negb (CanTransitionTo (rec_State rec) next) then Ret None
  else
    do now <- act ANow;
    let rec := set_FinishedAt now (set_State next rec) in
    persist rec terminalPersistAttempts initial_backoff ;;
    (if negb (bool_decide (IdempotencyKey rec = "")) && (0 <? ResultTTL (rec_Options rec)) then
       meta (CtxWithTimeout CtxBackground (5 * Second))
         (OpRefreshIdempotency (DatabaseID rec)
            (scopedIdempotencyKey (Subject rec) (IdempotencyKey rec)) (ID rec)
            (ResultTTL (rec_Options rec))) ;; Ret tt
     else Ret tt) ;;
    notifyWatchers (mkEvent (ID rec) next (Stats rec) (rec_Error rec)) ;;
    Ret (Some rec).

Definition finishRun (rec : QueryRecord) (next : QueryState) (qErr : option QueryError)
  (dbDur storeDur : Z) : M unit :=
  let st := Stats rec in
  do total <- (if TotalDuration st =? 0 then since (CreatedAt rec) else Ret (TotalDuration st));
  let rec := set_Stats (mkQueryStats (RowsRead st) (BytesWritten st) dbDur storeDur total)
               (set_Error qErr rec) in
  do done <- complete rec next;
  match done with
  | None => Ret tt
  | Some rec =>
      act (ATelemetry TQueryFinished) ;;
      do cfg <- local LConfig;
      act (ATelemetry (TQueryCompleted (getEngine (DatabaseID rec) cfg) (QueryState_string next)
                         (TotalDuration (Stats rec)))) ;;
      Ret tt
  end.

Definition ctx_is (p : error -> bool) (e : option error) : bool :=
  match e with Some e => p e | None => false end.

Definition terminalFor (cx : ctxref) (err : error) (fallback : QueryErrorCode)
  : M (QueryState * option QueryError) :=
  do canceled <- (if is_canceled err then Ret true
                  else do e <- act (ACtxErr cx); Ret (ctx_is is_canceled e));
  if canceled then Ret (StateCanceled, None)
  else
    do expired <- (if is_deadline err then Ret true
                   else do e <- act (ACtxErr cx); Ret (ctx_is is_deadline e));
    if expired
    then Ret (StateFailed, Some (NewQueryError ErrCodeQueryTimeout "query exceeded its timeout" true))
    else Ret (StateFailed, Some (NewQueryError fallback (backendErrorMessage fallback) false)).

(** One call of the progress callback; the loop carries the record and the
    moment of the last report. *)
Definition report (progress : Z * Z) (st : QueryRecord * time) : M (QueryRecord * time) :=
  let '(record, last) := st in
  do lost <- act ALost;
  if lost then Ret st
  else
    do elapsed <- since last;
    if elapsed <? progressPersistInterval then Ret st
    else
      do now <- act ANow;
      do total <- since (CreatedAt record);
      let old := Stats record in
      let record := set_Stats (mkQueryStats progress.1 progress.2 (DBExecDuration old)
                                 (StorageWriteDuration old) total) record in
      act (AMail record) ;;
      notifyWatchers (mkEvent (ID record) (rec_State record) (Stats record) None) ;;
      Ret (record, now).

(** One turn of the goroutine behind the mailbox: whether it goes on. *)
Definition progressWrite (execCtx : ctx_id) (snapshot : QueryRecord) : M bool :=
  do written <- meta (CtxWithTimeout (CtxId execCtx) progressPersistTimeout)
                  (OpUpdateQueryIfState snapshot [StateRunning]);
  match written with
  | Err _ => Ret true
  | Ok w => Ret w
  end.

Definition deletePartial (store : string) (ref : ResultRef) : M unit :=
  act (ADeleteResult CtxBackground store ref) ;; Ret tt.

(** Streaming the rows into an open writer, and the end of the query. The encoding is
    one action, answered with the progress it reported; [Progress] has the row loop
    itself beside the goroutine that writes the reports. *)
Definition stream_rows (c : ctx_id) (record : QueryRecord) (rows : nat) (writer : nat)
  (ref : ResultRef) (startTime dbDuration : Z) : M unit :=
  let opts := rec_Options record in
  do storeStart <- act ANow;
  do out <- act (AEncode (CtxId c) rows (ResultFormat opts) writer);
  do '(record, _) <- for_each report (enc_reports out) (record, zero_time);
  act AStopReporting ;;
  do closeErr <- act (ACloseWriter writer);
  do storeDuration <- since storeStart;
  match enc_err out with
  | Some e =>
      deletePartial (StorageBackend opts) ref ;;
      do '(next, qErr) <- terminalFor (CtxId c) e ErrCodeStreamEncodeFailed;
      finishRun record next qErr dbDuration storeDuration
  | None =>
      match closeErr with
      | Some e =>
          deletePartial (StorageBackend opts) ref ;;
          do '(next, qErr) <- terminalFor (CtxId c) e ErrCodeStorageFinalizeFailed;
          finishRun record next qErr dbDuration storeDuration
      | None =>
          let ref := mkResultRef (Backend ref) (Locator ref) (enc_bytes out) (enc_rows out)
                       (Format ref) ("sha256:" +:+ enc_digest out) in
          do total <- since startTime;
          let old := Stats record in
          let record := set_Stats (mkQueryStats (enc_rows out) (enc_bytes out) (DBExecDuration old)
                                     (StorageWriteDuration old) total)
                          (set_Result (Some ref) record) in
          finishRun record StateSucceeded None dbDuration storeDuration ;;
          act (ATelemetry (TResultBytes (Backend ref) (enc_bytes out))) ;;
          Ret tt
      end
  end.

Definition storage_failure (record : QueryRecord) (code : QueryErrorCode) (dbDuration : Z) : M unit :=
  finishRun record StateFailed (Some (NewQueryError code (backendErrorMessage code) false))
    dbDuration 0.

(** The rows are open; they are closed on every way out. *)
Definition store_rows (c : ctx_id) (record : QueryRecord) (rows : nat) (startTime dbDuration : Z)
  : M unit :=
  let opts := rec_Options record in
  do serr <- act (AGetStore (StorageBackend opts));
  match serr with
  | Some _ => storage_failure record ErrCodeStorageInitFailed dbDuration
  | None =>
      do opened <- act (AWriter (CtxId c) (StorageBackend opts) (ID record) (ResultFormat opts));
      match opened with
      | Err _ => storage_failure record ErrCodeStorageWriterFailed dbDuration
      | Ok (writer, ref) => stream_rows c record rows writer ref startTime dbDuration
      end
  end.

Definition run_body (record : QueryRecord) (p : pool) (c : ctx_id) : M unit :=
  do startTime <- act ANow;
  if negb (CanTransitionTo (rec_State record) StateRunning) then Ret tt
  else
    let record := set_StartedAt startTime (set_State StateRunning record) in
    persist record terminalPersistAttempts initial_backoff ;;
    notifyWatchers (mkEvent (ID record) StateRunning zero_stats None) ;;
    act (ATelemetry TQueryStarted) ;;
    do dbStart <- act ANow;
    do opened <- act (AExec (CtxId c) p (SQL record));
    do dbDuration <- since dbStart;
    match opened with
    | Err e =>
        do '(next, qErr) <- terminalFor (CtxId c) e ErrCodeDBExecFailed;
        finishRun record next qErr dbDuration 0
    | Ok rows =>
        store_rows c record rows startTime dbDuration ;;
        act (ACloseRows rows) ;; Ret tt
    end.

(** The deferred calls run last in, first out. *)
Definition run (record : QueryRecord) (p : pool) (c : ctx_id) : M unit :=
  run_body record p c ;;
  local (LDeregister (ID record)) ;;
  local LReleaseSlot ;;
  act (ACancel c) ;;
  Ret tt.

(** ** Reading and stopping *)

Definition GetQuery (queryID : string) : M (result QueryRecord) := meta CtxCaller (OpGetQuery queryID).

Definition stop_message (queryID : string) : ControlMsg :=
  mkControlMsg ControlStopQuery queryID (instanceID me) None.

Definition StopQuery (queryID : string) : M (option error) :=
  do got <- meta CtxCaller (OpGetQuery queryID);
  match got with
  | Err e => Ret (Some e)
  | Ok record =>
      if IsTerminal (rec_State record) then Ret None
      else
        do local_entry <- (if bool_decide (OwnerInstanceID record = instanceID me)
                           then local (LActive queryID) else Ret None);
        match local_entry with
        | Some aq => act (ACancel (aq_cancel aq)) ;; Ret None
        | None => meta CtxCaller (OpPublishControl (stop_message queryID))
        end
  end.

Definition CountInFlight : M Z :=
  do n <- local LCount;
  do remote <- meta CtxCaller (OpCountInFlight (instanceID me));
  match remote with
  | Err _ => Ret n
  | Ok r => Ret (Z.max n r)
  end.

(** ** Background work *)

(** One tick of the heartbeat worker. *)
Definition heartbeat : M unit :=
  do ids <- local LActiveIDs;
  do cfg <- local LConfig;
  meta CtxManager (OpHeartbeat (instanceID me) ids (heartbeatTTL cfg)) ;;
  do pools <- local LPools;
  for_each (fun kv _ =>
    do stat <- act (APoolStat (mp_pool kv.2));
    act (ATelemetry (TPoolStat kv.1 stat))) (map_to_list pools) tt.

Definition eventPublishTimeout : Z := 5 * Second.

Definition publishEvent (ev : QueryEvent) : M unit :=
  meta (CtxWithTimeout CtxManager eventPublishTimeout)
    (OpPublishControl (mkControlMsg ControlQueryEvent (ev_QueryID ev) (instanceID me)
       (Some (mkPayload (QueryState_string (ev_State ev)) (ev_Stats ev) (ev_Error ev))))) ;;
  Ret tt.

(** What the control worker does with one message. *)
Definition handleControl (msg : ControlMsg) : M unit :=
  if bool_decide (msg_SenderID msg = instanceID me) then Ret tt
  else
    match msg_Type msg with
    | ControlStopQuery =>
        do aq <- local (LActive (msg_QueryID msg));
        match aq with
        | Some aq => act (ACancel (aq_cancel aq)) ;; Ret tt
        | None => Ret tt
        end
    | ControlQueryEvent =>
        match msg_Event msg with
        | None => Ret tt
        | Some pl =>
            do mine <- local (LActive (msg_QueryID msg));
            match mine with
            | Some _ => Ret tt
            | None =>
                local (LDeliver (mkEvent (msg_QueryID msg) (QueryState_of_string (pl_State pl))
                                   (pl_Stats pl) (pl_Error pl)))
            end
        end
    | ControlOther _ => Ret tt
    end.

(** *** Garbage collection *)

(** The key, then the record, of a query whose result is gone. *)
Definition drop_metadata (cx : ctxref) (id : string) (rec : QueryRecord) : M unit :=
  (if bool_decide (IdempotencyKey rec = "") then Ret tt
   else meta cx (OpReleaseIdempotency (DatabaseID rec)
                   (scopedIdempotencyKey (Subject rec) (IdempotencyKey rec)) id) ;; Ret tt) ;;
  meta cx (OpDeleteQuery id) ;; Ret tt.

(** The result, then the metadata; the metadata is kept when the result could
    not be deleted. *)
Definition drop_result (cx : ctxref) (id : string) (rec : QueryRecord) : M unit :=
  match rec_Result rec with
  | None => drop_metadata cx id rec
  | Some ref =>
      do serr <- act (AGetStore (Backend ref));
      match serr with
      | Some _ => Ret tt
      | None =>
          do derr <- act (ADeleteResult cx (Backend ref) ref);
          match derr with
          | Some _ => Ret tt
          | None => drop_metadata cx id rec
          end
      end
  end.

Definition collectQuery (cx : ctxref) (id : string) : M unit :=
  do got <- meta cx (OpGetQuery id);
  match got with
  | Err _ => Ret tt
  | Ok rec =>
      if state_eqb (rec_State rec) StateExpired then drop_result cx id rec
      else if negb (CanTransitionTo (rec_State rec) StateExpired) then Ret tt
      else
        let rec := set_State StateExpired rec in
        do uerr <- meta cx (OpUpdateQuery rec);
        match uerr with
        | Some _ => Ret tt
        | None =>
            notifyWatchers (mkEvent id StateExpired zero_stats None) ;;
            drop_result cx id rec
        end
  end.

(** The loop over the expired queries: it ends when the budget is exhausted. *)
Fixpoint collect_all (cx : ctxref) (ids : list string) : M unit :=
  match ids with
  | [] => Ret tt
  | id :: ids =>
      do e <- act (ACtxErr cx);
      match e with
      | Some _ => Ret tt
      | None => collectQuery cx id ;; collect_all cx ids
      end
  end.

Definition collectGarbage : M unit :=
  let cx := CtxWithTimeout CtxBackground (gcBudget me) in
  do locked <- meta cx (OpTryLock gcLockName (gcLockTTL me));
  match locked with
  | Err _ | Ok false => Ret tt
  | Ok true =>
      do ids <- meta cx OpListExpiredQueries;
      match ids with
      | Err _ => Ret tt
      | Ok ids => collect_all cx ids
      end
  end.

(** *** Owner loss *)

Definition owner_lost_error : QueryError :=
  NewQueryError ErrCodeOwnerLost "owner instance lost before query completion" true.

Definition failOwnerLost (cx : ctxref) (rec : QueryRecord) : M unit :=
  do now <- act ANow;
  let failed := set_Error (Some owner_lost_error)
                  (set_FinishedAt now (set_State StateFailed rec)) in
  do written <- meta cx (OpUpdateQueryIfState failed [StatePending; StateRunning]);
  match written with
  | Err _ | Ok false => Ret tt
  | Ok true =>
      notifyWatchers (mkEvent (ID rec) StateFailed zero_stats (rec_Error failed)) ;;
      do cfg <- local LConfig;
      act (ATelemetry (TQueryCompleted (getEngine (DatabaseID rec) cfg)
                         (QueryState_string StateFailed) 0)) ;;
      Ret tt
  end.

Definition reap_one (cx : ctxref) (grace : Z) (id : string) : M unit :=
  do here <- local (LActive id);
  match here with
  | Some _ => Ret tt
  | None =>
      do got <- meta cx (OpGetQuery id);
      match got with
      | Err _ => Ret tt
      | Ok rec =>
          if bool_decide (OwnerInstanceID rec = instanceID me) then Ret tt
          else
            do age <- since (CreatedAt rec);
            if age <? grace then Ret tt else failOwnerLost cx rec
      end
  end.

Definition reapStaleOwners : M unit :=
  let cx := CtxWithTimeout CtxBackground reapBudget in
  do stale <- meta cx OpListStaleQueries;
  match stale with
  | Err _ => Ret tt
  | Ok ids =>
      do cfg <- local LConfig;
      for_each (fun id _ => reap_one cx (i64_mul 2 (heartbeatTTL cfg)) id) ids tt
  end.

Definition recover_one (cx : ctxref) (id : string) : M unit :=
  do got <- meta cx (OpGetQuery id);
  match got with
  | Err _ => Ret tt
  | Ok rec => if IsTerminal (rec_State rec) then Ret tt else failOwnerLost cx rec
  end.

Definition recoverOrphans : M unit :=
  let cx := CtxWithTimeout CtxBackground reapBudget in
  do owned <- meta cx (OpListByInstance (instanceID me));
  match owned with
  | Err _ => Ret tt
  | Ok ids => for_each (fun id _ => recover_one cx id) ids tt
  end.

(** ** Pools and reloading *)

(** The state of the loop of [syncPools]: what is left of the current pools, the
    next table, the retired pools and the errors. *)
Record sync_state := mkSync {
  sy_current : gmap string managedPool;
  sy_next : gmap string managedPool;
  sy_stale : list (string * pool);
  sy_errs : list error
}.

Definition sync_one (db : DatabaseConfig) (st : sync_state) : M sync_state :=
  let id := dbc_ID db in
  let existing := sy_current st !! id in
  let current := delete id (sy_current st) in
  match existing with
  | Some mp =>
      if samePoolConfig (mp_cfg mp) db
      then Ret (mkSync current (<[id := mp]> (sy_next st)) (sy_stale st) (sy_errs st))
      else
        do opened <- act (AOpenPool (Engine db) (DSN db) (MaxConns db));
        match opened with
        | Err e =>
            Ret (mkSync current (<[id := mp]> (sy_next st)) (sy_stale st)
                   (sy_errs st ++ [WrapError ("database " +:+ id) e]))
        | Ok p =>
            Ret (mkSync current (<[id := mkManagedPool p db]> (sy_next st))
                   (sy_stale st ++ [(id, mp_pool mp)]) (sy_errs st))
        end
  | None =>
      do opened <- act (AOpenPool (Engine db) (DSN db) (MaxConns db));
      match opened with
      | Err e =>
          Ret (mkSync (sy_current st) (sy_next st) (sy_stale st)
                 (sy_errs st ++ [WrapError ("database " +:+ id) e]))
      | Ok p =>
          Ret (mkSync (sy_current st) (<[id := mkManagedPool p db]> (sy_next st))
                 (sy_stale st) (sy_errs st))
      end
  end.

Definition retired_of (current : gmap string managedPool) : list (string * pool) :=
  map (fun kv => (kv.1, mp_pool kv.2)) (map_to_list current).

(** [errors.Join]: nothing for no errors. *)
Definition errors_join (errs : list error) : option error :=
  match errs with [] => None | _ => Some (JoinError errs) end.

Definition syncPools : M (option error) :=
  do cfg <- local LConfig;
  do current <- local LPools;
  do st <- for_each sync_one (Databases cfg) (mkSync current ∅ [] []);
  local (LSetPools (sy_next st)) ;;
  for_each (fun r _ => act (AClosePoolWhenIdle r.1 r.2)) (sy_stale st ++ retired_of (sy_current st)) tt ;;
  Ret (errors_join (sy_errs st)).

(** [strings.Split] on a newline. *)
Fixpoint split_lines (s : string) : list string :=
  match s with
  | "" => [""]
  | String c s =>
      if bool_decide (String c "" = newline) then "" :: split_lines s
      else match split_lines s with
           | l :: ls => String c l :: ls
           | [] => [String c ""]
           end
  end%string.

Definition Reload : M (ReloadReport * option error) :=
  do oldCfg <- local LConfig;
  do rerr <- act AReloadConfig;
  match rerr with
  | Some e => Ret (mkReloadReport [] [] [] [] [], Some e)
  | None =>
      do newCfg <- local LConfig;
      let diff := DiffDatabases (Some oldCfg) (Some newCfg) in
      let ignored := NonReloadableChanges (Some oldCfg) (Some newCfg) in
      let report fails := mkReloadReport (dbIDs (diff_Added diff)) (dbIDs (diff_Removed diff))
                            (dbIDs (diff_Updated diff)) ignored fails in
      do serr <- syncPools;
      match serr with
      | Some e => Ret (report (split_lines (Error e)), Some e)
      | None => Ret (report [], None)
      end
  end.

End Manager.
