(* ===== verification/Progress.v ===== *)
(** * Progress reports

    [progressReporter] of [internal/core/manager/manager.go]: the row loop of an
    execution and the goroutine that writes its progress share a mailbox of one slot,
    a flag and the end of the goroutine. In [Manager] they are the actions [AMail],
    [ALost] and [AStopReporting] of the program of the execution; here the program runs
    beside the goroutine, in any interleaving, with every answer of the metadata store. *)

From S2P Require Import Prelude Domain Utf8 SqlGuard Authn Config MetaStore Prog ManagerState Manager Pipe.

Open Scope Z_scope.
Open Scope dbb_scope.

(** The goroutine waits for a snapshot, is writing one, or has ended. *)
Inductive writing := WIdle | WWriting (snapshot : QueryRecord) | WDone.

(** The row loop may report, waits in [stop], or [stop] has returned. *)
Inductive looping := Reporting | Stopping | Stopped.

Record mailbox := mkMailbox {
  slot : option QueryRecord;
  mb_closed : bool;
  mb_lost : bool;
  writer : writing;
  loop : looping;
  offered : list QueryRecord;   (* the snapshots [report] made *)
  attempted : list QueryRecord  (* those handed to the metadata store *)
}.

Definition new_mailbox : mailbox := mkMailbox None false false WIdle Reporting [] [].

(** ** Operations *)

(** [select { case updates <- *record: default: }]: whether there was room. *)
Definition mail (snapshot : QueryRecord) (m : mailbox) : bool * mailbox :=
  match slot m with
  | None => (true, mkMailbox (Some snapshot) (mb_closed m) (mb_lost m) (writer m) (loop m) (offered m ++ [snapshot]) (attempted m))
  | Some _ => (false, mkMailbox (slot m) (mb_closed m) (mb_lost m) (writer m) (loop m) (offered m ++ [snapshot]) (attempted m))
  end.

(** One receive of [for snapshot := range updates]. *)
Definition take_mail (m : mailbox) : option mailbox :=
  match writer m, slot m with
  | WIdle, Some s => Some (mkMailbox None (mb_closed m) (mb_lost m) (WWriting s) (loop m) (offered m) (attempted m ++ [s]))
  | WIdle, None => if mb_closed m then Some (mkMailbox None true (mb_lost m) WDone (loop m) (offered m) (attempted m)) else None
  | _, _ => None
  end.

(** The end of a write ([progressWrite]): the goroutine goes on, or the record is lost
    and it ends. *)
Definition written_back (go : bool) (m : mailbox) : mailbox :=
  mkMailbox (slot m) (mb_closed m) (mb_lost m || negb go) (if go then WIdle else WDone) (loop m) (offered m) (attempted m).

(** [stop] closes the mailbox and waits for the goroutine. *)
Definition stop_reporting (m : mailbox) : mailbox :=
  mkMailbox (slot m) true (mb_lost m) (writer m) Stopping (offered m) (attempted m).

Definition stop_returns (m : mailbox) : mailbox :=
  mkMailbox (slot m) (mb_closed m) (mb_lost m) (writer m) Stopped (offered m) (attempted m).

(** ** Interleavings *)

(** The calls that concern the mailbox. *)
Definition mailing (a : action) : bool := match a with AMail _ | ALost | AStopReporting => true | _ => false end.

Section Run.
Context (c : ctx_id) {A : Type}.

(** The row loop's program and the mailbox. *)
Definition config : Type := M A * mailbox.

Inductive step : config -> config -> Prop :=
| step_mail s k m : step (Vis (AMail s) k, m) (k (mail s m).1, (mail s m).2)
| step_lost k m : step (Vis ALost k, m) (k (mb_lost m), m)
| step_stop k m : loop m = Reporting -> step (Vis AStopReporting k, m) (Vis AStopReporting k, stop_reporting m)
| step_stopped k m : loop m = Stopping -> writer m = WDone -> step (Vis AStopReporting k, m) (k tt, stop_returns m)
| step_other e k x m : mailing e = false -> step (Vis e k, m) (k x, m)
| step_take p m m' : take_mail m = Some m' -> step (p, m) (p, m')
| step_written p m s tr go :
    writer m = WWriting s -> executes (progressWrite c s) tr go -> step (p, m) (p, written_back go m).

(** ** What the row loop does *)

(** After [stop] nothing is mailed. *)
Definition silent (a : action) : Prop := match a with AMail _ | AStopReporting => False | _ => True end.

Definition is_stop (a : action) : bool := match a with AStopReporting => true | _ => false end.
Definition is_meta (a : action) : bool := match a with AMeta _ _ => true | _ => false end.

(** Before it nothing is written to the metadata store, and it comes on every way. *)
Fixpoint reporting {X} (p : M X) : Prop :=
  match p with
  | Ret _ => False
  | Vis e k => if is_stop e then forall x, only silent (k x) else is_meta e = false /\ forall x, reporting (k x)
  end.

Lemma reporting_bind {X Y} (p : M X) (f : X -> M Y) :
  only (fun a => is_stop a = false /\ is_meta a = false) p -> (forall x, reporting (f x)) -> reporting (bind p f).
Proof.
  intros Hp Hf. induction p as [x|e k IH]; [apply Hf|]. cbn [bind reporting]. destruct Hp as [[-> ->] Hk]. split; [done|].
  intros y. by apply IH.
Qed.

Definition at_stop {X} (p : M X) : Prop := match p with Ret _ => False | Vis e _ => is_stop e = true end.

Record config_ok (cf : config) : Prop := {
  co_order : sublist (attempted cf.2 ++ option_list (slot cf.2)) (offered cf.2);
  co_closed : mb_closed cf.2 = match loop cf.2 with Reporting => false | _ => true end;
  co_row : match loop cf.2 with
           | Reporting => reporting cf.1
           | Stopping => reporting cf.1 /\ at_stop cf.1
           | Stopped => only silent cf.1 /\ writer cf.2 = WDone
           end
}.

Lemma mail_ok s m :
  sublist (attempted m ++ option_list (slot m)) (offered m) ->
  let m' := (mail s m).2 in
  sublist (attempted m' ++ option_list (slot m')) (offered m') /\ loop m' = loop m /\ mb_closed m' = mb_closed m /\
  writer m' = writer m.
Proof.
  intros Ho. unfold mail. destruct (slot m) as [r|] eqn:Es; simpl; rewrite ?Es; split_and!; try done.
  - by apply sublist_inserts_r.
  - simpl in Ho. rewrite app_nil_r in Ho. by apply sublist_app.
Qed.

Lemma progress_step_ok cf cf' : config_ok cf -> step cf cf' -> config_ok cf'.
Proof.
  intros [Ho Hc Hr] Hs. destruct Hs as [s k m|k m|k m Hl|k m Hl Hw|e k x m He|p m m' Ht|p m s tr go Hw Hex]; cbn [fst snd] in *.
  - destruct (mail_ok s m Ho) as (Ho' & El & Ec & Ew). split; cbn [fst snd]; rewrite ?El, ?Ec, ?Ew; try done.
    destruct (loop m); [apply Hr|by destruct Hr as [_ Hx]|by destruct Hr as [[[] _] _]].
  - split; cbn [fst snd]; try done. destruct (loop m); [apply Hr|by destruct Hr as [_ Hx]|destruct Hr as [[_ Hk] ?]; auto].
  - rewrite Hl in *. by split.
  - rewrite Hl in *. split; cbn [fst snd stop_returns loop]; try done. destruct Hr as [Hr _]. split; [apply Hr|done].
  - split; cbn [fst snd]; try done. assert (is_stop e = false) as Hst by by destruct e.
    destruct (loop m); [|by destruct Hr as [_ Hx]; simpl in Hx; rewrite Hst in Hx|destruct Hr as [[_ Hk] ?]; auto].
    cbn [reporting] in Hr. rewrite Hst in Hr. by destruct Hr.
  - unfold take_mail in Ht. destruct (writer m) eqn:Ew; try done. destruct (slot m) as [s|] eqn:Es.
    + injection Ht as <-. split; simpl; [by rewrite app_nil_r|done|]. by destruct (loop m); try done; destruct Hr.
    + destruct (mb_closed m) eqn:Ecl; [|done]. injection Ht as <-. split; simpl; [done|done|]. by destruct (loop m); try done; destruct Hr.
  - split; simpl; [done|done|]. destruct (loop m); try done. destruct Hr as [? Hx]. congruence.
Qed.

(** ** Steps end *)

(** What is left for the goroutine, and for [stop]. *)
Definition to_settle (m : mailbox) : nat :=
  (match slot m with Some _ => 2 | None => 0 end + match writer m with WIdle => 1 | WWriting _ => 2 | WDone => 0 end +
   match loop m with Reporting => 2 | Stopping => 1 | Stopped => 0 end)%nat.

(** A step takes the row loop further in its program, or leaves less to settle. *)
Lemma step_settles cf cf' : step cf cf' -> prog_lt cf'.1 cf.1 \/ (cf'.1 = cf.1 /\ (to_settle cf'.2 < to_settle cf.2)%nat).
Proof.
  destruct 1 as [s k m|k m|k m Hl|k m Hl Hw|e k x m He|p m m' Ht|p m s tr go Hw Hex]; cbn [fst snd];
    try (left; simpl; eauto; fail); right; (split; [done|]); unfold to_settle; simpl.
  - rewrite Hl. lia.
  - unfold take_mail in Ht. destruct (writer m); try done. destruct (slot m); [by injection Ht as <-; simpl; lia|].
    destruct (mb_closed m); [|done]. injection Ht as <-. simpl. lia.
  - rewrite Hw. destruct go; lia.
Qed.

Lemma progress_finite cf : Acc (fun cf' cf => step cf cf') cf.
Proof.
  enough (forall p n cf, cf.1 = p -> to_settle cf.2 = n -> Acc (fun cf' cf => step cf cf') cf) by eauto.
  clear cf. intros p. induction (prog_lt_wf p) as [p _ IHp]. intros n. induction n as [n IHn] using lt_wf_ind.
  intros cf <- <-. constructor. intros cf' [Hlt|[Heq Hlt]]%step_settles; [by eapply IHp|]. eapply IHn; [exact Hlt|done|done].
Qed.

(** The row loop is never left waiting in [stop]: the goroutine always has something to
    do until it ends. *)
Lemma stop_progress p m :
  config_ok (p, m) -> at_stop p -> loop m <> Stopped -> exists cf', step (p, m) cf'.
Proof.
  intros [_ Hc _] Hat Hl. destruct p as [|e k]; [done|]. destruct e; try done. cbn [snd] in *.
  destruct (loop m) eqn:El; [by eexists; apply step_stop| |done].
  destruct (writer m) as [|s|] eqn:Ew.
  - destruct (take_mail m) as [m'|] eqn:Et; [by eexists; apply step_take|]. unfold take_mail in Et. rewrite Ew, Hc in Et. by destruct (slot m).
  - eexists. eapply (step_written _ _ s [_] true); [done|]. eexists (Err ErrNotFound), []. by split.
  - by eexists; apply step_stopped.
Qed.

End Run.

(** ** Streaming the rows of a query *)

Lemma report_calls p st : only (fun a => is_stop a = false /\ is_meta a = false) (report p st).
Proof.
  destruct st as [r last]. unfold report, since, notifyWatchers, act, local, call. cbn [bind only].
  split; [done|]. intros lost. destruct lost; [done|]. split; [done|]. intros now. cbn [bind].
  destruct (_ <? _); [done|]. split; [done|]. intros now'. split; [done|]. intros now''. cbn [bind].
  split; [done|]. intros room. split; [done|]. intros []. destruct (IsTerminal _); by repeat split.
Qed.

Lemma terminalFor_silent cx e code : only silent (terminalFor cx e code).
Proof.
  unfold terminalFor, act, call. destruct (is_canceled e); [done|]. split; [done|]. intros x. cbn [bind].
  destruct (ctx_is is_canceled x); [done|]. destruct (is_deadline e); [done|]. split; [done|]. intros y. by cbn [bind]; destruct (ctx_is is_deadline y).
Qed.

Lemma persist_silent r n b : only silent (persist r n b).
Proof.
  revert b. induction n as [|n IH]; intros b; [done|]. cbn [persist]. unfold meta, call. cbn [bind only].
  split; [done|]. intros [e|]; [|done]. destruct n as [|n]; [done|]. split; [done|]. intros []; [done|apply IH].
Qed.

Lemma finishRun_silent r next qErr d1 d2 : only silent (finishRun r next qErr d1 d2).
Proof.
  unfold finishRun. apply only_bind; [by destruct (_ =? _); repeat split|]. intros total. apply only_bind.
  - unfold complete. destruct (negb _); [done|]. apply only_bind; [by repeat split|]. intros now.
    apply only_bind; [apply persist_silent|]. intros perr. apply only_bind; [destruct (_ && _); by repeat split|].
    intros []. apply only_bind; [|by intros]. unfold notifyWatchers. apply only_bind; [by repeat split|]. intros [].
    destruct (IsTerminal _); by repeat split.
  - intros [rec|]; by repeat split.
Qed.

Lemma stream_rows_reporting c record rows w ref t0 d : reporting (stream_rows c record rows w ref t0 d).
Proof.
  unfold stream_rows. cbn [bind call act reporting is_stop is_meta]. split; [done|]. intros start. split; [done|]. intros out.
  apply reporting_bind; [apply only_for_each; intros; apply report_calls|]. intros [r last].
  cbn [bind call act reporting is_stop]. intros []. split; [done|]. intros closeErr. split; [done|]. intros now. cbn [bind].
  destruct (enc_err out) as [e|]; [|destruct closeErr as [e|]].
  - split; [done|]. intros x. cbn [bind]. apply only_bind; [apply terminalFor_silent|]. intros [next qErr]. apply finishRun_silent.
  - split; [done|]. intros x. cbn [bind]. apply only_bind; [apply terminalFor_silent|]. intros [next qErr]. apply finishRun_silent.
  - split; [done|]. intros x. cbn [bind]. apply only_bind; [apply finishRun_silent|]. intros []. by repeat split.
Qed.

(** C8. The progress of a query is written beside the row loop and is over before the query
    is. In every interleaving of an execution that streams rows with the goroutine
    behind its reports, and with every answer of the metadata store: nothing is mailed
    after the mailbox is closed; the snapshots written are some of those reported, in
    their order; whenever the execution itself is about to write to the metadata store
    the goroutine has ended, so that its terminal write races with no progress; every
    run is finite, and [stop] is never waited for in vain. *)
Theorem progress_over_before_verdict c record rows w ref t0 d p m :
  rtc (step c) (stream_rows c record rows w ref t0 d, new_mailbox) (p, m) ->
  (forall s k, p = Vis (AMail s) k -> mb_closed m = false) /\
  sublist (attempted m) (offered m) /\
  (forall cx op k, p = Vis (AMeta cx op) k -> writer m = WDone) /\
  Acc (fun cf' cf => step c cf cf') (p, m) /\
  (at_stop p -> exists cf', step c (p, m) cf').
Proof.
  intros Hr. assert (config_ok (p, m)) as Hok.
  { assert (config_ok (stream_rows c record rows w ref t0 d, new_mailbox)) as H0.
    { split; [apply sublist_nil_l|done|]. exact (stream_rows_reporting c record rows w ref t0 d). }
    revert H0. induction Hr; eauto using progress_step_ok. }
  pose proof Hok as [Ho Hc Hrow]. cbn [fst snd] in *. split_and!.
  - intros s k ->. rewrite Hc. destruct (loop m); [done|by destruct Hrow as [_ Hx]|by destruct Hrow as [[[] _] _]].
  - etrans; [|exact Ho]. by apply sublist_inserts_r.
  - intros cx op k ->. destruct (loop m); [by destruct Hrow|by destruct Hrow as [_ Hx]|by destruct Hrow].
  - apply progress_finite.
  - intros Hat. apply stop_progress; [done|done|]. intros Hl. rewrite Hl in Hrow. destruct Hrow as [Hs _].
    destruct p as [|e k]; [done|]. destruct e; try done. by destruct Hs.
Qed.

(** ** Examples *)

Definition demo_query : QueryRecord :=
  mkQueryRecord "q" "pg" "select 1" (mkQueryOptions 0 "async" 0 "" "csv" "fs") StateRunning "i-1" 1 2 zero_time None
    zero_stats None "" zero_time "alice".

Definition demo_ref : ResultRef := mkResultRef "fs" "q.csv" 0 0 "csv" "".

Definition demo_encoded : encode_outcome := mkEncode [(1, 10)] 1 10 None "ab".

(** The first report of a query is being written while its execution waits in [stop]. *)
Lemma progress_over_before_verdict_witness :
  exists (p : M unit) m, writer m <> WDone /\ attempted m <> [] /\ sublist (attempted m) (offered m) /\
    exists cf', step 1%nat (p, m) cf'.
Proof.
  set (t := 63800000000 * Second).
  assert (exists (p : M unit) m, writer m <> WDone /\ attempted m <> [] /\ at_stop p /\
    rtc (step 1%nat) (stream_rows 1 demo_query 1 1 demo_ref 0 0, new_mailbox) (p, m)) as (p & m & Hw & Ha & Hs & Hr).
  { eexists _, _. split; [|split; [|split; [|
      refine (rtc_l _ _ _ _ (step_other _ ANow _ (t : answer ANow) _ eq_refl) _);
      refine (rtc_l _ _ _ _ (step_other _ (AEncode _ _ _ _) _ demo_encoded _ eq_refl) _); cbn;
      refine (rtc_l _ _ _ _ (step_lost _ _ _) _); cbn;
      do 3 (refine (rtc_l _ _ _ _ (step_other _ ANow _ (t : answer ANow) _ eq_refl) _); cbn);
      refine (rtc_l _ _ _ _ (step_mail _ _ _ _) _); cbn;
      refine (rtc_l _ _ _ _ (step_other _ (ALocal (LDeliver _)) _ tt _ eq_refl) _); cbn;
      refine (rtc_l _ _ _ _ (step_other _ (ALocal (LEnqueue _)) _ true _ eq_refl) _); cbn;
      (eapply rtc_l; [eapply step_take; reflexivity|]); cbn;
      apply rtc_refl]]]; done. }
  exists p, m. destruct (progress_over_before_verdict 1 demo_query 1 1 demo_ref 0 0 p m Hr) as (_ & Hsub & _ & _ & Hp).
  exact (conj Hw (conj Ha (conj Hsub (Hp Hs)))).
Defined.
