(* ===== verification/World.v ===== *)
(** * A concrete world for the manager's programs

    An executable handler of the manager's actions: one instance with the
    in-memory store, a clock that advances by a millisecond per reading and by half a
    second per tick of a timer, and a
    database and a result store whose answers are fields of the world. The
    examples of the properties run the programs in it. *)

From S2P Require Import Prelude Domain Utf8 SqlGuard Authn Lifecycle Config MetaStore Prog ManagerState.
From S2P Require Import Manager.
Import Config.

Record world := mkWorld {
  w_store : Memory.MemoryMetaStore;
  w_qm : QueryManager;
  w_now : time;
  w_fresh : nat;
  w_ping : option error;
  w_exec : result nat;
  w_encode : encode_outcome;
  w_close : option error
}.

Definition with_store s w :=
  mkWorld s (w_qm w) (w_now w) (w_fresh w) (w_ping w) (w_exec w) (w_encode w) (w_close w).
Definition with_qm q w :=
  mkWorld (w_store w) q (w_now w) (w_fresh w) (w_ping w) (w_exec w) (w_encode w) (w_close w).
Definition advance d w :=
  mkWorld (w_store w) (w_qm w) (w_now w + d) (w_fresh w) (w_ping w) (w_exec w)
    (w_encode w) (w_close w).
Definition tick := advance Millisecond.
Definition next_fresh w :=
  mkWorld (w_store w) (w_qm w) (w_now w) (S (w_fresh w)) (w_ping w) (w_exec w) (w_encode w) (w_close w).

Definition local_default (op : local_op) : local_answer op :=
  match op with
  | LLookupPool _ | LAdmit _ _ _ | LActive _ | LDequeue => None
  | LAcquireSlot | LEnqueue _ => false
  | LActiveIDs => []
  | LActiveForDB _ | LCount => 0
  | LWatch _ => 0%nat
  | LConfig => zero_config
  | LPools | LActives => ∅
  | LDeregister _ | LReleaseSlot | LDrain | LUnwatch _ _ | LDeliver _ | LSetPools _ => tt
  end.

(** A distinct name per number. *)
Fixpoint name_of (n : nat) : string :=
  match n with 0%nat => "q" | S n => "q" +:+ name_of n end.

Definition handle (a : action) (w : world) : answer a * world :=
  match a with
  | ALocal op =>
      match local_exec op (w_qm w) with
      | Some (x, q) => (x, with_qm q w)
      | None => (local_default op, w)
      end
  | AMeta _ op =>
      let '(x, s) := Memory.exec (w_now w) (w_now w) op (w_store w) in (x, with_store s w)
  | ANow => (w_now w, tick w)
  | ANewUUID => (name_of (w_fresh w), next_fresh w)
  | ANewCtx _ => (w_fresh w, next_fresh w)
  | ACtxErr _ => (None, w)
  | APing _ => (w_ping w, w)
  | AExec _ _ _ => (w_exec w, w)
  | AOpenPool _ _ _ => (Ok (w_fresh w), next_fresh w)
  | AGetStore name => (if bool_decide (name = "fs") then None else Some (PlainError "unknown"), w)
  | ASupportsFormat _ _ => (true, w)
  | AWriter _ store id fmt => (Ok (0%nat, mkResultRef store id 0 0 fmt ""), w)
  | AEncode _ _ _ _ => (w_encode w, w)
  | ACloseWriter _ => (w_close w, w)
  | AMail _ | ASendTerminal _ => (true, w)
  | ALost | ABackoff _ => (false, w)
  | AWorkerTick => (false, advance (500 * Millisecond) w)
  | AReceiveUntilTerminal _ => ([], w)
  | AReader _ _ _ => (Ok 0%nat, w)
  | AIsDraining => (draining (w_qm w), w)
  | AAdvance n =>
      (if draining (w_qm w)
       then if n =? 0 then Lifecycle.StateStoppable else Lifecycle.StateDraining
       else Lifecycle.StateServing, w)
  | ACloseRows _ | ADeleteResult _ _ _ | AReloadConfig | AClosePool _ | ANextEvent | ANextControl
  | ASubscribe => (None, w)
  | APoolStat _ => ((0, 0, 0), w)
  | AWaitQueries _ | AWaitPublisher _ => (true, w)
  | ACancel _ | AStopReporting | AGoRun _ _ _ | AGoUnwatch _ _ | ATelemetry _
  | AClosePoolWhenIdle _ _ | AGoWorker _ | AStopPublisher | ACancelManager | AWaitWorkers
  | AWaitPools => (tt, w)
  end.

(** One instance with a database [pg] and everything working. *)
Definition demo_config : Config.Config := with_defaults sample_config.

Definition demo_qm : QueryManager :=
  set_pools {[ "pg" := mkManagedPool 1 (mkDatabase "pg" "postgres" "postgres://db" "" 4) ]}
    (new_manager demo_config).

Definition demo_encode : encode_outcome := mkEncode [(1, 10); (2, 20)] 2 20 None "ab".

Definition demo_world : world :=
  mkWorld Memory.NewMemoryMetaStore demo_qm (1000 * Second) 0 None (Ok 5%nat) demo_encode None.

Definition demo_options (key : string) : QueryOptions := mkQueryOptions 0 "" 0 key "" "".

#[export] Existing Instance ascii_unicode.

Definition demo_run {A} (p : M A) (w : world) : A * list (event answer) * world :=
  Prog.run handle p w.

(** Every run in the world is an execution of the program. *)
Lemma demo_executes {A} (p : M A) (w : world) :
  executes p (demo_run p w).1.2 (demo_run p w).1.1.
Proof. apply run_executes. Qed.
