(* ===== verification/Submission.v ===== *)
(** * Properties of submission

    What every execution of [SubmitQuery] does, whatever the metadata store, the
    database, the result stores and the other goroutines answer. *)

From S2P Require Import Prelude Domain Utf8 SqlGuard Authn Config MetaStore Prog ManagerState Manager.
From S2P Require Import World.
Import Config.

Open Scope dbb_scope.

Abbreviation trace := (list (event answer)).

(** ** What a trace holds *)

(** What a submission can hold: a slot, an execution context, the registration of a
    query, a claim of an idempotency key for a query, a launched execution. *)
Inductive held :=
| HSlot
| HContext (c : ctx_id)
| HRegistered (queryID dbID : string) (c : ctx_id)
| HClaim (dbID key queryID : string)
| HRun (record : QueryRecord) (p : pool) (c : ctx_id).

(** Removing the first entry that satisfies [f], [None] when there is none. *)
Fixpoint give_back (f : held -> bool) (h : list held) : option (list held) :=
  match h with
  | [] => None
  | x :: h => if f x then Some h else cons x <$> give_back f h
  end.

Definition is_slot (x : held) : bool := match x with HSlot => true | _ => false end.
Definition is_context (c : ctx_id) (x : held) : bool :=
  match x with HContext c' => bool_decide (c = c') | _ => false end.
Definition is_registered (queryID : string) (x : held) : bool :=
  match x with HRegistered id _ _ => bool_decide (queryID = id) | _ => false end.
Definition is_claim (dbID key queryID : string) (x : held) : bool :=
  match x with HClaim db k id => bool_decide ((dbID, key, queryID) = (db, k, id)) | _ => false end.

(** What is held after an event: [None] when it gives back a slot, a context or a
    registration that is not held. A claim ends when the store confirms its release
    under a context the caller cannot cancel; a release of another claim ends none
    that is held, and one that failed none at all. *)
Definition settle (h : list held) (ev : event answer) : option (list held) :=
  match ev with
  | existT (ALocal LAcquireSlot) got => Some (if got : bool then HSlot :: h else h)
  | existT (ALocal LReleaseSlot) _ => give_back is_slot h
  | existT (ANewCtx _) c => Some (HContext c :: h)
  | existT (ACancel c) _ => give_back (is_context c) h
  | existT (ALocal (LAdmit queryID dbID c)) err =>
      Some (match err : option error with None => HRegistered queryID dbID c :: h | Some _ => h end)
  | existT (ALocal (LDeregister queryID)) _ => give_back (is_registered queryID) h
  | existT (AMeta _ (OpAcquireIdempotency dbID key queryID _)) got =>
      Some (match got : result (string * bool) with
            | Ok (_, true) => HClaim dbID key queryID :: h
            | _ => h
            end)
  | existT (AMeta (CtxWithoutCancel _) (OpReleaseIdempotency dbID key queryID)) err =>
      Some (match err : option error with
            | None => default h (give_back (is_claim dbID key queryID) h)
            | Some _ => h
            end)
  | existT (AGoRun record p c) _ => Some (HRun record p c :: h)
  | _ => Some h
  end.

Fixpoint ledger (h : list held) (tr : trace) : option (list held) :=
  match tr with
  | [] => Some h
  | ev :: tr => settle h ev ≫= fun h => ledger h tr
  end.


(** The launches of a trace. *)
Definition tally (w : event answer -> Z) (tr : trace) : Z := foldr (fun ev n => w ev + n) 0 tr.

Lemma tally_app w tr1 tr2 : tally w (tr1 ++ tr2) = tally w tr1 + tally w tr2.
Proof. unfold tally. induction tr1; simpl; lia. Qed.

Definition w_launched (ev : event answer) : Z :=
  match ev with
  | existT (AGoRun _ _ _) _ => 1
  | _ => 0
  end.

(** Symbolic execution: one answer at a time, branching on it. *)
Ltac answer_cases x :=
  lazymatch type of x with
  | option _ => destruct x
  | result (_ * bool) => destruct x as [[? []]|]
  | result (option _) => destruct x as [[?|]|]
  | result _ => destruct x
  | bool => destruct x
  | _ => idtac
  end.

Ltac exec_step :=
  cbn [bind wp];
  lazymatch goal with
  | |- wp (match ?b with _ => _ end) _ _ => destruct b eqn:?
  | |- wp (bind (match ?b with _ => _ end) _) _ _ => destruct b eqn:?
  | |- forall _, _ =>
      let x := fresh "x" in intros x; cbn in x; answer_cases x; cbn [negb]
  end.

Ltac exec := unfold act, local, meta, call; repeat exec_step; cbn [bind wp].


Section Submission.
Context `{Unicode} (me : captured) (caller : option Identity).












Lemma resolve_no_run dbID key opts id tr r :
  executes (resolveIdempotency caller dbID key opts id) tr r -> tally w_launched tr = 0.
Proof. revert tr r. apply wp_sound. unfold resolveIdempotency. by exec. Qed.

(** ** Checks come first *)

(** The actions that leave no mark outside the goroutine. *)
Definition harmless (a : action) : Prop :=
  match a with
  | ALocal (LLookupPool _) | ALocal LConfig | AGetStore _ | ASupportsFormat _ _ => True
  | _ => False
  end.

Definition harmless_trace (tr : trace) : Prop := Forall (fun ev => harmless (projT1 ev)) tr.

Lemma harmless_ledger tr : harmless_trace tr -> (forall h, ledger h tr = Some h) /\ tally w_launched tr = 0.
Proof.
  induction 1 as [|[a x] tr Ha _ [Hl Ht]]; [done|].
  destruct a; simpl in Ha; try done; try (case_match; try done); split; done.
Qed.

(** The request passed every check, with the answers of the trace. *)
Definition checks_passed (dbID sql : string) (opts opts' : QueryOptions) (p : pool) (tr : trace) : Prop :=
  existT (ALocal (LLookupPool dbID)) (Some p) ∈ tr /\
  (exists cfg, existT (ALocal LConfig) cfg ∈ tr /\ opts' = applyDefaults me cfg opts) /\
  Validate opts' = None /\
  existT (AGetStore (StorageBackend opts')) None ∈ tr /\
  existT (ASupportsFormat (StorageBackend opts') (ResultFormat opts')) true ∈ tr /\
  (exists cfg, existT (ALocal LConfig) cfg ∈ tr /\
     (AllowWrites (Defaults cfg) = true \/ ReadOnly sql = None)).

Definition rejected (dbID : string) (e : error) : Prop :=
  e = NotFoundError "database" dbID \/ is_validation e = true.

Lemma check_request_spec dbID sql opts tr r :
  executes (check_request me dbID sql opts) tr r ->
  harmless_trace tr /\
  match r with
  | Ok (p, opts') => checks_passed dbID sql opts opts' p tr
  | Err e => rejected dbID e
  end.
Proof.
  revert tr r. apply wp_sound. unfold check_request, harmless_trace, rejected. exec.
  all: split; [by repeat constructor|].
  all: try (by left); try (by right).
  - right. by eapply Validate_is_validation.
  - unfold checks_passed. cbn [app].
    split_and!; [set_solver|eexists; split; [|done]; set_solver|done|set_solver|set_solver|].
    exists x0. split; [set_solver|].
    destruct (AllowWrites (Defaults x0)) eqn:?; simplify_eq; eauto.
Qed.

(** The trace of a submission: the checks, and for a request that passed them a
    fresh ID, the resolution of its key if it has one, and the execution. *)
Lemma SubmitQuery_shape dbID sql opts tr r :
  executes (SubmitQuery me caller dbID sql opts) tr r ->
  exists tr1 tr2, tr = tr1 ++ tr2 /\ harmless_trace tr1 /\
    ((tr2 = [] /\ exists e, r = Err e /\ rejected dbID e) \/
     exists p opts' id tr3, tr2 = existT ANewUUID id :: tr3 /\
       checks_passed dbID sql opts opts' p tr1 /\
       let subject := SubjectFromContext caller in
       let key := scopedIdempotencyKey subject (opt_IdempotencyKey opts') in
       if bool_decide (opt_IdempotencyKey opts' = "")
       then executes (execute me dbID sql opts' p id subject key) tr3 r
       else exists tr4 tr5 found, tr3 = tr4 ++ tr5 /\
         executes (resolveIdempotency caller dbID key opts' id) tr4 found /\
         match found with
         | Err e => tr5 = [] /\ r = Err e
         | Ok (Some rec) => tr5 = [existT (ATelemetry TIdempotencyHit) tt] /\ r = Ok rec
         | Ok None => executes (execute me dbID sql opts' p id subject key) tr5 r
         end).
Proof.
  unfold SubmitQuery. intros (tr1 & tr2 & checked & -> & [Hh Hc]%check_request_spec & Hr)%executes_bind.
  exists tr1, tr2. split_and!; [done..|]. destruct checked as [[p opts']|e].
  - right. unfold act, call in Hr. cbn [bind executes] in Hr. destruct Hr as (id & tr3 & -> & Hr). exists p, opts', id, tr3.
    split_and!; [done..|]. cbv zeta in *. case_bool_decide; [done|].
    apply executes_bind in Hr as (tr4 & tr5 & found & -> & Hres & Hr).
    exists tr4, tr5, found. split_and!; [done..|].
    destruct found as [[rec|]|e]; simpl in Hr; [|done|by destruct Hr].
    destruct Hr as ([] & ? & -> & -> & ->). done.
  - left. destruct Hr as [-> ->]. eauto.
Qed.

(** C28. Everything that can reject a submission runs before its first side
    effect: either the request is refused because the database is unknown or as
    a validation error, and then no claim was made, no database was contacted and
    nothing was stored or launched; or, before anything else happened, its
    database was found, its options with the defaults filled in were valid, its
    storage backend exists and keeps the format, and its statement passed the
    read-only guard unless writes are allowed. *)
Theorem submission_checks_first dbID sql opts tr r :
  executes (SubmitQuery me caller dbID sql opts) tr r ->
  (harmless_trace tr /\ exists e, r = Err e /\ rejected dbID e) \/
  (exists tr1 tr2 p opts', tr = tr1 ++ tr2 /\ harmless_trace tr1 /\
     checks_passed dbID sql opts opts' p tr1).
Proof.
  intros (tr1 & tr2 & -> & Hh & [[-> Hr]|(p & opts' & id & tr3 & _ & Hc & _)])%SubmitQuery_shape.
  - left. by rewrite app_nil_r.
  - right. by exists tr1, tr2, p, opts'.
Qed.



End Submission.

(** ** Traces over a shared store *)

Section Shared.
Context {S : Type} `{!MetaStore S} `{Unicode}.

(** [others now op] says which operations the other parties perform; [clock] is
    what is known of the moments the program's own operations happen at. *)
Context (others : time -> meta_op -> Prop) (clock : time -> Prop).

Definition interference : S -> S -> Prop :=
  rtc (fun s s' => exists now now' op, others now op /\ s' = (meta_exec now now' op s).2).

Definition store_step (ev : event answer) (s s' : S) : Prop :=
  match ev with
  | existT a x =>
      match a return answer a -> Prop with
      | AMeta _ op => fun x => exists now now', clock now /\
          x = (meta_exec now now' op s).1 /\ s' = (meta_exec now now' op s).2
      | _ => fun _ => s' = s
      end x
  end.

(** The answers of a trace are those of a store that other parties use in
    between. *)
Fixpoint consistent (s : S) (tr : trace) (s' : S) : Prop :=
  match tr with
  | [] => interference s s'
  | ev :: tr => exists s1 s2, interference s s1 /\ store_step ev s1 s2 /\ consistent s2 tr s'
  end.

Lemma consistent_interference s s1 tr s' :
  interference s s1 -> consistent s1 tr s' -> consistent s tr s'.
Proof.
  intros Hi. destruct tr as [|ev tr]; simpl; [intros ?; by etrans|].
  intros (s2 & s3 & ? & ? & ?). exists s2, s3. split_and!; [by etrans|done..].
Qed.

Lemma consistent_app s tr1 tr2 s' :
  consistent s (tr1 ++ tr2) s' -> exists s1, consistent s tr1 s1 /\ consistent s1 tr2 s'.
Proof.
  revert s. induction tr1 as [|ev tr1 IH]; intros s; simpl.
  - intros Hc. exists s. split; [apply rtc_refl|done].
  - intros (s1 & s2 & ? & ? & (s3 & ? & ?)%IH). exists s3. split; [|done]. by exists s1, s2.
Qed.

(** An invariant of the store that the other parties keep, and that the
    program's own operations keep too. *)
Definition keeps (Inv : S -> Prop) (op : meta_op) : Prop :=
  forall now now' s, clock now -> Inv s -> Inv (meta_exec now now' op s).2.

Context (Inv : S -> Prop)
        (Inv_others : forall now now' op s, others now op -> Inv s -> Inv (meta_exec now now' op s).2).

Lemma interference_Inv s s' : interference s s' -> Inv s -> Inv s'.
Proof. induction 1 as [|s s1 s' (now & now' & op & Ho & ->) _ IH]; auto. Qed.

Lemma consistent_Inv s tr s' :
  Forall (fun ev => match projT1 ev with AMeta _ op => keeps Inv op | _ => True end) tr ->
  consistent s tr s' -> Inv s -> Inv s'.
Proof.
  intros Hk. revert s. induction Hk as [|[a x] tr Ha _ IH]; intros s; simpl.
  - apply interference_Inv.
  - intros (s1 & s2 & Hi & Hst & Hc) HI. apply (IH s2); [done|].
    apply (interference_Inv _ _ Hi) in HI. simpl in Ha.
    destruct a; simpl in Hst; subst; try done.
    destruct Hst as (now & now' & ? & _ & ->). by apply Ha.
Qed.

(** The next operation of the program runs on a store that satisfies the
    invariant. *)
Lemma consistent_meta s cx op x tr s' :
  consistent s (existT (AMeta cx op) x :: tr) s' -> Inv s ->
  exists s1 now now', Inv s1 /\ clock now /\ x = (meta_exec now now' op s1).1 /\
    consistent (meta_exec now now' op s1).2 tr s'.
Proof.
  intros (s1 & s2 & Hi & (now & now' & ? & ? & ->) & ?) HI.
  exists s1, now, now'. split_and!; [by eapply interference_Inv|done..].
Qed.

End Shared.

(** ** Resubmission (I3) *)

Section Resubmission.
Context {S : Type} `{!MetaStore S} `{Unicode}.
Context (me : captured) (caller : option Identity) (dbID : string).
Context (key q : string) (deadline : time).

Definition claim_key : string :=
  fullKey dbID (scopedIdempotencyKey (SubjectFromContext caller) key).

(** The query [q] of the caller is stored and holds the key until [deadline]. *)
Record claimed (s : S) : Prop := {
  cl_inv : meta_inv s;
  cl_holder t : t < deadline -> holder s claim_key t = Some q;
  cl_record : exists r, lookup_rec s q = Some r /\ Subject r = SubjectFromContext caller
}.

(** What the other parties may do before the deadline: anything but end the
    claim of [q], delete its record, or change whose it is. *)
Definition respects (now : time) (op : meta_op) : Prop :=
  now < deadline /\ ~ gives_up claim_key q op /\
  match op with
  | OpPutQuery r | OpUpdateQuery r | OpUpdateQueryIfState r _ =>
      ID r = q -> Subject r = SubjectFromContext caller
  | OpDeleteQuery id => id <> q
  | _ => True
  end.

Lemma record_step now now' op s :
  respects now op -> meta_inv s ->
  (exists r, lookup_rec s q = Some r /\ Subject r = SubjectFromContext caller) ->
  exists r, lookup_rec (meta_exec now now' op s).2 q = Some r /\
    Subject r = SubjectFromContext caller.
Proof.
  intros (_ & _ & Hop) _ Hex.
  destruct (decide (op_record op = Some q)) as [Hq|Hq]; [|by rewrite meta_frame_record].
  destruct op as [r|?|r|r expected|? ? ? ?|? ? ?|? ? ? ?|? ? ?|? ?|?|?|?| | | |id]; simplify_eq/=.
  - pose proof (meta_put now now' r s) as Hl. unfold wrote in Hl. simpl in Hl.
    destruct (meta_exec now now' (OpPutQuery r) s) as [[e|] s1]; simpl in *;
      [destruct Hl as [-> | ->]|rewrite Hl]; [done|exists (stored r); auto..].
  - pose proof (meta_update now now' r s) as Hl. simpl in Hl. destruct Hex as (r0 & Hr0 & ?).
    rewrite Hr0 in Hl. unfold wrote in Hl.
    destruct (meta_exec now now' (OpUpdateQuery r) s) as [[e|] s1]; simpl in *;
      [destruct Hl as [-> | ->]|rewrite Hl]; [eauto|exists (stored r); auto..].
  - pose proof (meta_update_if now now' r expected s) as Hl. simpl in Hl.
    destruct (meta_exec now now' (OpUpdateQueryIfState r expected) s) as [[[]|] s1]; simpl in *.
    + destruct Hl as [_ ->]. exists (stored r). auto.
    + destruct Hl as [_ ->]. done.
    + destruct Hl as [-> | [_ ->]]; [done|]. exists (stored r). auto.
Qed.

Lemma claimed_step now now' op s :
  respects now op -> claimed s -> claimed (meta_exec now now' op s).2.
Proof.
  intros Hr [Hi Hh Hrec]. split.
  - by apply meta_inv_step.
  - destruct Hr as (? & ? & _). by apply claim_step.
  - by apply record_step.
Qed.

Abbreviation own_clock := (fun now : time => now < deadline).

Lemma resolve_claimed opts id tr found s s' :
  AuthorizeSubject caller (SubjectFromContext caller) = None ->
  executes (resolveIdempotency caller dbID
    (scopedIdempotencyKey (SubjectFromContext caller) key) opts id) tr found ->
  consistent respects own_clock s tr s' -> claimed s ->
  (exists rec, found = Ok (Some rec) /\ ID rec = q) \/ exists e, found = Err e.
Proof.
  intros Hauth Hex Hc Hcl. unfold resolveIdempotency, meta, call in Hex. cbn [bind executes] in Hex.
  destruct Hex as (x & tr' & -> & Hex).
  apply (consistent_meta respects own_clock claimed) in Hc as (s1 & now & now' & Hs1 & Hn & Hx & Hc);
    [|intros; by apply claimed_step|done].
  pose proof (meta_acquire now now' dbID (scopedIdempotencyKey (SubjectFromContext caller) key) id
                (idempotencySubmitTTL opts) s1) as Hl.
  cbv zeta in Hl. rewrite <- Hx in Hl. pose proof (cl_holder _ Hs1 now Hn) as Hh. unfold claim_key in Hh.
  destruct x as [[q' []]|e]; [destruct Hl; congruence| |destruct Hex as [_ ->]; eauto].
  destruct Hl as [Hq' _]. assert (q' = q) as -> by congruence.
  cbn [bind executes] in Hex. destruct Hex as (y & tr'' & -> & Hex).
  apply (consistent_meta respects own_clock claimed) in Hc as (s2 & now2 & now2' & Hs2 & _ & Hy & _);
    [|intros; by apply claimed_step|apply claimed_step; [split_and!; [done|by intros []|done]|done]].
  pose proof (meta_get now2 now2' q s2) as Hg. rewrite <- Hy in Hg.
  destruct (cl_record _ Hs2) as (r0 & Hr0 & Hsub). destruct y as [rec|e].
  - destruct Hg as (r1 & d & Hr1 & ->). assert (r1 = r0) as -> by congruence.
    simpl in Hex. rewrite Hsub, Hauth in Hex. destruct Hex as [_ ->]. left. eexists. split; [done|].
    exact (meta_lookup_ID s2 q r0 (cl_inv _ Hs2) Hr0).
  - destruct (is_ErrNotFound e) eqn:He; [by rewrite Hg in Hr0|].
    cbn [negb executes] in Hex. destruct Hex as [_ ->]. eauto.
Qed.

(** C5. Repeating a submission returns the query it created (I3): while a query
    of the caller holds the idempotency key and its record is stored, every
    submission by the caller to the same database with the same key either
    returns the record of that query or fails, and never launches a second
    execution - whatever the statement and the other options are, whether or not
    the database is reachable, and whatever the other instances do to the store
    meanwhile short of giving up the claim or deleting the record. *)
Theorem resubmission_same_query sql opts tr r s s' :
  AuthorizeSubject caller (SubjectFromContext caller) = None ->
  opt_IdempotencyKey opts = key -> key <> "" ->
  claimed s ->
  executes (SubmitQuery me caller dbID sql opts) tr r ->
  consistent respects own_clock s tr s' ->
  ((exists rec, r = Ok rec /\ ID rec = q) \/ exists e, r = Err e) /\ tally w_launched tr = 0.
Proof.
  intros Hauth Hk Hne Hcl (tr1 & tr2 & -> & Hh & Hcase)%SubmitQuery_shape Hc.
  pose proof (harmless_ledger _ Hh) as [_ Hl1].
  destruct Hcase as [(-> & e & -> & _)|(p & opts' & id & tr3 & -> & Hp & Hrest)].
  { rewrite app_nil_r. eauto. }
  assert (opt_IdempotencyKey opts' = key) as Hkey by by destruct Hp as (_ & (cfg & _ & ->) & _).
  rewrite Hkey in Hrest. cbv zeta in Hrest. rewrite bool_decide_false in Hrest by done.
  destruct Hrest as (tr4 & tr5 & found & -> & Hres & Hr).
  apply consistent_app in Hc as (s1 & Hc1 & (s2 & s3 & Hi & -> & Hc)).
  apply consistent_app in Hc as (s4 & Hc4 & _).
  pose proof (resolve_no_run _ _ _ _ _ _ _ Hres) as Hl4.
  eapply resolve_claimed in Hres as [(rec & -> & Hid)|[e ->]]; [| |done|exact Hc4|].
  - destruct Hr as [-> ->]. split; [eauto|]. rewrite tally_app, Hl1. simpl. by rewrite tally_app, Hl4.
  - destruct Hr as [-> ->]. split; [eauto|]. rewrite tally_app, Hl1. simpl. by rewrite tally_app, Hl4.
  - eapply interference_Inv; [|exact Hi|]; [intros; by apply claimed_step|].
    eapply consistent_Inv; [| |exact Hc1|done]; [intros; by apply claimed_step|].
    eapply Forall_impl; [exact Hh|]. intros [[] ?] Ha; simpl in *; done.
Qed.

End Resubmission.

(** ** The name of a claim *)

Definition colon : Ascii.ascii := Ascii.ascii_of_nat 58.
Definition nul : Ascii.ascii := Ascii.ascii_of_nat 0.

(** The name a claim is stored under determines the database, the subject and
    the client's key it stands for, for database IDs without a colon and subjects
    without a zero byte: callers cannot reach each other's claims by choosing a
    key, whatever bytes it has. *)
Theorem claims_separate_subjects db1 db2 s1 s2 k1 k2 :
  string_has colon db1 = false -> string_has colon db2 = false ->
  string_has nul s1 = false -> string_has nul s2 = false ->
  fullKey db1 (scopedIdempotencyKey s1 k1) = fullKey db2 (scopedIdempotencyKey s2 k2) ->
  db1 = db2 /\ s1 = s2 /\ k1 = k2.
Proof.
  intros Hd1 Hd2 Hs1 Hs2 Heq.
  destruct (append_sep_inj colon db1 db2 (scopedIdempotencyKey s1 k1) (scopedIdempotencyKey s2 k2))
    as [-> Hk]; [done|done|exact Heq|].
  destruct (append_sep_inj nul s1 s2 k1 k2) as [-> ->]; [done|done|exact Hk|done].
Qed.

Lemma claims_separate_subjects_witness :
  fullKey "pg" (scopedIdempotencyKey "alice" "k") <> fullKey "pg" (scopedIdempotencyKey "bob" "k") /\
  fullKey "pg" (scopedIdempotencyKey "bob" "k") = fullKey "pg" (scopedIdempotencyKey "bob" "k").
Proof.
  split; [|reflexivity]. intros Heq.
  destruct (claims_separate_subjects "pg" "pg" "alice" "bob" "k" "k"
    eq_refl eq_refl eq_refl eq_refl Heq) as (_ & Hs & _).
  discriminate Hs.
Defined.

(** With a colon in a database ID, or in a subject, two claims share a name. *)
Lemma claims_collide :
  fullKey "a:b" (scopedIdempotencyKey "c" "k") = fullKey "a" (scopedIdempotencyKey "b:c" "k").
Proof. vm_compute. reflexivity. Qed.

(** A retention near the limit of a duration makes the lifetime of the claim
    negative, so that it has run out when it is made. *)
Lemma submit_ttl_overflows :
  let opts := mkQueryOptions 0 "async" (9223372036 * Second) "k" "jsonl" "fs" in
  Validate opts = None /\ is_int64 (ResultTTL opts) /\ idempotencySubmitTTL opts < 0.
Proof. cbv zeta. split_and!; vm_compute; [reflexivity|by split|reflexivity]. Qed.

(** The record found after a reclaimed key was lost to another submission is
    returned without looking at its subject. *)
Lemma reclaimed_key_unchecked :
  exists tr rec caller, executes (resolveIdempotency caller "pg" "key" (demo_options "k") "q2") tr
    (Ok (Some rec)) /\ AuthorizeSubject caller (Subject rec) <> None.
Proof.
  set (rec := mkQueryRecord "q3" "pg" "select 1" (demo_options "k") StatePending "i" 1 0 0 None
                zero_stats None "k" 0 "bob").
  set (ttl := idempotencySubmitTTL (demo_options "k")).
  exists [existT (AMeta CtxCaller (OpAcquireIdempotency "pg" "key" "q2" ttl)) (Ok ("q1", false));
          existT (AMeta CtxCaller (OpGetQuery "q1")) (Err ErrNotFound);
          existT (AMeta CtxCaller (OpReleaseIdempotency "pg" "key" "q1")) None;
          existT (AMeta CtxCaller (OpAcquireIdempotency "pg" "key" "q2" ttl)) (Ok ("q3", false));
          existT (AMeta CtxCaller (OpGetQuery "q3")) (Ok rec)], rec,
         (Some (mkIdentity "alice" [ScopeWrite])).
  split; [|discriminate].
  unfold resolveIdempotency, meta, call. cbn [bind executes].
  do 5 (eexists _, _; split; [reflexivity|]; cbn [bind executes negb is_ErrNotFound errors_any orb]).
  done.
Qed.

(** ** Examples *)

Definition demo_submit (key : string) : M (result QueryRecord) :=
  SubmitQuery (self demo_qm) None "pg" "select 1" (demo_options key).

Lemma submission_checks_first_witness :
  let out := demo_run (demo_submit "k") demo_world in
  (harmless_trace out.1.2 /\ exists e, out.1.1 = Err e /\ rejected "pg" e) \/
  (exists tr1 tr2 p opts', out.1.2 = tr1 ++ tr2 /\ harmless_trace tr1 /\
     checks_passed (self demo_qm) "pg" "select 1" (demo_options "k") opts' p tr1).
Proof. exact (submission_checks_first _ _ _ _ _ _ _ (demo_executes (demo_submit "k") demo_world)). Defined.

(** The database is unreachable. *)
Definition demo_unreachable : world :=
  mkWorld Memory.NewMemoryMetaStore demo_qm (1000 * Second) 0 (Some (PlainError "refused")) (Ok 5%nat)
    demo_encode None.


(** The database is unreachable: nothing is kept, the claim included. *)
Lemma unreachable_holds_nothing : ledger [] (demo_run (demo_submit "k") demo_unreachable).1.2 = Some [].
Proof. vm_compute. reflexivity. Qed.

(** The store of the world answers as a store nobody else uses; a run takes at
    most half a second per action. *)
Lemma handle_store a w :
  w_now (handle a w).2 <= w_now w + 500 * Millisecond /\
  forall (clock : time -> Prop), clock (w_now w) ->
    store_step clock (existT a (handle a w).1) (w_store w) (w_store (handle a w).2).
Proof.
  assert (0 <= Millisecond) by (unfold Millisecond; lia).
  destruct a; simpl; try (split; [lia|done]).
  - destruct (local_exec op (w_qm w)) as [[x q]|]; simpl; split; [lia|done|lia|done].
  - destruct (Memory.exec _ _ _ _) as [x s] eqn:He. simpl. split; [lia|]. intros clock Hc.
    exists (w_now w), (w_now w). by rewrite He.
Qed.

Lemma demo_consistent {A} others deadline (p : M A) (w : world) :
  w_now w + Z.of_nat (length (demo_run p w).1.2) * (500 * Millisecond) < deadline ->
  consistent others (fun now => now < deadline) (w_store w) (demo_run p w).1.2
    (w_store (demo_run p w).2).
Proof.
  unfold demo_run. revert w. induction p as [a|e k IH]; intros w; simpl; [intros; apply rtc_refl|].
  destruct (handle_store e w) as [Hn Hs]. destruct (handle e w) as [x w1] eqn:He. simpl in *.
  specialize (IH x w1). destruct (Prog.run handle (k x) w1) as [[a tr] w2]. simpl in *. intros Ht.
  exists (w_store w), (w_store w1). split; [apply rtc_refl|]. unfold Millisecond in *.
  split; [apply Hs; lia|apply IH; lia].
Qed.

(** The world after a first submission with key [k]. *)
Definition demo_submitted : world := (demo_run (demo_submit "k") demo_world).2.

Lemma demo_claimed :
  claimed None "pg" "k" "q" (2000 * Second) (w_store demo_submitted).
Proof.
  split.
  - change (map_Forall (fun id r => ID r = id) (Memory.queries (w_store demo_submitted))).
    apply (bool_decide_unpack _). vm_compute. exact I.
  - intros t Ht. unfold holder. simpl. unfold Memory.mem_holder.
    replace (Memory.idempExpires (w_store demo_submitted) !! claim_key None "pg" "k")
      with (Some (173800000000000)) by (vm_compute; reflexivity).
    unfold time_before. replace (t <? 173800000000000) with true.
    + vm_compute. reflexivity.
    + symmetry. apply Z.ltb_lt. unfold Second in Ht. lia.
  - eexists. split; [vm_compute; reflexivity|reflexivity].
Qed.

Lemma resubmission_same_query_witness :
  let out := demo_run (demo_submit "k") demo_submitted in
  ((exists rec, out.1.1 = Ok rec /\ ID rec = "q") \/ exists e, out.1.1 = Err e) /\
  tally w_launched out.1.2 = 0.
Proof.
  eapply (resubmission_same_query (self demo_qm) None "pg" "k" "q" (2000 * Second) "select 1"
            (demo_options "k") _ _ (w_store demo_submitted));
    [reflexivity|reflexivity|discriminate|exact demo_claimed|
     exact (demo_executes (demo_submit "k") demo_submitted)|].
  apply demo_consistent. vm_compute. reflexivity.
Defined.
