(* ===== verification/Execution.v ===== *)
(** * Properties of execution

    What every execution of [run] does, whatever the database, the result store,
    the metadata store and the other goroutines answer: the milestones of its
    trace, and what they say about the result (I4), the terminal state and the
    resources of the query. *)

From S2P Require Import Prelude Domain Utf8 SqlGuard Authn Config MetaStore Prog ManagerState Manager.
From S2P Require Import World Submission.
Import Config.

Open Scope dbb_scope.

(** ** Milestones *)

(** The events of a trace that matter; [NAnnounce] is the local delivery of a
    terminal event, [NPut] a write of the record with whether it succeeded.
    [NExec] carries the result set the statement opened, [NWriter] the writer and
    the reference the result store answered for a query in a format, and the
    events that follow name the result set, the writer and the reference they
    were given. *)
Inductive note :=
| NPut (r : QueryRecord) (ok : bool)
| NStarted
| NExec (sql : string) (opened : option nat)
| NWriter (store queryID format : string) (writer : nat) (ref : ResultRef)
| NEncode (rows : nat) (format : string) (writer : nat) (out : encode_outcome)
| NCloseWriter (writer : nat) (err : option error)
| NDelete (store : string) (ref : ResultRef) (err : option error)
| NAnnounce (ev : QueryEvent)
| NFinished
| NCloseRows (rows : nat)
| NDeregister (id : string)
| NReleaseSlot
| NCancel (c : ctx_id).

Definition note_of (ev : event answer) : option note :=
  match ev with
  | existT (AMeta _ (OpPutQuery r)) err =>
      Some (NPut r (match err : option error with None => true | Some _ => false end))
  | existT (ATelemetry TQueryStarted) _ => Some NStarted
  | existT (ATelemetry TQueryFinished) _ => Some NFinished
  | existT (AExec _ _ sql) opened =>
      Some (NExec sql (match opened : result nat with Ok rows => Some rows | Err _ => None end))
  | existT (AWriter _ store queryID format) opened =>
      match (opened : result (nat * ResultRef)) with
      | Ok (writer, ref) => Some (NWriter store queryID format writer ref)
      | Err _ => None
      end
  | existT (AEncode _ rows format writer) out => Some (NEncode rows format writer out)
  | existT (ACloseWriter writer) err => Some (NCloseWriter writer err)
  | existT (ADeleteResult _ store ref) err => Some (NDelete store ref err)
  | existT (ALocal (LDeliver ev)) _ => if IsTerminal (ev_State ev) then Some (NAnnounce ev) else None
  | existT (ACloseRows rows) _ => Some (NCloseRows rows)
  | existT (ALocal (LDeregister id)) _ => Some (NDeregister id)
  | existT (ALocal LReleaseSlot) _ => Some NReleaseSlot
  | existT (ACancel c) _ => Some (NCancel c)
  | _ => None
  end.

Definition notes (tr : trace) : list note := omap note_of tr.

Lemma notes_app tr1 tr2 : notes (tr1 ++ tr2) = notes tr1 ++ notes tr2.
Proof. apply omap_app. Qed.

Ltac notes_simpl := rewrite ?notes_app; cbn [notes omap list_omap note_of app IsTerminal ev_State].

(** Between one and five writes of a record, all failed but possibly the last. *)
Definition attempts (r : QueryRecord) (l : list note) : Prop :=
  exists j (ok : bool),
    l = replicate j (NPut r false) ++ (if ok then [NPut r true] else []) /\
    (1 <= length l <= terminalPersistAttempts)%nat.

Lemma persist_notes r n b tr res :
  executes (persist r n b) tr res ->
  exists j (ok : bool), notes tr = replicate j (NPut r false) ++ (if ok then [NPut r true] else []) /\
    (length (notes tr) <= n)%nat /\ ((0 < n)%nat -> (1 <= length (notes tr))%nat).
Proof.
  revert b tr res. induction n as [|n IH]; intros b tr res; cbn [persist executes].
  { intros [-> _]. exists 0%nat, false. split_and!; [done|simpl; lia|lia]. }
  unfold meta, call. cbn [bind executes]. intros (x & tr' & -> & Hex). cbn in x.
  destruct x as [e|].
  - destruct n as [|n].
    + destruct Hex as [-> _]. exists 1%nat, false. split_and!; [done|simpl; lia..].
    + unfold act, call in Hex. cbn [bind executes] in Hex. destruct Hex as (closed & tr'' & -> & Hex).
      destruct closed.
      * destruct Hex as [-> _]. exists 1%nat, false. split_and!; [done|simpl; lia..].
      * apply IH in Hex as (j & ok & Heq & Hle & _). exists (S j), ok.
        cbn [notes omap list_omap note_of]. fold (notes tr''). rewrite Heq in *.
        split_and!; [done|simpl in *; lia..].
  - destruct Hex as [-> _]. exists 0%nat, true. split_and!; [done|simpl; lia..].
Qed.

Lemma persist_attempts r tr res :
  executes (persist r terminalPersistAttempts initial_backoff) tr res -> attempts r (notes tr).
Proof.
  intros (j & ok & Heq & Hle & Hge)%persist_notes. exists j, ok. split; [done|].
  split; [apply Hge; unfold terminalPersistAttempts; lia|done].
Qed.

(** The terminal announcement of a record. *)
Definition announcement (r : QueryRecord) : QueryEvent :=
  mkEvent (ID r) (rec_State r) (Stats r) (rec_Error r).

(** Executions as traces: the answers fill in what [wp] leaves open. *)
Lemma complete_notes r next tr res :
  CanTransitionTo (rec_State r) next = true -> IsTerminal next = true ->
  executes (complete r next) tr res ->
  exists now l, let final := set_FinishedAt now (set_State next r) in
    res = Some final /\ attempts final l /\ notes tr = l ++ [NAnnounce (announcement final)].
Proof.
  intros Hc Ht. revert tr res. apply wp_sound. unfold complete. rewrite Hc.
  unfold act, local, meta, call, notifyWatchers. cbn [negb bind wp]. intros now.
  eapply wp_call; [intros ? ?; apply persist_attempts|]. intros tr' perr Hatt.
  cbn [ev_State]. rewrite Ht. exec.
  all: exists now, (notes tr'); cbv zeta; split_and!; [done|done|].
  all: rewrite !notes_app; cbn [notes omap list_omap note_of ev_State]; rewrite Ht;
    cbn [app]; by rewrite ?app_nil_r.
Qed.

Lemma finishRun_notes r next qErr d1 d2 tr res :
  CanTransitionTo (rec_State r) next = true -> IsTerminal next = true ->
  executes (finishRun r next qErr d1 d2) tr res ->
  exists now total l,
    let st := mkQueryStats (RowsRead (Stats r)) (BytesWritten (Stats r)) d1 d2 total in
    let final := set_FinishedAt now (set_State next (set_Stats st (set_Error qErr r))) in
    attempts final l /\ notes tr = l ++ [NAnnounce (announcement final); NFinished].
Proof.
  intros Hc Ht. revert tr res. apply wp_sound. unfold finishRun. cbv zeta.
  apply wp_bind. eapply wp_mono with (Q := fun _ tr => notes tr = []).
  2: { destruct (_ =? _); [|done]. unfold since, act, call. by cbn [bind wp]. }
  intros total tr0 Hn0.
  eapply wp_call; [intros ? ?; by apply complete_notes|].
  intros tr1 res (now & l & -> & Hatt & Hn1). exec. exists now, total, l. split; [done|].
  rewrite !notes_app, Hn0, Hn1. cbn [app notes omap list_omap note_of].
  by rewrite !app_nil_r, <- app_assoc.
Qed.

(** ** Failures *)

(** The terminal states [terminalFor] may choose. *)
Inductive failure (fallback : QueryErrorCode) : QueryState -> option QueryError -> Prop :=
| fail_canceled : failure fallback StateCanceled None
| fail_timeout : failure fallback StateFailed
    (Some (NewQueryError ErrCodeQueryTimeout "query exceeded its timeout" true))
| fail_backend : failure fallback StateFailed
    (Some (NewQueryError fallback (backendErrorMessage fallback) false)).

Lemma failure_terminal fallback next qErr :
  failure fallback next qErr ->
  CanTransitionTo StateRunning next = true /\ IsTerminal next = true /\ next <> StateSucceeded.
Proof. by destruct 1. Qed.

Lemma terminalFor_spec cx e fallback tr out :
  executes (terminalFor cx e fallback) tr out -> notes tr = [] /\ failure fallback out.1 out.2.
Proof.
  revert tr out. apply wp_sound. unfold terminalFor, act, call.
  destruct (is_canceled e), (is_deadline e); cbn [bind wp]; try by split; [|constructor].
  all: intros x; destruct (ctx_is is_canceled x); cbn [bind wp]; try by split; [|constructor].
  all: try (intros y; destruct (ctx_is is_deadline y); cbn [bind wp]); by split; [|constructor].
Qed.

(** ** Progress *)

(** The record with new statistics: all that progress reports change. *)
Lemma report_notes progress st tr st' :
  rec_State st.1 = StateRunning -> executes (report progress st) tr st' ->
  notes tr = [] /\ exists s, st'.1 = set_Stats s st.1.
Proof.
  destruct st as [r last]. cbn [fst]. intros Hr. revert tr st'. apply wp_sound.
  assert (r = set_Stats (Stats r) r) as Heta by by destruct r.
  unfold report, since, notifyWatchers. cbn [ev_State set_Stats rec_State]. rewrite Hr.
  cbn [IsTerminal]. exec; (split; [|eauto]);
    cbn [notes omap list_omap note_of app ev_State set_Stats rec_State]; by rewrite ?Hr.
Qed.

Lemma reports_notes ps st tr st' :
  rec_State st.1 = StateRunning -> executes (for_each report ps st) tr st' ->
  notes tr = [] /\ exists s, st'.1 = set_Stats s st.1.
Proof.
  revert st tr. induction ps as [|p ps IH]; intros st tr Hr; cbn [for_each].
  - intros [-> ->]. split; [done|]. exists (Stats st.1). by destruct st as [[] ?].
  - intros (tr1 & tr2 & st1 & -> & H1 & H2)%executes_bind.
    apply report_notes in H1 as (Hn1 & s1 & Hs1); [|done].
    apply IH in H2 as (Hn2 & s2 & Hs2); [|by rewrite Hs1].
    rewrite notes_app, Hn1, Hn2. split; [done|]. exists s2. by rewrite Hs2, Hs1.
Qed.

(** ** The whole execution *)

(** The reference of a stored result. *)
Definition stored_ref (ref : ResultRef) (out : encode_outcome) : ResultRef :=
  mkResultRef (Backend ref) (Locator ref) (enc_bytes out) (enc_rows out) (Format ref)
    ("sha256:" +:+ enc_digest out).

(** The writing of a result: the writer the configured store opened for the query,
    the result set encoded into it in the query's format, and the writer closed. *)
Definition written (r : QueryRecord) (rows writer : nat) (ref : ResultRef) (out : encode_outcome)
  (closeErr : option error) : list note :=
  let opts := rec_Options r in
  [NWriter (StorageBackend opts) (ID r) (ResultFormat opts) writer ref;
   NEncode rows (ResultFormat opts) writer out; NCloseWriter writer closeErr].

(** How a query can end: the milestones between the execution of its statement,
    which opened [rows] or nothing, and the writing of its terminal state, and that
    state with the error and the result of the record. *)
Inductive ending (r : QueryRecord)
  : option nat -> list note -> QueryState -> option QueryError -> option ResultRef -> Prop :=
| end_exec next qErr :
    failure ErrCodeDBExecFailed next qErr -> ending r None [] next qErr (rec_Result r)
| end_storage rows code :
    code = ErrCodeStorageInitFailed \/ code = ErrCodeStorageWriterFailed ->
    ending r (Some rows) [] StateFailed (Some (NewQueryError code (backendErrorMessage code) false))
      (rec_Result r)
| end_encode rows writer ref out closeErr err next qErr :
    enc_err out <> None -> failure ErrCodeStreamEncodeFailed next qErr ->
    ending r (Some rows)
      (written r rows writer ref out closeErr ++ [NDelete (StorageBackend (rec_Options r)) ref err])
      next qErr (rec_Result r)
| end_finalize rows writer ref out closeErr err next qErr :
    enc_err out = None -> closeErr <> None -> failure ErrCodeStorageFinalizeFailed next qErr ->
    ending r (Some rows)
      (written r rows writer ref out closeErr ++ [NDelete (StorageBackend (rec_Options r)) ref err])
      next qErr (rec_Result r)
| end_success rows writer ref out :
    enc_err out = None ->
    ending r (Some rows) (written r rows writer ref out None) StateSucceeded None
      (Some (stored_ref ref out)).

(** The milestones from the end of the statement to the announcement, for a
    record in RUNNING whose statement opened [rows] or nothing. *)
Definition ends (r : QueryRecord) (opened : option nat) (l : list note) : Prop :=
  exists mid next qErr res now st puts,
    let final := set_FinishedAt now (set_State next (set_Stats st (set_Error qErr (set_Result res r)))) in
    ending r opened mid next qErr res /\ attempts final puts /\
    l = mid ++ puts ++ [NAnnounce (announcement final); NFinished] /\
    (forall rows format writer out, next = StateSucceeded -> NEncode rows format writer out ∈ mid ->
       RowsRead st = enc_rows out /\ BytesWritten st = enc_bytes out).

Lemma finishRun_ends r r0 opened s mid next qErr d1 d2 tr res :
  r = set_Stats s r0 -> rec_State r0 = StateRunning ->
  CanTransitionTo StateRunning next = true -> IsTerminal next = true -> next <> StateSucceeded ->
  ending r0 opened mid next qErr (rec_Result r0) ->
  executes (finishRun r next qErr d1 d2) tr res -> ends r0 opened (mid ++ notes tr).
Proof.
  intros -> Hr Hc Ht Hns Hend Hex.
  apply finishRun_notes in Hex as (now & total & l & Hatt & Hn); [|by simpl; rewrite Hr|done].
  exists mid, next, qErr, (rec_Result r0), now. eexists _, l. split_and!; [done|exact Hatt| |done].
  by rewrite Hn.
Qed.

Lemma stream_success r s rows writer out ref total d1 d2 tr res :
  rec_State r = StateRunning -> enc_err out = None ->
  executes (finishRun
    (set_Stats (mkQueryStats (enc_rows out) (enc_bytes out) (DBExecDuration s) (StorageWriteDuration s)
                  total) (set_Result (Some (stored_ref ref out)) (set_Stats s r)))
    StateSucceeded None d1 d2) tr res ->
  ends r (Some rows) (written r rows writer ref out None ++ notes tr).
Proof.
  intros Hr He Hex.
  apply finishRun_notes in Hex as (now & tot & l & Hatt & Hn); [|by simpl; rewrite Hr|done].
  exists (written r rows writer ref out None), StateSucceeded, None, (Some (stored_ref ref out)), now.
  eexists _, l. split_and!; [by constructor|exact Hatt|by rewrite Hn|].
  intros rows' format' writer' out' _ Hin. unfold written in Hin.
  rewrite !elem_of_cons, elem_of_nil in Hin. by destruct_or! Hin; simplify_eq.
Qed.

(** A failure after [mid]: the error decides the terminal state. *)
Lemma terminal_ends c r opened s e fallback mid d1 d2 tr res :
  rec_State r = StateRunning ->
  (forall next qErr, failure fallback next qErr ->
     ending r opened mid next qErr (rec_Result r)) ->
  executes (do '(next, qErr) <- terminalFor (CtxId c) e fallback;
            finishRun (set_Stats s r) next qErr d1 d2) tr res ->
  ends r opened (mid ++ notes tr).
Proof.
  intros Hr Hend (tr1 & tr2 & [next qErr] & -> & [Hn1 Hf]%terminalFor_spec & Hex)%executes_bind.
  cbn [fst snd] in Hf. destruct (failure_terminal _ _ _ Hf) as (? & ? & ?).
  rewrite notes_app, Hn1. cbn [app]. eapply finishRun_ends; eauto.
Qed.

(** The same with the partial result deleted first. *)
Lemma stream_failure c r opened s store ref e fallback mid d1 d2 tr res :
  rec_State r = StateRunning ->
  (forall err next qErr, failure fallback next qErr ->
     ending r opened (mid ++ [NDelete store ref err]) next qErr (rec_Result r)) ->
  executes (deletePartial store ref ;;
            do '(next, qErr) <- terminalFor (CtxId c) e fallback;
            finishRun (set_Stats s r) next qErr d1 d2) tr res ->
  ends r opened (mid ++ notes tr).
Proof.
  intros Hr Hend Hex. unfold deletePartial, act, call in Hex. cbn [bind executes] in Hex.
  destruct Hex as (x & tr' & -> & Hex). change (existT _ x :: tr') with ([existT
    (ADeleteResult CtxBackground store ref) x : event answer] ++ tr').
  rewrite notes_app, app_assoc. eapply terminal_ends; [done|exact (Hend x)|exact Hex].
Qed.

(** The writer's answer precedes what the streaming does. *)
Lemma stream_rows_ends c r rows writer ref t0 d tr res :
  rec_State r = StateRunning ->
  executes (stream_rows c r rows writer ref t0 d) tr res ->
  let opts := rec_Options r in
  ends r (Some rows) (NWriter (StorageBackend opts) (ID r) (ResultFormat opts) writer ref :: notes tr).
Proof.
  intros Hr. revert tr res. apply wp_sound. unfold stream_rows, since, act, call.
  cbv zeta. cbn [bind wp]. intros storeStart out.
  eapply wp_call; [intros tr' st' Hex; exact (reports_notes _ (r, zero_time) _ _ Hr Hex)|].
  intros tr1 [r1 last] (Hn1 & s & Hs). cbn [fst] in Hs. subst r1.
  cbn [bind wp]. intros [] closeErr now.
  destruct (enc_err out) as [e|] eqn:He; [|destruct closeErr as [e|]].
  - apply wp_executes. intros tr2 a Hex. rewrite !notes_app, Hn1.
    apply (stream_failure _ _ (Some rows) _ _ _ _ _ (written r rows writer ref out closeErr)) in Hex; [done..|].
    intros. apply end_encode; [congruence|done].
  - apply wp_executes. intros tr2 a Hex. rewrite !notes_app, Hn1.
    apply (stream_failure _ _ (Some rows) _ _ _ _ _ (written r rows writer ref out (Some e))) in Hex; [done..|].
    intros. by apply end_finalize.
  - cbn [bind wp]. intros now2. eapply wp_call.
    { intros tr2 a Hex. exact (stream_success r s rows writer out ref _ _ _ _ _ Hr He Hex). }
    intros tr2 [] Hends. cbn [bind wp]. intros []. rewrite !notes_app, Hn1.
    cbn [notes omap list_omap note_of app] in *. by rewrite !app_nil_r.
Qed.

Lemma store_rows_ends c r rows t0 d tr res :
  rec_State r = StateRunning -> executes (store_rows c r rows t0 d) tr res -> ends r (Some rows) (notes tr).
Proof.
  intros Hr. revert tr res. apply wp_sound. unfold store_rows, storage_failure, act, call.
  cbv zeta. cbn [bind wp]. intros serr.
  assert (r = set_Stats (Stats r) r) as Heta by by destruct r.
  destruct serr as [e|]; [|cbn [bind wp]; intros [[writer ref]|e]].
  - apply wp_executes. intros tr1 a Hex. rewrite notes_app.
    apply (finishRun_ends _ r (Some rows) (Stats r) []) in Hex; try done. apply end_storage. by left.
  - apply wp_executes. intros tr1 a Hex%stream_rows_ends; [|done]. by rewrite !notes_app.
  - apply wp_executes. intros tr1 a Hex. rewrite !notes_app.
    apply (finishRun_ends _ r (Some rows) (Stats r) []) in Hex; try done. apply end_storage. by right.
Qed.

(** The result set a statement opened is closed at the end. *)
Definition closing (opened : option nat) : list note :=
  match opened with Some rows => [NCloseRows rows] | None => [] end.

(** The milestones of a whole execution. *)
Definition run_notes (record : QueryRecord) (c : ctx_id) (ns : list note) : Prop :=
  exists startTime starts opened tail,
    let running := set_StartedAt startTime (set_State StateRunning record) in
    attempts running starts /\ ends running opened tail /\
    ns = starts ++ [NStarted; NExec (SQL record) opened] ++ tail ++ closing opened ++
         [NDeregister (ID record); NReleaseSlot; NCancel c].

Lemma run_body_notes record p c tr res :
  rec_State record = StatePending -> executes (run_body record p c) tr res ->
  exists startTime starts opened tail,
    let running := set_StartedAt startTime (set_State StateRunning record) in
    attempts running starts /\ ends running opened tail /\
    notes tr = starts ++ [NStarted; NExec (SQL record) opened] ++ tail ++ closing opened.
Proof.
  intros Hr. revert tr res. apply wp_sound.
  unfold run_body, since, act, local, call, notifyWatchers. rewrite Hr.
  change (negb (CanTransitionTo StatePending StateRunning)) with false.
  cbn [bind wp IsTerminal ev_State]. intros startTime.
  set (running := set_StartedAt startTime (set_State StateRunning record)).
  eapply wp_call; [intros tr' a Hex; exact (persist_attempts _ _ _ Hex)|].
  intros tr1 perr Hatt. unfold local, call. cbn [bind wp]. intros [] queued [] dbStart opened now.
  assert (running = set_Stats (Stats running) running) as Heta by by destruct record.
  destruct opened as [rows|e].
  - eapply wp_call; [intros tr' a Hex; exact (store_rows_ends _ running _ _ _ _ _ eq_refl Hex)|].
    intros tr2 [] Hends. cbn [bind wp]. intros cerr.
    exists startTime, (notes tr1), (Some rows), (notes tr2). split_and!; [done|done|].
    rewrite !notes_app. cbn [notes omap list_omap note_of app ev_State IsTerminal].
    rewrite !app_nil_r, <- !app_assoc. done.
  - apply wp_executes. intros tr2 a Hex. rewrite Heta in Hex.
    apply (terminal_ends _ running None _ _ _ []) in Hex; [|done|by intros; apply end_exec].
    exists startTime, (notes tr1), None, (notes tr2). split_and!; [done|done|].
    rewrite !notes_app. cbn [notes omap list_omap note_of app ev_State IsTerminal closing].
    rewrite !app_nil_r, <- !app_assoc. done.
Qed.

Lemma run_shape record p c tr res :
  rec_State record = StatePending -> executes (run record p c) tr res ->
  run_notes record c (notes tr).
Proof.
  intros Hr. unfold run. intros (tr1 & tr2 & [] & -> & Hbody & Hex)%executes_bind.
  apply run_body_notes in Hbody as (t0 & starts & opened & tail & ? & ? & Hn); [|done].
  unfold local, act, call in Hex. cbn [bind executes] in Hex.
  destruct Hex as ([] & ? & -> & [] & ? & -> & [] & ? & -> & -> & _).
  exists t0, starts, opened, tail. split_and!; [done..|].
  rewrite notes_app, Hn. cbn [notes omap list_omap note_of]. by rewrite <- !app_assoc.
Qed.

(** ** Properties *)

Definition announced (ns : list note) : list QueryEvent :=
  omap (fun n => match n with NAnnounce ev => Some ev | _ => None end) ns.
Definition statements (ns : list note) : list string :=
  omap (fun n => match n with NExec sql _ => Some sql | _ => None end) ns.
Definition started (ns : list note) : nat :=
  length (List.filter (fun n => match n with NStarted => true | _ => false end) ns).
Definition finished (ns : list note) : nat :=
  length (List.filter (fun n => match n with NFinished => true | _ => false end) ns).
Definition writes_of (s : QueryState) (ns : list note) : list QueryRecord :=
  omap (fun n => match n with
                 | NPut r _ => if state_eqb (rec_State r) s then Some r else None
                 | _ => None
                 end) ns.

(** What the observers above see in a series of writes. *)
Lemma attempts_quiet {B} (f : note -> option B) r l :
  (forall r ok, f (NPut r ok) = None) -> attempts r l -> omap f l = [].
Proof.
  intros Hf (j & ok & -> & _). rewrite omap_app.
  assert (omap f (replicate j (NPut r false)) = []) as ->.
  { induction j; simpl; [done|]. by rewrite Hf. }
  destruct ok; simpl; by rewrite ?Hf.
Qed.

Lemma attempts_filter (f : note -> bool) r l :
  (forall r ok, f (NPut r ok) = false) -> attempts r l -> List.filter f l = [].
Proof.
  intros Hf (j & ok & -> & _). rewrite List.filter_app.
  assert (List.filter f (replicate j (NPut r false)) = []) as ->.
  { induction j; simpl; [done|]. by rewrite Hf. }
  destruct ok; simpl; by rewrite ?Hf.
Qed.

Lemma writes_of_replicate r s n :
  writes_of s (replicate n (NPut r false)) = if state_eqb (rec_State r) s then replicate n r else [].
Proof.
  destruct (state_eqb (rec_State r) s) eqn:Hs; induction n as [|n IH]; simpl; rewrite ?Hs;
    [done|by f_equal|done|done].
Qed.

Lemma writes_of_app s l1 l2 : writes_of s (l1 ++ l2) = writes_of s l1 ++ writes_of s l2.
Proof. apply omap_app. Qed.

Lemma attempts_writes r l s :
  attempts r l ->
  writes_of s l = if state_eqb (rec_State r) s then replicate (length l) r else [].
Proof.
  intros (j & ok & -> & _).
  rewrite writes_of_app, writes_of_replicate, length_app, length_replicate.
  destruct ok, (state_eqb (rec_State r) s) eqn:Hs; simpl; rewrite ?Hs, ?app_nil_r, ?Nat.add_0_r; try done.
  by rewrite replicate_add.
Qed.

Lemma ending_quiet r opened mid next qErr res :
  ending r opened mid next qErr res ->
  announced mid = [] /\ statements mid = [] /\ started mid = 0%nat /\ finished mid = 0%nat /\
  forall s, writes_of s mid = [].
Proof. by destruct 1. Qed.

Lemma ending_terminal r opened mid next qErr res :
  ending r opened mid next qErr res -> IsTerminal next = true.
Proof. destruct 1; try done; by eapply failure_terminal. Qed.

(** C2. Every execution of a submitted query runs its statement once and ends it
    once: exactly one terminal event is announced, the record it describes was
    written between one and five times before that and no other terminal record
    is ever written, and the started and finished counters of the telemetry each
    move once. *)
Theorem run_ends_once record p c tr res :
  rec_State record = StatePending -> executes (run record p c) tr res ->
  exists final, IsTerminal (rec_State final) = true /\ ID final = ID record /\
    announced (notes tr) = [announcement final] /\ statements (notes tr) = [SQL record] /\
    started (notes tr) = 1%nat /\ finished (notes tr) = 1%nat /\
    exists n, (1 <= n <= 5)%nat /\
      forall s, IsTerminal s = true ->
        writes_of s (notes tr) = if state_eqb (rec_State final) s then replicate n final else [].
Proof.
  intros Hr (t0 & starts & opened & tail & Hst & Hends & ->)%run_shape; [|done].
  destruct Hends as (mid & next & qErr & result & now & st & puts & Hend & Hatt & -> & _).
  destruct (ending_quiet _ _ _ _ _ _ Hend) as (Ha & Hs & Hb & Hf & Hw).
  set (final := set_FinishedAt now _) in *.
  assert (forall s, IsTerminal s = true -> writes_of s starts = []) as Hws.
  { intros s Ht. rewrite (attempts_writes _ _ _ Hst). by destruct s. }
  exists final. split_and!.
  - by eapply ending_terminal.
  - done.
  - unfold announced in *. rewrite !omap_app, (attempts_quiet _ _ starts), (attempts_quiet _ _ puts), Ha
      by done. by destruct opened.
  - unfold statements in *. rewrite !omap_app, (attempts_quiet _ _ starts), (attempts_quiet _ _ puts), Hs
      by done. by destruct opened.
  - unfold started in *. rewrite !List.filter_app, (attempts_filter _ _ starts),
      (attempts_filter _ _ puts), !length_app, Hb by done. by destruct opened.
  - unfold finished in *. rewrite !List.filter_app, (attempts_filter _ _ starts),
      (attempts_filter _ _ puts), !length_app, Hf by done. by destruct opened.
  - exists (length puts). split; [by destruct Hatt as (? & ? & _ & ?)|]. intros s Hs'.
    rewrite !writes_of_app, Hws, Hw, (attempts_writes _ _ _ Hatt) by done.
    destruct opened; cbn [app closing]; rewrite ?app_nil_r; done.
Qed.

(** The terminal record of an execution is the one that was announced. *)
Definition ended_with (final : QueryRecord) (ns : list note) : Prop :=
  announced ns = [announcement final] /\ exists ok, NPut final ok ∈ ns.

Lemma attempts_elem r l : attempts r l -> exists ok, NPut r ok ∈ l.
Proof.
  intros (j & ok & -> & Hle). destruct ok.
  - exists true. apply elem_of_app. right. apply list_elem_of_singleton. done.
  - exists false. rewrite app_nil_r in *. rewrite length_replicate in Hle.
    destruct j; [lia|]. simpl. by left.
Qed.

Lemma attempts_only r l n : attempts r l -> n ∈ l -> exists ok, n = NPut r ok.
Proof.
  intros (j & ok & -> & _) [[-> _]%elem_of_replicate|Hn]%elem_of_app; [eauto|].
  destruct ok; [apply list_elem_of_singleton in Hn as ->; eauto|by apply elem_of_nil in Hn].
Qed.

(** What was done to the result store, in order. *)
Definition on_storage (n : note) : bool :=
  match n with NWriter _ _ _ _ _ | NEncode _ _ _ _ | NCloseWriter _ _ | NDelete _ _ _ => true | _ => false end.
Definition storage (ns : list note) : list note := List.filter on_storage ns.

Lemma ending_storage r opened mid next qErr res : ending r opened mid next qErr res -> storage mid = mid.
Proof. by destruct 1. Qed.

(** Starting a query changes nothing its ending depends on. *)
Lemma ending_started t st r opened mid next qErr res :
  ending (set_StartedAt t (set_State st r)) opened mid next qErr res -> ending r opened mid next qErr res.
Proof.
  destruct 1 as [? ? Hf|? ? Hc|? ? ? ? ? ? ? ? He Hf|? ? ? ? ? ? ? ? He Hc Hf|? ? ? ? He].
  - by apply (end_exec r).
  - by apply (end_storage r).
  - by apply (end_encode r).
  - by apply (end_finalize r).
  - by apply (end_success r).
Qed.

(** The ending of an execution is all it did to the result store, and the record
    it ended with the only terminal record it wrote. *)
Lemma run_notes_mid record c ns :
  run_notes record c ns ->
  exists opened final,
    ending record opened (storage ns) (rec_State final) (rec_Error final) (rec_Result final) /\
    ended_with final ns /\ NExec (SQL record) opened ∈ ns /\
    (forall r ok, NPut r ok ∈ ns -> IsTerminal (rec_State r) = true -> r = final) /\
    (forall rows format writer out, rec_State final = StateSucceeded ->
       NEncode rows format writer out ∈ storage ns ->
       RowsRead (Stats final) = enc_rows out /\ BytesWritten (Stats final) = enc_bytes out).
Proof.
  intros (t0 & starts & opened & tail & Hst & Hends & ->).
  destruct Hends as (mid & next & qErr & result & now & st & puts & Hend & Hatt & -> & Hstats).
  destruct (ending_quiet _ _ _ _ _ _ Hend) as (Ha & _ & _ & _ & Hw).
  set (final := set_FinishedAt now _) in *.
  match goal with |- context [storage ?l] => assert (storage l = mid) as -> end.
  { pose proof (ending_storage _ _ _ _ _ _ Hend) as Hm. unfold storage in *.
    rewrite !List.filter_app, (attempts_filter _ _ starts), (attempts_filter _ _ puts), Hm by done.
    destruct opened; cbn [List.filter on_storage app closing]; by rewrite !app_nil_r. }
  exists opened, final. split_and!.
  - by eapply ending_started.
  - split.
    + unfold announced in *.
      rewrite !omap_app, (attempts_quiet _ _ starts), (attempts_quiet _ _ puts), Ha by done.
      by destruct opened.
    + destruct (attempts_elem _ _ Hatt) as [ok Hok]. exists ok. set_solver.
  - set_solver.
  - intros r ok Hn Ht. rewrite !elem_of_app in Hn. destruct_or! Hn.
    + apply (attempts_only _ _ _ Hst) in Hn as [? [= -> _]]. done.
    + set_solver.
    + exfalso. pose proof (Hw (rec_State r)) as Hnil.
      assert (r ∈ writes_of (rec_State r) mid) as Hr; [|rewrite Hnil in Hr; by apply elem_of_nil in Hr].
      apply list_elem_of_omap. exists (NPut r ok). split; [done|]. unfold state_eqb.
      by rewrite bool_decide_true.
    + by apply (attempts_only _ _ _ Hatt) in Hn as [? [= -> _]].
    + set_solver.
    + destruct opened; set_solver.
    + set_solver.
  - exact Hstats.
Qed.

(** The only writer an execution opens is that of its query in its store. *)
Lemma writer_asked record p c tr res store queryID format w ref :
  rec_State record = StatePending -> executes (run record p c) tr res ->
  NWriter store queryID format w ref ∈ notes tr ->
  NWriter (StorageBackend (rec_Options record)) (ID record) (ResultFormat (rec_Options record)) w ref ∈ notes tr.
Proof.
  intros Hr (opened & final & Hend & _)%run_shape%run_notes_mid Hn; [|done].
  assert (NWriter store queryID format w ref ∈ storage (notes tr)) as Hin.
  { apply list_elem_of_In, List.filter_In. split; [by apply list_elem_of_In|done]. }
  enough (NWriter store queryID format w ref =
          NWriter (StorageBackend (rec_Options record)) (ID record) (ResultFormat (rec_Options record)) w ref)
    as Heq by by rewrite <- Heq.
  revert Hin. destruct Hend; unfold written; cbn [app]; rewrite ?elem_of_cons, ?elem_of_nil;
    intros Hin; destruct_or? Hin; by simplify_eq.
Qed.

(** C3. A query is reported SUCCEEDED exactly when its result is stored (I4). Either
    nothing was written, and the query did not succeed and its record names no new
    result; or the result set its statement opened was encoded, in its format, into
    the one writer that its store opened for it, and the writer was closed, with
    nothing else done to the store before that. If the encoding and the closing both
    succeeded then the query succeeded, nothing was deleted, and its record names the
    reference the store answered, with the size, the row count and the checksum of
    what was encoded; if either failed the query did not succeed, its record names no
    new result, and that same store was asked to delete that same reference, whatever
    it answered. *)
Theorem success_means_stored record p c tr res :
  rec_State record = StatePending -> executes (run record p c) tr res ->
  exists final, ended_with final (notes tr) /\
    ((storage (notes tr) = [] /\ rec_State final <> StateSucceeded /\
      rec_Result final = rec_Result record) \/
     exists rows writer ref out closeErr,
       NExec (SQL record) (Some rows) ∈ notes tr /\
       ((enc_err out = None /\ closeErr = None /\
         storage (notes tr) = written record rows writer ref out None /\
         rec_State final = StateSucceeded /\ rec_Result final = Some (stored_ref ref out) /\
         RowsRead (Stats final) = enc_rows out /\ BytesWritten (Stats final) = enc_bytes out) \/
        ((enc_err out <> None \/ closeErr <> None) /\
         (exists err, storage (notes tr) = written record rows writer ref out closeErr ++
                        [NDelete (StorageBackend (rec_Options record)) ref err]) /\
         rec_State final <> StateSucceeded /\ rec_Result final = rec_Result record))).
Proof.
  intros Hr (opened & final & Hend & Hfin & Hexec & _ & Hst)%run_shape%run_notes_mid; [|done].
  exists final. split; [done|].
  inversion Hend as [next qErr Hf|rows code Hc|rows w ref out ce err next qErr He Hf
    |rows w ref out ce err next qErr He Hcl Hf|rows w ref out He]; subst opened;
    try pose proof (failure_terminal _ _ _ Hf) as (_ & _ & Hns).
  - left. by split_and!.
  - left. by split_and!.
  - right. exists rows, w, ref, out, ce. split; [done|]. right. split_and!; eauto.
  - right. exists rows, w, ref, out, ce. split; [done|]. right. split_and!; eauto.
  - right. exists rows, w, ref, out, None. split; [done|]. left.
    destruct (Hst rows (ResultFormat (rec_Options record)) w out) as [? ?]; [done| |by split_and!].
    match goal with H : written _ _ _ _ _ _ = _ |- _ => rewrite <- H end. set_solver.
Qed.

(** Whatever happens to a query, the last three things its goroutine does are
    to leave the registry, to give its slot back and to cancel its context, in
    that order and each of them once: the registry entry that keeps the lease
    alive goes only after the terminal record was written or given up on and
    announced. *)
Theorem run_releases_last record p c tr res :
  rec_State record = StatePending -> executes (run record p c) tr res ->
  exists ns, notes tr = ns ++ [NDeregister (ID record); NReleaseSlot; NCancel c] /\
    length (announced ns) = 1%nat /\ finished ns = 1%nat /\
    forall n, n ∈ ns ->
      match n with NDeregister _ | NReleaseSlot | NCancel _ => False | _ => True end.
Proof.
  intros Hr (t0 & starts & opened & tail & Hst & Hends & ->)%run_shape; [|done].
  destruct Hends as (mid & next & qErr & result & now & st & puts & Hend & Hatt & -> & _).
  destruct (ending_quiet _ _ _ _ _ _ Hend) as (Ha & _ & _ & Hf & _).
  eexists. split; [by rewrite !app_assoc|]. split_and!.
  - unfold announced in *. rewrite !omap_app, (attempts_quiet _ _ starts), (attempts_quiet _ _ puts), Ha
      by done. by destruct opened.
  - unfold finished in *. rewrite !List.filter_app, (attempts_filter _ _ starts),
      (attempts_filter _ _ puts), !length_app, Hf by done. by destruct opened.
  - intros n Hn. rewrite !elem_of_app in Hn. destruct_or! Hn.
    + by apply (attempts_only _ _ _ Hst) in Hn as [? ->].
    + set_solver.
    + inversion Hend; subst mid; cbn [written app] in Hn;
        unfold written in Hn; cbn [app] in Hn; rewrite ?elem_of_cons, ?elem_of_nil in Hn; by destruct_or! Hn; subst.
    + by apply (attempts_only _ _ _ Hatt) in Hn as [? ->].
    + set_solver.
    + destruct opened; set_solver.
Qed.

(** The texts a query error may carry. *)
Definition fixed_messages : list string :=
  "query exceeded its timeout" ::
  map backendErrorMessage [ErrCodeDBExecFailed; ErrCodeStorageInitFailed; ErrCodeStorageWriterFailed;
                           ErrCodeStreamEncodeFailed; ErrCodeStorageFinalizeFailed].

Lemma failure_message fallback next qErr :
  fallback ∈ [ErrCodeDBExecFailed; ErrCodeStreamEncodeFailed; ErrCodeStorageFinalizeFailed] ->
  failure fallback next qErr -> forall e, qErr = Some e -> Message e ∈ fixed_messages.
Proof.
  intros Hfb Hf e He. destruct Hf; simplify_eq.
  - by apply (bool_decide_unpack _).
  - rewrite !elem_of_cons in Hfb. destruct_or! Hfb; subst; try (by apply (bool_decide_unpack _)).
    by apply elem_of_nil in Hfb.
Qed.

(** No text of a database or storage error reaches a client: the message of
    every terminal record an execution writes is one of six fixed texts,
    whatever the driver and the storage backend reported. *)
Theorem error_messages_fixed record p c tr res r ok e :
  rec_State record = StatePending -> executes (run record p c) tr res ->
  NPut r ok ∈ notes tr -> IsTerminal (rec_State r) = true -> rec_Error r = Some e ->
  Message e ∈ fixed_messages.
Proof.
  intros Hr (opened & final & Hend & _ & _ & Huniq & _)%run_shape%run_notes_mid Hput Ht He; [|done].
  apply Huniq in Hput as ->; [|done]. rewrite He in Hend.
  inversion Hend as [? ? Hf|? code Hc|? ? ? ? ? ? ? ? _ Hf|? ? ? ? ? ? ? ? _ _ Hf|]; subst;
    try (eapply failure_message; [|exact Hf|done]; by apply (bool_decide_unpack _)).
  destruct Hc as [-> | ->]; by apply (bool_decide_unpack _).
Qed.

(** ** Examples *)

Definition demo_record : QueryRecord :=
  mkQueryRecord "q" "pg" "select 1" (mkQueryOptions 0 "async" (24 * Hour) "" "jsonl" "fs") StatePending
    "dbb-1" (1000 * Second) zero_time zero_time None zero_stats None "" zero_time "".

Definition demo_trace : trace := (demo_run (run demo_record 1 1) demo_world).1.2.

Lemma demo_trace_executes : executes (run demo_record 1 1) demo_trace tt.
Proof. exact (demo_executes (run demo_record 1 1) demo_world). Qed.

Lemma run_ends_once_witness : exists final, announced (notes demo_trace) = [announcement final].
Proof.
  destruct (run_ends_once demo_record 1 1 demo_trace tt eq_refl demo_trace_executes)
    as (final & _ & _ & Ha & _).
  exists final. exact Ha.
Defined.

Lemma success_means_stored_witness :
  exists final rows writer ref, ended_with final (notes demo_trace) /\ rec_State final = StateSucceeded /\
    storage (notes demo_trace) = written demo_record rows writer ref demo_encode None /\
    rec_Result final = Some (stored_ref ref demo_encode).
Proof.
  destruct (success_means_stored demo_record 1 1 demo_trace tt eq_refl demo_trace_executes)
    as (final & Hf & [(Hs & _)|(rows & w & ref & out & ce & _ & [(_ & _ & Hs & Hok & Hr & _)|(_ & (err & Hs) & _)])]).
  - exfalso. vm_compute in Hs. discriminate Hs.
  - exists final, rows, w, ref.
    assert (out = demo_encode) as Ho by (pose proof Hs as Hs'; vm_compute in Hs'; by injection Hs').
    rewrite Ho in Hs, Hr. by split_and!.
  - exfalso. apply (f_equal length) in Hs. vm_compute in Hs. discriminate Hs.
Defined.

Lemma run_releases_last_witness :
  exists ns, notes demo_trace = ns ++ [NDeregister "q"; NReleaseSlot; NCancel 1].
Proof.
  destruct (run_releases_last demo_record 1 1 demo_trace tt eq_refl demo_trace_executes)
    as (ns & Hn & _).
  exists ns. exact Hn.
Defined.

(** The driver fails with a text of its own. *)
Definition demo_broken : world :=
  mkWorld Memory.NewMemoryMetaStore demo_qm (1000 * Second) 0 None
    (Err (PlainError "dial tcp 10.0.0.7:5432: password=secret")) demo_encode None.

Definition demo_broken_trace : trace := (demo_run (run demo_record 1 1) demo_broken).1.2.

Lemma demo_broken_executes : executes (run demo_record 1 1) demo_broken_trace tt.
Proof. exact (demo_executes (run demo_record 1 1) demo_broken). Qed.

Lemma error_messages_fixed_witness :
  exists r e, rec_Error r = Some e /\ Message e ∈ fixed_messages /\
    Message e = "the database driver failed to execute the query".
Proof.
  destruct (notes demo_broken_trace !! 3%nat) as [[r ok| | | | | | | | | | | |]|] eqn:Hn;
    try (vm_compute in Hn; discriminate Hn).
  destruct (rec_Error r) as [e|] eqn:He; [|vm_compute in Hn; injection Hn as <- <-; discriminate He].
  exists r, e. split; [exact He|]. split.
  - eapply (error_messages_fixed demo_record 1 1 demo_broken_trace tt r ok e);
      [reflexivity|exact demo_broken_executes|exact (list_elem_of_lookup_2 _ _ _ Hn)| |exact He].
    vm_compute in Hn. injection Hn as <- <-. reflexivity.
  - vm_compute in Hn. injection Hn as <- <-. injection He as <-. reflexivity.
Defined.

(** ** The duration of a failed query *)

(** Progress was reported before the stream failed. *)
Definition demo_interrupted : world :=
  mkWorld Memory.NewMemoryMetaStore demo_qm (1000 * Second) 0 None (Ok 5%nat)
    (mkEncode [(1, 10)] 1 10 (Some (PlainError "broken pipe")) "") None.

(** The total duration of the failed record is the one of the progress report it
    was given while rows were still being written: it is not measured again. *)
Lemma failed_duration_stale :
  let tr := (demo_run (run demo_record 1 1) demo_interrupted).1.2 in
  exists snapshot r, existT (AMail snapshot) true ∈ tr /\ (exists ok, NPut r ok ∈ notes tr) /\
    rec_State snapshot = StateRunning /\ rec_State r = StateFailed /\
    TotalDuration (Stats r) = TotalDuration (Stats snapshot).
Proof.
  cbv zeta. eexists _, _. split_and!.
  - apply (list_elem_of_lookup_2 _ 16). vm_compute. reflexivity.
  - exists true. apply (list_elem_of_lookup_2 _ 7). vm_compute. reflexivity.
  - reflexivity.
  - reflexivity.
  - reflexivity.
Qed.
