(* ===== verification/Connections.v ===== *)
(** * Connections given back

    The goroutine of a query ([QueryManager.run] of [internal/core/querymanager.go])
    against the pool it executes its statement on: the statement opens a result set that
    holds a connection, the encoder reads from it, and the deferred [rows.Close] gives
    the connection back however the query ends. The pool is anything that lends
    connections as [Pools.Lends] says - PostgreSQL over pgx as documented, and the three
    engines over the model of [database/sql] - and other goroutines use it in between. *)

From S2P Require Import Prelude Domain Prog Databases Pools SqlDB Config MetaStore ManagerState Manager.
From S2P Require Import World Submission Execution.

Open Scope dbb_scope.

Section Lent.
Context {row act W : Type} {ans : act -> Type} (P : Pools.Pool row ans) `{!Lends P W} (h : Z).

Abbreviation on m w := (eval lib_exec m w).

(** What other goroutines do with the pool while this one has the result set [mine]: they
    open others, use and close others, or call the pool itself. *)
Inductive other_call (mine : option nat) : W -> W -> Prop :=
| other_Exec sql w :
    (forall r, (on (Pools.Exec P h sql) w).1 = Ok r -> mine <> Some r) ->
    other_call mine w (on (Pools.Exec P h sql) w).2
| other_read r X (m : prog ans X) w : mine <> Some r -> reader P r X m -> other_call mine w (on m w).2
| other_Close r w : mine <> Some r -> other_call mine w (on (CloseRows P r) w).2
| other_keep X (m : prog ans X) w : keeper P h X m -> other_call mine w (on m w).2.

(** One method of the row stream called by the encoder. *)
Inductive encoder_call (r : nat) : W -> W -> Prop :=
| encoder_reads X (m : prog ans X) w : reader P r X m -> encoder_call r w (on m w).2.

(** What a milestone of the query does to the pool: the statement is executed, the encoder
    reads from the result set as often as it likes, and [rows.Close]. *)
Definition on_pool (n : note) (w w' : W) : Prop :=
  match n with
  | NExec sql opened =>
      w' = (on (Pools.Exec P h sql) w).2 /\
      opened = match (on (Pools.Exec P h sql) w).1 with Ok r => Some r | Err _ => None end
  | NEncode rows _ _ _ => rtc (encoder_call rows) w w'
  | NCloseRows rows => w' = (on (CloseRows P rows) w).2
  | _ => w' = w
  end.

(** The result set of the query from a milestone on. *)
Definition mine_after (n : note) (mine : option nat) : option nat :=
  match n with NExec _ opened => opened | _ => mine end.

(** The pool in the course of the query, with the calls of other goroutines between its
    milestones if it is [shared]. *)
Definition between (shared : bool) (mine : option nat) (w w' : W) : Prop :=
  if shared then rtc (other_call mine) w w' else w' = w.

Fixpoint pool_used (shared : bool) (mine : option nat) (w : W) (ns : list note) (w' : W) : Prop :=
  match ns with
  | [] => between shared mine w w'
  | n :: ns =>
      exists w1 w2, between shared mine w w1 /\ on_pool n w1 w2 /\
        pool_used shared (mine_after n mine) w2 ns w'
  end.

(** ** The calls of the pool *)

Lemma eval_ok {X} (m : prog ans X) w : lib_ok w -> lib_ok (on m w).2.
Proof. intros Hok. exact (eval_inv lib_exec lib_ok m w lib_exec_ok Hok). Qed.

(** What one goroutine gave back, others do not take again in its name. *)
Lemma other_call_spares r w w' : other_call (Some r) w w' -> r ∉ holding w -> r ∉ holding w'.
Proof.
  intros Hc Hr. destruct Hc as [sql w Hne|r' X m w Hne Hm|r' w Hne|X m w Hm].
  - pose proof (lends_Exec h sql w) as Hl. destruct (on (Pools.Exec P h sql) w) as [[r'|e] w']; cbn [fst snd] in *.
    + destruct Hl as [_ ->]. specialize (Hne r' eq_refl). set_solver.
    + by rewrite Hl.
  - destruct (lends_read r' X m w Hm). set_solver.
  - rewrite lends_CloseRows. set_solver.
  - by rewrite (lends_keep h X m w Hm).
Qed.

Lemma other_call_ok mine w w' : other_call mine w w' -> lib_ok w -> lib_ok w'.
Proof. destruct 1; apply eval_ok. Qed.

Lemma between_ok shared mine w w' : between shared mine w w' -> lib_ok w -> lib_ok w'.
Proof.
  destruct shared; cbn [between]; [|by intros ->]. induction 1; [done|]. eauto using other_call_ok.
Qed.

Lemma encoder_reads_ok r w w' :
  rtc (encoder_call r) w w' -> lib_ok w ->
  lib_ok w' /\ holding w ∖ {[r]} ⊆ holding w' /\ holding w' ⊆ holding w.
Proof.
  induction 1 as [w|w1 w2 w3 Hc _ IH]; intros Hok; [set_solver|]. destruct Hc as [X m w Hm].
  destruct (lends_read r X m w Hm) as [H1 H2]. destruct (IH (eval_ok m w Hok)) as (H3 & H4 & H5). set_solver.
Qed.

(** The state of the pool between two milestones: [mine] apart it holds what it held at
    the beginning, [H], unless others use it too. *)
Record lent (shared : bool) (mine : option nat) (H : gset nat) (w : W) : Prop := {
  lent_ok : lib_ok w;
  lent_rest : shared = false -> forall r, mine <> Some r -> r ∈ holding w <-> r ∈ H
}.

Lemma lent_between shared mine H w w' : between shared mine w w' -> lent shared mine H w -> lent shared mine H w'.
Proof.
  intros Hb [Hok Hrest]. split; [by eapply between_ok|]. intros ->. cbn [between] in Hb. subst w'. by apply Hrest.
Qed.

(** Milestones that leave the pool alone but for reading from [mine]. *)
Definition reads_only (mine : option nat) (n : note) : Prop :=
  match n with
  | NExec _ _ | NCloseRows _ => False
  | NEncode rows _ _ _ => mine = Some rows
  | _ => True
  end.

Lemma pool_used_reads shared mine H ns ns' w w' :
  Forall (reads_only mine) ns -> pool_used shared mine w (ns ++ ns') w' -> lent shared mine H w ->
  exists w1, pool_used shared mine w1 ns' w' /\ lent shared mine H w1.
Proof.
  intros Hf. revert w. induction Hf as [|n ns Hn _ IH]; intros w Hu Hl; [by eauto|].
  destruct Hu as (w1 & w2 & Hb & Hp & Hu). apply (lent_between _ _ H) in Hb; [|done].
  assert (mine_after n mine = mine) as Hm by by destruct n. rewrite Hm in Hu.
  apply (IH w2); [done|]. destruct n; cbn [reads_only on_pool] in *; try done; try (by subst w2).
  subst mine. destruct Hb as [Hok Hrest]. destruct (encoder_reads_ok _ _ _ Hp Hok) as (Hok' & H1 & H2).
  split; [done|]. intros Hs r Hr. rewrite <- (Hrest Hs r Hr). set_solver.
Qed.

Lemma pool_used_rest shared mine H ns w w' :
  Forall (reads_only mine) ns -> pool_used shared mine w ns w' -> lent shared mine H w -> lent shared mine H w'.
Proof.
  intros Hf Hu Hl. rewrite <- (app_nil_r ns) in Hu.
  destruct (pool_used_reads _ _ _ _ _ _ _ Hf Hu Hl) as (w1 & Hb & H1). by eapply lent_between.
Qed.

(** Opening and closing the result set. *)
Lemma pool_used_exec shared H sql opened ns w w' :
  pool_used shared None w (NExec sql opened :: ns) w' -> lent shared None H w ->
  exists w1, pool_used shared opened w1 ns w' /\ lent shared opened H w1 /\
    (shared = false -> forall r, opened = Some r -> r ∉ H).
Proof.
  intros (w1 & w2 & Hb & (-> & ->) & Hu) Hl. apply (lent_between _ _ H) in Hb as [Hok Hrest]; [|done].
  pose proof (eval_ok (Pools.Exec P h sql) w1 Hok) as Hok2. pose proof (lends_Exec h sql w1) as Hx.
  eexists. split; [exact Hu|]. destruct (on (Pools.Exec P h sql) w1) as [[r|e] w2]; cbn [fst snd] in *.
  - destruct Hx as [Hnot Hx]. split; [split; [done|]|].
    + intros Hs r' Hr'. rewrite <- (Hrest Hs r') by done. rewrite Hx. set_solver.
    + intros Hs r' [= <-]. by rewrite <- (Hrest Hs r).
  - split; [split; [done|]|done]. intros Hs r' _. rewrite Hx. by apply Hrest.
Qed.

Lemma pool_used_close shared H r ns w w' :
  pool_used shared (Some r) w (NCloseRows r :: ns) w' -> lent shared (Some r) H w ->
  exists w1, pool_used shared (Some r) w1 ns w' /\ lent shared (Some r) H w1 /\ r ∉ holding w1.
Proof.
  intros (w1 & w2 & Hb & -> & Hu) Hl. apply (lent_between _ _ H) in Hb as [Hok Hrest]; [|done].
  eexists. split; [exact Hu|]. rewrite lends_CloseRows. split; [|set_solver]. split; [by apply eval_ok|].
  intros Hs r' Hr'. rewrite lends_CloseRows, <- (Hrest Hs r' Hr'). set_solver.
Qed.

(** Once closed, the result set holds nothing to the end. *)
Lemma pool_used_closed shared r ns w w' :
  Forall (reads_only None) ns -> pool_used shared (Some r) w ns w' -> r ∉ holding w -> r ∉ holding w'.
Proof.
  assert (forall v v', between shared (Some r) v v' -> r ∉ holding v -> r ∉ holding v') as Hb.
  { destruct shared; cbn [between]; [|by intros v v' ->]. induction 1; eauto using other_call_spares. }
  intros Hf. revert w. induction Hf as [|n ns Hn _ IH]; intros w Hu Hr; [by eapply Hb|].
  destruct Hu as (w1 & w2 & H1 & Hp & Hu). apply Hb in H1; [|done].
  assert (mine_after n (Some r) = Some r) as Hm by by destruct n. rewrite Hm in Hu.
  apply (IH w2); [done|]. destruct n; cbn [reads_only on_pool] in *; try done; by subst w2.
Qed.

(** ** A query *)

Lemma attempts_reads mine r l : attempts r l -> Forall (reads_only mine) l.
Proof. intros Ha. apply Forall_forall. intros n Hn. by apply (attempts_only _ _ _ Ha) in Hn as [ok ->]. Qed.

(** Between the statement and the closing of its rows, a query reads from no other. *)
Lemma ends_reads r opened l : ends r opened l -> Forall (reads_only opened) l.
Proof.
  intros (mid & next & qErr & res & now & st & puts & Hend & Hatt & -> & _).
  rewrite !Forall_app. split_and!; [|by eapply attempts_reads|by repeat constructor].
  destruct Hend; cbn [written app]; by repeat constructor.
Qed.

(** The pool at the end of a query, by its milestones. *)
Lemma pool_used_ends shared sql id c starts running opened tail r0 w w' :
  attempts r0 starts -> ends running opened tail ->
  pool_used shared None w
    (starts ++ [NStarted; NExec sql opened] ++ tail ++ closing opened ++ [NDeregister id; NReleaseSlot; NCancel c]) w' ->
  lent shared None (holding w) w ->
  lent shared opened (holding w) w' /\
  (forall r, opened = Some r -> (r ∉ holding w') /\ (shared = false -> r ∉ holding w)).
Proof.
  intros Hst Hends Hu Hl. cbn [app] in Hu.
  change (?x :: NExec sql opened :: ?l) with ([x] ++ NExec sql opened :: l) in Hu; rewrite app_assoc in Hu.
  apply (pool_used_reads _ _ (holding w)) in Hu as (w1 & Hu & H1); [|by apply Forall_app; split; [by eapply attempts_reads|repeat constructor]|done].
  apply (pool_used_exec _ (holding w)) in Hu as (w2 & Hu & H2 & Hnew); [|done].
  apply (pool_used_reads _ _ (holding w)) in Hu as (w3 & Hu & H3); [|by eapply ends_reads|done].
  assert (forall m, Forall (reads_only m) [NDeregister id; NReleaseSlot; NCancel c]) as Hq by by repeat constructor.
  destruct opened as [r|]; cbn [closing app] in Hu; [|split; [exact (pool_used_rest _ _ _ _ _ _ (Hq _) Hu H3)|done]].
  apply (pool_used_close _ (holding w)) in Hu as (w4 & Hu & H4 & Hr); [|done].
  split; [exact (pool_used_rest _ _ _ _ _ _ (Hq _) Hu H4)|]. intros r' [= <-].
  split; [exact (pool_used_closed _ _ _ _ _ (Hq _) Hu Hr)|]. intros Hs. by apply Hnew.
Qed.

(** C26. However a query ends, the connection of its statement goes back to the pool: when the
    goroutine of the query returns, the result set the statement opened holds none. If
    nobody else used the pool meanwhile, the pool holds exactly the connections it held
    before, and counts as many in use. This holds for every pool that lends connections
    as documented, whatever the encoder read of the result set. *)
Theorem connections_returned shared record p c tr res w w' :
  rec_State record = StatePending -> executes (run record p c) tr res ->
  lib_ok w -> pool_used shared None w (notes tr) w' ->
  (forall sql r, NExec sql (Some r) ∈ notes tr -> r ∉ holding w') /\
  (shared = false ->
     holding w' = holding w /\ st_InUse (on (Stat P h) w').1 = st_InUse (on (Stat P h) w).1).
Proof.
  intros Hr Hex Hok Hu. pose proof Hex as Hx. apply run_shape in Hx as (t0 & starts & opened & tail & Hst & Hends & Hn); [|done].
  assert (forall sql r, NExec sql (Some r) ∈ notes tr -> opened = Some r) as Hone.
  { intros sql r. rewrite Hn, !elem_of_app. pose proof (attempts_reads None _ _ Hst) as H1.
    pose proof (ends_reads _ _ _ Hends) as H2. rewrite Forall_forall in H1, H2. intros Hin. destruct_or! Hin.
    - by apply H1 in Hin.
    - set_solver.
    - by apply H2 in Hin.
    - destruct opened; set_solver.
    - set_solver. }
  rewrite Hn in Hu. assert (lent shared None (holding w) w) as Hl by done.
  destruct (pool_used_ends _ _ _ _ _ _ _ _ _ _ _ Hst Hends Hu Hl) as [[Hok' Hrest] Hno].
  assert (shared = false -> holding w' = holding w) as Hsame.
  { intros Hs. apply set_eq. intros r. destruct (decide (opened = Some r)) as [->|Hne]; [|by apply Hrest].
    destruct (Hno r eq_refl) as [H1 H2]. specialize (H2 Hs). done. }
  split; [intros sql r Hin; by apply Hno, (Hone sql)|]. intros Hs. split; [by apply Hsame|].
  by rewrite !lends_Stat, Hsame.
Qed.

End Lent.

(** ** Examples *)

(** A handle of the test driver, and a statement that opens its first result set. *)
Definition demo_lent : world :=
  mkWorld Memory.NewMemoryMetaStore demo_qm (1000 * Second) 0 None (Ok (new_rows DbTest.OpenFakeDB)) demo_encode None.

Definition demo_lent_trace : trace := (demo_run (run demo_record 1 1) demo_lent).1.2.

#[local] Instance demo_mysql : Lends (row := Z * string) mysqlPool DB := sql_lends DbTest.fakeDriver DbTest.scan_pair.

(** pgx with connections enough for every statement, whose results are empty. *)
Definition demo_pgx_exec (a : pgx_action) (w : gset nat) : pgx_answer (row := unit) a * gset nat :=
  match a with
  | PgQuery _ _ => (Ok (fresh w), {[fresh w]} ∪ w)
  | PgPing _ | PgErr _ => (None, w)
  | PgStat _ => ((0, 0, wrap32 (Z.of_nat (size w))), w)
  | PgClose _ => (tt, w)
  | PgRowsClose r => (tt, w ∖ {[r]})
  | PgFieldDescriptions _ => (["id"], w)
  | PgNext r => (false, w ∖ {[r]})
  | PgScan _ => (Err (PlainError "no rows in result set"), w)
  end%Z.

#[local, refine] Instance demo_pgx : Pgx unit (gset nat) := { pgx_exec := demo_pgx_exec; pgx_held w := w }.
Proof.
  - done.
  - intros h sql w. cbn. split; [apply is_fresh|done].
  - intros a h w Ha. rewrite !elem_of_cons, elem_of_nil in Ha. by destruct_or! Ha; subst a.
  - intros a r w Ha. rewrite !elem_of_cons, elem_of_nil in Ha. destruct_or! Ha; subst a; cbn; set_solver.
  - done.
Defined.

Lemma demo_lent_executes : executes (run demo_record 1 1) demo_lent_trace tt.
Proof. exact (demo_executes (run demo_record 1 1) demo_lent). Qed.

(** A pool along the milestones of a query, given what the encoder reads. *)
Ltac use_pool reading :=
  repeat match goal with
  | |- pool_used _ _ _ _ _ (?n :: _) _ =>
      eexists _, _; split; [first [reflexivity|apply rtc_refl]|]; split;
        [lazymatch n with NEncode _ _ _ _ => reading | NExec _ _ => split; vm_compute; reflexivity | _ => reflexivity end|];
        cbn [mine_after]
  | |- pool_used _ _ _ _ _ [] _ => first [reflexivity|apply rtc_refl]
  end.

Ltac compute_notes :=
  let ns := eval vm_compute in (notes demo_lent_trace) in
  replace (notes demo_lent_trace) with ns by (vm_compute; reflexivity).

(** The encoder reads the columns and the first row from MySQL. *)
Lemma demo_mysql_used : exists w', pool_used mysqlPool 0 false None DbTest.OpenFakeDB (notes demo_lent_trace) w'.
Proof.
  eexists. compute_notes.
  use_pool ltac:(eapply rtc_l; [eapply encoder_reads, reads_Columns|]; eapply rtc_l; [eapply encoder_reads, reads_Next|];
    apply rtc_once; eapply encoder_reads, reads_Scan).
Qed.

(** PostgreSQL has no rows for it, and its pool is shared. *)
Lemma demo_postgres_used :
  exists w', pool_used (row := unit) (W := gset nat) postgresPool 0 true None ∅ (notes demo_lent_trace) w'.
Proof.
  eexists. compute_notes. use_pool ltac:(apply rtc_once; eapply encoder_reads, reads_Next).
Qed.

Lemma connections_returned_witness :
  (exists w', pool_used mysqlPool 0 false None DbTest.OpenFakeDB (notes demo_lent_trace) w' /\ holding w' = ∅) /\
  (exists w', pool_used (row := unit) (W := gset nat) postgresPool 0 true None ∅ (notes demo_lent_trace) w' /\
     0%nat ∉ holding w').
Proof.
  split.
  - destruct demo_mysql_used as [w' Hu]. exists w'. split; [exact Hu|].
    exact (proj1 (proj2 (connections_returned mysqlPool 0 false demo_record 1 1 demo_lent_trace tt _ _ eq_refl
      demo_lent_executes DbTest.OpenFakeDB_ok Hu) eq_refl)).
  - destruct demo_postgres_used as [w' Hu]. exists w'. split; [exact Hu|].
    refine (proj1 (connections_returned (row := unit) postgresPool 0 true demo_record 1 1 demo_lent_trace tt ∅ w' eq_refl
      demo_lent_executes _ Hu) "select 1" 0%nat _); [exact I|]. compute_notes. set_solver.
Defined.
