(* ===== verification/Telemetry.v ===== *)
(** * Telemetry

    The recording functions of [internal/telemetry/metrics.go]. The domain metrics
    are a state that they update ([metrics]); the theorem follows the recordings of a
    whole execution of a query next to its terminal announcement. The construction of
    the meter provider is in [Meter]. *)

From S2P Require Import Prelude Domain Utf8 SqlGuard Authn Config MetaStore Prog ManagerState Manager.
From S2P Require Import World Submission Execution.

Open Scope Z_scope.
Open Scope dbb_scope.

(** ** The domain metrics *)

(** Counters, the up-down counter of running queries, the samples of the histogram,
    and the last values of the gauge, by their attributes. *)
Record metrics := mkMetrics {
  queriesTotal : gmap (string * string) Z;
  resultBytesTotal : gmap string Z;
  idempotencyHitsTotal : Z;
  queryDuration : gmap string (list Z);
  inflightQueries : Z;
  dbPoolStats : gmap (string * string) Z
}.

Definition no_metrics : metrics := mkMetrics ∅ ∅ 0 ∅ 0 ∅.

Definition count {K} `{Countable K} (m : gmap K Z) (k : K) : Z := default 0 (m !! k).

Definition Add {K} `{Countable K} (k : K) (n : Z) (m : gmap K Z) : gmap K Z := <[k := count m k + n]> m.

Definition RecordQueryCompleted (engine state : string) (duration : Z) (m : metrics) : metrics :=
  mkMetrics (Add (engine, state) 1 (queriesTotal m)) (resultBytesTotal m) (idempotencyHitsTotal m)
    (<[engine := default [] (queryDuration m !! engine) ++ [duration]]> (queryDuration m))
    (inflightQueries m) (dbPoolStats m).

Definition RecordQueryStarted (m : metrics) : metrics :=
  mkMetrics (queriesTotal m) (resultBytesTotal m) (idempotencyHitsTotal m) (queryDuration m)
    (inflightQueries m + 1) (dbPoolStats m).

Definition RecordQueryFinished (m : metrics) : metrics :=
  mkMetrics (queriesTotal m) (resultBytesTotal m) (idempotencyHitsTotal m) (queryDuration m)
    (inflightQueries m - 1) (dbPoolStats m).

Definition RecordResultBytes (backend : string) (size : Z) (m : metrics) : metrics :=
  mkMetrics (queriesTotal m) (Add backend size (resultBytesTotal m)) (idempotencyHitsTotal m) (queryDuration m)
    (inflightQueries m) (dbPoolStats m).

Definition RecordIdempotencyHit (m : metrics) : metrics :=
  mkMetrics (queriesTotal m) (resultBytesTotal m) (idempotencyHitsTotal m + 1) (queryDuration m)
    (inflightQueries m) (dbPoolStats m).

(** The three values of a database; the order of the map they are taken from does
    not matter, as their keys differ. *)
Definition RecordPoolStat (dbID : string) (open idle inUse : Z) (m : metrics) : metrics :=
  mkMetrics (queriesTotal m) (resultBytesTotal m) (idempotencyHitsTotal m) (queryDuration m) (inflightQueries m)
    (<[(dbID, "open") := open]> (<[(dbID, "idle") := idle]> (<[(dbID, "in_use") := inUse]> (dbPoolStats m)))).

(** The recordings of the query manager. *)
Definition record (t : telemetry) : metrics -> metrics :=
  match t with
  | TIdempotencyHit => RecordIdempotencyHit
  | TQueryStarted => RecordQueryStarted
  | TQueryFinished => RecordQueryFinished
  | TQueryCompleted engine state d => RecordQueryCompleted engine state d
  | TResultBytes backend n => RecordResultBytes backend n
  | TPoolStat dbID (open, idle, inUse) => RecordPoolStat dbID open idle inUse
  end.

Definition tele_of (ev : event answer) : option telemetry :=
  match projT1 ev with ATelemetry t => Some t | _ => None end.

(** The metrics after a trace. *)
Definition recorded (tr : trace) (m : metrics) : metrics := fold_left (fun m t => record t m) (omap tele_of tr) m.

(** ** The recordings of an execution *)

(** Recordings and terminal announcements, the configurations read and the references
    of the writers opened, in order. *)
Inductive mark := MTele (t : telemetry) | MEnd (ev : QueryEvent) | MConf (cfg : Config.Config) | MWriter (ref : ResultRef).

Definition mark_of (ev : event answer) : option mark :=
  match ev with
  | existT (ATelemetry t) _ => Some (MTele t)
  | existT (ALocal (LDeliver ev)) _ => if IsTerminal (ev_State ev) then Some (MEnd ev) else None
  | existT (ALocal LConfig) cfg => Some (MConf cfg)
  | existT (AWriter _ _ _ _) opened =>
      match (opened : result (nat * ResultRef)) with Ok (_, ref) => Some (MWriter ref) | Err _ => None end
  | _ => None
  end.

Definition marks (tr : trace) : list mark := omap mark_of tr.

Lemma marks_app tr1 tr2 : marks (tr1 ++ tr2) = marks tr1 ++ marks tr2.
Proof. apply omap_app. Qed.

(** Events that leave no mark. *)
Ltac skip_marks :=
  repeat match goal with |- context [marks (?ev :: ?tr)] => change (marks (ev :: tr)) with (marks tr) end.

Definition unmarked (a : action) : Prop :=
  match a with
  | ATelemetry _ => False
  | ALocal (LDeliver ev) => IsTerminal (ev_State ev) = false
  | ALocal LConfig | AWriter _ _ _ _ => False
  | _ => True
  end.

Lemma unmarked_marks {A} (p : M A) tr res : only unmarked p -> executes p tr res -> marks tr = [].
Proof.
  intros Ho He. apply (only_executes _ _ _ _ Ho) in He. induction He as [|ev tr Ha _ IH]; [done|].
  assert (mark_of ev = None) as Hm.
  { unfold mark_of. destruct ev as [a x]. simpl in *. destruct a; try done. case_match; try done. by rewrite Ha. }
  unfold marks in *. simpl. by rewrite Hm.
Qed.

Lemma persist_unmarked r n b : only unmarked (persist r n b).
Proof.
  revert b. induction n as [|n IH]; intros b; [done|]. cbn [persist]. unfold meta, call. cbn [bind only].
  split; [done|]. intros [e|]; [|done]. destruct n as [|n]; [done|]. split; [done|]. intros []; [done|apply IH].
Qed.

Lemma terminalFor_unmarked cx e fallback : only unmarked (terminalFor cx e fallback).
Proof.
  unfold terminalFor, act, call.
  destruct (is_canceled e); [done|]. split; [done|]. intros x. cbn [bind].
  destruct (ctx_is is_canceled x); [done|].
  destruct (is_deadline e); [done|]. split; [done|]. intros y. by cbn [bind]; destruct (ctx_is is_deadline y).
Qed.

Lemma report_unmarked progress st : IsTerminal (rec_State st.1) = false -> only unmarked (report progress st).
Proof.
  destruct st as [r last]. simpl. intros Hr. unfold report, since, notifyWatchers, act, local, call.
  cbn [bind only ev_State rec_State set_Stats]. split; [done|]. intros lost. destruct lost; [done|].
  split; [done|]. intros now. cbn [bind]. destruct (_ <? _); [done|]. rewrite Hr. by repeat split.
Qed.

Lemma reports_unmarked ps st tr st' : rec_State st.1 = StateRunning ->
  executes (for_each report ps st) tr st' -> marks tr = [].
Proof.
  revert st tr. induction ps as [|p ps IH]; intros st tr Hr; cbn [for_each]; [by intros [-> _]|].
  intros (tr1 & tr2 & st1 & -> & H1 & H2)%executes_bind. rewrite marks_app.
  rewrite (unmarked_marks _ _ _ (report_unmarked p st ltac:(by rewrite Hr)) H1).
  apply report_notes in H1 as (_ & s1 & Hs1); [|done]. by eapply IH in H2 as ->; [|rewrite Hs1].
Qed.

(** What ending an execution records: the counter of running queries, and the state
    and duration that were announced, under the engine of the database in the
    configuration that was read. *)
Definition end_marks (ev : QueryEvent) (db : string) (cfg : Config.Config) : list mark :=
  [MEnd ev; MTele TQueryFinished; MConf cfg;
   MTele (TQueryCompleted (getEngine db cfg) (QueryState_string (ev_State ev)) (TotalDuration (ev_Stats ev)))].

Lemma complete_marks r next tr res :
  CanTransitionTo (rec_State r) next = true -> IsTerminal next = true ->
  executes (complete r next) tr res ->
  exists now, let final := set_FinishedAt now (set_State next r) in
    res = Some final /\ marks tr = [MEnd (announcement final)].
Proof.
  intros Hc Ht. unfold complete. rewrite Hc. intros (now & tr1 & -> & Hex). cbn [bind call act] in Hex.
  set (final := set_FinishedAt now (set_State next r)) in *.
  apply executes_bind in Hex as (t1 & t2 & perr & -> & Hp & Hex).
  apply executes_bind in Hex as (t3 & t4 & [] & -> & Hi & Hex).
  apply executes_bind in Hex as (t5 & t6 & [] & -> & Hn & [-> ->]).
  exists now. split; [done|]. unfold marks. cbn [omap list_omap mark_of]. fold (marks (t1 ++ t3 ++ t5 ++ [])).
  rewrite !marks_app. rewrite (unmarked_marks _ _ _ (persist_unmarked _ _ _) Hp).
  eapply unmarked_marks in Hi as ->; [|destruct (_ && _); by repeat split].
  unfold notifyWatchers in Hn. cbn [ev_State] in Hn. rewrite Ht in Hn.
  destruct Hn as ([] & u1 & -> & Hn). cbn [bind call] in Hn. destruct Hn as (y & u2 & -> & [-> _]).
  unfold marks. cbn [omap list_omap mark_of ev_State]. by rewrite Ht.
Qed.

Lemma finishRun_marks r next qErr d1 d2 tr res :
  CanTransitionTo (rec_State r) next = true -> IsTerminal next = true ->
  executes (finishRun r next qErr d1 d2) tr res ->
  exists ev cfg, ev_State ev = next /\ BytesWritten (ev_Stats ev) = BytesWritten (Stats r) /\
    marks tr = end_marks ev (DatabaseID r) cfg.
Proof.
  intros Hc Ht. unfold finishRun. cbv zeta. intros (t1 & t2 & total & -> & Hs & Hex)%executes_bind.
  apply executes_bind in Hex as (t3 & t4 & done_ & -> & Hcomp & Hex).
  apply complete_marks in Hcomp as (now & -> & Hm); [|done..]. cbv zeta in Hm.
  destruct Hex as ([] & t5 & -> & Hex). cbn [bind call act local] in Hex.
  destruct Hex as (cfg & t6 & -> & Hex). cbn [bind call act] in Hex. destruct Hex as ([] & t7 & -> & [-> _]).
  eapply unmarked_marks in Hs; [|destruct (_ =? _); by repeat split].
  match type of Hm with _ = [MEnd ?ev] => exists ev end. exists cfg.
  rewrite !marks_app, Hm, Hs. done.
Qed.

(** *** The whole execution *)

(** An execution that ended with [ev] after opening a writer or none; only a success,
    which has a writer, adds bytes of a result, under the backend of its reference. *)
Definition ending_marks (w : option ResultRef) (ev : QueryEvent) (db : string) (cfg : Config.Config) : list mark :=
  (MWriter <$> option_list w) ++ end_marks ev db cfg ++
  (if state_eqb (ev_State ev) StateSucceeded
   then (fun ref => MTele (TResultBytes (Backend ref) (BytesWritten (ev_Stats ev)))) <$> option_list w else []).

Definition run_ending (w : option ResultRef) (db : string) (ms : list mark) : Prop :=
  exists ev cfg, (MWriter <$> option_list w) ++ ms = ending_marks w ev db cfg /\
    (ev_State ev = StateSucceeded -> w <> None).

Lemma failed_ending w r next qErr d1 d2 tr res :
  rec_State r = StateRunning -> CanTransitionTo StateRunning next = true -> IsTerminal next = true ->
  next <> StateSucceeded -> executes (finishRun r next qErr d1 d2) tr res -> run_ending w (DatabaseID r) (marks tr).
Proof.
  intros Hr Hc Ht Hn Hex. apply finishRun_marks in Hex as (ev & cfg & He & _ & ->); [|by rewrite Hr|done].
  exists ev, cfg. split; [|congruence]. unfold ending_marks. rewrite He.
  assert (state_eqb next StateSucceeded = false) as -> by by destruct next. by rewrite app_nil_r.
Qed.

Lemma terminal_ending w c r e fallback d1 d2 tr res :
  rec_State r = StateRunning ->
  executes (do '(next, qErr) <- terminalFor (CtxId c) e fallback; finishRun r next qErr d1 d2) tr res ->
  run_ending w (DatabaseID r) (marks tr).
Proof.
  intros Hr (t1 & t2 & [next qErr] & -> & Hterm & Hex)%executes_bind. rewrite marks_app.
  rewrite (unmarked_marks _ _ _ (terminalFor_unmarked _ _ _) Hterm).
  apply terminalFor_spec in Hterm as [_ Hf]. apply failure_terminal in Hf as (Hc & Ht & Hn).
  by eapply failed_ending.
Qed.

Lemma stream_rows_ending c r rows writer ref t0 d tr res :
  rec_State r = StateRunning -> executes (stream_rows c r rows writer ref t0 d) tr res -> run_ending (Some ref) (DatabaseID r) (marks tr).
Proof.
  intros Hr (start & t1 & -> & Hex). cbn [bind call act] in Hex. destruct Hex as (out & t2 & -> & Hex). cbn [bind call act] in Hex.
  apply executes_bind in Hex as (t3 & t4 & [r1 last] & -> & Hrep & Hex).
  pose proof (reports_unmarked _ (r, zero_time) _ _ Hr Hrep) as Hm3. apply reports_notes in Hrep as (_ & s & Hs); [|done]. cbn [fst] in Hs.
  assert (rec_State r1 = StateRunning) as Hr1 by by rewrite Hs. assert (DatabaseID r1 = DatabaseID r) as Hd by by rewrite Hs.
  destruct Hex as ([] & t5 & -> & Hex). cbn [bind call act] in Hex. destruct Hex as (closeErr & t6 & -> & Hex). cbn [bind call act] in Hex.
  destruct Hex as (now & t7 & -> & Hex). cbn [bind call act] in Hex.
  skip_marks. rewrite marks_app, Hm3. skip_marks. rewrite app_nil_l.
  destruct (enc_err out) as [e|]; [|destruct closeErr as [e|]].
  - destruct Hex as (x & t8 & -> & Hex). cbn [bind call act] in Hex.
    skip_marks. eapply terminal_ending in Hex; [|done]. rewrite <- Hd. exact Hex.
  - destruct Hex as (x & t8 & -> & Hex). cbn [bind call act] in Hex.
    skip_marks. eapply terminal_ending in Hex; [|done]. rewrite <- Hd. exact Hex.
  - destruct Hex as (x & t8 & -> & Hex). cbn [bind call act] in Hex. cbv zeta in Hex.
    apply executes_bind in Hex as (t9 & t10 & [] & -> & Hfin & Hex). destruct Hex as ([] & t11 & -> & [-> _]).
    apply finishRun_marks in Hfin as (ev & cfg & He & Hb & Hm); [|by simpl; rewrite Hr1|done].
    exists ev, cfg. split; [|done]. unfold ending_marks. rewrite He. cbn [state_eqb].
    skip_marks. rewrite marks_app, Hm, Hb, <- Hd. done.
Qed.

Lemma store_rows_ending c r rows t0 d tr res :
  rec_State r = StateRunning -> executes (store_rows c r rows t0 d) tr res ->
  exists w ev cfg, marks tr = ending_marks w ev (DatabaseID r) cfg /\ (ev_State ev = StateSucceeded -> w <> None).
Proof.
  intros Hr (serr & t1 & -> & Hex). cbn [bind call act] in Hex. skip_marks. destruct serr as [e|].
  - exists None. by eapply (failed_ending None) in Hex.
  - destruct Hex as (opened & t2 & -> & Hex). cbn [bind call act] in Hex.
    destruct opened as [[writer ref]|e]; [exists (Some ref); by eapply stream_rows_ending in Hex|].
    skip_marks. exists None. by eapply (failed_ending None) in Hex.
Qed.

Lemma run_marks record p c tr res :
  rec_State record = StatePending -> executes (run record p c) tr res ->
  exists w ev cfg, marks tr = MTele TQueryStarted :: ending_marks w ev (DatabaseID record) cfg /\
    (ev_State ev = StateSucceeded -> w <> None).
Proof.
  intros Hp. unfold run. intros (t1 & t2 & [] & -> & Hbody & Hex)%executes_bind. rewrite marks_app.
  destruct Hex as ([] & u1 & -> & Hex). cbn [bind call act local] in Hex. destruct Hex as ([] & u2 & -> & Hex).
  cbn [bind call act local] in Hex. destruct Hex as ([] & u3 & -> & [-> _]). skip_marks. rewrite app_nil_r. clear res.
  unfold run_body in Hbody. destruct Hbody as (now & t3 & -> & Hex). cbn [bind call act] in Hex. skip_marks.
  rewrite Hp in Hex. change (negb (CanTransitionTo StatePending StateRunning)) with false in Hex. cbv zeta in Hex.
  apply executes_bind in Hex as (t4 & t5 & perr & -> & Hper & Hex).
  rewrite marks_app, (unmarked_marks _ _ _ (persist_unmarked _ _ _) Hper), app_nil_l.
  apply executes_bind in Hex as (t6 & t7 & [] & -> & Hnot & Hex).
  rewrite marks_app. eapply unmarked_marks in Hnot as ->; [|by repeat split]. rewrite app_nil_l.
  destruct Hex as ([] & t8 & -> & Hex). cbn [bind call act] in Hex.
  change (marks (existT (ATelemetry TQueryStarted) () :: t8)) with (MTele TQueryStarted :: marks t8).
  destruct Hex as (dbStart & t9 & -> & Hex). cbn [bind call act] in Hex. destruct Hex as (opened & t10 & -> & Hex).
  cbn [bind call act] in Hex. destruct Hex as (now2 & t11 & -> & Hex). cbn [bind call act] in Hex. skip_marks.
  destruct opened as [rows|e].
  2: { eapply (terminal_ending None) in Hex as (ev & cfg & Hm & Hs); [|done]. exists None, ev, cfg. split; [f_equal; exact Hm|exact Hs]. }
  apply executes_bind in Hex as (t12 & t13 & [] & -> & Hst & Hex). destruct Hex as (x & t14 & -> & [-> _]).
  rewrite marks_app. skip_marks. rewrite app_nil_r.
  eapply store_rows_ending in Hst as (w & ev & cfg & Hm & Hs); [|done]. exists w, ev, cfg. split; [f_equal; exact Hm|exact Hs].
Qed.

(** *** The metrics after it *)

Lemma recorded_marks tr m :
  recorded tr m = fold_left (fun m k => match k with MTele t => record t m | _ => m end) (marks tr) m.
Proof.
  revert m. unfold recorded, marks. induction tr as [|[a x] tr IH]; intros m; [done|].
  destruct a as [op| | | | | | | | | | | | | | | | | | | | | | | | | | | | | | | | | | | | | | | | | | |]; try apply IH.
  - destruct op; try apply IH. simpl. unfold tele_of. simpl. destruct (IsTerminal _); apply IH.
  - simpl. unfold tele_of. simpl. destruct x as [[? ?]|]; apply IH.
Qed.

Lemma announced_marks tr :
  announced (notes tr) = omap (fun k => match k with MEnd ev => Some ev | _ => None end) (marks tr).
Proof.
  unfold announced, notes, marks. induction tr as [|[a x] tr IH]; [done|].
  destruct a as [op|cx op| | | | | | | | | | | | | | | | | | | | | | | | | | | | | | | | | | | | | | | | | |]; try apply IH.
  - destruct op; try apply IH. simpl. destruct (IsTerminal _); [|apply IH]. simpl. f_equal. apply IH.
  - destruct op; apply IH.
  - simpl. destruct x as [[? ?]|]; apply IH.
  - simpl. destruct t; apply IH.
Qed.

(** The configurations an execution read. *)
Definition configs (tr : trace) : list Config.Config :=
  omap (fun ev => match ev with existT (ALocal LConfig) cfg => Some cfg | _ => None end) tr.

Lemma configs_marks tr : configs tr = omap (fun k => match k with MConf cfg => Some cfg | _ => None end) (marks tr).
Proof.
  unfold configs, marks. induction tr as [|[a x] tr IH]; [done|].
  destruct a as [op| | | | | | | | | | | | | | | | | | | | | | | | | | | | | | | | | | | | | | | | | | |]; try apply IH.
  - destruct op; try apply IH; simpl; [destruct (IsTerminal _); apply IH|f_equal; apply IH].
  - simpl. destruct x as [[? ?]|]; apply IH.
Qed.

(** The writer a mark stands for is the one of the notes. *)
Lemma writer_marked tr ref :
  MWriter ref ∈ marks tr -> exists store queryID format w, NWriter store queryID format w ref ∈ notes tr.
Proof.
  intros ([a x] & Hin & Hm)%list_elem_of_omap. unfold mark_of in Hm.
  destruct a as [op| | | | | | | | | | | | | | | | | | | | | | | | | | | | | | | | | | | | | | | | | | |]; try done.
  - destruct op; try done. by destruct (IsTerminal _).
  - destruct x as [[w r]|]; [|done]. injection Hm as ->. eexists _, _, _, w. apply list_elem_of_omap.
    eexists. split; [exact Hin|done].
Qed.

Lemma count_Add {K} `{Countable K} (m : gmap K Z) k0 n k : count (Add k0 n m) k = count m k + if decide (k = k0) then n else 0.
Proof.
  unfold count, Add. destruct (decide (k = k0)) as [->|Hne]; [by rewrite lookup_insert_eq|].
  rewrite lookup_insert_ne by done. unfold count. lia.
Qed.

(** C34. The metrics agree with what is announced: whatever happens during an execution,
    and whatever else the metrics held before, afterwards the number of running
    queries is what it was; the number of queries that ended in the announced state on
    the engine of the query's database, as the one configuration the execution read has
    it, is one higher, with one more duration, the announced one; and the bytes of
    results have risen exactly when the query succeeded, by those of its result and
    under the backend of the reference that its store answered when it opened the
    writer. *)
Theorem metrics_agree qrec p c tr res m :
  rec_State qrec = StatePending -> executes (run qrec p c) tr res ->
  exists ev cfg,
    announced (notes tr) = [ev] /\ configs tr = [cfg] /\
    let m' := recorded tr m in
    let engine := getEngine (DatabaseID qrec) cfg in
    let state := QueryState_string (ev_State ev) in
    inflightQueries m' = inflightQueries m /\
    (forall k, count (queriesTotal m') k = count (queriesTotal m) k + if decide (k = (engine, state)) then 1 else 0) /\
    queryDuration m' = <[engine := default [] (queryDuration m !! engine) ++ [TotalDuration (ev_Stats ev)]]> (queryDuration m) /\
    (ev_State ev <> StateSucceeded -> resultBytesTotal m' = resultBytesTotal m) /\
    (ev_State ev = StateSucceeded -> exists w ref,
       NWriter (StorageBackend (rec_Options qrec)) (ID qrec) (ResultFormat (rec_Options qrec)) w ref ∈ notes tr /\
       forall k, count (resultBytesTotal m') k = count (resultBytesTotal m) k +
         if decide (k = Backend ref) then BytesWritten (ev_Stats ev) else 0) /\
    idempotencyHitsTotal m' = idempotencyHitsTotal m /\ dbPoolStats m' = dbPoolStats m.
Proof.
  intros Hp Hex. destruct (run_marks _ _ _ _ _ Hp Hex) as (w & ev & cfg & Hm & Hw).
  assert (forall ref, w = Some ref -> exists n,
    NWriter (StorageBackend (rec_Options qrec)) (ID qrec) (ResultFormat (rec_Options qrec)) n ref ∈ notes tr) as Href.
  { intros ref ->. destruct (writer_marked tr ref) as (st & q & f & n & Hn); [rewrite Hm; right; left|].
    exists n. by eapply writer_asked. }
  exists ev, cfg. rewrite announced_marks, configs_marks, recorded_marks, Hm. unfold ending_marks, end_marks.
  unfold state_eqb. destruct (decide (ev_State ev = StateSucceeded)) as [Hs|Hs];
    [rewrite bool_decide_true by done|rewrite bool_decide_false by done].
  - destruct w as [ref|]; [|by destruct (Hw Hs)]. destruct (Href ref eq_refl) as [n Hn]. cbn.
    unfold count, Add; split_and!; try done; try lia; [intros k; apply count_Add|].
    intros _. exists n, ref. split; [done|]. intros k. apply count_Add.
  - destruct w as [ref|]; cbn; unfold count, Add; split_and!; try done; try lia; intros k; apply count_Add.
Qed.

Lemma metrics_agree_witness :
  exists ev, announced (notes demo_trace) = [ev] /\ inflightQueries (recorded demo_trace no_metrics) = 0.
Proof.
  destruct (metrics_agree demo_record 1 1 demo_trace tt no_metrics eq_refl demo_trace_executes)
    as (ev & cfg & Ha & _ & Hi & _).
  exists ev. exact (conj Ha Hi).
Defined.
