(* ===== verification/Maintenance.v ===== *)
(** * Properties of the background work

    Garbage collection, the owner reaper, control messages and the pool table:
    what every execution of these programs does, and, over a lawful store, that
    they never disturb a query that has ended. *)

From S2P Require Import Prelude Domain Utf8 SqlGuard Authn Config MetaStore Prog ManagerState Manager.
From S2P Require Import World Submission Execution.
Import Config.

Open Scope dbb_scope.

(** ** Garbage collection *)

(** What a trace removes, with the answers: results, claims and records. *)
Inductive removal :=
| RemResult (store : string) (ref : ResultRef) (err : option error)
| RemClaim (dbID key queryID : string) (err : option error)
| RemRecord (id : string) (err : option error).

Definition removal_of (ev : event answer) : option removal :=
  match ev with
  | existT (ADeleteResult _ store ref) err => Some (RemResult store ref err)
  | existT (AMeta _ (OpReleaseIdempotency dbID key queryID)) err => Some (RemClaim dbID key queryID err)
  | existT (AMeta _ (OpDeleteQuery id)) err => Some (RemRecord id err)
  | _ => None
  end.

Definition removals (tr : trace) : list removal := omap removal_of tr.

Lemma removals_app tr1 tr2 : removals (tr1 ++ tr2) = removals tr1 ++ removals tr2.
Proof. apply omap_app. Qed.

(** All that belongs to a record is removed, and the record last: its result, which
    was deleted without an error, and its claim, whose release was answered with
    [rel]. *)
Definition removed (id : string) (rec : QueryRecord) (rel err : option error) : list removal :=
  match rec_Result rec with Some ref => [RemResult (Backend ref) ref None] | None => [] end ++
  (if bool_decide (IdempotencyKey rec = "") then []
   else [RemClaim (DatabaseID rec) (scopedIdempotencyKey (Subject rec) (IdempotencyKey rec)) id rel]) ++
  [RemRecord id err].

(** What collecting the record [rec] removes: nothing, if its store is not there; a
    result that could not be deleted; or everything, the deletion of the record being
    the last thing done. *)
Definition collects (cx : ctxref) (id : string) (rec : QueryRecord) (tr : trace) : Prop :=
  (exists ref e, rec_Result rec = Some ref /\ existT (AGetStore (Backend ref)) (Some e) ∈ tr /\ removals tr = []) \/
  (exists ref e, rec_Result rec = Some ref /\ removals tr = [RemResult (Backend ref) ref (Some e)]) \/
  (exists rel err pre, removals tr = removed id rec rel err /\
     tr = pre ++ [existT (AMeta cx (OpDeleteQuery id)) err]).

Lemma drop_metadata_removals cx id rec tr u :
  executes (drop_metadata cx id rec) tr u ->
  exists rel err pre,
    removals tr = (if bool_decide (IdempotencyKey rec = "") then []
                   else [RemClaim (DatabaseID rec) (scopedIdempotencyKey (Subject rec) (IdempotencyKey rec)) id rel]) ++
                  [RemRecord id err] /\
    tr = pre ++ [existT (AMeta cx (OpDeleteQuery id)) err].
Proof.
  revert tr u. apply wp_sound. unfold drop_metadata, meta, call. case_bool_decide; cbn [bind wp].
  - intros err. by exists None, err, [].
  - intros rel err. eexists rel, err, [_]. by split.
Qed.

Lemma collects_cons cx id rec ev tr : removal_of ev = None -> collects cx id rec tr -> collects cx id rec (ev :: tr).
Proof.
  intros Hev. unfold collects. assert (removals (ev :: tr) = removals tr) as -> by (unfold removals; simpl; by rewrite Hev).
  intros [(ref & e & ? & ? & ?)|[?|(rel & err & pre & ? & ->)]]; [left|right; by left|right; right].
  - exists ref, e. split_and!; [done|by right|done].
  - by exists rel, err, (ev :: pre).
Qed.

Lemma drop_result_removals cx id rec tr u :
  executes (drop_result cx id rec) tr u -> collects cx id rec tr.
Proof.
  unfold drop_result, collects, removed. destruct (rec_Result rec) as [ref|] eqn:Hr.
  2: { intros (rel & err & pre & ? & ?)%drop_metadata_removals. right. right. by exists rel, err, pre. }
  unfold act, call. cbn [bind executes]. intros (serr & tr1 & -> & Hex). cbn in serr.
  destruct serr as [e|]; [destruct Hex as [-> _]; left; exists ref, e; split_and!; [done|by left|done]|].
  cbn [bind executes] in Hex. destruct Hex as (derr & tr2 & -> & Hex). cbn in derr.
  destruct derr as [e|]; [destruct Hex as [-> _]; right; left; by exists ref, e|].
  apply drop_metadata_removals in Hex as (rel & err & pre & Hrem & ->). right. right.
  eexists rel, err, (_ :: _ :: pre). split; [|done].
  transitivity (RemResult (Backend ref) ref None :: removals (pre ++ [existT (AMeta cx (OpDeleteQuery id)) err])); [done|].
  by rewrite Hrem.
Qed.

Lemma expirable s : CanTransitionTo s StateExpired = true -> IsTerminal s = true.
Proof. by destruct s. Qed.

(** Why a query is not collected: its record could not be read, it has not ended, or
    it could not be marked as expired. *)
Definition uncollected (cx : ctxref) (id : string) (tr : trace) : Prop :=
  (exists e, existT (AMeta cx (OpGetQuery id)) (Err e) ∈ tr) \/
  (exists rec, existT (AMeta cx (OpGetQuery id)) (Ok rec) ∈ tr /\ IsTerminal (rec_State rec) = false) \/
  (exists rec e, existT (AMeta cx (OpUpdateQuery rec)) (Some e) ∈ tr).

Lemma collectQuery_removals cx id tr u :
  executes (collectQuery cx id) tr u ->
  (removals tr = [] /\ uncollected cx id tr) \/
  exists rec, existT (AMeta cx (OpGetQuery id)) (Ok rec) ∈ tr /\ IsTerminal (rec_State rec) = true /\
    collects cx id rec tr.
Proof.
  unfold collectQuery, meta, call. cbn [bind executes]. intros (got & tr1 & -> & Hex). cbn in got.
  destruct got as [rec|e]; [|destruct Hex as [-> _]; left; split; [done|]; left; exists e; by left].
  destruct (state_eqb (rec_State rec) StateExpired) eqn:Hx.
  { apply bool_decide_eq_true in Hx. right. exists rec. split; [by left|]. split; [by rewrite Hx|].
    apply collects_cons; [done|]. by eapply drop_result_removals. }
  destruct (CanTransitionTo (rec_State rec) StateExpired) eqn:Hc; cbn [negb] in Hex;
    [|destruct Hex as [-> _]; left; split; [done|]; right; left; exists rec; split; [by left|by destruct (rec_State rec)]].
  cbn [bind executes] in Hex. destruct Hex as (uerr & tr2 & -> & Hex). cbn in uerr.
  destruct uerr as [e|]; [destruct Hex as [-> _]; left; split; [done|]; right; right; eexists _, e; right; by left|].
  unfold notifyWatchers, local, act, call in Hex. cbn [bind executes IsTerminal ev_State] in Hex.
  destruct Hex as ([] & tr3 & -> & sent & tr4 & -> & Hex).
  right. exists rec. split; [by left|]. split; [by apply expirable|].
  do 4 (apply collects_cons; [done|]).
  exact (drop_result_removals _ _ (set_State StateExpired rec) _ _ Hex).
Qed.


(** The records a trace deletes. *)
Definition deleted (tr : trace) : list string :=
  omap (fun r => match r with RemRecord i _ => Some i | _ => None end) (removals tr).

Lemma deleted_app tr1 tr2 : deleted (tr1 ++ tr2) = deleted tr1 ++ deleted tr2.
Proof. unfold deleted. by rewrite removals_app, omap_app. Qed.

Lemma collectQuery_deleted cx id tr u : executes (collectQuery cx id) tr u -> deleted tr ⊆ [id].
Proof.
  unfold deleted.
  intros [[-> _]|(rec & _ & _ & [(ref & e & _ & _ & ->)|[(ref & e & _ & ->)|(rel & err & pre & -> & _)]])]%collectQuery_removals;
    try (intros i Hi; by apply elem_of_nil in Hi).
  unfold removed. destruct (rec_Result rec); case_bool_decide; done.
Qed.

Lemma collect_all_deleted cx ids tr u :
  executes (collect_all cx ids) tr u -> forall i, i ∈ deleted tr -> i ∈ ids.
Proof.
  revert tr. induction ids as [|id ids IH]; intros tr; cbn [collect_all].
  { intros [-> _] i Hi. by apply elem_of_nil in Hi. }
  unfold act, call. cbn [bind executes]. intros (x & tr' & -> & Hex) i Hi. cbn in x.
  destruct x as [e|]; [destruct Hex as [-> _]; by apply elem_of_nil in Hi|].
  apply executes_bind in Hex as (tr1 & tr2 & [] & -> & H1 & H2).
  change (i ∈ deleted (tr1 ++ tr2)) in Hi. rewrite deleted_app, elem_of_app in Hi.
  destruct Hi as [Hi|Hi]; [|right; by eapply IH].
  apply (collectQuery_deleted _ _ _ _ H1), list_elem_of_singleton in Hi as ->. left.
Qed.

(** A garbage-collection pass deletes nothing unless it was granted the cluster
    lock, and then only queries the store listed as expired. *)
Theorem collection_needs_lock me tr u :
  executes (collectGarbage me) tr u ->
  let cx := CtxWithTimeout CtxBackground (gcBudget me) in
  deleted tr = [] \/
  exists ids, existT (AMeta cx (OpTryLock gcLockName (gcLockTTL me))) (Ok true) ∈ tr /\
    existT (AMeta cx OpListExpiredQueries) (Ok ids) ∈ tr /\
    forall i, i ∈ deleted tr -> i ∈ ids.
Proof.
  intros Hex cx. revert Hex. revert tr u. apply wp_sound. unfold collectGarbage, meta, call. fold cx.
  cbn [bind wp]. intros [[]|e]; [|by left..]. cbn [bind wp]. intros [ids|e]; [|by left].
  apply wp_executes. intros tr a Hex. right. exists ids. split_and!; [set_solver..|].
  intros i Hi. rewrite !deleted_app in Hi. by eapply collect_all_deleted.
Qed.

(** ** Owner loss *)

(** The error a lost owner leaves behind. *)
Definition lost (now : time) (rec : QueryRecord) : QueryRecord :=
  set_Error (Some owner_lost_error) (set_FinishedAt now (set_State StateFailed rec)).

(** The writes of a trace to the records of the store. *)
Definition record_writes (tr : trace) : list meta_op :=
  omap (fun ev => match projT1 ev with
                  | AMeta _ op => match op_record op with Some _ => Some op | None => None end
                  | _ => None
                  end) tr.

Lemma record_writes_app tr1 tr2 : record_writes (tr1 ++ tr2) = record_writes tr1 ++ record_writes tr2.
Proof. apply omap_app. Qed.

(** The write that fails a lost query. *)
Definition fails_lost (now : time) (rec : QueryRecord) : meta_op :=
  OpUpdateQueryIfState (lost now rec) [StatePending; StateRunning].

Lemma failOwnerLost_writes cx rec tr u :
  executes (failOwnerLost cx rec) tr u ->
  exists now x post, tr = existT ANow now :: existT (AMeta cx (fails_lost now rec)) x :: post /\
    record_writes tr = [fails_lost now rec].
Proof.
  revert tr u. apply wp_sound. unfold failOwnerLost, notifyWatchers, act, call. cbn [bind wp].
  intros now. cbn [IsTerminal ev_State]. exec; by eexists now, _, _.
Qed.

(** The reaper's turn for one query [id] that it fails: it is not running here, its
    record was read as [rec], another instance owns it, and at the next reading of the
    clock, [seen], it was at least two heartbeats of the configuration old. *)
Record reaps (me : captured) (cx : ctxref) (cfg : Config.Config) (id : string) (rec : QueryRecord)
  (seen now : time) (turn : trace) : Prop := {
  rp_turn : exists x post, turn =
    existT (ALocal (LActive id)) None :: existT (AMeta cx (OpGetQuery id)) (Ok rec) :: existT ANow seen ::
    existT ANow now :: existT (AMeta cx (fails_lost now rec)) x :: post;
  rp_foreign : OwnerInstanceID rec <> instanceID me;
  rp_age : i64_mul 2 (heartbeatTTL cfg) <= time_sub seen (CreatedAt rec)
}.

Lemma reap_one_writes me cx cfg id tr u :
  executes (reap_one me cx (i64_mul 2 (heartbeatTTL cfg)) id) tr u ->
  record_writes tr = [] \/
  exists rec seen now, reaps me cx cfg id rec seen now tr /\ record_writes tr = [fails_lost now rec].
Proof.
  revert tr u. apply wp_sound. unfold reap_one, since. exec; try (by left).
  bprop. apply wp_executes. intros tr' [] (now & y & post & -> & Hw)%failOwnerLost_writes.
  right. exists a, x, now. split; [split; [|done|done]|].
  - by eexists y, post.
  - by rewrite record_writes_app, Hw.
Qed.

Lemma reap_all_writes me cx cfg ids tr u :
  executes (for_each (fun id _ => reap_one me cx (i64_mul 2 (heartbeatTTL cfg)) id) ids tt) tr u ->
  forall op, op ∈ record_writes tr -> exists id rec seen now pre turn post, id ∈ ids /\
    tr = pre ++ turn ++ post /\ reaps me cx cfg id rec seen now turn /\ op = fails_lost now rec.
Proof.
  revert tr. induction ids as [|id ids IH]; intros tr; cbn [for_each].
  { intros [-> _] op Hop. by apply elem_of_nil in Hop. }
  intros (tr1 & tr2 & [] & -> & H1 & H2)%executes_bind op Hop.
  rewrite record_writes_app, elem_of_app in Hop. destruct Hop as [Hop|Hop].
  - apply reap_one_writes in H1 as [Hw|(rec & seen & now & ? & Hw)]; rewrite Hw in Hop.
    { by apply elem_of_nil in Hop. }
    apply list_elem_of_singleton in Hop as ->. exists id, rec, seen, now, [], tr1, tr2. split_and!; [left|done..].
  - destruct (IH _ H2 _ Hop) as (i & rec & seen & now & pre & turn & post & ? & -> & ? & ->).
    exists i, rec, seen, now, (tr1 ++ pre), turn, post. rewrite <- app_assoc. split_and!; [by right|done..].
Qed.

(** C30. The owner reaper only ever fails a query the store listed as stale that
    this instance is not running, that another instance owns and that was at least
    two heartbeats old: for every record it writes there is a turn of its loop in
    which it looked the query up here, read its record from the store, read the
    clock, at which moment the query was at least twice the heartbeat of the
    configuration it had read old, and then wrote; and it does so by a conditional
    write that takes effect only while the query is still PENDING or RUNNING. *)
Theorem reaper_fails_only_lost me tr u :
  executes (reapStaleOwners me) tr u ->
  forall op, op ∈ record_writes tr ->
  exists cfg ids id rec seen now pre turn post,
    let cx := CtxWithTimeout CtxBackground reapBudget in
    tr = existT (AMeta cx OpListStaleQueries) (Ok ids) :: existT (ALocal LConfig) cfg :: pre ++ turn ++ post /\
    id ∈ ids /\ reaps me cx cfg id rec seen now turn /\
    op = OpUpdateQueryIfState (lost now rec) [StatePending; StateRunning].
Proof.
  revert tr u. refine (wp_sound _ _ _). unfold reapStaleOwners, meta, local, call. cbn [bind wp].
  intros [ids|e]; [|intros op Hop; by apply elem_of_nil in Hop]. cbn [bind wp]. intros cfg.
  apply wp_executes. intros tr u Hex op Hop. rewrite !record_writes_app in Hop.
  destruct (reap_all_writes _ _ _ _ _ _ Hex _ Hop) as (id & rec & seen & now & pre & turn & post & ? & -> & ? & ->).
  by exists cfg, ids, id, rec, seen, now, pre, turn, post.
Qed.

(** *** The fence *)

(** A write that takes effect only on a query that has not ended. *)
Definition fenced (op : meta_op) : Prop :=
  match op with
  | OpUpdateQueryIfState _ expected => Forall (fun s => IsTerminal s = false) expected
  | _ => op_record op = None
  end.

Definition fenced_action (a : action) : Prop :=
  match a with AMeta _ op => fenced op | _ => True end.

Lemma notifyWatchers_fenced ev : only fenced_action (notifyWatchers ev).
Proof. unfold notifyWatchers. simpl. destruct (IsTerminal _); simpl; auto. Qed.

Lemma failOwnerLost_fenced cx rec : only fenced_action (failOwnerLost cx rec).
Proof.
  unfold failOwnerLost, act, meta, local, call. cbn [bind only]. split; [done|]. intros now.
  cbn [bind only]. split; [by repeat constructor|]. intros [[]|e]; [|done..].
  apply only_bind; [apply notifyWatchers_fenced|]. by intros [].
Qed.

Lemma reapStaleOwners_fenced me : only fenced_action (reapStaleOwners me).
Proof.
  unfold reapStaleOwners, meta, local, call. cbn [bind only]. split; [done|]. intros [ids|e]; [|done].
  cbn [bind only]. split; [done|]. intros cfg. apply only_for_each. intros id _.
  unfold reap_one, since, meta, local, act, call. cbn [bind only]. split; [done|]. intros [a|]; [done|].
  cbn [bind only]. split; [done|]. intros [rec|e]; [|done]. case_bool_decide; [done|].
  cbn [bind only]. split; [done|]. intros now. destruct (_ <? _); [done|]. apply failOwnerLost_fenced.
Qed.

Lemma recoverOrphans_fenced me : only fenced_action (recoverOrphans me).
Proof.
  unfold recoverOrphans, meta, call. cbn [bind only]. split; [done|]. intros [ids|e]; [|done].
  apply only_for_each. intros id _. unfold recover_one, meta, call. cbn [bind only]. split; [done|].
  intros [rec|e]; [|done]. destruct (IsTerminal _); [done|]. apply failOwnerLost_fenced.
Qed.

Lemma progressWrite_fenced c snapshot : only fenced_action (progressWrite c snapshot).
Proof. unfold progressWrite. cbn. split; [by repeat constructor|]. by intros []. Qed.

Section Fence.
Context {S : Type} `{!MetaStore S}.

Lemma fenced_step now now' op (s : S) id r :
  fenced op -> lookup_rec s id = Some r -> IsTerminal (rec_State r) = true ->
  lookup_rec (meta_exec now now' op s).2 id = Some r.
Proof.
  intros Hf Hr Ht. destruct (decide (op_record op = Some id)) as [Ho|Ho]; [|by rewrite meta_frame_record].
  destruct op as [?|?|?|r' expected|? ? ? ?|? ? ?|? ? ? ?|? ? ?|? ?|?|?|?| | | |?]; simplify_eq/=.
  pose proof (meta_update_if now now' r' expected s) as Hl. cbv zeta in Hl.
  assert (rec_State r ∉ expected) as Hne.
  { intros Hin. rewrite Forall_forall in Hf. apply Hf in Hin. congruence. }
  rewrite Hr in Hl.
  destruct (meta_exec now now' (OpUpdateQueryIfState r' expected) s) as [[[]|] s1]; simpl in *.
  - destruct Hl as [(cur & [= <-] & ?) _]. done.
  - by destruct Hl as [_ ->].
  - destruct Hl as [-> | [(cur & [= <-] & ?) _]]; done.
Qed.

(** The executions of the programs that write conditionally, on any instance. *)
Inductive worker_trace : trace -> Prop :=
| wt_reap me tr u : executes (reapStaleOwners me) tr u -> worker_trace tr
| wt_recover me tr u : executes (recoverOrphans me) tr u -> worker_trace tr
| wt_progress c snapshot tr b : executes (progressWrite c snapshot) tr b -> worker_trace tr.

(** An operation one of them performs. *)
Definition worker_op (now : time) (op : meta_op) : Prop :=
  exists tr cx x, worker_trace tr /\ existT (AMeta cx op) x ∈ tr.

Lemma worker_op_fenced now op : worker_op now op -> fenced op.
Proof.
  intros (tr & cx & x & Hw & Hin).
  assert (Forall (fun ev => fenced_action (projT1 ev)) tr) as Hf.
  { destruct Hw as [me tr u Hex|me tr u Hex|c snapshot tr b Hex].
    - eapply only_executes; [apply reapStaleOwners_fenced|exact Hex].
    - eapply only_executes; [apply recoverOrphans_fenced|exact Hex].
    - eapply only_executes; [apply progressWrite_fenced|exact Hex]. }
  rewrite Forall_forall in Hf. apply (Hf _ Hin).
Qed.

(** C12. Once a query has ended, no reaper, no recovery at startup and no progress
    report changes its record: over every lawful store, whatever these programs
    do on any number of instances and however their operations interleave, a
    terminal record stays exactly as it is. *)
Theorem ended_queries_fenced (s s' : S) id r :
  interference worker_op s s' ->
  lookup_rec s id = Some r -> IsTerminal (rec_State r) = true ->
  lookup_rec s' id = Some r.
Proof.
  intros Hi Hr Ht. revert Hr. apply (interference_Inv worker_op (fun s => lookup_rec s id = Some r)).
  - intros now now' op s1 Hw Hr. apply fenced_step; [|done..]. by eapply worker_op_fenced.
  - done.
Qed.

End Fence.

(** ** Control messages *)

(** What a control message of the cluster does: a message of this instance's
    own is ignored; a stop request cancels the execution of the query if it runs
    here and does nothing else; an event is handed to the local subscriptions
    only if the query does not run here, with the state, statistics and error it
    carries; every other message is ignored. *)
Theorem control_messages_filtered me msg tr u :
  executes (handleControl me msg) tr u ->
  let id := msg_QueryID msg in
  if bool_decide (msg_SenderID msg = instanceID me) then tr = []
  else
    match msg_Type msg, msg_Event msg with
    | ControlStopQuery, _ =>
        tr = [existT (ALocal (LActive id)) None] \/
        exists aq, tr = [existT (ALocal (LActive id)) (Some aq); existT (ACancel (aq_cancel aq)) tt]
    | ControlQueryEvent, Some pl =>
        (exists aq, tr = [existT (ALocal (LActive id)) (Some aq)]) \/
        tr = [existT (ALocal (LActive id)) None;
              existT (ALocal (LDeliver (mkEvent id (QueryState_of_string (pl_State pl))
                                          (pl_Stats pl) (pl_Error pl)))) tt]
    | _, _ => tr = []
    end.
Proof.
  cbv zeta. unfold handleControl. case_bool_decide; [by intros [-> _]|].
  destruct (msg_Type msg); [|destruct (msg_Event msg) as [pl|]|];
    try (by intros [-> _]); unfold local, act, call; cbn [bind executes].
  - intros (x & tr' & -> & Hex). cbn in x. destruct x as [aq|].
    + cbn [bind executes] in Hex. destruct Hex as ([] & ? & -> & -> & _). eauto.
    + destruct Hex as [-> _]. eauto.
  - intros (x & tr' & -> & Hex). cbn in x. destruct x as [aq|].
    + destruct Hex as [-> _]. eauto.
    + cbn [bind executes] in Hex. destruct Hex as ([] & ? & -> & -> & _). eauto.
Qed.

Lemma control_messages_filtered_witness :
  let msg := mkControlMsg ControlStopQuery "q" "other" None in
  let tr := (demo_run (handleControl (self demo_qm) msg) demo_world).1.2 in
  tr = [existT (ALocal (LActive "q")) None] \/
  exists aq, tr = [existT (ALocal (LActive "q")) (Some aq); existT (ACancel (aq_cancel aq)) tt].
Proof.
  exact (control_messages_filtered (self demo_qm) (mkControlMsg ControlStopQuery "q" "other" None) _ _
           (demo_executes (handleControl (self demo_qm) (mkControlMsg ControlStopQuery "q" "other" None))
              demo_world)).
Defined.

(** ** Pools *)

(** How the entry of a configured database ends up: [before] and [after] are its
    pools, [retired] the pools to be closed, [failed] whether an error was
    reported. *)
Definition pool_outcome (db : DatabaseConfig) (before after : option managedPool)
  (retired : list (string * pool)) (failed : Prop) : Prop :=
  match before with
  | Some mp =>
      if samePoolConfig (mp_cfg mp) db then after = Some mp
      else (exists p, after = Some (mkManagedPool p db) /\ (dbc_ID db, mp_pool mp) ∈ retired) \/
           (after = Some mp /\ failed)
  | None => (exists p, after = Some (mkManagedPool p db)) \/ (after = None /\ failed)
  end.

(** The loop after the databases [done]. *)
Record synced (current0 : gmap string managedPool) (done : list DatabaseConfig) (st : sync_state) : Prop := {
  sc_done db : db ∈ done ->
    pool_outcome db (current0 !! dbc_ID db) (sy_next st !! dbc_ID db) (sy_stale st) (sy_errs st <> []);
  sc_next id : id ∉ map dbc_ID done -> sy_next st !! id = None;
  sc_left id : sy_current st !! id = if decide (id ∈ map dbc_ID done) then None else current0 !! id;
  sc_stale id p : (id, p) ∈ sy_stale st -> exists mp, current0 !! id = Some mp /\ mp_pool mp = p /\
    exists db p', db ∈ done /\ dbc_ID db = id /\ samePoolConfig (mp_cfg mp) db = false /\
      sy_next st !! id = Some (mkManagedPool p' db)
}.

Lemma pool_outcome_mono db before after r1 r2 (f1 f2 : Prop) :
  (forall x, x ∈ r1 -> x ∈ r2) -> (f1 -> f2) ->
  pool_outcome db before after r1 f1 -> pool_outcome db before after r2 f2.
Proof. unfold pool_outcome. intros Hr Hf. destruct before; [destruct (samePoolConfig _ _)|]; naive_solver. Qed.

(** One more database: what changes in the state of the loop. *)
Lemma synced_step current0 done db st next stale errs :
  synced current0 done st -> dbc_ID db ∉ map dbc_ID done ->
  pool_outcome db (current0 !! dbc_ID db) next (sy_stale st ++ stale) (sy_errs st ++ errs <> []) ->
  (forall id p, (id, p) ∈ stale -> id = dbc_ID db /\
     exists mp p', current0 !! id = Some mp /\ mp_pool mp = p /\
       samePoolConfig (mp_cfg mp) db = false /\ next = Some (mkManagedPool p' db)) ->
  synced current0 (done ++ [db])
    (mkSync (delete (dbc_ID db) (sy_current st)) (partial_alter (fun _ => next) (dbc_ID db) (sy_next st))
       (sy_stale st ++ stale) (sy_errs st ++ errs)).
Proof.
  intros [Hd Hn Hl Hs] Hnew Hout Hst.
  assert (forall d, d ∈ done -> dbc_ID d <> dbc_ID db) as Hne.
  { intros d Hin Heq. apply Hnew. rewrite <- Heq. by apply list_elem_of_fmap_2. }
  split; simpl.
  - intros d [Hin| ->%list_elem_of_singleton]%elem_of_app.
    + rewrite lookup_partial_alter_ne by (apply not_eq_sym; auto).
      eapply pool_outcome_mono; [| |by apply Hd]; [set_solver|]. by destruct (sy_errs st).
    + by rewrite lookup_partial_alter_eq.
  - intros id. rewrite map_app, not_elem_of_app. simpl. intros [H1 H2%not_elem_of_cons].
    rewrite lookup_partial_alter_ne; [by apply Hn|]. naive_solver.
  - intros id. rewrite map_app. destruct (decide (id = dbc_ID db)) as [->|Hid].
    + rewrite lookup_delete_eq, decide_True; [done|]. set_solver.
    + rewrite lookup_delete_ne, Hl by done.
      destruct (decide (id ∈ map dbc_ID done)), (decide (id ∈ map dbc_ID done ++ map dbc_ID [db]));
        try done; set_solver.
  - intros id p [Hin|Hin]%elem_of_app.
    + destruct (Hs _ _ Hin) as (mp & ? & ? & d & p' & Hd' & <- & ? & Hnx). exists mp. split_and!; [done..|].
      exists d, p'. split_and!; [set_solver|done|done|].
      rewrite lookup_partial_alter_ne by (apply not_eq_sym; auto). done.
    + destruct (Hst _ _ Hin) as (-> & mp & p' & ? & ? & ? & ->). exists mp. split_and!; [done..|].
      exists db, p'. split_and!; [set_solver|done|done|]. by rewrite lookup_partial_alter_eq.
Qed.

Lemma sync_one_synced current0 done db st tr st' :
  synced current0 done st -> dbc_ID db ∉ map dbc_ID done ->
  executes (sync_one db st) tr st' -> synced current0 (done ++ [db]) st'.
Proof.
  intros Hsy Hnew. pose proof (sc_left _ _ _ Hsy (dbc_ID db)) as Hcur.
  rewrite decide_False in Hcur by done. pose proof (sc_next _ _ _ Hsy _ Hnew) as Hnx.
  unfold sync_one, act, call. rewrite Hcur.
  destruct (current0 !! dbc_ID db) as [mp|] eqn:Hmp.
  - destruct (samePoolConfig (mp_cfg mp) db) eqn:Hsame.
    { intros [_ ->].
      rewrite <- (app_nil_r (sy_stale st)), <- (app_nil_r (sy_errs st)).
      apply (synced_step _ _ _ _ (Some mp)); [done|done| |by intros ? ? ?%elem_of_nil].
      unfold pool_outcome. by rewrite Hmp, Hsame. }
    cbn [bind executes]. intros (x & tr' & _ & Hex). cbn in x. destruct x as [p|e].
    + destruct Hex as [_ ->]. rewrite <- (app_nil_r (sy_errs st)).
      apply (synced_step _ _ _ _ (Some (mkManagedPool p db))); [done|done| |].
      * unfold pool_outcome. rewrite Hmp, Hsame. left. exists p. set_solver.
      * intros id q [= -> ->]%list_elem_of_singleton. split; [done|]. by exists mp, p.
    + destruct Hex as [_ ->]. rewrite <- (app_nil_r (sy_stale st)).
      apply (synced_step _ _ _ _ (Some mp)); [done|done| |by intros ? ? ?%elem_of_nil].
      unfold pool_outcome. rewrite Hmp, Hsame. right. split; [done|]. by destruct (sy_errs st).
  - cbn [bind executes]. intros (x & tr' & _ & Hex). cbn in x.
    rewrite <- (delete_id (sy_current st) (dbc_ID db)) in Hex by done. destruct x as [p|e].
    + destruct Hex as [_ ->]. rewrite <- (app_nil_r (sy_stale st)), <- (app_nil_r (sy_errs st)).
      apply (synced_step _ _ _ _ (Some (mkManagedPool p db))); [done|done| |by intros ? ? ?%elem_of_nil].
      unfold pool_outcome. rewrite Hmp. eauto.
    + destruct Hex as [_ ->]. rewrite <- (app_nil_r (sy_stale st)).
      rewrite <- (delete_id (sy_next st) (dbc_ID db)) by done.
      apply (synced_step _ _ _ _ None); [done|done| |by intros ? ? ?%elem_of_nil].
      unfold pool_outcome. rewrite Hmp. right. split; [done|]. by destruct (sy_errs st).
Qed.

Lemma sync_all_synced current0 dbs done st tr st' :
  synced current0 done st -> NoDup (map dbc_ID (done ++ dbs)) ->
  executes (for_each sync_one dbs st) tr st' -> synced current0 (done ++ dbs) st'.
Proof.
  revert done st tr. induction dbs as [|db dbs IH]; intros done st tr Hsy Hnd; cbn [for_each].
  { intros [_ ->]. by rewrite app_nil_r. }
  intros (tr1 & tr2 & st1 & _ & H1 & H2)%executes_bind.
  rewrite (cons_middle db done dbs), app_assoc in Hnd |- *. eapply IH; [|done|exact H2].
  eapply sync_one_synced; [done| |exact H1].
  rewrite map_app in Hnd. apply NoDup_app in Hnd as (Hnd & _ & _).
  rewrite map_app in Hnd. apply NoDup_app in Hnd as (_ & Hd & _). intros Hin. apply (Hd _ Hin).
  simpl. left.
Qed.

(** The pools a trace hands over to be closed. *)
Definition closing (tr : trace) : list (string * pool) :=
  omap (fun ev => match projT1 ev with AClosePoolWhenIdle id p => Some (id, p) | _ => None end) tr.

Lemma closing_app tr1 tr2 : closing (tr1 ++ tr2) = closing tr1 ++ closing tr2.
Proof. apply omap_app. Qed.

Lemma close_all_closing (rs : list (string * pool)) tr u :
  executes (for_each (fun r _ => act (AClosePoolWhenIdle r.1 r.2)) rs tt) tr u -> closing tr = rs.
Proof.
  revert tr. induction rs as [|[id p] rs IH]; intros tr; cbn [for_each]; [by intros [-> _]|].
  unfold act, call. cbn [bind executes]. intros ([] & tr' & -> & Hex). simpl. f_equal. by apply IH.
Qed.

Lemma sync_one_closing db st tr st' : executes (sync_one db st) tr st' -> closing tr = [].
Proof.
  revert tr st'. apply wp_sound. unfold sync_one. exec; done.
Qed.

Lemma sync_all_closing dbs st tr st' : executes (for_each sync_one dbs st) tr st' -> closing tr = [].
Proof.
  revert st tr. induction dbs as [|db dbs IH]; intros st tr; cbn [for_each]; [by intros [-> _]|].
  intros (tr1 & tr2 & st1 & -> & H1 & H2)%executes_bind.
  by rewrite closing_app, (sync_one_closing _ _ _ _ H1), (IH _ _ H2).
Qed.

Lemma elem_of_retired (m : gmap string managedPool) id p :
  (id, p) ∈ retired_of m <-> exists mp, m !! id = Some mp /\ mp_pool mp = p.
Proof.
  unfold retired_of. rewrite list_elem_of_fmap. split.
  - intros ([i mp] & [= -> ->] & Hin%elem_of_map_to_list). eauto.
  - intros (mp & Hm & <-). exists (id, mp). split; [done|]. by apply elem_of_map_to_list.
Qed.

(** After a reload the pool table matches the configuration: a database whose
    engine, DSN and connection limit did not change keeps its pool; a changed one
    gets a new pool and its old one is closed, or keeps the old one if the new one
    could not be opened; a new one gets a pool or none; a removed one loses its
    pool, which is closed. An error is reported whenever a pool could not be
    opened, and no pool that is closed is still in the table. *)
Theorem pools_follow_configuration tr r :
  executes syncPools tr r ->
  exists cfg before after,
    existT (ALocal LConfig) cfg ∈ tr /\ existT (ALocal LPools) before ∈ tr /\
    existT (ALocal (LSetPools after)) tt ∈ tr /\
    (unique_ids (Databases cfg) ->
      (forall db, db ∈ Databases cfg ->
         pool_outcome db (before !! dbc_ID db) (after !! dbc_ID db) (closing tr) (r <> None)) /\
      (forall id, id ∉ map dbc_ID (Databases cfg) -> after !! id = None /\
         forall mp, before !! id = Some mp -> (id, mp_pool mp) ∈ closing tr) /\
      (forall id p, (id, p) ∈ closing tr ->
         exists mp, before !! id = Some mp /\ mp_pool mp = p /\ after !! id <> Some mp)).
Proof.
  revert tr r. apply wp_sound. unfold syncPools, local, call. cbn [bind wp]. intros cfg before.
  eapply wp_call; [intros tr st Hex; exact (conj Hex (sync_all_closing _ _ _ _ Hex))|].
  intros tr1 st [Hex Hc1]. cbn [bind wp]. intros [].
  eapply wp_call; [intros tr u Hcl; exact (close_all_closing _ _ _ Hcl)|].
  intros tr2 [] Hc2. cbn [wp]. exists cfg, before, (sy_next st). split_and!; [set_solver..|].
  intros Hu. rewrite !closing_app, Hc1, Hc2. cbn [closing omap list_omap projT1 app].
  assert (synced before (Databases cfg) st) as [Hd Hn Hl Hs].
  { apply (sync_all_synced before (Databases cfg) [] (mkSync before ∅ [] []) tr1 st); [|done|done].
    split; simpl; [by intros ? ?%elem_of_nil|intros; apply lookup_empty|done|by intros ? ? ?%elem_of_nil]. }
  split_and!.
  - intros db Hdb. eapply pool_outcome_mono; [| |by apply Hd]; [set_solver|]. by destruct (sy_errs st).
  - intros id Hid. split; [by apply Hn|]. intros mp Hmp. apply elem_of_app. right.
    apply elem_of_retired. exists mp. by rewrite Hl, decide_False.
  - intros id p [Hin|(mp & Hmp & Hp)%elem_of_retired]%elem_of_app.
    + destruct (Hs _ _ Hin) as (mp & ? & ? & db & p' & ? & ? & Hsame & Hnx). exists mp.
      split_and!; [done..|]. rewrite Hnx. intros [= <-]. simpl in Hsame. unfold samePoolConfig in Hsame.
      by rewrite !bool_decide_true, Z.eqb_refl in Hsame.
    + rewrite Hl in Hmp. destruct (decide _) as [|Hid]; [done|]. exists mp.
      split_and!; [done..|]. by rewrite Hn.
Qed.

(** ** Stopping and counting *)

(** Stopping a query: an error of the store is returned as it is; a query that
    has ended is left alone; a query this instance owns and is running is
    cancelled here, through the context of its own execution; in every other case
    the request is published to the cluster under this instance's name, and the
    outcome of that is what is returned. *)
Theorem stop_reaches_the_owner me id tr r :
  executes (StopQuery me id) tr r ->
  exists got rest, tr = existT (AMeta CtxCaller (OpGetQuery id)) got :: rest /\
  match got with
  | Err e => rest = [] /\ r = Some e
  | Ok rec =>
      if IsTerminal (rec_State rec) then rest = [] /\ r = None
      else
        (exists aq, OwnerInstanceID rec = instanceID me /\ r = None /\
           rest = [existT (ALocal (LActive id)) (Some aq); existT (ACancel (aq_cancel aq)) tt]) \/
        (exists pre, rest = pre ++ [existT (AMeta CtxCaller (OpPublishControl (stop_message me id))) r] /\
           pre = if bool_decide (OwnerInstanceID rec = instanceID me)
                 then [existT (ALocal (LActive id)) None] else [])
  end.
Proof.
  unfold StopQuery, meta, local, act, call. cbn [bind executes].
  intros (got & rest & -> & Hex). exists got, rest. split; [done|]. cbn in got.
  destruct got as [rec|e]; [|done]. destruct (IsTerminal _); [done|].
  case_bool_decide as Ho; cbn [bind executes] in Hex.
  - destruct Hex as (x & tr' & -> & Hex). cbn in x. destruct x as [aq|]; cbn [bind executes] in Hex.
    + destruct Hex as ([] & ? & -> & -> & ->). left. eauto.
    + destruct Hex as (e & ? & -> & -> & ->). right. by exists [existT (ALocal (LActive id)) None].
  - destruct Hex as (e & ? & -> & -> & ->). right. by exists [].
Qed.

(** The number of queries reported in flight is never below what the local
    registry holds. *)
Lemma CountInFlight_local me tr n :
  executes (CountInFlight me) tr n -> exists l, existT (ALocal LCount) l ∈ tr /\ l <= n.
Proof.
  revert tr n. apply wp_sound. unfold CountInFlight, local, meta, call. cbn [bind wp].
  intros l [r|e]; exists l; (split; [set_solver|cbn in *; lia]).
Qed.

(** ** Examples *)

(** A store with one record. *)
Definition store_with (r : QueryRecord) : Memory.MemoryMetaStore :=
  Memory.store r Memory.NewMemoryMetaStore.

Definition world_with (r : QueryRecord) : world := with_store (store_with r) demo_world.

(** A query that succeeded, kept its result for a second and used a key. *)
Definition ended_record : QueryRecord :=
  mkQueryRecord "q" "pg" "select 1" (mkQueryOptions 0 "async" (1 * Second) "k" "jsonl" "fs")
    StateSucceeded "dbb-1" (1 * Second) (1 * Second) (2 * Second) None zero_stats
    (Some (mkResultRef "fs" "q" 20 2 "jsonl" "")) "k" zero_time "".



Lemma collection_needs_lock_witness :
  let tr := (demo_run (collectGarbage (self demo_qm)) (world_with ended_record)).1.2 in
  let cx := CtxWithTimeout CtxBackground (gcBudget (self demo_qm)) in
  exists ids : list string, existT (AMeta cx OpListExpiredQueries) (Ok ids) ∈ tr /\ "q" ∈ ids.
Proof.
  destruct (collection_needs_lock (self demo_qm) _ _
    (demo_executes (collectGarbage (self demo_qm)) (world_with ended_record)))
    as [Hd|(ids & _ & Hl & Hi)]; [vm_compute in Hd; discriminate Hd|].
  exists ids. split; [exact Hl|]. apply Hi. apply (list_elem_of_lookup_2 _ 0). vm_compute. reflexivity.
Defined.

(** A query another instance left running, long ago and without a lease. *)
Definition orphan_record : QueryRecord :=
  mkQueryRecord "q" "pg" "select 1" (rec_Options demo_record) StateRunning "dbb-2" (1 * Second)
    (1 * Second) zero_time None zero_stats None "" zero_time "".

Lemma reaper_fails_only_lost_witness :
  exists op, record_writes (demo_run (reapStaleOwners (self demo_qm)) (world_with orphan_record)).1.2 = [op] /\
    exists rec now, op = OpUpdateQueryIfState (lost now rec) [StatePending; StateRunning].
Proof.
  eexists. split; [vm_compute; reflexivity|].
  destruct (reaper_fails_only_lost (self demo_qm) _ _
    (demo_executes (reapStaleOwners (self demo_qm)) (world_with orphan_record))
    (OpUpdateQueryIfState (lost (1000 * Second + Millisecond) orphan_record) [StatePending; StateRunning]))
    as (cfg & ids & id & rec & seen & now & pre & turn & post & _ & _ & _ & Hop).
  - apply (list_elem_of_lookup_2 _ 0). vm_compute. reflexivity.
  - exists rec, now. exact Hop.
Defined.

Lemma ended_queries_fenced_witness :
  lookup_rec (store_with ended_record) "q" = Some (stored ended_record) /\
  exists now, lookup_rec (meta_exec now now
    (OpUpdateQueryIfState (lost (1000 * Second + Millisecond) orphan_record) [StatePending; StateRunning])
    (store_with ended_record)).2 "q" = Some (stored ended_record).
Proof.
  split; [vm_compute; reflexivity|]. exists 0.
  eapply (ended_queries_fenced (store_with ended_record)); [|vm_compute; reflexivity|reflexivity].
  apply rtc_once. exists 0, 0. eexists. split; [|reflexivity].
  eexists _, _, _. split; [eapply wt_reap, (demo_executes (reapStaleOwners (self demo_qm)) (world_with orphan_record))|].
  apply (list_elem_of_lookup_2 _ 6). vm_compute. reflexivity.
Defined.

Lemma pools_follow_configuration_witness :
  exists cfg before after,
    existT (ALocal LConfig) cfg ∈ (demo_run syncPools demo_world).1.2 /\
    existT (ALocal LPools) before ∈ (demo_run syncPools demo_world).1.2 /\
    existT (ALocal (LSetPools after)) tt ∈ (demo_run syncPools demo_world).1.2.
Proof.
  destruct (pools_follow_configuration _ _ (demo_executes syncPools demo_world))
    as (cfg & before & after & H1 & H2 & H3 & _).
  exists cfg, before, after. split; [exact H1|split; [exact H2|exact H3]].
Defined.

Lemma stop_reaches_the_owner_witness :
  exists got rest, (demo_run (StopQuery (self demo_qm) "q") (world_with orphan_record)).1.2 =
    existT (AMeta CtxCaller (OpGetQuery "q")) got :: rest.
Proof.
  destruct (stop_reaches_the_owner (self demo_qm) "q" _ _
    (demo_executes (StopQuery (self demo_qm) "q") (world_with orphan_record)))
    as (got & rest & Htr & _).
  exists got, rest. exact Htr.
Defined.

(** ** The owner's own writes are not fenced *)

(** The record a reaper has already failed. *)
Definition reaped_record : QueryRecord := lost (900 * Second) demo_record.

(** The owner writes its record unconditionally, so an execution that starts or
    goes on after the reaper's verdict takes the query from FAILED back to RUNNING
    and on to SUCCEEDED. *)
Lemma owner_overwrites_verdict :
  rec_State <$> lookup_rec (store_with reaped_record) "q" = Some StateFailed /\
  rec_State <$> lookup_rec (w_store (demo_run (run demo_record 1 1) (world_with reaped_record)).2) "q" =
    Some StateSucceeded.
Proof. split; vm_compute; reflexivity. Qed.
