(* ===== verification/Service.v ===== *)
(** * The query service

    [internal/core/service/service.go]: the operations the transports call, with
    the check that a caller only reaches its own queries, and the reader that
    serves a section of a stored result. Spans are left out. *)

From S2P Require Import Prelude Domain Utf8 SqlGuard Authn Lifecycle Config MetaStore Prog ManagerState.
From S2P Require Import Manager World Submission.
Import Config.

Open Scope dbb_scope.

(** ** Operations *)

Section Service.
Context `{Unicode} (me : captured) (authRequired : bool) (caller : option Identity).

Definition StartQuery (dbID sql : string) (opts : QueryOptions) : M (result QueryRecord) :=
  do dr <- act AIsDraining;
  if dr then Ret (Err DrainingError) else SubmitQuery me caller dbID sql opts.

Definition query_not_found (queryID : string) : error := NotFoundError "query" queryID.

Definition authorized (queryID : string) : M (result QueryRecord) :=
  if authRequired && match FromContext caller with Some _ => false | None => true end
  then Ret (Err (query_not_found queryID))
  else
    do got <- Manager.GetQuery queryID;
    match got return M (result QueryRecord) with
    | Err e => Ret (Err e)
    | Ok rec =>
        match AuthorizeSubject caller (Subject rec) with
        | Some _ => Ret (Err (query_not_found queryID))
        | None => Ret (Ok rec)
        end
    end.

Definition GetQueryStatus (queryID : string) : M (result QueryRecord) := authorized queryID.

Definition StopQuery (queryID : string) : M (option error) :=
  do got <- authorized queryID;
  match got with
  | Err e => Ret (Some e)
  | Ok _ => Manager.StopQuery me queryID
  end.

Definition GetQueryStats (queryID : string) : M (result QueryStats) :=
  do got <- authorized queryID;
  match got with
  | Err e => Ret (Err e)
  | Ok rec => Ret (Ok (Stats rec))
  end.

Definition WatchQuery (queryID : string) : M (result chan_id) :=
  do got <- authorized queryID;
  match got with
  | Err e => Ret (Err e)
  | Ok _ => Watch queryID
  end.

(** The body of a download: the reader, and the section of it that is served
    when one was asked for. *)
Definition DownloadResult (queryID : string) (offset limit : Z)
  : M (result (nat * option (Z * Z) * ResultRef)) :=
  do got <- authorized queryID;
  match got with
  | Err e => Ret (Err e)
  | Ok rec =>
      if negb (state_eqb (rec_State rec) StateSucceeded) then
        Ret (Err (ValidationError "query_id"
          ("query is in state " +:+ QueryState_string (rec_State rec) +:+
           ", results are only available for SUCCEEDED")))
      else
        match rec_Result rec with
        | None => Ret (Err (NotFoundError "result for query" queryID))
        | Some ref =>
            do serr <- act (AGetStore (Backend ref));
            match serr with
            | Some e => Ret (Err (WrapError "failed to load result storage" e))
            | None =>
                do opened <- act (AReader CtxCaller (Backend ref) ref);
                match opened with
                | Err e => Ret (Err (WrapError "failed to open result reader" e))
                | Ok reader =>
                    if (0 <? offset) || (0 <? limit)
                    then Ret (Ok (reader, Some (offset, limit), ref))
                    else Ret (Ok (reader, None, ref))
                end
            end
        end
  end.

Definition database_info (db : DatabaseConfig) (infos : list DatabaseInfo) : M (list DatabaseInfo) :=
  do found <- local (LLookupPool (dbc_ID db));
  do healthy <- (match found with
                 | None => Ret false
                 | Some p =>
                     do e <- act (APing p);
                     match e with Some _ => Ret false | None => Ret true end
                 end);
  Ret (infos ++ [mkDatabaseInfo (dbc_ID db) (Engine db) (DisplayName db) healthy]).

(** The databases seen in records but no longer configured. *)
Definition dropped_databases (cfg : Config.Config) (seen : list string) : list DatabaseInfo :=
  map (fun id => mkDatabaseInfo id "" "" false)
    (List.filter (fun id => negb (bool_decide (id = "")) &&
                            negb (slices_contains (map dbc_ID (Databases cfg)) id)) seen).

Definition ListDatabases : M (list DatabaseInfo) :=
  do cfg <- local LConfig;
  do infos <- for_each database_info (Databases cfg) [];
  do seen <- meta CtxCaller OpListDatabasesSeen;
  match seen with
  | Err _ => Ret infos
  | Ok seen => Ret (infos ++ dropped_databases cfg seen)
  end.

Definition ReloadConfig : M (ReloadReport * option error) := Manager.Reload.

Definition CanIBeStopped : M (bool * Z * Lifecycle.State) :=
  do inFlight <- CountInFlight me;
  do st <- act (AAdvance inFlight);
  Ret (inFlight =? 0, inFlight, st : Lifecycle.State).

(** ** Isolation *)

(** The caller may not see a record of [owner]. *)
Definition foreign (owner : string) : Prop :=
  match caller with
  | None => authRequired = true
  | Some i => (ScopeAdmin ∉ id_Scopes i) /\ (owner = "" \/ owner <> id_Subject i)
  end.

Lemma AuthorizeSubject_foreign owner :
  caller <> None -> foreign owner -> AuthorizeSubject caller owner <> None.
Proof.
  rewrite AuthorizeSubject_None. unfold foreign. destruct caller; [|done]. naive_solver.
Qed.

(** What an operation on a query of somebody else does: it reads the record, or
    nothing at all without an identity where one is required, and answers that
    the query does not exist. [failed] is how the operation reports an error. *)
Definition guarded {R} (failed : error -> R) (queryID : string) (tr : trace) (r : R) : Prop :=
  (authRequired = true /\ caller = None /\ tr = [] /\ r = failed (query_not_found queryID)) \/
  (exists got rest, tr = existT (AMeta CtxCaller (OpGetQuery queryID)) got :: rest /\
     match got with
     | Err e => rest = [] /\ r = failed e
     | Ok rec => foreign (Subject rec) -> rest = [] /\ r = failed (query_not_found queryID)
     end).

(** Every operation that goes through [authorized] is guarded. *)
Lemma authorized_guards {R} (failed : error -> R) (k : result QueryRecord -> M R) queryID tr r :
  (forall e, k (Err e) = Ret (failed e)) ->
  executes (bind (authorized queryID) k) tr r -> guarded failed queryID tr r.
Proof.
  intros Hk. unfold authorized, Manager.GetQuery, meta, call, guarded, FromContext.
  destruct (authRequired && _) eqn:Ha.
  - cbn [bind]. rewrite Hk. intros [-> ->]. left. destruct authRequired, caller; done.
  - cbn [bind executes]. intros (got & rest & -> & Hex). right. exists got, rest. split; [done|].
    cbn in got. destruct got as [rec|e].
    + intros Hf. assert (caller <> None) as Hc.
      { intros Hn. unfold foreign in Hf. rewrite Hn in Hf, Ha. by rewrite Hf in Ha. }
      pose proof (AuthorizeSubject_foreign _ Hc Hf) as Hauth.
      destruct (AuthorizeSubject caller (Subject rec)); [|done].
      cbn [bind] in Hex. rewrite Hk in Hex. by destruct Hex as [-> ->].
    + cbn [bind] in Hex. rewrite Hk in Hex. by destruct Hex as [-> ->].
Qed.

(** C6. A caller reaches only its own queries: every operation that names a query
    - status, statistics, stop, watch and download - answers that the query does
    not exist when its record belongs to another subject or to none and the
    caller is no admin, and when the deployment requires an identity and the
    caller has none; and then it has done nothing but read that record. *)
Theorem queries_isolated queryID offset limit tr :
  (forall r, executes (GetQueryStatus queryID) tr r -> guarded Err queryID tr r) /\
  (forall r, executes (GetQueryStats queryID) tr r -> guarded Err queryID tr r) /\
  (forall r, executes (StopQuery queryID) tr r -> guarded Some queryID tr r) /\
  (forall r, executes (WatchQuery queryID) tr r -> guarded Err queryID tr r) /\
  (forall r, executes (DownloadResult queryID offset limit) tr r -> guarded Err queryID tr r).
Proof.
  split_and!; intros r Hex.
  - unfold GetQueryStatus in Hex.
    apply (authorized_guards Err Ret); [done|]. apply executes_bind. exists tr, [], r.
    by rewrite app_nil_r.
  - by eapply authorized_guards, Hex.
  - by eapply authorized_guards, Hex.
  - by eapply authorized_guards, Hex.
  - by eapply authorized_guards, Hex.
Qed.

(** ** Stopping an instance *)

(** The instance is reported stoppable exactly when the reported count is
    zero, and that count is never below the number of queries in the local
    registry nor, when the store answers, below the number of records it has in
    flight for this instance (I5). *)
Theorem stoppable_means_quiesced tr ok n st :
  executes CanIBeStopped tr (ok, n, st) ->
  (ok = true <-> n = 0) /\
  exists l remote, tr = [existT (ALocal LCount) l;
                         existT (AMeta CtxCaller (OpCountInFlight (instanceID me))) remote;
                         existT (AAdvance n) st] /\
    l <= n /\ match remote with Ok r => r <= n | Err _ => n = l end.
Proof.
  unfold CanIBeStopped, CountInFlight, local, meta, act, call. cbn [bind executes].
  intros (l & tr1 & -> & remote & tr2 & -> & Hex). cbn in remote.
  destruct remote as [r|e]; cbn [bind executes] in Hex;
    destruct Hex as (st' & tr3 & -> & -> & [= -> -> ->]); (split; [apply Z.eqb_eq|]).
  - exists l, (Ok r). split_and!; [done|cbn in *; lia..].
  - exists l, (Err e). split_and!; [done|lia|done].
Qed.

End Service.

(** ** Reading a section of a result *)

Inductive read_error := EOF | ReadFailed (e : error).

(** What [io.Reader] promises of a stored result: a read returns bytes of what is
    left, at most as many as asked for and at least one unless it reports an
    error or was asked for none; at the end it reports [EOF]. *)
Class Reader (R : Type) := {
  read : nat -> R -> list Ascii.ascii * option read_error * R;
  content : R -> list Ascii.ascii;
  read_spec n r bs e r' : read n r = (bs, e, r') ->
    (length bs <= n)%nat /\ content r = bs ++ content r' /\
    (e = None -> (0 < n)%nat -> bs <> []) /\ (e = Some EOF -> content r' = [])
}.

Section SectionReader.
Context {R : Type} `{!Reader R}.

Record sectionReadCloser := mkSection {
  src_r : R;
  src_offset : Z;
  src_limit : Z;
  src_read : Z
}.

Definition newSectionReadCloser (r : R) (offset limit : Z) : sectionReadCloser :=
  mkSection r offset limit 0.

(** The buffer of [io.Discard]. *)
Definition discard_buffer : nat := Z.to_nat 8192.

(** [io.CopyN(io.Discard, r, n)]: the bytes discarded and the error. Each turn
    discards at least a byte or ends the loop, so [n] turns and one more are
    enough. *)
Fixpoint copyN (fuel n : nat) (r : R) : nat * option read_error * R :=
  match fuel, n with
  | 0%nat, _ | _, 0%nat => (0%nat, None, r)
  | S fuel, _ =>
      let '(bs, e, r') := read (Nat.min discard_buffer n) r in
      match e with
      | Some EOF => (length bs, if Nat.eqb (length bs) n then None else Some EOF, r')
      | Some e => (length bs, if Nat.eqb (length bs) n then None else Some e, r')
      | None =>
          let '(m, e', r'') := copyN fuel (n - length bs) r' in ((length bs + m)%nat, e', r'')
      end
  end.

(** The bytes before the section are discarded first. *)
Definition skip_offset (s : sectionReadCloser) : option read_error * sectionReadCloser :=
  if 0 <? src_offset s then
    let n := Z.to_nat (src_offset s) in
    let '(discarded, e, r) := copyN (S n) n (src_r s) in
    (e, mkSection r (src_offset s - Z.of_nat discarded) (src_limit s) (src_read s))
  else (None, s).

Definition Read (len : nat) (s : sectionReadCloser)
  : list Ascii.ascii * option read_error * sectionReadCloser :=
  match skip_offset s with
  | (Some e, s) => ([], Some e, s)
  | (None, s) =>
      if (0 <? src_limit s) && (src_limit s <=? src_read s) then ([], Some EOF, s)
      else
        let toRead :=
          if 0 <? src_limit s then Nat.min len (Z.to_nat (src_limit s - src_read s)) else len in
        let '(bs, e, r) := read toRead (src_r s) in
        let s := mkSection r (src_offset s) (src_limit s) (src_read s + Z.of_nat (length bs)) in
        if (0 <? src_limit s) && (src_limit s <=? src_read s) &&
           match e with None => true | Some _ => false end
        then (bs, Some EOF, s) else (bs, e, s)
  end.

(** Reading with buffers of the given sizes, until an error. *)
Fixpoint read_all (bufs : list nat) (s : sectionReadCloser) : list Ascii.ascii * option read_error :=
  match bufs with
  | [] => ([], None)
  | n :: bufs =>
      let '(bs, e, s') := Read n s in
      match e with
      | Some e => (bs, Some e)
      | None => let '(rest, e') := read_all bufs s' in (bs ++ rest, e')
      end
  end.

(** What is left of the section. *)
Definition remaining (s : sectionReadCloser) : list Ascii.ascii :=
  let rest := drop (Z.to_nat (src_offset s)) (content (src_r s)) in
  if 0 <? src_limit s then take (Z.to_nat (src_limit s - src_read s)) rest else rest.

Lemma copyN_spec fuel n r m e r' :
  (n < fuel)%nat -> copyN fuel n r = (m, e, r') ->
  (m <= n)%nat /\ content r' = drop m (content r) /\
  (e = None -> m = n) /\ (e = Some EOF -> content r' = []).
Proof.
  revert n r m e r'. induction fuel as [|fuel IH]; intros n r m e r' Hf; [lia|].
  destruct n as [|n]; cbn [copyN]; [by intros [= <- <- <-]|].
  destruct (read _ r) as [[bs e1] r1] eqn:Hr.
  apply read_spec in Hr as (Hlen & Hc & Hpos & Heof).
  assert (content r1 = drop (length bs) (content r)) as Hd by by rewrite Hc, drop_app_length.
  destruct e1 as [[|e1]|].
  - intros [= <- <- <-]. split_and!; [lia|done| |auto].
    destruct (Nat.eqb_spec (length bs) (S n)); [done|discriminate].
  - intros [= <- <- <-]. split_and!; [lia|done| |];
      destruct (Nat.eqb_spec (length bs) (S n)); done.
  - assert (bs <> []) by (apply Hpos; [done|unfold discard_buffer; lia]).
    assert (0 < length bs)%nat by (destruct bs; [done|simpl; lia]).
    destruct (copyN fuel (S n - length bs) r1) as [[m1 e2] r2] eqn:Hcp.
    apply IH in Hcp as (? & Hc2 & Hn & He); [|lia]. intros [= <- <- <-].
    split_and!; [lia| |intros He2; apply Hn in He2; lia|done].
    by rewrite Hc2, Hd, drop_drop.
Qed.

Lemma skip_offset_spec s e s' :
  skip_offset s = (e, s') ->
  remaining s' = remaining s /\ src_limit s' = src_limit s /\ src_read s' = src_read s /\
  (e = None -> src_offset s' <= 0) /\ (e = Some EOF -> remaining s' = []).
Proof.
  unfold skip_offset. destruct (Z.ltb_spec 0 (src_offset s)) as [Ho|Ho].
  - destruct (copyN _ _ _) as [[m e1] r1] eqn:Hc. intros [= <- <-].
    apply copyN_spec in Hc as (Hm & Hd & Hn & Heof); [|lia]. unfold remaining. simpl.
    assert (drop (Z.to_nat (src_offset s - Z.of_nat m)) (content r1) =
            drop (Z.to_nat (src_offset s)) (content (src_r s))) as ->.
    { rewrite Hd, drop_drop. f_equal. lia. }
    split_and!; [done..|intros He; apply Hn in He; lia|]. intros He. apply Heof in He as Hnil.
    assert (drop (Z.to_nat (src_offset s)) (content (src_r s)) = []) as ->.
    { rewrite Hd in Hnil. replace (Z.to_nat (src_offset s)) with (m + (Z.to_nat (src_offset s) - m))%nat
        by lia. by rewrite <- drop_drop, Hnil, drop_nil. }
    destruct (0 <? src_limit s); [apply take_nil|done].
  - by intros [= <- <-].
Qed.

(** One [Read] returns the next bytes of the section, and reports [EOF] only at
    its end. *)
Lemma Read_spec len s bs e s' :
  Read len s = (bs, e, s') ->
  (length bs <= len)%nat /\ remaining s = bs ++ remaining s' /\
  (e = None -> (0 < len)%nat -> bs <> []) /\ (e = Some EOF -> remaining s' = []).
Proof.
  unfold Read. destruct (skip_offset s) as [e0 s0] eqn:Hsk.
  apply skip_offset_spec in Hsk as (<- & _ & _ & Hoff & Heof0).
  destruct e0 as [e0|].
  { intros [= <- <- <-]. split_and!; auto; try (simpl; lia); discriminate. }
  specialize (Hoff eq_refl). clear Heof0.
  assert (Z.to_nat (src_offset s0) = 0%nat) as Hz by lia.
  destruct (Z.ltb_spec 0 (src_limit s0)) as [Hl|Hl]; cbn [andb].
  - destruct (Z.leb_spec (src_limit s0) (src_read s0)) as [Hd|Hd].
    { intros [= <- <- <-]. split_and!; [simpl; lia|done|done|]. intros _. unfold remaining.
      destruct (Z.ltb_spec 0 (src_limit s0)); [|lia].
      replace (Z.to_nat (src_limit s0 - src_read s0)) with 0%nat by lia. apply take_0. }
    destruct (read _ _) as [[bs1 e1] r1] eqn:Hr. apply read_spec in Hr as (Hlen & Hc & Hpos & He1).
    cbn [src_limit src_read]. intros Hout.
    assert (remaining s0 = bs1 ++ remaining (mkSection r1 (src_offset s0) (src_limit s0)
              (src_read s0 + Z.of_nat (length bs1)))) as Hrem.
    { unfold remaining. simpl. rewrite Hz, !drop_0, Hc.
      destruct (Z.ltb_spec 0 (src_limit s0)); [|lia].
      rewrite take_app_ge by lia. f_equal. f_equal. lia. }
    destruct (Z.ltb_spec 0 (src_limit s0)); [|lia]. cbn [andb] in Hout.
    destruct (Z.leb_spec (src_limit s0) (src_read s0 + Z.of_nat (length bs1))) as [Hend|Hend].
    + assert (remaining (mkSection r1 (src_offset s0) (src_limit s0)
                (src_read s0 + Z.of_nat (length bs1))) = []) as Hnil.
      { unfold remaining. simpl. destruct (Z.ltb_spec 0 (src_limit s0)); [|lia].
        replace (Z.to_nat _) with 0%nat by lia. apply take_0. }
      destruct e1; injection Hout as <- <- <-; split_and!; auto; try lia; discriminate.
    + cbn [andb] in Hout. injection Hout as <- <- <-.
      split_and!; [lia|done|intros; apply Hpos; [done|lia]|]. intros He. unfold remaining. simpl. rewrite Hz, drop_0, (He1 He). by destruct (0 <? _); rewrite ?take_nil.
  - destruct (read _ _) as [[bs1 e1] r1] eqn:Hr. apply read_spec in Hr as (Hlen & Hc & Hpos & He1).
    cbn [src_limit]. destruct (Z.ltb_spec 0 (src_limit s0)); [lia|]. cbn [andb].
    intros [= <- <- <-]. unfold remaining. simpl. destruct (Z.ltb_spec 0 (src_limit s0)); [lia|].
    rewrite Hz, !drop_0. auto.
Qed.

(** A section of a reader is a reader of what is left of the section. *)
#[export] Instance section_reader : Reader sectionReadCloser := {|
  read := Read;
  content := remaining;
  read_spec := Read_spec
|}.

(** A download of a section returns exactly the section: whatever buffers it
    is read with, the bytes returned are the beginning of the result's bytes from
    [offset] on, no more than [limit] of them when one is given, and when the end
    of the section is reported they are all of them. And reading comes to an end:
    with more buffers than the section has bytes, none of them empty, the end or
    a failure of the backend is reported. *)
Theorem section_exact r offset limit bufs bs e :
  read_all bufs (newSectionReadCloser r offset limit) = (bs, e) ->
  let section := drop (Z.to_nat offset) (content r) in
  let section := if 0 <? limit then take (Z.to_nat limit) section else section in
  (exists rest, section = bs ++ rest) /\ (e = Some EOF -> bs = section) /\
  (Forall (fun n => 0 < n)%nat bufs -> (length section < length bufs)%nat -> e <> None).
Proof.
  intros Hr section section0.
  assert (section0 = remaining (newSectionReadCloser r offset limit)) as Hsec.
  { unfold section0, section, remaining. simpl. by rewrite Z.sub_0_r. }
  rewrite Hsec. clear section section0 Hsec. revert bs e Hr. generalize (newSectionReadCloser r offset limit).
  induction bufs as [|n bufs IH]; intros s bs e; cbn [read_all].
  { intros [= <- <-]. split_and!; [by eexists|done|simpl; lia]. }
  destruct (Read n s) as [[bs1 e1] s1] eqn:Hr1. apply Read_spec in Hr1 as (_ & -> & Hpos & Heof).
  destruct e1 as [e1|].
  - intros [= <- <-]. split_and!; [by eexists| |done]. intros He. by rewrite Heof, app_nil_r.
  - destruct (read_all bufs s1) as [rest e2] eqn:Hra. intros [= <- <-].
    destruct (IH s1 rest e2 Hra) as ([rest' Hrest] & Hfull & Hend). split_and!.
    + exists rest'. by rewrite Hrest, app_assoc.
    + intros He. by rewrite <- (Hfull He).
    + intros [Hn Hbufs]%Forall_cons Hlen. apply Hend; [done|]. specialize (Hpos eq_refl Hn).
      rewrite length_app in Hlen. destruct bs1; [done|simpl in Hlen; lia].
Qed.

End SectionReader.

(** A reader of a byte sequence held in memory, as [bytes.Reader] is. *)
#[refine] Instance bytes_reader : Reader (list Ascii.ascii) := {|
  read n r := match n, r with
              | 0%nat, _ => ([], None, r)
              | _, [] => ([], Some EOF, [])
              | _, _ => (take n r, None, drop n r)
              end;
  content r := r
|}.
Proof.
  intros [|n] [|c r] bs e r' [= <- <- <-]; simpl; split_and!; try done; try lia.
  - pose proof (length_take r n). lia.
  - by rewrite take_drop.
Defined.

Definition demo_result : list Ascii.ascii := String.list_ascii_of_string "id,name\n1,ada\n".

Lemma section_exact_witness :
  read_all [4; 4; 4; 4; 4; 4]%nat (newSectionReadCloser demo_result 3 5) =
    (String.list_ascii_of_string "name\", Some EOF).
Proof.
  assert (exists bs e, read_all [4; 4; 4; 4; 4; 4]%nat (newSectionReadCloser demo_result 3 5) = (bs, e))
    as (bs & e & Hr) by (destruct (read_all _ _); eauto).
  destruct (section_exact _ _ _ _ _ _ Hr) as (_ & Hfull & Hend).
  rewrite Hr. assert (e = Some EOF) as -> by (vm_compute in Hr; congruence).
  rewrite (Hfull eq_refl). reflexivity.
Defined.

Lemma stoppable_means_quiesced_witness :
  (demo_run (CanIBeStopped (self demo_qm)) demo_world).1.1.1 = (true, 0).
Proof.
  destruct (demo_run (CanIBeStopped (self demo_qm)) demo_world).1.1 as [[ok n] st] eqn:Hr.
  pose proof (demo_executes (CanIBeStopped (self demo_qm)) demo_world) as Hex. rewrite Hr in Hex.
  destruct (stoppable_means_quiesced (self demo_qm) _ _ _ _ Hex) as [Hok _].
  assert (n = 0) as -> by (vm_compute in Hr; congruence).
  by rewrite (proj2 Hok eq_refl).
Defined.
