(* ===== verification/Workers.v ===== *)
(** * The background goroutines and the shutdown of an instance

    [internal/core/manager/manager.go]: what [NewQueryManager] starts, the loops
    of the background workers, the draining of a retired pool and [Close]. A loop
    that waits for a timer or a channel takes the number of turns it is followed
    for; the theorems hold for every number. *)

From S2P Require Import Prelude Domain Utf8 SqlGuard Authn Config MetaStore Prog ManagerState Manager.
From S2P Require Import World Submission.
Import Config.

Open Scope dbb_scope.

(** ** Workers *)

(** How following a loop ended. *)
Inductive loop_exit := Stopped | Panicked | OutOfTurns.

(** A loop over the ticks of a timer; [time.NewTicker] panics on a period that is
    not positive. *)
Fixpoint on_ticks (body : M unit) (turns : nat) : M loop_exit :=
  match turns with
  | 0%nat => Ret OutOfTurns
  | S turns =>
      do closed <- act AWorkerTick;
      if closed then Ret Stopped else body ;; on_ticks body turns
  end.

Definition with_ticker (period : Z) (body : M unit) (turns : nat) : M loop_exit :=
  if period <=? 0 then Ret Panicked else on_ticks body turns.

Definition heartbeatWorker (me : captured) (turns : nat) : M loop_exit :=
  do cfg <- local LConfig;
  with_ticker (i64_quot (heartbeatTTL cfg) 2) (heartbeat me) turns.

Definition gcWorker (me : captured) (turns : nat) : M loop_exit :=
  with_ticker (gcPeriod me) (collectGarbage me) turns.

Definition ownerReaper (me : captured) (turns : nat) : M loop_exit :=
  do cfg <- local LConfig;
  with_ticker (heartbeatTTL cfg) (reapStaleOwners me) turns.

Fixpoint control_loop (me : captured) (turns : nat) : M loop_exit :=
  match turns with
  | 0%nat => Ret OutOfTurns
  | S turns =>
      do msg <- act ANextControl;
      match msg with
      | None => Ret Stopped
      | Some msg => handleControl me msg ;; control_loop me turns
      end
  end.

Definition controlWorker (me : captured) (turns : nat) : M loop_exit :=
  do err <- act ASubscribe;
  match err with
  | Some _ => Ret Stopped
  | None => control_loop me turns
  end.

(** *** The publisher *)

Definition eventDrainTimeout : Z := 5 * Second.

(** Emptying the queue once the publisher was told to stop. *)
Fixpoint drain_events (me : captured) (deadline : time) (turns : nat) : M loop_exit :=
  match turns with
  | 0%nat => Ret OutOfTurns
  | S turns =>
      do now <- act ANow;
      if deadline <=? now then Ret Stopped
      else
        do ev <- local LDequeue;
        match ev with
        | None => Ret Stopped
        | Some ev => publishEvent me ev ;; drain_events me deadline turns
        end
  end.

Fixpoint eventPublisher (me : captured) (turns : nat) : M loop_exit :=
  match turns with
  | 0%nat => Ret OutOfTurns
  | S rest =>
      do ev <- act ANextEvent;
      match ev with
      | Some ev => publishEvent me ev ;; eventPublisher me rest
      | None =>
          do now <- act ANow;
          drain_events me (now + eventDrainTimeout) rest
      end
  end.

(** *** Retired pools *)

Definition poolDrainTimeout : Z := 2 * Minute.
Definition poolDrainTick : Z := 500 * Millisecond.

Fixpoint drain_pool (dbID : string) (deadline : time) (turns : nat) : M loop_exit :=
  match turns with
  | 0%nat => Ret OutOfTurns
  | S turns =>
      do n <- local (LActiveForDB dbID);
      if n <=? 0 then Ret Stopped
      else
        do now <- act ANow;
        if deadline <=? now then Ret Stopped
        else
          do closed <- act AWorkerTick;
          if closed then Ret Stopped else drain_pool dbID deadline turns
  end.

(** The goroutine of [closePoolWhenIdle]. *)
Definition closePoolWhenIdle (dbID : string) (p : pool) (turns : nat) : M loop_exit :=
  do now <- act ANow;
  do ended <- drain_pool dbID (now + poolDrainTimeout) turns;
  match ended with
  | Stopped => act (AClosePool p) ;; Ret Stopped
  | other => Ret other
  end.

(** ** Startup and shutdown *)

(** [NewQueryManager] after the manager was allocated ([new_manager]). *)
Definition start (me : captured) : M unit :=
  syncPools ;;
  recoverOrphans me ;;
  act (AGoWorker HeartbeatWorker) ;;
  act (AGoWorker GcWorker) ;;
  act (AGoWorker ControlWorker) ;;
  act (AGoWorker OwnerReaper) ;;
  act (AGoWorker EventPublisher).

Definition cancelActive : M unit :=
  do reg <- local LActives;
  for_each (fun aq _ => act (ACancel (aq_cancel aq))) (map_to_list reg).*2 tt.

Definition queryCloseTimeout : Z := 10 * Second.

Definition close_pools : M unit :=
  do pools <- local LPools;
  for_each (fun mp _ => act (AClosePool (mp_pool mp)) ;; Ret tt) (map_to_list pools).*2 tt.

(** [Close]. *)
Definition shutdown : M unit :=
  local LDrain ;;
  cancelActive ;;
  act (AWaitQueries queryCloseTimeout) ;;
  act AStopPublisher ;;
  act (AWaitPublisher (eventDrainTimeout + Second)) ;;
  act ACancelManager ;;
  act AWaitWorkers ;;
  act AWaitPools ;;
  close_pools.

(** ** Retired pools are closed *)

(** The clock keeps up with a timer created at [created]: when it is read after
    [k] ticks, [k] periods have passed. *)
Fixpoint paced (period created : Z) (k : nat) (tr : trace) : Prop :=
  match tr with
  | [] => True
  | existT a x :: tr =>
      match a return answer a -> Prop with
      | ANow => fun now => created + Z.of_nat k * period <= now
      | _ => fun _ => True
      end x /\
      paced period created
        (match a with AWorkerTick => S k | _ => k end) tr
  end.

(** Why the wait for the queries of a retired pool ended: none was left, the time
    was up, or the manager was closed. *)
Definition drained (dbID : string) (deadline : time) (tr : trace) : Prop :=
  (exists pre n, tr = pre ++ [existT (ALocal (LActiveForDB dbID)) n] /\ n <= 0) \/
  (exists pre now, tr = pre ++ [existT ANow now] /\ deadline <= now) \/
  (exists pre, tr = pre ++ [existT AWorkerTick true]).

Lemma drained_cons ev dbID deadline tr : drained dbID deadline tr -> drained dbID deadline (ev :: tr).
Proof.
  intros [(pre & n & -> & ?)|[(pre & now & -> & ?)|(pre & ->)]]; [left|right; left|right; right];
    exists (ev :: pre); eauto.
Qed.

Definition not_closing (ev : event answer) : Prop :=
  match projT1 ev with AClosePool _ => False | _ => True end.

Lemma drain_pool_trace dbID deadline created k turns tr r :
  executes (drain_pool dbID deadline turns) tr r ->
  Forall not_closing tr /\
  (r = Stopped -> drained dbID deadline tr) /\
  (paced poolDrainTick created k tr -> (0 < turns)%nat ->
   deadline <= created + (Z.of_nat k + Z.of_nat turns - 1) * poolDrainTick -> r = Stopped).
Proof.
  revert k tr. induction turns as [|turns IH]; intros k tr; cbn [drain_pool].
  { intros [-> ->]. split_and!; [constructor|done|lia]. }
  unfold local, act, call. cbn [bind executes]. intros (n & tr1 & -> & Hex). cbn in n.
  destruct (Z.leb_spec n 0).
  { destruct Hex as [-> ->]. split_and!; [by repeat constructor| |done]. intros _. left. by exists [], n. }
  cbn [bind executes] in Hex. destruct Hex as (now & tr2 & -> & Hex). cbn in now.
  destruct (Z.leb_spec deadline now) as [|Hnow].
  { destruct Hex as [-> ->]. split_and!; [by repeat constructor| |done]. intros _.
    apply drained_cons. right. left. by exists [], now. }
  cbn [bind executes] in Hex. destruct Hex as (closed & tr3 & -> & Hex). cbn in closed.
  destruct closed.
  { destruct Hex as [-> ->]. split_and!; [by repeat constructor| |done]. intros _.
    do 2 apply drained_cons. right. right. by exists []. }
  destruct (IH (S k) _ Hex) as (Hnc & Hwhy & Hend). split_and!.
  - by repeat constructor.
  - intros Hr. by do 3 apply drained_cons; apply Hwhy.
  - cbn [paced]. intros (_ & Hge & _ & Hp) _ Hdl. destruct turns as [|turns].
    + exfalso. replace (Z.of_nat k + Z.of_nat 1 - 1) with (Z.of_nat k) in Hdl by lia. lia.
    + apply Hend; [done|lia|]. etrans; [exact Hdl|]. apply Z.eq_le_incl. lia.
Qed.

(** A pool that a reload retired is closed once, at the end of its goroutine
    and not before: when no query of its database was left, or two minutes had
    passed, or the manager was closed. And it is closed: as many turns of the
    loop as there are ticks of the timer until the deadline, and one more, are
    enough. *)
Theorem retired_pool_closed dbID p turns created tr r :
  executes (closePoolWhenIdle dbID p turns) tr r ->
  exists now rest, tr = existT ANow now :: rest /\
    (r = Stopped -> exists pre x, rest = pre ++ [existT (AClosePool p) x] /\
       Forall not_closing pre /\ drained dbID (now + poolDrainTimeout) pre) /\
    (paced poolDrainTick created 0 rest -> (0 < turns)%nat ->
     now + poolDrainTimeout <= created + (Z.of_nat turns - 1) * poolDrainTick -> r = Stopped).
Proof.
  unfold closePoolWhenIdle, act, call. cbn [bind executes]. intros (now & rest & -> & Hex).
  exists now, rest. split; [done|]. apply executes_bind in Hex as (tr1 & tr2 & ended & -> & Hd & Hex).
  pose proof (drain_pool_trace _ _ created 0 _ _ _ Hd) as (Hnc & Hwhy & Hend). split.
  - intros ->. destruct ended; cbn [bind executes] in Hex; [|by destruct Hex..].
    destruct Hex as (x & tr3 & -> & -> & _). exists tr1, x. auto.
  - intros Hp Ht Hdl. assert (ended = Stopped) as ->.
    { apply Hend; [|done|exact Hdl]. clear -Hp. revert Hp. generalize 0%nat.
      induction tr1 as [|[a x] tr1 IH]; intros k; [done|]. simpl. intros [? ?]. split; auto. }
    cbn [bind executes] in Hex. by destruct Hex as (x & tr3 & -> & _ & ->).
Qed.

(** ** Events are published in order *)

(** The message an event is announced with. *)
Definition event_message (me : captured) (ev : QueryEvent) : ControlMsg :=
  mkControlMsg ControlQueryEvent (ev_QueryID ev) (instanceID me)
    (Some (mkPayload (QueryState_string (ev_State ev)) (ev_Stats ev) (ev_Error ev))).

(** The event an action took from the queue, and the message it published. *)
Definition taken (ev : event answer) : option QueryEvent :=
  match ev with
  | existT ANextEvent got => got
  | existT (ALocal LDequeue) got => got
  | _ => None
  end.

Definition published (ev : event answer) : option ControlMsg :=
  match ev with
  | existT (AMeta _ (OpPublishControl msg)) _ => Some msg
  | _ => None
  end.

Definition in_order (me : captured) (tr : trace) : Prop :=
  omap published tr = map (event_message me) (omap taken tr).

Lemma in_order_app me tr1 tr2 : in_order me tr1 -> in_order me tr2 -> in_order me (tr1 ++ tr2).
Proof. unfold in_order. rewrite !omap_app, map_app. congruence. Qed.

(** Taking an event and publishing it. *)
Lemma publish_one me ev (took : event answer) tr u :
  taken took = Some ev -> published took = None ->
  executes (publishEvent me ev) tr u -> in_order me (took :: tr).
Proof.
  intros Ht Hp. unfold publishEvent, meta, call. cbn [bind executes].
  intros (x & tr1 & -> & -> & _). unfold in_order. simpl. rewrite Ht, Hp. done.
Qed.

(** How the emptying of the queue ended: it was empty, or the time was up. *)
Definition emptied (deadline : time) (tr : trace) : Prop :=
  (exists pre, tr = pre ++ [existT (ALocal LDequeue) None]) \/
  (exists pre now, tr = pre ++ [existT ANow now] /\ deadline <= now).

Lemma emptied_app deadline tr1 tr2 : emptied deadline tr2 -> emptied deadline (tr1 ++ tr2).
Proof.
  intros [(pre & ->)|(pre & now & -> & ?)]; [left|right]; exists (tr1 ++ pre); rewrite app_assoc; eauto.
Qed.

Lemma drain_events_trace me deadline turns tr r :
  executes (drain_events me deadline turns) tr r ->
  in_order me tr /\ (r = Stopped -> emptied deadline tr).
Proof.
  revert tr. induction turns as [|turns IH]; intros tr; cbn [drain_events].
  { by intros [-> ->]. }
  unfold local, act, call. cbn [bind executes]. intros (now & tr1 & -> & Hex). cbn in now.
  destruct (Z.leb_spec deadline now).
  { destruct Hex as [-> ->]. split; [done|]. intros _. right. by exists [], now. }
  cbn [bind executes] in Hex. destruct Hex as (ev & tr2 & -> & Hex). cbn in ev.
  destruct ev as [ev|].
  - apply executes_bind in Hex as (tr3 & tr4 & u & -> & Hpub & Hex). destruct (IH _ Hex) as [Ho He].
    split; [|intros Hr; by apply (emptied_app _ [_; _]), emptied_app, He].
    apply (in_order_app _ [_]); [done|]. rewrite app_comm_cons. apply in_order_app; [|done].
    by apply (publish_one _ ev _ _ u).
  - destruct Hex as [-> ->]. split; [done|]. intros _. left. by exists [existT ANow now].
Qed.

(** Every event the publisher takes from the queue is announced to the
    cluster exactly once and in the order the events were queued, and nothing
    else is. Once it was told to stop it goes on until the queue is empty or five
    seconds have passed. *)
Theorem events_published_in_order me turns tr r :
  executes (eventPublisher me turns) tr r ->
  in_order me tr /\
  (r = Stopped -> exists pre now rest,
     tr = pre ++ existT ANextEvent None :: existT ANow now :: rest /\
     emptied (now + eventDrainTimeout) rest).
Proof.
  revert tr. induction turns as [|turns IH]; intros tr; cbn [eventPublisher].
  { by intros [-> ->]. }
  unfold act, call. cbn [bind executes]. intros (ev & tr1 & -> & Hex). cbn in ev.
  destruct ev as [ev|].
  - apply executes_bind in Hex as (tr2 & tr3 & u & -> & Hpub & Hex). destruct (IH _ Hex) as [Ho He].
    split.
    + rewrite app_comm_cons. apply in_order_app; [|done]. by apply (publish_one _ ev _ _ u).
    + intros Hr. destruct (He Hr) as (pre & now & rest & -> & Hem).
      exists (existT ANextEvent (Some ev) :: tr2 ++ pre), now, rest. split; [|done].
      simpl. by rewrite <- app_assoc.
  - cbn [bind executes] in Hex. destruct Hex as (now & tr2 & -> & Hex). cbn in now.
    apply drain_events_trace in Hex as [Ho He]. split.
    + by apply (in_order_app _ [_; _]).
    + intros Hr. exists [], now, tr2. auto.
Qed.

(** ** Shutdown *)

Lemma cancel_each l tr u :
  executes (for_each (fun aq _ => act (ACancel (aq_cancel aq))) l tt) tr u ->
  forall aq, aq ∈ l -> existT (ACancel (aq_cancel aq)) tt ∈ tr.
Proof.
  revert tr. induction l as [|a l IH]; intros tr Hex aq Hin; [by apply elem_of_nil in Hin|].
  unfold act, call in Hex. cbn [for_each bind executes] in Hex.
  destruct Hex as ([] & rest & -> & Hex).
  apply elem_of_cons in Hin as [-> | Hin]; apply elem_of_cons; [by left|right].
  by apply (IH _ Hex).
Qed.

Definition closed_pools (tr : trace) : list pool :=
  omap (fun ev => match projT1 ev with AClosePool p => Some p | _ => None end) tr.

Lemma close_each l tr u :
  executes (for_each (fun mp _ => act (AClosePool (mp_pool mp)) ;; Ret tt) l tt) tr u ->
  closed_pools tr = map mp_pool l.
Proof.
  revert tr. induction l as [|a l IH]; intros tr Hex; [by destruct Hex as [-> _]|].
  unfold act, call in Hex. cbn [for_each bind executes] in Hex.
  destruct Hex as (x & rest & -> & Hex). simpl. f_equal. by apply IH.
Qed.

(** C16. Shutting down an instance leaves no execution running unnoticed: whatever
    the other goroutines do, every query still registered after [Close] read the
    registry has had its execution cancelled, because the registry was closed
    before. The publisher is stopped only after the wait for the queries, the
    manager's context is cancelled after that, and the pools of the table are
    closed last, each of them once. *)
Theorem shutdown_cancels_all tr u q steps q1 steps2 q2 :
  executes shutdown tr u ->
  shared_run steps (Drain q) = Some q1 -> shared_run steps2 q1 = Some q2 ->
  exists reg cancels in_time published_in_time pools closes,
    tr = existT (ALocal LDrain) tt :: existT (ALocal LActives) reg :: cancels ++
         existT (AWaitQueries queryCloseTimeout) in_time ::
         existT AStopPublisher tt ::
         existT (AWaitPublisher (eventDrainTimeout + Second)) published_in_time ::
         existT ACancelManager tt :: existT AWaitWorkers tt :: existT AWaitPools tt ::
         existT (ALocal LPools) pools :: closes /\
    closed_pools closes = map mp_pool (map_to_list pools).*2 /\
    (reg = activeReg q1 ->
     forall id aq, activeReg q2 !! id = Some aq -> existT (ACancel (aq_cancel aq)) tt ∈ cancels).
Proof.
  intros Hex Hq1 Hq2. unfold shutdown, cancelActive, close_pools, local in Hex.
  cbn [call bind executes] in Hex. destruct Hex as ([] & tr1 & -> & reg & tr2 & -> & Hex).
  apply executes_bind in Hex as (cancels & tr3 & [] & -> & Hc & Hex).
  unfold act, call in Hex. cbn [bind executes] in Hex.
  destruct Hex as (t1 & ? & -> & [] & ? & -> & t2 & ? & -> & [] & ? & -> & [] & ? & -> &
                   [] & ? & -> & pools & closes & -> & Hex).
  exists reg, cancels, t1, t2, pools, closes. split_and!; [done|by apply close_each in Hex|].
  intros -> id aq Hid. apply (cancel_each _ _ _ Hc).
  apply drained_run in Hq1 as [Hd _]; [|done]. apply drained_run in Hq2 as [_ Hsub]; [|done].
  apply list_elem_of_fmap. exists (id, aq). split; [done|].
  apply (elem_of_map_to_list (M := gmap string)).
  by eapply lookup_weaken.
Qed.

(** ** Examples *)

(** A query that never ends keeps a retired pool open for two minutes. *)
Definition busy_world : world :=
  with_qm (admit_query "q1" "pg" 7%nat demo_qm).2 demo_world.

Lemma not_closing_closed tr : Forall not_closing tr -> closed_pools tr = [].
Proof. induction 1 as [|[[] x] tr Ha _ IH]; simpl in *; done. Qed.

Lemma retired_pool_closed_witness :
  closed_pools (demo_run (closePoolWhenIdle "pg" 1%nat 241) busy_world).1.2 = [1%nat].
Proof.
  destruct (retired_pool_closed "pg" 1%nat 241 (1000 * Second) _ _
    (demo_executes (closePoolWhenIdle "pg" 1%nat 241) busy_world))
    as (now & rest & Htr & Hclosed & Hend).
  destruct Hclosed as (pre & x & -> & Hnc & _).
  - vm_compute. reflexivity.
  - rewrite Htr. change (closed_pools (pre ++ [existT (AClosePool 1%nat) x]) = [1%nat]).
    unfold closed_pools. rewrite omap_app. fold (closed_pools pre).
    by rewrite (not_closing_closed _ Hnc).
Defined.

(** The publisher takes one event and is then stopped. *)
Definition publishing_world : world :=
  with_qm (enqueue (sample_event StateRunning) demo_qm).2 demo_world.

Lemma events_published_in_order_witness :
  omap published (demo_run (eventPublisher (self demo_qm) 4) publishing_world).1.2 =
  [event_message (self demo_qm) (sample_event StateRunning)].
Proof.
  destruct (events_published_in_order (self demo_qm) 4 _ _
    (demo_executes (eventPublisher (self demo_qm) 4) publishing_world)) as [Ho _].
  rewrite Ho. vm_compute. reflexivity.
Defined.

Lemma shutdown_cancels_all_witness :
  exists reg rest,
    (demo_run shutdown busy_world).1.2 = existT (ALocal LDrain) tt :: existT (ALocal LActives) reg :: rest /\
    (reg = activeReg (Drain (w_qm busy_world)) -> existT (ACancel 7%nat) tt ∈ rest).
Proof.
  destruct (shutdown_cancels_all _ _ (w_qm busy_world) [] (Drain (w_qm busy_world)) []
    (Drain (w_qm busy_world)) (demo_executes shutdown busy_world) eq_refl eq_refl)
    as (reg & cancels & t1 & t2 & pools & closes & Htr & _ & Hall).
  eexists reg, _. split; [exact Htr|]. intros Hreg. apply elem_of_app. left.
  apply (Hall Hreg "q1" (mkActive 7%nat "pg")). vm_compute. reflexivity.
Defined.

(** ** A heartbeat that is too short *)

Definition short_heartbeat : Config.Config :=
  with_defaults (mkConfig (mkInstance "dbb-1" "memory" "" "" 0 "" 1 0 "") (Server sample_config)
    None (Defaults sample_config) (Storage sample_config) (Databases sample_config)).

(** A configuration that passes validation may have a heartbeat time of one
    nanosecond; the heartbeat worker of such an instance panics. *)
Lemma short_heartbeat_panics me turns :
  validate short_heartbeat = Ok short_heartbeat /\
  executes (heartbeatWorker me turns) [existT (ALocal LConfig) short_heartbeat] Panicked.
Proof. split; [vm_compute; reflexivity|]. by eexists _, []. Qed.
