(* ===== verification/WebSocket.v ===== *)
(** * WebSocket connections

    [internal/transport/ws/server.go]: one connection, from the handshake to the
    return of its handler. The goroutine of the handler reads the client's messages;
    every subscription has a goroutine, its pump, that forwards the events of a query.
    They share the table of subscriptions and the connection they write to. A step is
    one critical section or one blocking call of one goroutine, or the arrival of an
    event from the query manager, and the connection runs any interleaving of steps.
    The contexts of the subscriptions are numbered in the order they are made; the
    channel of a subscription has the number of its context. *)

From stdpp Require Import fin_map_dom.
From S2P Require Import Prelude Domain Utf8 Text Json SqlGuard Authn Config MetaStore RecordJson Prog ManagerState.

Open Scope Z_scope.
Open Scope dbb_scope.

Set Warnings "-register-all".

Definition maxSubscriptionsPerConn : nat := 32.

(** ** Messages *)

Record ClientMessage := mkClientMessage { cm_Action : string; cm_QueryID : string }.

Definition client_fields : list string := ["action"; "query_id"].

Definition set_client (f : string) (v : json) (m : ClientMessage) : option ClientMessage :=
  if bool_decide (f = "action") then (fun s => mkClientMessage s (cm_QueryID m)) <$> decode_string v (cm_Action m)
  else (fun s => mkClientMessage (cm_Action m) s) <$> decode_string v (cm_QueryID m).

(** [json.Unmarshal(data, &msg)]. *)
Definition unmarshal_client (data : bytes) : option ClientMessage :=
  v ← parse data; decode_struct client_fields set_client v (mkClientMessage "" "").

(** The field [Error] holds nothing, the error of a query or a text. *)
Inductive message_error := NoError | QueryFailure (e : QueryError) | Reason (text : string).

Record ServerMessage := mkServerMessage {
  sm_QueryID : string;
  sm_State : string;
  sm_Stats : option QueryStats;
  sm_Error : message_error
}.

Definition json_message (m : ServerMessage) : json :=
  JObj (member "query_id" (json_string (sm_QueryID m)) ++
        member_if (nonempty (sm_State m)) "state" (json_string (sm_State m)) ++
        match sm_Stats m with Some s => member "stats" (json_stats s) | None => [] end ++
        match sm_Error m with
        | NoError => []
        | QueryFailure e => member "error" (json_error e)
        | Reason text => member "error" (json_string text)
        end).

(** [json.Marshal(msg)], which does not fail on these types. *)
Definition marshal_message (m : ServerMessage) : bytes := print (json_message m).

(** The message of an event. *)
Definition event_message (ev : QueryEvent) : ServerMessage :=
  mkServerMessage (ev_QueryID ev) (QueryState_string (ev_State ev)) (Some (ev_Stats ev))
    (match ev_Error ev with Some e => QueryFailure e | None => NoError end).

(** ** Connections *)

(** The handler waits for a message, for [WatchQuery] to return, or to write an
    error; it has left its loop and waits for the pumps, or it has returned. *)
Inductive reading :=
| Reading | Subscribing (queryID : string) (x : nat) | Refusing (queryID reason : string) | Waiting | Returned.

(** A pump is in its [select], about to write an event, or about to end. *)
Inductive pumping := PSelect | PWrite (ev : QueryEvent) | PEnd.

(** The channel of a subscription: what it holds, whether the manager closed it,
    and everything that was ever sent on it. *)
Record channel := mkChannel { ch_buf : list QueryEvent; ch_closed : bool; ch_sent : list QueryEvent }.

Record conn := mkConn {
  subs : gmap string nat;
  next_ctx : nat;
  cancelled : gset nat;
  parent_done : bool;
  pumps : gmap nat (string * pumping);
  channels : gmap nat channel;
  reader : reading;
  written : list (option nat * bytes);  (* the frames, with the pump that wrote them *)
  failed : gset nat;                    (* pumps whose write failed *)
  stopped : gset nat;                   (* pumps that saw their context done *)
  closed : bool
}.

Definition new_conn : conn := mkConn ∅ 0 ∅ false ∅ ∅ Reading [] ∅ ∅ false.

Definition set_subs s c := mkConn s (next_ctx c) (cancelled c) (parent_done c) (pumps c) (channels c) (reader c) (written c) (failed c) (stopped c) (closed c).
Definition set_next n c := mkConn (subs c) n (cancelled c) (parent_done c) (pumps c) (channels c) (reader c) (written c) (failed c) (stopped c) (closed c).
Definition set_cancelled x c := mkConn (subs c) (next_ctx c) x (parent_done c) (pumps c) (channels c) (reader c) (written c) (failed c) (stopped c) (closed c).
Definition set_parent c := mkConn (subs c) (next_ctx c) (cancelled c) true (pumps c) (channels c) (reader c) (written c) (failed c) (stopped c) (closed c).
Definition set_pumps p c := mkConn (subs c) (next_ctx c) (cancelled c) (parent_done c) p (channels c) (reader c) (written c) (failed c) (stopped c) (closed c).
Definition set_channels h c := mkConn (subs c) (next_ctx c) (cancelled c) (parent_done c) (pumps c) h (reader c) (written c) (failed c) (stopped c) (closed c).
Definition set_reader r c := mkConn (subs c) (next_ctx c) (cancelled c) (parent_done c) (pumps c) (channels c) r (written c) (failed c) (stopped c) (closed c).
Definition set_written w c := mkConn (subs c) (next_ctx c) (cancelled c) (parent_done c) (pumps c) (channels c) (reader c) w (failed c) (stopped c) (closed c).
Definition set_failed f c := mkConn (subs c) (next_ctx c) (cancelled c) (parent_done c) (pumps c) (channels c) (reader c) (written c) f (stopped c) (closed c).
Definition set_stopped x c := mkConn (subs c) (next_ctx c) (cancelled c) (parent_done c) (pumps c) (channels c) (reader c) (written c) (failed c) x (closed c).
Definition set_closed c := mkConn (subs c) (next_ctx c) (cancelled c) (parent_done c) (pumps c) (channels c) (reader c) (written c) (failed c) (stopped c) true.

(** The context of a subscription is done. *)
Definition ctx_done (c : conn) (x : nat) : bool := parent_done c || bool_decide (x ∈ cancelled c).

(** ** Operations *)

Definition unsubscribe (queryID : string) (c : conn) : conn :=
  set_subs (delete queryID (subs c))
    (match subs c !! queryID with Some x => set_cancelled ({[x]} ∪ cancelled c) c | None => c end).

(** [write] holds [writeMu] while it writes one frame; [ok] is the answer of the
    connection. *)
Definition write (who : option nat) (msg : ServerMessage) (ok : bool) (c : conn) : conn :=
  if ok then set_written (written c ++ [(who, marshal_message msg)]) c else c.

Definition writeError (queryID reason : string) (ok : bool) (c : conn) : conn :=
  write None (mkServerMessage queryID "" None (Reason reason)) ok c.

(** [subscribe] up to the call of [WatchQuery]. *)
Definition subscribe (queryID : string) (c : conn) : conn :=
  match subs c !! queryID with
  | Some _ => c
  | None =>
      if (maxSubscriptionsPerConn <=? size (subs c))%nat
      then set_reader (Refusing queryID "subscription limit reached") c
      else set_reader (Subscribing queryID (next_ctx c))
             (set_next (S (next_ctx c)) (set_subs (<[queryID := next_ctx c]> (subs c)) c))
  end.

(** [subscribe] after [WatchQuery], which returned a channel or an error. *)
Definition subscribed (watched : option channel) (queryID : string) (x : nat) (c : conn) : conn :=
  match watched with
  | Some ch =>
      set_reader Reading (set_pumps (<[x := (queryID, PSelect)]> (pumps c)) (set_channels (<[x := ch]> (channels c)) c))
  | None => set_reader (Refusing queryID "query not found") (unsubscribe queryID c)
  end.

Definition on_message (m : ClientMessage) (c : conn) : conn :=
  if bool_decide (cm_Action m = "watch") then
    if bool_decide (cm_QueryID m = "") then c else subscribe (cm_QueryID m) c
  else if bool_decide (cm_Action m = "unwatch") then unsubscribe (cm_QueryID m) c
  else c.

Inductive MessageType := MessageText | MessageBinary.

(** The body of the message loop. *)
Definition on_frame (typ : MessageType) (data : bytes) (c : conn) : conn :=
  match typ with
  | MessageBinary => c
  | MessageText => match unmarshal_client data with Some m => on_message m c | None => c end
  end.

Definition closeAll (c : conn) : conn :=
  set_subs ∅ (set_cancelled (map_img (subs c) ∪ cancelled c) c).

(** The end of a subscription's goroutine. *)
Definition pump_ends (queryID : string) (x : nat) (c : conn) : conn :=
  set_pumps (delete x (pumps c)) (unsubscribe queryID c).

(** One turn of [pump], at its [select]: the context is done or an event is there
    or the channel is closed, whichever the runtime picks. *)
Inductive pick := PickDone | PickChannel.

Definition pump_select (p : pick) (x : nat) (queryID : string) (c : conn) : option conn :=
  match p with
  | PickDone =>
    if ctx_done c x then Some (set_stopped ({[x]} ∪ stopped c) (set_pumps (<[x := (queryID, PEnd)]> (pumps c)) c)) else None
  | PickChannel =>
    match channels c !! x with
    | Some ch =>
      match ch_buf ch with
      | ev :: rest =>
        Some (set_pumps (<[x := (queryID, PWrite ev)]> (pumps c))
                (set_channels (<[x := mkChannel rest (ch_closed ch) (ch_sent ch)]> (channels c)) c))
      | [] => if ch_closed ch then Some (set_pumps (<[x := (queryID, PEnd)]> (pumps c)) c) else None
      end
    | None => None
    end
  end.

(** The rest of the turn: the event is written; the pump goes on or ends. *)
Definition pump_write (ok : bool) (x : nat) (queryID : string) (ev : QueryEvent) (c : conn) : conn :=
  let c := write (Some x) (event_message ev) ok c in
  if ok then set_pumps (<[x := (queryID, PSelect)]> (pumps c)) c
  else set_failed ({[x]} ∪ failed c) (set_pumps (<[x := (queryID, PEnd)]> (pumps c)) c).

(** [ServeHTTP] up to its loop: nothing when the handshake fails; a query named in
    the URL is watched first. *)
Definition ServeHTTP (accepted : bool) (queryID : string) : option conn :=
  if accepted then Some (if bool_decide (queryID = "") then new_conn else subscribe queryID new_conn) else None.

(** After the loop: [closeAll], and then [wg.Wait]. *)
Definition leave_loop (c : conn) : conn := set_reader Waiting (closeAll c).

(** The pumps have ended: the context is cancelled and the connection closed. *)
Definition serve_returns (c : conn) : conn := set_reader Returned (set_parent (set_closed c)).

(** ** Interleavings *)

(** What can happen next. The first group is up to the client, the query manager and
    the server; the second is the connection's own goroutines. *)
Inductive label :=
| LFrame (typ : MessageType) (data : bytes) | LReadFails
| LSend (x : nat) (ev : QueryEvent) | LCloseChannel (x : nat) | LParentDone
| LWatched (watched : option (list QueryEvent * bool)) | LRefuse (ok : bool)
| LSelect (x : nat) (p : pick) | LWrite (x : nat) (ok : bool) | LPumpEnds (x : nat) | LReturn.

Definition own (l : label) : bool :=
  match l with LWatched _ | LRefuse _ | LSelect _ _ | LWrite _ _ | LPumpEnds _ | LReturn => true | _ => false end.

Definition step (l : label) (c : conn) : option conn :=
  match l with
  | LFrame typ data => match reader c with Reading => Some (on_frame typ data c) | _ => None end
  | LReadFails => match reader c with Reading => Some (leave_loop c) | _ => None end
  | LSend x ev =>
    match channels c !! x with
    | Some ch => if ch_closed ch then None
                 else Some (set_channels (<[x := mkChannel (ch_buf ch ++ [ev]) false (ch_sent ch ++ [ev])]> (channels c)) c)
    | None => None
    end
  | LCloseChannel x =>
    match channels c !! x with
    | Some ch => Some (set_channels (<[x := mkChannel (ch_buf ch) true (ch_sent ch)]> (channels c)) c)
    | None => None
    end
  | LParentDone => Some (set_parent c)
  | LWatched watched =>
    match reader c with
    | Subscribing q x => Some (subscribed ((fun '(evs, over) => mkChannel evs over evs) <$> watched) q x c)
    | _ => None
    end
  | LRefuse ok =>
    match reader c with
    | Refusing q reason => Some (set_reader Reading (writeError q reason ok c))
    | _ => None
    end
  | LSelect x p => match pumps c !! x with Some (q, PSelect) => pump_select p x q c | _ => None end
  | LWrite x ok => match pumps c !! x with Some (q, PWrite ev) => Some (pump_write ok x q ev c) | _ => None end
  | LPumpEnds x => match pumps c !! x with Some (q, PEnd) => Some (pump_ends q x c) | _ => None end
  | LReturn =>
    match reader c with
    | Waiting => if bool_decide (pumps c = ∅) then Some (serve_returns c) else None
    | _ => None
    end
  end.

Definition steps (c c' : conn) : Prop := exists l, step l c = Some c'.

Definition reachable (c : conn) : Prop := exists queryID c0, ServeHTTP true queryID = Some c0 /\ rtc steps c0 c.

(** A run, as the list of its labels. *)
Fixpoint run_labels (ls : list label) (c : conn) : option conn :=
  match ls with
  | [] => Some c
  | l :: ls => c' ← step l c; run_labels ls c'
  end.

(** ** Subscriptions are bounded and released *)

(** A subscription is registered under its query as long as its context is not
    cancelled, and every context made so far is registered or cancelled. *)
Definition registered (c : conn) (q : string) (x : nat) : Prop :=
  (x < next_ctx c)%nat /\ (x ∈ cancelled c \/ subs c !! q = Some x).

Record conn_ok (c : conn) : Prop := {
  ok_size : (size (subs c) <= maxSubscriptionsPerConn)%nat;
  ok_released x : (x < next_ctx c)%nat -> exists q, registered c q x;
  ok_pumps q x p : pumps c !! x = Some (q, p) -> registered c q x;
  ok_reader : match reader c with
              | Reading | Refusing _ _ => True
              | Subscribing q x => registered c q x
              | Waiting => subs c = ∅
              | Returned => subs c = ∅ /\ pumps c = ∅ /\ parent_done c = true /\ closed c = true
              end
}.

Lemma new_conn_ok : conn_ok new_conn.
Proof. split; simpl; [rewrite map_size_empty; lia|lia|done|done]. Qed.

Lemma registered_unsubscribe c q q' x : registered c q x -> registered (unsubscribe q' c) q x.
Proof.
  intros [Hx Hr]. unfold registered, unsubscribe. destruct (subs c !! q') as [y|] eqn:Hy; simpl.
  - split; [done|]. destruct (decide (q' = q)) as [->|Hne]; [left; set_solver|].
    rewrite lookup_delete_ne by done. set_solver.
  - split; [done|]. destruct Hr as [?|Hr]; [by left|]. right. rewrite lookup_delete_ne; [done|congruence].
Qed.

(** [unsubscribe] changes only the table and the cancelled contexts. *)
Lemma unsubscribe_frame q c :
  next_ctx (unsubscribe q c) = next_ctx c /\ pumps (unsubscribe q c) = pumps c /\
  reader (unsubscribe q c) = reader c /\ parent_done (unsubscribe q c) = parent_done c /\
  closed (unsubscribe q c) = closed c /\ channels (unsubscribe q c) = channels c /\
  written (unsubscribe q c) = written c /\ failed (unsubscribe q c) = failed c /\ stopped (unsubscribe q c) = stopped c /\
  subs (unsubscribe q c) = delete q (subs c).
Proof. unfold unsubscribe. destruct (subs c !! q); simpl; by split_and!. Qed.

Lemma unsubscribe_ok q c : conn_ok c -> conn_ok (unsubscribe q c).
Proof.
  intros [Hs Hr Hp Hd]. destruct (unsubscribe_frame q c) as (En & Ep & Er & Epd & Ecl & _ & _ & _ & _ & Es). split.
  - rewrite Es. etrans; [|exact Hs]. apply map_subseteq_size, delete_subseteq.
  - rewrite En. intros x Hx. destruct (Hr x Hx) as [q' ?]. exists q'. by apply registered_unsubscribe.
  - rewrite Ep. intros q' x p Hin. eapply registered_unsubscribe, Hp, Hin.
  - rewrite Er, Es, Ep, Epd, Ecl. destruct (reader c); try done; [by apply registered_unsubscribe|by rewrite Hd, delete_empty|].
    destruct Hd as (-> & ? & ? & ?). by rewrite delete_empty.
Qed.

(** Changes that concern neither the table nor the reading goroutine keep the
    invariant, as long as the pumps stay among those there are. *)
Lemma conn_ok_frame c c' :
  conn_ok c -> subs c' = subs c -> next_ctx c' = next_ctx c -> cancelled c' = cancelled c ->
  (forall q x p, pumps c' !! x = Some (q, p) -> exists p', pumps c !! x = Some (q, p')) ->
  match reader c' with
  | Reading | Refusing _ _ => True
  | Subscribing q x => reader c = reader c'
  | Waiting => subs c = ∅
  | Returned => subs c = ∅ /\ pumps c' = ∅ /\ parent_done c' = true /\ closed c' = true
  end -> conn_ok c'.
Proof.
  intros [Hs Hr Hp Hd] E1 E2 E3 E4 E5.
  assert (forall q x, registered c q x -> registered c' q x) as Hk.
  { unfold registered. by rewrite E1, E2, E3. }
  split; rewrite ?E1, ?E2; [done| | |].
  - intros x Hx. destruct (Hr x Hx) as [q ?]. exists q. auto.
  - intros q x p [p' Hin]%E4. eauto.
  - destruct (reader c') eqn:Er; try done. rewrite E5 in Hd. auto.
Qed.

Lemma subscribe_ok q c : conn_ok c -> reader c = Reading -> conn_ok (subscribe q c).
Proof.
  intros Hok Hrd. unfold subscribe. destruct (subs c !! q) as [y|] eqn:Hq; [done|].
  destruct (Nat.leb_spec maxSubscriptionsPerConn (size (subs c))); [apply (conn_ok_frame c); simpl; eauto|].
  destruct Hok as [Hs Hr Hp _].
  assert (forall q' x, registered c q' x ->
            (x < S (next_ctx c))%nat /\
            (x ∈ cancelled c \/ <[q := next_ctx c]> (subs c) !! q' = Some x)) as Hkeep.
  { intros q' x [Hx [Hc|Hc]]; (split; [lia|]); [by left|]. right.
    rewrite lookup_insert_ne; [done|congruence]. }
  split; simpl.
  - rewrite map_size_insert_None by done. lia.
  - intros x Hx. destruct (decide (x = next_ctx c)) as [->|Hne].
    + exists q. split; [simpl; lia|]. right. simpl. by rewrite lookup_insert_eq.
    + destruct (Hr x) as [q' ?]; [lia|]. exists q'. by apply Hkeep.
  - intros q' x p Hin. eapply Hkeep, Hp, Hin.
  - split; [simpl; lia|]. right. simpl. by rewrite lookup_insert_eq.
Qed.

Lemma watch_result_ok watched q x c :
  reader c = Subscribing q x -> conn_ok c -> conn_ok (subscribed watched q x c).
Proof.
  intros Hre Hok. unfold subscribed. destruct watched as [ch|].
  - destruct Hok as [Hs Hr Hp Hd]. rewrite Hre in Hd. split; simpl; [done|done| |done].
    intros q' y p. destruct (decide (y = x)) as [->|Hne].
    + rewrite lookup_insert_eq. by intros [= -> ->].
    + rewrite lookup_insert_ne by done. apply Hp.
  - apply (unsubscribe_ok q) in Hok. apply (conn_ok_frame (unsubscribe q c)); simpl; eauto.
Qed.

Lemma on_frame_ok typ data c : reader c = Reading -> conn_ok c -> conn_ok (on_frame typ data c).
Proof.
  intros Hrd Hok. unfold on_frame. destruct typ; [|done]. destruct (unmarshal_client data) as [m|]; [|done].
  unfold on_message. repeat case_bool_decide; [done|by apply subscribe_ok|by apply unsubscribe_ok|done].
Qed.

Lemma leave_loop_ok c : conn_ok c -> conn_ok (leave_loop c).
Proof.
  intros [Hs Hr Hp _].
  assert (forall q x, registered c q x -> registered (leave_loop c) q x) as Hkeep.
  { intros q x [Hx Hc]. split; [done|]. left. simpl. apply elem_of_union.
    destruct Hc as [Hc|Hc]; [by right|left]. by eapply elem_of_map_img_2. }
  split; simpl; [by rewrite map_size_empty; lia| | |done].
  - intros x Hx. destruct (Hr x Hx) as [q ?]. exists q. by apply Hkeep.
  - intros q x p Hin. eapply Hkeep, Hp, Hin.
Qed.

(** A pump that moves on. *)
Lemma conn_ok_pump c c' x q p p' :
  conn_ok c -> pumps c !! x = Some (q, p) -> pumps c' = <[x := (q, p')]> (pumps c) ->
  subs c' = subs c -> next_ctx c' = next_ctx c -> cancelled c' = cancelled c -> reader c' = reader c -> conn_ok c'.
Proof.
  intros Hok Hx Hp' E1 E2 E3 E4. apply (conn_ok_frame c); try done.
  - intros q' y r. rewrite Hp'. destruct (decide (y = x)) as [->|Hne].
    + rewrite lookup_insert_eq. intros [= <- <-]. eauto.
    + rewrite lookup_insert_ne by done. eauto.
  - pose proof (ok_reader c Hok) as Hd. rewrite E4. destruct (reader c); try done.
    destruct Hd as (_ & Hempty & _). by rewrite Hempty, lookup_empty in Hx.
Qed.

(** Neither does anything else than the table, the contexts, the pumps and the
    reading goroutine matter. *)
Lemma conn_ok_env c c' :
  conn_ok c -> subs c' = subs c -> next_ctx c' = next_ctx c -> cancelled c' = cancelled c ->
  pumps c' = pumps c -> reader c' = reader c -> (parent_done c = true -> parent_done c' = true) -> closed c' = closed c ->
  conn_ok c'.
Proof.
  intros Hok E1 E2 E3 E4 E5 E6 E7. apply (conn_ok_frame c); try done.
  - rewrite E4. eauto.
  - pose proof (ok_reader c Hok) as Hd. rewrite E5. destruct (reader c); try done.
    destruct Hd as (? & Hp & ? & Hc). rewrite E4, E7. auto.
Qed.

Lemma pump_select_frame p x q c c' :
  pump_select p x q c = Some c' ->
  subs c' = subs c /\ next_ctx c' = next_ctx c /\ cancelled c' = cancelled c /\ reader c' = reader c /\
  exists p', pumps c' = <[x := (q, p')]> (pumps c).
Proof. unfold pump_select. intros H. repeat case_match; simplify_eq; simpl; eauto 10. Qed.

Lemma pump_write_frame ok x q ev c :
  let c' := pump_write ok x q ev c in
  subs c' = subs c /\ next_ctx c' = next_ctx c /\ cancelled c' = cancelled c /\ reader c' = reader c /\
  exists p', pumps c' = <[x := (q, p')]> (pumps c).
Proof. unfold pump_write, write. destruct ok; simpl; eauto 10. Qed.

Lemma pump_ends_ok q x c : conn_ok c -> pumps c !! x = Some (q, PEnd) -> conn_ok (pump_ends q x c).
Proof.
  intros Hok Hx. unfold pump_ends. pose proof (unsubscribe_ok q c Hok) as Hu.
  destruct (unsubscribe_frame q c) as (_ & Ep & _).
  apply (conn_ok_frame (unsubscribe q c)); try done; cbn [pumps set_pumps reader].
  - intros q' y r [_ Hin]%lookup_delete_Some. rewrite Ep. eauto.
  - pose proof (ok_reader _ Hu) as Hd. destruct (reader (unsubscribe q c)); try done.
    destruct Hd as (? & Hempty & _). by rewrite <- Ep, Hempty, lookup_empty in Hx.
Qed.

Lemma step_ok l c c' : conn_ok c -> step l c = Some c' -> conn_ok c'.
Proof.
  intros Hok. destruct l; simpl.
  - destruct (reader c) eqn:E; try done. intros [= <-]. by apply on_frame_ok.
  - destruct (reader c) eqn:E; try done. intros [= <-]. by apply leave_loop_ok.
  - intros H. repeat case_match; simplify_eq. by apply (conn_ok_env c).
  - intros H. repeat case_match; simplify_eq. by apply (conn_ok_env c).
  - intros [= <-]. by apply (conn_ok_env c).
  - destruct (reader c) eqn:E; try done. intros [= <-]. by apply watch_result_ok.
  - destruct (reader c) eqn:E; try done. intros [= <-]. unfold writeError, write.
    apply (conn_ok_frame c); destruct ok; simpl; eauto.
  - destruct (pumps c !! x) as [[q []]|] eqn:E; try done. intros (? & ? & ? & ? & p' & ?)%pump_select_frame.
    by eapply conn_ok_pump.
  - destruct (pumps c !! x) as [[q []]|] eqn:E; try done. intros [= <-].
    destruct (pump_write_frame ok x q ev c) as (? & ? & ? & ? & p' & ?). by eapply conn_ok_pump.
  - destruct (pumps c !! x) as [[q []]|] eqn:E; try done. intros [= <-]. by apply pump_ends_ok.
  - destruct (reader c) eqn:E; try done. case_bool_decide as Hp; [|done]. intros [= <-].
    pose proof (ok_reader c Hok) as Hd. rewrite E in Hd. apply (conn_ok_frame c); simpl; eauto.
Qed.

Lemma ServeHTTP_ok accepted q c : ServeHTTP accepted q = Some c -> conn_ok c.
Proof.
  unfold ServeHTTP. destruct accepted; [|done]. intros [= <-]. case_bool_decide; [apply new_conn_ok|].
  by apply subscribe_ok; [apply new_conn_ok|].
Qed.

Lemma rtc_steps_inv (P : conn -> Prop) c c' :
  (forall l c c', P c -> step l c = Some c' -> P c') -> P c -> rtc steps c c' -> P c'.
Proof. intros Hs Hc Hr. revert Hc. induction Hr as [|a b d [l Hl] _ IH]; eauto. Qed.

Lemma reachable_ok c : reachable c -> conn_ok c.
Proof. intros (q & c0 & H0 & Hr). eapply rtc_steps_inv; [apply step_ok| |exact Hr]. by eapply ServeHTTP_ok. Qed.

(** C24. Whatever a client sends and however the goroutines of its connection
    interleave, the connection never has more than 32 subscriptions; a goroutine
    that forwards events is registered under its query as long as its context is
    not cancelled; and once the handler has left its loop the context of every
    subscription it ever made is cancelled. *)
Theorem connection_bounded c :
  reachable c ->
  (size (subs c) <= maxSubscriptionsPerConn)%nat /\
  (forall q x p, pumps c !! x = Some (q, p) -> x ∈ cancelled c \/ subs c !! q = Some x) /\
  (reader c = Waiting \/ reader c = Returned -> forall x, (x < next_ctx c)%nat -> x ∈ cancelled c).
Proof.
  intros [Hs Hr Hp Hd]%reachable_ok. split_and!; [done| |].
  - intros q x p Hin. by destruct (Hp q x p Hin).
  - intros Hg x Hx. assert (subs c = ∅) as He by by destruct Hg as [Hg|Hg]; rewrite Hg in Hd; [|destruct Hd].
    destruct (Hr x Hx) as (q & _ & [?|Hq]); [done|]. by rewrite He, lookup_empty in Hq.
Qed.

(** ** Events are forwarded in order *)

(** The frames a pump wrote. *)
Definition frame_of (x : nat) (f : option nat * bytes) : option bytes :=
  if decide (f.1 = Some x) then Some f.2 else None.

Definition frames_of (x : nat) (c : conn) : list bytes := omap (frame_of x) (written c).

Definition event_frame (ev : QueryEvent) : bytes := marshal_message (event_message ev).

(** What a subscription sent to the client, what it still holds, and why it ended. *)
Definition flow_at (ch : option channel) (p : option pumping) (frames : list bytes) (gone : Prop) : Prop :=
  match ch with
  | None => p = None /\ frames = []
  | Some ch =>
    exists fwd rest, ch_sent ch = fwd ++ rest /\ frames = map event_frame fwd /\
      match p with
      | Some PSelect => rest = ch_buf ch
      | Some (PWrite ev) => rest = ev :: ch_buf ch
      | Some PEnd | None => gone \/ (rest = [] /\ ch_closed ch = true)
      end
  end.

Definition cut (c : conn) (x : nat) : Prop := x ∈ stopped c \/ x ∈ failed c.

Definition flow_of (c : conn) (x : nat) : Prop :=
  flow_at (channels c !! x) (snd <$> pumps c !! x) (frames_of x c) (cut c x).

Record flow_ok (c : conn) : Prop := {
  fl_fresh y : (next_ctx c <= y)%nat -> channels c !! y = None;
  fl_reader : match reader c with Subscribing _ x => channels c !! x = None | _ => True end;
  fl_at x : flow_of c x
}.

Lemma flow_mono ch p frames (P Q : Prop) : (P -> Q) -> flow_at ch p frames P -> flow_at ch p frames Q.
Proof.
  intros HPQ. destruct ch as [ch|]; [|done]. intros (fwd & rest & ? & ? & Hp). exists fwd, rest.
  split_and!; [done..|]. destruct p as [[]|]; tauto.
Qed.

Lemma flow_same c c' x :
  channels c' !! x = channels c !! x -> pumps c' !! x = pumps c !! x -> frames_of x c' = frames_of x c ->
  (cut c x -> cut c' x) -> flow_of c x -> flow_of c' x.
Proof. unfold flow_of. intros -> -> ->. apply flow_mono. Qed.

Lemma cut_mono c c' x : stopped c ⊆ stopped c' -> failed c ⊆ failed c' -> cut c x -> cut c' x.
Proof. unfold cut. set_solver. Qed.

(** Steps that only cancel contexts. *)
Lemma flow_cancels c c' :
  flow_ok c -> channels c' = channels c -> pumps c' = pumps c -> (forall x, frames_of x c' = frames_of x c) ->
  stopped c ⊆ stopped c' -> failed c ⊆ failed c' ->
  (next_ctx c <= next_ctx c')%nat ->
  match reader c' with Subscribing _ x => channels c !! x = None | _ => True end -> flow_ok c'.
Proof.
  intros [Hf Hr Ha] E1 E2 E3 E5 E6 E7 E8. split.
  - intros y Hy. rewrite E1. apply Hf. lia.
  - destruct (reader c'); try done. by rewrite E1.
  - intros x. apply (flow_same c); [by rewrite E1|by rewrite E2|done| |apply Ha]. by apply cut_mono.
Qed.

(** Steps of one subscription. *)
Lemma flow_one c c' x0 :
  flow_ok c -> (forall x, x <> x0 -> channels c' !! x = channels c !! x) ->
  (forall x, x <> x0 -> pumps c' !! x = pumps c !! x) -> (forall x, x <> x0 -> frames_of x c' = frames_of x c) ->
  stopped c ⊆ stopped c' -> failed c ⊆ failed c' ->
  next_ctx c' = next_ctx c ->
  reader c' = reader c -> is_Some (channels c !! x0) -> flow_of c' x0 -> flow_ok c'.
Proof.
  intros [Hf Hr Ha] E1 E2 E3 E5 E6 E7 E8 Hx0 Hx. split.
  - intros y Hy. rewrite E7 in Hy. rewrite E1; [by apply Hf|]. intros ->. rewrite (Hf _ Hy) in Hx0. by destruct Hx0.
  - rewrite E8. destruct (reader c) as [|q x| | |]; try done. rewrite E1; [done|]. intros ->. rewrite Hr in Hx0. by destruct Hx0.
  - intros x. destruct (decide (x = x0)) as [->|Hne]; [done|].
    apply (flow_same c); [by apply E1|by apply E2|by apply E3| |apply Ha]. by apply cut_mono.
Qed.

Lemma frames_of_snoc x c c' who b :
  written c' = written c ++ [(who, b)] ->
  frames_of x c' = frames_of x c ++ (if decide (who = Some x) then [b] else []).
Proof. unfold frames_of. intros ->. rewrite omap_app. simpl. unfold frame_of. simpl. by destruct (decide _). Qed.

Lemma subscribe_flow q c : flow_ok c -> flow_ok (subscribe q c).
Proof.
  intros Hok. unfold subscribe. destruct (subs c !! q); [done|].
  destruct (_ <=? _)%nat; apply (flow_cancels c); try done; simpl; [lia|]. by apply (fl_fresh c Hok).
Qed.

Lemma unsubscribe_flow q c : flow_ok c -> flow_ok (unsubscribe q c).
Proof.
  intros Hok. destruct (unsubscribe_frame q c) as (En & Ep & Er & _ & _ & Ec & Ew & Ef & Es & _).
  apply (flow_cancels c); try done.
  - intros x. unfold frames_of. by rewrite Ew.
  - by rewrite Es.
  - by rewrite Ef.
  - by rewrite En.
  - rewrite Er. apply (fl_reader c Hok).
Qed.

Lemma on_frame_flow typ data c : flow_ok c -> flow_ok (on_frame typ data c).
Proof.
  intros Hok. unfold on_frame. destruct typ; [|done]. destruct (unmarshal_client data) as [m|]; [|done].
  unfold on_message. repeat case_bool_decide; [done|by apply subscribe_flow|by apply unsubscribe_flow|done].
Qed.

Lemma watched_flow watched q x c :
  conn_ok c -> flow_ok c -> reader c = Subscribing q x ->
  flow_ok (subscribed ((fun '(evs, over) => mkChannel evs over evs) <$> watched) q x c).
Proof.
  intros Hc Hok Hr. pose proof (fl_reader c Hok) as Hx. pose proof (ok_reader c Hc) as Hx'. rewrite Hr in Hx, Hx'.
  destruct watched as [[evs over]|]; simpl.
  - destruct Hok as [Hf _ Ha]. split; [| done|].
    + intros y Hy. simpl. rewrite lookup_insert_ne; [by apply Hf|]. simpl in Hy. destruct Hx'. lia.
    + intros y. destruct (decide (y = x)) as [->|Hne].
      * unfold flow_of. simpl. rewrite !lookup_insert_eq. simpl. exists [], evs. split_and!; try done.
        specialize (Ha x). unfold flow_of in Ha. rewrite Hx in Ha. by destruct Ha.
      * apply (flow_same c); simpl; [by rewrite lookup_insert_ne|by rewrite lookup_insert_ne|done|by apply cut_mono|apply Ha].
  - apply (flow_cancels (unsubscribe q c)); try done; by apply unsubscribe_flow.
Qed.

Lemma select_flow p x q c c' :
  flow_ok c -> pumps c !! x = Some (q, PSelect) -> pump_select p x q c = Some c' -> flow_ok c'.
Proof.
  intros Hok Hx. pose proof (fl_at c Hok x) as Hat. unfold flow_of in Hat. rewrite Hx in Hat.
  destruct (channels c !! x) as [ch|] eqn:Hch; [|by destruct Hat].
  destruct Hat as (fwd & rest & Hs & Hfr & Hrest). simpl in Hrest. subst rest.
  assert (forall p' ch', flow_at (Some ch') (Some p') (frames_of x c) (cut c x) ->
    flow_ok (set_pumps (<[x := (q, p')]> (pumps c)) (set_channels (<[x := ch']> (channels c)) c))) as Hset.
  { intros p' ch' Hf. apply (flow_one c _ x); try done; simpl.
    - intros y Hy. by rewrite lookup_insert_ne.
    - intros y Hy. by rewrite lookup_insert_ne.
    - unfold flow_of. simpl. by rewrite !lookup_insert_eq. }
  assert (forall p', flow_at (Some ch) (Some p') (frames_of x c) (cut c x) ->
    flow_ok (set_pumps (<[x := (q, p')]> (pumps c)) c)) as Hset'.
  { intros p' Hf. apply Hset in Hf. rewrite (insert_id (channels c)) in Hf by done. destruct c. exact Hf. }
  unfold pump_select. rewrite Hch. destruct p.
  - destruct (ctx_done c x); [|done]. intros [= <-]. apply (flow_one c _ x); try done; simpl.
    + intros y Hy. by rewrite lookup_insert_ne.
    + set_solver.
    + unfold flow_of. simpl. rewrite Hch, lookup_insert_eq. exists fwd, (ch_buf ch). split_and!; try done.
      left. left. set_solver.
  - destruct (ch_buf ch) as [|ev rest] eqn:Hb.
    + destruct (ch_closed ch) eqn:Hcl; [|done]. intros [= <-]. apply Hset'. exists fwd, []. split_and!; try done. by right.
    + intros [= <-]. apply Hset. by exists fwd, (ev :: rest).
Qed.

Lemma write_flow ok x q ev c :
  flow_ok c -> pumps c !! x = Some (q, PWrite ev) -> flow_ok (pump_write ok x q ev c).
Proof.
  intros Hok Hx. pose proof (fl_at c Hok x) as Hat. unfold flow_of in Hat. rewrite Hx in Hat.
  destruct (channels c !! x) as [ch|] eqn:Hch; [|by destruct Hat].
  destruct Hat as (fwd & rest & Hs & Hfr & Hrest). simpl in Hrest. subst rest.
  unfold pump_write, write. destruct ok.
  - apply (flow_one c _ x); try done; simpl.
    + intros y Hy. by rewrite lookup_insert_ne.
    + intros y Hy. erewrite (frames_of_snoc y c) by reflexivity. rewrite decide_False by congruence. apply app_nil_r.
    + unfold flow_of. erewrite (frames_of_snoc x c) by reflexivity. simpl.
      rewrite Hch, lookup_insert_eq, Hfr, decide_True by done. simpl. exists (fwd ++ [ev]), (ch_buf ch).
      by rewrite map_app, <- app_assoc.
  - apply (flow_one c _ x); try done; simpl.
    + intros y Hy. by rewrite lookup_insert_ne.
    + set_solver.
    + unfold flow_of. simpl. rewrite Hch, lookup_insert_eq. simpl. exists fwd, (ev :: ch_buf ch).
      split_and!; try done. left. right. set_solver.
Qed.

Lemma ends_flow q x c : flow_ok c -> pumps c !! x = Some (q, PEnd) -> flow_ok (pump_ends q x c).
Proof.
  intros Hok Hx. unfold pump_ends. apply (unsubscribe_flow q) in Hok.
  destruct (unsubscribe_frame q c) as (_ & Ep & _). rewrite <- Ep in *. pose proof (fl_at _ Hok x) as Hat. unfold flow_of in Hat.
  rewrite Hx in Hat. destruct (channels (unsubscribe q c) !! x) as [ch|] eqn:Hch; [|by destruct Hat].
  apply (flow_one (unsubscribe q c) _ x); try done.
  - intros y Hy. cbn [pumps set_pumps]. by rewrite lookup_delete_ne.
  - unfold flow_of. cbn [pumps set_pumps channels]. by rewrite Hch, lookup_delete_eq.
Qed.

Lemma send_flow x ev c c' : flow_ok c -> step (LSend x ev) c = Some c' -> flow_ok c'.
Proof.
  intros Hok. simpl. destruct (channels c !! x) as [ch|] eqn:Hch; [|done]. destruct (ch_closed ch) eqn:Hcl; [done|].
  intros [= <-]. apply (flow_one c _ x); try done; simpl.
  - intros y Hy. by rewrite lookup_insert_ne.
  - pose proof (fl_at c Hok x) as Hat. unfold flow_of in *. simpl. rewrite lookup_insert_eq. rewrite Hch in Hat.
    destruct Hat as (fwd & rest & Hs & Hfr & Hp). exists fwd, (rest ++ [ev]). simpl. split_and!; [by rewrite Hs, app_assoc|done|].
    destruct (snd <$> pumps c !! x) as [[| |]|]; try by subst rest.
    + destruct Hp as [?|[_ ?]]; [by left|congruence].
    + destruct Hp as [?|[_ ?]]; [by left|congruence].
Qed.

Lemma close_flow x c c' : flow_ok c -> step (LCloseChannel x) c = Some c' -> flow_ok c'.
Proof.
  intros Hok. simpl. destruct (channels c !! x) as [ch|] eqn:Hch; [|done].
  intros [= <-]. apply (flow_one c _ x); try done; simpl.
  - intros y Hy. by rewrite lookup_insert_ne.
  - pose proof (fl_at c Hok x) as Hat. unfold flow_of in *. simpl. rewrite lookup_insert_eq. rewrite Hch in Hat.
    destruct Hat as (fwd & rest & Hs & Hfr & Hp). exists fwd, rest. simpl. split_and!; [done..|].
    destruct (snd <$> pumps c !! x) as [[| |]|]; try done; by destruct Hp as [?|[? _]]; [left|right].
Qed.

Lemma step_flow l c c' : conn_ok c -> flow_ok c -> step l c = Some c' -> flow_ok c'.
Proof.
  intros Hc Hok. destruct l; [| |by apply send_flow|by apply close_flow| | | | | | |]; simpl.
  - destruct (reader c) eqn:E; try done. intros [= <-]. by apply on_frame_flow.
  - destruct (reader c) eqn:E; try done. intros [= <-]. by apply (flow_cancels c).
  - intros [= <-]. apply (flow_cancels c); try done. simpl. apply (fl_reader c Hok).
  - destruct (reader c) eqn:E; try done. intros [= <-]. by apply watched_flow.
  - destruct (reader c) eqn:E; try done. intros [= <-]. unfold writeError, write. destruct ok; apply (flow_cancels c); try done.
    intros x. erewrite (frames_of_snoc x c) by reflexivity. rewrite decide_False by done. apply app_nil_r.
  - destruct (pumps c !! x) as [[q []]|] eqn:E; try done. by apply select_flow.
  - destruct (pumps c !! x) as [[q []]|] eqn:E; try done. intros [= <-]. by apply write_flow.
  - destruct (pumps c !! x) as [[q []]|] eqn:E; try done. intros [= <-]. by apply ends_flow.
  - destruct (reader c) eqn:E; try done. case_bool_decide as Hp; [|done]. intros [= <-]. by apply (flow_cancels c).
Qed.

Lemma reachable_flow c : reachable c -> conn_ok c /\ flow_ok c.
Proof.
  intros (q & c0 & H0 & Hr). eapply (rtc_steps_inv (fun c => conn_ok c /\ flow_ok c)); [| |exact Hr].
  - intros l d d' [Ho Hf] Hl. split; [by eapply step_ok|by eapply step_flow].
  - split; [by eapply ServeHTTP_ok|]. assert (flow_ok new_conn) as Hn by by split.
    unfold ServeHTTP in H0. case_bool_decide; simplify_eq; [done|by apply subscribe_flow].
Qed.

(** C25. What a client is sent for a subscription is a prefix of the events the query
    manager sent on its channel, in their order, each as one JSON message. Nothing is
    missing while the subscription runs but the events still in the channel and the
    one being written; and when it has ended, then because it found itself cancelled, because
    the client could not be written to, or because the channel was closed and every
    event was sent. *)
Theorem events_forwarded c x ch :
  reachable c -> channels c !! x = Some ch ->
  exists fwd rest, ch_sent ch = fwd ++ rest /\ frames_of x c = map event_frame fwd /\
    match pumps c !! x with
    | Some (_, PSelect) => rest = ch_buf ch
    | Some (_, PWrite ev) => rest = ev :: ch_buf ch
    | Some (_, PEnd) | None =>
      x ∈ stopped c \/ x ∈ failed c \/ (rest = [] /\ ch_closed ch = true)
    end.
Proof.
  intros [_ Hf]%reachable_flow Hch. pose proof (fl_at c Hf x) as Hat. unfold flow_of in Hat. rewrite Hch in Hat.
  destruct Hat as (fwd & rest & ? & ? & Hp). exists fwd, rest. split_and!; [done..|].
  destruct (pumps c !! x) as [[q []]|]; simpl in Hp; try done; destruct Hp as [[?|?]|?]; auto.
Qed.

(** ** The handler returns *)

(** What is left for a pump to do: every event takes two steps, and it ends in one. *)
Definition pump_work (c : conn) (x : nat) (p : string * pumping) : nat :=
  let held := match channels c !! x with Some ch => length (ch_buf ch) | None => 0%nat end in
  match p.2 with PSelect => 2 * held + 2 | PWrite _ => 2 * held + 3 | PEnd => 1 end%nat.

Definition total (f : nat -> string * pumping -> nat) (m : gmap nat (string * pumping)) : nat :=
  map_fold (fun x p n => (f x p + n)%nat) 0%nat m.

Definition work (c : conn) : nat := (total (pump_work c) (pumps c) + match reader c with Waiting => 1 | _ => 0 end)%nat.

Lemma total_delete f m x p : m !! x = Some p -> total f m = (f x p + total f (delete x m))%nat.
Proof. intros Hx. unfold total. by rewrite (map_fold_delete_L _ _ x p m) by (try done; intros; lia). Qed.

Lemma total_insert f m x p : total f (<[x := p]> m) = (f x p + total f (delete x m))%nat.
Proof. rewrite (total_delete _ _ x p) by apply lookup_insert_eq. by rewrite delete_insert_eq. Qed.

Lemma total_ext f g m : (forall x p, m !! x = Some p -> f x p = g x p) -> total f m = total g m.
Proof.
  induction m as [|x p m Hx IH] using map_ind; [done|]. intros Hfg.
  rewrite !total_insert, !delete_id by done. rewrite IH; [by rewrite Hfg by apply lookup_insert_eq|].
  intros y r Hy. apply Hfg. rewrite lookup_insert_ne; [done|congruence].
Qed.

(** A pump that moves on with less to do, the others as before. *)
Lemma work_pump c c' x p p' :
  pumps c !! x = Some p -> pumps c' = <[x := p']> (pumps c) ->
  (forall y, y <> x -> channels c' !! y = channels c !! y) -> reader c' = reader c ->
  (pump_work c' x p' < pump_work c x p)%nat -> (work c' < work c)%nat.
Proof.
  intros Hx Hp Hch Hr Hlt. unfold work. rewrite Hp, Hr, total_insert, (total_delete _ _ _ _ Hx).
  rewrite (total_ext (pump_work c') (pump_work c)); [lia|].
  intros y r [Hne _]%lookup_delete_Some. unfold pump_work. by rewrite Hch.
Qed.

(** Once the handler has left its loop, each step of the connection's own goroutines
    leaves less to do. *)
Lemma own_step_works l c c' :
  reader c = Waiting \/ reader c = Returned -> own l = true -> step l c = Some c' ->
  (work c' < work c)%nat /\ (reader c' = Waiting \/ reader c' = Returned).
Proof.
  intros Hr Ho. destruct l; try done; simpl.
  - by destruct Hr as [->| ->].
  - by destruct Hr as [->| ->].
  - destruct (pumps c !! x) as [[q []]|] eqn:E; try done. unfold pump_select. destruct p.
    + destruct (ctx_done c x); [|done]. intros [= <-]. split; [|done]. eapply (work_pump c); try done. unfold pump_work. simpl. lia.
    + destruct (channels c !! x) as [ch|] eqn:Ech; [|done]. destruct (ch_buf ch) as [|ev rest] eqn:Eb.
      * destruct (ch_closed ch); [|done]. intros [= <-]. split; [|done]. eapply (work_pump c); try done. unfold pump_work. simpl. lia.
      * intros [= <-]. split; [|done]. eapply (work_pump c); try done.
        -- intros y Hy. simpl. by rewrite lookup_insert_ne.
        -- unfold pump_work. simpl. rewrite lookup_insert_eq, Ech, Eb. simpl. lia.
  - destruct (pumps c !! x) as [[q []]|] eqn:E; try done. intros [= <-]. unfold pump_write, write.
    destruct ok; (split; [|done]); eapply (work_pump c); try done; unfold pump_work; simpl; lia.
  - destruct (pumps c !! x) as [[q []]|] eqn:E; try done. intros [= <-]. unfold pump_ends.
    destruct (unsubscribe_frame q c) as (_ & Ep & Er & _ & _ & Ec & _).
    unfold work. cbn [pumps set_pumps reader]. rewrite Er. split; [|done].
    rewrite (total_delete _ _ _ _ E). erewrite (total_ext _ (pump_work c)); [unfold pump_work at 2; simpl; lia|].
    intros y r _. unfold pump_work. cbn [channels set_pumps]. by rewrite Ec.
  - destruct (reader c) eqn:E; try done. case_bool_decide; [|done]. intros [= <-]. split; [|by right].
    unfold work. simpl. rewrite E. unfold total, pump_work. simpl. lia.
Qed.

(** And as long as it has not returned there is such a step: a pump sees that its
    context is done, the connection answers its write, or it ends. *)
Lemma waiting_progress c : conn_ok c -> reader c = Waiting -> exists l c', own l = true /\ step l c = Some c'.
Proof.
  intros [_ Hr Hp Hd] Hw. rewrite Hw in Hd. destruct (map_choose_or_empty (pumps c)) as [(x & [q p] & Hx)|He].
  - destruct p as [|ev|].
    + exists (LSelect x PickDone). simpl. rewrite Hx. unfold ctx_done. simpl.
      destruct (Hp _ _ _ Hx) as [_ [Hc|Hs]]; [|by rewrite Hd, lookup_empty in Hs].
      rewrite bool_decide_eq_true_2, orb_true_r by done. eauto.
    + exists (LWrite x true). simpl. rewrite Hx. eauto.
    + exists (LPumpEnds x). simpl. rewrite Hx. eauto.
  - exists LReturn. simpl. rewrite Hw, bool_decide_eq_true_2 by done. eauto.
Qed.

Definition own_steps (c c' : conn) : Prop := exists l, own l = true /\ step l c = Some c'.

Lemma own_steps_steps c c' : rtc own_steps c c' -> rtc steps c c'.
Proof. intros H. eapply rtc_subrel; [|exact H]. intros d d' (l & _ & Hl). by exists l. Qed.

Lemma own_steps_bounded n c c' :
  reader c = Waiting \/ reader c = Returned -> nsteps own_steps n c c' ->
  (n + work c' <= work c)%nat /\ (reader c' = Waiting \/ reader c' = Returned).
Proof.
  intros Hr Hn. induction Hn as [|n c c1 c' (l & Ho & Hl) _ IH]; [done|].
  apply own_step_works in Hl as [Hlt Hr1]; [|done..]. destruct (IH Hr1) as [Hle Hr']. split; [lia|done].
Qed.

(** C23. Once the client is gone, or cannot be read from, the handler returns: its own
    goroutines take a bounded number of steps, whatever the channels still hold, and
    are never stuck before the handler has returned. By then every pump has ended, no
    subscription is left, every context is done and the connection is closed. *)
Theorem handler_returns c :
  reachable c -> reader c = Waiting ->
  (forall n c', nsteps own_steps n c c' -> (n <= work c)%nat) /\
  (forall c', rtc own_steps c c' -> (forall c'', ~ own_steps c' c'') -> reader c' = Returned) /\
  (forall c', rtc steps c c' -> reader c' = Returned ->
     pumps c' = ∅ /\ subs c' = ∅ /\ closed c' = true /\ forall x, ctx_done c' x = true).
Proof.
  intros Hre Hw. apply reachable_ok in Hre as Hok. split_and!.
  - intros n c' Hn. apply own_steps_bounded in Hn as [Hle _]; [lia|by left].
  - intros c' Hr Hstuck. pose proof (own_steps_steps _ _ Hr) as Hs. apply rtc_nsteps in Hr as [n Hn].
    apply own_steps_bounded in Hn as [_ [Hw'|?]]; [|done|by left]. exfalso.
    assert (conn_ok c') as Hok' by (by eapply rtc_steps_inv; [apply step_ok| |]).
    destruct (waiting_progress c' Hok' Hw') as (l & c'' & Ho & Hl). by apply (Hstuck c''); exists l.
  - intros c' Hr Hret. assert (conn_ok c') as Hok' by (by eapply rtc_steps_inv; [apply step_ok| |]).
    pose proof (ok_reader c' Hok') as Hd. rewrite Hret in Hd. destruct Hd as (? & ? & Hp & ?).
    split_and!; [done..|]. intros x. unfold ctx_done. by rewrite Hp.
Qed.

(** ** Examples *)

Lemma run_labels_steps ls c c' : run_labels ls c = Some c' -> rtc steps c c'.
Proof.
  revert c. induction ls as [|l ls IH]; intros c; simpl; [intros [= ->]; done|].
  destruct (step l c) as [c1|] eqn:Hl; [|done]. intros H. eapply rtc_l; [by exists l|by apply IH].
Qed.

Definition conn_of (ls : list label) : conn := default new_conn (run_labels ls new_conn).

Lemma conn_of_reachable ls : is_Some (run_labels ls new_conn) -> reachable (conn_of ls).
Proof.
  intros [c Hc]. exists "", new_conn. split; [done|]. apply (run_labels_steps ls). unfold conn_of. by rewrite Hc.
Qed.

(** The messages of a client, as JSON. *)
Definition marshal_client (m : ClientMessage) : bytes :=
  print (JObj (member "action" (json_string (cm_Action m)) ++ member "query_id" (json_string (cm_QueryID m)))).

Lemma client_roundtrip m :
  text_ok (cm_Action m) -> text_ok (cm_QueryID m) -> unmarshal_client (marshal_client m) = Some m.
Proof.
  intros Ha Hq. unfold unmarshal_client, marshal_client.
  destruct (wf_JObj 0 (member "action" (json_string (cm_Action m)) ++ member "query_id" (json_string (cm_QueryID m)))) as [Hwf Hh].
  { lia. } { apply members_ok_app; apply member_leaf; auto using leaf_string; lia. }
  rewrite parse_print by (done || unfold maxNestingDepth; lia). cbn [mbind option_bind].
  destruct m as [action q]. cbn [cm_Action cm_QueryID decode_struct] in *.
  rewrite decode_member by (vm_compute; reflexivity). unfold set_client at 2. rewrite bool_decide_eq_true_2 by done.
  rewrite decode_json_string by done. cbn [mbind option_bind fmap option_fmap option_map cm_QueryID].
  rewrite decode_last by (vm_compute; reflexivity). unfold set_client. rewrite bool_decide_eq_false_2 by done.
  by rewrite decode_json_string.
Qed.

Definition watch (q : string) : label := LFrame MessageText (marshal_client (mkClientMessage "watch" q)).
Definition unwatch (q : string) : label := LFrame MessageText (marshal_client (mkClientMessage "unwatch" q)).

Definition demo_event (s : QueryState) : QueryEvent := mkEvent "q" s zero_stats None.

(** A client watches a query to its end. *)
Definition watched_to_end : list label :=
  [watch "q"; LWatched (Some ([demo_event StateRunning], false)); LSelect 0 PickChannel; LWrite 0 true;
   LSend 0 (demo_event StateSucceeded); LCloseChannel 0; LSelect 0 PickChannel; LWrite 0 true;
   LSelect 0 PickChannel; LPumpEnds 0].

Lemma events_forwarded_witness :
  frames_of 0 (conn_of watched_to_end) = map event_frame [demo_event StateRunning; demo_event StateSucceeded].
Proof.
  assert (reachable (conn_of watched_to_end)) as Hre by (apply conn_of_reachable; vm_compute; eauto).
  destruct (events_forwarded (conn_of watched_to_end) 0
    (mkChannel [] true [demo_event StateRunning; demo_event StateSucceeded]) Hre) as (fwd & rest & Hs & Hf & Hp);
    [vm_compute; reflexivity|].
  rewrite Hf. replace (pumps (conn_of watched_to_end) !! 0%nat) with (@None (string * pumping)) in Hp by (vm_compute; reflexivity).
  destruct Hp as [Hp|[Hp|[-> _]]].
  - apply (bool_decide_eq_true_2 _) in Hp. vm_compute in Hp. discriminate Hp.
  - apply (bool_decide_eq_true_2 _) in Hp. vm_compute in Hp. discriminate Hp.
  - rewrite app_nil_r in Hs. cbn [ch_sent] in Hs. by rewrite <- Hs.
Defined.

(** The client is gone while an event is being written. *)
Definition client_gone : list label :=
  [watch "q"; LWatched (Some ([demo_event StateRunning; demo_event StateRunning], false)); LSelect 0 PickChannel; LReadFails].

Lemma handler_returns_witness :
  work (conn_of client_gone) = 6%nat /\
  forall n c', nsteps own_steps n (conn_of client_gone) c' -> (n <= 6)%nat.
Proof.
  assert (reachable (conn_of client_gone)) as Hre by (apply conn_of_reachable; vm_compute; eauto).
  destruct (handler_returns (conn_of client_gone) Hre) as (Hb & _); [vm_compute; reflexivity|].
  split; [vm_compute; reflexivity|]. intros n c' Hn. exact (Hb n c' Hn).
Defined.

(** A client watches a query, gives it up and watches it again; the goroutine of
    the first subscription has not ended yet. *)
Definition rewatched : conn :=
  conn_of [watch "q"; LWatched (Some ([], false)); unwatch "q"; watch "q"; LWatched (Some ([], false))].

Lemma rewatched_reachable : reachable rewatched.
Proof. apply conn_of_reachable. vm_compute. eauto. Qed.

Lemma connection_bounded_witness :
  (size (subs rewatched) <= maxSubscriptionsPerConn)%nat /\ subs rewatched !! "q" = Some 1%nat.
Proof.
  split; [|vm_compute; reflexivity]. apply (connection_bounded rewatched). exact rewatched_reachable.
Defined.

(** When that goroutine ends it cancels the second subscription: the client, which
    is still watching the query, receives no further event of it. *)
Lemma rewatch_lost :
  exists c, run_labels [LSelect 0 PickDone; LPumpEnds 0] rewatched = Some c /\ reachable c /\
    reader c = Reading /\ pumps c !! 1%nat = Some ("q", PSelect) /\ ctx_done c 1 = true /\ subs c !! "q" = None.
Proof.
  exists (default new_conn (run_labels [LSelect 0 PickDone; LPumpEnds 0] rewatched)).
  assert (run_labels [LSelect 0 PickDone; LPumpEnds 0] rewatched =
          Some (default new_conn (run_labels [LSelect 0 PickDone; LPumpEnds 0] rewatched))) as E by (vm_compute; reflexivity).
  split; [exact E|]. split_and!; [|vm_compute; reflexivity..].
  destruct rewatched_reachable as (q & c0 & H0 & Hr). exists q, c0. split; [done|].
  etrans; [exact Hr|]. exact (run_labels_steps _ _ _ E).
Qed.
