(* ===== verification/RateLimit.v ===== *)
(** * Rate limiting

    [internal/ratelimit/ratelimit.go]: one token bucket per caller, and the
    eviction of buckets that have not been used for ten minutes. The bucket is
    [golang.org/x/time/rate]'s and is an argument here; what is assumed of it is
    that a bucket left alone for long enough answers as a new one. *)

From Stdlib Require Import SpecFloat.
From S2P Require Import Prelude.

Definition idleEviction : Z := 10 * Minute.

(** ** Callers *)

(** The position of the first and of the last occurrence of a byte. *)
Fixpoint index_byte (c : Ascii.ascii) (s : string) : option nat :=
  match s with
  | "" => None
  | String d s => if bool_decide (c = d) then Some 0%nat else S <$> index_byte c s
  end%string.

Fixpoint last_index_byte (c : Ascii.ascii) (s : string) : option nat :=
  match s with
  | "" => None
  | String d s =>
      match last_index_byte c s with
      | Some i => Some (S i)
      | None => if bool_decide (c = d) then Some 0%nat else None
      end
  end%string.

Definition has_byte (c : Ascii.ascii) (s : string) : bool :=
  match index_byte c s with Some _ => true | None => false end.

Definition colon : Ascii.ascii := Ascii.ascii_of_nat 58.
Definition lbracket : Ascii.ascii := Ascii.ascii_of_nat 91.
Definition rbracket : Ascii.ascii := Ascii.ascii_of_nat 93.

(** The host [net.SplitHostPort] returns, [None] for an error. *)
Definition SplitHostPort (hostport : string) : option string :=
  match last_index_byte colon hostport with
  | None => None
  | Some i =>
      let finish host j k :=
        if has_byte lbracket (string_drop j hostport) || has_byte rbracket (string_drop k hostport)
        then None else Some host in
      if bool_decide (index_byte lbracket hostport = Some 0%nat) then
        match index_byte rbracket hostport with
        | None => None
        | Some e =>
            if (e + 1 =? i)%nat
            then finish (string_take (e - 1) (string_drop 1 hostport)) 1%nat (e + 1)%nat
            else None
        end
      else
        let host := string_take i hostport in
        if has_byte colon host then None else finish host 0%nat 0%nat
  end.

(** [clientIP] is what chi's middleware resolved, empty when it is not installed. *)
Definition clientAddr (clientIP remoteAddr : string) : string :=
  if negb (bool_decide (clientIP = "")) then clientIP
  else default remoteAddr (SplitHostPort remoteAddr).

Definition KeyOf (clientIP remoteAddr : string) : string := "addr:" +:+ clientAddr clientIP remoteAddr.

(** ** The limiter *)

(** [rate.NewLimiter] and its [Allow] at an instant. *)
Class TokenBucket (B : Type) := {
  NewLimiter : spec_float -> Z -> B;
  bucket_Allow : time -> B -> bool * B
}.

Section Limiter.
Context {B : Type} `{TokenBucket B}.

Record entry := mkEntry { e_limiter : B; lastUse : time }.

Record Limiter := mkLimiter {
  entries : gmap string entry;
  rps : spec_float;
  burst : Z;
  lastPurge : time
}.

(** [None] is the nil limiter, which allows everything. *)
Definition New (r : spec_float) (b : Z) : option Limiter :=
  if SFleb r (S754_zero false) then None
  else Some (mkLimiter ∅ r (if b <=? 0 then 1 else b) zero_time).

Definition purgeLocked (now : time) (l : Limiter) : Limiter :=
  if time_sub now (lastPurge l) <? idleEviction then l
  else mkLimiter (filter (fun kv => time_sub now (lastUse kv.2) <= idleEviction) (entries l))
         (rps l) (burst l) now.

(** [now] is the limiter's reading of the clock and [now'] the bucket's. *)
Definition Allow_at (now now' : time) (key : string) (l : Limiter) : bool * Limiter :=
  let l := purgeLocked now l in
  let b := match entries l !! key with
           | Some e => e_limiter e
           | None => NewLimiter (rps l) (burst l)
           end in
  let '(ok, b') := bucket_Allow now' b in
  (ok, mkLimiter (<[key := mkEntry b' now]> (entries l)) (rps l) (burst l) (lastPurge l)).

Definition Allow (now now' : time) (key : string) (l : option Limiter) : bool * option Limiter :=
  match l with
  | None => (true, None)
  | Some l => let '(ok, l) := Allow_at now now' key l in (ok, Some l)
  end.

(** ** Requests in sequence *)

Record request := mkRequest { r_now : time; r_now' : time; r_key : string }.

Fixpoint serve (reqs : list request) (l : Limiter) : list (string * bool) * Limiter :=
  match reqs with
  | [] => ([], l)
  | r :: reqs =>
      let '(ok, l) := Allow_at (r_now r) (r_now' r) (r_key r) l in
      let '(out, l) := serve reqs l in
      ((r_key r, ok) :: out, l)
  end.

(** A bucket used at the given instants. *)
Fixpoint decisions (ts : list time) (b : B) : list bool :=
  match ts with
  | [] => []
  | t :: ts => (bucket_Allow t b).1 :: decisions ts (bucket_Allow t b).2
  end.

Definition after (ts : list time) (b : B) : B := fold_left (fun b t => (bucket_Allow t b).2) ts b.

Fixpoint ordered (t : time) (ts : list time) : Prop :=
  match ts with
  | [] => True
  | u :: ts => t <= u /\ ordered u ts
  end.

(** Two buckets that answer alike from [t] on. *)
Definition same_from (t : time) (b1 b2 : B) : Prop :=
  forall ts, ordered t ts -> decisions ts b1 = decisions ts b2.

Lemma same_from_refl t b : same_from t b b.
Proof. by intros ts _. Qed.

Lemma same_from_sym t b1 b2 : same_from t b1 b2 -> same_from t b2 b1.
Proof. intros Hs ts Ho. symmetry. by apply Hs. Qed.

Lemma same_from_trans t b1 b2 b3 : same_from t b1 b2 -> same_from t b2 b3 -> same_from t b1 b3.
Proof. intros H1 H2 ts Ho. by rewrite (H1 ts Ho), (H2 ts Ho). Qed.

#[local] Instance same_from_equivalence t : Equivalence (same_from t).
Proof.
  split; [intros b; apply same_from_refl|intros b1 b2; apply same_from_sym|].
  intros b1 b2 b3. apply same_from_trans.
Qed.

Lemma ordered_le t t' ts : t <= t' -> ordered t' ts -> ordered t ts.
Proof. destruct ts; [done|]. simpl. intros ? [? ?]. split; [lia|done]. Qed.

Lemma same_from_le t t' b1 b2 : t <= t' -> same_from t b1 b2 -> same_from t' b1 b2.
Proof. intros Hle Hs ts Ho. by apply Hs, (ordered_le _ t'). Qed.

Lemma same_from_Allow t u b1 b2 :
  t <= u -> same_from t b1 b2 ->
  (bucket_Allow u b1).1 = (bucket_Allow u b2).1 /\
  same_from u (bucket_Allow u b1).2 (bucket_Allow u b2).2.
Proof.
  intros Hle Hs. split.
  - by injection (Hs [u] (conj Hle I)).
  - intros ts Ho. by injection (Hs (u :: ts) (conj Hle Ho)).
Qed.

(** The clock of a sequence of requests: readings do not go back, and the bucket
    reads it within [slack] of the limiter. *)
Fixpoint clocked (slack : Z) (t : time) (reqs : list request) : Prop :=
  match reqs with
  | [] => True
  | r :: reqs =>
      t <= r_now r /\ r_now r <= r_now' r <= r_now r + slack /\ clocked slack (r_now' r) reqs
  end.

Definition times_of (key : string) (reqs : list request) : list time :=
  map r_now' (List.filter (fun r => bool_decide (r_key r = key)) reqs).

Definition decisions_of (key : string) (out : list (string * bool)) : list bool :=
  map snd (List.filter (fun kb => bool_decide (kb.1 = key)) out).

Lemma decisions_of_cons key k ok out :
  decisions_of key ((k, ok) :: out) =
  if bool_decide (k = key) then ok :: decisions_of key out else decisions_of key out.
Proof. unfold decisions_of. simpl. by destruct (bool_decide _). Qed.

Lemma times_of_cons key req reqs :
  times_of key (req :: reqs) =
  if bool_decide (r_key req = key) then r_now' req :: times_of key reqs else times_of key reqs.
Proof. unfold times_of. simpl. by destruct (bool_decide _). Qed.

Lemma time_sub_lt t u d : int64_min < d <= int64_max -> time_sub t u < d <-> t - u < d.
Proof. unfold time_sub, int64_min, int64_max. lia. Qed.

Lemma time_sub_le t u d : int64_min <= d < int64_max -> time_sub t u <= d <-> t - u <= d.
Proof. unfold time_sub, int64_min, int64_max. lia. Qed.

Lemma idleEviction_int64 : int64_min < idleEviction < int64_max.
Proof. by vm_compute. Qed.

Lemma purgeLocked_lookup now l key e :
  entries (purgeLocked now l) !! key = Some e <->
  entries l !! key = Some e /\
  (now - lastPurge l < idleEviction \/ now - lastUse e <= idleEviction).
Proof.
  pose proof idleEviction_int64 as Hi. unfold purgeLocked.
  destruct (Z.ltb_spec (time_sub now (lastPurge l)) idleEviction) as [Hlt|Hge].
  - apply time_sub_lt in Hlt; [|lia]. naive_solver.
  - assert (~ now - lastPurge l < idleEviction) by (rewrite <- time_sub_lt by lia; lia).
    simpl. rewrite map_lookup_filter_Some. simpl. rewrite time_sub_le by lia. naive_solver.
Qed.

Lemma purgeLocked_same now l : rps (purgeLocked now l) = rps l /\ burst (purgeLocked now l) = burst l.
Proof. unfold purgeLocked. by destruct (_ <? _). Qed.

(** ** Eviction and other callers are invisible *)

Section Transparency.
Context (r : spec_float) (b : Z) (slack : Z).

(** A bucket that was not used for ten minutes, less the slack, answers as a new
    one: it is full again. *)
Hypothesis refills : forall ts t now,
  Forall (fun u => u <= t) ts -> t + idleEviction - slack < now ->
  same_from now (after ts (NewLimiter r b)) (NewLimiter r b).

(** The limiter's bucket for a caller answers as the bucket the caller would have
    had to itself, [own], would. *)
Definition tracks (now : time) (own : string -> B) (l : Limiter) : Prop :=
  rps l = r /\ burst l = b /\
  forall key,
    match entries l !! key with
    | Some e => same_from now (e_limiter e) (own key) /\ lastUse e <= now /\
                exists ts, e_limiter e = after ts (NewLimiter r b) /\
                           Forall (fun u => u <= lastUse e + slack) ts
    | None => same_from now (NewLimiter r b) (own key)
    end.

Lemma tracks_purge t now own l : t <= now -> tracks t own l -> tracks now own (purgeLocked now l).
Proof.
  intros Hle (Hr & Hb & Hl). destruct (purgeLocked_same now l) as [Hr' Hb'].
  split; [congruence|split; [congruence|]]. intros key. specialize (Hl key).
  destruct (entries (purgeLocked now l) !! key) as [e|] eqn:Hp.
  - apply purgeLocked_lookup in Hp as [He _]. rewrite He in Hl. destruct Hl as (Hs & Hu & Hts).
    split_and!; [by apply (same_from_le t)|lia|done].
  - destruct (entries l !! key) as [e|] eqn:He; [|by apply (same_from_le t)].
    destruct Hl as (Hs & _ & ts & Heq & Hts). apply (same_from_le t now) in Hs; [|done].
    etrans; [|exact Hs]. symmetry. rewrite Heq. apply (refills ts (lastUse e + slack)); [done|].
    destruct (Z_le_gt_dec (now - lastUse e) idleEviction); [|lia]. exfalso.
    assert (entries (purgeLocked now l) !! key = Some e); [|congruence].
    apply purgeLocked_lookup. auto.
Qed.

Lemma tracks_Allow t own l req ok l' :
  tracks t own l -> t <= r_now req -> r_now req <= r_now' req <= r_now req + slack ->
  Allow_at (r_now req) (r_now' req) (r_key req) l = (ok, l') ->
  ok = (bucket_Allow (r_now' req) (own (r_key req))).1 /\
  tracks (r_now' req)
    (fun key => if bool_decide (key = r_key req)
                then (bucket_Allow (r_now' req) (own key)).2 else own key) l'.
Proof.
  intros Ht Hle Hc. apply (tracks_purge t (r_now req)) in Ht; [|done].
  unfold Allow_at. destruct Ht as (Hr & Hb & Hl). set (l1 := purgeLocked (r_now req) l) in *.
  set (bk := match entries l1 !! r_key req with Some e => e_limiter e | None => _ end).
  assert (same_from (r_now req) bk (own (r_key req)) /\
          exists ts, bk = after ts (NewLimiter r b) /\ Forall (fun u => u <= r_now req + slack) ts)
    as [Hs (ts & Heq & Hts)].
  { specialize (Hl (r_key req)). subst bk. destruct (entries l1 !! r_key req) as [e|] eqn:He.
    - destruct Hl as (Hs & Hu & ts & Heq & Hts). split; [done|]. exists ts. split; [done|].
      eapply Forall_impl; [exact Hts|]. simpl. lia.
    - rewrite Hr, Hb. split; [done|]. by exists []. }
  destruct (same_from_Allow (r_now req) (r_now' req) _ _ ltac:(lia) Hs) as [Hok Hs'].
  destruct (bucket_Allow (r_now' req) bk) as [ok1 b'] eqn:Hbk. intros [= <- <-]. split; [done|].
  split; [done|split; [done|]]. intros key. simpl. case_bool_decide as Hk.
  - subst key. rewrite lookup_insert_eq. simpl. split_and!; [done|lia|].
    exists (ts ++ [r_now' req]). split.
    + unfold after. rewrite fold_left_app. fold (after ts (NewLimiter r b)). rewrite <- Heq. simpl.
      by rewrite Hbk.
    + apply Forall_app. split; [done|]. apply Forall_singleton. lia.
  - rewrite lookup_insert_ne by done. specialize (Hl key). destruct (entries l1 !! key) as [e|].
    + destruct Hl as (Hsk & Hu & Hts'). split_and!; [|lia|done].
      apply (same_from_le (r_now req)); [lia|done].
    + apply (same_from_le (r_now req)); [lia|done].
Qed.

Lemma serve_tracks t own l reqs key :
  tracks t own l -> clocked slack t reqs ->
  decisions_of key (serve reqs l).1 = decisions (times_of key reqs) (own key).
Proof.
  revert t own l. induction reqs as [|req reqs IH]; intros t own l Ht; [done|].
  cbn [clocked serve]. intros (Hle & Hc & Hcl).
  destruct (Allow_at (r_now req) (r_now' req) (r_key req) l) as [ok l1] eqn:Ha.
  destruct (tracks_Allow _ _ _ _ _ _ Ht Hle Hc Ha) as [-> Ht1].
  specialize (IH _ _ _ Ht1 Hcl). destruct (serve reqs l1) as [out l2]. cbn [fst] in *.
  rewrite decisions_of_cons, times_of_cons, IH. destruct (decide (r_key req = key)) as [<-|Hk].
  - by rewrite !bool_decide_eq_true_2.
  - by rewrite !bool_decide_eq_false_2 by congruence.
Qed.

(** C35. A caller's requests are decided as if it had a token bucket to itself:
    neither the requests of other callers nor the eviction of idle buckets
    changes any decision, provided a bucket is full again once it has been idle
    for the eviction time. *)
Theorem decided_per_caller l reqs key :
  New r b = Some l -> 0 < b -> clocked slack zero_time reqs ->
  decisions_of key (serve reqs l).1 = decisions (times_of key reqs) (NewLimiter r b).
Proof.
  unfold New. destruct (SFleb _ _); [done|]. intros [= <-] Hb Hc.
  apply (serve_tracks zero_time (fun _ => NewLimiter r b)); [|done].
  destruct (Z.leb_spec b 0); [lia|]. split_and!; [done..|]. intros k. simpl. apply same_from_refl.
Qed.

End Transparency.

(** ** The table of buckets is bounded *)

(** Every bucket belongs to a past request, not much older than the last purge. *)
Record table (past : list request) (t : time) (l : Limiter) : Prop := {
  tb_purge : lastPurge l <= t;
  tb_entry key e : entries l !! key = Some e ->
    lastPurge l - idleEviction <= lastUse e /\
    exists req, req ∈ past /\ r_key req = key /\ r_now req = lastUse e
}.

Lemma purgeLocked_table past t now l :
  t <= now -> table past t l ->
  table past now (purgeLocked now l) /\ now - lastPurge (purgeLocked now l) < idleEviction.
Proof.
  intros Hle [Hp He]. pose proof idleEviction_int64 as Hi.
  assert (0 < idleEviction) by by vm_compute. unfold purgeLocked.
  destruct (Z.ltb_spec (time_sub now (lastPurge l)) idleEviction) as [Hlt|Hge].
  - apply time_sub_lt in Hlt; [|lia]. split; [split; [lia|done]|done].
  - assert (~ now - lastPurge l < idleEviction) by (rewrite <- time_sub_lt by lia; lia).
    split; [|simpl; lia]. split; simpl; [lia|]. intros key e.
    rewrite map_lookup_filter_Some. simpl. rewrite time_sub_le by lia. intros [Hk Hu].
    split; [lia|]. by apply He.
Qed.

Lemma Allow_table past t req l :
  t <= r_now req -> r_now req <= r_now' req -> table past t l ->
  let l' := (Allow_at (r_now req) (r_now' req) (r_key req) l).2 in
  table (past ++ [req]) (r_now' req) l' /\ r_now req - lastPurge l' < idleEviction.
Proof.
  intros Hle Hle' Ht. apply (purgeLocked_table _ _ (r_now req)) in Ht as [[Hp He] Hd]; [|done].
  assert (0 < idleEviction) by by vm_compute. unfold Allow_at.
  set (l1 := purgeLocked (r_now req) l) in *. destruct (bucket_Allow _ _) as [ok b'].
  simpl. split; [|done]. split; simpl; [lia|]. intros key e.
  rewrite lookup_insert_Some. intros [[<- <-]|[Hne Hk]]; simpl.
  - split; [lia|]. exists req. split; [|done]. apply elem_of_app. right. by apply list_elem_of_singleton.
  - destruct (He key e Hk) as [? (r' & ? & ? & ?)]. split; [done|]. exists r'.
    split; [|done]. apply elem_of_app. by left.
Qed.

Lemma serve_table slack past t reqs l :
  clocked slack t reqs -> table past t l ->
  exists t', table (past ++ reqs) t' (serve reqs l).2 /\ t <= t' /\
    (forall req, req ∈ reqs -> r_now' req <= t') /\
    forall req, clocked slack t (reqs ++ [req]) -> t' <= r_now req /\ r_now req <= r_now' req.
Proof.
  revert past t l. induction reqs as [|req reqs IH]; intros past t l; simpl.
  { intros _ Ht. exists t. rewrite app_nil_r. split_and!; [done|lia|set_solver|]. naive_solver lia. }
  intros (Hle & Hc & Hcl) Ht. destruct (Allow_table past t req l Hle ltac:(lia) Ht) as [Ht1 _].
  destruct (Allow_at (r_now req) (r_now' req) (r_key req) l) as [ok l1]. simpl in Ht1.
  destruct (IH _ _ _ Hcl Ht1) as (t' & Ht' & Hge & Hall & Hnext).
  destruct (serve reqs l1) as [out l2]. simpl in *. exists t'. rewrite <- app_assoc in Ht'.
  split_and!; [done|lia| |].
  - intros r' [-> | Hr']%elem_of_cons; [done|auto].
  - intros r' (_ & _ & Hr'). by apply Hnext.
Qed.

Lemma serve_snoc reqs req l :
  (serve (reqs ++ [req]) l).2 = (Allow_at (r_now req) (r_now' req) (r_key req) (serve reqs l).2).2.
Proof.
  revert l. induction reqs as [|r0 reqs IH]; intros l; simpl.
  - by destruct (Allow_at _ _ _ _).
  - destruct (Allow_at (r_now r0) _ _ _) as [ok l1]. specialize (IH l1).
    destruct (serve (reqs ++ [req]) l1), (serve reqs l1). by simpl in *.
Qed.

(** The limiter does not grow without bound: after a request it only holds
    the buckets of callers that made a request in the last twenty minutes. *)
Theorem table_bounded slack r b l reqs req key e :
  New r b = Some l -> clocked slack zero_time (reqs ++ [req]) ->
  entries (serve (reqs ++ [req]) l).2 !! key = Some e ->
  exists old, old ∈ reqs ++ [req] /\ r_key old = key /\
    r_now req - 2 * idleEviction < r_now old.
Proof.
  intros Hl Hc. rewrite serve_snoc.
  assert (table [] zero_time l) as Ht.
  { unfold New in Hl. destruct (SFleb _ _); [done|]. injection Hl as <-. split; simpl; [done|].
    intros k e'. by rewrite lookup_empty. }
  assert (clocked slack zero_time reqs) as Hc'.
  { clear -Hc. revert Hc. generalize zero_time. induction reqs; intros t; simpl; [done|]. naive_solver. }
  destruct (serve_table _ _ _ _ _ Hc' Ht) as (t' & Ht' & _ & _ & Hnext).
  destruct (Hnext req Hc) as [Hle Hle'].
  destruct (Allow_table _ _ req _ Hle Hle' Ht') as [[_ He] Hd].
  intros Hk. destruct (He key e Hk) as [Hu (old & Hin & Hkey & Hnow)].
  exists old. split_and!; [done..|lia].
Qed.

End Limiter.

(** ** Examples *)

(** A bucket of one token that is refilled [period] after it was taken. *)
Definition refill_bucket (period : Z) : TokenBucket (option time) := {|
  NewLimiter _ _ := None;
  bucket_Allow now b :=
    match b with
    | None => (true, Some now)
    | Some t => if t + period <=? now then (true, Some now) else (false, b)
    end
|}.

Lemma refill_after period ts t (b : option time) :
  Forall (fun u => u <= t) ts -> (forall u, b = Some u -> u <= t) ->
  forall u, @after _ (refill_bucket period) ts b = Some u -> u <= t.
Proof.
  intros Hts. revert b. induction Hts as [|v ts Hv Hts IH]; intros b Hb; [done|].
  unfold after. simpl. apply IH. destruct b as [w|]; simpl.
  - destruct (Z.leb_spec (w + period) v); [by intros u [= <-]|done].
  - by intros u [= <-].
Qed.

Lemma refill_bucket_refills period slack r b ts t now :
  period <= idleEviction - slack ->
  Forall (fun u => u <= t) ts -> t + idleEviction - slack < now ->
  @same_from _ (refill_bucket period) now
    (@after _ (refill_bucket period) ts (@NewLimiter _ (refill_bucket period) r b))
    (@NewLimiter _ (refill_bucket period) r b).
Proof.
  intros Hp Hts Hnow [|u us] Ho; [done|]. destruct Ho as [Hu _]. simpl.
  destruct (after ts None) as [w|] eqn:Ha; [|done].
  apply (refill_after _ _ t) in Ha; [|done|discriminate].
  destruct (Z.leb_spec (w + period) u); [done|lia].
Qed.

Definition one_rps : spec_float := binary_normalize 53 1024 1 0 false.

Definition sample_requests : list request :=
  [mkRequest (30 * Minute) (30 * Minute) "addr:a";
   mkRequest (30 * Minute + Second) (30 * Minute + Second) "addr:b";
   mkRequest (30 * Minute + Second) (30 * Minute + Second) "addr:b";
   mkRequest (41 * Minute) (41 * Minute) "addr:a"].

Definition sample_limiter : @Limiter (option time) := mkLimiter ∅ one_rps 1 zero_time.

(** A bucket that refills every second: the decisions of [addr:b]. *)
Lemma decided_per_caller_witness :
  decisions_of "addr:b" (@serve _ (refill_bucket Second) sample_requests sample_limiter).1 =
  [true; false].
Proof.
  rewrite (@decided_per_caller _ (refill_bucket Second) one_rps 1 Second).
  - reflexivity.
  - intros ts t now. apply refill_bucket_refills. by vm_compute.
  - reflexivity.
  - lia.
  - vm_compute. intuition discriminate.
Defined.

Lemma table_bounded_witness :
  exists old, old ∈ sample_requests /\ r_key old = "addr:a" /\ 41 * Minute - 2 * idleEviction < r_now old.
Proof.
  apply (@table_bounded _ (refill_bucket Second) Second one_rps 1 sample_limiter
    (take 3 sample_requests) (mkRequest (41 * Minute) (41 * Minute) "addr:a") "addr:a"
    (mkEntry (Some (41 * Minute)) (41 * Minute))).
  - reflexivity.
  - vm_compute. intuition discriminate.
  - reflexivity.
Defined.

(** With a bucket that takes longer to refill than the eviction time - here one
    request in a thousand seconds - a caller that waits for the eviction is
    allowed a request its own bucket would have refused. *)
Lemma eviction_resets_slow_bucket :
  let slow := refill_bucket (1000 * Second) in
  decisions_of "addr:a" (@serve _ slow sample_requests sample_limiter).1 = [true; true] /\
  @decisions _ slow (times_of "addr:a" sample_requests) (@NewLimiter _ slow one_rps 1) = [true; false].
Proof. split; reflexivity. Qed.
