(* ===== verification/Rest.v ===== *)
(** * The REST transport

    [internal/transport/rest]: error responses, authentication of a request, the
    wire types, the handlers and the table of routes. The HTTP server, the router
    (chi) and the JSON encoder are not modelled: a request is what the handlers
    read of it, with the body already decoded or rejected, and a response is its
    status, its headers and what is encoded into the body. *)

From Stdlib Require Import SpecFloat.
From stdpp Require Import pretty.
From S2P Require Import Prelude Domain Utf8 SqlGuard Authn Lifecycle Config MetaStore Prog ManagerState.
From S2P Require Import Manager World Submission Service.
Import Config.

Open Scope dbb_scope.

(** ** Parsing numbers and ranges *)

(** The decimal digits of a string, most significant first. *)
Fixpoint parse_digits (acc : Z) (s : string) : option Z :=
  match s with
  | EmptyString => Some acc
  | String c s =>
      let d := Z.of_nat (Ascii.nat_of_ascii c) - 48 in
      if (0 <=? d) && (d <=? 9) then parse_digits (acc * 10 + d) s else None
  end.

(** [strconv.ParseInt(s, 10, 64)], [None] for an error. *)
Definition ParseInt (s : string) : option Z :=
  let '(neg, digits) :=
    match s with
    | String c rest =>
        if bool_decide (Ascii.nat_of_ascii c = 45%nat) then (true, rest)
        else if bool_decide (Ascii.nat_of_ascii c = 43%nat) then (false, rest) else (false, s)
    | _ => (false, s)
    end in
  if bool_decide (digits = "") then None
  else
    match parse_digits 0 digits with
    | None => None
    | Some n =>
        if neg then (if n <=? 2 ^ 63 then Some (- n) else None)
        else (if n <? 2 ^ 63 then Some n else None)
    end.

(** [strings.Cut] at the first occurrence of a byte. *)
Fixpoint cut (sep : Ascii.ascii) (s : string) : option (string * string) :=
  match s with
  | "" => None
  | String c s =>
      if bool_decide (c = sep) then Some ("", s)
      else '(a, b) ← cut sep s; Some (String c a, b)
  end%string.

Definition dash : Ascii.ascii := Ascii.ascii_of_nat 45.
Definition comma : Ascii.ascii := Ascii.ascii_of_nat 44.

(** [strings.Split] at every occurrence of a byte. *)
Fixpoint split_on (sep : Ascii.ascii) (s : string) : list string :=
  match s with
  | "" => [""]
  | String c s =>
      if bool_decide (c = sep) then "" :: split_on sep s
      else match split_on sep s with
           | p :: ps => String c p :: ps
           | [] => [String c ""]
           end
  end%string.

Definition bytes_prefix : string := "bytes=".

(** The start and the end of a range, [-1] for an open one. *)
Definition parseByteRange (header : string) : option (Z * Z) :=
  let n := String.length bytes_prefix in
  if negb (bool_decide (string_take n header = bytes_prefix)) then None
  else
    match cut dash (string_drop n header) with
    | None => None
    | Some (first, last) =>
        match ParseInt first with
        | None => None
        | Some s =>
            if s <? 0 then None
            else if bool_decide (last = "") then Some (s, -1)
            else
              match ParseInt last with
              | None => None
              | Some e => if e <? s then None else Some (s, e)
              end
        end
    end.

(** ** Wire types *)

Definition Milliseconds (d : Z) : Z := i64_quot d Millisecond.

(** [Duration.Seconds] is a [float64]: the whole seconds plus the nanoseconds
    left divided by a billion, each step rounded. *)
Definition float_of (z : Z) : spec_float := binary_normalize 53 1024 z 0 false.

Definition Seconds (d : Z) : spec_float :=
  SFadd 53 1024 (float_of (Z.quot d Second))
    (SFdiv 53 1024 (float_of (Z.rem d Second)) (float_of 1000000000)).

(** The conversion of a finite [float64] to an [int64] truncates. *)
Definition int64_of_float (f : spec_float) : Z :=
  match f with
  | S754_finite s m e =>
      let n := if 0 <=? e then Z.pos m * 2 ^ e else Z.pos m / 2 ^ (- e) in
      if s then - n else n
  | _ => 0
  end.

Record queryOptionsDTO := mkOptionsDTO {
  TimeoutMs : Z;
  dto_Mode : string;
  ResultTTLSeconds : Z;
  dto_OptIdempotencyKey : string;
  dto_ResultFormat : string;
  dto_StorageBackend : string
}.

Record queryStatsDTO := mkStatsDTO {
  dto_RowsRead : Z;
  dto_BytesWritten : Z;
  DBExecDurationMs : Z;
  StorageWriteDurationMs : Z;
  TotalDurationMs : Z
}.

(** [resultRefDTO] and [queryErrorDTO] have the fields of the domain types. *)
Record queryRecordDTO := mkRecordDTO {
  dto_ID : string;
  dto_DatabaseID : string;
  dto_SQL : string;
  dto_Options : queryOptionsDTO;
  dto_State : string;
  dto_OwnerInstanceID : string;
  dto_CreatedAt : time;
  dto_StartedAt : option time;
  dto_FinishedAt : option time;
  dto_LeaseDeadline : option time;
  dto_Error : option QueryError;
  dto_Stats : queryStatsDTO;
  dto_Result : option ResultRef;
  dto_IdempotencyKey : string;
  dto_Subject : string
}.

Definition optionalTime (t : time) : option time := if IsZero t then None else Some t.

Definition toOptionsDTO (o : QueryOptions) : queryOptionsDTO :=
  mkOptionsDTO (Milliseconds (Timeout o)) (Mode o) (int64_of_float (Seconds (ResultTTL o)))
    (opt_IdempotencyKey o) (ResultFormat o) (StorageBackend o).

Definition toStatsDTO (s : QueryStats) : queryStatsDTO :=
  mkStatsDTO (RowsRead s) (BytesWritten s) (Milliseconds (DBExecDuration s))
    (Milliseconds (StorageWriteDuration s)) (Milliseconds (TotalDuration s)).

Definition toRecordDTO (r : QueryRecord) : queryRecordDTO :=
  mkRecordDTO (ID r) (DatabaseID r) (SQL r) (toOptionsDTO (rec_Options r))
    (QueryState_string (rec_State r)) (OwnerInstanceID r) (CreatedAt r)
    (optionalTime (StartedAt r)) (optionalTime (FinishedAt r)) (optionalTime (LeaseDeadline r))
    (rec_Error r) (toStatsDTO (Stats r)) (rec_Result r) (IdempotencyKey r) (Subject r).

(** ** Responses *)

Record StartQueryPayload := mkPayload {
  pay_DatabaseID : string;
  pay_SQL : string;
  pay_TimeoutMs : Z;
  pay_Mode : string;
  pay_ResultTTLSeconds : Z;
  pay_ResultFormat : string;
  pay_StorageBackend : string
}.

(** The outcome of decoding a request body of limited size. *)
Inductive decoded := Decoded (p : StartQueryPayload) | BodyTooLarge | BodyMalformed.

Record http_request := mkRequest {
  rq_id : string;                 (* the [id] of the route *)
  rq_Authorization : string;
  rq_WebSocketProtocol : list string;
  rq_IdempotencyKey : string;
  rq_Range : string;
  rq_offset : string;
  rq_limit : string;
  rq_body : decoded;
  rq_requestID : string
}.

Inductive body :=
| BodyError (message requestID : string)
| BodyRecord (r : queryRecordDTO)
| BodyStopped (queryID : string)
| BodyStats (s : queryStatsDTO)
| BodyDatabases (dbs : list DatabaseInfo)
| BodyReload (report : ReloadReport)
| BodyCanStop (canStop : bool) (inFlight : Z) (state : Lifecycle.State)
| BodyText (s : string)
| BodyStream (reader : nat) (section : option (Z * Z)).

Record response := mkResponse {
  status : Z;
  headers : list (string * string);
  resp_body : body
}.

Definition add_header (k v : string) (r : response) : response :=
  mkResponse (status r) ((k, v) :: headers r) (resp_body r).

Definition json : list (string * string) := [("Content-Type", "application/json")].

Definition writeStatus (rq : http_request) (st : Z) (message : string) : response :=
  mkResponse st json (BodyError message (rq_requestID rq)).

Definition classify (e : error) : Z * string :=
  if is_validation e then (400, Error e)
  else if is_not_found_type e || is_ErrNotFound e then (404, "not found")
  else if is_draining e then (503, Error e)
  else if is_unavailable e then (503, Error e)
  else if is_exhausted e then (429, Error e)
  else (500, "internal error").

Definition writeError (rq : http_request) (e : error) : response :=
  writeStatus rq (classify e).1 (classify e).2.

Definition writeValidationError (rq : http_request) (field reason : string) : response :=
  writeError rq (ValidationError field reason).

(** ** Authentication *)

Definition BearerSubprotocol : string := "dbbridge.bearer".

Definition offered_protocols (values : list string) : list string :=
  List.filter (fun p => negb (bool_decide (p = "")))
    (map TrimSpace (flat_map (split_on comma) values)).

(** The entry after the first marker that has one after it. *)
Fixpoint after_marker (offered : list string) : string :=
  match offered with
  | p :: rest =>
      match rest with
      | next :: _ => if bool_decide (p = BearerSubprotocol) then next else after_marker rest
      | [] => ""
      end
  | [] => ""
  end.

Definition subprotocolCredential (values : list string) : string :=
  after_marker (offered_protocols values).

Definition credential (rq : http_request) : string :=
  let v := BearerToken (rq_Authorization rq) in
  if negb (bool_decide (v = "")) then v else subprotocolCredential (rq_WebSocketProtocol rq).

(** A handler gets the identity of the request's context. *)
Definition handler : Type := option Identity -> http_request -> M response.

Definition require (auth : option Authenticator) (scope : Scope) (next : handler) : handler :=
  match auth with
  | None => next
  | Some a => fun _ rq =>
      match Authenticate a (credential rq) with
      | Err _ =>
          Ret (add_header "Vary" "Authorization"
                 (add_header "WWW-Authenticate" ("Bearer realm=" +:+ quoted "dbbridge")
                    (writeStatus rq 401 "unauthorized")))
      | Ok id =>
          if negb (Has id scope) then
            Ret (add_header "Vary" "Authorization" (writeStatus rq 403 "forbidden"))
          else
            do r <- next (Some id) rq;
            Ret (add_header "Vary" "Authorization" r)
      end
  end.

(** ** Handlers *)

Section Handlers.
Context `{Unicode} (me : captured) (authRequired : bool) (maxRequestBytes : Z).

Definition handleHealthz : handler := fun _ _ => Ret (mkResponse 200 [] (BodyText "OK")).

Definition handleReadyz : handler := fun _ _ =>
  do dr <- act AIsDraining;
  if dr then Ret (mkResponse 503 [] (BodyText "NOT READY"))
  else Ret (mkResponse 200 [] (BodyText "READY")).

(** The options of a submission; the conversions multiply and may wrap. *)
Definition payload_options (p : StartQueryPayload) (idemKey : string) : QueryOptions :=
  mkQueryOptions (i64_mul (pay_TimeoutMs p) Millisecond) (pay_Mode p)
    (i64_mul (pay_ResultTTLSeconds p) Second) idemKey (pay_ResultFormat p) (pay_StorageBackend p).

Definition handleStartQuery : handler := fun caller rq =>
  match rq_body rq with
  | BodyTooLarge =>
      Ret (writeStatus rq 413 ("request body exceeds " +:+ pretty maxRequestBytes +:+ " bytes"))
  | BodyMalformed => Ret (writeValidationError rq "body" "malformed JSON")
  | Decoded p =>
      if bool_decide (pay_DatabaseID p = "") then
        Ret (writeValidationError rq "database_id" "is required")
      else if bool_decide (pay_SQL p = "") then Ret (writeValidationError rq "sql" "is required")
      else
        let opts := payload_options p (rq_IdempotencyKey rq) in
        do r <- StartQuery me caller (pay_DatabaseID p) (pay_SQL p) opts;
        match r with
        | Err e => Ret (writeError rq e)
        | Ok record =>
            Ret (mkResponse (if bool_decide (Mode opts = "sync") then 200 else 202) json
                   (BodyRecord (toRecordDTO record)))
        end
  end.

(** The handlers of a route with an [id] refuse an empty one. *)
Definition with_id (h : handler) : handler := fun caller rq =>
  if bool_decide (rq_id rq = "") then Ret (writeValidationError rq "id" "is required")
  else h caller rq.

Definition handleGetQueryStatus : handler := with_id (fun caller rq =>
  do r <- GetQueryStatus authRequired caller (rq_id rq);
  match r with
  | Err e => Ret (writeError rq e)
  | Ok record => Ret (mkResponse 200 json (BodyRecord (toRecordDTO record)))
  end).

Definition handleStopQuery : handler := with_id (fun caller rq =>
  do r <- Service.StopQuery me authRequired caller (rq_id rq);
  match r with
  | Some e => Ret (writeError rq e)
  | None => Ret (mkResponse 200 json (BodyStopped (rq_id rq)))
  end).

Definition handleGetQueryStats : handler := with_id (fun caller rq =>
  do r <- GetQueryStats authRequired caller (rq_id rq);
  match r with
  | Err e => Ret (writeError rq e)
  | Ok s => Ret (mkResponse 200 json (BodyStats (toStatsDTO s)))
  end).

(** What a download asks for: the offset, the limit and the range header. *)
Definition download_window (rq : http_request) : response + (Z * Z * option (Z * Z)) :=
  if negb (bool_decide (rq_Range rq = "")) then
    match parseByteRange (rq_Range rq) with
    | None => inl (writeStatus rq 416 "invalid Range header")
    | Some (s, e) =>
        inr (s, if 0 <=? e then i64_add (wrap64 (e - s)) 1 else 0, Some (s, e))
    end
  else
    let number (text field : string) : response + Z :=
      if bool_decide (text = "") then inr 0
      else match ParseInt text with
           | Some n => if n <? 0 then inl (writeValidationError rq field "must be a non-negative integer")
                       else inr n
           | None => inl (writeValidationError rq field "must be a non-negative integer")
           end in
    match number (rq_offset rq) "offset" with
    | inl r => inl r
    | inr offset =>
        match number (rq_limit rq) "limit" with
        | inl r => inl r
        | inr limit => inr (offset, limit, None)
        end
    end.

Definition contentType (format : string) : string :=
  if bool_decide (format = "csv") then "text/csv"
  else if bool_decide (format = "jsonl") then "application/x-jsonlines"
  else "application/octet-stream".

(** The first and the last byte a range stands for in a result of [total] bytes,
    [None] when it starts past the end. *)
Definition content_range (range : Z * Z) (total : Z) : option (Z * Z) :=
  if (0 <=? total) && (total <=? range.1) then None
  else Some (range.1, if (range.2 <? 0) || (total <=? range.2) then wrap64 (total - 1) else range.2).

Definition handleDownloadResult : handler := with_id (fun caller rq =>
  match download_window rq with
  | inl r => Ret r
  | inr (offset, limit, range) =>
      do got <- DownloadResult authRequired caller (rq_id rq) offset limit;
      match got with
      | Err e => Ret (writeError rq e)
      | Ok (reader, section, ref) =>
          let total := SizeBytes ref in
          match range with
          | None =>
              Ret (mkResponse 200 [("Content-Type", contentType (Format ref))]
                     (BodyStream reader section))
          | Some range =>
              match content_range range total with
              | None =>
                  Ret (add_header "Content-Range" ("bytes */" +:+ pretty total)
                         (writeStatus rq 416 "range not satisfiable"))
              | Some (first, last) =>
                  Ret (mkResponse 206
                         [("Content-Type", contentType (Format ref));
                          ("Content-Range", "bytes " +:+ pretty first +:+ "-" +:+ pretty last +:+
                                            "/" +:+ pretty total)]
                         (BodyStream reader section))
              end
          end
      end
  end).

Definition handleListDatabases : handler := fun _ _ =>
  do dbs <- ListDatabases;
  Ret (mkResponse 200 json (BodyDatabases dbs)).

Definition handleReloadConfig : handler := fun _ rq =>
  do '(report, err) <- ReloadConfig;
  match err with
  | Some e => Ret (writeError rq e)
  | None => Ret (mkResponse 200 json (BodyReload report))
  end.

Definition handleCanIBeStopped : handler := fun _ _ =>
  do '(canStop, inFlight, st) <- CanIBeStopped me;
  Ret (mkResponse 200 json (BodyCanStop canStop inFlight st)).

(** ** Routes *)

(** The WebSocket endpoint ([WebSocket]) and the metrics endpoint (Prometheus)
    are served by handlers of their own. *)
Context (serveWS serveMetrics : handler).

Inductive operation :=
| Healthz | Readyz | DoStartQuery | DoGetQueryStatus | DoStopQuery | DoGetQueryStats
| DoDownloadResult | DoWatch | DoListDatabases | DoReloadConfig | DoCanIBeStopped | Metrics.

Definition handler_of (op : operation) : handler :=
  match op with
  | Healthz => handleHealthz
  | Readyz => handleReadyz
  | DoStartQuery => handleStartQuery
  | DoGetQueryStatus => handleGetQueryStatus
  | DoStopQuery => handleStopQuery
  | DoGetQueryStats => handleGetQueryStats
  | DoDownloadResult => handleDownloadResult
  | DoWatch => serveWS
  | DoListDatabases => handleListDatabases
  | DoReloadConfig => handleReloadConfig
  | DoCanIBeStopped => handleCanIBeStopped
  | Metrics => serveMetrics
  end.

(** A route with the scopes its groups require, outermost first. *)
Record route := mkRoute {
  rt_method : string;
  rt_pattern : string;
  rt_gates : list Scope;
  rt_op : operation
}.

#[export] Instance operation_eq_dec : EqDecision operation.
Proof. solve_decision. Defined.

#[export] Instance route_eq_dec : EqDecision route.
Proof. solve_decision. Defined.

Definition probe_routes : list route :=
  [mkRoute "GET" "/healthz" [] Healthz; mkRoute "GET" "/readyz" [] Readyz].

Definition v1_routes : list route :=
  [mkRoute "GET" "/v1/queries/{id}/result" [ScopeRead] DoDownloadResult;
   mkRoute "GET" "/v1/ws" [ScopeRead] DoWatch;
   mkRoute "POST" "/v1/queries" [ScopeRead; ScopeWrite] DoStartQuery;
   mkRoute "GET" "/v1/databases" [ScopeRead] DoListDatabases;
   mkRoute "GET" "/v1/queries/{id}" [ScopeRead] DoGetQueryStatus;
   mkRoute "GET" "/v1/queries/{id}/stats" [ScopeRead] DoGetQueryStats;
   mkRoute "POST" "/v1/queries/{id}:stop" [ScopeRead; ScopeWrite] DoStopQuery].

Definition admin_routes : list route :=
  [mkRoute "*" "/metrics" [ScopeAdmin] Metrics;
   mkRoute "POST" "/v1/admin/reload" [ScopeAdmin] DoReloadConfig;
   mkRoute "GET" "/v1/admin/can-stop" [ScopeAdmin] DoCanIBeStopped].

(** The routes of the public and of the admin router. *)
Definition public_router (separateAdmin : bool) : list route :=
  probe_routes ++ v1_routes ++ (if separateAdmin then [] else admin_routes).

Definition admin_router (separateAdmin : bool) : list route :=
  if separateAdmin then admin_routes else [].

(** The rate limiter lets the probes through and answers 429 otherwise. *)
Definition rateLimit (path : string) (allowed : bool) (next : handler) : handler := fun caller rq =>
  if bool_decide (path = "/healthz") || bool_decide (path = "/readyz") then next caller rq
  else if negb allowed then Ret (writeStatus rq 429 "rate limit exceeded")
  else next caller rq.

Definition gated (auth : option Authenticator) (gates : list Scope) (h : handler) : handler :=
  fold_right (require auth) h gates.

(** A request that was routed to [rt]; no identity is attached yet. *)
Definition dispatch (auth : option Authenticator) (allowed : bool) (rt : route) : http_request -> M response :=
  rateLimit (rt_pattern rt) allowed (gated auth (rt_gates rt) (handler_of (rt_op rt))) None.

End Handlers.

(** ** Gates *)

Section Gates.
Context `{Unicode} (me : captured) (authRequired : bool) (maxRequestBytes : Z).
Context (serveWS serveMetrics : handler).

Definition denied (st : Z) (resp : response) (tr : trace) : Prop := status resp = st /\ tr = [].

Lemma gated_spec a gates h caller rq tr resp :
  executes (gated (Some a) gates h caller rq) tr resp ->
  gates <> [] ->
  match Authenticate a (credential rq) with
  | Err _ => denied 401 resp tr
  | Ok id =>
      if forallb (Has id) gates
      then exists resp', executes (h (Some id) rq) tr resp' /\
             status resp = status resp' /\ resp_body resp = resp_body resp'
      else denied 403 resp tr
  end.
Proof.
  revert caller tr resp. induction gates as [|g gates IH]; intros caller tr resp; [done|].
  intros Hex _. cbn [gated fold_right] in Hex. fold (gated (Some a) gates h) in Hex.
  unfold require in Hex. destruct (Authenticate a (credential rq)) as [id|e] eqn:Ha.
  - cbn [forallb]. destruct (Has id g) eqn:Hg; cbn [negb andb] in *.
    + apply executes_bind in Hex as (tr1 & tr2 & r & -> & Hex & -> & ->). rewrite app_nil_r.
      destruct gates as [|g' gates]; [by exists r|].
      specialize (IH _ _ _ Hex ltac:(done)). try rewrite Ha in IH.
      destruct (forallb (Has id) (g' :: gates)); [|by destruct IH].
      destruct IH as (r' & ? & ? & ?). by exists r'.
    + by destruct Hex as [-> ->].
  - by destruct Hex as [-> ->].
Qed.

(** With authentication configured, a request reaches the handler of its
    route only with the identity of a valid credential that has every scope the
    route requires; otherwise it is answered 429, 401 or 403 without any effect.
    Only the two probes are open. *)
Theorem requests_gated separateAdmin a allowed rt rq tr resp :
  rt ∈ public_router separateAdmin ++ admin_router separateAdmin -> rt ∉ probe_routes ->
  executes (dispatch me authRequired maxRequestBytes serveWS serveMetrics (Some a) allowed rt rq) tr resp ->
  if negb allowed then denied 429 resp tr
  else
    match Authenticate a (credential rq) with
    | Err _ => denied 401 resp tr
    | Ok id =>
        if forallb (Has id) (rt_gates rt)
        then exists resp',
               executes (handler_of me authRequired maxRequestBytes serveWS serveMetrics (rt_op rt)
                           (Some id) rq) tr resp' /\
               status resp = status resp' /\ resp_body resp = resp_body resp'
        else denied 403 resp tr
    end.
Proof.
  intros Hin Hprobe. unfold dispatch, rateLimit.
  assert (rt_gates rt <> [] /\ rt_pattern rt <> "/healthz" /\ rt_pattern rt <> "/readyz")
    as (Hg & Hp1 & Hp2).
  { assert (rt ∈ v1_routes ++ admin_routes) as Hin'.
    { unfold public_router, admin_router in Hin. destruct separateAdmin; set_solver. }
    clear -Hin'. unfold v1_routes, admin_routes in Hin'. simpl in Hin'.
    repeat (apply elem_of_cons in Hin' as [-> | Hin']; [done|]). by apply elem_of_nil in Hin'. }
  rewrite (bool_decide_eq_false_2 _ Hp1), (bool_decide_eq_false_2 _ Hp2). cbn [orb].
  destruct allowed; cbn [negb].
  - intros Hex. by apply gated_spec in Hex.
  - by intros [-> ->].
Qed.

(** ** Foreign queries *)

(** An operation of the service whose failure the transport turns into an answer. *)
Lemma guarded_bind {R R'} (failed : error -> R) (failed' : error -> R') caller (p : M R)
  (k : R -> M R') queryID tr r :
  (forall tr1 r1, executes p tr1 r1 -> guarded authRequired caller failed queryID tr1 r1) ->
  (forall e, k (failed e) = Ret (failed' e)) ->
  executes (bind p k) tr r -> guarded authRequired caller failed' queryID tr r.
Proof.
  intros Hp Hk (tr1 & tr2 & r1 & -> & Hex1 & Hex)%executes_bind.
  destruct (Hp _ _ Hex1) as [(Ha & Hc & -> & ->)|(got & rest & -> & Hgot)].
  - rewrite Hk in Hex. destruct Hex as [-> ->]. by left.
  - right. exists got, (rest ++ tr2). split; [done|]. cbn in got. destruct got as [rec|e].
    + intros Hf. destruct (Hgot Hf) as [-> ->]. rewrite Hk in Hex. by destruct Hex as [-> ->].
    + destruct Hgot as [-> ->]. rewrite Hk in Hex. by destruct Hex as [-> ->].
Qed.

Lemma GetQueryStatus_guarded caller id tr r :
  executes (GetQueryStatus authRequired caller id) tr r -> guarded authRequired caller Err id tr r.
Proof.
  unfold GetQueryStatus. intros Hex. apply (authorized_guards _ _ Err Ret); [done|].
  apply executes_bind. exists tr, [], r. by rewrite app_nil_r.
Qed.

(** What a handler for a query does with a query of somebody else. *)
Definition hides (caller : option Identity) (rq : http_request) (tr : trace) (resp : response) : Prop :=
  guarded authRequired caller (writeError rq) (rq_id rq) tr resp.

(** Over REST a query of somebody else cannot be told from one that does not
    exist: reading its state, its statistics or its result, or stopping it, is
    answered with the very response that is sent when the store has no such
    record, and nothing was done but read the record. *)
Theorem foreign_query_is_unknown caller rq tr resp :
  rq_id rq <> "" ->
  executes (handleGetQueryStatus authRequired caller rq) tr resp \/
  executes (handleGetQueryStats authRequired caller rq) tr resp \/
  executes (handleStopQuery me authRequired caller rq) tr resp \/
  (executes (handleDownloadResult authRequired caller rq) tr resp /\
   forall r, download_window rq <> inl r) ->
  hides caller rq tr resp /\
  writeError rq (query_not_found (rq_id rq)) = writeStatus rq 404 "not found" /\
  writeError rq ErrNotFound = writeStatus rq 404 "not found".
Proof.
  intros Hid Hex. split_and!; [|done..].
  unfold handleGetQueryStatus, handleGetQueryStats, handleStopQuery, handleDownloadResult, with_id in Hex.
  rewrite bool_decide_eq_false_2 in Hex by done.
  destruct Hex as [Hex|[Hex|[Hex|[Hex Hw]]]].
  - eapply (guarded_bind Err), Hex; [apply GetQueryStatus_guarded|done].
  - eapply (guarded_bind Err), Hex; [|done]. intros tr1 r1 H1. by eapply authorized_guards, H1.
  - eapply (guarded_bind Some), Hex; [|done]. intros tr1 r1 H1. by eapply authorized_guards, H1.
  - destruct (download_window rq) as [r|[[offset limit] range]]; [by destruct (Hw r)|].
    eapply (guarded_bind Err), Hex; [|done]. intros tr1 r1 H1. by eapply authorized_guards, H1.
Qed.

End Gates.

(** ** Partial content *)

Lemma parse_digits_nonneg acc s n : 0 <= acc -> parse_digits acc s = Some n -> 0 <= n.
Proof.
  revert acc. induction s as [|c s IH]; intros acc Hacc; simpl; [by intros [= <-]|].
  destruct (_ && _) eqn:Hd; [|done]. bprop. apply IH. lia.
Qed.

Lemma ParseInt_int64 s n : ParseInt s = Some n -> is_int64 n.
Proof.
  unfold ParseInt, is_int64, int64_min, int64_max. destruct (match s with String _ _ => _ | _ => _ end) as [neg ds].
  case_bool_decide; [done|]. destruct (parse_digits 0 ds) as [m|] eqn:Hp; [|done].
  apply parse_digits_nonneg in Hp; [|lia].
  destruct neg; [destruct (Z.leb_spec m (2 ^ 63))|destruct (Z.ltb_spec m (2 ^ 63))]; intros [= <-]; lia.
Qed.

(** A parsed range starts at a byte position and ends, unless it is open, at one
    that is not before it. *)
Lemma parseByteRange_spec header s e :
  parseByteRange header = Some (s, e) -> 0 <= s <= int64_max /\ (e = -1 \/ s <= e <= int64_max).
Proof.
  unfold parseByteRange. destruct (negb _); [done|].
  destruct (cut dash _) as [[first last]|]; [|done].
  destruct (ParseInt first) as [n|] eqn:Hn; [|done]. apply ParseInt_int64 in Hn as [_ Hn].
  destruct (Z.ltb_spec n 0); [done|]. case_bool_decide; [intros [= <- <-]; lia|].
  destruct (ParseInt last) as [m|] eqn:Hm; [|done]. apply ParseInt_int64 in Hm as [_ Hm].
  destruct (Z.ltb_spec m n); [done|]. intros [= <- <-]. lia.
Qed.

(** The bytes of a result that a download serves ([Service.section_exact]). *)
Definition served (section : option (Z * Z)) (content : list Ascii.ascii) : list Ascii.ascii :=
  match section with
  | None => content
  | Some (offset, limit) =>
      let rest := drop (Z.to_nat offset) content in
      if 0 <? limit then take (Z.to_nat limit) rest else rest
  end.

Lemma DownloadResult_section authRequired caller id offset limit tr reader section ref :
  executes (DownloadResult authRequired caller id offset limit) tr (Ok (reader, section, ref)) ->
  section = if (0 <? offset) || (0 <? limit) then Some (offset, limit) else None.
Proof.
  intros Hex. remember (Ok (reader, section, ref)) as out eqn:Hout. revert tr out Hex Hout.
  refine (wp_sound _ _ _). unfold DownloadResult, authorized, Manager.GetQuery. exec; congruence.
Qed.

(** A range within the result stands for its bytes, and that is what is served. *)
Lemma range_served s e total first last content :
  0 <= s <= int64_max -> e = -1 \/ s <= e <= int64_max ->
  Z.of_nat (length content) = total -> total <= int64_max ->
  content_range (s, e) total = Some (first, last) ->
  let limit := if 0 <=? e then i64_add (wrap64 (e - s)) 1 else 0 in
  let section := if (0 <? s) || (0 <? limit) then Some (s, limit) else None in
  0 <= first <= last /\ last < total /\
  served section content = take (Z.to_nat (last - first + 1)) (drop (Z.to_nat first) content).
Proof.
  intros Hs He Htot Hmax. unfold content_range. cbn [fst snd].
  destruct (Z.leb_spec 0 total); [|lia]. cbn [andb].
  destruct (Z.leb_spec total s) as [|Hlt]; [done|]. intros [= <- <-].
  unfold int64_max in *. rewrite (wrap64_id (total - 1)) by (unfold is_int64, int64_min, int64_max; lia).
  assert (wrap64 (e - s) = e - s) as ->.
  { apply wrap64_id. unfold is_int64, int64_min, int64_max. lia. }
  assert (forall n, total - s <= n -> drop (Z.to_nat s) content =
            take (Z.to_nat n) (drop (Z.to_nat s) content)) as Hall.
  { intros n Hn. symmetry. apply take_ge. rewrite length_drop. lia. }
  destruct He as [-> | He].
  - simpl. rewrite orb_false_r. split_and!; [lia..|].
    replace (total - 1 - s + 1) with (total - s) by lia.
    destruct (Z.ltb_spec 0 s); simpl; [by apply Hall|].
    assert (s = 0) as -> by lia. rewrite <- (Hall (total - 0)) by lia. done.
  - destruct (Z.leb_spec 0 e); [|lia]. destruct (Z.ltb_spec e 0); [lia|]. cbn [orb].
    assert (i64_add (e - s) 1 = e - s + 1 \/ (s = 0 /\ i64_add (e - s) 1 < 0)) as Hlim.
    { destruct (decide (e - s + 1 <= int64_max)) as [Hle|Hgt].
      - left. unfold i64_add. apply wrap64_id. unfold is_int64, int64_min, int64_max in *. lia.
      - right. unfold int64_max in *. assert (s = 0) as -> by lia. split; [done|].
        replace e with (2 ^ 63 - 1) by lia. by vm_compute. }
    split_and!; [lia|destruct (Z.leb_spec total e); lia|destruct (Z.leb_spec total e); lia|].
    destruct Hlim as [-> | [-> Hneg]].
    + destruct (Z.ltb_spec 0 (e - s + 1)); [|lia]. rewrite orb_true_r. simpl.
      destruct (Z.ltb_spec 0 (e - s + 1)); [|lia].
      destruct (Z.leb_spec total e); [|done]. rewrite <- !Hall by lia. done.
    + destruct (Z.ltb_spec 0 (i64_add (e - 0) 1)); [lia|]. simpl.
      destruct (Z.leb_spec total e).
      2:{ unfold i64_add in Hneg. rewrite wrap64_id in Hneg; unfold is_int64, int64_min, int64_max; lia. }
      rewrite <- Hall by lia. done.
Qed.

Lemma writeError_status rq e : status (writeError rq e) <> 206.
Proof. unfold writeError, classify, writeStatus. simpl. by repeat case_match. Qed.

Lemma download_window_spec rq :
  match download_window rq with
  | inl r => status r <> 206
  | inr (_, _, None) => True
  | inr (offset, limit, Some (s, e)) =>
      offset = s /\ limit = (if 0 <=? e then i64_add (wrap64 (e - s)) 1 else 0) /\
      0 <= s <= int64_max /\ (e = -1 \/ s <= e <= int64_max)
  end.
Proof.
  unfold download_window. case_bool_decide; cbn [negb].
  - repeat case_bool_decide; try done; destruct (ParseInt _) as [n|]; try done;
      destruct (n <? 0); try done; destruct (ParseInt _) as [m|]; try done; by destruct (m <? 0).
  - destruct (parseByteRange (rq_Range rq)) as [[s e]|] eqn:Hp; [|done].
    by apply parseByteRange_spec in Hp.
Qed.

(** A 206 response tells the truth about its body: the range in its
    Content-Range header lies within the result, and the section that is served
    is exactly the bytes of that range, for every header the client may send -
    open ranges, ranges past the end and ranges whose length overflows
    included - and every result whose recorded size is its size. *)
Theorem partial_content_exact authRequired caller rq tr resp :
  executes (handleDownloadResult authRequired caller rq) tr resp -> status resp = 206 ->
  exists first last total reader section,
    ("Content-Range", "bytes " +:+ pretty first +:+ "-" +:+ pretty last +:+ "/" +:+ pretty total)
      ∈ headers resp /\
    resp_body resp = BodyStream reader section /\
    forall content, Z.of_nat (length content) = total -> total <= int64_max ->
      0 <= first <= last /\ last < total /\
      served section content = take (Z.to_nat (last - first + 1)) (drop (Z.to_nat first) content).
Proof.
  unfold handleDownloadResult, with_id. intros Hex Hst. case_bool_decide.
  { by destruct Hex as [_ ->]. }
  pose proof (download_window_spec rq) as Hw.
  destruct (download_window rq) as [r|[[offset limit] range]]; [by destruct Hex as [_ ->]|].
  apply executes_bind in Hex as (tr1 & tr2 & out & -> & Hdl & Hex).
  destruct out as [[[reader section] ref]|err].
  2:{ destruct Hex as [_ ->]. by destruct (writeError_status rq err). }
  apply DownloadResult_section in Hdl as ->.
  destruct range as [[s e]|]; [|by destruct Hex as [_ ->]]. destruct Hw as (-> & -> & Hs & He).
  destruct (content_range (s, e) (SizeBytes ref)) as [[first last]|] eqn:Hcr;
    destruct Hex as [_ ->]; [|done].
  eexists first, last, (SizeBytes ref), reader, _. split_and!; [set_solver|done|].
  intros content Hlen Hmax. by apply (range_served s e (SizeBytes ref)).
Qed.

(** ** Examples *)

Definition alice : Identity := mkIdentity "alice" [ScopeRead].
Definition demo_auth : Authenticator := mkAuthenticator [mkToken "t0ken" "alice" [ScopeRead]].

Definition finished_record (subject : string) : QueryRecord :=
  mkQueryRecord "q1" "pg" "select 1" (demo_options "") StateSucceeded "dbb-1" 1 2 3 None zero_stats
    (Some (mkResultRef "fs" "q1.csv" 14 2 "csv" "")) "" zero_time subject.

Definition finished_world (subject : string) : world :=
  with_store (Memory.store (finished_record subject) Memory.NewMemoryMetaStore) demo_world.

Definition get_request (range : string) : http_request :=
  mkRequest "q1" "Bearer t0ken" [] "" range "" "" BodyMalformed "r1".

Definition status_route : route := mkRoute "GET" "/v1/queries/{id}" [ScopeRead] DoGetQueryStatus.

Definition no_handler : handler := fun _ _ => Ret (mkResponse 404 [] (BodyText "")).

Definition demo_dispatch : M response :=
  dispatch (self demo_qm) true 1024 no_handler no_handler (Some demo_auth) true status_route (get_request "").

Lemma requests_gated_witness :
  exists resp, executes (handleGetQueryStatus true (Some alice) (get_request ""))
                 (demo_run demo_dispatch (finished_world "alice")).1.2 resp /\ status resp = 200.
Proof.
  destruct (requests_gated (self demo_qm) true 1024 no_handler no_handler false demo_auth true status_route
    (get_request "") _ _ ltac:(by apply (bool_decide_unpack _)) ltac:(by apply (bool_decide_unpack _))
    (demo_executes demo_dispatch (finished_world "alice"))) as (resp & Hex & Hst & _).
  exists resp. split; [exact Hex|]. rewrite <- Hst. vm_compute. reflexivity.
Defined.

(** The query belongs to somebody else. *)
Lemma foreign_query_is_unknown_witness :
  hides true (Some alice) (get_request "")
    (demo_run (handleGetQueryStatus true (Some alice) (get_request "")) (finished_world "bob")).1.2
    (writeStatus (get_request "") 404 "not found").
Proof.
  destruct (foreign_query_is_unknown (self demo_qm) true (Some alice) (get_request "") _ _ ltac:(discriminate)
    (or_introl (demo_executes (handleGetQueryStatus true (Some alice) (get_request "")) (finished_world "bob"))))
    as [Hh _].
  exact Hh.
Defined.

(** The bytes from the third on of a result of 14 bytes. *)
Lemma partial_content_exact_witness :
  exists reader section, resp_body (demo_run (handleDownloadResult true (Some alice) (get_request "bytes=3-99"))
                                      (finished_world "alice")).1.1 = BodyStream reader section.
Proof.
  destruct (partial_content_exact true (Some alice) (get_request "bytes=3-99") _ _
    (demo_executes (handleDownloadResult true (Some alice) (get_request "bytes=3-99")) (finished_world "alice"))
    ltac:(vm_compute; reflexivity)) as (first & last & total & reader & section & _ & Hb & _).
  exists reader, section. exact Hb.
Defined.
