(* ===== verification/RestServer.v ===== *)
(** * The REST server

    How [internal/transport/rest/server.go] assembles its routers: the options and
    their defaults, the nested declarations of routes and middleware in the order the
    source makes them, and the handlers of the two listeners. Of the router library
    (chi) the composition is modelled - a group inherits the middleware around it, and
    middleware runs in the order it was added - and which declared route a request
    matches is a parameter. Request IDs, access logs, the recovery of panics and the
    deadline of a request do not change the answers of the handlers, and are passed
    through; the address chi takes from X-Forwarded-For is a parameter. *)

From S2P Require Import Prelude Domain Utf8 SqlGuard Authn Lifecycle Config MetaStore Prog ManagerState.
From S2P Require Import Manager World Submission Service RateLimit Rest.
Import Config.

Open Scope dbb_scope.

(** ** Options *)

Record Options := mkOptions {
  MaxRequestBytes : Z;
  RequestTimeout : Z;
  WSAllowedOrigins : list string;
  TrustedProxyCount : Z;
  Auth : option Authenticator;
  SeparateAdmin : bool;
  RateLimited : bool
}.

Definition defaultMaxRequestBytes : Z := 2 ^ 20.
Definition defaultRequestTimeout : Z := 60 * Second.

Definition withDefaults (o : Options) : Options :=
  mkOptions (if MaxRequestBytes o <=? 0 then defaultMaxRequestBytes else MaxRequestBytes o)
    (if RequestTimeout o <=? 0 then defaultRequestTimeout else RequestTimeout o)
    (WSAllowedOrigins o) (TrustedProxyCount o) (Auth o) (SeparateAdmin o) (RateLimited o).

(** ** Declarations *)

Inductive middleware :=
| NameSpanAfterRoute | RequestID | ClientIPFromXFFTrustedProxies (n : Z) | Logger | Recoverer | RateLimit
| Timeout (d : Z) | Require (s : Scope).

(** What the source declares on a router: middleware, a route, a group, a subtree. *)
Inductive decl :=
| Use (m : middleware)
| Handle (verb pattern : string) (op : operation)
| Group (ds : list decl)
| Route (prefix : string) (ds : list decl).

Definition useCommonMiddleware (o : Options) : list decl :=
  [Use NameSpanAfterRoute; Use RequestID] ++
  (if 0 <? TrustedProxyCount o then [Use (ClientIPFromXFFTrustedProxies (TrustedProxyCount o))] else []) ++
  [Use Logger; Use Recoverer; Use RateLimit].

Definition mountAdmin (o : Options) : list decl :=
  [Group [Use (Require ScopeAdmin); Handle "*" "/metrics" Metrics];
   Route "/v1/admin"
     [Use (Timeout (RequestTimeout o)); Use (Require ScopeAdmin);
      Handle "POST" "/reload" DoReloadConfig; Handle "GET" "/can-stop" DoCanIBeStopped]].

(** The public router and the admin router, if there is one. *)
Definition setupRoutes (o : Options) : list decl * option (list decl) :=
  let public :=
    useCommonMiddleware o ++
    [Handle "GET" "/healthz" Healthz; Handle "GET" "/readyz" Readyz;
     Route "/v1"
       [Use (Require ScopeRead);
        Group [Handle "GET" "/queries/{id}/result" DoDownloadResult; Handle "GET" "/ws" DoWatch];
        Group [Use (Require ScopeWrite); Handle "POST" "/queries" DoStartQuery];
        Group
          [Use (Timeout (RequestTimeout o));
           Handle "GET" "/databases" DoListDatabases; Handle "GET" "/queries/{id}" DoGetQueryStatus;
           Handle "GET" "/queries/{id}/stats" DoGetQueryStats;
           Group [Use (Require ScopeWrite); Handle "POST" "/queries/{id}:stop" DoStopQuery]]]] in
  if SeparateAdmin o then (public, Some (useCommonMiddleware o ++ mountAdmin o))
  else (public ++ mountAdmin o, None).

Record Server := mkServer {
  router : list decl;
  adminRouter : option (list decl);
  opts : Options;
  warned : bool (* the log says that the API is open *)
}.

Definition NewServer (o : Options) : Server :=
  let o := withDefaults o in
  let '(r, a) := setupRoutes o in
  mkServer r a o (match Auth o with None => true | Some _ => false end).

(** ** Composition *)

Record entry := mkEntry { en_verb : string; en_pattern : string; en_chain : list middleware; en_op : operation }.

(** A declaration adds to the middleware in force and to the routes; what a group or
    a subtree adds to the middleware ends with it. *)
Fixpoint declare (prefix : string) (d : decl) (st : list middleware * list entry) : list middleware * list entry :=
  match d with
  | Use m => (st.1 ++ [m], st.2)
  | Handle verb pattern op => (st.1, st.2 ++ [mkEntry verb (prefix +:+ pattern) st.1 op])
  | Group ds => (st.1, (fold_left (fun st d => declare prefix d st) ds st).2)
  | Route p ds => (st.1, (fold_left (fun st d => declare (prefix +:+ p) d st) ds st).2)
  end.

Definition declared (ds : list decl) : list middleware * list entry :=
  fold_left (fun st d => declare "" d st) ds ([], []).

(** The routes of a router, and the middleware of the router itself. *)
Definition table (ds : list decl) : list entry := (declared ds).2.
Definition router_chain (ds : list decl) : list middleware := (declared ds).1.

(** ** Requests *)

Record inbound := mkInbound {
  in_verb : string;
  in_path : string;
  in_remoteAddr : string;
  in_xForwardedFor : string;
  in_request : http_request
}.

(** What a router finds for a request: a route, or none, in a subtree with the
    middleware [extra] of its own, the pattern of that subtree, and the status the
    library answers with. *)
Inductive found := Matched (e : entry) | NoRoute (extra : list middleware) (pattern : string) (st : Z).

Definition lbrace : Ascii.ascii := Ascii.ascii_of_nat 123.

Definition rbrace : Ascii.ascii := Ascii.ascii_of_nat 125.
Definition slash_char : Ascii.ascii := Ascii.ascii_of_nat 47.

(** A pattern is letters and parameters in braces. *)
Inductive tok := Lit (c : Ascii.ascii) | Par.

Fixpoint tokens (inside : bool) (pattern : string) : list tok :=
  match pattern with
  | "" => []
  | String c p =>
      if inside then tokens (negb (bool_decide (c = rbrace))) p
      else if bool_decide (c = lbrace) then Par :: tokens true p
      else Lit c :: tokens false p
  end%string.

(** A parameter matches up to the letter after it, possibly nothing, and never a
    slash. *)
Fixpoint segment (stop : Ascii.ascii) (path : string) : string * string :=
  match path with
  | "" => ("", "")
  | String c s =>
      if bool_decide (c = stop) || bool_decide (c = slash_char) then ("", path)
      else let '(seg, rest) := segment stop s in (String c seg, rest)
  end%string.

Fixpoint matches (ts : list tok) (path : string) : bool :=
  match ts with
  | [] => bool_decide (path = "")
  | Lit c :: ts => match path with String d s => bool_decide (c = d) && matches ts s | "" => false end%string
  | Par :: ts =>
      matches ts (segment (match ts with Lit c :: _ => c | _ => slash_char end) path).2
  end.

Definition fits (pattern path : string) : bool := matches (tokens false pattern) path.

(** What the code relies on of the router library. *)
Class Chi := {
  find_route : list entry -> string -> string -> found;
  xff_address : Z -> string -> string;
  find_route_fits es verb path e :
    find_route es verb path = Matched e -> e ∈ es /\ fits (en_pattern e) path = true;
  find_route_subtree es verb path extra pattern st m :
    find_route es verb path = NoRoute extra pattern st -> m ∈ extra -> exists e, e ∈ es /\ m ∈ en_chain e
}.

Section Serve.
Context `{Unicode} `{Chi} (me : captured) (authRequired : bool) (serveWS serveMetrics : handler).
(** The answer of the limiter for a key; a nil limiter allows everything. *)
Context (limiter_Allow : string -> bool).

(** One middleware around the next handler, which is given the client's address as far
    as it was resolved. *)
Definition wrap (o : Options) (i : inbound) (m : middleware) (next : string -> handler) : string -> handler := fun ip =>
  match m with
  | ClientIPFromXFFTrustedProxies n => next (xff_address n (in_xForwardedFor i))
  | RateLimit =>
      Rest.rateLimit (in_path i) (negb (RateLimited o) || limiter_Allow (KeyOf ip (in_remoteAddr i))) (next ip)
  | Require s => Rest.require (Auth o) s (next ip)
  | NameSpanAfterRoute | RequestID | Logger | Recoverer | Timeout _ => next ip
  end.

Definition chained (o : Options) (i : inbound) (chain : list middleware) (h : handler) : handler :=
  fold_right (wrap o i) (fun _ => h) chain "".

Definition notFound (st : Z) : handler := fun _ _ => Ret (mkResponse st [] (BodyText "")).

(** A request to a router. *)
Definition serve (o : Options) (ds : list decl) (i : inbound) : M response :=
  match find_route (table ds) (in_verb i) (in_path i) with
  | Matched e =>
      chained o i (en_chain e) (handler_of me authRequired (MaxRequestBytes o) serveWS serveMetrics (en_op e)) None (in_request i)
  | NoRoute extra _ st => chained o i (router_chain ds ++ extra) (notFound st) None (in_request i)
  end.

(** The handlers of the two listeners; [None] is no listener. *)
Definition Handler (s : Server) : option (inbound -> M response) := Some (serve (opts s) (router s)).

Definition AdminHandler (s : Server) : option (inbound -> M response) := serve (opts s) <$> adminRouter s.

End Serve.

(** ** Spans *)

Definition untracedPaths : list string := ["/healthz"; "/readyz"; "/metrics"].

(** The span is named after the verb, and once the router is done renamed after the
    pattern it found, if it found one. *)
Definition nameSpanAfterRoute (verb pattern : string) : string :=
  if bool_decide (pattern = "") then verb else verb +:+ " " +:+ pattern.

(** The name of the span of a request, [None] for none. *)
Definition traced `{Chi} (ds : list decl) (i : inbound) : option string :=
  if bool_decide (in_path i ∈ untracedPaths) then None
  else match find_route (table ds) (in_verb i) (in_path i) with
       | Matched e => Some (nameSpanAfterRoute (in_verb i) (en_pattern e))
       | NoRoute _ pattern _ => Some (nameSpanAfterRoute (in_verb i) pattern)
       end.

(** ** The table of routes *)

Definition gates (chain : list middleware) : list Scope :=
  omap (fun m => match m with Require s => Some s | _ => None end) chain.

Definition route_of (e : entry) : route := mkRoute (en_verb e) (en_pattern e) (gates (en_chain e)) (en_op e).

(** The middleware of every router. *)
Definition common (o : Options) : list middleware :=
  [NameSpanAfterRoute; RequestID] ++
  (if 0 <? TrustedProxyCount o then [ClientIPFromXFFTrustedProxies (TrustedProxyCount o)] else []) ++
  [Logger; Recoverer; RateLimit].

(** Operations that take as long as they take. *)
Definition unbounded (op : operation) : bool :=
  match op with
  | Healthz | Readyz | DoStartQuery | DoDownloadResult | DoWatch | Metrics => true
  | _ => false
  end.

Definition timeouts (chain : list middleware) : list Z :=
  omap (fun m => match m with Timeout d => Some d | _ => None end) chain.

(** What a route is wrapped in: the common middleware, and within it a deadline for
    the operations that have one and the scopes. *)
Definition wrapped_as (o : Options) (e : entry) : Prop :=
  exists rest, en_chain e = common o ++ rest /\
    timeouts rest = (if unbounded (en_op e) then [] else [RequestTimeout o]) /\
    Forall (fun m => match m with Timeout _ | Require _ => True | _ => False end) rest.

Lemma setup_tables o :
  let '(r, a) := setupRoutes o in
  map route_of (table r) = public_router (SeparateAdmin o) /\ Forall (wrapped_as o) (table r) /\
  map route_of (default [] (table <$> a)) = admin_router (SeparateAdmin o) /\
  Forall (wrapped_as o) (default [] (table <$> a)).
Proof.
  unfold setupRoutes, useCommonMiddleware. destruct (SeparateAdmin o), (0 <? TrustedProxyCount o) eqn:E; cbn -[common];
    unfold common; rewrite ?E; split_and!; try reflexivity; repeat constructor;
    (eexists; unfold common; rewrite E; split_and!; [reflexivity|reflexivity|repeat constructor]).
Qed.

(** The routers a server is built with are the table of routes: every route has the
    scopes of the table, and is wrapped in the same middleware - the address of the
    client, the log, the recovery and the rate limit in that order around everything
    else - with the deadline of a request, never zero, on exactly the operations that
    answer at once. *)
Theorem server_table o :
  let s := NewServer o in
  let admin := default [] (table <$> adminRouter s) in
  map route_of (table (router s)) = public_router (SeparateAdmin o) /\
  map route_of admin = admin_router (SeparateAdmin o) /\
  (is_Some (adminRouter s) <-> SeparateAdmin o = true) /\
  Forall (wrapped_as (opts s)) (table (router s) ++ admin) /\
  0 < RequestTimeout (opts s) /\ 0 < MaxRequestBytes (opts s).
Proof.
  cbv zeta. unfold NewServer. pose proof (setup_tables (withDefaults o)) as Hst.
  destruct (setupRoutes (withDefaults o)) as [r a] eqn:Hs. cbn [router adminRouter opts].
  destruct Hst as (H1 & H2 & H3 & H4). split_and!; [done|done| |by apply Forall_app| |].
  - unfold setupRoutes in Hs. cbn [withDefaults SeparateAdmin] in Hs. destruct (SeparateAdmin o); simplify_eq; split; [done|eauto|by intros []|done].
  - cbn. destruct (Z.leb_spec (RequestTimeout o) 0); [by vm_compute|done].
  - cbn. destruct (Z.leb_spec (MaxRequestBytes o) 0); [by vm_compute|done].
Qed.

(** ** Requests are gated *)

Section Gated.
Context `{Unicode} `{Chi} (me : captured) (authRequired : bool) (serveWS serveMetrics : handler).
Context (limiter_Allow : string -> bool).

(** The address a request is counted under. *)
Definition client_ip (o : Options) (i : inbound) : string :=
  if 0 <? TrustedProxyCount o then xff_address (TrustedProxyCount o) (in_xForwardedFor i) else "".

Definition allowed (o : Options) (i : inbound) : bool :=
  negb (RateLimited o) || limiter_Allow (KeyOf (client_ip o i) (in_remoteAddr i)).

Lemma chained_gates o i rest h ip :
  Forall (fun m => match m with Timeout _ | Require _ => True | _ => False end) rest ->
  fold_right (wrap limiter_Allow o i) (fun _ => h) rest ip = gated (Auth o) (gates rest) h.
Proof.
  induction 1 as [|m rest Hm _ IH]; [done|]. cbn [fold_right]. destruct m; try done; try exact IH.
  cbn [wrap gates omap list_omap]. unfold gated. cbn [fold_right]. f_equal. exact IH.
Qed.

Lemma chained_common o i rest h :
  Forall (fun m => match m with Timeout _ | Require _ => True | _ => False end) rest ->
  chained limiter_Allow o i (common o ++ rest) h =
  Rest.rateLimit (in_path i) (allowed o i) (gated (Auth o) (gates rest) h).
Proof.
  intros Hr. unfold chained, common, allowed, client_ip.
  destruct (0 <? TrustedProxyCount o); cbn [app fold_right wrap]; by rewrite (chained_gates _ _ _ _ _ Hr).
Qed.

(** Whatever middleware a request without a route passes, nothing happens. *)
Lemma no_route_idle o i chain st ip caller rq tr resp :
  executes (fold_right (wrap limiter_Allow o i) (fun _ => notFound st) chain ip caller rq) tr resp -> tr = [].
Proof.
  revert ip caller tr resp. induction chain as [|m chain IH]; intros ip caller tr resp; [by intros [-> _]|].
  cbn [fold_right]. destruct m; cbn [wrap]; try apply IH.
  - unfold Rest.rateLimit. destruct (_ || _); [apply IH|]. destruct (_ || _); [apply IH|]. by intros [-> _].
  - unfold require. destruct (Auth o) as [a|]; [|apply IH]. destruct (Authenticate a _) as [id|e]; [|by intros [-> _]].
    destruct (Has id s); [|by intros [-> _]]. intros (t1 & t2 & r & -> & Hex & [-> _])%executes_bind.
    by rewrite app_nil_r, (IH _ _ _ _ Hex).
Qed.

Lemma gates_common o rest : gates (common o ++ rest) = gates rest.
Proof. unfold common, gates. rewrite omap_app. by destruct (0 <? TrustedProxyCount o). Qed.

(** The paths of routes that are not probes are not those of the probes. *)
Lemma probe_paths e path separateAdmin :
  route_of e ∈ public_router separateAdmin ++ admin_router separateAdmin -> fits (en_pattern e) path = true ->
  (path = "/healthz" \/ path = "/readyz") -> route_of e ∈ probe_routes.
Proof.
  intros Hin Hfit Hp. change (en_pattern e) with (rt_pattern (route_of e)) in Hfit. revert Hin Hfit.
  generalize (route_of e). intros rt Hin Hfit. assert (rt ∈ probe_routes ++ v1_routes ++ admin_routes) as Hin'.
  { unfold public_router, admin_router in Hin. destruct separateAdmin; set_solver. }
  clear Hin. unfold v1_routes, admin_routes, probe_routes in *. cbn [app] in Hin'.
  repeat (apply elem_of_cons in Hin' as [-> | Hin']; [destruct Hp as [-> | ->]; first [discriminate Hfit|set_solver]|]).
  by apply elem_of_nil in Hin'.
Qed.

Definition is_probe (op : operation) : bool := match op with Healthz | Readyz => true | _ => false end.

Lemma table_entry o ds e :
  let s := NewServer o in
  ds = router s \/ adminRouter s = Some ds -> e ∈ table ds ->
  route_of e ∈ public_router (SeparateAdmin o) ++ admin_router (SeparateAdmin o) /\ wrapped_as (opts s) e.
Proof.
  cbv zeta. intros Hds He. unfold NewServer in *. pose proof (setup_tables (withDefaults o)) as Hst.
  destruct (setupRoutes (withDefaults o)) as [r a] eqn:Hs. cbn [router adminRouter opts] in *.
  destruct Hst as (H1 & H2 & H3 & H4). change (SeparateAdmin (withDefaults o)) with (SeparateAdmin o) in *.
  rewrite <- H1, <- H3. destruct Hds as [-> | ->].
  - split; [apply elem_of_app; left; by apply list_elem_of_fmap_2|]. rewrite Forall_forall in H2. by apply H2.
  - split; [apply elem_of_app; right; by apply list_elem_of_fmap_2|]. rewrite Forall_forall in H4. by apply H4.
Qed.

Lemma probe_route rt : rt ∈ probe_routes -> is_probe (rt_op rt) = true /\ rt_gates rt = [].
Proof. unfold probe_routes. rewrite !elem_of_cons, elem_of_nil. by intros [-> | [-> | []]]. Qed.

Lemma gates_nonempty rt separateAdmin :
  rt ∈ public_router separateAdmin ++ admin_router separateAdmin -> is_probe (rt_op rt) = false -> rt_gates rt <> [].
Proof.
  intros Hin Hop. assert (rt ∈ probe_routes ++ v1_routes ++ admin_routes) as Hin'.
  { unfold public_router, admin_router in Hin. destruct separateAdmin; set_solver. }
  unfold v1_routes, admin_routes, probe_routes in Hin'. cbn [app] in Hin'.
  repeat (apply elem_of_cons in Hin' as [-> | Hin']; [done|]). by apply elem_of_nil in Hin'.
Qed.

Lemma fits_literal p path : string_has lbrace p = false -> fits p path = true -> path = p.
Proof.
  unfold fits. revert path. induction p as [|c p IH]; intros path; cbn [string_has tokens matches].
  { intros _ ->%bool_decide_eq_true. done. }
  intros [Hc Hp]%orb_false_iff. rewrite bool_decide_eq_false in Hc.
  rewrite bool_decide_eq_false_2 by congruence. cbn [matches]. destruct path as [|d path]; [done|].
  intros [->%bool_decide_eq_true Hf]%andb_true_iff. f_equal. by apply IH.
Qed.

Lemma probe_pattern e path separateAdmin :
  route_of e ∈ public_router separateAdmin ++ admin_router separateAdmin -> fits (en_pattern e) path = true ->
  is_probe (en_op e) = true -> gates (en_chain e) = [] /\ (path = "/healthz" \/ path = "/readyz").
Proof.
  intros Hin Hfit Hop. change (en_pattern e) with (rt_pattern (route_of e)) in Hfit.
  change (en_op e) with (rt_op (route_of e)) in Hop. change (gates (en_chain e)) with (rt_gates (route_of e)). revert Hin Hfit Hop.
  generalize (route_of e). intros rt Hin Hfit Hop. assert (rt ∈ probe_routes ++ v1_routes ++ admin_routes) as Hin'.
  { unfold public_router, admin_router in Hin. destruct separateAdmin; set_solver. }
  clear Hin. unfold v1_routes, admin_routes, probe_routes in *. cbn [app] in Hin'.
  repeat (apply elem_of_cons in Hin' as [-> | Hin']; [first [discriminate Hop|apply fits_literal in Hfit as ->; [auto|reflexivity]]|]).
  by apply elem_of_nil in Hin'.
Qed.

(** A request to the assembled server. *)
Lemma serve_spec o a ds i tr resp :
  let s := NewServer o in
  Auth o = Some a -> (ds = router s \/ adminRouter s = Some ds) ->
  executes (serve me authRequired serveWS serveMetrics limiter_Allow (opts s) ds i) tr resp ->
  match find_route (table ds) (in_verb i) (in_path i) with
  | NoRoute _ _ _ => tr = []
  | Matched e =>
      let h := handler_of me authRequired (MaxRequestBytes (opts s)) serveWS serveMetrics (en_op e) in
      if is_probe (en_op e) then executes (h None (in_request i)) tr resp
      else if negb (allowed o i) then denied 429 resp tr
      else match Authenticate a (credential (in_request i)) with
           | Err _ => denied 401 resp tr
           | Ok id =>
               if forallb (Has id) (gates (en_chain e))
               then exists resp', executes (h (Some id) (in_request i)) tr resp' /\
                      status resp = status resp' /\ resp_body resp = resp_body resp'
               else denied 403 resp tr
           end
  end.
Proof.
  cbv zeta. intros Ha Hds. unfold serve.
  destruct (find_route (table ds) (in_verb i) (in_path i)) as [e|extra pat st] eqn:Hf; [|apply no_route_idle].
  apply find_route_fits in Hf as [He Hfit]. destruct (table_entry o ds e Hds He) as [Hin (rest & Hch & _ & Hrest)].
  assert (Auth (opts (NewServer o)) = Some a) as Hauth.
  { unfold NewServer. destruct (setupRoutes (withDefaults o)). done. }
  assert (allowed (opts (NewServer o)) i = allowed o i) as Hal.
  { unfold NewServer. destruct (setupRoutes (withDefaults o)). done. }
  rewrite Hch, (chained_common _ _ _ _ Hrest), gates_common, Hal, Hauth. unfold rateLimit.
  destruct (is_probe (en_op e)) eqn:Hop.
  - destruct (probe_pattern _ _ _ Hin Hfit Hop) as [Hg Hp]. rewrite Hch, gates_common in Hg. rewrite Hg.
    by destruct Hp as [-> | ->].
  - assert (bool_decide (in_path i = "/healthz") || bool_decide (in_path i = "/readyz") = false) as ->.
    { apply orb_false_iff. split; apply bool_decide_eq_false; intros Hp;
        (destruct (probe_route (route_of e)) as [Hx _]; [eapply probe_paths; eauto|]; simpl in Hx; congruence). }
    destruct (allowed o i); cbn [negb]; [|by intros [-> ->]]. intros Hex.
    apply (gated_spec _ (gates rest)) in Hex; [done|].
    pose proof (gates_nonempty (route_of e) _ Hin Hop) as Hne. cbn [route_of rt_gates] in Hne. by rewrite Hch, gates_common in Hne.
Qed.

(** C21. The assembled server, on the public listener and on the one for administration
    alike, with authentication configured: a request for which there is no route has no
    effect; the probes are answered to anyone; and every other request is refused with
    429, 401 or 403 and without an effect, unless the limiter admits the address it is
    counted under and its credential is valid and has every scope of the route, in
    which case the handler of the route runs as that caller. *)
Theorem server_gated o a ds i tr resp :
  let s := NewServer o in
  Auth o = Some a -> (ds = router s \/ adminRouter s = Some ds) ->
  executes (serve me authRequired serveWS serveMetrics limiter_Allow (opts s) ds i) tr resp ->
  match find_route (table ds) (in_verb i) (in_path i) with
  | NoRoute _ _ _ => tr = []
  | Matched e =>
      let h := handler_of me authRequired (MaxRequestBytes (opts s)) serveWS serveMetrics (en_op e) in
      if is_probe (en_op e) then executes (h None (in_request i)) tr resp
      else if negb (allowed o i) then denied 429 resp tr
      else match Authenticate a (credential (in_request i)) with
           | Err _ => denied 401 resp tr
           | Ok id =>
               if forallb (Has id) (gates (en_chain e))
               then exists resp', executes (h (Some id) (in_request i)) tr resp' /\
                      status resp = status resp' /\ resp_body resp = resp_body resp'
               else denied 403 resp tr
           end
  end.
Proof. apply serve_spec. Qed.

Definition reads_header (m : middleware) : bool := match m with ClientIPFromXFFTrustedProxies _ => true | _ => false end.

Lemma chained_header o i header chain h ip :
  Forall (fun m => reads_header m = false) chain ->
  fold_right (wrap limiter_Allow o i) (fun _ => h) chain ip =
  fold_right (wrap limiter_Allow o (mkInbound (in_verb i) (in_path i) (in_remoteAddr i) header (in_request i))) (fun _ => h) chain ip.
Proof.
  induction 1 as [|m chain Hm _ IH]; [done|]. cbn [fold_right]. destruct m; try done; cbn [wrap in_path in_remoteAddr]; by rewrite IH.
Qed.

Lemma common_header o : TrustedProxyCount o <= 0 -> Forall (fun m => reads_header m = false) (common o).
Proof. intros Ho. unfold common. destruct (Z.ltb_spec 0 (TrustedProxyCount o)); [lia|]. by repeat constructor. Qed.

Lemma router_common o ds :
  let s := NewServer o in ds = router s \/ adminRouter s = Some ds -> router_chain ds = common (opts s).
Proof.
  cbv zeta. unfold NewServer, setupRoutes, useCommonMiddleware. unfold common.
  destruct (SeparateAdmin _), (0 <? TrustedProxyCount _) eqn:E; cbn [router adminRouter opts]; rewrite ?E;
    intros [->|[= <-]]; reflexivity.
Qed.

Lemma entry_header o ds e :
  let s := NewServer o in
  TrustedProxyCount o <= 0 -> ds = router s \/ adminRouter s = Some ds -> e ∈ table ds ->
  Forall (fun m => reads_header m = false) (en_chain e).
Proof.
  cbv zeta. intros Ho Hds He. destruct (table_entry o ds e Hds He) as [_ (rest & -> & _ & Hrest)]. apply Forall_app. split.
  - apply common_header. unfold NewServer. by destruct (setupRoutes (withDefaults o)).
  - eapply Forall_impl; [exact Hrest|]. by intros [].
Qed.

(** Without a configured proxy the header X-Forwarded-For has no say: of two requests
    that differ in it alone, the second is handled as the first is, by the same
    program, so that a caller cannot mint itself a rate limit with it. *)
Theorem forwarded_header_untrusted o ds i header :
  TrustedProxyCount o <= 0 ->
  ds = router (NewServer o) \/ adminRouter (NewServer o) = Some ds ->
  serve me authRequired serveWS serveMetrics limiter_Allow (opts (NewServer o)) ds i =
  serve me authRequired serveWS serveMetrics limiter_Allow (opts (NewServer o)) ds
    (mkInbound (in_verb i) (in_path i) (in_remoteAddr i) header (in_request i)).
Proof.
  intros Ho Hds. unfold serve. cbn [in_verb in_path in_request].
  destruct (find_route (table ds) (in_verb i) (in_path i)) as [e|extra pat st] eqn:Hf.
  - apply find_route_fits in Hf as [He _]. unfold chained. rewrite (chained_header _ i header); [done|]. by eapply entry_header.
  - unfold chained. rewrite (chained_header _ i header); [done|]. apply Forall_app. split.
    + rewrite (router_common o ds Hds). apply common_header. unfold NewServer. by destruct (setupRoutes (withDefaults o)).
    + apply Forall_forall. intros m Hm. eapply find_route_subtree in Hf as (e & He & Hin); [|exact Hm].
      pose proof (entry_header o ds e Ho Hds He) as Hall. rewrite Forall_forall in Hall. by apply Hall.
Qed.

End Gated.

(** ** Examples *)

(** A router that takes the first route that fits. *)
Definition first_route (es : list entry) (verb path : string) : found :=
  match List.find (fun e => (bool_decide (en_verb e = verb) || bool_decide (en_verb e = "*")) && fits (en_pattern e) path) es with
  | Some e => Matched e
  | None => NoRoute [] "" 404
  end.

#[export] Program Instance demo_chi : Chi := { find_route := first_route; xff_address := fun _ _ => "" }.
Next Obligation.
  intros es verb path e. unfold first_route. destruct (List.find _ es) as [e'|] eqn:Hf; [|done]. intros [= ->].
  apply find_some in Hf as [Hin [_ Hfit]%andb_true_iff]. split; [by apply list_elem_of_In|done].
Qed.
Next Obligation.
  intros es verb path extra pattern st m. unfold first_route. destruct (List.find _ es); [done|]. intros [= <- <- <-]. set_solver.
Qed.

Definition rest_options : Options := mkOptions 0 0 [] 0 (Some demo_auth) true true.

Definition status_request (header : string) : inbound :=
  mkInbound "GET" "/v1/queries/q1" "10.0.0.1:5000" header (get_request "").

Definition demo_serve (header : string) : M response :=
  serve (self demo_qm) true no_handler no_handler (fun _ => true) (opts (NewServer rest_options))
    (router (NewServer rest_options)) (status_request header).

Lemma server_gated_witness :
  exists resp, executes (handleGetQueryStatus true (Some alice) (get_request ""))
                 (demo_run (demo_serve "") (finished_world "alice")).1.2 resp /\ status resp = 200.
Proof.
  destruct (server_gated (self demo_qm) true no_handler no_handler (fun _ => true) rest_options demo_auth
    (router (NewServer rest_options)) (status_request "") _ _ eq_refl (or_introl eq_refl)
    (demo_executes (demo_serve "") (finished_world "alice"))) as (resp & Hex & Hst & _).
  exists resp. split; [exact Hex|]. rewrite <- Hst. vm_compute. reflexivity.
Defined.

Lemma forwarded_header_untrusted_witness : demo_serve "" = demo_serve "203.0.113.7".
Proof.
  apply (forwarded_header_untrusted (self demo_qm) true no_handler no_handler (fun _ => true) rest_options
    (router (NewServer rest_options)) (status_request "") "203.0.113.7").
  - discriminate.
  - left. reflexivity.
Defined.

(** Probes and scrapes have no span; the span of any other request for a route is named
    after the route, whatever query it is for. *)
Lemma span_names :
  traced (router (NewServer rest_options)) (mkInbound "GET" "/healthz" "" "" (get_request "")) = None /\
  traced (router (NewServer rest_options)) (status_request "") = Some "GET /v1/queries/{id}".
Proof. split; vm_compute; reflexivity. Qed.
