(* ===== verification/RestWire.v ===== *)
(** * REST bodies

    The JSON of [internal/transport/rest]: how a submission is read from the body of a
    request of limited size ([json.NewDecoder] over [http.MaxBytesReader]) and what
    [writeJSON] puts into the body of a response. *)

From S2P Require Import Prelude Domain Utf8 Text Json JsonScan SqlGuard Authn Lifecycle Config MetaStore RecordJson.
From S2P Require Import Prog ManagerState Manager World Submission Service Rest.

Open Scope Z_scope.
Open Scope dbb_scope.

(** ** Reading a submission *)

Definition payload_option_fields : list string :=
  ["timeout_ms"; "mode"; "result_ttl_seconds"; "result_format"; "storage_backend"].

Definition payload_fields : list string := ["database_id"; "sql"; "options"].

Definition set_payload_option (f : string) (v : Json.json) (p : StartQueryPayload) : option StartQueryPayload :=
  let '(mkPayload db sql timeout mode ttl format backend) := p in
  if bool_decide (f = "timeout_ms") then (fun z => mkPayload db sql z mode ttl format backend) <$> decode_int64 v timeout
  else if bool_decide (f = "mode") then (fun s => mkPayload db sql timeout s ttl format backend) <$> decode_string v mode
  else if bool_decide (f = "result_ttl_seconds") then (fun z => mkPayload db sql timeout mode z format backend) <$> decode_int64 v ttl
  else if bool_decide (f = "result_format") then (fun s => mkPayload db sql timeout mode ttl s backend) <$> decode_string v format
  else (fun s => mkPayload db sql timeout mode ttl format s) <$> decode_string v backend.

Definition set_start_payload (f : string) (v : Json.json) (p : StartQueryPayload) : option StartQueryPayload :=
  let '(mkPayload db sql timeout mode ttl format backend) := p in
  if bool_decide (f = "database_id") then (fun s => mkPayload s sql timeout mode ttl format backend) <$> decode_string v db
  else if bool_decide (f = "sql") then (fun s => mkPayload db s timeout mode ttl format backend) <$> decode_string v sql
  else decode_struct payload_option_fields set_payload_option v p.

Definition zero_start_payload : StartQueryPayload := mkPayload "" "" 0 "" 0 "" "".

Definition decode_start_payload (v : Json.json) : option StartQueryPayload :=
  decode_struct payload_fields set_start_payload v zero_start_payload.

(** The bytes of a value, decoded. *)
Definition unmarshal_payload (data : bytes) : decoded :=
  match parse data ≫= decode_start_payload with Some p => Decoded p | None => BodyMalformed end.

(** [json.NewDecoder(r.Body).Decode(&payload)] with the body cut at the limit: the
    decoder takes the first value and does not look at what follows it. When the bytes
    run out first, the reader reports that the body was too large, or its end. *)
Definition read_payload (limit : Z) (data : bytes) : decoded :=
  let seen := take (Z.to_nat limit) data in
  match scan_value seen with
  | VEnd n => unmarshal_payload (take n seen)
  | VError => BodyMalformed
  | VMore c =>
      if limit <? Z.of_nat (length data) then BodyTooLarge
      else if complete_at_eof c then unmarshal_payload seen
      else BodyMalformed
  end.

(** ** Writing a response *)

Definition json_options_dto (o : queryOptionsDTO) : Json.json :=
  JObj (member "timeout_ms" (json_int (TimeoutMs o)) ++
        member "mode" (json_string (dto_Mode o)) ++
        member "result_ttl_seconds" (json_int (ResultTTLSeconds o)) ++
        member_if (nonempty (dto_OptIdempotencyKey o)) "idempotency_key" (json_string (dto_OptIdempotencyKey o)) ++
        member "result_format" (json_string (dto_ResultFormat o)) ++
        member "storage_backend" (json_string (dto_StorageBackend o))).

Definition json_stats_dto (s : queryStatsDTO) : Json.json :=
  JObj (member "rows_read" (json_int (dto_RowsRead s)) ++
        member "bytes_written" (json_int (dto_BytesWritten s)) ++
        member "db_exec_duration_ms" (json_int (DBExecDurationMs s)) ++
        member "storage_write_duration_ms" (json_int (StorageWriteDurationMs s)) ++
        member "total_duration_ms" (json_int (TotalDurationMs s))).

Definition json_ref_dto (r : ResultRef) : Json.json :=
  JObj (member "backend" (json_string (Backend r)) ++
        member "locator" (json_string (Locator r)) ++
        member "size_bytes" (json_int (SizeBytes r)) ++
        member "row_count" (json_int (RowCount r)) ++
        member "format" (json_string (Format r)) ++
        member_if (nonempty (Checksum r)) "checksum" (json_string (Checksum r))).

Definition json_list {A} (f : A -> Json.json) (l : list A) : Json.json := JArr (map f l).

Definition json_database (d : DatabaseInfo) : Json.json :=
  JObj (member "id" (json_string (db_ID d)) ++
        member "engine" (json_string (db_Engine d)) ++
        member "display_name" (json_string (db_DisplayName d)) ++
        member "healthy" (JBool (db_Healthy d))).

Definition json_report (r : ReloadReport) : Json.json :=
  let strs := json_list json_string in
  let if_any (name : string) (l : list string) := match l with [] => [] | _ => member name (strs l) end in
  JObj (member "added" (strs (Added r)) ++
        member "removed" (strs (Removed r)) ++
        member "updated" (strs (Updated r)) ++
        if_any "ignored" (Ignored r) ++
        if_any "failures" (Failures r)).

Section Times.
Context (zone : time -> Z).

Definition json_record_dto (r : queryRecordDTO) : Json.json :=
  let if_set (name : string) (t : option time) := match t with Some t => member name (json_time zone t) | None => [] end in
  JObj (member "id" (json_string (dto_ID r)) ++
        member "database_id" (json_string (dto_DatabaseID r)) ++
        member "sql" (json_string (dto_SQL r)) ++
        member "options" (json_options_dto (dto_Options r)) ++
        member "state" (json_string (dto_State r)) ++
        member "owner_instance_id" (json_string (dto_OwnerInstanceID r)) ++
        member "created_at" (json_time zone (dto_CreatedAt r)) ++
        if_set "started_at" (dto_StartedAt r) ++
        if_set "finished_at" (dto_FinishedAt r) ++
        if_set "lease_deadline" (dto_LeaseDeadline r) ++
        match dto_Error r with Some e => member "error" (json_error e) | None => [] end ++
        member "stats" (json_stats_dto (dto_Stats r)) ++
        match dto_Result r with Some ref => member "result" (json_ref_dto ref) | None => [] end ++
        member_if (nonempty (dto_IdempotencyKey r)) "idempotency_key" (json_string (dto_IdempotencyKey r)) ++
        member_if (nonempty (dto_Subject r)) "subject" (json_string (dto_Subject r))).

(** The times of a record can be encoded. *)
Definition dto_encodable (r : queryRecordDTO) : bool :=
  let ok t := year_in_range (zone t) t in
  let ok_if o := match o with Some t => ok t | None => true end in
  ok (dto_CreatedAt r) && ok_if (dto_StartedAt r) && ok_if (dto_FinishedAt r) && ok_if (dto_LeaseDeadline r).

(** What is put into a body as JSON; a map has its keys in order. *)
Definition json_body (b : body) : option Json.json :=
  match b with
  | BodyError message requestID =>
      Some (JObj (member "error" (json_string message) ++ member_if (nonempty requestID) "request_id" (json_string requestID)))
  | BodyRecord r => if dto_encodable r then Some (json_record_dto r) else None
  | BodyStopped queryID => Some (JObj (member "query_id" (json_string queryID) ++ member "status" (json_string "STOPPED")))
  | BodyStats s => Some (json_stats_dto s)
  | BodyDatabases dbs => Some (json_list json_database dbs)
  | BodyReload report =>
      Some (JObj (member "message" (json_string "Config reloaded successfully") ++ member "report" (json_report report) ++
                  member "success" (JBool true)))
  | BodyCanStop canStop inFlight st =>
      Some (JObj (member "can_be_stopped" (JBool canStop) ++ member "in_flight" (json_int inFlight) ++
                  member "instance_state" (json_string (Lifecycle.State_string st))))
  | BodyText _ | BodyStream _ _ => None
  end.

(** [writeJSON]: the encoder ends the value with a line feed; on a failure nothing is
    written. *)
Definition writeJSON (b : body) : bytes :=
  match json_body b with Some v => print v ++ [10] | None => [] end.

(** [writeText]. *)
Definition writeText (s : string) : bytes := bytes_of s.

End Times.

(** ** Submissions are read as they were written *)

Ltac split_members :=
  lazymatch goal with
  | |- members_ok _ (_ ++ _) => apply members_ok_app; [split_members|split_members]
  | |- members_ok _ (member _ _) => first [apply member_leaf; [solve [apply leaf_string|apply leaf_int|apply leaf_bool]|lia]|idtac]
  | |- _ => idtac
  end.

(** The names are concrete, so that the struct decoders compute. *)
Ltac decode_leaves :=
  repeat (simpl; first [rewrite parse_FormatInt by done
                       |rewrite unquote_quote by done; rewrite string_of_bytes_of]); simpl.

(** A submission as a client writes it. *)
Definition json_start_payload (p : StartQueryPayload) : Json.json :=
  JObj (member "database_id" (json_string (pay_DatabaseID p)) ++
        member "sql" (json_string (pay_SQL p)) ++
        member "options"
          (JObj (member "timeout_ms" (json_int (pay_TimeoutMs p)) ++
                 member "mode" (json_string (pay_Mode p)) ++
                 member "result_ttl_seconds" (json_int (pay_ResultTTLSeconds p)) ++
                 member "result_format" (json_string (pay_ResultFormat p)) ++
                 member "storage_backend" (json_string (pay_StorageBackend p))))).

Record payload_ok (p : StartQueryPayload) : Prop := {
  po_text : text_ok (pay_DatabaseID p) /\ text_ok (pay_SQL p) /\ text_ok (pay_Mode p) /\
            text_ok (pay_ResultFormat p) /\ text_ok (pay_StorageBackend p);
  po_ints : is_int64 (pay_TimeoutMs p) /\ is_int64 (pay_ResultTTLSeconds p)
}.

Lemma json_start_payload_ok p : wf (json_start_payload p) /\ 0 <= height (json_start_payload p) <= 2.
Proof.
  apply (wf_JObj 1); [lia|]. split_members. apply member_ok; apply (wf_JObj 0); (lia || split_members).
Qed.

Lemma decode_json_start_payload p : payload_ok p -> decode_start_payload (json_start_payload p) = Some p.
Proof. intros [(? & ? & ? & ? & ?) [? ?]]. destruct p. by decode_leaves. Qed.

Lemma payload_found p rest :
  let text := print (json_start_payload p) in
  scan_value (text ++ rest) = VEnd (length text) /\
  forall m, (m < length text)%nat -> exists c, scan_value (take m text) = VMore c.
Proof.
  destruct (json_start_payload_ok p) as [Hwf Hh]. cbv zeta. set (text := print _).
  assert (parse_value (2 * length text + 2) 0 text = Some (json_start_payload p, [])) as Hp.
  { rewrite <- (app_nil_r text) at 2. apply print_parse_value; [done| |unfold maxNestingDepth; lia|done].
    pose proof (weight_length (json_start_payload p)). unfold text. lia. }
  destruct (bracketed_found text _ [] text Hp) as [Hf Hc]; [done|by rewrite app_nil_r|]. by split.
Qed.

(** A submission that fits the limit is read as it was written. *)
Lemma read_printed limit p rest :
  0 <= limit -> payload_ok p ->
  read_payload limit (print (json_start_payload p) ++ rest) =
    if Z.of_nat (length (print (json_start_payload p))) <=? limit then Decoded p else BodyTooLarge.
Proof.
  intros Hl Hp. unfold read_payload. cbv zeta. set (text := print _). rewrite length_app.
  destruct (Z.leb_spec (Z.of_nat (length text)) limit) as [Hfit|Hlong].
  - rewrite take_app_ge by lia. rewrite (proj1 (payload_found p _)). fold text.
    rewrite take_app_length. unfold unmarshal_payload. destruct (json_start_payload_ok p) as [Hwf Hh].
    unfold text. rewrite parse_print by (done || unfold maxNestingDepth; lia).
    cbn [mbind option_bind]. by rewrite decode_json_start_payload.
  - rewrite take_app_le by lia. destruct (proj2 (payload_found p []) (Z.to_nat limit)) as [c Hc]; [fold text; lia|].
    fold text in Hc. rewrite Hc. by rewrite (proj2 (Z.ltb_lt _ _)) by lia.
Qed.

(** C36. The body of a submission is read with its limit. A submission that fits is read
    as the client wrote it, whatever follows it; one that does not fit is answered as
    too large, and of such a body the server looks at no more than the limit and
    whether there was more. *)
Theorem submission_read limit data :
  0 <= limit ->
  (forall p rest, payload_ok p -> data = print (json_start_payload p) ++ rest ->
     read_payload limit data =
       if Z.of_nat (length (print (json_start_payload p))) <=? limit then Decoded p else BodyTooLarge) /\
  (forall more, limit < Z.of_nat (length data) -> read_payload limit (data ++ more) = read_payload limit data).
Proof.
  intros Hl. split; [intros p rest Hp ->; by apply read_printed|].
  intros more Hlen. unfold read_payload. cbv zeta. rewrite take_app_le by lia.
  rewrite !(proj2 (Z.ltb_lt _ _)); [done|lia|]. rewrite length_app. lia.
Qed.

(** ** Answers read back *)

Definition options_dto_fields : list string :=
  ["timeout_ms"; "mode"; "result_ttl_seconds"; "idempotency_key"; "result_format"; "storage_backend"].
Definition stats_dto_fields : list string :=
  ["rows_read"; "bytes_written"; "db_exec_duration_ms"; "storage_write_duration_ms"; "total_duration_ms"].
Definition record_dto_fields : list string :=
  ["id"; "database_id"; "sql"; "options"; "state"; "owner_instance_id"; "created_at"; "started_at"; "finished_at";
   "lease_deadline"; "error"; "stats"; "result"; "idempotency_key"; "subject"].

Definition set_options_dto (f : string) (v : Json.json) (o : queryOptionsDTO) : option queryOptionsDTO :=
  let '(mkOptionsDTO timeout mode ttl key fmt backend) := o in
  if bool_decide (f = "timeout_ms") then (fun x => mkOptionsDTO x mode ttl key fmt backend) <$> decode_int64 v timeout
  else if bool_decide (f = "mode") then (fun x => mkOptionsDTO timeout x ttl key fmt backend) <$> decode_string v mode
  else if bool_decide (f = "result_ttl_seconds") then (fun x => mkOptionsDTO timeout mode x key fmt backend) <$> decode_int64 v ttl
  else if bool_decide (f = "idempotency_key") then (fun x => mkOptionsDTO timeout mode ttl x fmt backend) <$> decode_string v key
  else if bool_decide (f = "result_format") then (fun x => mkOptionsDTO timeout mode ttl key x backend) <$> decode_string v fmt
  else (fun x => mkOptionsDTO timeout mode ttl key fmt x) <$> decode_string v backend.

Definition set_stats_dto (f : string) (v : Json.json) (s : queryStatsDTO) : option queryStatsDTO :=
  let '(mkStatsDTO rows bytes db store total) := s in
  if bool_decide (f = "rows_read") then (fun x => mkStatsDTO x bytes db store total) <$> decode_int64 v rows
  else if bool_decide (f = "bytes_written") then (fun x => mkStatsDTO rows x db store total) <$> decode_int64 v bytes
  else if bool_decide (f = "db_exec_duration_ms") then (fun x => mkStatsDTO rows bytes x store total) <$> decode_int64 v db
  else if bool_decide (f = "storage_write_duration_ms") then (fun x => mkStatsDTO rows bytes db x total) <$> decode_int64 v store
  else (fun x => mkStatsDTO rows bytes db store x) <$> decode_int64 v total.

Definition zero_options_dto : queryOptionsDTO := mkOptionsDTO 0 "" 0 "" "" "".
Definition zero_stats_dto : queryStatsDTO := mkStatsDTO 0 0 0 0 0.

Definition decode_options_dto := decode_struct options_dto_fields set_options_dto.
Definition decode_stats_dto := decode_struct stats_dto_fields set_stats_dto.

Section Answers.
Context (zone : time -> Z) (lenient_parse : bytes -> option time).

Definition decode_time_ptr (v : Json.json) (cur : option time) : option (option time) :=
  decode_ptr (decode_time lenient_parse) zero_time v cur.

(** What a client with these wire types makes of a member. *)
Definition set_record_dto (f : string) (v : Json.json) (r : queryRecordDTO) : option queryRecordDTO :=
  let '(mkRecordDTO id db sql opts st owner created started finished lease err stats res key subj) := r in
  if bool_decide (f = "id") then (fun x => mkRecordDTO x db sql opts st owner created started finished lease err stats res key subj) <$> decode_string v id
  else if bool_decide (f = "database_id") then (fun x => mkRecordDTO id x sql opts st owner created started finished lease err stats res key subj) <$> decode_string v db
  else if bool_decide (f = "sql") then (fun x => mkRecordDTO id db x opts st owner created started finished lease err stats res key subj) <$> decode_string v sql
  else if bool_decide (f = "options") then (fun x => mkRecordDTO id db sql x st owner created started finished lease err stats res key subj) <$> decode_options_dto v opts
  else if bool_decide (f = "state") then (fun x => mkRecordDTO id db sql opts x owner created started finished lease err stats res key subj) <$> decode_string v st
  else if bool_decide (f = "owner_instance_id") then (fun x => mkRecordDTO id db sql opts st x created started finished lease err stats res key subj) <$> decode_string v owner
  else if bool_decide (f = "created_at") then (fun x => mkRecordDTO id db sql opts st owner x started finished lease err stats res key subj) <$> decode_time lenient_parse v created
  else if bool_decide (f = "started_at") then (fun x => mkRecordDTO id db sql opts st owner created x finished lease err stats res key subj) <$> decode_time_ptr v started
  else if bool_decide (f = "finished_at") then (fun x => mkRecordDTO id db sql opts st owner created started x lease err stats res key subj) <$> decode_time_ptr v finished
  else if bool_decide (f = "lease_deadline") then (fun x => mkRecordDTO id db sql opts st owner created started finished x err stats res key subj) <$> decode_time_ptr v lease
  else if bool_decide (f = "error") then (fun x => mkRecordDTO id db sql opts st owner created started finished lease x stats res key subj) <$> decode_ptr decode_error zero_error v err
  else if bool_decide (f = "stats") then (fun x => mkRecordDTO id db sql opts st owner created started finished lease err x res key subj) <$> decode_stats_dto v stats
  else if bool_decide (f = "result") then (fun x => mkRecordDTO id db sql opts st owner created started finished lease err stats x key subj) <$> decode_ptr decode_ref zero_ref v res
  else if bool_decide (f = "idempotency_key") then (fun x => mkRecordDTO id db sql opts st owner created started finished lease err stats res x subj) <$> decode_string v key
  else (fun x => mkRecordDTO id db sql opts st owner created started finished lease err stats res key x) <$> decode_string v subj.

Definition zero_record_dto : queryRecordDTO :=
  mkRecordDTO "" "" "" zero_options_dto "" "" zero_time None None None None zero_stats_dto None "" "".

Definition unmarshal_record_dto (data : bytes) : option queryRecordDTO :=
  v ← parse data; decode_struct record_dto_fields set_record_dto v zero_record_dto.

Record dto_ok (r : queryRecordDTO) : Prop := {
  do_text : text_ok (dto_ID r) /\ text_ok (dto_DatabaseID r) /\ text_ok (dto_SQL r) /\ text_ok (dto_State r) /\
            text_ok (dto_OwnerInstanceID r) /\ text_ok (dto_IdempotencyKey r) /\ text_ok (dto_Subject r);
  do_options : is_int64 (TimeoutMs (dto_Options r)) /\ is_int64 (ResultTTLSeconds (dto_Options r)) /\
               text_ok (dto_Mode (dto_Options r)) /\ text_ok (dto_OptIdempotencyKey (dto_Options r)) /\
               text_ok (dto_ResultFormat (dto_Options r)) /\ text_ok (dto_StorageBackend (dto_Options r));
  do_stats : is_int64 (dto_RowsRead (dto_Stats r)) /\ is_int64 (dto_BytesWritten (dto_Stats r)) /\
             is_int64 (DBExecDurationMs (dto_Stats r)) /\ is_int64 (StorageWriteDurationMs (dto_Stats r)) /\
             is_int64 (TotalDurationMs (dto_Stats r));
  do_times t : t ∈ dto_CreatedAt r :: option_list (dto_StartedAt r) ++ option_list (dto_FinishedAt r) ++ option_list (dto_LeaseDeadline r) ->
             Z.abs (zone t) < 1440 /\ year_in_range (zone t) t = true;
  do_error : opt_ok error_ok (dto_Error r);
  do_result : opt_ok ref_ok (dto_Result r)
}.

(** A member that is left out when there is nothing to say. *)
Lemma decode_opt {A B} fields (set : string -> Json.json -> B -> option B) name (f : A -> Json.json) o ms (b b' : B) :
  find_field fields (unquote (quote (bytes_of name))) = Some name ->
  (forall a, o = Some a -> set name (f a) b = Some b') -> (o = None -> b' = b) ->
  decode_members fields set (match o with Some a => member name (f a) | None => [] end ++ ms) b = decode_members fields set ms b'.
Proof.
  intros Hf Hs Hn. destruct o as [a|]; [|by rewrite Hn]. rewrite decode_member by done. by rewrite (Hs a).
Qed.

Lemma decode_json_time_ptr t :
  Z.abs (zone t) < 1440 -> year_in_range (zone t) t = true -> decode_time_ptr (json_time zone t) None = Some (Some t).
Proof. intros. apply decode_ptr_some; [done|]. by apply decode_json_time. Qed.

Lemma decode_json_options_dto o :
  is_int64 (TimeoutMs o) -> is_int64 (ResultTTLSeconds o) -> text_ok (dto_Mode o) -> text_ok (dto_OptIdempotencyKey o) ->
  text_ok (dto_ResultFormat o) -> text_ok (dto_StorageBackend o) ->
  decode_options_dto (json_options_dto o) zero_options_dto = Some o.
Proof.
  intros. destruct o as [timeout mode ttl key fmt backend]. unfold json_options_dto. cbn [dto_OptIdempotencyKey] in *.
  destruct (nonempty key) eqn:Hk; [by decode_leaves|]. apply empty_of in Hk as ->. by decode_leaves.
Qed.

Lemma decode_json_stats_dto s :
  is_int64 (dto_RowsRead s) -> is_int64 (dto_BytesWritten s) -> is_int64 (DBExecDurationMs s) ->
  is_int64 (StorageWriteDurationMs s) -> is_int64 (TotalDurationMs s) ->
  decode_stats_dto (json_stats_dto s) zero_stats_dto = Some s.
Proof. intros. destruct s. by decode_leaves. Qed.

Lemma decode_json_ref_dto r : ref_ok r -> decode_ref (json_ref_dto r) zero_ref = Some r.
Proof.
  intros (? & ? & ? & ? & ? & ?). destruct r as [b l n c f sum]. unfold json_ref_dto. cbn [Checksum] in *.
  destruct (nonempty sum) eqn:Hk; [by decode_leaves|]. apply empty_of in Hk as ->. by decode_leaves.
Qed.

#[local] Arguments decode_options_dto : simpl never.
#[local] Arguments decode_stats_dto : simpl never.

Ltac pick_field :=
  cbv beta iota; repeat first [rewrite bool_decide_eq_true_2 by done|rewrite bool_decide_eq_false_2 by done].

(** Reads the next member with the round trip of its value. *)
Ltac field lem :=
  rewrite decode_member by (vm_compute; reflexivity); unfold set_record_dto at 2; pick_field;
  rewrite lem by done; cbn [fmap option_fmap option_map mbind option_bind].

(** The same for a member that may be left out; [r] is the record after it. *)
Ltac field_opt name r :=
  rewrite (decode_opt _ _ name _ _ _ _ r); [|vm_compute; reflexivity|intros ? Heq; unfold set_record_dto; pick_field|by intros ->].

Ltac field_if name r :=
  rewrite (decode_if _ _ _ name _ _ _ r);
    [|vm_compute; reflexivity|intros ?; unfold set_record_dto; pick_field; by rewrite decode_json_string|intros Hk; by rewrite (empty_of _ Hk)].

Lemma decode_json_record_dto r :
  dto_ok r -> decode_struct record_dto_fields set_record_dto (json_record_dto zone r) zero_record_dto = Some r.
Proof.
  intros [(? & ? & ? & ? & ? & ? & ?) (? & ? & ? & ? & ? & ?) (? & ? & ? & ? & ?) Ht He Hr].
  destruct r as [id db sql opts st owner created started finished lease err stats res key subj].
  cbn [dto_ID dto_DatabaseID dto_SQL dto_Options dto_State dto_OwnerInstanceID dto_CreatedAt dto_StartedAt dto_FinishedAt
       dto_LeaseDeadline dto_Error dto_Stats dto_Result dto_IdempotencyKey dto_Subject] in *.
  destruct (Ht created) as [? ?]; [by left|].
  unfold json_record_dto, decode_struct, zero_record_dto.
  cbn [dto_ID dto_DatabaseID dto_SQL dto_Options dto_State dto_OwnerInstanceID dto_CreatedAt dto_StartedAt dto_FinishedAt
       dto_LeaseDeadline dto_Error dto_Stats dto_Result dto_IdempotencyKey dto_Subject].
  do 3 field decode_json_string. field decode_json_options_dto. do 2 field decode_json_string. field decode_json_time.
  field_opt "started_at" (mkRecordDTO id db sql opts st owner created started None None None zero_stats_dto None "" "").
  2: { subst started. destruct (Ht a) as [? ?]; [set_solver|]. by rewrite decode_json_time_ptr. }
  field_opt "finished_at" (mkRecordDTO id db sql opts st owner created started finished None None zero_stats_dto None "" "").
  2: { subst finished. destruct (Ht a) as [? ?]; [set_solver|]. by rewrite decode_json_time_ptr. }
  field_opt "lease_deadline" (mkRecordDTO id db sql opts st owner created started finished lease None zero_stats_dto None "" "").
  2: { subst lease. destruct (Ht a) as [? ?]; [set_solver|]. by rewrite decode_json_time_ptr. }
  field_opt "error" (mkRecordDTO id db sql opts st owner created started finished lease err zero_stats_dto None "" "").
  2: { subst err. by rewrite (decode_ptr_some _ _ _ a) by first [done|by apply decode_json_error]. }
  field decode_json_stats_dto.
  field_opt "result" (mkRecordDTO id db sql opts st owner created started finished lease err stats res "" "").
  2: { subst res. by rewrite (decode_ptr_some _ _ _ a) by first [done|by apply decode_json_ref_dto]. }
  field_if "idempotency_key" (mkRecordDTO id db sql opts st owner created started finished lease err stats res key "").
  rewrite <- (app_nil_r (member_if _ "subject" _)).
  field_if "subject" (mkRecordDTO id db sql opts st owner created started finished lease err stats res key subj). done.
Qed.

Lemma json_record_dto_ok r : wf (json_record_dto zone r) /\ 0 <= height (json_record_dto zone r) <= 2.
Proof.
  assert (forall name (o : option time), members_ok 1 (match o with Some t => member name (json_time zone t) | None => [] end)) as Ht.
  { intros name [t|]; [apply member_leaf; [apply leaf_time|lia]|constructor]. }
  assert (forall b name s, members_ok 1 (member_if b name (json_string s))) as Hs.
  { intros b name s. apply member_if_ok. intros _. by split; [apply wf_json_string|]. }
  apply (wf_JObj 1); [lia|]. split_members; try apply Ht; try apply Hs.
  - apply member_ok; apply (wf_JObj 0); (lia || split_members); apply member_if_ok; intros _; by split; [apply wf_json_string|].
  - apply member_leaf; [apply leaf_time|lia].
  - destruct (dto_Error r); [apply member_ok; apply json_error_ok|constructor].
  - apply member_ok; apply (wf_JObj 0); (lia || split_members).
  - destruct (dto_Result r); [|constructor]. apply member_ok; apply (wf_JObj 0); (lia || split_members); apply member_if_ok; intros _; by split; [apply wf_json_string|].
Qed.

Lemma parse_line v : wf v -> height v <= maxNestingDepth -> parse (print v ++ [10]) = Some v.
Proof.
  intros Hwf Hh. unfold parse. rewrite print_parse_value; [done|done| |lia|done].
  pose proof (weight_length v). rewrite length_app. simpl. lia.
Qed.

(** C37. The answer to a request for a query reads back: a client that decodes the body
    into the wire types gets the record that was encoded, with every field, the times
    to the nanosecond whatever the location of the process, and what is not set left
    out. *)
Theorem record_answer_read_back r :
  dto_ok r -> unmarshal_record_dto (writeJSON zone (BodyRecord r)) = Some r.
Proof.
  intros Hok. unfold writeJSON, json_body. assert (dto_encodable zone r = true) as ->.
  { pose proof (do_times r Hok) as Ht. unfold dto_encodable.
    destruct (Ht (dto_CreatedAt r)) as [_ ->]; [by left|].
    assert (forall o, (forall t : time, o = Some t -> year_in_range (zone t) t = true) ->
      match o with Some t => year_in_range (zone t) t | None => true end = true) as Ho by (intros [t|]; auto).
    rewrite !Ho; [done|..]; intros t Heq; apply Ht; rewrite Heq; set_solver. }
  destruct (json_record_dto_ok r) as [Hwf Hh]. unfold unmarshal_record_dto.
  rewrite parse_line by (done || unfold maxNestingDepth; lia). cbn [mbind option_bind]. by apply decode_json_record_dto.
Qed.

End Answers.

(** ** Examples *)

Definition demo_answer : queryRecordDTO := Eval vm_compute in toRecordDTO RecordJson.demo_record.

Lemma demo_times_ok :
  Forall (fun t => year_in_range 120 t = true)
    (dto_CreatedAt demo_answer :: option_list (dto_StartedAt demo_answer) ++ option_list (dto_FinishedAt demo_answer) ++
     option_list (dto_LeaseDeadline demo_answer)).
Proof. apply (bool_decide_eq_true_1 _). vm_compute. reflexivity. Qed.

Lemma demo_answer_ok : dto_ok (fun _ => 120) demo_answer.
Proof.
  split.
  1: repeat split; apply text_ok_bool; vm_compute; reflexivity.
  1,2: repeat split; try (apply text_ok_bool; vm_compute; reflexivity); vm_compute; discriminate.
  - intros t Ht. split; [lia|]. exact (proj1 (Forall_forall _ _) demo_times_ok t Ht).
  - split; [vm_compute; reflexivity|split; apply text_ok_bool; vm_compute; reflexivity].
  - repeat split; try (apply text_ok_bool; vm_compute; reflexivity); vm_compute; discriminate.
Qed.

Lemma record_answer_read_back_witness :
  unmarshal_record_dto (fun _ => None) (writeJSON (fun _ => 120) (BodyRecord demo_answer)) = Some demo_answer.
Proof. exact (record_answer_read_back (fun _ => 120) (fun _ => None) demo_answer demo_answer_ok). Defined.

Definition demo_payload : StartQueryPayload := mkPayload "pg" "select 1" 500 "sync" 60 "csv" "".

Lemma demo_payload_ok : payload_ok demo_payload.
Proof. split; repeat split; try (apply text_ok_bool; vm_compute; reflexivity); vm_compute; discriminate. Qed.

Lemma submission_read_witness :
  let data := print (json_start_payload demo_payload) in
  0 <= 64 /\ read_payload 64 data = BodyTooLarge /\ read_payload 400 (data ++ [88]) = Decoded demo_payload.
Proof.
  pose proof demo_payload_ok as Hok. cbv zeta. split; [lia|]. split.
  - rewrite (proj1 (submission_read 64 (print (json_start_payload demo_payload)) ltac:(lia)) demo_payload []);
      [vm_compute; reflexivity|exact Hok|rewrite app_nil_r; reflexivity].
  - rewrite (proj1 (submission_read 400 (print (json_start_payload demo_payload) ++ [88]) ltac:(lia)) demo_payload [88]);
      [vm_compute; reflexivity|exact Hok|reflexivity].
Defined.

(** A value without brackets that ends where the limit is: only the byte after it would
    tell the decoder, so with more to come the body is too large. *)
Lemma null_at_the_limit :
  read_payload 4 lit_null = Decoded zero_start_payload /\ read_payload 4 (lit_null ++ [10]) = BodyTooLarge /\
  read_payload 5 (lit_null ++ [10]) = Decoded zero_start_payload.
Proof. vm_compute. auto. Qed.
