(* ===== verification/EndToEnd.v ===== *)
(** * From the request to the database

    The components on the way of a submission put together: the body of a request as the
    client wrote it ([RestWire]), the assembled server ([RestServer]), the submission
    ([Submission]) and the execution of what it launched ([Execution]). *)

From S2P Require Import Prelude Domain Utf8 Text Json JsonScan SqlGuard Authn Lifecycle Config MetaStore RecordJson.
Import Config.
From S2P Require Import Prog ManagerState Manager World Submission Execution Service RateLimit Rest RestServer RestWire.

Open Scope Z_scope.
Open Scope dbb_scope.

(** ** What is executed *)

(** The statements an execution hands to a database, with the pool. *)
Definition handed_of (ev : event answer) : option (pool * string) :=
  match ev with existT (AExec _ p sql) _ => Some (p, sql) | _ => None end.

Definition handed (tr : trace) : list (pool * string) := omap handed_of tr.

Definition no_exec (a : action) : Prop := match a with AExec _ _ _ => False | _ => True end.

Lemma handed_none tr : Forall (fun ev : event answer => no_exec (projT1 ev)) tr -> handed tr = [].
Proof. induction 1 as [|[a x] tr Ha _ IH]; [done|]. by destruct a. Qed.

Lemma handed_only {A} (p : M A) tr r : only no_exec p -> executes p tr r -> handed tr = [].
Proof. intros Ho Hex. apply handed_none. by eapply only_executes. Qed.

Lemma handed_app tr1 tr2 : handed (tr1 ++ tr2) = handed tr1 ++ handed tr2.
Proof. apply omap_app. Qed.

(** Programs that call no database. *)
Create HintDb no_exec.

Ltac calls_none :=
  repeat match goal with
    | |- True => exact I
    | |- no_exec _ => exact I
    | |- forall _, _ => intro
    | |- _ /\ _ => split
    | |- only _ (bind _ _) => apply only_bind
    | |- only _ (for_each _ _ _) => apply only_for_each
    | |- only _ (Vis _ _) => cbn [only]
    | |- only _ (Ret _) => exact I
    | |- only _ (match ?x with _ => _ end) => destruct x
    | |- only _ _ => solve [eauto with no_exec nocore]
    end.

Lemma persist_no_exec r n b : only no_exec (persist r n b).
Proof.
  revert b. induction n as [|n IH]; intros b; [done|]. cbn [persist]. unfold meta, call. cbn [bind only].
  split; [done|]. intros [e|]; [|done]. destruct n as [|n]; [done|]. split; [done|]. intros []; [done|apply IH].
Qed.

#[local] Hint Resolve persist_no_exec : no_exec.

Lemma notify_no_exec ev : only no_exec (notifyWatchers ev).
Proof. unfold notifyWatchers, local, act, call. calls_none. Qed.

Lemma terminalFor_no_exec cx e code : only no_exec (terminalFor cx e code).
Proof. unfold terminalFor, act, call. calls_none. Qed.

#[local] Hint Resolve notify_no_exec terminalFor_no_exec : no_exec.

Lemma finishRun_no_exec r next qErr d1 d2 : only no_exec (finishRun r next qErr d1 d2).
Proof.
  unfold finishRun, complete, since, act, local, meta, call. calls_none.
Qed.

#[local] Hint Resolve finishRun_no_exec : no_exec.

Lemma store_rows_no_exec c r rows t0 d : only no_exec (store_rows c r rows t0 d).
Proof.
  unfold store_rows, storage_failure, stream_rows, deletePartial, report, since, act, local, call.
  calls_none.
Qed.

#[local] Hint Resolve store_rows_no_exec : no_exec.

(** An execution hands its own statement to its own pool, once. *)
Lemma run_hands record p c tr res :
  rec_State record = StatePending -> executes (run record p c) tr res -> handed tr = [(p, SQL record)].
Proof.
  intros Hr. unfold run, run_body. intros (tr1 & tr2 & [] & -> & Hb & Ht)%executes_bind.
  rewrite handed_app. apply handed_only in Ht as ->; [|unfold local, act, call; calls_none]. rewrite app_nil_r.
  apply executes_bind in Hb as (trx & tr' & t0 & -> & (t0' & ? & -> & -> & ->) & Hb). rewrite Hr in Hb.
  change (negb (CanTransitionTo StatePending StateRunning)) with false in Hb. cbv iota zeta in Hb.
  change (handed ([existT ANow t0'] ++ tr')) with (handed tr').
  apply executes_bind in Hb as (tra & trb & ? & -> & Ha & Hb). rewrite handed_app.
  apply handed_only in Ha as ->; [|apply persist_no_exec].
  apply executes_bind in Hb as (trc & trd & ? & -> & Hc & Hb). rewrite handed_app.
  apply handed_only in Hc as ->; [|apply notify_no_exec].
  destruct Hb as ([] & tr3 & -> & t1 & tr4 & -> & opened & tr5 & -> & Hb).
  change ([(p, SQL record)] ++ handed tr5 = [(p, SQL record)]).
  apply handed_only in Hb as ->; [done|]. unfold since, act, call. calls_none.
Qed.

(** ** What is launched *)

Section Composed.
Context `{Unicode} `{Chi} (me : captured) (authRequired : bool) (serveWS serveMetrics : handler).
Context (limiter_Allow : string -> bool).

(** Every execution launched satisfies [R]. *)
Definition launches (R : QueryRecord -> pool -> Prop) (a : action) : Prop :=
  match a with AGoRun record p _ => R record p | _ => True end.

Lemma execute_launches dbID sql opts p id subject key :
  only (launches (fun record q => q = p /\ SQL record = sql /\ DatabaseID record = dbID /\ Subject record = subject /\
                                  rec_State record = StatePending))
    (execute me dbID sql opts p id subject key).
Proof.
  unfold execute, release, launch, notifyWatchers, Watch, act, local, meta, call. cbn [ev_State IsTerminal]. calls_none.
  all: by cbn [launches].
Qed.

Lemma resolve_launches dbID key opts caller id : only (launches (fun _ _ => False)) (resolveIdempotency caller dbID key opts id).
Proof. unfold resolveIdempotency, meta, call. calls_none. all: done. Qed.

Lemma launched_in {A} R (p : M A) tr r record q c :
  only (launches R) p -> executes p tr r -> existT (AGoRun record q c) tt ∈ tr -> R record q.
Proof. intros Ho Hex Hin. pose proof (only_executes _ _ _ _ Ho Hex) as Hall. rewrite Forall_forall in Hall. exact (Hall _ Hin). Qed.

Lemma checks_passed_mono dbID sql opts opts' q tr1 tr2 :
  tr1 ⊆ tr2 -> checks_passed me dbID sql opts opts' q tr1 -> checks_passed me dbID sql opts opts' q tr2.
Proof.
  intros Hsub (? & (cfg & ? & ?) & ? & ? & ? & (cfg' & ? & ?)).
  split_and!; [by apply Hsub|exists cfg; split; [by apply Hsub|done]|done|by apply Hsub|by apply Hsub|
               exists cfg'; split; [by apply Hsub|done]].
Qed.

(** What a submission launches is what was submitted, for the caller, after the checks. *)
Lemma submit_launches caller dbID sql opts tr r record q c :
  executes (SubmitQuery me caller dbID sql opts) tr r -> existT (AGoRun record q c) tt ∈ tr ->
  (SQL record = sql /\ DatabaseID record = dbID /\ Subject record = SubjectFromContext caller /\
   rec_State record = StatePending) /\
  exists opts', checks_passed me dbID sql opts opts' q tr.
Proof.
  intros (tr1 & tr2 & -> & Hh & Hcase)%SubmitQuery_shape Hin. apply elem_of_app in Hin as [Hin|Hin].
  { unfold harmless_trace in Hh. rewrite Forall_forall in Hh. destruct (Hh _ Hin). }
  destruct Hcase as [[-> _]|(p & opts' & id & tr3 & -> & Hc & Hrest)]; [by apply elem_of_nil in Hin|].
  apply elem_of_cons in Hin as [[=]|Hin]. cbv zeta in Hrest.
  assert (exists tr', executes (execute me dbID sql opts' p id (SubjectFromContext caller)
      (scopedIdempotencyKey (SubjectFromContext caller) (opt_IdempotencyKey opts'))) tr' r /\
    existT (AGoRun record q c) tt ∈ tr') as (tr' & Hex & Hin').
  { case_bool_decide; [by exists tr3|]. destruct Hrest as (tr4 & tr5 & found & -> & Hres & Hr).
    apply elem_of_app in Hin as [Hin|Hin]; [by destruct (launched_in _ _ _ _ _ _ _ (resolve_launches _ _ _ _ _) Hres Hin)|].
    destruct found as [[rec|]|e]; [|by exists tr5|destruct Hr as [-> _]; by apply elem_of_nil in Hin].
    destruct Hr as [-> _]. by apply list_elem_of_singleton in Hin. }
  destruct (launched_in _ _ _ _ _ _ _ (execute_launches _ _ _ _ _ _ _) Hex Hin') as (-> & ? & ? & ? & ?).
  split; [done|]. exists opts'. eapply checks_passed_mono; [|exact Hc]. apply list_subseteq_app_l. done.
Qed.

(** The route of submissions asks for both scopes. *)
Lemma submission_gates o ds e :
  let s := NewServer o in
  ds = router s \/ adminRouter s = Some ds -> e ∈ table ds -> en_op e = DoStartQuery ->
  gates (en_chain e) = [ScopeRead; ScopeWrite].
Proof.
  cbv zeta. intros Hds He Hop. destruct (table_entry o ds e Hds He) as [Hin _].
  change (en_op e) with (rt_op (route_of e)) in Hop. change (gates (en_chain e)) with (rt_gates (route_of e)).
  revert Hin Hop. generalize (route_of e). intros rt Hin Hop.
  assert (rt ∈ probe_routes ++ v1_routes ++ admin_routes) as Hin'.
  { unfold public_router, admin_router in Hin. destruct (SeparateAdmin o); set_solver. }
  unfold v1_routes, admin_routes, probe_routes in Hin'. cbn [app] in Hin'.
  repeat (apply elem_of_cons in Hin' as [-> | Hin']; [first [discriminate Hop|reflexivity]|]). by apply elem_of_nil in Hin'.
Qed.

(** What the handler of submissions launches was decoded from the body. *)
Lemma handler_launches limit caller rq tr resp record q c :
  executes (handleStartQuery me limit caller rq) tr resp -> existT (AGoRun record q c) tt ∈ tr ->
  exists p, rq_body rq = Decoded p /\
    (SQL record = pay_SQL p /\ DatabaseID record = pay_DatabaseID p /\ Subject record = SubjectFromContext caller /\
     rec_State record = StatePending) /\
    exists opts opts', checks_passed me (pay_DatabaseID p) (pay_SQL p) opts opts' q tr.
Proof.
  unfold handleStartQuery. intros Hex Hin. destruct (rq_body rq) as [p| |].
  2,3: destruct Hex as [-> _]; by apply elem_of_nil in Hin.
  exists p. split; [done|]. case_bool_decide; [destruct Hex as [-> _]; by apply elem_of_nil in Hin|].
  case_bool_decide; [destruct Hex as [-> _]; by apply elem_of_nil in Hin|].
  apply executes_bind in Hex as (tr1 & tr2 & r & -> & Hs & Hr).
  assert (tr2 = []) as -> by (destruct r; by destruct Hr). rewrite app_nil_r in *.
  unfold StartQuery, act, call in Hs. cbn [bind] in Hs. destruct Hs as (dr & tr & -> & Hs).
  apply elem_of_cons in Hin as [[=]|Hin]. destruct dr; [destruct Hs as [-> _]; by apply elem_of_nil in Hin|].
  destruct (submit_launches _ _ _ _ _ _ _ _ _ Hs Hin) as [? [opts' Hc]]. split; [done|]. eexists _, opts'.
  eapply checks_passed_mono; [|exact Hc]. by apply list_subseteq_cons.
Qed.

(** C4. From the bytes of a request to the database. When a request to the server carries
    the bytes of a submission as a client writes it, whatever follows them, and an
    execution is launched, then the request was let through by the rate limiter, its
    credentials name an identity with the scopes to read and to write, the body fits the
    limit, the query launched belongs to that identity and asks that database that
    statement, the database was found and the statement passed the read-only guard or
    writes are allowed; and however the execution goes, what it hands to a database is
    that statement, unchanged, once, on the pool of that database. *)
Theorem posted_statement_executed o a ds i e p rest tr resp record q c :
  let s := NewServer o in
  Auth o = Some a -> (ds = router s \/ adminRouter s = Some ds) ->
  find_route (table ds) (in_verb i) (in_path i) = Matched e -> en_op e = DoStartQuery -> payload_ok p ->
  rq_body (in_request i) = read_payload (MaxRequestBytes (opts s)) (print (json_start_payload p) ++ rest) ->
  executes (serve me authRequired serveWS serveMetrics limiter_Allow (opts s) ds i) tr resp ->
  existT (AGoRun record q c) tt ∈ tr ->
  (exists id, Authenticate a (credential (in_request i)) = Ok id /\ Has id ScopeRead = true /\ Has id ScopeWrite = true /\
     Subject record = id_Subject id) /\
  allowed limiter_Allow o i = true /\
  Z.of_nat (length (print (json_start_payload p))) <= MaxRequestBytes (opts s) /\
  SQL record = pay_SQL p /\ DatabaseID record = pay_DatabaseID p /\
  existT (ALocal (LLookupPool (pay_DatabaseID p))) (Some q) ∈ tr /\
  (exists cfg, existT (ALocal LConfig) cfg ∈ tr /\ (AllowWrites (Defaults cfg) = true \/ ReadOnly (pay_SQL p) = None)) /\
  (forall tr' res, executes (run record q c) tr' res -> handed tr' = [(q, pay_SQL p)]).
Proof.
  cbv zeta. intros Ha Hds Hf Hop Hp Hbody Hex Hin. pose proof (find_route_fits _ _ _ _ Hf) as [He _].
  apply (serve_spec me authRequired serveWS serveMetrics limiter_Allow o a ds i tr resp Ha Hds) in Hex.
  rewrite Hf in Hex. cbv zeta in Hex. rewrite (submission_gates o ds e Hds He Hop), Hop in Hex. cbn [is_probe] in Hex.
  destruct (allowed limiter_Allow o i) eqn:Hal; cbn [negb] in Hex; [|destruct Hex as [_ ->]; by apply elem_of_nil in Hin].
  destruct (Authenticate a (credential (in_request i))) as [id|err]; [|destruct Hex as [_ ->]; by apply elem_of_nil in Hin].
  destruct (Has id ScopeRead) eqn:Hr, (Has id ScopeWrite) eqn:Hw; cbn [forallb] in Hex; rewrite Hr, ?Hw in Hex; cbn [andb] in Hex;
    try (destruct Hex as [_ ->]; by apply elem_of_nil in Hin).
  destruct Hex as (resp' & Hex & _). destruct (handler_launches _ _ _ _ _ _ _ _ Hex Hin) as (p' & Hdec & (? & ? & ? & Hst) & opts1 & opts' & Hc).
  assert (0 < MaxRequestBytes (opts (NewServer o))) as Hpos.
  { unfold NewServer. destruct (setupRoutes (withDefaults o)). cbn. destruct (Z.leb_spec (MaxRequestBytes o) 0); [by vm_compute|done]. }
  rewrite Hbody, read_printed in Hdec by (done || lia). destruct (Z.leb_spec (Z.of_nat (length (print (json_start_payload p)))) (MaxRequestBytes (opts (NewServer o)))); [|done].
  injection Hdec as <-. destruct Hc as (Hpool & _ & _ & _ & _ & Hguard).
  split_and!; [by exists id|done..|]. intros tr' res Hrun. rewrite (run_hands record q c tr' res Hst Hrun). congruence.
Qed.


End Composed.

(** ** Examples *)

Definition writer_auth : Authenticator := mkAuthenticator [mkToken "t0ken" "alice" [ScopeRead; ScopeWrite]].

Definition writer_options : Options := mkOptions 0 0 [] 0 (Some writer_auth) true true.

(** A submission with a line feed after it. *)
Definition posted : inbound :=
  mkInbound "POST" "/v1/queries" "10.0.0.1:5000" ""
    (mkRequest "" "Bearer t0ken" [] "" "" "" "" (read_payload defaultMaxRequestBytes (print (json_start_payload demo_payload) ++ [10])) "r1").

Definition demo_post : M response :=
  serve (self demo_qm) true no_handler no_handler (fun _ => true) (opts (NewServer writer_options))
    (router (NewServer writer_options)) posted.

Definition launched_of (ev : event answer) : option (QueryRecord * pool * ctx_id) :=
  match ev with existT (AGoRun record q c) _ => Some (record, q, c) | _ => None end.

Lemma launched_of_in (tr : trace) record q c : omap launched_of tr = [(record, q, c)] -> existT (AGoRun record q c) tt ∈ tr.
Proof.
  intros Hl. assert ((record, q, c) ∈ omap launched_of tr) as Hin by (rewrite Hl; by left).
  apply list_elem_of_omap in Hin as ([a x] & Hin & Heq). destruct a; try done. cbn in Heq. injection Heq as -> -> ->. by destruct x.
Qed.

Definition posted_entry : entry :=
  mkEntry "POST" "/v1/queries" [NameSpanAfterRoute; RequestID; Logger; Recoverer; RateLimit; Require ScopeRead; Require ScopeWrite]
    DoStartQuery.

Definition posted_record : QueryRecord :=
  mkQueryRecord "q" "pg" "select 1" (mkQueryOptions (500 * Millisecond) "sync" (60 * Second) "" "csv" "fs") StatePending "dbb-1"
    (1000 * Second) zero_time zero_time None zero_stats None "" zero_time "alice".

Lemma posted_statement_executed_witness :
  let tr := (demo_run demo_post demo_world).1.2 in
  existT (AGoRun posted_record 1%nat 1%nat) tt ∈ tr /\ DatabaseID posted_record = "pg" /\
  handed (demo_run (run posted_record 1%nat 1%nat) demo_world).1.2 = [(1%nat, "select 1")].
Proof.
  cbv zeta. assert (existT (AGoRun posted_record 1%nat 1%nat) tt ∈ (demo_run demo_post demo_world).1.2) as Hin
    by (apply launched_of_in; vm_compute; reflexivity).
  assert (find_route (table (router (NewServer writer_options))) "POST" "/v1/queries" = Matched posted_entry) as Hf
    by (vm_compute; reflexivity).
  destruct (posted_statement_executed (self demo_qm) true no_handler no_handler (fun _ => true) writer_options writer_auth
    (router (NewServer writer_options)) posted posted_entry demo_payload [10] _ _ posted_record 1%nat 1%nat
    eq_refl (or_introl eq_refl) Hf eq_refl demo_payload_ok eq_refl
    (demo_executes demo_post demo_world) Hin) as (_ & _ & _ & _ & Hdb & _ & _ & Hrun).
  split; [exact Hin|]. split; [exact Hdb|]. exact (Hrun _ _ (demo_executes (run posted_record 1%nat 1%nat) demo_world)).
Defined.
