(* ===== verification/Messages.v ===== *)
(** * The messages of the RPC service

    The message types of [internal/gen/dbbridge/v1/dbbridge.pb.go]: the structs with
    the numbers and names of their fields, the accessors, which a nil message answers
    with zero values, the enumeration of states and the tables that tie the types
    together. Encoding a message is the protocol buffer library's, and so is what the
    structs keep for it. A pointer to a message is an [option]. *)

From S2P Require Import Prelude.

Open Scope Z_scope.

(** ** The states *)

Definition QueryState_QUERY_STATE_UNSPECIFIED : Z := 0.
Definition QueryState_QUERY_STATE_PENDING : Z := 1.
Definition QueryState_QUERY_STATE_RUNNING : Z := 2.
Definition QueryState_QUERY_STATE_SUCCEEDED : Z := 3.
Definition QueryState_QUERY_STATE_FAILED : Z := 4.
Definition QueryState_QUERY_STATE_CANCELED : Z := 5.
Definition QueryState_QUERY_STATE_EXPIRED : Z := 6.

Definition QueryState_name : gmap Z string :=
  list_to_map [(0, "QUERY_STATE_UNSPECIFIED"); (1, "QUERY_STATE_PENDING"); (2, "QUERY_STATE_RUNNING");
    (3, "QUERY_STATE_SUCCEEDED"); (4, "QUERY_STATE_FAILED"); (5, "QUERY_STATE_CANCELED"); (6, "QUERY_STATE_EXPIRED")].

Definition QueryState_value : gmap string Z :=
  list_to_map [("QUERY_STATE_UNSPECIFIED", 0); ("QUERY_STATE_PENDING", 1); ("QUERY_STATE_RUNNING", 2);
    ("QUERY_STATE_SUCCEEDED", 3); ("QUERY_STATE_FAILED", 4); ("QUERY_STATE_CANCELED", 5); ("QUERY_STATE_EXPIRED", 6)].

(** ** The structs

    For each its fields, [Reset] to the zero value, the accessors [GetX], all of them
    together ([Get]) and the tags of the fields. *)

(** The tag of a field: its number, how it is written, whether it repeats, its name in
    the protocol, and the message or enumeration it refers to. *)
Inductive wire := Varint | Bytes.

Record field := mkField { f_number : Z; f_wire : wire; f_repeated : bool; f_name : string; f_type : option string }.

Record v1_QueryOptions := mk_v1_QueryOptions {
  v1_QueryOptions_TimeoutMs : Z;
  v1_QueryOptions_Mode : string;
  v1_QueryOptions_ResultTtlSeconds : Z;
  v1_QueryOptions_IdempotencyKey : string;
  v1_QueryOptions_ResultFormat : string;
  v1_QueryOptions_StorageBackend : string
}.

Definition v1_QueryOptions_Reset : v1_QueryOptions := mk_v1_QueryOptions 0 "" 0 "" "" "".
Definition v1_QueryOptions_GetTimeoutMs (x : option v1_QueryOptions) : Z :=
  match x with Some x => v1_QueryOptions_TimeoutMs x | None => 0 end.
Definition v1_QueryOptions_GetMode (x : option v1_QueryOptions) : string :=
  match x with Some x => v1_QueryOptions_Mode x | None => "" end.
Definition v1_QueryOptions_GetResultTtlSeconds (x : option v1_QueryOptions) : Z :=
  match x with Some x => v1_QueryOptions_ResultTtlSeconds x | None => 0 end.
Definition v1_QueryOptions_GetIdempotencyKey (x : option v1_QueryOptions) : string :=
  match x with Some x => v1_QueryOptions_IdempotencyKey x | None => "" end.
Definition v1_QueryOptions_GetResultFormat (x : option v1_QueryOptions) : string :=
  match x with Some x => v1_QueryOptions_ResultFormat x | None => "" end.
Definition v1_QueryOptions_GetStorageBackend (x : option v1_QueryOptions) : string :=
  match x with Some x => v1_QueryOptions_StorageBackend x | None => "" end.
Definition v1_QueryOptions_Get (x : option v1_QueryOptions) : Z * string * Z * string * string * string :=
  (v1_QueryOptions_GetTimeoutMs x, v1_QueryOptions_GetMode x, v1_QueryOptions_GetResultTtlSeconds x,
   v1_QueryOptions_GetIdempotencyKey x, v1_QueryOptions_GetResultFormat x, v1_QueryOptions_GetStorageBackend x).
Definition v1_QueryOptions_fields : list field :=
  [mkField 1 Varint false "timeout_ms" None;
   mkField 2 Bytes false "mode" None;
   mkField 3 Varint false "result_ttl_seconds" None;
   mkField 4 Bytes false "idempotency_key" None;
   mkField 5 Bytes false "result_format" None;
   mkField 6 Bytes false "storage_backend" None].

Record v1_QueryError := mk_v1_QueryError {
  v1_QueryError_Code : string;
  v1_QueryError_Message : string;
  v1_QueryError_Retryable : bool
}.

Definition v1_QueryError_Reset : v1_QueryError := mk_v1_QueryError "" "" false.
Definition v1_QueryError_GetCode (x : option v1_QueryError) : string :=
  match x with Some x => v1_QueryError_Code x | None => "" end.
Definition v1_QueryError_GetMessage (x : option v1_QueryError) : string :=
  match x with Some x => v1_QueryError_Message x | None => "" end.
Definition v1_QueryError_GetRetryable (x : option v1_QueryError) : bool :=
  match x with Some x => v1_QueryError_Retryable x | None => false end.
Definition v1_QueryError_Get (x : option v1_QueryError) : string * string * bool :=
  (v1_QueryError_GetCode x, v1_QueryError_GetMessage x, v1_QueryError_GetRetryable x).
Definition v1_QueryError_fields : list field :=
  [mkField 1 Bytes false "code" None;
   mkField 2 Bytes false "message" None;
   mkField 3 Varint false "retryable" None].

Record v1_QueryStats := mk_v1_QueryStats {
  v1_QueryStats_RowsRead : Z;
  v1_QueryStats_BytesWritten : Z;
  v1_QueryStats_DbExecDurationMs : Z;
  v1_QueryStats_StorageWriteDurationMs : Z;
  v1_QueryStats_TotalDurationMs : Z
}.

Definition v1_QueryStats_Reset : v1_QueryStats := mk_v1_QueryStats 0 0 0 0 0.
Definition v1_QueryStats_GetRowsRead (x : option v1_QueryStats) : Z :=
  match x with Some x => v1_QueryStats_RowsRead x | None => 0 end.
Definition v1_QueryStats_GetBytesWritten (x : option v1_QueryStats) : Z :=
  match x with Some x => v1_QueryStats_BytesWritten x | None => 0 end.
Definition v1_QueryStats_GetDbExecDurationMs (x : option v1_QueryStats) : Z :=
  match x with Some x => v1_QueryStats_DbExecDurationMs x | None => 0 end.
Definition v1_QueryStats_GetStorageWriteDurationMs (x : option v1_QueryStats) : Z :=
  match x with Some x => v1_QueryStats_StorageWriteDurationMs x | None => 0 end.
Definition v1_QueryStats_GetTotalDurationMs (x : option v1_QueryStats) : Z :=
  match x with Some x => v1_QueryStats_TotalDurationMs x | None => 0 end.
Definition v1_QueryStats_Get (x : option v1_QueryStats) : Z * Z * Z * Z * Z :=
  (v1_QueryStats_GetRowsRead x, v1_QueryStats_GetBytesWritten x, v1_QueryStats_GetDbExecDurationMs x,
   v1_QueryStats_GetStorageWriteDurationMs x, v1_QueryStats_GetTotalDurationMs x).
Definition v1_QueryStats_fields : list field :=
  [mkField 1 Varint false "rows_read" None;
   mkField 2 Varint false "bytes_written" None;
   mkField 3 Varint false "db_exec_duration_ms" None;
   mkField 4 Varint false "storage_write_duration_ms" None;
   mkField 5 Varint false "total_duration_ms" None].

Record v1_ResultRef := mk_v1_ResultRef {
  v1_ResultRef_Backend : string;
  v1_ResultRef_Locator : string;
  v1_ResultRef_SizeBytes : Z;
  v1_ResultRef_RowCount : Z;
  v1_ResultRef_Format : string;
  v1_ResultRef_Checksum : string
}.

Definition v1_ResultRef_Reset : v1_ResultRef := mk_v1_ResultRef "" "" 0 0 "" "".
Definition v1_ResultRef_GetBackend (x : option v1_ResultRef) : string :=
  match x with Some x => v1_ResultRef_Backend x | None => "" end.
Definition v1_ResultRef_GetLocator (x : option v1_ResultRef) : string :=
  match x with Some x => v1_ResultRef_Locator x | None => "" end.
Definition v1_ResultRef_GetSizeBytes (x : option v1_ResultRef) : Z :=
  match x with Some x => v1_ResultRef_SizeBytes x | None => 0 end.
Definition v1_ResultRef_GetRowCount (x : option v1_ResultRef) : Z :=
  match x with Some x => v1_ResultRef_RowCount x | None => 0 end.
Definition v1_ResultRef_GetFormat (x : option v1_ResultRef) : string :=
  match x with Some x => v1_ResultRef_Format x | None => "" end.
Definition v1_ResultRef_GetChecksum (x : option v1_ResultRef) : string :=
  match x with Some x => v1_ResultRef_Checksum x | None => "" end.
Definition v1_ResultRef_Get (x : option v1_ResultRef) : string * string * Z * Z * string * string :=
  (v1_ResultRef_GetBackend x, v1_ResultRef_GetLocator x, v1_ResultRef_GetSizeBytes x,
   v1_ResultRef_GetRowCount x, v1_ResultRef_GetFormat x, v1_ResultRef_GetChecksum x).
Definition v1_ResultRef_fields : list field :=
  [mkField 1 Bytes false "backend" None;
   mkField 2 Bytes false "locator" None;
   mkField 3 Varint false "size_bytes" None;
   mkField 4 Varint false "row_count" None;
   mkField 5 Bytes false "format" None;
   mkField 6 Bytes false "checksum" None].

Record v1_QueryRecord := mk_v1_QueryRecord {
  v1_QueryRecord_Id : string;
  v1_QueryRecord_DatabaseId : string;
  v1_QueryRecord_Sql : string;
  v1_QueryRecord_Options : option v1_QueryOptions;
  v1_QueryRecord_State : Z;
  v1_QueryRecord_OwnerInstanceId : string;
  v1_QueryRecord_CreatedAtMs : Z;
  v1_QueryRecord_StartedAtMs : Z;
  v1_QueryRecord_FinishedAtMs : Z;
  v1_QueryRecord_Error : option v1_QueryError;
  v1_QueryRecord_Stats : option v1_QueryStats;
  v1_QueryRecord_Result : option v1_ResultRef;
  v1_QueryRecord_IdempotencyKey : string;
  v1_QueryRecord_LeaseDeadlineMs : Z;
  v1_QueryRecord_Subject : string
}.

Definition v1_QueryRecord_Reset : v1_QueryRecord := mk_v1_QueryRecord "" "" "" None QueryState_QUERY_STATE_UNSPECIFIED "" 0 0 0 None None None "" 0 "".
Definition v1_QueryRecord_GetId (x : option v1_QueryRecord) : string :=
  match x with Some x => v1_QueryRecord_Id x | None => "" end.
Definition v1_QueryRecord_GetDatabaseId (x : option v1_QueryRecord) : string :=
  match x with Some x => v1_QueryRecord_DatabaseId x | None => "" end.
Definition v1_QueryRecord_GetSql (x : option v1_QueryRecord) : string :=
  match x with Some x => v1_QueryRecord_Sql x | None => "" end.
Definition v1_QueryRecord_GetOptions (x : option v1_QueryRecord) : option v1_QueryOptions :=
  match x with Some x => v1_QueryRecord_Options x | None => None end.
Definition v1_QueryRecord_GetState (x : option v1_QueryRecord) : Z :=
  match x with Some x => v1_QueryRecord_State x | None => QueryState_QUERY_STATE_UNSPECIFIED end.
Definition v1_QueryRecord_GetOwnerInstanceId (x : option v1_QueryRecord) : string :=
  match x with Some x => v1_QueryRecord_OwnerInstanceId x | None => "" end.
Definition v1_QueryRecord_GetCreatedAtMs (x : option v1_QueryRecord) : Z :=
  match x with Some x => v1_QueryRecord_CreatedAtMs x | None => 0 end.
Definition v1_QueryRecord_GetStartedAtMs (x : option v1_QueryRecord) : Z :=
  match x with Some x => v1_QueryRecord_StartedAtMs x | None => 0 end.
Definition v1_QueryRecord_GetFinishedAtMs (x : option v1_QueryRecord) : Z :=
  match x with Some x => v1_QueryRecord_FinishedAtMs x | None => 0 end.
Definition v1_QueryRecord_GetError (x : option v1_QueryRecord) : option v1_QueryError :=
  match x with Some x => v1_QueryRecord_Error x | None => None end.
Definition v1_QueryRecord_GetStats (x : option v1_QueryRecord) : option v1_QueryStats :=
  match x with Some x => v1_QueryRecord_Stats x | None => None end.
Definition v1_QueryRecord_GetResult (x : option v1_QueryRecord) : option v1_ResultRef :=
  match x with Some x => v1_QueryRecord_Result x | None => None end.
Definition v1_QueryRecord_GetIdempotencyKey (x : option v1_QueryRecord) : string :=
  match x with Some x => v1_QueryRecord_IdempotencyKey x | None => "" end.
Definition v1_QueryRecord_GetLeaseDeadlineMs (x : option v1_QueryRecord) : Z :=
  match x with Some x => v1_QueryRecord_LeaseDeadlineMs x | None => 0 end.
Definition v1_QueryRecord_GetSubject (x : option v1_QueryRecord) : string :=
  match x with Some x => v1_QueryRecord_Subject x | None => "" end.
Definition v1_QueryRecord_Get (x : option v1_QueryRecord) : string * string * string * option v1_QueryOptions * Z * string * Z * Z * Z * option v1_QueryError * option v1_QueryStats * option v1_ResultRef * string * Z * string :=
  (v1_QueryRecord_GetId x, v1_QueryRecord_GetDatabaseId x, v1_QueryRecord_GetSql x,
   v1_QueryRecord_GetOptions x, v1_QueryRecord_GetState x, v1_QueryRecord_GetOwnerInstanceId x,
   v1_QueryRecord_GetCreatedAtMs x, v1_QueryRecord_GetStartedAtMs x, v1_QueryRecord_GetFinishedAtMs x,
   v1_QueryRecord_GetError x, v1_QueryRecord_GetStats x, v1_QueryRecord_GetResult x,
   v1_QueryRecord_GetIdempotencyKey x, v1_QueryRecord_GetLeaseDeadlineMs x, v1_QueryRecord_GetSubject x).
Definition v1_QueryRecord_fields : list field :=
  [mkField 1 Bytes false "id" None;
   mkField 2 Bytes false "database_id" None;
   mkField 3 Bytes false "sql" None;
   mkField 4 Bytes false "options" (Some "dbbridge.v1.QueryOptions");
   mkField 5 Varint false "state" (Some "dbbridge.v1.QueryState");
   mkField 6 Bytes false "owner_instance_id" None;
   mkField 7 Varint false "created_at_ms" None;
   mkField 8 Varint false "started_at_ms" None;
   mkField 9 Varint false "finished_at_ms" None;
   mkField 10 Bytes false "error" (Some "dbbridge.v1.QueryError");
   mkField 11 Bytes false "stats" (Some "dbbridge.v1.QueryStats");
   mkField 12 Bytes false "result" (Some "dbbridge.v1.ResultRef");
   mkField 13 Bytes false "idempotency_key" None;
   mkField 14 Varint false "lease_deadline_ms" None;
   mkField 15 Bytes false "subject" None].

Record v1_DatabaseInfo := mk_v1_DatabaseInfo {
  v1_DatabaseInfo_Id : string;
  v1_DatabaseInfo_Engine : string;
  v1_DatabaseInfo_DisplayName : string;
  v1_DatabaseInfo_Healthy : bool
}.

Definition v1_DatabaseInfo_Reset : v1_DatabaseInfo := mk_v1_DatabaseInfo "" "" "" false.
Definition v1_DatabaseInfo_GetId (x : option v1_DatabaseInfo) : string :=
  match x with Some x => v1_DatabaseInfo_Id x | None => "" end.
Definition v1_DatabaseInfo_GetEngine (x : option v1_DatabaseInfo) : string :=
  match x with Some x => v1_DatabaseInfo_Engine x | None => "" end.
Definition v1_DatabaseInfo_GetDisplayName (x : option v1_DatabaseInfo) : string :=
  match x with Some x => v1_DatabaseInfo_DisplayName x | None => "" end.
Definition v1_DatabaseInfo_GetHealthy (x : option v1_DatabaseInfo) : bool :=
  match x with Some x => v1_DatabaseInfo_Healthy x | None => false end.
Definition v1_DatabaseInfo_Get (x : option v1_DatabaseInfo) : string * string * string * bool :=
  (v1_DatabaseInfo_GetId x, v1_DatabaseInfo_GetEngine x, v1_DatabaseInfo_GetDisplayName x,
   v1_DatabaseInfo_GetHealthy x).
Definition v1_DatabaseInfo_fields : list field :=
  [mkField 1 Bytes false "id" None;
   mkField 2 Bytes false "engine" None;
   mkField 3 Bytes false "display_name" None;
   mkField 4 Varint false "healthy" None].

Record v1_StartQueryRequest := mk_v1_StartQueryRequest {
  v1_StartQueryRequest_DatabaseId : string;
  v1_StartQueryRequest_Sql : string;
  v1_StartQueryRequest_Options : option v1_QueryOptions
}.

Definition v1_StartQueryRequest_Reset : v1_StartQueryRequest := mk_v1_StartQueryRequest "" "" None.
Definition v1_StartQueryRequest_GetDatabaseId (x : option v1_StartQueryRequest) : string :=
  match x with Some x => v1_StartQueryRequest_DatabaseId x | None => "" end.
Definition v1_StartQueryRequest_GetSql (x : option v1_StartQueryRequest) : string :=
  match x with Some x => v1_StartQueryRequest_Sql x | None => "" end.
Definition v1_StartQueryRequest_GetOptions (x : option v1_StartQueryRequest) : option v1_QueryOptions :=
  match x with Some x => v1_StartQueryRequest_Options x | None => None end.
Definition v1_StartQueryRequest_Get (x : option v1_StartQueryRequest) : string * string * option v1_QueryOptions :=
  (v1_StartQueryRequest_GetDatabaseId x, v1_StartQueryRequest_GetSql x, v1_StartQueryRequest_GetOptions x).
Definition v1_StartQueryRequest_fields : list field :=
  [mkField 1 Bytes false "database_id" None;
   mkField 2 Bytes false "sql" None;
   mkField 3 Bytes false "options" (Some "dbbridge.v1.QueryOptions")].

Record v1_StartQueryResponse := mk_v1_StartQueryResponse {
  v1_StartQueryResponse_Record : option v1_QueryRecord
}.

Definition v1_StartQueryResponse_Reset : v1_StartQueryResponse := mk_v1_StartQueryResponse None.
Definition v1_StartQueryResponse_GetRecord (x : option v1_StartQueryResponse) : option v1_QueryRecord :=
  match x with Some x => v1_StartQueryResponse_Record x | None => None end.
Definition v1_StartQueryResponse_fields : list field :=
  [mkField 1 Bytes false "record" (Some "dbbridge.v1.QueryRecord")].

Record v1_GetQueryStatusRequest := mk_v1_GetQueryStatusRequest {
  v1_GetQueryStatusRequest_QueryId : string
}.

Definition v1_GetQueryStatusRequest_Reset : v1_GetQueryStatusRequest := mk_v1_GetQueryStatusRequest "".
Definition v1_GetQueryStatusRequest_GetQueryId (x : option v1_GetQueryStatusRequest) : string :=
  match x with Some x => v1_GetQueryStatusRequest_QueryId x | None => "" end.
Definition v1_GetQueryStatusRequest_fields : list field :=
  [mkField 1 Bytes false "query_id" None].

Record v1_GetQueryStatusResponse := mk_v1_GetQueryStatusResponse {
  v1_GetQueryStatusResponse_Record : option v1_QueryRecord
}.

Definition v1_GetQueryStatusResponse_Reset : v1_GetQueryStatusResponse := mk_v1_GetQueryStatusResponse None.
Definition v1_GetQueryStatusResponse_GetRecord (x : option v1_GetQueryStatusResponse) : option v1_QueryRecord :=
  match x with Some x => v1_GetQueryStatusResponse_Record x | None => None end.
Definition v1_GetQueryStatusResponse_fields : list field :=
  [mkField 1 Bytes false "record" (Some "dbbridge.v1.QueryRecord")].

Record v1_StopQueryRequest := mk_v1_StopQueryRequest {
  v1_StopQueryRequest_QueryId : string
}.

Definition v1_StopQueryRequest_Reset : v1_StopQueryRequest := mk_v1_StopQueryRequest "".
Definition v1_StopQueryRequest_GetQueryId (x : option v1_StopQueryRequest) : string :=
  match x with Some x => v1_StopQueryRequest_QueryId x | None => "" end.
Definition v1_StopQueryRequest_fields : list field :=
  [mkField 1 Bytes false "query_id" None].

Record v1_StopQueryResponse := mk_v1_StopQueryResponse {
  v1_StopQueryResponse_QueryId : string;
  v1_StopQueryResponse_Status : string
}.

Definition v1_StopQueryResponse_Reset : v1_StopQueryResponse := mk_v1_StopQueryResponse "" "".
Definition v1_StopQueryResponse_GetQueryId (x : option v1_StopQueryResponse) : string :=
  match x with Some x => v1_StopQueryResponse_QueryId x | None => "" end.
Definition v1_StopQueryResponse_GetStatus (x : option v1_StopQueryResponse) : string :=
  match x with Some x => v1_StopQueryResponse_Status x | None => "" end.
Definition v1_StopQueryResponse_Get (x : option v1_StopQueryResponse) : string * string :=
  (v1_StopQueryResponse_GetQueryId x, v1_StopQueryResponse_GetStatus x).
Definition v1_StopQueryResponse_fields : list field :=
  [mkField 1 Bytes false "query_id" None;
   mkField 2 Bytes false "status" None].

Record v1_GetQueryStatsRequest := mk_v1_GetQueryStatsRequest {
  v1_GetQueryStatsRequest_QueryId : string
}.

Definition v1_GetQueryStatsRequest_Reset : v1_GetQueryStatsRequest := mk_v1_GetQueryStatsRequest "".
Definition v1_GetQueryStatsRequest_GetQueryId (x : option v1_GetQueryStatsRequest) : string :=
  match x with Some x => v1_GetQueryStatsRequest_QueryId x | None => "" end.
Definition v1_GetQueryStatsRequest_fields : list field :=
  [mkField 1 Bytes false "query_id" None].

Record v1_GetQueryStatsResponse := mk_v1_GetQueryStatsResponse {
  v1_GetQueryStatsResponse_Stats : option v1_QueryStats
}.

Definition v1_GetQueryStatsResponse_Reset : v1_GetQueryStatsResponse := mk_v1_GetQueryStatsResponse None.
Definition v1_GetQueryStatsResponse_GetStats (x : option v1_GetQueryStatsResponse) : option v1_QueryStats :=
  match x with Some x => v1_GetQueryStatsResponse_Stats x | None => None end.
Definition v1_GetQueryStatsResponse_fields : list field :=
  [mkField 1 Bytes false "stats" (Some "dbbridge.v1.QueryStats")].

Record v1_DownloadResultRequest := mk_v1_DownloadResultRequest {
  v1_DownloadResultRequest_QueryId : string;
  v1_DownloadResultRequest_OffsetBytes : Z;
  v1_DownloadResultRequest_LimitBytes : Z
}.

Definition v1_DownloadResultRequest_Reset : v1_DownloadResultRequest := mk_v1_DownloadResultRequest "" 0 0.
Definition v1_DownloadResultRequest_GetQueryId (x : option v1_DownloadResultRequest) : string :=
  match x with Some x => v1_DownloadResultRequest_QueryId x | None => "" end.
Definition v1_DownloadResultRequest_GetOffsetBytes (x : option v1_DownloadResultRequest) : Z :=
  match x with Some x => v1_DownloadResultRequest_OffsetBytes x | None => 0 end.
Definition v1_DownloadResultRequest_GetLimitBytes (x : option v1_DownloadResultRequest) : Z :=
  match x with Some x => v1_DownloadResultRequest_LimitBytes x | None => 0 end.
Definition v1_DownloadResultRequest_Get (x : option v1_DownloadResultRequest) : string * Z * Z :=
  (v1_DownloadResultRequest_GetQueryId x, v1_DownloadResultRequest_GetOffsetBytes x, v1_DownloadResultRequest_GetLimitBytes x).
Definition v1_DownloadResultRequest_fields : list field :=
  [mkField 1 Bytes false "query_id" None;
   mkField 2 Varint false "offset_bytes" None;
   mkField 3 Varint false "limit_bytes" None].

Record v1_DownloadResultResponse := mk_v1_DownloadResultResponse {
  v1_DownloadResultResponse_Chunk : list Ascii.ascii
}.

Definition v1_DownloadResultResponse_Reset : v1_DownloadResultResponse := mk_v1_DownloadResultResponse [].
Definition v1_DownloadResultResponse_GetChunk (x : option v1_DownloadResultResponse) : list Ascii.ascii :=
  match x with Some x => v1_DownloadResultResponse_Chunk x | None => [] end.
Definition v1_DownloadResultResponse_fields : list field :=
  [mkField 1 Bytes false "chunk" None].

Record v1_ListDatabasesRequest := mk_v1_ListDatabasesRequest { }.

Definition v1_ListDatabasesRequest_Reset : v1_ListDatabasesRequest := mk_v1_ListDatabasesRequest.
Definition v1_ListDatabasesRequest_fields : list field :=
  [].

Record v1_ListDatabasesResponse := mk_v1_ListDatabasesResponse {
  v1_ListDatabasesResponse_Databases : list (option v1_DatabaseInfo)
}.

Definition v1_ListDatabasesResponse_Reset : v1_ListDatabasesResponse := mk_v1_ListDatabasesResponse [].
Definition v1_ListDatabasesResponse_GetDatabases (x : option v1_ListDatabasesResponse) : list (option v1_DatabaseInfo) :=
  match x with Some x => v1_ListDatabasesResponse_Databases x | None => [] end.
Definition v1_ListDatabasesResponse_fields : list field :=
  [mkField 1 Bytes true "databases" (Some "dbbridge.v1.DatabaseInfo")].

Record v1_ReloadConfigRequest := mk_v1_ReloadConfigRequest { }.

Definition v1_ReloadConfigRequest_Reset : v1_ReloadConfigRequest := mk_v1_ReloadConfigRequest.
Definition v1_ReloadConfigRequest_fields : list field :=
  [].

Record v1_ReloadConfigResponse := mk_v1_ReloadConfigResponse {
  v1_ReloadConfigResponse_Success : bool;
  v1_ReloadConfigResponse_Message : string
}.

Definition v1_ReloadConfigResponse_Reset : v1_ReloadConfigResponse := mk_v1_ReloadConfigResponse false "".
Definition v1_ReloadConfigResponse_GetSuccess (x : option v1_ReloadConfigResponse) : bool :=
  match x with Some x => v1_ReloadConfigResponse_Success x | None => false end.
Definition v1_ReloadConfigResponse_GetMessage (x : option v1_ReloadConfigResponse) : string :=
  match x with Some x => v1_ReloadConfigResponse_Message x | None => "" end.
Definition v1_ReloadConfigResponse_Get (x : option v1_ReloadConfigResponse) : bool * string :=
  (v1_ReloadConfigResponse_GetSuccess x, v1_ReloadConfigResponse_GetMessage x).
Definition v1_ReloadConfigResponse_fields : list field :=
  [mkField 1 Varint false "success" None;
   mkField 2 Bytes false "message" None].

Record v1_CanIBeStoppedRequest := mk_v1_CanIBeStoppedRequest { }.

Definition v1_CanIBeStoppedRequest_Reset : v1_CanIBeStoppedRequest := mk_v1_CanIBeStoppedRequest.
Definition v1_CanIBeStoppedRequest_fields : list field :=
  [].

Record v1_CanIBeStoppedResponse := mk_v1_CanIBeStoppedResponse {
  v1_CanIBeStoppedResponse_CanBeStopped : bool;
  v1_CanIBeStoppedResponse_InFlightCount : Z;
  v1_CanIBeStoppedResponse_InstanceState : string
}.

Definition v1_CanIBeStoppedResponse_Reset : v1_CanIBeStoppedResponse := mk_v1_CanIBeStoppedResponse false 0 "".
Definition v1_CanIBeStoppedResponse_GetCanBeStopped (x : option v1_CanIBeStoppedResponse) : bool :=
  match x with Some x => v1_CanIBeStoppedResponse_CanBeStopped x | None => false end.
Definition v1_CanIBeStoppedResponse_GetInFlightCount (x : option v1_CanIBeStoppedResponse) : Z :=
  match x with Some x => v1_CanIBeStoppedResponse_InFlightCount x | None => 0 end.
Definition v1_CanIBeStoppedResponse_GetInstanceState (x : option v1_CanIBeStoppedResponse) : string :=
  match x with Some x => v1_CanIBeStoppedResponse_InstanceState x | None => "" end.
Definition v1_CanIBeStoppedResponse_Get (x : option v1_CanIBeStoppedResponse) : bool * Z * string :=
  (v1_CanIBeStoppedResponse_GetCanBeStopped x, v1_CanIBeStoppedResponse_GetInFlightCount x, v1_CanIBeStoppedResponse_GetInstanceState x).
Definition v1_CanIBeStoppedResponse_fields : list field :=
  [mkField 1 Varint false "can_be_stopped" None;
   mkField 2 Varint false "in_flight_count" None;
   mkField 3 Bytes false "instance_state" None].

Record v1_WatchQueryRequest := mk_v1_WatchQueryRequest {
  v1_WatchQueryRequest_QueryId : string
}.

Definition v1_WatchQueryRequest_Reset : v1_WatchQueryRequest := mk_v1_WatchQueryRequest "".
Definition v1_WatchQueryRequest_GetQueryId (x : option v1_WatchQueryRequest) : string :=
  match x with Some x => v1_WatchQueryRequest_QueryId x | None => "" end.
Definition v1_WatchQueryRequest_fields : list field :=
  [mkField 1 Bytes false "query_id" None].

Record v1_WatchQueryResponse := mk_v1_WatchQueryResponse {
  v1_WatchQueryResponse_QueryId : string;
  v1_WatchQueryResponse_State : Z;
  v1_WatchQueryResponse_Stats : option v1_QueryStats;
  v1_WatchQueryResponse_Error : option v1_QueryError
}.

Definition v1_WatchQueryResponse_Reset : v1_WatchQueryResponse := mk_v1_WatchQueryResponse "" QueryState_QUERY_STATE_UNSPECIFIED None None.
Definition v1_WatchQueryResponse_GetQueryId (x : option v1_WatchQueryResponse) : string :=
  match x with Some x => v1_WatchQueryResponse_QueryId x | None => "" end.
Definition v1_WatchQueryResponse_GetState (x : option v1_WatchQueryResponse) : Z :=
  match x with Some x => v1_WatchQueryResponse_State x | None => QueryState_QUERY_STATE_UNSPECIFIED end.
Definition v1_WatchQueryResponse_GetStats (x : option v1_WatchQueryResponse) : option v1_QueryStats :=
  match x with Some x => v1_WatchQueryResponse_Stats x | None => None end.
Definition v1_WatchQueryResponse_GetError (x : option v1_WatchQueryResponse) : option v1_QueryError :=
  match x with Some x => v1_WatchQueryResponse_Error x | None => None end.
Definition v1_WatchQueryResponse_Get (x : option v1_WatchQueryResponse) : string * Z * option v1_QueryStats * option v1_QueryError :=
  (v1_WatchQueryResponse_GetQueryId x, v1_WatchQueryResponse_GetState x, v1_WatchQueryResponse_GetStats x,
   v1_WatchQueryResponse_GetError x).
Definition v1_WatchQueryResponse_fields : list field :=
  [mkField 1 Bytes false "query_id" None;
   mkField 2 Varint false "state" (Some "dbbridge.v1.QueryState");
   mkField 3 Bytes false "stats" (Some "dbbridge.v1.QueryStats");
   mkField 4 Bytes false "error" (Some "dbbridge.v1.QueryError")].

(** ** The tables *)

(** The messages in the order of the file. *)
Definition messages : list (string * list field) :=
  [("dbbridge.v1.QueryOptions", v1_QueryOptions_fields); ("dbbridge.v1.QueryError", v1_QueryError_fields);
   ("dbbridge.v1.QueryStats", v1_QueryStats_fields); ("dbbridge.v1.ResultRef", v1_ResultRef_fields);
   ("dbbridge.v1.QueryRecord", v1_QueryRecord_fields); ("dbbridge.v1.DatabaseInfo", v1_DatabaseInfo_fields);
   ("dbbridge.v1.StartQueryRequest", v1_StartQueryRequest_fields); ("dbbridge.v1.StartQueryResponse", v1_StartQueryResponse_fields);
   ("dbbridge.v1.GetQueryStatusRequest", v1_GetQueryStatusRequest_fields); ("dbbridge.v1.GetQueryStatusResponse", v1_GetQueryStatusResponse_fields);
   ("dbbridge.v1.StopQueryRequest", v1_StopQueryRequest_fields); ("dbbridge.v1.StopQueryResponse", v1_StopQueryResponse_fields);
   ("dbbridge.v1.GetQueryStatsRequest", v1_GetQueryStatsRequest_fields); ("dbbridge.v1.GetQueryStatsResponse", v1_GetQueryStatsResponse_fields);
   ("dbbridge.v1.DownloadResultRequest", v1_DownloadResultRequest_fields); ("dbbridge.v1.DownloadResultResponse", v1_DownloadResultResponse_fields);
   ("dbbridge.v1.ListDatabasesRequest", v1_ListDatabasesRequest_fields); ("dbbridge.v1.ListDatabasesResponse", v1_ListDatabasesResponse_fields);
   ("dbbridge.v1.ReloadConfigRequest", v1_ReloadConfigRequest_fields); ("dbbridge.v1.ReloadConfigResponse", v1_ReloadConfigResponse_fields);
   ("dbbridge.v1.CanIBeStoppedRequest", v1_CanIBeStoppedRequest_fields); ("dbbridge.v1.CanIBeStoppedResponse", v1_CanIBeStoppedResponse_fields);
   ("dbbridge.v1.WatchQueryRequest", v1_WatchQueryRequest_fields); ("dbbridge.v1.WatchQueryResponse", v1_WatchQueryResponse_fields)].

(** [file_dbbridge_v1_dbbridge_proto_goTypes], by the names in its comments. *)
Definition goTypes : list string :=
  ["dbbridge.v1.QueryState"; "dbbridge.v1.QueryOptions"; "dbbridge.v1.QueryError";
   "dbbridge.v1.QueryStats"; "dbbridge.v1.ResultRef"; "dbbridge.v1.QueryRecord";
   "dbbridge.v1.DatabaseInfo"; "dbbridge.v1.StartQueryRequest"; "dbbridge.v1.StartQueryResponse";
   "dbbridge.v1.GetQueryStatusRequest"; "dbbridge.v1.GetQueryStatusResponse"; "dbbridge.v1.StopQueryRequest";
   "dbbridge.v1.StopQueryResponse"; "dbbridge.v1.GetQueryStatsRequest"; "dbbridge.v1.GetQueryStatsResponse";
   "dbbridge.v1.DownloadResultRequest"; "dbbridge.v1.DownloadResultResponse"; "dbbridge.v1.ListDatabasesRequest";
   "dbbridge.v1.ListDatabasesResponse"; "dbbridge.v1.ReloadConfigRequest"; "dbbridge.v1.ReloadConfigResponse";
   "dbbridge.v1.CanIBeStoppedRequest"; "dbbridge.v1.CanIBeStoppedResponse"; "dbbridge.v1.WatchQueryRequest";
   "dbbridge.v1.WatchQueryResponse"].

(** [file_dbbridge_v1_dbbridge_proto_depIdxs]: positions in [goTypes], and at the end
    where the sublists begin, that of the types of fields last. *)
Definition depIdxs : list nat :=
  [1; 0; 2; 3; 4; 1; 5; 5; 3; 6; 0; 3; 2;
   7; 9; 11; 13; 15; 17; 19; 21; 23;
   8; 10; 12; 14; 16; 18; 20; 22; 24;
   22; 13; 13; 13; 0]%nat.

Definition dependencies : list nat := take (length depIdxs - 5) depIdxs.

Definition sublist_start (k : nat) : nat := default 0%nat (last (take (length depIdxs - k) depIdxs)).

Definition resolve (idxs : list nat) : list (option string) := map (fun i => goTypes !! i) idxs.

(** The types of the fields, of what the methods take and of what they return, in the
    order of the declarations. *)
Definition field_types : list (option string) :=
  resolve (take (sublist_start 1 - sublist_start 0) (drop (sublist_start 0) dependencies)).
Definition input_types : list (option string) :=
  resolve (take (sublist_start 4 - sublist_start 3) (drop (sublist_start 3) dependencies)).
Definition output_types : list (option string) := resolve (drop (sublist_start 4) dependencies).

(** ** Consistency *)

(** The two tables of states are inverse to each other. *)
Lemma states_named n s : QueryState_name !! n = Some s <-> QueryState_value !! s = Some n.
Proof.
  unfold QueryState_name, QueryState_value. rewrite <- !elem_of_list_to_map; [|vm_compute; repeat constructor; set_solver..].
  set_solver.
Qed.

(** No message uses a number or a name twice, and the numbers are those a field may
    have; every type a field refers to is the one the tables give for it. *)
Lemma fields_distinct :
  Forall (fun '(_, fs) => NoDup (map f_number fs) /\ NoDup (map f_name fs) /\ Forall (fun f => 0 < f_number f < 19000) fs) messages /\
  NoDup (map fst messages) /\
  map Some (omap f_type (messages ≫= snd)) = field_types.
Proof.
  split_and!; [|apply (bool_decide_unpack _); vm_compute; exact I|vm_compute; reflexivity].
  apply (bool_decide_unpack _). vm_compute. exact I.
Qed.

(** A message that was reset reads as one that is not there. *)
Lemma reset_messages :
  v1_QueryOptions_Get (Some v1_QueryOptions_Reset) = v1_QueryOptions_Get None /\
  v1_QueryError_Get (Some v1_QueryError_Reset) = v1_QueryError_Get None /\
  v1_QueryStats_Get (Some v1_QueryStats_Reset) = v1_QueryStats_Get None /\
  v1_ResultRef_Get (Some v1_ResultRef_Reset) = v1_ResultRef_Get None /\
  v1_QueryRecord_Get (Some v1_QueryRecord_Reset) = v1_QueryRecord_Get None /\
  v1_DatabaseInfo_Get (Some v1_DatabaseInfo_Reset) = v1_DatabaseInfo_Get None /\
  v1_StartQueryRequest_Get (Some v1_StartQueryRequest_Reset) = v1_StartQueryRequest_Get None /\
  v1_StopQueryResponse_Get (Some v1_StopQueryResponse_Reset) = v1_StopQueryResponse_Get None /\
  v1_DownloadResultRequest_Get (Some v1_DownloadResultRequest_Reset) = v1_DownloadResultRequest_Get None /\
  v1_ReloadConfigResponse_Get (Some v1_ReloadConfigResponse_Reset) = v1_ReloadConfigResponse_Get None /\
  v1_CanIBeStoppedResponse_Get (Some v1_CanIBeStoppedResponse_Reset) = v1_CanIBeStoppedResponse_Get None /\
  v1_WatchQueryResponse_Get (Some v1_WatchQueryResponse_Reset) = v1_WatchQueryResponse_Get None /\
  v1_StartQueryResponse_GetRecord (Some v1_StartQueryResponse_Reset) = v1_StartQueryResponse_GetRecord None /\
  v1_GetQueryStatusRequest_GetQueryId (Some v1_GetQueryStatusRequest_Reset) = v1_GetQueryStatusRequest_GetQueryId None /\
  v1_GetQueryStatusResponse_GetRecord (Some v1_GetQueryStatusResponse_Reset) = v1_GetQueryStatusResponse_GetRecord None /\
  v1_StopQueryRequest_GetQueryId (Some v1_StopQueryRequest_Reset) = v1_StopQueryRequest_GetQueryId None /\
  v1_GetQueryStatsRequest_GetQueryId (Some v1_GetQueryStatsRequest_Reset) = v1_GetQueryStatsRequest_GetQueryId None /\
  v1_GetQueryStatsResponse_GetStats (Some v1_GetQueryStatsResponse_Reset) = v1_GetQueryStatsResponse_GetStats None /\
  v1_DownloadResultResponse_GetChunk (Some v1_DownloadResultResponse_Reset) = v1_DownloadResultResponse_GetChunk None /\
  v1_ListDatabasesResponse_GetDatabases (Some v1_ListDatabasesResponse_Reset) = v1_ListDatabasesResponse_GetDatabases None /\
  v1_WatchQueryRequest_GetQueryId (Some v1_WatchQueryRequest_Reset) = v1_WatchQueryRequest_GetQueryId None.
Proof. split_and!; reflexivity. Qed.
