(* ===== verification/Grpc.v ===== *)
(** * The Connect/gRPC transport

    [internal/transport/grpcconnect]: the scopes of the procedures and the
    authentication of a call, the mapping of errors and records, the handlers and
    the streaming of a result. The Connect library is not modelled: a call is its
    procedure, its headers and its message ([Messages]), and an answer is a message
    or an error with a code. *)

From S2P Require Import Prelude Domain Utf8 SqlGuard Authn Lifecycle Config MetaStore Prog ManagerState.
From S2P Require Import Manager World Submission Service RateLimit Rest Messages.
Import Config.

Open Scope dbb_scope.

(** ** Scopes *)

Definition procedureScopes : gmap string Scope :=
  {[ "StartQuery" := ScopeWrite; "StopQuery" := ScopeWrite;
     "GetQueryStatus" := ScopeRead; "GetQueryStats" := ScopeRead;
     "DownloadResult" := ScopeRead; "ListDatabases" := ScopeRead;
     "WatchQuery" := ScopeRead; "ReloadConfig" := ScopeAdmin;
     "CanIBeStopped" := ScopeAdmin ]}.

Definition slash : Ascii.ascii := Ascii.ascii_of_nat 47.

(** The name after the last slash. *)
Definition procedure_name (procedure : string) : string :=
  match last_index_byte slash procedure with
  | Some i => string_drop (i + 1) procedure
  | None => procedure
  end.

Definition ScopeForProcedure (procedure : string) : Scope :=
  default ScopeAdmin (procedureScopes !! procedure_name procedure).

(** ** Errors *)

Inductive Code :=
| CodeInvalidArgument | CodeNotFound | CodeUnavailable | CodeResourceExhausted | CodeInternal
| CodeUnauthenticated | CodePermissionDenied | CodeUnimplemented.

Record rpc_error := mkRpcError { rpc_code : Code; rpc_message : string }.

Definition connectError (e : error) : rpc_error :=
  if is_validation e then mkRpcError CodeInvalidArgument (Error e)
  else if is_not_found_type e || is_ErrNotFound e then mkRpcError CodeNotFound "not found"
  else if is_draining e || is_unavailable e then mkRpcError CodeUnavailable (Error e)
  else if is_exhausted e then mkRpcError CodeResourceExhausted (Error e)
  else mkRpcError CodeInternal "internal error".

(** ** Interceptors *)

Definition check (a : Authenticator) (authorization procedure : string) : rpc_error + Identity :=
  match Authenticate a (BearerToken authorization) with
  | Err _ => inl (mkRpcError CodeUnauthenticated (Error ErrUnauthenticated))
  | Ok id =>
      if negb (Has id (ScopeForProcedure procedure))
      then inl (mkRpcError CodePermissionDenied (Error ErrForbidden))
      else inr id
  end.

(** An inbound call, unary or streaming. *)
Definition intercept {R} (a : Authenticator) (authorization procedure : string)
  (next : option Identity -> M (rpc_error + R)) : M (rpc_error + R) :=
  match check a authorization procedure with
  | inl e => Ret (inl e)
  | inr id => next (Some id)
  end.

(** The caller a call is counted against. *)
Definition rpc_key (peerAddr : string) : string := "addr:" +:+ peerAddr.

Definition rate_limited {R} (allowed : bool) (next : M (rpc_error + R)) : M (rpc_error + R) :=
  if allowed then next else Ret (inl (mkRpcError CodeResourceExhausted "rate limit exceeded")).

(** ** Messages *)

Definition mapToProtoState (s : QueryState) : Z :=
  match s with
  | StatePending => QueryState_QUERY_STATE_PENDING
  | StateRunning => QueryState_QUERY_STATE_RUNNING
  | StateSucceeded => QueryState_QUERY_STATE_SUCCEEDED
  | StateFailed => QueryState_QUERY_STATE_FAILED
  | StateCanceled => QueryState_QUERY_STATE_CANCELED
  | StateExpired => QueryState_QUERY_STATE_EXPIRED
  | StateOther _ => QueryState_QUERY_STATE_UNSPECIFIED
  end.

(** The Unix epoch as an instant. *)
Definition unix_epoch : time := 62135596800 * Second.

Definition UnixMilli (t : time) : Z := wrap64 ((t - unix_epoch) / Millisecond).

Definition unixMillis (t : time) : Z := if IsZero t then 0 else UnixMilli t.

Definition mapToProtoStats (s : QueryStats) : v1_QueryStats :=
  mk_v1_QueryStats (RowsRead s) (BytesWritten s) (Milliseconds (DBExecDuration s))
    (Milliseconds (StorageWriteDuration s)) (Milliseconds (TotalDuration s)).

(** The errors and the results of records and events are copied field by field. *)
Definition protoErr (e : QueryError) : v1_QueryError :=
  mk_v1_QueryError (QueryErrorCode_string (Records.Code e)) (Message e) (Retryable e).

Definition protoResult (r : ResultRef) : v1_ResultRef :=
  mk_v1_ResultRef (Backend r) (Locator r) (SizeBytes r) (RowCount r) (Format r) (Checksum r).

Definition protoOptions (o : QueryOptions) : v1_QueryOptions :=
  mk_v1_QueryOptions (Milliseconds (Timeout o)) (Mode o) (int64_of_float (Seconds (ResultTTL o)))
    (opt_IdempotencyKey o) (ResultFormat o) (StorageBackend o).

Definition mapToProtoRecord (r : QueryRecord) : v1_QueryRecord :=
  mk_v1_QueryRecord (ID r) (DatabaseID r) (SQL r) (Some (protoOptions (rec_Options r)))
    (mapToProtoState (rec_State r)) (OwnerInstanceID r) (unixMillis (CreatedAt r))
    (unixMillis (StartedAt r)) (unixMillis (FinishedAt r)) (protoErr <$> rec_Error r)
    (Some (mapToProtoStats (Stats r))) (protoResult <$> rec_Result r) (IdempotencyKey r) (unixMillis (LeaseDeadline r))
    (Subject r).

(** What a watch sends for an event. *)
Definition watch_response (ev : QueryEvent) : v1_WatchQueryResponse :=
  mk_v1_WatchQueryResponse (ev_QueryID ev) (mapToProtoState (ev_State ev)) (Some (mapToProtoStats (ev_Stats ev)))
    (protoErr <$> ev_Error ev).

Definition protoDatabase (db : DatabaseInfo) : v1_DatabaseInfo :=
  mk_v1_DatabaseInfo (db_ID db) (db_Engine db) (db_DisplayName db) (db_Healthy db).

(** ** Handlers *)

Section Handlers.
Context `{Unicode} (me : captured) (authRequired : bool).

(** The options of a submission; a call without options has the zero ones. *)
Definition message_options (o : option v1_QueryOptions) : QueryOptions :=
  match o with
  | None => mkQueryOptions 0 "" 0 "" "" ""
  | Some o =>
      mkQueryOptions (i64_mul (v1_QueryOptions_TimeoutMs o) Millisecond) (v1_QueryOptions_Mode o)
        (i64_mul (v1_QueryOptions_ResultTtlSeconds o) Second) (v1_QueryOptions_IdempotencyKey o)
        (v1_QueryOptions_ResultFormat o) (v1_QueryOptions_StorageBackend o)
  end.

Definition rpc_StartQuery (msg : v1_StartQueryRequest) (caller : option Identity) : M (rpc_error + v1_StartQueryResponse) :=
  do r <- StartQuery me caller (v1_StartQueryRequest_DatabaseId msg) (v1_StartQueryRequest_Sql msg)
            (message_options (v1_StartQueryRequest_Options msg));
  match r with
  | Err e => Ret (inl (connectError e))
  | Ok record => Ret (inr (mk_v1_StartQueryResponse (Some (mapToProtoRecord record))))
  end.

Definition rpc_GetQueryStatus (msg : v1_GetQueryStatusRequest) (caller : option Identity)
  : M (rpc_error + v1_GetQueryStatusResponse) :=
  do r <- GetQueryStatus authRequired caller (v1_GetQueryStatusRequest_QueryId msg);
  match r with
  | Err e => Ret (inl (connectError e))
  | Ok record => Ret (inr (mk_v1_GetQueryStatusResponse (Some (mapToProtoRecord record))))
  end.

Definition rpc_StopQuery (msg : v1_StopQueryRequest) (caller : option Identity) : M (rpc_error + v1_StopQueryResponse) :=
  do r <- Service.StopQuery me authRequired caller (v1_StopQueryRequest_QueryId msg);
  match r with
  | Some e => Ret (inl (connectError e))
  | None => Ret (inr (mk_v1_StopQueryResponse (v1_StopQueryRequest_QueryId msg) "STOPPED"))
  end.

Definition rpc_GetQueryStats (msg : v1_GetQueryStatsRequest) (caller : option Identity)
  : M (rpc_error + v1_GetQueryStatsResponse) :=
  do r <- GetQueryStats authRequired caller (v1_GetQueryStatsRequest_QueryId msg);
  match r with
  | Err e => Ret (inl (connectError e))
  | Ok s => Ret (inr (mk_v1_GetQueryStatsResponse (Some (mapToProtoStats s))))
  end.

(** The download up to the loop that streams the reader ([stream]). *)
Definition rpc_DownloadResult (msg : v1_DownloadResultRequest) (caller : option Identity)
  : M (rpc_error + (nat * option (Z * Z))) :=
  do r <- DownloadResult authRequired caller (v1_DownloadResultRequest_QueryId msg)
            (v1_DownloadResultRequest_OffsetBytes msg) (v1_DownloadResultRequest_LimitBytes msg);
  match r with
  | Err e => Ret (inl (connectError e))
  | Ok (reader, section, _) => Ret (inr (reader, section))
  end.

Definition rpc_ListDatabases (msg : v1_ListDatabasesRequest) : M (rpc_error + v1_ListDatabasesResponse) :=
  do dbs <- ListDatabases;
  Ret (inr (mk_v1_ListDatabasesResponse (map (fun db => Some (protoDatabase db)) dbs))).

Definition rpc_ReloadConfig (msg : v1_ReloadConfigRequest) : M v1_ReloadConfigResponse :=
  do '(report, err) <- ReloadConfig;
  match err with
  | Some _ => Ret (mk_v1_ReloadConfigResponse false "config reload failed")
  | None =>
      let n (l : list string) := pretty.pretty (Z.of_nat (length l)) in
      Ret (mk_v1_ReloadConfigResponse true
             ("Config reloaded successfully (added=" +:+ n (Added report) +:+ " removed=" +:+
              n (Removed report) +:+ " updated=" +:+ n (Updated report) +:+ ")"))
  end.

Definition wrap32 (z : Z) : Z := (z + 2 ^ 31) mod 2 ^ 32 - 2 ^ 31.

Definition rpc_CanIBeStopped (msg : v1_CanIBeStoppedRequest) : M v1_CanIBeStoppedResponse :=
  do '(canStop, inFlight, st) <- CanIBeStopped me;
  Ret (mk_v1_CanIBeStoppedResponse canStop (wrap32 inFlight) (Lifecycle.State_string st)).

(** The watch up to the loop that forwards the events ([watch_response]). *)
Definition rpc_WatchQuery (msg : v1_WatchQueryRequest) (caller : option Identity) : M (rpc_error + chan_id) :=
  do r <- WatchQuery authRequired caller (v1_WatchQueryRequest_QueryId msg);
  match r with
  | Err e => Ret (inl (connectError e))
  | Ok ch => Ret (inr ch)
  end.

End Handlers.

(** ** Streaming *)

Section Stream.
Context {R : Type} `{!Reader R}.

Definition chunk_size : nat := Z.to_nat 65536.

Inductive stream_end := StreamDone | SendFailed (e : error) | StreamError (e : rpc_error) | OutOfFuel.

(** The loop of [DownloadResult]: the chunks sent and how it ended. [send] is the
    outcome of sending a chunk. *)
Fixpoint stream (fuel : nat) (send : list Ascii.ascii -> option error) (r : R)
  : list (list Ascii.ascii) * stream_end :=
  match fuel with
  | 0%nat => ([], OutOfFuel)
  | S fuel =>
      let '(bs, err, r') := read chunk_size r in
      let continue (sent : list (list Ascii.ascii)) :=
        match err with
        | Some EOF => (sent, StreamDone)
        | Some (ReadFailed e) => (sent, StreamError (connectError e))
        | None => let '(rest, e) := stream fuel send r' in (sent ++ rest, e)
        end in
      if (0 <? length bs)%nat then
        match send bs with
        | Some e => ([bs], SendFailed e)
        | None => continue [bs]
        end
      else continue []
  end.

Lemma stream_exact fuel send r sent e :
  stream fuel send r = (sent, e) ->
  (exists rest, content r = concat sent ++ rest) /\
  (e = StreamDone -> concat sent = content r) /\
  Forall (fun c => c <> [] /\ (length c <= chunk_size)%nat) sent /\
  ((length (content r) < fuel)%nat -> e <> OutOfFuel).
Proof.
  revert r sent e. induction fuel as [|fuel IH]; intros r sent e; cbn [stream].
  { intros [= <- <-]. split_and!; [by eexists|done|constructor|lia]. }
  destruct (read chunk_size r) as [[bs err] r'] eqn:Hr.
  apply read_spec in Hr as (Hlen & Hc & Hpos & Heof).
  assert (forall sent1 out, concat sent1 = bs -> Forall (fun c => c <> [] /\ (length c <= chunk_size)%nat) sent1 ->
    match err with
    | Some EOF => (sent1, StreamDone)
    | Some (ReadFailed e) => (sent1, StreamError (connectError e))
    | None => let '(rest, e) := stream fuel send r' in (sent1 ++ rest, e)
    end = out ->
    (exists rest, content r = concat out.1 ++ rest) /\ (out.2 = StreamDone -> concat out.1 = content r) /\
    Forall (fun c => c <> [] /\ (length c <= chunk_size)%nat) out.1 /\
    ((length (content r) < S fuel)%nat -> out.2 <> OutOfFuel)) as Hcont.
  { intros sent1 out Hs Hf <-. destruct err as [[|e1]|].
    - simpl. rewrite Hs, Hc, (Heof eq_refl). split_and!; [by exists []|by rewrite app_nil_r|done|done].
    - simpl. rewrite Hs, Hc. split_and!; [by eexists|done|done|done].
    - destruct (stream fuel send r') as [rest e2] eqn:Hst.
      destruct (IH _ _ _ Hst) as ((rest' & Hr') & Hdone & Hfc & Hfuel). simpl.
      rewrite concat_app, Hs, Hc. split_and!.
      + exists rest'. by rewrite Hr', app_assoc.
      + intros He. by rewrite (Hdone He).
      + by apply Forall_app.
      + intros Hlt. apply Hfuel. assert (bs <> []) as Hne by (apply Hpos; [done|unfold chunk_size; lia]).
        rewrite length_app in Hlt. destruct bs; [done|simpl in Hlt; lia]. }
  destruct (Nat.ltb_spec 0 (length bs)) as [Hb|Hb].
  - assert (Forall (fun c => c <> [] /\ (length c <= chunk_size)%nat) [bs]) as Hf.
    { apply Forall_singleton. split; [by destruct bs; [simpl in Hb; lia|]|done]. }
    destruct (send bs) as [e1|].
    + intros [= <- <-]. simpl. rewrite app_nil_r, Hc. split_and!; [by eexists|done|done|done].
    + intros Hout. by apply (Hcont [bs] (sent, e)); [simpl; by rewrite app_nil_r| |].
  - intros Hout. apply (Hcont [] (sent, e)); [by destruct bs; [|simpl in Hb; lia]|constructor|done].
Qed.

End Stream.

(** ** Both transports agree *)

(** The HTTP status of a code, as the Connect protocol defines it. *)
Definition http_status (c : Code) : Z :=
  match c with
  | CodeInvalidArgument => 400
  | CodeNotFound => 404
  | CodeUnavailable => 503
  | CodeResourceExhausted => 429
  | CodeInternal => 500
  | CodeUnauthenticated => 401
  | CodePermissionDenied => 403
  | CodeUnimplemented => 501
  end.

(** The typed errors whose text is meant for the client. *)
Definition has_public_text (e : error) : bool :=
  is_validation e || is_draining e || is_unavailable e || is_exhausted e.

Lemma connectError_classify e :
  http_status (rpc_code (connectError e)) = (classify e).1 /\ rpc_message (connectError e) = (classify e).2.
Proof.
  unfold connectError, classify. destruct (is_validation e); [done|].
  destruct (is_not_found_type e || is_ErrNotFound e); [done|]. destruct (is_draining e); [done|].
  destruct (is_unavailable e); [done|]. by destruct (is_exhausted e).
Qed.

(** C39. Both transports classify every error alike, with the same text. The text
    of an error reaches a client only if it carries a validation, draining,
    unavailable or resource-exhausted error; every other error, whatever a
    driver, a store or a wrapper put into it, is reported as one of two fixed
    texts. *)
Theorem errors_agree e :
  http_status (rpc_code (connectError e)) = (classify e).1 /\
  rpc_message (connectError e) = (classify e).2 /\
  ((classify e).2 = Error e /\ has_public_text e = true \/
   (classify e).2 = "not found" /\ (classify e).1 = 404 \/
   (classify e).2 = "internal error" /\ (classify e).1 = 500 /\ has_public_text e = false).
Proof.
  destruct (connectError_classify e) as [-> ->]. split_and!; [done..|]. unfold classify, has_public_text.
  destruct (is_validation e); [naive_solver|].
  destruct (is_not_found_type e || is_ErrNotFound e); [naive_solver|].
  destruct (is_draining e); [naive_solver|]. destruct (is_unavailable e); [naive_solver|].
  destruct (is_exhausted e); naive_solver.
Qed.

(** The procedure that offers the operation of a route. *)
Definition procedure_of (op : operation) : option string :=
  match op with
  | DoStartQuery => Some "StartQuery"
  | DoGetQueryStatus => Some "GetQueryStatus"
  | DoStopQuery => Some "StopQuery"
  | DoGetQueryStats => Some "GetQueryStats"
  | DoDownloadResult => Some "DownloadResult"
  | DoWatch => Some "WatchQuery"
  | DoListDatabases => Some "ListDatabases"
  | DoReloadConfig => Some "ReloadConfig"
  | DoCanIBeStopped => Some "CanIBeStopped"
  | Healthz | Readyz | Metrics => None
  end.

Definition service_prefix : string := "/dbbridge.v1.QueryService/".

(** Both transports enforce one policy: an identity may use a REST route
    exactly when it may call the procedure that offers the same operation, and a
    procedure the table does not know, like one that was added later, needs the
    admin scope. *)
Theorem transports_same_policy separateAdmin rt name id :
  rt ∈ public_router separateAdmin ++ admin_router separateAdmin ->
  procedure_of (rt_op rt) = Some name ->
  forallb (Has id) (rt_gates rt) = Has id (ScopeForProcedure (service_prefix +:+ name)) /\
  (forall p, procedureScopes !! procedure_name p = None -> ScopeForProcedure p = ScopeAdmin).
Proof.
  intros Hin Hname. split; [|by unfold ScopeForProcedure; intros p ->].
  assert (rt ∈ v1_routes ++ admin_routes) as Hin'.
  { unfold public_router, admin_router in Hin.
    assert (rt ∉ probe_routes); [|by destruct separateAdmin; set_solver].
    unfold probe_routes. rewrite !elem_of_cons, elem_of_nil. intros [-> | [-> | []]]; done. }
  assert (Has id ScopeWrite = true -> Has id ScopeRead = true) as Hwr.
  { unfold Has. simpl. repeat case_match; try done. }
  clear Hin. unfold v1_routes, admin_routes in Hin'. simpl in Hin'.
  repeat (apply elem_of_cons in Hin' as [-> | Hin'];
          [simpl in Hname; simplify_eq; cbn [rt_gates forallb];
           match goal with |- _ = Has id ?s => let t := eval vm_compute in s in change s with t end;
           rewrite ?andb_true_r; destruct (Has id ScopeRead), (Has id ScopeWrite); naive_solver|]).
  by apply elem_of_nil in Hin'.
Qed.

(** ** Calls *)

Section Calls.
Context `{Unicode} (me : captured) (authRequired : bool).

(** A call reaches its handler only with the identity of a valid credential that
    has the scope of the procedure. *)
Lemma calls_gated {R} a authorization procedure (next : option Identity -> M (rpc_error + R)) tr r :
  executes (intercept a authorization procedure next) tr r ->
  (exists e, r = inl e /\ tr = [] /\ (rpc_code e = CodeUnauthenticated \/ rpc_code e = CodePermissionDenied)) \/
  (exists id, Authenticate a (BearerToken authorization) = Ok id /\
     Has id (ScopeForProcedure procedure) = true /\ executes (next (Some id)) tr r).
Proof.
  unfold intercept, check. destruct (Authenticate a _) as [id|e]; [|intros [-> ->]; naive_solver].
  destruct (Has id _) eqn:Hh; cbn [negb]; [by right; exists id|intros [-> ->]; naive_solver].
Qed.

(** What a procedure does with a query of somebody else. *)
Definition rpc_hides {R} (caller : option Identity) (queryId : string) (tr : trace)
  (r : rpc_error + R) : Prop :=
  guarded authRequired caller (fun e => inl (connectError e)) queryId tr r.

(** Over gRPC, too, a query of somebody else is reported as one that does not
    exist. *)
Lemma rpc_foreign_is_unknown caller queryId offset limit tr :
  (forall r, executes (rpc_GetQueryStatus authRequired (mk_v1_GetQueryStatusRequest queryId) caller) tr r -> rpc_hides caller queryId tr r) /\
  (forall r, executes (rpc_GetQueryStats authRequired (mk_v1_GetQueryStatsRequest queryId) caller) tr r -> rpc_hides caller queryId tr r) /\
  (forall r, executes (rpc_StopQuery me authRequired (mk_v1_StopQueryRequest queryId) caller) tr r -> rpc_hides caller queryId tr r) /\
  (forall r, executes (rpc_WatchQuery authRequired (mk_v1_WatchQueryRequest queryId) caller) tr r -> rpc_hides caller queryId tr r) /\
  (forall r, executes (rpc_DownloadResult authRequired (mk_v1_DownloadResultRequest queryId offset limit) caller) tr r ->
             rpc_hides caller queryId tr r) /\
  connectError (query_not_found queryId) = connectError ErrNotFound.
Proof.
  split_and!; [..|done]; intros r Hex.
  - eapply (guarded_bind _ Err), Hex; [apply GetQueryStatus_guarded|done].
  - eapply (guarded_bind _ Err), Hex; [|done]. intros tr1 r1 H1. by eapply authorized_guards, H1.
  - eapply (guarded_bind _ Some), Hex; [|done]. intros tr1 r1 H1. by eapply authorized_guards, H1.
  - eapply (guarded_bind _ Err), Hex; [|done]. intros tr1 r1 H1. by eapply authorized_guards, H1.
  - eapply (guarded_bind _ Err), Hex; [|done]. intros tr1 r1 H1. by eapply authorized_guards, H1.
Qed.

End Calls.

(** ** Examples *)

Lemma transports_same_policy_witness :
  forallb (Has (mkIdentity "alice" [ScopeWrite])) [ScopeRead; ScopeWrite] =
  Has (mkIdentity "alice" [ScopeWrite]) (ScopeForProcedure "/dbbridge.v1.QueryService/StartQuery").
Proof.
  destruct (transports_same_policy false (mkRoute "POST" "/v1/queries" [ScopeRead; ScopeWrite] DoStartQuery)
    "StartQuery" (mkIdentity "alice" [ScopeWrite])) as [Heq _].
  - by apply (bool_decide_unpack _).
  - reflexivity.
  - exact Heq.
Defined.

(** A timeout of more than 2^63 nanoseconds wraps: about 585 years are accepted as
    less than half a millisecond. *)
Lemma long_timeout_wraps :
  let o := message_options (Some (mk_v1_QueryOptions 18446744073710 "" 0 "" "" "")) in
  Timeout o = 448384 /\
  Timeout o = Timeout (payload_options (mkPayload "pg" "select 1" 18446744073710 "" 0 "" "") "").
Proof. split; reflexivity. Qed.

(** Two connections of one client are two callers over gRPC and one over REST. *)
Lemma rpc_key_has_port :
  KeyOf "" "10.0.0.1:5000" = KeyOf "" "10.0.0.1:5001" /\
  rpc_key "10.0.0.1:5000" <> rpc_key "10.0.0.1:5001".
Proof. split; [reflexivity|discriminate]. Qed.
