(* ===== verification/Connect.v ===== *)
(** * The RPC service

    The generated service of [internal/gen/dbbridge/v1/dbbridgev1connect]: the nine
    procedures, the client's URLs and the handler that picks a procedure by its path;
    the interceptors of [internal/transport/grpcconnect] as the functions they wrap;
    and the loop that forwards the events of a watch. Of the Connect library the
    chain of interceptors is modelled, first one outermost, and that a call's message
    is decoded as the request of its procedure; the tracing interceptor is the
    library's and a parameter. *)

From S2P Require Import Prelude Domain Utf8 SqlGuard Authn Lifecycle Config MetaStore Prog ManagerState.
From S2P Require Import Manager World Submission Service RateLimit Rest Messages Grpc.
Import Config.

Open Scope dbb_scope.

(** ** Procedures *)

Inductive method :=
| MStartQuery | MGetQueryStatus | MStopQuery | MGetQueryStats | MDownloadResult
| MListDatabases | MReloadConfig | MCanIBeStopped | MWatchQuery.

#[export] Instance method_eq_dec : EqDecision method.
Proof. solve_decision. Defined.

Definition QueryServiceName : string := "dbbridge.v1.QueryService".

Definition method_name (m : method) : string :=
  match m with
  | MStartQuery => "StartQuery"
  | MGetQueryStatus => "GetQueryStatus"
  | MStopQuery => "StopQuery"
  | MGetQueryStats => "GetQueryStats"
  | MDownloadResult => "DownloadResult"
  | MListDatabases => "ListDatabases"
  | MReloadConfig => "ReloadConfig"
  | MCanIBeStopped => "CanIBeStopped"
  | MWatchQuery => "WatchQuery"
  end.

(** The constants [QueryService*Procedure]. *)
Definition Procedure (m : method) : string :=
  match m with
  | MStartQuery => "/dbbridge.v1.QueryService/StartQuery"
  | MGetQueryStatus => "/dbbridge.v1.QueryService/GetQueryStatus"
  | MStopQuery => "/dbbridge.v1.QueryService/StopQuery"
  | MGetQueryStats => "/dbbridge.v1.QueryService/GetQueryStats"
  | MDownloadResult => "/dbbridge.v1.QueryService/DownloadResult"
  | MListDatabases => "/dbbridge.v1.QueryService/ListDatabases"
  | MReloadConfig => "/dbbridge.v1.QueryService/ReloadConfig"
  | MCanIBeStopped => "/dbbridge.v1.QueryService/CanIBeStopped"
  | MWatchQuery => "/dbbridge.v1.QueryService/WatchQuery"
  end.

(** Whether a procedure answers with one message or with a stream of them. *)
Inductive stream_type := Unary | ServerStream.

#[export] Instance stream_type_eq_dec : EqDecision stream_type.
Proof. solve_decision. Defined.

(** How the client calls a procedure, and how the handler is built. *)
Definition client_type (m : method) : stream_type :=
  match m with
  | MStartQuery | MGetQueryStatus | MStopQuery | MGetQueryStats => Unary
  | MDownloadResult => ServerStream
  | MListDatabases | MReloadConfig | MCanIBeStopped => Unary
  | MWatchQuery => ServerStream
  end.

Definition handler_type (m : method) : stream_type :=
  match m with
  | MStartQuery | MGetQueryStatus | MStopQuery | MGetQueryStats => Unary
  | MDownloadResult => ServerStream
  | MListDatabases | MReloadConfig | MCanIBeStopped => Unary
  | MWatchQuery => ServerStream
  end.

(** [strings.TrimRight(s, "/")]. *)
Fixpoint trim_right_slash (s : string) : string :=
  match s with
  | EmptyString => EmptyString
  | String c s =>
      match trim_right_slash s with
      | EmptyString => if bool_decide (c = slash) then EmptyString else String c EmptyString
      | t => String c t
      end
  end.

(** The URL a client of the service calls a procedure at. *)
Definition NewQueryServiceClient (baseURL : string) (m : method) : string :=
  trim_right_slash baseURL +:+ Procedure m.

(** The path the handler is mounted on, and the switch over the path of a request;
    [None] is [http.NotFound]. *)
Definition mount_path : string := "/dbbridge.v1.QueryService/".

Definition NewQueryServiceHandler (path : string) : option method :=
  if bool_decide (path = Procedure MStartQuery) then Some MStartQuery
  else if bool_decide (path = Procedure MGetQueryStatus) then Some MGetQueryStatus
  else if bool_decide (path = Procedure MStopQuery) then Some MStopQuery
  else if bool_decide (path = Procedure MGetQueryStats) then Some MGetQueryStats
  else if bool_decide (path = Procedure MDownloadResult) then Some MDownloadResult
  else if bool_decide (path = Procedure MListDatabases) then Some MListDatabases
  else if bool_decide (path = Procedure MReloadConfig) then Some MReloadConfig
  else if bool_decide (path = Procedure MCanIBeStopped) then Some MCanIBeStopped
  else if bool_decide (path = Procedure MWatchQuery) then Some MWatchQuery
  else None.

(** [http.ServeMux] with the one pattern that ends in a slash, which matches the
    paths it is a prefix of. *)
Definition mux (path : string) : option method :=
  if String.prefix mount_path path then NewQueryServiceHandler path else None.

(** ** Handlers *)

(** The message of a call and what its handler ends with; of a streaming procedure
    what it streams from. *)
Definition request (m : method) : Type :=
  match m with
  | MStartQuery => v1_StartQueryRequest
  | MGetQueryStatus => v1_GetQueryStatusRequest
  | MStopQuery => v1_StopQueryRequest
  | MGetQueryStats => v1_GetQueryStatsRequest
  | MDownloadResult => v1_DownloadResultRequest
  | MListDatabases => v1_ListDatabasesRequest
  | MReloadConfig => v1_ReloadConfigRequest
  | MCanIBeStopped => v1_CanIBeStoppedRequest
  | MWatchQuery => v1_WatchQueryRequest
  end.

Definition reply (m : method) : Type :=
  match m with
  | MStartQuery => v1_StartQueryResponse
  | MGetQueryStatus => v1_GetQueryStatusResponse
  | MStopQuery => v1_StopQueryResponse
  | MGetQueryStats => v1_GetQueryStatsResponse
  | MDownloadResult => nat * option (Z * Z)
  | MListDatabases => v1_ListDatabasesResponse
  | MReloadConfig => v1_ReloadConfigResponse
  | MCanIBeStopped => v1_CanIBeStoppedResponse
  | MWatchQuery => chan_id
  end.

(** The interface [QueryServiceHandler]. *)
Definition QueryServiceHandler : Type := forall m, request m -> option Identity -> M (rpc_error + reply m).

Definition UnimplementedQueryServiceHandler : QueryServiceHandler := fun m _ _ =>
  Ret (inl (mkRpcError CodeUnimplemented ("dbbridge.v1.QueryService." +:+ method_name m +:+ " is not implemented"))).

(** The implementation of [internal/transport/grpcconnect]. *)
Definition QueryHandler `{Unicode} (me : captured) (authRequired : bool) : QueryServiceHandler := fun m =>
  match m return request m -> option Identity -> M (rpc_error + reply m) with
  | MStartQuery => rpc_StartQuery me
  | MGetQueryStatus => rpc_GetQueryStatus authRequired
  | MStopQuery => rpc_StopQuery me authRequired
  | MGetQueryStats => rpc_GetQueryStats authRequired
  | MDownloadResult => rpc_DownloadResult authRequired
  | MListDatabases => fun msg _ => rpc_ListDatabases msg
  | MReloadConfig => fun msg _ => do r <- rpc_ReloadConfig msg; Ret (inr r)
  | MCanIBeStopped => fun msg _ => do r <- rpc_CanIBeStopped me msg; Ret (inr r)
  | MWatchQuery => rpc_WatchQuery authRequired
  end.

(** ** Interceptors *)

(** What an interceptor sees of a call: its specification, who made it and its
    header. *)
Record rpc_call := mkCall {
  spec_Procedure : string;
  spec_IsClient : bool;
  peer_Addr : string;
  hdr_Authorization : string
}.

(** The context carries the identity of the caller. A unary call and a streaming one
    differ in what the wrapped function returns. *)
Definition rpc_func (R : Type) : Type := option Identity -> rpc_call -> M (rpc_error + R).

(** The interface [connect.Interceptor]. *)
Record Interceptor := mkInterceptor {
  WrapUnary {R} : rpc_func R -> rpc_func R;
  WrapStreamingClient {R} : rpc_func R -> rpc_func R;
  WrapStreamingHandler {R} : rpc_func R -> rpc_func R
}.

Section RateLimited.
(** The answer of the limiter for a key ([RateLimit.Allow]). *)
Context (limiter_Allow : string -> bool).

Definition rate_allow (peer : string) : option rpc_error :=
  if limiter_Allow ("addr:" +:+ peer) then None
  else Some (mkRpcError CodeResourceExhausted "rate limit exceeded").

Definition rate_WrapUnary {R} (next : rpc_func R) : rpc_func R := fun ctx req =>
  if spec_IsClient req then next ctx req
  else match rate_allow (peer_Addr req) with
       | Some err => Ret (inl err)
       | None => next ctx req
       end.

Definition rate_WrapStreamingClient {R} (next : rpc_func R) : rpc_func R := next.

Definition rate_WrapStreamingHandler {R} (next : rpc_func R) : rpc_func R := fun ctx conn =>
  match rate_allow (peer_Addr conn) with
  | Some err => Ret (inl err)
  | None => next ctx conn
  end.

Definition RateLimitInterceptor : Interceptor :=
  mkInterceptor (@rate_WrapUnary) (@rate_WrapStreamingClient) (@rate_WrapStreamingHandler).
End RateLimited.

Section Authenticated.
Context (a : Authenticator).

Definition auth_WrapUnary {R} (next : rpc_func R) : rpc_func R := fun ctx req =>
  if spec_IsClient req then next ctx req
  else match check a (hdr_Authorization req) (spec_Procedure req) with
       | inl err => Ret (inl err)
       | inr id => next (Some id) req
       end.

Definition auth_WrapStreamingClient {R} (next : rpc_func R) : rpc_func R := next.

Definition auth_WrapStreamingHandler {R} (next : rpc_func R) : rpc_func R := fun ctx conn =>
  match check a (hdr_Authorization conn) (spec_Procedure conn) with
  | inl err => Ret (inl err)
  | inr id => next (Some id) conn
  end.

Definition NewAuthInterceptor : Interceptor :=
  mkInterceptor (@auth_WrapUnary) (@auth_WrapStreamingClient) (@auth_WrapStreamingHandler).
End Authenticated.

(** [connect.WithInterceptors]: the first one is outermost. *)
Definition wrap_all {R} (t : stream_type) (ics : list Interceptor) (f : rpc_func R) : rpc_func R :=
  fold_right (fun i next => match t with Unary => WrapUnary i next | ServerStream => WrapStreamingHandler i next end) f ics.

(** The interceptors of the server, in the order [newGRPCServer] puts them. *)
Definition server_interceptors (tracing : option Interceptor) (limiter : option (string -> bool))
  (authenticator : option Authenticator) : list Interceptor :=
  option_list tracing ++ option_list (RateLimitInterceptor <$> limiter) ++ option_list (NewAuthInterceptor <$> authenticator).

(** A request to the server. Its message is decoded as the request of the procedure
    its path names; what arrives at a server is not a client's call. *)
Inductive outcome := NotFound | Replied (m : method) (r : rpc_error + reply m).

Definition serve_rpc (svc : QueryServiceHandler) (ics : list Interceptor) (path peer authorization : string)
  (msg : forall m, request m) : M outcome :=
  match mux path with
  | None => Ret NotFound
  | Some m =>
      do r <- wrap_all (handler_type m) ics (fun ctx _ => svc m (msg m) ctx) None
                (mkCall (Procedure m) false peer authorization);
      Ret (Replied m r)
  end.

(** ** Watching *)

(** What the [select] of the loop saw. *)
Inductive woken := CtxDone | Event (ev : QueryEvent) | ChannelClosed.

(** The loop of [WatchQuery], for what it saw one after another: the messages sent and
    what it returned, [None] while it waits. [send] is the outcome of sending. *)
Fixpoint watch_loop (seen : list woken) (send : v1_WatchQueryResponse -> option error)
  : list v1_WatchQueryResponse * option (option error) :=
  match seen with
  | [] => ([], None)
  | CtxDone :: _ | ChannelClosed :: _ => ([], Some None)
  | Event ev :: seen =>
      match send (watch_response ev) with
      | Some e => ([watch_response ev], Some (Some e))
      | None => let '(sent, ret) := watch_loop seen send in (watch_response ev :: sent, ret)
      end
  end.

(** ** The switch *)

Definition methods : list method :=
  [MStartQuery; MGetQueryStatus; MStopQuery; MGetQueryStats; MDownloadResult; MListDatabases; MReloadConfig;
   MCanIBeStopped; MWatchQuery].

Lemma methods_all m : m ∈ methods.
Proof. destruct m; unfold methods; set_solver. Qed.

Lemma handler_of_procedure m : NewQueryServiceHandler (Procedure m) = Some m.
Proof. by destruct m. Qed.

Lemma mux_procedure path m : mux path = Some m <-> path = Procedure m.
Proof.
  split; [|intros ->; by destruct m].
  unfold mux, NewQueryServiceHandler. destruct (String.prefix _ _); [|done].
  repeat (case_bool_decide; [by intros [= <-]|]). done.
Qed.

Lemma Procedure_name m : Procedure m = mount_path +:+ method_name m /\ procedure_name (Procedure m) = method_name m.
Proof. by destruct m. Qed.

(** The tables of the generated messages give every method the messages named after it. *)
Lemma method_messages :
  input_types = map (fun m => Some ("dbbridge.v1." +:+ method_name m +:+ "Request")) methods /\
  output_types = map (fun m => Some ("dbbridge.v1." +:+ method_name m +:+ "Response")) methods.
Proof. split; vm_compute; reflexivity. Qed.

(** The slashes at the end of a string are dropped, and nothing else is. *)
Fixpoint slashes (n : nat) : string := match n with O => "" | S n => String slash (slashes n) end.

Lemma trim_right_slash_spec s :
  (exists n, s = trim_right_slash s +:+ slashes n) /\ forall t, trim_right_slash s <> t +:+ String slash "".
Proof.
  induction s as [|c s [(n & Hn) Ht]]; [split; [by exists 0%nat|]; intros []; by rewrite ?string_append_cons|].
  cbn [trim_right_slash]. destruct (trim_right_slash s) as [|d u] eqn:E.
  - case_bool_decide as Hc; subst.
    + split; [by exists (S n)|]. intros []; by rewrite ?string_append_cons.
    + split; [by exists n|]. intros [|e v]; [by intros [= ->]|]. rewrite string_append_cons. intros [= -> Hv].
      by destruct v.
  - split; [exists n; rewrite string_append_cons; by f_equal|].
    intros [|e v]; [done|]. rewrite string_append_cons. intros [= _ Hv]. by apply (Ht v).
Qed.

(** A client reaches the procedure it calls: whatever base URL it was made with, its
    URL is that base without the slashes at its end followed by the path of the
    procedure; the server answers that path with the handler of this very procedure,
    built for the same kind of answer, and no other path with it; and the procedure
    is one the table of scopes lists. *)
Theorem client_reaches_handler baseURL m :
  (exists base n, baseURL = base +:+ slashes n /\ (forall t, base <> t +:+ String slash "") /\
     NewQueryServiceClient baseURL m = base +:+ Procedure m) /\
  (forall path, mux path = Some m <-> path = Procedure m) /\
  client_type m = handler_type m /\ is_Some (procedureScopes !! procedure_name (Procedure m)).
Proof.
  split_and!.
  - destruct (trim_right_slash_spec baseURL) as [(n & Hn) Ht]. by exists (trim_right_slash baseURL), n.
  - intros path. apply mux_procedure.
  - by destruct m.
  - destruct (Procedure_name m) as [_ ->]. by destruct m; eexists; vm_compute.
Qed.

(** ** Calls are gated *)

(** What the tracing library documents: its interceptor observes a call and passes it
    on as it is. *)
Definition observes (i : Interceptor) : Prop :=
  forall R (f : rpc_func R) ctx req tr r,
    (executes (WrapUnary i f ctx req) tr r -> executes (f ctx req) tr r) /\
    (executes (WrapStreamingHandler i f ctx req) tr r -> executes (f ctx req) tr r).

(** A call that is refused has no effect. *)
Definition refused {R} (code : Code) (text : string) (r : rpc_error + R) (tr : trace) : Prop :=
  r = inl (mkRpcError code text) /\ tr = [].

Lemma limited_gated {R} t allow a (f : rpc_func R) ctx peer authorization procedure tr r :
  executes (wrap_all t (server_interceptors None (Some allow) (Some a)) f ctx
              (mkCall procedure false peer authorization)) tr r ->
  if negb (allow (rpc_key peer)) then refused CodeResourceExhausted "rate limit exceeded" r tr
  else
    match Authenticate a (BearerToken authorization) with
    | Err _ => refused CodeUnauthenticated (Error ErrUnauthenticated) r tr
    | Ok id =>
        if Has id (ScopeForProcedure procedure)
        then executes (f (Some id) (mkCall procedure false peer authorization)) tr r
        else refused CodePermissionDenied (Error ErrForbidden) r tr
    end.
Proof.
  unfold rpc_key. destruct t; cbn; unfold rate_WrapUnary, rate_WrapStreamingHandler, auth_WrapUnary,
    auth_WrapStreamingHandler, rate_allow, check; cbn;
    (destruct (allow _); [|by intros [-> ->]]); cbn;
    (destruct (Authenticate a _) as [id|e]; [|by intros [-> ->]]);
    destruct (Has id _); cbn; (done || by intros [-> ->]).
Qed.

(** C22. The RPC server as it is assembled, with a limiter and an authenticator, for unary
    and streaming procedures alike: a path that is none of the nine procedures is not
    found; a call over its limit, without a valid credential or without the scope of
    its procedure is refused with the code for it and has no effect; and every other
    call runs the handler of the procedure its path names, with its own message, as
    the caller whose credential it carries. *)
Theorem rpc_gated svc tracing allow a path peer authorization msg tr out :
  (forall i, tracing = Some i -> observes i) ->
  executes (serve_rpc svc (server_interceptors tracing (Some allow) (Some a)) path peer authorization msg) tr out ->
  match mux path with
  | None => out = NotFound /\ tr = []
  | Some m =>
      exists r, out = Replied m r /\
      if negb (allow (rpc_key peer)) then refused CodeResourceExhausted "rate limit exceeded" r tr
      else
        match Authenticate a (BearerToken authorization) with
        | Err _ => refused CodeUnauthenticated (Error ErrUnauthenticated) r tr
        | Ok id =>
            if Has id (default ScopeAdmin (procedureScopes !! method_name m)) then executes (svc m (msg m) (Some id)) tr r
            else refused CodePermissionDenied (Error ErrForbidden) r tr
        end
  end.
Proof.
  intros Hobs. unfold serve_rpc. destruct (mux path) as [m|]; [|intros [-> ->]; done].
  intros (tr1 & tr2 & r & -> & Hex & [-> ->])%executes_bind. rewrite app_nil_r. exists r. split; [done|].
  assert (executes (wrap_all (handler_type m) (server_interceptors None (Some allow) (Some a))
            (fun ctx _ => svc m (msg m) ctx) None (mkCall (Procedure m) false peer authorization)) tr1 r) as Hex'.
  { destruct tracing as [i|]; [|done]. specialize (Hobs i eq_refl).
    destruct (handler_type m); [eapply (proj1 (Hobs _ _ _ _ _ _))|eapply (proj2 (Hobs _ _ _ _ _ _))]; exact Hex. }
  apply limited_gated in Hex'. unfold ScopeForProcedure in Hex'. destruct (Procedure_name m) as [_ Hn]. by rewrite Hn in Hex'.
Qed.

(** ** Watching forwards the events *)

(** A watch over RPC sends the message of every event it received, in order and with
    none left out, until its caller is gone, the channel is closed or a message
    cannot be sent; that failure is what it returns, and the failed message is the
    last one. *)
Theorem watch_forwards seen send sent ret :
  watch_loop seen send = (sent, ret) ->
  exists evs rest, seen = map Event evs ++ rest /\ sent = map watch_response evs /\
    match ret with
    | None => rest = [] /\ Forall (fun m => send m = None) sent
    | Some None => (exists w rest', rest = w :: rest' /\ (w = CtxDone \/ w = ChannelClosed)) /\
                   Forall (fun m => send m = None) sent
    | Some (Some e) => exists before m, sent = before ++ [m] /\ send m = Some e /\ Forall (fun m => send m = None) before
    end.
Proof.
  revert sent ret. induction seen as [|w seen IH]; intros sent ret; cbn [watch_loop].
  { intros [= <- <-]. exists [], []. split_and!; [done..|constructor]. }
  destruct w as [|ev|]; try (intros [= <- <-]; exists []; eexists; split_and!; [done..|eauto|constructor]).
  destruct (send (watch_response ev)) as [e|] eqn:Hs.
  - intros [= <- <-]. exists [ev], seen. split_and!; [done..|]. by exists [], (watch_response ev).
  - destruct (watch_loop seen send) as [sent' ret'] eqn:Hw. intros [= <- <-].
    destruct (IH _ _ eq_refl) as (evs & rest & -> & -> & Hr). exists (ev :: evs), rest. split_and!; [done..|].
    destruct ret' as [[e|]|]; cbn [map].
    + destruct Hr as (before & m & -> & ? & ?). exists (watch_response ev :: before), m. split_and!; [done..|by constructor].
    + destruct Hr as [? ?]. split; [done|by constructor].
    + destruct Hr as [? ?]. split; [done|by constructor].
Qed.

(** ** Examples *)

Definition passing : Interceptor := mkInterceptor (fun _ f => f) (fun _ f => f) (fun _ f => f).

Lemma passing_observes : observes passing.
Proof. by split. Qed.

Definition demo_msg (m : method) : request m :=
  match m with
  | MStartQuery => mk_v1_StartQueryRequest "pg" "select 1" None
  | MGetQueryStatus => mk_v1_GetQueryStatusRequest "q"
  | MStopQuery => mk_v1_StopQueryRequest "q"
  | MGetQueryStats => mk_v1_GetQueryStatsRequest "q"
  | MDownloadResult => mk_v1_DownloadResultRequest "q" 0 0
  | MListDatabases => mk_v1_ListDatabasesRequest
  | MReloadConfig => mk_v1_ReloadConfigRequest
  | MCanIBeStopped => mk_v1_CanIBeStoppedRequest
  | MWatchQuery => mk_v1_WatchQueryRequest "q"
  end.

(** A reader may not stop a query. *)
Definition demo_out : outcome := Replied MStopQuery (inl (mkRpcError CodePermissionDenied "insufficient scope")).

Lemma demo_refused :
  executes (serve_rpc UnimplementedQueryServiceHandler
      (server_interceptors (Some passing) (Some (fun _ => true)) (Some demo_auth))
      "/dbbridge.v1.QueryService/StopQuery" "10.0.0.1:5000" "Bearer t0ken" demo_msg) [] demo_out.
Proof. by vm_compute. Qed.

Lemma rpc_gated_witness :
  exists r, demo_out = Replied MStopQuery r /\ refused CodePermissionDenied (Error ErrForbidden) r [].
Proof.
  exact (rpc_gated UnimplementedQueryServiceHandler (Some passing) (fun _ => true) demo_auth _ _ _ demo_msg _ _
    ltac:(intros i [= <-]; exact passing_observes) demo_refused).
Defined.

Definition demo_ev (s : QueryState) : QueryEvent := mkEvent "q" s zero_stats None.

Lemma watch_forwards_witness :
  exists evs rest, [Event (demo_ev StateRunning); Event (demo_ev StateSucceeded); ChannelClosed] = map Event evs ++ rest /\
    map watch_response [demo_ev StateRunning; demo_ev StateSucceeded] = map watch_response evs.
Proof.
  destruct (watch_forwards [Event (demo_ev StateRunning); Event (demo_ev StateSucceeded); ChannelClosed] (fun _ => None) _ _ eq_refl)
    as (evs & rest & Hs & Hm & _).
  exists evs, rest. exact (conj Hs Hm).
Defined.
