(* ===== verification/Process.v ===== *)
(** * The process

    [cmd/dbbridge]: wiring the components from the configuration and releasing them
    ([app.go]), serving, and what signals do ([shutdown.go], [main.go]). Opening and
    closing a component, listening, accepting connections, the clock and the number of
    queries in flight are the environment ([paction]). The goroutines that serve the
    listeners run beside [main] ([process_step]): one that fails ends the process. *)

From Stdlib Require Import SpecFloat Eqdep_dec.
From S2P Require Import Prelude Domain Authn Lifecycle Config Prog ResultStore RateLimit RestServer Connect.

Import Config.

Open Scope Z_scope.
Open Scope dbb_scope.

(** The components that are held open and released again. *)
Inductive component := CTelemetry | CMetaStore | CFS | CClickHouse | CManager.

#[export] Instance component_eq_dec : EqDecision component.
Proof. solve_decision. Defined.

Inductive paction :=
| PConfig (path : string)
| POpen (c : component)
| PMetaStore (redis : bool)
| PS3 (bucket : string)
| PTLS (certFile keyFile : string)
| PTracing
| PClose (c : component)
| PListen (name addr : string)
| PGoServe (name : string) (tls : bool)
| PServe (name : string) (tls : bool)
| PShutdown (name : string)
| PReload
| PDrain
| PCountInFlight
| PNow
| PSleep (d : Z).

#[export] Instance paction_eq_dec : EqDecision paction.
Proof. solve_decision. Defined.

(** What [http.Server.Serve] and [ServeTLS] return with: the server was shut down, or
    another error. *)
Inductive serve_error := ErrServerClosed | ServeError (e : error).

Definition panswer (a : paction) : Type :=
  match a with
  | PConfig _ => result Config.Config
  | POpen _ | PS3 _ | PTLS _ _ | PTracing | PClose _ | PShutdown _ | PReload => option error
  | PMetaStore _ | PGoServe _ _ | PDrain | PSleep _ => unit
  | PServe _ _ => option serve_error
  | PListen _ _ => result string
  | PCountInFlight => Z
  | PNow => time
  end.

Abbreviation Pr A := (prog panswer A).

(** ** The application *)

Section App.
Context {B : Type}.

Inductive interceptor := ITracing | IRateLimit (l : Limiter (B := B)) | IAuth (au : Authenticator).

Inductive protocol := HTTP1 | HTTP2 | UnencryptedHTTP2.

(** What a server hands its requests to: a router of the REST server with the options
    it was built with, or the RPC handler with its interceptors and the limit of a
    message. *)
Inductive mounted :=
| MRouter (ds : list RestServer.decl) (o : RestServer.Options)
| MConnect (ics : list interceptor) (readMaxBytes : Z).

(** [http.Server]; without protocols of its own a server speaks the library's. *)
Record http := mkHTTP {
  srv_Addr : string;
  srv_Handler : mounted;
  srv_ReadHeaderTimeout : Z;
  srv_IdleTimeout : Z;
  srv_MaxHeaderBytes : Z;
  srv_Protocols : option (list protocol)
}.

(** [parts] are the component pointers that are not nil. *)
Record app := mkApp {
  cfg : Config.Config;
  parts : list component;
  stores : gmap string store;
  authenticator : option Authenticator;
  authRequired : bool;
  limiter : option (Limiter (B := B));
  restHTTP : option http;
  grpcHTTP : option http;
  adminHTTP : option http;
  tlsCerts : bool
}.

Definition add_part (c : component) (a : app) : app :=
  mkApp (cfg a) (parts a ++ [c]) (stores a) (authenticator a) (authRequired a) (limiter a)
    (restHTTP a) (grpcHTTP a) (adminHTTP a) (tlsCerts a).
Definition set_stores (s : gmap string store) (a : app) : app :=
  mkApp (cfg a) (parts a) s (authenticator a) (authRequired a) (limiter a)
    (restHTTP a) (grpcHTTP a) (adminHTTP a) (tlsCerts a).
Definition set_auth (au : option Authenticator) (required : bool) (a : app) : app :=
  mkApp (cfg a) (parts a) (stores a) au required (limiter a)
    (restHTTP a) (grpcHTTP a) (adminHTTP a) (tlsCerts a).
Definition set_limiter (l : option (Limiter (B := B))) (a : app) : app :=
  mkApp (cfg a) (parts a) (stores a) (authenticator a) (authRequired a) l
    (restHTTP a) (grpcHTTP a) (adminHTTP a) (tlsCerts a).
Definition set_servers (r g d : option http) (a : app) : app :=
  mkApp (cfg a) (parts a) (stores a) (authenticator a) (authRequired a) (limiter a) r g d (tlsCerts a).
Definition set_tls (a : app) : app :=
  mkApp (cfg a) (parts a) (stores a) (authenticator a) (authRequired a) (limiter a)
    (restHTTP a) (grpcHTTP a) (adminHTTP a) true.

(** *** Closing *)

(** What uses a dependency goes before the dependency, telemetry last. *)
Definition closing_order : list component := [CManager; CClickHouse; CFS; CMetaStore; CTelemetry].

Definition closeSteps (a : app) : list component := filter (fun c => c ∈ parts a) closing_order.

(** A step that fails is logged, and the others still run. *)
Fixpoint close_all (cs : list component) : Pr unit :=
  match cs with
  | [] => Ret tt
  | c :: cs => do _ <- call (PClose c); close_all cs
  end.

Definition Close (a : app) : Pr unit := close_all (closeSteps a).

(** *** Building *)

(** How a step of the start ends: it may fail, and registering a store twice would be
    a panic. *)
Inductive stepped := Stepped (a : app) | StepErr (e : error) (a : app) | StepPanic.

Definition initTelemetry (a : app) : Pr stepped :=
  do err <- call (POpen CTelemetry);
  match err with
  | Some _ => Ret (Stepped a)
  | None => Ret (Stepped (add_part CTelemetry a))
  end.

Definition buildMetaStore (a : app) : Pr stepped :=
  call (PMetaStore (bool_decide (MetaStoreKind (Instance (cfg a)) = "redis"))) ;;
  Ret (Stepped (add_part CMetaStore a)).

Definition register (name : string) (checker : option (string -> bool)) (a : app) : stepped :=
  match Register name (Some (BareStore name checker)) (stores a) with
  | Some s => Stepped (set_stores s a)
  | None => StepPanic
  end.

(** The result of a step given to the next. *)
Definition andthen (r : stepped) (f : app -> Pr stepped) : Pr stepped :=
  match r with Stepped a => f a | _ => Ret r end.

Definition register_fs (a : app) : Pr stepped :=
  if negb (bool_decide (fs_Root (st_FS (Storage (cfg a))) = "")) ||
     bool_decide (DefaultStorage (Instance (cfg a)) = "fs") then
    do err <- call (POpen CFS);
    match err with
    | Some e => Ret (StepErr (WrapError "failed to initialize FS storage" e) a)
    | None => Ret (register "fs" None (add_part CFS a))
    end
  else Ret (Stepped a).

Definition register_s3 (a : app) : Pr stepped :=
  let bucket := s3_Bucket (st_S3 (Storage (cfg a))) in
  if negb (bool_decide (bucket = "")) then
    do err <- call (PS3 bucket);
    match err with
    | Some e => Ret (StepErr (WrapError "failed to initialize S3 storage" e) a)
    | None => Ret (register "s3" None a)
    end
  else Ret (Stepped a).

Definition register_clickhouse (a : app) : Pr stepped :=
  if negb (bool_decide (ch_DSN (st_ClickHouse (Storage (cfg a))) = "")) then
    do err <- call (POpen CClickHouse);
    match err with
    | Some e => Ret (StepErr (WrapError "failed to initialize ClickHouse storage" e) a)
    | None => Ret (register "clickhouse" (Some (fun f => bool_decide (f = "jsonl"))) (add_part CClickHouse a))
    end
  else Ret (Stepped a).

Definition registerStorage (a : app) : Pr stepped :=
  do r <- register_fs a;
  do r <- andthen r register_s3;
  do r <- andthen r register_clickhouse;
  match r with
  | Stepped a =>
      match GetStore (DefaultStorage (Instance (cfg a))) (stores a) with
      | Err e => Ret (StepErr (WrapError "default storage backend is not available" e) a)
      | Ok _ => Ret (Stepped a)
      end
  | _ => Ret r
  end.

Definition buildManagers (a : app) : Pr stepped :=
  do err <- call (POpen CManager);
  match err with
  | Some e => Ret (StepErr (WrapError "failed to initialize QueryManager" e) a)
  | None => Ret (Stepped (add_part CManager a))
  end.

Section Build.
Context (getenv : string -> string) (auth_failure : Authn.auth_error -> error).

Definition not_nil {A} (o : option A) : bool := match o with Some _ => true | None => false end.

(** A slice that is nil ranges like an empty one. *)
Definition elems {A} (l : slice A) : list A := match l with Some l => l | None => [] end.

Definition token_spec (t : AuthTokenConfig) : Authn.TokenSpec :=
  Authn.mkTokenSpec (at_Subject t) (at_Value t) (at_ValueEnv t) (elems (at_Scopes t)).

Definition buildAuthenticator (a : app) : Pr stepped :=
  match Auth (cfg a) with
  | Some auth =>
      match Authn.New getenv (map token_spec (elems (auth_Tokens auth))) with
      | inl e => Ret (StepErr (WrapError "failed to initialize authentication" (auth_failure e)) a)
      | inr au => Ret (Stepped (set_auth (Some au) true a))
      end
  | None => Ret (Stepped (set_auth (authenticator a) (not_nil (authenticator a)) a))
  end.

Definition buildRateLimiter (a : app) : Pr stepped :=
  let r := RateLimit (Server (cfg a)) in
  Ret (Stepped (set_limiter (RateLimit.New (RequestsPerSecond r) (Burst r)) a)).

(** The interceptors in the order they run. *)
Definition interceptors (tracing : option error) (a : app) : list interceptor :=
  (match tracing with Some _ => [] | None => [ITracing] end) ++
  option_list (IRateLimit <$> limiter a) ++ option_list (IAuth <$> authenticator a).

(** A server with the timeouts of the configuration and headers of a mebibyte. *)
Definition server (a : app) (addr : string) (h : mounted) (ps : option (list protocol)) : http :=
  mkHTTP addr h (ReadHeaderTimeout (Server (cfg a))) (IdleTimeout (Server (cfg a))) (Z.shiftl 1 20) ps.

Definition newGRPCServer (a : app) : Pr http :=
  do tracing <- call PTracing;
  Ret (server a (GRPCAddr (Server (cfg a)))
         (MConnect (interceptors tracing a) (MaxRequestBytes (Server (cfg a))))
         (Some (if TLS_Enabled (TLS (Server (cfg a))) then [HTTP1; HTTP2] else [HTTP1; UnencryptedHTTP2]))).

(** The [rest.Options] the server is built with. *)
Definition rest_Options (a : app) : RestServer.Options :=
  let c := Server (cfg a) in
  RestServer.mkOptions (MaxRequestBytes c) (RequestTimeout c) (elems (WSAllowedOrigins c))
    (TrustedProxyCount c) (authenticator a) (negb (bool_decide (AdminAddr c = ""))) (not_nil (limiter a)).

(** The admin server exists when the REST server has a router for it. *)
Definition buildServers (a : app) : Pr stepped :=
  let rest := RestServer.NewServer (rest_Options a) in
  let mount ds := MRouter ds (RestServer.opts rest) in
  do grpc <- newGRPCServer a;
  Ret (Stepped (set_servers
    (Some (server a (RESTAddr (Server (cfg a))) (mount (RestServer.router rest)) None))
    (Some grpc)
    ((fun ds => server a (AdminAddr (Server (cfg a))) (mount ds) None) <$> RestServer.adminRouter rest) a)).

Definition loadTLSCerts (a : app) : Pr stepped :=
  let t := TLS (Server (cfg a)) in
  if negb (TLS_Enabled t) then Ret (Stepped a)
  else
    do err <- call (PTLS (CertFile t) (KeyFile t));
    match err with
    | Some e => Ret (StepErr (WrapError "failed to load the TLS key pair" e) a)
    | None => Ret (Stepped (set_tls a))
    end.

(** The steps in order; a failed start is released by the same [Close]. *)
Fixpoint run_steps (steps : list (app -> Pr stepped)) (a : app) : Pr stepped :=
  match steps with
  | [] => Ret (Stepped a)
  | step :: steps =>
      do r <- step a;
      match r with
      | Stepped a => run_steps steps a
      | StepErr e a => Close a ;; Ret (StepErr e a)
      | StepPanic => Ret StepPanic
      end
  end.

Definition new_app (c : Config.Config) : app := mkApp c [] ∅ None false None None None None false.

Definition start_steps : list (app -> Pr stepped) :=
  [initTelemetry; buildMetaStore; registerStorage; buildManagers; buildAuthenticator; buildRateLimiter;
   buildServers; loadTLSCerts].

(** [None] is the panic. *)
Definition newApp (configPath : string) : Pr (option (result app)) :=
  do loaded <- call (PConfig configPath);
  match loaded with
  | Err e => Ret (Some (Err (WrapError "failed to initialize config manager" e)))
  | Ok c =>
      do r <- run_steps start_steps (new_app c);
      match r with
      | Stepped a => Ret (Some (Ok a))
      | StepErr e _ => Ret (Some (Err e))
      | StepPanic => Ret None
      end
  end.

(** ** Serving *)

Definition set_addr (addr : string) (s : http) : http :=
  mkHTTP addr (srv_Handler s) (srv_ReadHeaderTimeout s) (srv_IdleTimeout s) (srv_MaxHeaderBytes s) (srv_Protocols s).

Definition serveOne (name : string) (srv : http) (a : app) : Pr (result http) :=
  do ln <- call (PListen name (srv_Addr srv));
  match ln with
  | Err e => Ret (Err (WrapError ("failed to bind the " +:+ name +:+ " to " +:+ srv_Addr srv) e))
  | Ok addr => call (PGoServe name (tlsCerts a)) ;; Ret (Ok (set_addr addr srv))
  end.

(** The goroutine [serveOne] starts; [Some] is its exit of the process by
    [log.Fatalf]. *)
Definition serving (name : string) (tls : bool) : Pr (option Z) :=
  do err <- call (PServe name tls);
  match err with
  | Some (ServeError _) => Ret (Some 1)
  | Some ErrServerClosed | None => Ret None
  end.

Definition listeners (a : app) : list (string * option http) :=
  [("REST API", restHTTP a); ("gRPC / Connect API", grpcHTTP a); ("metrics / admin API", adminHTTP a)].

Fixpoint serve_all (ls : list (string * option http)) (a : app) : Pr (option error) :=
  match ls with
  | [] => Ret None
  | (_, None) :: ls => serve_all ls a
  | (name, Some srv) :: ls =>
      do r <- serveOne name srv a;
      match r with
      | Err e => Ret (Some e)
      | Ok _ => serve_all ls a
      end
  end.

Definition serve (a : app) : Pr (option error) := serve_all (listeners a) a.

(** ** Stopping *)

Definition drainTimeout : Z := 30 * Second.

(** [None] is a loop that has not ended after [fuel] rounds; the flag says whether no
    query was left. *)
Fixpoint drain_loop (fuel : nat) (deadline : time) (lm : Lifecycle.Manager)
  : Pr (option (bool * Lifecycle.Manager)) :=
  match fuel with
  | O => Ret None
  | S fuel =>
      do inFlight <- call PCountInFlight;
      let lm := (Lifecycle.Advance inFlight lm).2 in
      if inFlight =? 0 then Ret (Some (true, lm))
      else
        do now <- call PNow;
        if time_after now deadline then Ret (Some (false, lm))
        else call (PSleep Second) ;; drain_loop fuel deadline lm
  end.

Definition drain (fuel : nat) (lm : Lifecycle.Manager) : Pr (option (bool * Lifecycle.Manager)) :=
  let lm := Lifecycle.SetState Lifecycle.StateDraining lm in
  call PDrain ;;
  do now <- call PNow;
  drain_loop fuel (time_add now drainTimeout) lm.

Definition stopServers (a : app) : Pr unit :=
  for_each (fun (s : string * option http) (_ : unit) =>
    match s.2 with
    | None => Ret tt
    | Some _ => do _ <- call (PShutdown s.1); Ret tt
    end) [("REST", restHTTP a); ("gRPC", grpcHTTP a); ("admin", adminHTTP a)] tt.

Definition runShutdown (fuel : nat) (lm : Lifecycle.Manager) (a : app) : Pr (option Lifecycle.Manager) :=
  do d <- drain fuel lm;
  match d with
  | None => Ret None
  | Some (_, lm) => stopServers a ;; Ret (Some lm)
  end.

Inductive signal := SIGHUP | SIGINT | SIGTERM.

#[export] Instance signal_eq_dec : EqDecision signal.
Proof. solve_decision. Defined.

(** The signals received from the channel, in order; [None] while none of them ends
    the process. *)
Fixpoint awaitSignals (fuel : nat) (sigs : list signal) (lm : Lifecycle.Manager) (a : app)
  : Pr (option Lifecycle.Manager) :=
  match sigs with
  | [] => Ret None
  | sig :: sigs =>
      if bool_decide (sig = SIGHUP) then do _ <- call PReload; awaitSignals fuel sigs lm a
      else runShutdown fuel lm a
  end.

(** The exit status: [None] while the process runs. *)
Definition main (fuel : nat) (configPath : string) (sigs : list signal) : Pr (option Z) :=
  do r <- newApp configPath;
  match r with
  | None => Ret (Some 2)
  | Some (Err _) => Ret (Some 1)
  | Some (Ok a) =>
      do err <- serve a;
      match err with
      | Some _ => Close a ;; Ret (Some 1)
      | None =>
          do stopped <- awaitSignals fuel sigs Lifecycle.NewManager a;
          match stopped with
          | None => Ret None
          | Some _ => Close a ;; Ret (Some 0)
          end
      end
  end.

(** ** The process *)

(** What [main] still has to do and what it has done, the goroutines of the listeners
    and what they have done. *)
Record process := mkProcess {
  p_main : Pr (option Z);
  p_done : list (event panswer);
  p_listeners : list (Pr (option Z));
  p_served : list (event panswer)
}.

(** A goroutine that has reached an exit ends the process, whatever the others do. *)
Definition exits (s : process) (code : Z) : Prop :=
  p_main s = Ret (Some code) \/ Ret (Some code) ∈ p_listeners s.

Definition spawned (a : paction) : list (Pr (option Z)) :=
  match a with PGoServe name tls => [serving name tls] | _ => [] end.

(** A step of [main] or of a listener, while the process runs. *)
Inductive process_step : process -> process -> Prop :=
| step_main a k x tr ls served :
    (forall code, Ret (Some code) ∉ ls) ->
    process_step (mkProcess (Vis a k) tr ls served)
                 (mkProcess (k x) (tr ++ [existT a x]) (ls ++ spawned a) served)
| step_listener m tr ls1 a k x ls2 served :
    (forall code, ~ exits (mkProcess m tr (ls1 ++ Vis a k :: ls2) served) code) ->
    process_step (mkProcess m tr (ls1 ++ Vis a k :: ls2) served)
                 (mkProcess m tr (ls1 ++ k x :: ls2) (served ++ [existT a x])).

Definition started (fuel : nat) (configPath : string) (sigs : list signal) : process :=
  mkProcess (main fuel configPath sigs) [] [] [].

(** [p] has done [tr] and has [p'] left. *)
Fixpoint reaches {A} (p : Pr A) (tr : list (event panswer)) (p' : Pr A) : Prop :=
  match tr with
  | [] => p' = p
  | existT a x :: tr => exists k, p = Vis a k /\ reaches (k x) tr p'
  end.

Lemma reaches_step {A} (p : Pr A) tr a (k : panswer a -> Pr A) x :
  reaches p tr (Vis a k) -> reaches p (tr ++ [existT a x]) (k x).
Proof.
  revert p. induction tr as [|[b y] tr IH]; intros p; cbn [reaches Datatypes.app].
  - intros <-. by exists k.
  - intros (k' & -> & Hr). exists k'. split; [done|]. by apply IH.
Qed.

Lemma reaches_executes {A} (p : Pr A) tr r : reaches p tr (Ret r) <-> executes p tr r.
Proof.
  revert p. induction tr as [|[b y] tr IH]; intros p; cbn [reaches].
  - split; [by intros <-|]. destruct p; [by intros [_ ->]|by intros (? & ? & ? & _)].
  - split.
    + intros (k & -> & Hr). exists y, tr. split; [done|]. by apply IH.
    + destruct p as [r'|a k]; [by intros [? _]|]. intros (x & tr' & Heq & Hex).
      simplify_eq. exists k. split; [done|]. by apply IH.
Qed.

(** A listener is waiting for its server to return, or has returned from it; it ends
    the process only after an error other than [http.ErrServerClosed]. *)
Definition listener_ok (served : list (event panswer)) (l : Pr (option Z)) : Prop :=
  match l with
  | Ret None => True
  | Ret (Some code) => code = 1 /\ exists name tls e, existT (PServe name tls) (Some (ServeError e)) ∈ served
  | _ => exists name tls, l = serving name tls
  end.

Lemma listener_ok_mono served served' l :
  (forall ev, ev ∈ served -> ev ∈ served') -> listener_ok served l -> listener_ok served' l.
Proof.
  intros Hsub. destruct l as [[code|]|]; [|done|done]. intros (-> & name & tls & e & H). split; [done|].
  exists name, tls, e. auto.
Qed.

(** What [main] does does not depend on the listeners, but for being cut off. *)
Record process_inv (p : Pr (option Z)) (s : process) : Prop := {
  pi_main : reaches p (p_done s) (p_main s);
  pi_listeners : Forall (listener_ok (p_served s)) (p_listeners s)
}.

Lemma process_inv_step p s s' : process_step s s' -> process_inv p s -> process_inv p s'.
Proof.
  intros Hstep [Hm Hl]. destruct Hstep as [a k x tr ls served _|m tr ls1 a k x ls2 served _]; simpl in *.
  - split; simpl; [by apply reaches_step|]. apply Forall_app. split; [done|].
    destruct a; try done. apply Forall_singleton. by eexists _, _.
  - split; simpl; [done|]. apply Forall_app in Hl as [H1 [Hv H2]%Forall_cons].
    assert (forall l, listener_ok served l -> listener_ok (served ++ [existT a x]) l) as Hmono
      by (intros l; apply listener_ok_mono; set_solver).
    apply Forall_app. split; [by eapply Forall_impl|]. apply Forall_cons. split; [|by eapply Forall_impl].
    destruct Hv as (name & tls & Heq). unfold serving, call in Heq. cbn [bind] in Heq. simplify_eq.
    match goal with H : existT _ _ = existT _ _ |- _ => apply (inj_pair2_eq_dec _ (fun a b => decide (a = b))) in H as -> end.
    cbn in x. destruct x as [[|e]|]; [exact I| |exact I]. split; [done|]. exists name, tls, e.
    apply elem_of_app. right. by left.
Qed.

Lemma process_invariant p s s' : rtc process_step s s' -> process_inv p s -> process_inv p s'.
Proof. induction 1; eauto using process_inv_step. Qed.

(** [main] may run on its own, with its listeners waiting. *)
Lemma main_alone m tr0 ls served tr m' :
  (forall l, l ∈ ls -> exists name tls, l = serving name tls) -> reaches m tr m' ->
  exists ls', rtc process_step (mkProcess m tr0 ls served) (mkProcess m' (tr0 ++ tr) (ls ++ ls') served) /\
    ls' = concat (map (fun ev => spawned (projT1 ev)) tr).
Proof.
  intros Hls. revert m tr0 ls Hls. induction tr as [|[a x] tr IH]; intros m tr0 ls Hls; cbn [reaches].
  - intros ->. exists []. rewrite !app_nil_r. by split; [apply rtc_refl|].
  - intros (k & -> & Hr). destruct (IH (k x) (tr0 ++ [existT a x]) (ls ++ spawned a)) as (ls' & Hrtc & ->); [|done|].
    { intros l [?|Hl]%elem_of_app; [auto|]. destruct a; try by apply elem_of_nil in Hl.
      apply list_elem_of_singleton in Hl as ->. by eexists _, _. }
    eexists. split; [|reflexivity]. eapply rtc_l; [constructor|].
    + intros code Hin. by destruct (Hls _ Hin) as (? & ? & [=]).
    + rewrite <- !app_assoc in Hrtc. exact Hrtc.
Qed.

(** ** Nothing is left open *)

(** The components a trace opened, and those it closed. *)
Definition opened_ev (ev : event panswer) : list component :=
  let '(existT a x) := ev in
  match a return panswer a -> list component with
  | POpen c => fun x => match x with None => [c] | Some _ => [] end
  | PMetaStore _ => fun _ => [CMetaStore]
  | _ => fun _ => []
  end x.

Definition closed_ev (ev : event panswer) : list component :=
  match projT1 ev with PClose c => [c] | _ => [] end.

Definition opened (tr : list (event panswer)) : list component := concat (map opened_ev tr).
Definition closed (tr : list (event panswer)) : list component := concat (map closed_ev tr).

Lemma opened_app tr1 tr2 : opened (tr1 ++ tr2) = opened tr1 ++ opened tr2.
Proof. unfold opened. by rewrite map_app, concat_app. Qed.

Lemma closed_app tr1 tr2 : closed (tr1 ++ tr2) = closed tr1 ++ closed tr2.
Proof. unfold closed. by rewrite map_app, concat_app. Qed.

Lemma close_all_spec cs tr : executes (close_all cs) tr tt -> opened tr = [] /\ closed tr = cs.
Proof.
  revert tr. induction cs as [|c cs IH]; intros tr; cbn [close_all]; [by intros [-> _]|].
  intros (x & tr' & -> & Hex). cbn [bind call] in Hex. destruct (IH _ Hex) as [H1 H2].
  split; [exact H1|]. change (c :: closed tr' = c :: cs). by rewrite H2.
Qed.

Lemma close_order_perm a : NoDup (parts a) -> closeSteps a ≡ₚ parts a.
Proof.
  intros Hnd. apply NoDup_Permutation; [|done|].
  - apply NoDup_filter. by apply (bool_decide_unpack (NoDup closing_order)).
  - intros c. unfold closeSteps. rewrite list_elem_of_filter. split; [by intros [? _]|].
    intros H. split; [done|]. unfold closing_order. destruct c; set_solver.
Qed.

(** A step opened exactly what it added to the application, closed nothing and kept
    the configuration. The components it may open are among [cs] and the stores it may
    register among [ns]; it panics only where one of them is registered already. *)
Definition builds (cs : list component) (ns : list string) (step : app -> Pr stepped) : Prop :=
  forall a tr r, executes (step a) tr r ->
    closed tr = [] /\ opened tr `sublist_of` cs /\
    match r with
    | Stepped a' | StepErr _ a' =>
        cfg a' = cfg a /\ parts a' = parts a ++ opened tr /\
        (forall n, n ∉ ns -> stores a' !! n = stores a !! n)
    | StepPanic => exists n, n ∈ ns /\ stores a !! n <> None
    end.

Lemma builds_compose cs1 cs2 ns1 ns2 s1 s2 :
  builds cs1 ns1 s1 -> builds cs2 ns2 s2 -> (forall n, n ∈ ns2 -> n ∉ ns1) ->
  builds (cs1 ++ cs2) (ns1 ++ ns2) (fun a => do r <- s1 a; andthen r s2).
Proof.
  intros H1 H2 Hd a tr r (tr1 & tr2 & r1 & -> & Hex1 & Hex2)%executes_bind.
  destruct (H1 _ _ _ Hex1) as (Hc1 & Ho1 & Hr1). rewrite closed_app, opened_app, Hc1.
  destruct r1 as [a1|e a1|].
  - destruct (H2 _ _ _ Hex2) as (Hc2 & Ho2 & Hr2). rewrite Hc2. split; [done|]. split; [by apply sublist_app|].
    destruct Hr1 as (Hcfg & Hp & Hst). destruct r as [a'|e a'|].
    1, 2: destruct Hr2 as (Hcfg2 & Hp2 & Hst2); split_and!; [congruence|by rewrite Hp2, Hp, app_assoc|];
      intros n Hn; rewrite not_elem_of_app in Hn; destruct Hn; by rewrite Hst2, Hst by done.
    destruct Hr2 as (n & Hn & Hs). exists n. rewrite elem_of_app. split; [by right|]. rewrite <- Hst by auto. done.
  - destruct Hex2 as [-> ->]. change (opened []) with (@nil component). rewrite !app_nil_r.
    split; [done|]. split; [by apply sublist_inserts_r|].
    destruct Hr1 as (? & ? & Hst). split_and!; [done..|]. intros n [Hn _]%not_elem_of_app. by apply Hst.
  - destruct Hex2 as [-> ->]. change (opened []) with (@nil component). rewrite !app_nil_r.
    split; [done|]. split; [by apply sublist_inserts_r|].
    destruct Hr1 as (n & Hn & Hs). exists n. rewrite elem_of_app. by split; [left|].
Qed.

(** The steps that open or register nothing, or one component at most. *)
Ltac build_step :=
  repeat match goal with
  | H : executes (if ?b then _ else _) _ _ |- _ => destruct b
  | H : executes (Ret _) _ _ |- _ => destruct H as [-> ->]
  | H : executes (match ?x with _ => _ end) _ _ |- _ => destruct x
  | H : executes _ _ _ |- _ => destruct H as (? & ? & -> & H); cbn [bind call] in H
  end; unfold opened, closed; simpl; rewrite ?app_nil_r;
  split_and!; auto using sublist_nil_l.

Lemma initTelemetry_builds : builds [CTelemetry] [] initTelemetry.
Proof. intros a tr r Hex. unfold initTelemetry in Hex. build_step. Qed.

Lemma buildMetaStore_builds : builds [CMetaStore] [] buildMetaStore.
Proof. intros a tr r Hex. unfold buildMetaStore in Hex. build_step. Qed.

Lemma buildManagers_builds : builds [CManager] [] buildManagers.
Proof. intros a tr r Hex. unfold buildManagers in Hex. build_step. Qed.

Lemma buildAuthenticator_builds : builds [] [] buildAuthenticator.
Proof. intros a tr r Hex. unfold buildAuthenticator in Hex. build_step. Qed.

Lemma buildRateLimiter_builds : builds [] [] buildRateLimiter.
Proof. intros a tr r Hex. unfold buildRateLimiter in Hex. build_step. Qed.

Lemma buildServers_builds : builds [] [] buildServers.
Proof. intros a tr r Hex. unfold buildServers, newGRPCServer in Hex. build_step. Qed.

Lemma loadTLSCerts_builds : builds [] [] loadTLSCerts.
Proof. intros a tr r Hex. unfold loadTLSCerts in Hex. cbn zeta in Hex. build_step. Qed.

(** Registering a store that is not registered yet. *)
Lemma register_builds name checker a :
  match register name checker a with
  | Stepped a' | StepErr _ a' =>
      cfg a' = cfg a /\ parts a' = parts a /\ (forall n, n ∉ [name] -> stores a' !! n = stores a !! n)
  | StepPanic => exists n, n ∈ [name] /\ stores a !! n <> None
  end.
Proof.
  unfold register, Register. destruct (stores a !! name) eqn:Hs; simpl.
  - exists name. rewrite Hs. by split; [left|].
  - split_and!; [done..|]. intros n Hn. rewrite list_elem_of_singleton in Hn. by rewrite lookup_insert_ne.
Qed.

Lemma register_fs_builds : builds [CFS] ["fs"] register_fs.
Proof.
  intros a tr r Hex. unfold register_fs in Hex. destruct (_ || _); [|build_step].
  destruct Hex as (x & tr' & -> & Hex). cbn [bind call] in Hex. destruct x; [build_step|].
  destruct Hex as [-> ->]. split; [done|]. split; [done|]. apply (register_builds "fs" None (add_part CFS a)).
Qed.

Lemma register_s3_builds : builds [] ["s3"] register_s3.
Proof.
  intros a tr r Hex. unfold register_s3 in Hex. cbn zeta in Hex. destruct (negb _); [|build_step].
  destruct Hex as (x & tr' & -> & Hex). cbn [bind call] in Hex. destruct x; [build_step|].
  destruct Hex as [-> ->]. split; [done|]. split; [done|]. unfold opened. simpl. rewrite app_nil_r.
  apply (register_builds "s3" None a).
Qed.

Lemma register_clickhouse_builds : builds [CClickHouse] ["clickhouse"] register_clickhouse.
Proof.
  intros a tr r Hex. unfold register_clickhouse in Hex. destruct (negb _); [|build_step].
  destruct Hex as (x & tr' & -> & Hex). cbn [bind call] in Hex. destruct x; [build_step|].
  destruct Hex as [-> ->]. split; [done|]. split; [done|].
  apply (register_builds "clickhouse" _ (add_part CClickHouse a)).
Qed.

Definition check_default (a : app) : Pr stepped :=
  match GetStore (DefaultStorage (Instance (cfg a))) (stores a) with
  | Err e => Ret (StepErr (WrapError "default storage backend is not available" e) a)
  | Ok _ => Ret (Stepped a)
  end.

Lemma check_default_builds : builds [] [] check_default.
Proof. intros a tr r Hex. unfold check_default in Hex. build_step. Qed.

Lemma registerStorage_builds : builds [CFS; CClickHouse] ["fs"; "s3"; "clickhouse"] registerStorage.
Proof.
  intros a tr r Hex. unfold registerStorage in Hex.
  pose proof (builds_compose _ _ _ _ _ _ (builds_compose _ _ _ _ _ _ (builds_compose _ _ _ _ _ _
    register_fs_builds register_s3_builds ltac:(set_solver)) register_clickhouse_builds ltac:(set_solver))
    check_default_builds ltac:(set_solver)) as H.
  apply (H a tr r). clear H.
  apply executes_bind in Hex as (tr1 & tr2 & r1 & -> & H1 & Hex).
  apply executes_bind in Hex as (tr3 & tr4 & r2 & -> & H2 & Hex).
  apply executes_bind in Hex as (tr5 & tr6 & r3 & -> & H3 & Hex).
  apply executes_bind. exists ((tr1 ++ tr3) ++ tr5), tr6, r3. rewrite !app_assoc. split_and!; [done| |].
  - apply executes_bind. exists (tr1 ++ tr3), tr5, r2. split_and!; [done| |done].
    apply executes_bind. by exists tr1, tr3, r1.
  - by destruct r3.
Qed.

Lemma run_steps_spec specs steps a tr r :
  Forall2 (fun sp step => builds sp.1 sp.2 step) specs steps ->
  NoDup (concat (map snd specs)) -> (forall n, n ∈ concat (map snd specs) -> stores a !! n = None) ->
  executes (run_steps steps a) tr r ->
  opened tr `sublist_of` concat (map fst specs) /\
  match r with
  | Stepped a' => closed tr = [] /\ parts a' = parts a ++ opened tr
  | StepErr _ a' => closed tr = closeSteps a' /\ parts a' = parts a ++ opened tr
  | StepPanic => False
  end.
Proof.
  intros HF. revert a tr. induction HF as [|[cs ns] step specs steps Hb _ IH]; intros a tr Hnd Hfree.
  { intros [-> ->]. unfold opened. simpl. by rewrite app_nil_r. }
  cbn [run_steps map concat fst snd] in *. apply NoDup_app in Hnd as (_ & Hd & Hnd).
  intros (tr1 & tr2 & r1 & -> & H1 & Hex)%executes_bind.
  destruct (Hb _ _ _ H1) as (Hc1 & Ho1 & Hr1). rewrite closed_app, opened_app, Hc1. destruct r1 as [a1|e a1|].
  - destruct Hr1 as (_ & Hp & Hst). destruct (IH a1 tr2) as [Ho2 Hr2]; [done| |done|].
    { intros n Hn. rewrite Hst; [apply Hfree; set_solver|]. intros Hin. by apply (Hd n). }
    split; [by apply sublist_app|]. rewrite app_assoc, <- Hp. by destruct r.
  - apply executes_bind in Hex as (tr3 & tr4 & [] & -> & [Hoc Hcc]%close_all_spec & [-> ->]).
    rewrite app_nil_r, Hoc, Hcc, app_nil_r. split; [by apply sublist_inserts_r|]. by destruct Hr1 as (_ & ? & _).
  - destruct Hr1 as (n & Hn & Hs). destruct Hs. apply Hfree. set_solver.
Qed.

(** A start is all or nothing: it never panics, whatever the configuration; when it
    succeeds, the components of the application are exactly those that were opened and
    none is closed yet, and closing it closes each of them once; when it fails, every
    component that was opened has been closed once, the users of a component before the
    component and telemetry last. *)
Lemma startup_all_or_nothing configPath tr out :
  executes (newApp configPath) tr out ->
  match out with
  | None => False
  | Some (Ok a) => NoDup (parts a) /\ parts a = opened tr /\ closed tr = [] /\ closeSteps a ≡ₚ parts a
  | Some (Err _) => NoDup (opened tr) /\ closed tr ≡ₚ opened tr
  end /\ closed tr `sublist_of` closing_order.
Proof.
  unfold newApp. intros (x & tr' & -> & Hex). cbn [bind call] in Hex.
  destruct x as [c|e]; [|destruct Hex as [-> ->]; split; [split; [constructor|done]|apply sublist_nil_l]].
  apply executes_bind in Hex as (tr1 & tr2 & r & -> & Hr & Hex).
  assert (tr2 = []) as -> by (by destruct r; destruct Hex as [-> _]). rewrite app_nil_r.
  change (opened (existT (PConfig configPath) (Ok c) :: tr1)) with (opened tr1).
  change (closed (existT (PConfig configPath) (Ok c) :: tr1)) with (closed tr1).
  apply (run_steps_spec [([CTelemetry], []); ([CMetaStore], []); ([CFS; CClickHouse], ["fs"; "s3"; "clickhouse"]);
    ([CManager], []); ([], []); ([], []); ([], []); ([], [])]) in Hr as [Hsub Hr].
  2: { do 8 (apply List.Forall2_cons; [cbn [fst snd]; auto using initTelemetry_builds, buildMetaStore_builds,
         registerStorage_builds, buildManagers_builds, buildAuthenticator_builds, buildRateLimiter_builds,
         buildServers_builds, loadTLSCerts_builds|]). apply List.Forall2_nil. }
  2: { apply (bool_decide_unpack _). by vm_compute. }
  2: { intros n _. apply lookup_empty. }
  assert (NoDup (opened tr1)) as Hnd.
  { eapply sublist_NoDup; [|exact Hsub]. apply (bool_decide_unpack _). by vm_compute. }
  destruct r as [a|e a|]; [| |done].
  - destruct Hex as [_ ->]. destruct Hr as [Hcl Hp]. simpl in Hp. rewrite Hcl. split; [|apply sublist_nil_l].
    rewrite Hp. split_and!; [done..|]. rewrite <- Hp. apply close_order_perm. by rewrite Hp.
  - destruct Hex as [_ ->]. destruct Hr as [Hcl Hp]. simpl in Hp. rewrite Hcl. split.
    + split; [done|]. rewrite <- Hp. apply close_order_perm. by rewrite Hp.
    + apply sublist_filter.
Qed.

(** ** Draining ends *)

(** The clock does not go back, and sleeping takes at least as long as asked. *)
Definition tick (t : time) (ev : event panswer) : time :=
  let '(existT a x) := ev in
  match a return panswer a -> time with
  | PNow => fun x => x
  | PSleep d => fun _ => t + d
  | _ => fun _ => t
  end x.

Definition tick_ok (t : time) (ev : event panswer) : Prop :=
  let '(existT a x) := ev in
  match a return panswer a -> Prop with
  | PNow => fun x => t <= x
  | _ => fun _ => True
  end x.

Fixpoint ticks (t : time) (tr : list (event panswer)) : Prop :=
  match tr with
  | [] => True
  | ev :: tr => tick_ok t ev /\ ticks (tick t ev) tr
  end.

(** Counts are numbers of queries. *)
Definition counts_ok (ev : event panswer) : Prop :=
  let '(existT a x) := ev in
  match a return panswer a -> Prop with
  | PCountInFlight => fun x => 0 <= x
  | _ => fun _ => True
  end x.

Lemma drain_loop_ends fuel deadline lm tr out t :
  executes (drain_loop fuel deadline lm) tr out -> ticks t tr -> Forall counts_ok tr ->
  Lifecycle.IsDraining lm = true -> deadline < t + Z.of_nat (fuel - 1) * Second -> (0 < fuel)%nat ->
  exists done lm', out = Some (done, lm') /\
    Lifecycle.state lm' = (if done then Lifecycle.StateStoppable else Lifecycle.StateDraining) /\
    (done = true -> existT PCountInFlight 0 ∈ tr) /\
    (done = false -> exists now, existT PNow now ∈ tr /\ deadline < now).
Proof.
  revert lm tr t. induction fuel as [|fuel IH]; intros lm tr t; [lia|]. cbn [drain_loop].
  intros (n & tr1 & -> & Hex) [_ Hticks] [Hn Hcounts]%Forall_cons Hlm Hdl _. cbn [bind call] in Hex.
  cbn [counts_ok] in Hn. cbn [tick] in Hticks.
  pose proof (Lifecycle.Advance_state n lm Hn Hlm) as Hst.
  pose proof (Lifecycle.Advance_draining n lm) as Hdr. rewrite Hlm in Hdr.
  assert (Lifecycle.state (Lifecycle.Advance n lm).2 = (Lifecycle.Advance n lm).1) as Hs by done.
  destruct (Z.eqb_spec n 0) as [->|Hne].
  { destruct Hex as [-> ->]. eexists true, _. split_and!; [done|congruence| |done]. intros _. by left. }
  destruct Hex as (now & tr2 & -> & Hex). cbn [bind call] in Hex.
  destruct Hticks as [Hnow Hticks]. cbn [tick_ok tick] in Hnow, Hticks. apply Forall_cons in Hcounts as [_ Hcounts].
  destruct (time_after now deadline) eqn:Hafter.
  { destruct Hex as [-> ->]. eexists false, _. split_and!; [done|congruence|done|]. intros _. exists now.
    split; [right; by left|]. unfold time_after in Hafter. by apply Z.ltb_lt. }
  destruct Hex as (u & tr3 & -> & Hex). cbn [bind call] in Hex. destruct Hticks as [_ Hticks].
  cbn [tick] in Hticks. apply Forall_cons in Hcounts as [_ Hcounts].
  unfold time_after in Hafter. apply Z.ltb_ge in Hafter.
  assert (1 <= Z.of_nat fuel) as Hf by (unfold Second in *; lia).
  destruct (IH _ _ _ Hex Hticks Hcounts Hdr) as (fin & lm' & -> & H1 & H2 & H3); [unfold Second in *; lia|lia|].
  exists fin, lm'. split_and!; [done|done| |].
  - intros Hd. do 3 right. by apply H2.
  - intros Hd. destruct (H3 Hd) as (now' & Hin & ?). exists now'. split; [by do 3 right|done].
Qed.

Definition drain_rounds : nat := 32.

Lemma drain_ends lm tr out t :
  executes (drain drain_rounds lm) tr out -> ticks t tr -> Forall counts_ok tr ->
  exists done lm' start tr', out = Some (done, lm') /\ tr = existT PDrain tt :: existT PNow start :: tr' /\
    Lifecycle.state lm' = (if done then Lifecycle.StateStoppable else Lifecycle.StateDraining) /\
    (done = true -> existT PCountInFlight 0 ∈ tr') /\
    (done = false -> exists now, existT PNow now ∈ tr' /\ start + drainTimeout < now).
Proof.
  unfold drain. intros ([] & tr1 & -> & Hex) [_ Hticks] [_ Hcounts]%Forall_cons. cbn [bind call] in Hex.
  destruct Hex as (start & tr2 & -> & Hex). cbn [bind call] in Hex. destruct Hticks as [_ Hticks].
  apply Forall_cons in Hcounts as [_ Hcounts]. cbn [tick] in Hticks.
  destruct (drain_loop_ends _ _ _ _ _ _ Hex Hticks Hcounts) as (fin & lm' & -> & H1 & H2 & H3);
    [done|unfold time_add, drainTimeout, drain_rounds, Second; simpl; lia|unfold drain_rounds; lia|].
  by exists fin, lm', start, tr2.
Qed.

Lemma ticks_app t tr1 tr2 : ticks t (tr1 ++ tr2) -> exists t', ticks t' tr2.
Proof. revert t. induction tr1 as [|ev tr1 IH]; intros t; simpl; [eauto|]. intros [_ H]. eauto. Qed.

Lemma ticks_prefix t tr1 tr2 : ticks t (tr1 ++ tr2) -> ticks t tr1.
Proof. revert t. induction tr1 as [|ev tr1 IH]; intros t; simpl; [done|]. intros [? ?]. split; eauto. Qed.

(** *** From the first signal to the exit *)

Definition neutral (a : paction) : Prop :=
  match a with POpen _ | PMetaStore _ | PClose _ => False | _ => True end.

Lemma neutral_trace tr : Forall (fun ev : event panswer => neutral (projT1 ev)) tr -> opened tr = [] /\ closed tr = [].
Proof.
  induction 1 as [|[a x] tr Ha _ [IH1 IH2]]; [done|]. unfold opened, closed in *. cbn [map concat].
  rewrite IH1, IH2. by destruct a.
Qed.

Lemma serve_neutral a : only neutral (serve a).
Proof.
  unfold serve. generalize (listeners a). induction l as [|[name [srv|]] l IH]; cbn [serve_all]; [done| |done].
  apply only_bind; [|by intros []]. unfold serveOne. simpl. split; [done|]. by intros [].
Qed.

Lemma drain_neutral fuel lm : only neutral (drain fuel lm).
Proof.
  simpl. split; [done|]. intros _. split; [done|]. intros now. generalize (time_add now drainTimeout). intros d.
  generalize (Lifecycle.SetState Lifecycle.StateDraining lm). induction fuel as [|fuel IH]; intros lm'; simpl; [done|].
  split; [done|]. intros n. destruct (n =? 0); [done|]. split; [done|]. intros now'.
  destruct (time_after now' d); [done|]. split; [done|]. intros _. apply IH.
Qed.

Lemma awaitSignals_neutral fuel sigs lm a : only neutral (awaitSignals fuel sigs lm a).
Proof.
  induction sigs as [|sig sigs IH]; cbn [awaitSignals]; [done|]. case_bool_decide; [by split|].
  unfold runShutdown. apply only_bind; [apply drain_neutral|]. intros [[b lm']|]; [|done].
  apply only_bind; [|done]. unfold stopServers. apply only_for_each. intros [name [srv|]] u; simpl; [|done]. by split.
Qed.

(** A signal that ends the process does so, however many queries are left. *)
Lemma awaitSignals_ends sigs lm a tr out t :
  SIGINT ∈ sigs \/ SIGTERM ∈ sigs -> executes (awaitSignals drain_rounds sigs lm a) tr out ->
  ticks t tr -> Forall counts_ok tr -> out <> None.
Proof.
  revert tr t. induction sigs as [|sig sigs IH]; intros tr t Hsig; [set_solver|]. cbn [awaitSignals].
  case_bool_decide as Hs.
  - subst sig. intros (x & tr' & -> & Hex) [_ Ht] [_ Hc]%Forall_cons. cbn [bind call] in Hex.
    eapply IH; [|done..]. set_solver.
  - unfold runShutdown. intros (tr1 & tr2 & d & -> & Hd & Hex)%executes_bind Ht Hc.
    assert (ticks t tr1) as Ht1 by (by eapply ticks_prefix).
    apply Forall_app in Hc as [Hc1 _].
    destruct (drain_ends _ _ _ _ Hd Ht1 Hc1) as (fin & lm' & _ & _ & -> & _).
    by apply executes_bind in Hex as (? & ? & ? & _ & _ & [_ ->]).
Qed.

(** [main] on its own. *)
Lemma main_stops configPath sigs tr out t :
  executes (main drain_rounds configPath sigs) tr out -> ticks t tr -> Forall counts_ok tr ->
  (SIGINT ∈ sigs \/ SIGTERM ∈ sigs -> out <> None) /\
  (out <> None -> NoDup (opened tr) /\ closed tr ≡ₚ opened tr /\ closed tr `sublist_of` closing_order).
Proof.
  unfold main. intros (tr1 & tr2 & r & -> & Hnew%startup_all_or_nothing & Hex)%executes_bind Ht Hc.
  rewrite opened_app, closed_app. destruct r as [[a|e]|]; [| |by destruct Hnew].
  2: { destruct Hnew as [[Hnd Hcl] Hsub]. destruct Hex as [-> ->]. rewrite !app_nil_r. by split_and!. }
  destruct Hnew as [(Hnd & Hp & Hcl & Hperm) _]. rewrite Hcl, <- Hp. cbn [Datatypes.app].
  apply executes_bind in Hex as (tr3 & tr4 & err & -> & Hs & Hex).
  destruct (neutral_trace tr3) as [Ho3 Hc3]; [eapply only_executes; [apply serve_neutral|exact Hs]|].
  apply ticks_app in Ht as [t1 Ht]. apply ticks_app in Ht as [t2 Ht].
  apply Forall_app in Hc as [_ Hc]. apply Forall_app in Hc as [_ Hc].
  rewrite opened_app, closed_app, Ho3, Hc3. cbn [Datatypes.app].
  assert (forall trc, executes (Close a) trc tt -> NoDup (parts a ++ opened trc) /\
    closed trc ≡ₚ parts a ++ opened trc /\ closed trc `sublist_of` closing_order) as Hclose.
  { intros trc [-> ->]%close_all_spec. rewrite app_nil_r. split_and!; [done..|]. apply sublist_filter. }
  destruct err as [e|].
  { apply executes_bind in Hex as (trc & tr6 & [] & -> & Hcl' & [-> ->]). rewrite app_nil_r.
    split; [done|]. intros _. by apply Hclose. }
  apply executes_bind in Hex as (tr5 & tr6 & stopped & -> & Ha & Hex).
  destruct (neutral_trace tr5) as [Ho5 Hc5]; [eapply only_executes; [apply awaitSignals_neutral|exact Ha]|].
  rewrite opened_app, closed_app, Ho5, Hc5. cbn [Datatypes.app].
  assert (SIGINT ∈ sigs \/ SIGTERM ∈ sigs -> stopped <> None) as Hstop.
  { intros Hsig. apply Forall_app in Hc as [Hc _]. eapply awaitSignals_ends; [done|exact Ha| |done].
    by eapply ticks_prefix. }
  destruct stopped as [lm|]; [|destruct Hex as [_ ->]; split; [intros Hsig; by destruct (Hstop Hsig)|done]].
  apply executes_bind in Hex as (trc & tr7 & [] & -> & Hcl' & [-> ->]). rewrite app_nil_r.
  split; [done|]. intros _. by apply Hclose.
Qed.

(** C9. The process stops, and cleanly unless a listener breaks. However the goroutines
    that serve the listeners run beside [main], once [main] has received an interrupt
    or a termination signal, and whatever queries are still running, its wait for them
    ends after at most 32 rounds and it exits, provided the clock does not go back and
    sleeping takes at least its time. When the process exits, either [main] did so -
    after a failed start, a listener that could not be bound or a signal - and every
    component that had been opened has been closed exactly once, its users first; or it
    is a listener whose server returned an error other than [http.ErrServerClosed],
    and the status is 1. *)
Theorem process_stops configPath sigs s t :
  rtc process_step (started drain_rounds configPath sigs) s ->
  ticks t (p_done s) -> Forall counts_ok (p_done s) ->
  (SIGINT ∈ sigs \/ SIGTERM ∈ sigs -> p_main s <> Ret None) /\
  (forall code, exits s code ->
     (p_main s = Ret (Some code) /\ NoDup (opened (p_done s)) /\ closed (p_done s) ≡ₚ opened (p_done s) /\
      closed (p_done s) `sublist_of` closing_order) \/
     (code = 1 /\ exists name tls e, existT (PServe name tls) (Some (ServeError e)) ∈ p_served s)).
Proof.
  intros Hrtc Ht Hc. destruct (process_invariant (main drain_rounds configPath sigs) _ _ Hrtc) as [Hm Hl];
    [by split; [|constructor]|].
  assert (forall out, p_main s = Ret out ->
    (SIGINT ∈ sigs \/ SIGTERM ∈ sigs -> out <> None) /\
    (out <> None -> NoDup (opened (p_done s)) /\ closed (p_done s) ≡ₚ opened (p_done s) /\
       closed (p_done s) `sublist_of` closing_order)) as Hmain.
  { intros out Ho. rewrite Ho in Hm. apply reaches_executes in Hm. by eapply main_stops. }
  split.
  - intros Hsig Ho. by apply (Hmain _ Ho).
  - intros code [Ho|Hin]; [left|right].
    + split; [done|]. by apply (Hmain _ Ho).
    + rewrite Forall_forall in Hl. by apply Hl in Hin.
Qed.

End Build.

(** ** Authentication is in front of both transports *)














End App.

(** ** Examples *)

Definition demo_config : Config.Config :=
  mkConfig (mkInstance "dbb-1" "memory" "" "" 0 "fs" 0 0 "")
    (mkServer ":8080" ":9090" 0 0 0 0 None 0 "" (mkTLS "" "" false) (mkRateLimit (S754_zero false) 0))
    (Some (mkAuth (Some [mkAuthToken "alice" "t0" "" (Some ["read"])])))
    (mkDefaults 0 0 0 false)
    (mkStorage (mkFS "/tmp") (mkS3 "" "" "" "" "") (mkCH "" "")) [].

(** An environment in which everything can be built and one query never ends; its
    state is the time. *)
Definition demo_process (a : paction) (now : time) : panswer a * time :=
  match a return panswer a * time with
  | PConfig _ => (Ok demo_config, now)
  | POpen _ | PS3 _ | PTLS _ _ | PTracing | PClose _ | PShutdown _ | PReload => (None, now)
  | PMetaStore _ | PGoServe _ _ | PDrain => (tt, now)
  | PServe _ _ => (Some ErrServerClosed, now)
  | PListen _ addr => (Ok addr, now)
  | PCountInFlight => (1, now)
  | PNow => (now, now)
  | PSleep d => (tt, now + d)
  end.

Definition demo_failure (e : Authn.auth_error) : error := PlainError "auth".

Definition demo_run (sigs : list signal) :=
  run demo_process (main (B := unit) (fun _ => "") demo_failure drain_rounds "dbbridge.yaml" sigs) 0.

(** The state after [main] has run with its listeners waiting. *)
Definition demo_state (sigs : list signal) : process :=
  mkProcess (Ret (demo_run sigs).1.1) (demo_run sigs).1.2
    (concat (map (fun ev => spawned (projT1 ev)) (demo_run sigs).1.2)) [].

Lemma demo_reached sigs :
  rtc process_step (started (B := unit) (fun _ => "") demo_failure drain_rounds "dbbridge.yaml" sigs) (demo_state sigs).
Proof.
  destruct (main_alone (main (B := unit) (fun _ => "") demo_failure drain_rounds "dbbridge.yaml" sigs) [] [] []
    (demo_run sigs).1.2 (Ret (demo_run sigs).1.1)) as (ls & Hrtc & ->).
  - intros l Hl. by apply elem_of_nil in Hl.
  - apply reaches_executes, run_executes.
  - exact Hrtc.
Qed.

Lemma process_stops_witness :
  let s := demo_state [SIGHUP; SIGTERM] in
  exits s 0 /\ closed (p_done s) ≡ₚ opened (p_done s) /\ length (opened (p_done s)) = 4%nat.
Proof.
  assert (exits (demo_state [SIGHUP; SIGTERM]) 0) as He by (left; vm_compute; reflexivity).
  split; [exact He|].
  destruct (process_stops (B := unit) (fun _ => "") demo_failure "dbbridge.yaml" [SIGHUP; SIGTERM]
    (demo_state [SIGHUP; SIGTERM]) 0 (demo_reached _)) as [_ H].
  - vm_compute. repeat split; intros H; discriminate H.
  - vm_compute. repeat constructor; intros H; discriminate H.
  - destruct (H _ He) as [(_ & _ & H' & _)|(H' & _)]; [|discriminate H'].
    split; [exact H'|]. vm_compute. reflexivity.
Defined.

(** A listener that fails while the process serves: the process exits with nothing
    closed. *)
Lemma listener_failure_leaves_open :
  exists s, rtc process_step (started (B := unit) (fun _ => "") demo_failure drain_rounds "dbbridge.yaml" []) s /\
    exits s 1 /\ length (opened (p_done s)) = 4%nat /\ closed (p_done s) = [].
Proof.
  set (rest := [serving "gRPC / Connect API" false]).
  exists (mkProcess (Ret None) (demo_run []).1.2 (Ret (Some 1) :: rest)
    ([] ++ [existT (PServe "REST API" false) (Some (ServeError (PlainError "accept tcp: too many open files")))])).
  split_and!; [|right; by left|vm_compute; reflexivity|vm_compute; reflexivity].
  eapply rtc_r; [apply demo_reached|].
  replace (demo_state []) with (mkProcess (Ret None) (demo_run []).1.2 ([] ++ serving "REST API" false :: rest) [])
    by (vm_compute; reflexivity).
  apply (step_listener _ _ [] (PServe "REST API" false)
    (fun err => match err with Some (ServeError _) => Ret (Some 1) | _ => Ret None end) (Some (ServeError (PlainError "accept tcp: too many open files"))) rest).
  intros code [[=]|Hin]. cbn [p_listeners Datatypes.app] in Hin. unfold rest in Hin. rewrite !elem_of_cons, elem_of_nil in Hin. by destruct Hin as [[=]|[[=]|?]].
Qed.


