(* ===== verification/Transports.v ===== *)
(** * The two transports compared

    What a client sees of an operation through [internal/transport/rest] and through
    [internal/transport/grpcconnect]: the JSON types of the one and, read with the
    generated accessors, the messages of the other. *)

From S2P Require Import Prelude Domain Utf8 SqlGuard Authn Lifecycle Config MetaStore Prog ManagerState.
From S2P Require Import Manager World Submission Service RateLimit Rest Messages Grpc.

Open Scope Z_scope.
Open Scope dbb_scope.

(** ** Messages as a client reads them *)

Definition options_seen (o : option v1_QueryOptions) : queryOptionsDTO :=
  mkOptionsDTO (v1_QueryOptions_GetTimeoutMs o) (v1_QueryOptions_GetMode o) (v1_QueryOptions_GetResultTtlSeconds o)
    (v1_QueryOptions_GetIdempotencyKey o) (v1_QueryOptions_GetResultFormat o) (v1_QueryOptions_GetStorageBackend o).

Definition stats_seen (s : option v1_QueryStats) : queryStatsDTO :=
  mkStatsDTO (v1_QueryStats_GetRowsRead s) (v1_QueryStats_GetBytesWritten s) (v1_QueryStats_GetDbExecDurationMs s)
    (v1_QueryStats_GetStorageWriteDurationMs s) (v1_QueryStats_GetTotalDurationMs s).

(** The code of an error is a string in both. *)
Definition error_seen (e : v1_QueryError) : string * string * bool :=
  (v1_QueryError_GetCode (Some e), v1_QueryError_GetMessage (Some e), v1_QueryError_GetRetryable (Some e)).

Definition error_sent (e : QueryError) : string * string * bool :=
  (QueryErrorCode_string (Records.Code e), Message e, Retryable e).

Definition ref_seen (r : v1_ResultRef) : ResultRef :=
  mkResultRef (v1_ResultRef_GetBackend (Some r)) (v1_ResultRef_GetLocator (Some r)) (v1_ResultRef_GetSizeBytes (Some r))
    (v1_ResultRef_GetRowCount (Some r)) (v1_ResultRef_GetFormat (Some r)) (v1_ResultRef_GetChecksum (Some r)).

Definition database_seen (d : option v1_DatabaseInfo) : DatabaseInfo :=
  mkDatabaseInfo (v1_DatabaseInfo_GetId d) (v1_DatabaseInfo_GetEngine d) (v1_DatabaseInfo_GetDisplayName d)
    (v1_DatabaseInfo_GetHealthy d).

(** The name of a state over gRPC for its string over REST. *)
Definition state_name (s : string) : string :=
  if bool_decide (s ∈ map QueryState_string [StatePending; StateRunning; StateSucceeded; StateFailed; StateCanceled; StateExpired])
  then "QUERY_STATE_" +:+ s else "QUERY_STATE_UNSPECIFIED".

Definition millis_of (t : option time) : Z := match t with Some t => UnixMilli t | None => 0 end.

(** The same record. (A state with a constructor of its own is not also written as
    another string.) *)
Record record_alike (d : queryRecordDTO) (m : option v1_QueryRecord) : Prop := {
  ra_texts : v1_QueryRecord_GetId m = dto_ID d /\ v1_QueryRecord_GetDatabaseId m = dto_DatabaseID d /\
    v1_QueryRecord_GetSql m = dto_SQL d /\ v1_QueryRecord_GetOwnerInstanceId m = dto_OwnerInstanceID d /\
    v1_QueryRecord_GetIdempotencyKey m = dto_IdempotencyKey d /\ v1_QueryRecord_GetSubject m = dto_Subject d;
  ra_options : options_seen (v1_QueryRecord_GetOptions m) = dto_Options d;
  ra_state : exists s, dto_State d = QueryState_string s /\
    (QueryState_of_string (dto_State d) = s -> QueryState_name !! v1_QueryRecord_GetState m = Some (state_name (dto_State d)));
  ra_times : (IsZero (dto_CreatedAt d) = false -> v1_QueryRecord_GetCreatedAtMs m = UnixMilli (dto_CreatedAt d)) /\
    v1_QueryRecord_GetStartedAtMs m = millis_of (dto_StartedAt d) /\
    v1_QueryRecord_GetFinishedAtMs m = millis_of (dto_FinishedAt d) /\
    v1_QueryRecord_GetLeaseDeadlineMs m = millis_of (dto_LeaseDeadline d);
  ra_error : error_seen <$> v1_QueryRecord_GetError m = error_sent <$> dto_Error d;
  ra_stats : stats_seen (v1_QueryRecord_GetStats m) = dto_Stats d;
  ra_result : ref_seen <$> v1_QueryRecord_GetResult m = dto_Result d
}.

Lemma state_alike s :
  QueryState_of_string (QueryState_string s) = s ->
  QueryState_name !! mapToProtoState s = Some (state_name (QueryState_string s)).
Proof.
  destruct s as [| | | | | |s]; try (intros _; vm_compute; reflexivity). intros Hs. unfold state_name.
  rewrite bool_decide_false; [by vm_compute|]. cbn [QueryState_string] in *. intros Hin.
  cbn [map QueryState_string] in Hin. rewrite !elem_of_cons, elem_of_nil in Hin. naive_solver.
Qed.

Lemma mapped_alike r : record_alike (toRecordDTO r) (Some (mapToProtoRecord r)).
Proof.
  assert (forall t, unixMillis t = millis_of (optionalTime t)) as Ht.
  { intros t. unfold unixMillis, optionalTime. by destruct (IsZero t). }
  split; cbn; [done|done| |split_and!; [|apply Ht..]| |done|].
  - exists (rec_State r). split; [done|]. apply state_alike.
  - intros Hz. unfold unixMillis. by rewrite Hz.
  - by destruct (rec_Error r).
  - by destruct (rec_Result r) as [[]|].
Qed.

(** ** The same operations *)

(** Two programs that do the same to their environment, with answers in relation. *)
Definition same_behaviour {A B} (R : A -> B -> Prop) (p : M A) (q : M B) : Prop :=
  forall tr, (forall a, executes p tr a -> exists b, executes q tr b /\ R a b) /\
             (forall b, executes q tr b -> exists a, executes p tr a /\ R a b).

Lemma same_ret {A B} (R : A -> B -> Prop) a b : R a b -> same_behaviour R (Ret a) (Ret b).
Proof. intros HR tr. split; intros ? [-> ->]; [by exists b|by exists a]. Qed.

Lemma same_after {C A B} (R : A -> B -> Prop) (s : M C) (f : C -> M A) (g : C -> M B) :
  (forall c, same_behaviour R (f c) (g c)) -> same_behaviour R (bind s f) (bind s g).
Proof.
  intros HR tr. split.
  - intros a (tr1 & tr2 & c & -> & Hs & Hf)%executes_bind. destruct (proj1 (HR c tr2) a Hf) as (b & Hg & ?).
    exists b. split; [|done]. apply executes_bind. by exists tr1, tr2, c.
  - intros b (tr1 & tr2 & c & -> & Hs & Hg)%executes_bind. destruct (proj2 (HR c tr2) b Hg) as (a & Hf & ?).
    exists a. split; [|done]. apply executes_bind. by exists tr1, tr2, c.
Qed.

Section Compared.
Context `{Unicode} (me : captured) (authRequired : bool) (maxRequestBytes : Z).

(** An error is reported with the same status and text; what else is answered is in
    relation [R]. *)
Definition answered_alike {B} (rq : http_request) (R : Z -> body -> B -> Prop) (resp : response) (ans : rpc_error + B) : Prop :=
  match ans with
  | inl e => status resp = http_status (rpc_code e) /\ resp_body resp = BodyError (rpc_message e) (rq_requestID rq)
  | inr m => R (status resp) (resp_body resp) m
  end.

Lemma error_answered {B} rq (R : Z -> body -> B -> Prop) e : answered_alike rq R (writeError rq e) (inl (connectError e)).
Proof. destruct (connectError_classify e) as [H1 H2]. cbn. by rewrite H1, H2. Qed.

(** A message with the content of a REST body and its header. *)
Definition carries (msg : v1_StartQueryRequest) (p : StartQueryPayload) (key : string) : Prop :=
  v1_StartQueryRequest_GetDatabaseId (Some msg) = pay_DatabaseID p /\ v1_StartQueryRequest_GetSql (Some msg) = pay_SQL p /\
  options_seen (v1_StartQueryRequest_GetOptions (Some msg)) =
    mkOptionsDTO (pay_TimeoutMs p) (pay_Mode p) (pay_ResultTTLSeconds p) key (pay_ResultFormat p) (pay_StorageBackend p).

Lemma carried_options msg p key : carries msg p key -> message_options (v1_StartQueryRequest_Options msg) = payload_options p key.
Proof.
  intros (_ & _ & Ho). unfold options_seen in Ho. cbn [v1_StartQueryRequest_GetOptions] in Ho. unfold message_options, payload_options.
  destruct (v1_StartQueryRequest_Options msg) as [o|]; injection Ho as <- <- <- <- <- <-; done.
Qed.

(** C17. An operation does the same through either transport. A submission of a
    statement to a database with the same content, a request for the status, the
    statistics or the end of a query, a download by offset and length, the list of the
    databases and the question whether the instance can be stopped make the same calls
    in the same order, with the same outcomes possible; an error is reported with the
    same status and text, and what is answered, read with the accessors of the
    messages, is what the JSON has: the fields of the record, its options and
    statistics, its state by name, its times to the millisecond. *)
Theorem transports_equivalent caller rq p msg :
  rq_body rq = Decoded p -> pay_DatabaseID p <> "" -> pay_SQL p <> "" -> carries msg p (rq_IdempotencyKey rq) -> rq_id rq <> "" ->
  same_behaviour (answered_alike rq (fun st b m => exists d, (st = 200 \/ st = 202) /\ b = BodyRecord d /\
      record_alike d (v1_StartQueryResponse_GetRecord (Some m))))
    (handleStartQuery me maxRequestBytes caller rq) (rpc_StartQuery me msg caller) /\
  same_behaviour (answered_alike rq (fun st b m => exists d, st = 200 /\ b = BodyRecord d /\
      record_alike d (v1_GetQueryStatusResponse_GetRecord (Some m))))
    (handleGetQueryStatus authRequired caller rq) (rpc_GetQueryStatus authRequired (mk_v1_GetQueryStatusRequest (rq_id rq)) caller) /\
  same_behaviour (answered_alike rq (fun st b m => st = 200 /\ b = BodyStats (stats_seen (v1_GetQueryStatsResponse_GetStats (Some m)))))
    (handleGetQueryStats authRequired caller rq) (rpc_GetQueryStats authRequired (mk_v1_GetQueryStatsRequest (rq_id rq)) caller) /\
  same_behaviour (answered_alike rq (fun st b m => st = 200 /\ b = BodyStopped (v1_StopQueryResponse_GetQueryId (Some m)) /\
      v1_StopQueryResponse_GetStatus (Some m) = "STOPPED"))
    (handleStopQuery me authRequired caller rq) (rpc_StopQuery me authRequired (mk_v1_StopQueryRequest (rq_id rq)) caller) /\
  (forall offset limit, download_window rq = inr (offset, limit, None) ->
     same_behaviour (answered_alike rq (fun st b '(reader, section) => st = 200 /\ b = BodyStream reader section))
       (handleDownloadResult authRequired caller rq)
       (rpc_DownloadResult authRequired (mk_v1_DownloadResultRequest (rq_id rq) offset limit) caller)) /\
  same_behaviour (answered_alike rq (fun st b m => st = 200 /\
      b = BodyDatabases (map database_seen (v1_ListDatabasesResponse_GetDatabases (Some m)))))
    (handleListDatabases caller rq) (rpc_ListDatabases mk_v1_ListDatabasesRequest) /\
  same_behaviour (fun resp m => status resp = 200 /\ exists n st, v1_CanIBeStoppedResponse_GetInFlightCount (Some m) = wrap32 n /\
      v1_CanIBeStoppedResponse_GetInstanceState (Some m) = Lifecycle.State_string st /\
      resp_body resp = BodyCanStop (v1_CanIBeStoppedResponse_GetCanBeStopped (Some m)) n st)
    (handleCanIBeStopped me caller rq) (rpc_CanIBeStopped me mk_v1_CanIBeStoppedRequest).
Proof.
  intros Hbody Hdb Hsql Hc Hid. split_and!.
  - unfold handleStartQuery, rpc_StartQuery. rewrite Hbody, (bool_decide_false _ Hdb), (bool_decide_false _ Hsql).
    rewrite (carried_options _ _ _ Hc). destruct Hc as (<- & <- & _). apply same_after. intros [record|e]; apply same_ret;
      [|apply error_answered]. exists (toRecordDTO record). cbn. split_and!; [case_bool_decide; auto|done|apply mapped_alike].
  - unfold handleGetQueryStatus, with_id. rewrite (bool_decide_false _ Hid). apply same_after. intros [record|e]; apply same_ret;
      [|apply error_answered]. exists (toRecordDTO record). split_and!; [done..|apply mapped_alike].
  - unfold handleGetQueryStats, with_id. rewrite (bool_decide_false _ Hid). apply same_after. intros [s|e]; apply same_ret;
      [by destruct s|apply error_answered].
  - unfold handleStopQuery, with_id. rewrite (bool_decide_false _ Hid). apply same_after. intros [e|]; apply same_ret;
      [apply error_answered|done].
  - intros offset limit Hw. unfold handleDownloadResult, with_id. rewrite (bool_decide_false _ Hid), Hw. apply same_after.
    intros [[[reader section] ref]|e]; apply same_ret; [done|apply error_answered].
  - apply same_after. intros dbs. apply same_ret. cbn. split; [done|]. f_equal. rewrite map_map. symmetry. rewrite <- (map_id dbs) at 2.
    apply map_ext. by intros [].
  - apply same_after. intros [[canStop inFlight] st]. apply same_ret. split; [done|]. by exists inFlight, st.
Qed.

End Compared.

(** ** Examples *)

Definition compared_payload : StartQueryPayload := mkPayload "pg" "select 1" 500 "async" 60 "csv" "".

Definition compared_request : http_request := mkRequest "q1" "Bearer t0ken" [] "k" "" "" "" (Decoded compared_payload) "r1".

Definition compared_message : v1_StartQueryRequest :=
  mk_v1_StartQueryRequest "pg" "select 1" (Some (mk_v1_QueryOptions 500 "async" 60 "k" "csv" "")).

(** A submission over REST, made over gRPC instead. *)
Lemma transports_equivalent_witness :
  let out := demo_run (handleStartQuery (self demo_qm) 1024 None compared_request) demo_world in
  status out.1.1 = 202 /\
  exists m, executes (rpc_StartQuery (self demo_qm) compared_message None) out.1.2 (inr m) /\
    v1_QueryRecord_GetSql (v1_StartQueryResponse_GetRecord (Some m)) = "select 1".
Proof.
  cbv zeta. split; [vm_compute; reflexivity|].
  destruct (proj1 (transports_equivalent (self demo_qm) true 1024 None compared_request compared_payload compared_message
    eq_refl ltac:(discriminate) ltac:(discriminate) (conj eq_refl (conj eq_refl eq_refl)) ltac:(discriminate))
    (demo_run (handleStartQuery (self demo_qm) 1024 None compared_request) demo_world).1.2) as [Hto _].
  destruct (Hto _ (demo_executes (handleStartQuery (self demo_qm) 1024 None compared_request) demo_world)) as (ans & Hex & Hans).
  destruct ans as [e|m].
  - exfalso. destruct Hans as [_ Hb]. vm_compute in Hb. discriminate Hb.
  - exists m. split; [exact Hex|]. destruct Hans as (d & _ & Hb & Hr). destruct (ra_texts _ _ Hr) as (_ & _ & Hsql & _).
    rewrite Hsql. assert (exists sql, sql = "select 1" /\ match resp_body (demo_run (handleStartQuery (self demo_qm) 1024 None compared_request) demo_world).1.1
      with BodyRecord d => dto_SQL d = sql | _ => True end) as (sql & <- & Hd) by (eexists; split; [reflexivity|vm_compute; reflexivity]).
    rewrite Hb in Hd. exact Hd.
Defined.
